(* ===== verification/_CoqProject ===== *)
-Q . S2P
Prelude.v
Lock.v
TicketLock.v
QueueLock.v
CondVar.v
NonPreempt.v
Config.v
Ring.v
RingConc.v
RingMulti.v
Types.v
Sys.v
Structure.v
Memory.v
Ipc.v
GraphInit.v
GraphWf.v
Startup.v
Teardown.v
Buffers.v
Query.v
Search.v
Lookup.v
Double.v
Depth.v
Print.v
Ownership.v
Stream.v
Transfer.v
Tokens.v
Firing.v
Ending.v
RingData.v
Board.v
Wakeup.v
Alone.v
Api.v
Driver.v
Describe.v
Rates.v
Work.v
Sets.v
Periodic.v
Tests.v
Threads.v
Relay.v
RingTest.v
RingSums.v
DataTest.v
PingPong.v
