(* ===== verification/Prelude.v ===== *)
(** * PGM^RT: a verification development for the graph runtime

    PGM^RT runs processing graphs: nodes are threads, edges carry tokens and
    data from a producer to a consumer, and a node fires when every inbound edge
    has enough.  The library is one C++ file, src/pgm.cpp, with its interface
    include/pgm.h, a ring buffer, include/ring.h, and locks and a condition
    variable of its own (ticketlock.h, queuelock.h, spinlock.h, condvar.h).
    This development models that code as Rocq functions and proves what they do.

    ** How the code is modelled

    A C function that changes the process is a function in the state monad [ST]
    over [pgm_state] (the globals of pgm.cpp, the heap, and a [world] that stands
    for the rest of the machine).  Early returns and [goto out] are the branches
    of nested tests, in the order of the code.  Undefined behaviour and calls
    that never return are values of [fault]: a null pointer, an index outside its
    array, a bad shift, a failed [assert], a self-deadlock, a call that sleeps.
    Pointers to graphs, nodes and edges are their indices; arrays are finite maps
    with a size, accessed through [aget] and [aset]; what was never written reads
    as zero, as after the [memset]s of the code.  Counters of type [size_t] are
    integers with their wrap-around written out.  System calls and the C and
    Boost libraries are methods of the class [Syscalls], about which nothing is
    assumed except where a theorem names a law (as [Pipes] does for [read] and
    [WriteEnd] for [write]); Boost's file system and path algorithms are the
    classes [Filesystem] and [Boost], with their documented behaviour as
    [FilesystemLaws] and [BoostLaws], its string algorithms and [gcd] and [lcm]
    the class [BoostText] with [BoostTextLaws] and [BoostMathLaws].  The calls that
    prepare the directory of a graph may throw, which nothing in the library
    catches (the fault [Uncaught]); [remove] and [exists] on a FIFO are taken to
    answer.  Code that runs on several threads at once is a step relation, one
    shared access a step.

    ** Files

    - Prelude: this header, record update, the monads, C integers, arrays,
      memory blocks and C strings, and the lemmas and tactics the rest shares.
    - Lock: what a spinlock is for its users.  A lock gives the steps of its
      lock and unlock, and which step is its doorway (class [SpinLock]); a
      [history] of a run lists the threads in the order in which they passed the
      doorway, and in the order in which they got the lock.  It is a FIFO lock when
      every run can be matched by a queue of threads, joined at the doorway (class
      [FifoLock]): then no two threads are inside at once, and who got the lock is,
      in order, a prefix of who arrived.  TicketLock:
      ticketlock.h is a FIFO lock for at most 2^32 threads, wrap-around of the
      tickets included.  QueueLock: queuelock.h is one, its list of waiting
      threads built and taken apart access by access.  CondVar: condvar.h over
      any FIFO lock refines a condition variable: the log of who entered, left,
      went to sleep and signalled is a history of a monitor, in which a signal wakes
      a waiting thread, also one that has not yet reached the system call.
      NonPreempt: the
      [_np] routines around any such lock give a FIFO lock whose owner cannot be
      preempted.  Config: config.h, and the lock its settings select.
    - Ring: ring.h in full.  [write_vec_ring] and [read_vec_ring] refine a bounded
      FIFO queue (class [FifoChannel]), [init_ring] rounds up to a power of two.
    - RingConc: one writer and one reader on a ring, one shared access at a time.
      In every interleaving: FIFO order, no fault, no race on a slot's bytes.
      RingMulti: the same for any number of writers and one reader.
    - Types: the structures of pgm.h and pgm.cpp and the accesses to them.
      Sys: the system calls, and worlds to run the model in.
    - Structure: the part of a graph the queries see, its well-formedness
      [graph_wf], and the calls that keep it.
    - Memory: edge buffers, "Memory Management Routines" of pgm.cpp.
      Buffers: their layout, and that both swap routines keep every edge end the
      owner of the buffer it points to.
    - Ipc: init, open, close and destroy of the five kinds of edges.
    - GraphInit: [pgm_init_process_local], [pgm_destroy], and the creation and
      destruction of graphs, nodes and edges.  Startup: [pgm_init] and the
      directory it prepares.  GraphWf: creation keeps
      [graph_wf] and adds exactly what was asked for.  Teardown:
      [pgm_destroy_graph] refuses graphs in use and frees the others.
    - Query: the find, get, degree, ancestor and DAG routines.  Search: the two
      depth-first searches against reachability.  Lookup: what the queries
      return.  Double: the operations on IEEE doubles.  Depth:
      [pgm_get_max_depth] and [pgm_get_min_depth] return the weight of a heaviest
      and of a lightest path from a source.  Print: what [pgm_print_graph]
      writes can be read back as the graph.
    - Ownership: [pgm_claim_node], [pgm_claim_any_node], [pgm_release_node].
    - Stream: sending and receiving data, [pgm_send_std_data] to
      [pgm_recv_data].  Transfer: on FIFO edges, messages are framed and
      unframed correctly whatever the sizes of reads and writes, and a message is
      sent within as many tries as it has bytes and the pipe refuses ([refusals]).
    - Tokens: readiness, [pgm_wait], [pgm_complete], [pgm_terminate].  Firing:
      what they do to tokens, run by one thread.  Ending: what [pgm_terminate]
      does.  Wakeup: the threads of all
      nodes interleaved access by access, whatever the transfer of data in between
      says; no wake-up is lost.  Alone: as a check of that step relation, one such
      thread, undisturbed, does what the calls of Tokens do.  Board: on a graph of
      edges that pass single tokens, what every call does in terms of a [board]
      of tokens, ended producers and owners.
    - Api: the calls of pgm.h as one type and the programs that use them; every
      graph any such program sees is well formed.
    - Driver: how tools/pgmrt.cpp reads its command line (graph description,
      rates, times, sizes, processors), exceptions as values of [DM].  Describe:
      the text of a description builds exactly the graph it describes.  Rates:
      the rates worked out for the nodes of such a graph are exact, and the work
      list they come from runs empty.  Work: the threads of pgmrt, their jobs and
      working sets, and [main].  Sets: what a job writes into a working set the
      consumer's job finds there.  Periodic: the thread of a source ends in time,
      with idealised clocks ([ClockLaws]: never set back, sleeps not interrupted).
    - Tests: ancestortest, dottest and depthtest, run.  Threads: the thread
      function the threaded test programs share, with its barrier, threads taking
      turns between the calls of the library; what the programs differ in is a
      [program]; cvtest as a whole.  Relay: the threads of cvtest, basictest and
      sockstreamtest on any acyclic graph of at most 27 nodes and single-token
      condition-variable edges, proved over the [board]; in every interleaving they are never stuck, fire every node equally
      often and end.
    - RingData: what [pgm_complete], [pgm_terminate] and [pgm_wait] do over a ring
      edge.  RingTest: ringtest.  RingSums: in every interleaving of its two
      threads, once both have claimed their nodes, what is sent is received in
      order and both print the same sum.
    - DataTest: backedgetest and datapassingtest, and the mains of basictest and
      sockstreamtest, run in a world with FIFOs and message queues.
    - PingPong: tools/pingpong.cpp, which uses the operating system and not the
      library.  Its calls are the class [PosixCalls]; under the laws of a channel
      ([PipeLaws]) and for a positive number of rounds its two workers end, in every
      interleaving, with the token at twice that number.

    ** Theorems

    Besides the groups above, several theorems record where the code does
    something else than it means to: counts above [2^63] in [init_ring], the
    handle one past the end of [gGraphs], the edge slot lost when a node's edge
    list is full, the signed one-bit producer flag, buffers of unopened edges,
    the return value of [pgm_get_edge_attrs], nodes told apart by name in
    [pgm_is_dag], tokens that keep a node from ending, tokens consumed below
    zero, a barrier that lets a test program run one node twice, a test that sends
    the bytes of a spare buffer, a division by zero in pingpong, a message
    overwritten when [pgm_recv_data] starts over, paths that escape the
    directories [safePath] allows, an exception of the file system that leaves
    [pgm_init], names that are printed past the end of their buffer, edge slots that
    are printed but were never filled, and a description with a number to consume
    and no threshold, which the help of pgmrt allows and the library refuses.

    ** Bounds

    The depth-first searches have fuel [dfs_fuel], one more than the number of
    node slots, and are proved never to run out.  The loops that depend on other
    processes take their bound as a parameter: [fuel] rounds of sending and
    receiving one message ([Transfer] proves how many are enough), rounds of the
    work list of [parse_graph_rates] (as many as the graph has walks are enough,
    which [Rates] proves), [rounds]
    returns to [select], [retries] attempts to open a FIFO for writing; running
    out is the fault [OutOfFuel], never a result.  [prepare_dir] passes through
    [create_dir] at most once, so a bound of one is enough, which is proved.
    The threads of Threads and of PingPong need no bound: [Relay], [RingSums] and
    [PingPong] prove how many turns a run has.
    The busy loop and the jobs of a pgmrt thread are bounded by [spin] and
    [jobs]; one round per nanosecond of execution time and one job per period
    are enough, which [Periodic] proves.
    Decimal numbers are printed with at most twenty digits, enough for 64 bits.
    The condition variable's sequence number has 32 bits: its theorem covers runs
    of fewer than 2^32 signals (and 2^31 threads).

    ** Not modelled

    The bodies of the shared-memory routines, which the default configuration of
    config.h compiles out; [iopl] and the pause instruction of atomic.h; the
    memory model below sequential consistency; diagnostics on stderr; the
    LITMUS^RT branches of tools/pgmrt.cpp, which the default build leaves out;
    the parsing of options by Boost; the scheduling and affinity calls of pingpong.
    [Relay] covers edges that pass single tokens and [RingSums] two nodes joined by
    a ring edge; for FIFOs, message queues, sockets and back edges there are the
    theorems of [Transfer] on one thread and the runs of [DataTest].  The threads of
    pgmrt are run one at a time.  In [Relay] and [RingSums] a call is one step, a
    read or write that finds the ring empty or full included (the call is then made
    again from its beginning); [Wakeup] has the calls of several threads
    interleaved access by access. *)

From stdpp Require Export base tactics numbers list gmap strings.
From Stdlib Require Export ZArith Lia.
From Stdlib Require Import Ascii String.

Declare Scope pgm_scope.
Delimit Scope pgm_scope with pgm.
Global Open Scope Z_scope.
Global Open Scope pgm_scope.

Create HintDb pgm.
Create Rewrite HintDb pgm_rw.

(** ** Record update

    [r <| f := v |>] is the record [r] with its field [f] set to [v], the Rocq
    counterpart of [r.f = v].  A record type becomes updatable by an [Eta]
    instance that spells out its constructor applied to its projections. *)

Class Eta (R : Type) := eta : R -> R.

Class Setter {R T : Type} (proj : R -> T) := set_field : (T -> T) -> R -> R.
Arguments set_field {R T} proj {_} _ _.

Ltac derive_setter :=
  lazymatch goal with
  | |- @Setter ?R ?T ?proj =>
      let inst := constr:(ltac:(typeclasses eauto) : Eta R) in
      exact (fun (upd : T -> T) (r : R) =>
        ltac:(let body := eval cbv [eta] in (@eta R inst r) in
              let body := eval hnf in body in
              lazymatch eval pattern (proj r) in body with
              | (fun _ => ?b) _ => fail "not a field of the record"
              | ?h _ => exact (h (upd (proj r)))
              end))
  end.

#[export] Hint Extern 1 (Setter _) => derive_setter : typeclass_instances.

Notation "r <| f := v |>" := (set_field f (fun _ => v) r)
  (at level 1, left associativity, format "r  <|  f  :=  v  |>") : pgm_scope.
Notation "r <| f ::= u |>" := (set_field f u r)
  (at level 1, left associativity, format "r  <|  f  ::=  u  |>") : pgm_scope.

(** ** Outcomes and state passing

    A call either finishes ([Ok]) or runs into behaviour the program gives no
    meaning to ([Fault]): a null or out-of-range access, an undefined shift, a
    division by zero, a failed [assert], or a lock that is taken twice; or it is left
    by an exception that nothing catches ([Uncaught]).  Two are not errors of the
    program.  [Blocks]: the call does not return until another thread acts.  [OutOfFuel]: a loop of the model was
    given fewer rounds than it needs. *)

Inductive fault :=
| NullDeref
| OutOfBounds
| BadShift
| DivByZero
| AssertFailure
| Deadlock
| Blocks
| Uncaught
| OutOfFuel.

Inductive outcome (A : Type) :=
| Ok (a : A)
| Fault (f : fault).
Arguments Ok {A} a.
Arguments Fault {A} f.

#[global] Instance outcome_ret : MRet outcome := fun A a => Ok a.
#[global] Instance outcome_bind : MBind outcome := fun A B k m =>
  match m with Ok a => k a | Fault f => Fault f end.

(** Calls that also change the state they run on. *)
Definition ST (S A : Type) : Type := S -> outcome (A * S).

#[global] Instance ST_ret {S} : MRet (ST S) := fun A a s => Ok (a, s).
#[global] Instance ST_bind {S} : MBind (ST S) := fun A B k m s =>
  match m s with Ok (a, s') => k a s' | Fault f => Fault f end.

Definition get {S} : ST S S := fun s => Ok (s, s).
Definition put {S} (s : S) : ST S unit := fun _ => Ok (tt, s).
Definition lift {S A} (o : outcome A) : ST S A :=
  fun s => match o with Ok a => Ok (a, s) | Fault f => Fault f end.
Definition fail {S A} (f : fault) : ST S A := fun _ => Fault f.

(** [for(i : l) body]: every element in order. *)
Fixpoint for_each {M : Type -> Type} `{MBind M, MRet M} {A : Type}
    (l : list A) (body : A -> M unit) : M unit :=
  match l with
  | [] => mret tt
  | x :: l => body x ≫= fun _ => for_each l body
  end.

(** [for(i : l) acc = body]: a loop that updates local variables. *)
Fixpoint for_acc {M : Type -> Type} `{MBind M, MRet M} {A B : Type}
    (l : list A) (acc : B) (body : A -> B -> M B) : M B :=
  match l with
  | [] => mret acc
  | x :: l => body x acc ≫= fun acc' => for_acc l acc' body
  end.

(** [for(i : l) if(...) { ...; break; }]: [body] returns [Some] to leave the
    loop with a result. *)
Fixpoint for_break {M : Type -> Type} `{MBind M, MRet M} {A B : Type}
    (l : list A) (body : A -> M (option B)) : M (option B) :=
  match l with
  | [] => mret None
  | x :: l => body x ≫= fun r =>
      match r with Some b => mret (Some b) | None => for_break l body end
  end.

(** What such a search finds when its tests do not change anything. *)
Fixpoint first_some {A B : Type} (f : A -> option B) (l : list A) : option B :=
  match l with
  | [] => None
  | x :: l => match f x with Some b => Some b | None => first_some f l end
  end.

(** The indices [0 .. n-1] of [for(int i = 0; i < n; ++i)]. *)
Definition upto (n : Z) : list Z := seqZ 0 n.

(** A state-passing call that finishes in a state satisfying [Q]. *)
Definition run_ok {S A} (m : ST S A) (s : S) (Q : A -> S -> Prop) : Prop :=
  match m s with Ok (a, s') => Q a s' | Fault _ => False end.

(** ** Machine integers *)

Definition wrap (w x : Z) : Z := x mod 2 ^ w.
Definition wrap64 (x : Z) : Z := x mod 2 ^ 64.
Definition wrap32 (x : Z) : Z := x mod 2 ^ 32.

(** The value of a [w]-bit two's complement integer with the bits of [x]. *)
Definition signed (w x : Z) : Z :=
  let y := x mod 2 ^ w in if y <? 2 ^ (w - 1) then y else y - 2 ^ w.

Lemma signed32_small x : - 2 ^ 31 <= x < 2 ^ 31 -> signed 32 x = x.
Proof.
  intros Hx. unfold signed. change (32 - 1) with 31.
  destruct (decide (0 <= x)).
  - rewrite Z.mod_small by lia. case_match eqn:E; lia.
  - rewrite <- (Z.mod_add x 1) by lia. rewrite Z.mod_small by lia. case_match eqn:E; lia.
Qed.

(** ** Zeroed storage and C arrays

    [zeroed] is the value that [memset(&x, 0, sizeof(x))] leaves.  An array
    [T a[N]] in zeroed storage is a finite map: an index without an entry
    still holds the zeroed value.  Reading or writing outside [0 .. N-1] is a
    fault. *)

Class Zeroed (A : Type) := zeroed : A.

#[global] Instance Zeroed_Z : Zeroed Z := 0.
#[global] Instance Zeroed_bool : Zeroed bool := false.

Definition cell {A} `{Zeroed A} (a : gmap Z A) (i : Z) : A := default zeroed (a !! i).

Definition in_range (size i : Z) : bool := (0 <=? i) && (i <? size).

Definition aget {A} `{Zeroed A} (size : Z) (a : gmap Z A) (i : Z) : outcome A :=
  if in_range size i then Ok (cell a i) else Fault OutOfBounds.

Definition aset {A} (size : Z) (a : gmap Z A) (i : Z) (v : A) : outcome (gmap Z A) :=
  if in_range size i then Ok (<[i := v]> a) else Fault OutOfBounds.

(** [x >> n] on a 64-bit word: the shift amount must be below 64. *)
Definition shr64 (x n : Z) : outcome Z :=
  if in_range 64 n then Ok (Z.shiftr x n) else Fault BadShift.

(** [__builtin_clzl(x)], undefined at zero. *)
Definition clzl (x : Z) : outcome Z :=
  if x =? 0 then Fault BadShift else Ok (63 - Z.log2 x).

Definition udiv (x y : Z) : outcome Z := if y =? 0 then Fault DivByZero else Ok (x / y).
Definition umod (x y : Z) : outcome Z := if y =? 0 then Fault DivByZero else Ok (x mod y).

(** ** Blocks of bytes

    What [malloc] and [calloc] return: a size and the bytes, by offset. *)

Record block := Block { b_size : Z; b_cells : gmap Z Z }.
#[global] Instance block_eta : Eta block := fun b => Block (b_size b) (b_cells b).

Definition byte_at (b : block) (i : Z) : Z := cell (b_cells b) i.

Definition bytes_at (b : block) (off n : Z) : list Z := byte_at b <$> seqZ off n.

Fixpoint store_bytes (m : gmap Z Z) (off : Z) (bs : list Z) : gmap Z Z :=
  match bs with
  | [] => m
  | x :: bs => <[off := x]> (store_bytes m (off + 1) bs)
  end.

(** [memcpy] out of and into a block. *)
Definition block_read (b : block) (off n : Z) : outcome (list Z) :=
  if (0 <=? off) && (off + n <=? b_size b) then Ok (bytes_at b off n) else Fault OutOfBounds.

Definition block_write (b : block) (off : Z) (bs : list Z) : outcome block :=
  if (0 <=? off) && (off + Z.of_nat (List.length bs) <=? b_size b)
  then Ok (b <| b_cells ::= fun m => store_bytes m off bs |>) else Fault OutOfBounds.

Definition block_get (b : block) (i : Z) : outcome Z := aget (b_size b) (b_cells b) i.

Definition block_set (b : block) (i v : Z) : outcome block :=
  m ← aset (b_size b) (b_cells b) i v; mret (b <| b_cells := m |>).

(** A pointer that may be null. *)
Definition deref {A} (p : option A) : outcome A :=
  match p with Some a => Ok a | None => Fault NullDeref end.

(** ** C strings

    A [const char*] argument is the list of its characters; everything from
    the first NUL on is invisible to the functions below.  A [char name[80]]
    field is the list of its 80 bytes. *)

Definition NUL : ascii := Ascii.zero.

Definition lit (s : string) : list ascii := list_ascii_of_string s.

Fixpoint strnlen (s : list ascii) (max : nat) : nat :=
  match max, s with
  | S max, c :: s => if bool_decide (c = NUL) then O else S (strnlen s max)
  | _, _ => O
  end.

Definition char_at (s : list ascii) : ascii := List.hd NUL s.

(** [0 == strncmp(a, b, n)] *)
Fixpoint strncmp_eq (a b : list ascii) (n : nat) : bool :=
  match n with
  | O => true
  | S n =>
      if bool_decide (char_at a = char_at b)
      then if bool_decide (char_at a = NUL) then true
           else strncmp_eq (List.tl a) (List.tl b) n
      else false
  end.

(** The [n] bytes [strncpy] stores: the characters of [src], then NULs. *)
Fixpoint strncpy_bytes (src : list ascii) (n : nat) : list ascii :=
  match n with
  | O => []
  | S n =>
      match src with
      | [] => NUL :: strncpy_bytes [] n
      | c :: src => if bool_decide (c = NUL) then NUL :: strncpy_bytes [] n
                    else c :: strncpy_bytes src n
      end
  end.

Definition strncpy (dst src : list ascii) (n : nat) : list ascii :=
  strncpy_bytes src n ++ drop n dst.

(** [std::string(buf)] on a [char] array: the characters before the first NUL;
    without one the constructor reads past the end of the array. *)
Fixpoint std_string (buf : list ascii) : outcome string :=
  match buf with
  | [] => Fault OutOfBounds
  | c :: buf =>
      if bool_decide (c = NUL) then Ok EmptyString
      else s ← std_string buf; mret (String c s)
  end.

(** ** Tactics *)

Ltac simpl_outcome :=
  unfold mbind, mret, outcome_bind, outcome_ret, ST_bind, ST_ret, get, put, lift, fail in *;
  simpl in *.

(** Case analysis on the scrutinee of a [match] or [if] that blocks the goal
    or a hypothesis. *)
Ltac case_outcome :=
  match goal with
  | H : context [match ?x with Ok _ => _ | Fault _ => _ end] |- _ =>
      lazymatch x with
      | context [match _ with _ => _ end] => fail
      | _ => let E := fresh "E" in destruct x as [?|?] eqn:E
      end
  | |- context [match ?x with Ok _ => _ | Fault _ => _ end] =>
      lazymatch x with
      | context [match _ with _ => _ end] => fail
      | _ => let E := fresh "E" in destruct x as [?|?] eqn:E
      end
  end.

Ltac bool_to_prop :=
  repeat match goal with
  | H : _ && _ = true |- _ => apply andb_true_iff in H; destruct H
  | H : _ || _ = false |- _ => apply orb_false_iff in H; destruct H
  | H : negb _ = true |- _ => apply negb_true_iff in H
  | H : negb _ = false |- _ => apply negb_false_iff in H
  | H : bool_decide _ = true |- _ => apply bool_decide_eq_true in H
  | H : bool_decide _ = false |- _ => apply bool_decide_eq_false in H
  | H : (_ =? _) = true |- _ => apply Z.eqb_eq in H
  | H : (_ =? _) = false |- _ => apply Z.eqb_neq in H
  | H : (_ <? _) = true |- _ => apply Z.ltb_lt in H
  | H : (_ <? _) = false |- _ => apply Z.ltb_ge in H
  | H : (_ <=? _) = true |- _ => apply Z.leb_le in H
  | H : (_ <=? _) = false |- _ => apply Z.leb_gt in H
  end.

(** ** Lemmas the components share *)

Lemma in_range_spec (n i : Z) : in_range n i = true <-> 0 <= i < n.
Proof. unfold in_range. rewrite andb_true_iff, Z.leb_le, Z.ltb_lt. tauto. Qed.

Lemma in_range_true (n i : Z) : 0 <= i < n -> in_range n i = true.
Proof. apply in_range_spec. Qed.

Lemma in_range_false (n i : Z) : in_range n i = false <-> ~ 0 <= i < n.
Proof. rewrite <- in_range_spec. destruct (in_range n i); naive_solver. Qed.

Lemma cell_insert {A} `{Zeroed A} (m : gmap Z A) (i j : Z) (v : A) :
  cell (<[i := v]> m) j = if decide (i = j) then v else cell m j.
Proof. unfold cell. rewrite lookup_insert. by case_decide. Qed.

Lemma cell_insert_eq {A} `{Zeroed A} (m : gmap Z A) (i : Z) (v : A) :
  cell (<[i := v]> m) i = v.
Proof. rewrite cell_insert. by case_decide. Qed.

Lemma cell_insert_ne {A} `{Zeroed A} (m : gmap Z A) (i j : Z) (v : A) :
  i <> j -> cell (<[i := v]> m) j = cell m j.
Proof. rewrite cell_insert. by case_decide. Qed.

Lemma aget_ok {A} `{Zeroed A} (n : Z) (m : gmap Z A) (i : Z) :
  0 <= i < n -> aget n m i = Ok (cell m i).
Proof. intros. unfold aget. by rewrite in_range_true. Qed.

Lemma aset_ok {A} (n : Z) (m : gmap Z A) (i : Z) (v : A) :
  0 <= i < n -> aset n m i v = Ok (<[i := v]> m).
Proof. intros. unfold aset. by rewrite in_range_true. Qed.

Lemma aget_inv {A} `{Zeroed A} (n : Z) (m : gmap Z A) (i : Z) (v : A) :
  aget n m i = Ok v -> 0 <= i < n /\ v = cell m i.
Proof.
  unfold aget. destruct (in_range n i) eqn:E; [|done].
  rewrite in_range_spec in E. intros [= <-]. done.
Qed.

#[export] Hint Rewrite @cell_insert_eq : pgm_rw.
#[export] Hint Resolve in_range_true : pgm.

Lemma wrap64_small (x : Z) : 0 <= x < 2 ^ 64 -> wrap64 x = x.
Proof. apply Z.mod_small. Qed.

Lemma udiv_ok (a b : Z) : b <> 0 -> udiv a b = Ok (a / b).
Proof. intros Hb. unfold udiv. by rewrite (proj2 (Z.eqb_neq b 0) Hb). Qed.

Lemma upto_nil (n : Z) : n <= 0 -> upto n = [].
Proof. intros. unfold upto. by apply seqZ_nil. Qed.

Lemma upto_snoc (n : Z) : 0 <= n -> upto (n + 1) = upto n ++ [n].
Proof.
  intros. unfold upto. by rewrite seqZ_app by lia.
Qed.

Lemma elem_of_upto (n i : Z) : i ∈ upto n <-> 0 <= i < n.
Proof. unfold upto. rewrite elem_of_seqZ. lia. Qed.

Lemma bind_ok {A B} (m : outcome A) (k : A -> outcome B) (b : B) :
  m ≫= k = Ok b -> exists a, m = Ok a /\ k a = Ok b.
Proof. destruct m; simpl; [eauto | done]. Qed.

Lemma st_bind_ok {S A B} (m : ST S A) (k : A -> ST S B) (s : S) (b : B) (s' : S) :
  (m ≫= k) s = Ok (b, s') -> exists a s1, m s = Ok (a, s1) /\ k a s1 = Ok (b, s').
Proof. unfold mbind, ST_bind. destruct (m s) as [[a s1]|]; [eauto | done]. Qed.

(** *** Loops whose bodies only read *)

Lemma for_break_pure {S A B} (l : list A) (body : A -> ST S (option B)) (f : A -> option B) (s : S) :
  (forall x, x ∈ l -> body x s = Ok (f x, s)) -> for_break l body s = Ok (first_some f l, s).
Proof.
  induction l as [|x l IH]; intros Hb; [done|]. simpl. unfold mbind, ST_bind.
  rewrite Hb by constructor. destruct (f x); [done|]. apply IH.
  intros y Hy. apply Hb. by constructor.
Qed.

Lemma for_acc_pure {S A B} (l : list A) (body : A -> B -> ST S B) (f : A -> B -> B) (s : S) (b : B) :
  (forall x b, x ∈ l -> body x b s = Ok (f x b, s)) ->
  for_acc l b body s = Ok (fold_left (fun b x => f x b) l b, s).
Proof.
  revert b. induction l as [|x l IH]; intros b Hb; [done|]. simpl. unfold mbind, ST_bind.
  rewrite Hb by constructor. apply IH. intros y c Hy. apply Hb. by constructor.
Qed.

Lemma first_some_None {A B} (f : A -> option B) (l : list A) :
  first_some f l = None <-> forall x, x ∈ l -> f x = None.
Proof.
  induction l as [|x l IH]; simpl.
  - split; [intros _ y Hy; by apply elem_of_nil in Hy | done].
  - destruct (f x) eqn:E; split; try done.
    + intros Hx. rewrite Hx in E by constructor. done.
    + intros Hl y Hy. apply elem_of_cons in Hy as [->|Hy]; [done|]. by apply IH.
    + intros Hl. apply IH. intros y Hy. apply Hl. by constructor.
Qed.

(** The first index of [0 .. n-1] that passes a test. *)
Lemma first_some_upto {B} (f : Z -> option B) (n : Z) (b : B) :
  first_some f (upto n) = Some b ->
  exists i, 0 <= i < n /\ f i = Some b /\ forall j, 0 <= j < i -> f j = None.
Proof.
  destruct (Z.le_ge_cases n 0) as [Hn|Hn]; [by rewrite upto_nil|].
  revert b. pattern n. apply natlike_ind; [done| |done]. clear n Hn.
  intros n Hn IH b. unfold Z.succ. rewrite upto_snoc by done.
  assert (Happ : forall l, first_some f (l ++ [n]) =
    match first_some f l with Some b => Some b | None => f n end).
  { intros l. induction l as [|x l IHl]; simpl; [by destruct (f n)|]. by destruct (f x). }
  rewrite Happ. destruct (first_some f (upto n)) eqn:E.
  - intros [= <-]. destruct (IH _ eq_refl) as (i & Hi & Hfi & Hj). exists i. split_and!; [lia|lia|done|done].
  - intros Hb. exists n. split_and!; [lia|lia|done|]. intros j Hj.
    apply (proj1 (first_some_None f (upto n)) E), elem_of_upto. lia.
Qed.

(** *** Bytes *)

Lemma cell_store_bytes (m : gmap Z Z) (off : Z) (bs : list Z) (k : Z) :
  cell (store_bytes m off bs) k =
  if decide (off <= k < off + Z.of_nat (List.length bs))
  then List.nth (Z.to_nat (k - off)) bs 0 else cell m k.
Proof.
  revert off. induction bs as [|x bs IH]; intros off; simpl.
  { case_decide; [lia | done]. }
  rewrite cell_insert, IH.
  destruct (decide (off = k)) as [->|].
  - rewrite decide_True by lia. by rewrite Z.sub_diag.
  - destruct (decide (off + 1 <= k < off + 1 + Z.of_nat (List.length bs))).
    + rewrite decide_True by lia.
      replace (Z.to_nat (k - off)) with (S (Z.to_nat (k - (off + 1)))) by lia. done.
    + by rewrite decide_False by lia.
Qed.

Lemma bytes_at_store_same (m : gmap Z Z) (s off n : Z) (bs : list Z) :
  n = Z.of_nat (List.length bs) ->
  bytes_at (Block s (store_bytes m off bs)) off n = bs.
Proof.
  intros ->. unfold bytes_at, byte_at. simpl. apply list_eq. intros i.
  rewrite list_lookup_fmap.
  destruct (decide (i < List.length bs)%nat) as [Hi|Hi].
  - rewrite lookup_seqZ_lt by lia. simpl. rewrite cell_store_bytes, decide_True by lia.
    replace (Z.to_nat (off + Z.of_nat i - off)) with i by lia.
    symmetry. destruct (lookup_lt_is_Some_2 bs i) as [x Hx]; [lia|].
    rewrite Hx. f_equal. symmetry. by apply nth_lookup_Some.
  - rewrite lookup_seqZ_ge by lia. simpl. symmetry. apply lookup_ge_None. lia.
Qed.

Lemma bytes_at_store_disjoint (m : gmap Z Z) (s off off' n : Z) (bs : list Z) :
  off' + n <= off \/ off + Z.of_nat (List.length bs) <= off' ->
  bytes_at (Block s (store_bytes m off bs)) off' n = bytes_at (Block s m) off' n.
Proof.
  intros Hd. unfold bytes_at, byte_at. simpl. apply list_fmap_ext. intros i k Hk.
  apply lookup_seqZ in Hk as [-> Hi].
  rewrite cell_store_bytes, decide_False by lia. done.
Qed.

Lemma length_bytes_at (b : block) (off n : Z) :
  List.length (bytes_at b off n) = Z.to_nat n.
Proof. unfold bytes_at. by rewrite length_fmap, length_seqZ. Qed.

(** *** Residues *)

Lemma mod_eq_close (a b n : Z) :
  0 < n -> a mod n = b mod n -> -n < a - b < n -> a = b.
Proof.
  intros Hn Hm Hd.
  assert (Hz : (a - b) mod n = 0).
  { rewrite Zminus_mod, Hm, Z.sub_diag. apply Z.mod_0_l. lia. }
  apply Z.mod_divide in Hz as [q Hq]; [|lia].
  assert (q = 0) as -> by nia. lia.
Qed.

Lemma mod_mod_divide (a n m : Z) : 0 < n -> (n | m) -> (a mod m) mod n = a mod n.
Proof. intros Hn Hd. symmetry. destruct Hd as [q ->].
  destruct (Z.eq_dec q 0) as [->|Hq]; [by rewrite Z.mul_0_l, Z.mod_0_r|].
  rewrite (Z.mod_eq a (q * n)) by nia.
  replace (a - q * n * (a / (q * n))) with (a + (- q * (a / (q * n))) * n) by ring.
  by rewrite Z.mod_add by lia.
Qed.
