(* ===== verification/Lock.v ===== *)
(** * Spinlocks: what they promise (include/spinlock.h)

    With PGM_SYNC_METHOD 1 the runtime locks nodes with the spinlocks of
    spinlock.h: a ticket lock or an MCS queue lock, chosen by
    PGM_SPINLOCK_TYPE.  This file holds the interface between such a lock and
    its users.  [SpinLock] is the code of a lock, one shared access at a time;
    [step] runs it with any number of threads in any order, and [history] records
    the order in which they pass the doorway of the lock and in which they get it;
    the laws of [FifoLock] say that the lock behaves like a queue of threads, joined
    in the doorway, of which the first owns the lock.  What follows for its users,
    first come first served included, is [lock_promises]. *)

From S2P Require Import Prelude.
From stdpp Require Export functions relations.

Module Lock.

(** Case analysis on what the hypotheses branch on. *)
Ltac split_matches :=
  repeat match goal with H : context [match ?x with _ => _ end] |- _ => destruct x eqn:?; simplify_eq/= end.

Definition tid := nat.

(** What a thread is doing with the lock; [P] are the places inside
    [spin_lock] and [spin_unlock]. *)
Inductive phase (P : Type) :=
| Out
| Locking (p : P)
| In
| Unlocking (p : P).
Arguments Out {P}.
Arguments Locking {P} p.
Arguments In {P}.
Arguments Unlocking {P} p.

(** The code of a lock.  [lk_step t s p] is the next access of thread [t] at
    [p]: what it leaves in memory, and where the thread is then, [None] when the
    call returns.  [lk_doorway t s p] says whether that access is the one by which the
    thread takes its place among those that want the lock. *)
Class SpinLock := {
  lk_shared : Type;
  lk_pc : Type;
  lk_init : lk_shared;
  lk_lock : lk_pc;
  lk_unlock : lk_pc;
  lk_step : tid -> lk_shared -> lk_pc -> outcome (lk_shared * option lk_pc);
  lk_doorway : tid -> lk_shared -> lk_pc -> bool
}.

(** ** Threads that use one lock *)

Section Threads.
Context `{SpinLock}.

Record conf := Conf { shared : lk_shared; phases : tid -> phase lk_pc }.

Definition start : conf := Conf lk_init (fun _ => Out).

Definition goes (c : conf) (t : tid) (s : lk_shared) (ph : phase lk_pc) : conf :=
  Conf s (<[t := ph]> (phases c)).

Definition locking (r : option lk_pc) : phase lk_pc :=
  match r with Some p => Locking p | None => In end.
Definition unlocking (r : option lk_pc) : phase lk_pc :=
  match r with Some p => Unlocking p | None => Out end.

(** A thread inside [spin_lock] or [spin_unlock] makes its next access. *)
Inductive runs (n : nat) (t : tid) (c : conf) : conf -> Prop :=
| runs_lock p s r :
    (t < n)%nat -> phases c t = Locking p -> lk_step t (shared c) p = Ok (s, r) ->
    runs n t c (goes c t s (locking r))
| runs_unlock p s r :
    (t < n)%nat -> phases c t = Unlocking p -> lk_step t (shared c) p = Ok (s, r) ->
    runs n t c (goes c t s (unlocking r)).

(** Threads [0 .. n-1] lock and unlock as they please. *)
Inductive step (n : nat) (t : tid) (c : conf) : conf -> Prop :=
| step_runs c' : runs n t c c' -> step n t c c'
| step_lock : (t < n)%nat -> phases c t = Out -> step n t c (goes c t (shared c) (Locking lk_lock))
| step_unlock : (t < n)%nat -> phases c t = In ->
    step n t c (goes c t (shared c) (Unlocking lk_unlock)).

Lemma step_other n t c c' u : step n t c c' -> u <> t -> phases c' u = phases c u.
Proof. intros [c1 []| |] Hu; simpl; by rewrite fn_lookup_insert_ne. Qed.

(** What a step of [t] from [c] to [c'] shows of the order of service: [t] passes the
    doorway, and [t] gets the lock. *)
Definition arrives (t : tid) (c : conf) : list tid :=
  match phases c t with
  | Locking p => if lk_doorway t (shared c) p then [t] else []
  | _ => []
  end.

Definition gets_lock (t : tid) (c c' : conf) : list tid :=
  match phases c t, phases c' t with
  | In, _ => []
  | _, In => [t]
  | _, _ => []
  end.

(** A run from the start: who passed the doorway and who got the lock, in order. *)
Inductive history (n : nat) : list tid -> list tid -> conf -> Prop :=
| h_start : history n [] [] start
| h_step arrived served c t c' :
    history n arrived served c -> step n t c c' ->
    history n (arrived ++ arrives t c) (served ++ gets_lock t c c') c'.

Definition some_step (n : nat) (c c' : conf) : Prop := exists t, step n t c c'.
Definition some_runs (n : nat) (c c' : conf) : Prop := exists t, runs n t c c'.

End Threads.

(** ** The lock as a queue *)

Inductive fphase := FOut | FArriving | FWaiting | FIn | FLeaving | FGone.
#[export] Instance fphase_eq_dec : EqDecision fphase.
Proof. solve_decision. Defined.

Record fconf := FConf { queue : list tid; fphases : tid -> fphase }.

Definition fstart : fconf := FConf [] (fun _ => FOut).

Definition fgoes (f : fconf) (t : tid) (q : list tid) (ph : fphase) : fconf :=
  FConf q (<[t := ph]> (fphases f)).

(** A thread joins the queue at some point of its call, owns the lock once it
    is first, and leaves the queue at some point of its unlock. *)
Inductive fstep (t : tid) (f : fconf) : fconf -> Prop :=
| f_call : fphases f t = FOut -> fstep t f (fgoes f t (queue f) FArriving)
| f_join : fphases f t = FArriving -> fstep t f (fgoes f t (queue f ++ [t]) FWaiting)
| f_enter q : fphases f t = FWaiting -> queue f = t :: q -> fstep t f (fgoes f t (t :: q) FIn)
| f_leave : fphases f t = FIn -> fstep t f (fgoes f t (queue f) FLeaving)
| f_release q : fphases f t = FLeaving -> queue f = t :: q -> fstep t f (fgoes f t q FGone)
| f_return : fphases f t = FGone -> fstep t f (fgoes f t (queue f) FOut).

(** One access of the code is at most two steps of the queue: joining an empty
    queue also enters, leaving it may also return.  Owning the lock is not passed
    over. *)
Inductive fmoves (t : tid) (f : fconf) : fconf -> Prop :=
| fm_none : fmoves t f f
| fm_one f' : fstep t f f' -> fmoves t f f'
| fm_two f1 f' : fstep t f f1 -> fphases f1 t <> FIn -> fstep t f1 f' -> fmoves t f f'.
#[export] Hint Resolve fm_none : core.

Definition some_fstep (f f' : fconf) : Prop := exists t, fstep t f f'.

Inductive agrees {P} : phase P -> fphase -> Prop :=
| ag_out : agrees Out FOut
| ag_arriving p : agrees (Locking p) FArriving
| ag_waiting p : agrees (Locking p) FWaiting
| ag_in : agrees In FIn
| ag_leaving p : agrees (Unlocking p) FLeaving
| ag_gone p : agrees (Unlocking p) FGone.
#[export] Hint Constructors agrees : pgm.

(** The threads in the queue are those between joining and releasing. *)
Definition queued (ph : fphase) : bool :=
  match ph with FWaiting | FIn | FLeaving => true | _ => false end.

(** Who joins the queue and who enters in a move of [t]. *)
Definition fjoins (t : tid) (f f' : fconf) : list tid :=
  if negb (queued (fphases f t)) && queued (fphases f' t) then [t] else [].

Definition fenters (t : tid) (f f' : fconf) : list tid :=
  match fphases f t, fphases f' t with
  | FIn, _ => []
  | _, FIn => [t]
  | _, _ => []
  end.

(** What the code of a lock has to satisfy, for runs of [n] threads: every step is a
    move of the queue, in which the thread joins exactly if it passes the doorway. *)
Class FifoLock (S : SpinLock) (n : nat) := {
  lk_sim : conf -> fconf -> Prop;
  sim_start : lk_sim start fstart;
  sim_agrees c f t : lk_sim c f -> agrees (phases c t) (fphases f t);
  sim_step c f t c' : lk_sim c f -> step n t c c' ->
    exists f', fmoves t f f' /\ fjoins t f f' = arrives t c /\ lk_sim c' f';
  sim_no_fault c f t p e : lk_sim c f ->
    phases c t = Locking p \/ phases c t = Unlocking p -> lk_step t (shared c) p <> Fault e;
  sim_progress c f t p : lk_sim c f -> (t < n)%nat -> phases c t = Locking p ->
    (forall u, phases c u <> In) ->
    exists c' u, rtc (some_runs n) c c' /\ phases c' u = In
}.
Arguments lk_sim {S n _}.

(** ** Consequences for the users of a lock *)

(** Only the first in the queue can be past waiting. *)
Record fifo_ok (f : fconf) : Prop := {
  fo_nodup : NoDup (queue f);
  fo_queued t : t ∈ queue f <-> queued (fphases f t) = true;
  fo_waiting i t : queue f !! S i = Some t -> fphases f t = FWaiting
}.

Lemma fstep_keeps_phases f t q ph u : u <> t -> fphases (fgoes f t q ph) u = fphases f u.
Proof. intros Hne. simpl. by rewrite fn_lookup_insert_ne. Qed.

Lemma fgoes_phase f t q ph : fphases (fgoes f t q ph) t = ph.
Proof. simpl. by rewrite fn_lookup_insert. Qed.

(** Only the phase of [t] changed, between two phases outside or inside the
    queue. *)
Lemma fifo_ok_same f t ph :
  fifo_ok f -> queued ph = queued (fphases f t) ->
  (forall i, queue f !! S i = Some t -> ph = FWaiting) -> fifo_ok (fgoes f t (queue f) ph).
Proof.
  intros [Hn Hq Hw] Hs Hp. split; [done|..].
  - intros u. destruct (decide (u = t)) as [->|Hne].
    + rewrite fgoes_phase, Hs. apply Hq.
    + rewrite fstep_keeps_phases by done. apply Hq.
  - intros i u Hu. simpl in Hu. destruct (decide (u = t)) as [->|Hne].
    + rewrite fgoes_phase. eauto.
    + rewrite fstep_keeps_phases by done. eauto.
Qed.

Lemma fifo_ok_tail f t i : fifo_ok f -> queue f !! S i = Some t -> fphases f t = FWaiting.
Proof. intros Hf. apply (fo_waiting f Hf). Qed.

Lemma fifo_ok_join f t :
  fifo_ok f -> fphases f t = FArriving -> fifo_ok (fgoes f t (queue f ++ [t]) FWaiting).
Proof.
  intros [Hn Hq Hw] E.
  assert (Ht : t ∉ queue f) by (rewrite Hq, E; done).
  split.
  - simpl. apply NoDup_app. split_and!; [done| |apply NoDup_singleton].
    intros x Hx ->%list_elem_of_singleton. done.
  - intros u. simpl queue. rewrite elem_of_app, list_elem_of_singleton.
    destruct (decide (u = t)) as [->|Hne]; [rewrite fgoes_phase; tauto|].
    rewrite fstep_keeps_phases, <- Hq by done. tauto.
  - intros i u Hu. destruct (decide (u = t)) as [->|Hne]; [by rewrite fgoes_phase|].
    rewrite fstep_keeps_phases by done. simpl in Hu.
    apply lookup_app_Some in Hu as [Hu|[_ Hu]]; [eauto|].
    apply list_lookup_singleton_Some in Hu as [_ ->]. done.
Qed.

Lemma fifo_ok_release f t q :
  fifo_ok f -> queue f = t :: q -> fifo_ok (fgoes f t q FGone).
Proof.
  intros [Hn Hq Hw] E. rewrite E in Hn, Hw. apply NoDup_cons in Hn as [Ht Hn]. split; [done|..].
  - intros u. simpl queue. destruct (decide (u = t)) as [->|Hne]; [by rewrite fgoes_phase|].
    rewrite fstep_keeps_phases, <- Hq, E, elem_of_cons by done. tauto.
  - intros i u Hu. simpl in Hu. rewrite fstep_keeps_phases.
    + apply (Hw (S i)). done.
    + intros ->. apply Ht. by eapply list_elem_of_lookup_2.
Qed.

Lemma fstep_fifo_ok f t f' : fifo_ok f -> fstep t f f' -> fifo_ok f'.
Proof.
  intros Hf Hs. destruct Hs as [E|E|q E Q|E|q E Q|E].
  - apply fifo_ok_same; rewrite ?E; [done..|]. intros i Hi%fifo_ok_tail; congruence.
  - by apply fifo_ok_join.
  - rewrite <- Q. apply fifo_ok_same; rewrite ?E; [done..|]. intros i Hi.
    pose proof (fo_nodup f Hf) as Hn. rewrite Q in *. simpl in Hi.
    apply NoDup_cons in Hn as [Hn _]. contradict Hn. by eapply list_elem_of_lookup_2.
  - apply fifo_ok_same; rewrite ?E; [done..|]. intros i Hi%fifo_ok_tail; congruence.
  - by apply fifo_ok_release.
  - apply fifo_ok_same; rewrite ?E; [done..|]. intros i Hi%fifo_ok_tail; congruence.
Qed.

Lemma fmoves_fifo_ok f t f' : fifo_ok f -> fmoves t f f' -> fifo_ok f'.
Proof. intros Hf [|f1 H1|f1 f2 H1 Hn H2]; [done|by eapply fstep_fifo_ok|]. eauto using fstep_fifo_ok. Qed.

Lemma fstep_other f t f' u : fstep t f f' -> u <> t -> fphases f' u = fphases f u.
Proof. intros [] Hu; by apply fstep_keeps_phases. Qed.

Lemma fmoves_other f t f' u : fmoves t f f' -> u <> t -> fphases f' u = fphases f u.
Proof.
  intros [|f1 H1|f1 f2 H1 Hn H2] Hu; [done|by eapply fstep_other|].
  rewrite (fstep_other f1 t f2), (fstep_other f t f1); done.
Qed.

(** A thread that has left the queue does not own the lock after one access. *)
Lemma fmoves_gone f t f' :
  fmoves t f f' -> fphases f t = FGone -> fphases f' t <> FIn /\ fphases f' t <> FLeaving.
Proof.
  intros Hm E. assert (H1 : forall f1, fstep t f f1 -> fphases f1 t = FOut).
  { intros f1 Hs. destruct Hs; try congruence. apply fgoes_phase. }
  destruct Hm as [|f1 Hs|f1 f2 Hs _ Hs2]; [by rewrite E|by rewrite (H1 _ Hs)|].
  apply H1 in Hs. destruct Hs2; try congruence. by rewrite fgoes_phase.
Qed.

Lemma fifo_ok_start : fifo_ok fstart.
Proof. split; [constructor| |done]. intros t. split; [intros Ht; by inversion Ht | done]. Qed.

Lemma fifo_ok_reachable f : rtc some_fstep fstart f -> fifo_ok f.
Proof.
  intros Hr. remember fstart as f0 eqn:E. assert (Hf : fifo_ok f0) by (subst; apply fifo_ok_start).
  clear E. induction Hr as [|f0 f1 f2 [t Hs] _ IH]; [done|]. apply IH. by eapply fstep_fifo_ok.
Qed.

(** Past waiting, hence first in the queue. *)
Lemma fifo_ok_first f t :
  fifo_ok f -> fphases f t = FIn \/ fphases f t = FLeaving -> exists q, queue f = t :: q.
Proof.
  intros Hf Ht.
  assert (Hin : t ∈ queue f) by (apply fo_queued; [done|]; by destruct Ht as [-> | ->]).
  apply list_elem_of_lookup in Hin as [[|i] Hi].
  - destruct (queue f) as [|x q]; simplify_eq/=. eauto.
  - apply (fo_waiting f Hf) in Hi. destruct Ht; congruence.
Qed.

(** *** The order of service *)

Lemma filter_agree {A} (P Q : A -> Prop) `{!forall x, Decision (P x), !forall x, Decision (Q x)} (l : list A) :
  (forall x, x ∈ l -> (P x <-> Q x)) -> base.filter P l = base.filter Q l.
Proof.
  induction l as [|x l IH]; intros Hl; [done|]. rewrite !filter_cons, IH by (intros; apply Hl; by right).
  specialize (Hl x ltac:(by left)). repeat case_decide; tauto.
Qed.

Lemma filter_all {A} (P : A -> Prop) `{!forall x, Decision (P x)} (l : list A) :
  (forall i x, l !! i = Some x -> P x) -> base.filter P l = l.
Proof.
  induction l as [|x l IH]; intros Hl; [done|]. rewrite filter_cons, decide_True by by apply (Hl 0%nat).
  f_equal. apply IH. intros i. apply (Hl (S i)).
Qed.

(** Those that have joined and not entered yet. *)
Definition fwaiting (f : fconf) : list tid := base.filter (fun t => fphases f t = FWaiting) (queue f).

Lemma fwaiting_cons f t q :
  queue f = t :: q -> fifo_ok f ->
  fwaiting f = (if decide (fphases f t = FWaiting) then [t] else []) ++ q.
Proof.
  intros Q Hf. unfold fwaiting. rewrite Q, filter_cons.
  assert (E : base.filter (fun t => fphases f t = FWaiting) q = q).
  { apply filter_all. intros i u Hi. apply (fo_waiting f Hf i). by rewrite Q. }
  rewrite E. by case_decide.
Qed.

(** A move that changes the phase of [t] only, where [t] is not in the queue. *)
Lemma fwaiting_same f t ph :
  fphases f t <> FWaiting -> ph <> FWaiting -> fwaiting (fgoes f t (queue f) ph) = fwaiting f.
Proof.
  intros H1 H2. unfold fwaiting. simpl. apply list_filter_iff. intros u.
  destruct (decide (u = t)) as [->|Hne]; rewrite ?fn_lookup_insert, ?fn_lookup_insert_ne by done; done.
Qed.

Lemma fstep_waiting f t f' :
  fifo_ok f -> fstep t f f' -> fwaiting f ++ fjoins t f f' = fenters t f f' ++ fwaiting f'.
Proof.
  intros Hf Hs. pose proof (fstep_fifo_ok f t f' Hf Hs) as Hf'. unfold fjoins, fenters.
  destruct Hs as [E|E|q E Q|E|q E Q|E]; rewrite fgoes_phase, E; simpl queued; cbn [negb andb]; rewrite ?app_nil_r; simpl app;
    try (symmetry; apply fwaiting_same; congruence).
  - assert (Ht : t ∉ queue f) by (rewrite (fo_queued f Hf), E; done).
    unfold fwaiting. simpl. rewrite filter_app, filter_cons, filter_nil, decide_True by (by rewrite fn_lookup_insert).
    f_equal. apply filter_agree. intros u Hu. assert (u <> t) by (by intros ->). by rewrite fn_lookup_insert_ne.
  - rewrite (fwaiting_cons f t q), (fwaiting_cons _ t q) by done.
    rewrite fgoes_phase, E, decide_True, decide_False by done. done.
  - rewrite (fwaiting_cons f t q), decide_False by (done || congruence). simpl.
    symmetry. apply filter_all. intros i u Hu. simpl.
    assert (u <> t). { intros ->. pose proof (fo_nodup f Hf) as Hd. rewrite Q in Hd.
      apply NoDup_cons in Hd as [Hd _]. apply Hd. by eapply list_elem_of_lookup_2. }
    rewrite fn_lookup_insert_ne by done. apply (fo_waiting f Hf i). by rewrite Q.
Qed.

Lemma fstep_twice t f f1 f2 :
  fstep t f f1 -> fphases f1 t <> FIn -> fstep t f1 f2 ->
  fjoins t f f2 = fjoins t f f1 ++ fjoins t f1 f2 /\ fenters t f f2 = fenters t f f1 ++ fenters t f1 f2.
Proof.
  intros H1 Hn H2. unfold fjoins, fenters.
  destruct H1 as [E|E|q E Q|E|q E Q|E];
    destruct H2 as [E2|E2|q2 E2 Q2|E2|q2 E2 Q2|E2]; rewrite fgoes_phase in E2; try discriminate E2;
    rewrite !fgoes_phase, E; try done; by rewrite fgoes_phase in Hn.
Qed.

Lemma fmoves_waiting f t f' :
  fifo_ok f -> fmoves t f f' -> fwaiting f ++ fjoins t f f' = fenters t f f' ++ fwaiting f'.
Proof.
  intros Hf [|f1 H1|f1 f2 H1 Hn H2].
  - unfold fjoins, fenters. destruct (fphases f t); simpl; by rewrite app_nil_r.
  - by apply fstep_waiting.
  - destruct (fstep_twice t f f1 f2 H1 Hn H2) as [-> ->].
    rewrite app_assoc, (fstep_waiting f t f1 Hf H1), <- !app_assoc. f_equal.
    apply fstep_waiting; [by eapply fstep_fifo_ok|done].
Qed.

Section Users.
Context {S : SpinLock} {n : nat} `{!FifoLock S n}.

Lemma fmoves_some t f f' : fmoves t f f' -> rtc some_fstep f f'.
Proof.
  intros [|f1 H1|f1 f2 H1 Hn H2]; [done|apply rtc_once; by exists t|].
  eapply rtc_l; [by exists t|]. apply rtc_once. by exists t.
Qed.

Lemma sim_run c c' f :
  rtc (some_step n) c c' -> lk_sim c f -> exists f', rtc some_fstep f f' /\ lk_sim c' f'.
Proof.
  intros Hr. revert f. induction Hr as [c|c c1 c' [t Hs] _ IH]; intros f Hc; [by exists f|].
  destruct (sim_step c f t c1 Hc Hs) as (f1 & Hf1 & _ & Hc1).
  destruct (IH f1 Hc1) as (f' & Hf' & Hc'). exists f'. split; [|done].
  etrans; [by eapply fmoves_some|done].
Qed.

(** A reachable configuration is one of the queue. *)
Lemma sim_reachable c :
  rtc (some_step n) start c -> exists f, rtc some_fstep fstart f /\ lk_sim c f /\ fifo_ok f.
Proof.
  intros Hr. destruct (sim_run start c fstart Hr sim_start) as (f & Hf & Hc).
  exists f. split_and!; [done..|]. by apply fifo_ok_reachable.
Qed.

(** Two threads never own the lock at the same time. *)
Lemma lock_excludes c t u :
  rtc (some_step n) start c -> phases c t = In -> phases c u = In -> t = u.
Proof.
  intros Hr Ht Hu. destruct (sim_reachable c Hr) as (f & _ & Hc & Hf).
  pose proof (sim_agrees c f t Hc) as At. pose proof (sim_agrees c f u Hc) as Au.
  rewrite Ht in At. rewrite Hu in Au. inversion At. inversion Au.
  destruct (fifo_ok_first f t Hf) as [q Hq]; [auto|].
  destruct (fifo_ok_first f u Hf) as [q' Hq']; [auto|]. congruence.
Qed.

(** Entering the queue's head is getting the lock. *)
Lemma enters_gets t c c' f f' :
  agrees (phases c t) (fphases f t) -> agrees (phases c' t) (fphases f' t) -> fenters t f f' = gets_lock t c c'.
Proof. unfold fenters, gets_lock. by intros [] []. Qed.

Lemma history_sim arrived served c :
  history n arrived served c ->
  exists f, lk_sim c f /\ fifo_ok f /\ arrived = served ++ fwaiting f.
Proof.
  induction 1 as [|arrived served c t c' _ (f & Hc & Hf & ->) Hs].
  { exists fstart. split; [apply sim_start|]. split; [apply fifo_ok_start|done]. }
  destruct (sim_step c f t c' Hc Hs) as (f' & Hm & Hj & Hc'). exists f'.
  split; [done|]. split; [by eapply fmoves_fifo_ok|].
  rewrite <- Hj, <- (enters_gets t c c' f f') by by apply sim_agrees.
  rewrite <- !app_assoc. f_equal. by apply fmoves_waiting.
Qed.

Lemma history_reachable arrived served c : history n arrived served c -> rtc (some_step n) start c.
Proof. induction 1 as [|? ? c t c' _ IH Hs]; [done|]. eapply rtc_r; [done|]. by exists t. Qed.

(** What a user of the lock may rely on in every run. *)
Lemma lock_promises arrived served c :
  history n arrived served c ->
  (exists waiting, arrived = served ++ waiting /\ NoDup waiting /\
     forall t, t ∈ waiting -> exists p, phases c t = Locking p) /\
  (forall t u, phases c t = In -> phases c u = In -> t = u) /\
  (forall t p e, phases c t = Locking p \/ phases c t = Unlocking p ->
     lk_step t (shared c) p <> Fault e) /\
  (forall t p, (t < n)%nat -> phases c t = Locking p -> (forall u, phases c u <> In) ->
     exists c' u, rtc (some_runs n) c c' /\ phases c' u = In).
Proof.
  intros Hh. pose proof (history_reachable _ _ _ Hh) as Hr.
  destruct (history_sim _ _ _ Hh) as (f & Hc & Hf & E). split_and!.
  - exists (fwaiting f). split; [done|]. split; [apply NoDup_filter, Hf|].
    intros t [Ht _]%list_elem_of_filter. pose proof (sim_agrees c f t Hc) as Ha. rewrite Ht in Ha.
    inversion Ha; subst; eauto.
  - intros t u. by apply lock_excludes.
  - intros t p e. by eapply sim_no_fault.
  - intros t p. by eapply sim_progress.
Qed.

End Users.

End Lock.
