(* ===== verification/TicketLock.v ===== *)
(** * The ticket lock (include/ticketlock.h)

    A 64-bit word holds the ticket being served, [owner], in its low half and
    the next ticket to hand out, [next], in its high half.  Taking a ticket
    adds one to the high half, which may wrap; unlocking adds one to the low
    half with a 32-bit addition, which cannot carry into the high half. *)

From S2P Require Import Prelude Lock.

Module TicketLock.
Import Lock.
#[local] Open Scope Z_scope.

(** ** The code *)

Definition TL_INC : Z := 0x100000000.

(** [union { ticketdata_t data; struct { ticketid_t owner, next; }; }] *)
Definition tl_owner (data : Z) : Z := wrap32 data.
Definition tl_next (data : Z) : Z := wrap32 (data / 2 ^ 32).

Definition TICKETLOCK_INITIALIZER : Z := 0.

(** Places in [__tl_lock] and [__tl_unlock]. *)
Inductive tl_pc :=
| TlTake
| TlSpin (ticket : Z)
| TlServe.

Definition tl_step (t : tid) (data : Z) (p : tl_pc) : outcome (Z * option tl_pc) :=
  match p with
  | TlTake =>
      (* updated = { __sync_fetch_and_add(&t->data, TL_INC) } *)
      Ok (wrap64 (data + TL_INC),
          if negb (tl_next data =? tl_owner data) then Some (TlSpin (tl_next data)) else None)
  | TlSpin ticket =>
      Ok (data, if negb (ticket =? tl_owner data) then Some (TlSpin ticket) else None)
  | TlServe =>
      (* __sync_fetch_and_add(&t->owner, (ticketid_t)1) *)
      Ok (wrap32 (tl_owner data + 1) + 2 ^ 32 * tl_next data, None)
  end.

(** A ticket is drawn by the first access of a call. *)
Definition tl_doorway (p : tl_pc) : bool := match p with TlTake => true | _ => false end.

#[export] Instance ticketlock : SpinLock := {|
  lk_shared := Z;
  lk_pc := tl_pc;
  lk_init := TICKETLOCK_INITIALIZER;
  lk_lock := TlTake;
  lk_unlock := TlServe;
  lk_step := tl_step;
  lk_doorway _ _ p := tl_doorway p
|}.

(** ** Words *)

Definition pack (owner next : Z) : Z := wrap32 owner + 2 ^ 32 * wrap32 next.

Lemma tl_owner_pack o k : tl_owner (pack o k) = wrap32 o.
Proof. unfold tl_owner, pack, wrap32. by rewrite Z.mul_comm, Z.mod_add, Zmod_mod by lia. Qed.

Lemma tl_next_pack o k : tl_next (pack o k) = wrap32 k.
Proof.
  unfold tl_next, pack, wrap32. pose proof (Z.mod_pos_bound o (2 ^ 32) ltac:(lia)).
  by rewrite Z.mul_comm, Z.div_add, Z.div_small, Z.add_0_l, Zmod_mod by lia.
Qed.

Lemma take_pack o k : wrap64 (pack o k + TL_INC) = pack o (k + 1).
Proof.
  unfold wrap64, pack, wrap32, TL_INC.
  pose proof (Z.mod_pos_bound o (2 ^ 32) ltac:(lia)).
  pose proof (Z.mod_pos_bound (k + 1) (2 ^ 32) ltac:(lia)).
  symmetry. apply Z.mod_unique with ((k mod 2 ^ 32 + 1) / 2 ^ 32); [lia|].
  rewrite <- (Z.add_mod_idemp_l k) by lia.
  pose proof (Z.div_mod (k mod 2 ^ 32 + 1) (2 ^ 32)). lia.
Qed.

Lemma serve_pack o k : wrap32 (wrap32 o + 1) + 2 ^ 32 * wrap32 k = pack (o + 1) k.
Proof. unfold pack, wrap32. by rewrite Z.add_mod_idemp_l by lia. Qed.

(** Tickets less than [2^32] apart are told apart. *)
Lemma ticket_eq (o : Z) (i : nat) :
  Z.of_nat i < 2 ^ 32 -> wrap32 (o + Z.of_nat i) = wrap32 o -> i = 0%nat.
Proof.
  unfold wrap32. intros Hi E. assert (0 = Z.of_nat i); [|lia].
  enough (o = o + Z.of_nat i) by lia. apply (mod_eq_close _ _ (2 ^ 32)); lia.
Qed.

(** ** The lock is a queue *)

(** Thread [t] waits at place [i] of the queue with ticket [o + i]. *)
Inductive tl_at (o : Z) (q : list tid) (t : tid) : phase tl_pc -> fphase -> Prop :=
| at_out : tl_at o q t Out FOut
| at_take : tl_at o q t (Locking TlTake) FArriving
| at_spin i : q !! i = Some t -> tl_at o q t (Locking (TlSpin (wrap32 (o + Z.of_nat i)))) FWaiting
| at_in : tl_at o q t In FIn
| at_serve : tl_at o q t (Unlocking TlServe) FLeaving.

Record tl_sim (n : nat) (c : @conf ticketlock) (f : fconf) (o : Z) : Prop := {
  ts_data : shared c = pack o (o + Z.of_nat (length (queue f)));
  ts_fifo : fifo_ok f;
  ts_at t : tl_at o (queue f) t (phases c t) (fphases f t);
  ts_bound t : t ∈ queue f -> (t < n)%nat
}.

Lemma queue_length (q : list tid) n :
  NoDup q -> (forall t, t ∈ q -> (t < n)%nat) -> (length q <= n)%nat.
Proof.
  intros Hn Hq. rewrite <- (length_seq n 0). apply submseteq_length, NoDup_submseteq; [done|].
  intros t Ht%Hq. apply elem_of_seq. lia.
Qed.

Section Threads.
Variable n : nat.
Hypothesis few : Z.of_nat n <= 2 ^ 32.

Lemma ts_length c f o : tl_sim n c f o -> Z.of_nat (length (queue f)) <= 2 ^ 32.
Proof.
  intros Hc. pose proof (queue_length _ n (fo_nodup _ (ts_fifo _ _ _ _ Hc)) (ts_bound _ _ _ _ Hc)). lia.
Qed.

(** A step of [t] that leaves the word and the places in the queue alone. *)
Lemma ts_moves c f f' o t ph :
  tl_sim n c f o -> fifo_ok f' -> queue f' = queue f ->
  (forall u, u <> t -> fphases f' u = fphases f u) -> tl_at o (queue f) t ph (fphases f' t) ->
  tl_sim n (goes c t (shared c) ph) f' o.
Proof.
  intros Hc Hf Hq Hu Ht. split; rewrite ?Hq; [apply Hc|done| |apply Hc].
  intros u. simpl. destruct (decide (u = t)) as [->|Hne]; [by rewrite fn_lookup_insert|].
  rewrite fn_lookup_insert_ne, Hu by done. apply Hc.
Qed.

Lemma tl_call c f o t ph fp :
  tl_sim n c f o -> fstep t f (fgoes f t (queue f) fp) -> tl_at o (queue f) t ph fp ->
  exists f', fmoves t f f' /\ exists o', tl_sim n (goes c t (shared c) ph) f' o'.
Proof.
  intros Hc Hs Ha. eexists. split; [by apply fm_one|]. exists o.
  eapply ts_moves; [done | | done | intros u Hu; by apply fstep_keeps_phases | by rewrite fgoes_phase].
  eapply fstep_fifo_ok; [apply Hc|done].
Qed.

Lemma not_queued c f o t ph : tl_sim n c f o -> fphases f t = ph -> queued ph = false -> t ∉ queue f.
Proof. intros Hc <- Hq Ht. apply (fo_queued _ (ts_fifo _ _ _ _ Hc)) in Ht. congruence. Qed.

(** Joining the end of the queue. *)
Lemma tl_at_snoc o q t u ph fp : tl_at o q u ph fp -> tl_at o (q ++ [t]) u ph fp.
Proof. intros []; constructor. by apply lookup_app_l_Some. Qed.

Lemma ts_ext c c' f o :
  tl_sim n c f o -> shared c' = shared c -> (forall u, phases c' u = phases c u) -> tl_sim n c' f o.
Proof. intros Hc Hs Hp. split; rewrite ?Hs; [apply Hc..| |apply Hc]. intros u. rewrite Hp. apply Hc. Qed.

(** What the owner of the least ticket does. *)
Lemma tl_enter c f o t k :
  tl_sim n c f o -> phases c t = Locking (TlSpin k) -> k = wrap32 o ->
  exists f', fstep t f f' /\ tl_sim n (goes c t (shared c) In) f' o.
Proof.
  intros Hc Hp ->. pose proof (ts_at _ _ _ _ Hc t) as Ha. rewrite Hp in Ha.
  inversion Ha as [| |i Hi Ek E| |]; subst.
  assert (Hlt : Z.of_nat i < 2 ^ 32).
  { apply lookup_lt_Some in Hi. pose proof (ts_length _ _ _ Hc). lia. }
  apply ticket_eq in Ek; [subst|done]. destruct (queue f) as [|x q] eqn:Q; simplify_eq/=.
  pose proof (f_enter t f q (eq_sym E) Q) as Hs. rewrite <- Q in Hs.
  eexists. split; [done|]. eapply ts_moves; [done | | done | intros u Hu; by apply fstep_keeps_phases |].
  - eapply fstep_fifo_ok; [apply Hc|done].
  - rewrite fgoes_phase. constructor.
Qed.

Lemma tl_join c f o t :
  tl_sim n c f o -> (t < n)%nat -> phases c t = Locking TlTake ->
  Z.of_nat (length (queue f)) < 2 ^ 32 /\
  tl_sim n (goes c t (wrap64 (shared c + TL_INC)) (Locking (TlSpin (tl_next (shared c)))))
    (fgoes f t (queue f ++ [t]) FWaiting) o.
Proof.
  intros Hc Ht Hp. pose proof (ts_at _ _ _ _ Hc t) as Ha. rewrite Hp in Ha. inversion Ha as [|Ep E| | |]; subst.
  pose proof (fstep_fifo_ok _ _ _ (ts_fifo _ _ _ _ Hc) (f_join t f (eq_sym E))) as Hf'.
  assert (Hb : forall u, u ∈ queue f ++ [t] -> (u < n)%nat).
  { intros u [Hu | ->%list_elem_of_singleton]%elem_of_app; [by eapply ts_bound | done]. }
  pose proof (queue_length (queue f ++ [t]) n (fo_nodup _ Hf') Hb) as Hl. rewrite length_app in Hl.
  simpl in Hl. split; [lia|]. split; simpl; [|done| |done].
  - rewrite (ts_data _ _ _ _ Hc), take_pack, length_app. f_equal. simpl. lia.
  - intros u. destruct (decide (u = t)) as [->|Hne].
    + rewrite !fn_lookup_insert, (ts_data _ _ _ _ Hc), tl_next_pack. constructor.
      rewrite lookup_app_r, Nat.sub_diag by lia. done.
    + rewrite !fn_lookup_insert_ne by done. apply tl_at_snoc, Hc.
Qed.

Lemma tl_take c f o t :
  tl_sim n c f o -> (t < n)%nat -> phases c t = Locking TlTake ->
  exists f', fmoves t f f' /\ exists o',
    tl_sim n (goes c t (wrap64 (shared c + TL_INC))
      (locking (if negb (tl_next (shared c) =? tl_owner (shared c))
                then Some (TlSpin (tl_next (shared c))) else None))) f' o'.
Proof.
  intros Hc Ht Hp. destruct (tl_join c f o t Hc Ht Hp) as [Hl Hj].
  pose proof (ts_at _ _ _ _ Hc t) as Ha. rewrite Hp in Ha. inversion Ha as [|Ep E| | |]; subst.
  pose proof (f_join t f (eq_sym E)) as Hs.
  destruct (Z.eqb_spec (tl_next (shared c)) (tl_owner (shared c))) as [Eq|Ne]; simpl.
  - pose proof Hj as Hj'. rewrite Eq in Hj. eapply tl_enter in Hj as (f' & Hs' & Hj).
    + exists f'. split; [eapply fm_two; [done|by rewrite fgoes_phase|done]|]. exists o. eapply ts_ext; [done..|].
      intros u. simpl. destruct (decide (u = t)) as [->|Hne];
        rewrite ?fn_lookup_insert, ?fn_lookup_insert_ne; done.
    + simpl. by rewrite fn_lookup_insert.
    + by rewrite (ts_data _ _ _ _ Hc), tl_owner_pack.
  - eexists. split; [by apply fm_one|]. by exists o.
Qed.

(** Unlocking serves the next ticket. *)
Lemma tl_at_tail o q t u ph fp :
  tl_at o (t :: q) u ph fp -> u <> t -> tl_at (o + 1) q u ph fp.
Proof.
  intros [| |[|i] Hi| |] Hne; try constructor; simplify_eq/=.
  replace (o + Z.of_nat (S i)) with (o + 1 + Z.of_nat i) by lia. by constructor.
Qed.

Lemma tl_serve c f o t :
  tl_sim n c f o -> phases c t = Unlocking TlServe ->
  exists f', fmoves t f f' /\ queue f = t :: queue f' /\ exists o',
    tl_sim n (goes c t (wrap32 (tl_owner (shared c) + 1) + 2 ^ 32 * tl_next (shared c)) Out) f' o'.
Proof.
  intros Hc Hp. pose proof (ts_at _ _ _ _ Hc t) as Ha. rewrite Hp in Ha. inversion Ha as [| | | |Ep E]; subst.
  destruct (fifo_ok_first f t (ts_fifo _ _ _ _ Hc)) as [q Hq]; [auto|].
  pose proof (f_release t f q (eq_sym E) Hq) as H1.
  assert (H2 : fstep t (fgoes f t q FGone) (fgoes (fgoes f t q FGone) t q FOut)).
  { apply f_return. by rewrite fgoes_phase. }
  eexists. split_and!; [eapply fm_two; [done|by rewrite fgoes_phase|done]|done|]. exists (o + 1).
  split; simpl.
  - rewrite (ts_data _ _ _ _ Hc), tl_owner_pack, tl_next_pack, serve_pack, Hq. f_equal. simpl. lia.
  - eapply fstep_fifo_ok, H2. eapply fstep_fifo_ok, H1. apply Hc.
  - intros u. destruct (decide (u = t)) as [->|Hne]; rewrite ?fn_lookup_insert; [constructor|].
    rewrite !fn_lookup_insert_ne by done. apply (tl_at_tail o q t); [|done]. rewrite <- Hq. apply Hc.
  - intros u Hu. apply (ts_bound _ _ _ _ Hc). rewrite Hq. by constructor.
Qed.

Lemma tl_simulates c f o t c' :
  tl_sim n c f o -> step n t c c' ->
  exists f', fmoves t f f' /\ exists o', tl_sim n c' f' o'.
Proof.
  intros Hc Hs. pose proof (ts_at _ _ _ _ Hc t) as Ha. destruct Hs as [c' Hs|Ht Hp|Ht Hp].
  - destruct Hs as [p s r Ht Hp E|p s r Ht Hp E]; rewrite Hp in Ha.
    + inversion Ha as [|Ef|i Hi Ek Ef| |]; subst; simplify_eq/=; [by eapply tl_take|].
      rewrite (ts_data _ _ _ _ Hc), tl_owner_pack, <- (ts_data _ _ _ _ Hc).
      destruct (Z.eqb_spec (wrap32 (o + Z.of_nat i)) (wrap32 o)) as [Eq|Ne]; simpl.
      * eapply tl_enter in Hc as (f' & Hf' & Hc); [|done..].
        exists f'. split; [by apply fm_one|]. by exists o.
      * exists f. split; [done|]. exists o. apply (ts_moves c f f); [done|apply Hc|done|done|].
        rewrite <- Ef. by constructor.
    + inversion Ha; subst; simplify_eq/=.
      destruct (tl_serve c f o t Hc Hp) as (f' & Hf' & _ & Hc'). eauto.
  - rewrite Hp in Ha. inversion Ha. eapply tl_call; [done|by apply f_call|constructor].
  - rewrite Hp in Ha. inversion Ha. eapply tl_call; [done|by apply f_leave|constructor].
Qed.

(** A thread joins the queue where it draws its ticket. *)
Lemma tl_joins c f o t c' f' o' :
  tl_sim n c f o -> step n t c c' -> tl_sim n c' f' o' -> fjoins t f f' = arrives t c.
Proof.
  intros Hc Hs Hc'. pose proof (ts_at _ _ _ _ Hc t) as Ha. pose proof (ts_at _ _ _ _ Hc' t) as Ha'.
  unfold fjoins, arrives. destruct Hs as [c' [p s r Ht Hp E|p s r Ht Hp E]|Ht Hp|Ht Hp];
    simpl in Ha'; rewrite fn_lookup_insert in Ha'; rewrite Hp in *;
    revert Ha Ha'; generalize (fphases f t), (fphases f' t); intros fp fp' Ha Ha';
    inversion Ha; subst; simplify_eq/=; split_matches; try done; by inversion Ha'; subst; rewrite ?Heqb.
Qed.

(** The thread served next can go on at once. *)
Lemma tl_first_goes c f o t q :
  tl_sim n c f o -> queue f = t :: q -> fphases f t = FWaiting ->
  exists c' u, rtc (some_runs n) c c' /\ phases c' u = In.
Proof.
  intros Hc Q E. pose proof (ts_at _ _ _ _ Hc t) as Ha. rewrite E in Ha. inversion Ha as [| |i Hi Ep Ef| |].
  assert (i = 0%nat) as ->.
  { eapply NoDup_lookup; [apply Hc|done|by rewrite Q]. }
  eexists _, t. split.
  - apply rtc_once. exists t. eapply runs_lock; [| by symmetry |].
    + apply (ts_bound _ _ _ _ Hc). rewrite Q. by constructor.
    + simpl. rewrite (ts_data _ _ _ _ Hc), tl_owner_pack, Z.add_0_r, Z.eqb_refl. done.
  - simpl. by rewrite fn_lookup_insert.
Qed.

Lemma tl_progress q c f o t p :
  tl_sim n c f o -> queue f = q -> (t < n)%nat -> phases c t = Locking p ->
  (forall u, phases c u <> In) ->
  exists c' u, rtc (some_runs n) c c' /\ phases c' u = In.
Proof.
  revert c f o. induction q as [|h q IH]; intros c f o Hc Q Ht Hp Hin.
  - pose proof (ts_at _ _ _ _ Hc t) as Ha. rewrite Hp, Q in Ha. inversion Ha; subst; [|done].
    eexists _, t. split.
    + apply rtc_once. exists t. eapply runs_lock; [done..|]. simpl.
      rewrite (ts_data _ _ _ _ Hc), Q, tl_owner_pack, tl_next_pack, Z.add_0_r, Z.eqb_refl. done.
    + simpl. by rewrite fn_lookup_insert.
  - assert (Hh : h ∈ queue f) by (rewrite Q; by constructor).
    pose proof (proj1 (fo_queued _ (ts_fifo _ _ _ _ Hc) h) Hh) as Hq.
    pose proof (ts_at _ _ _ _ Hc h) as Ha. inversion Ha as [E E'|E E'|i Hi E E'|E E'|E E'];
      rewrite <- E' in Hq; try done.
    + eapply tl_first_goes; [done..|]. by symmetry.
    + by destruct (Hin h).
    + symmetry in E. destruct (tl_serve c f o h Hc E) as (f' & _ & Q' & o' & Hc').
      rewrite Q in Q'. simplify_eq/=.
      assert (Hne : t <> h) by (intros ->; congruence).
      eapply IH in Hc' as (c' & u & Hr & Hu); [|done|done|..].
      * exists c', u. split; [|done]. eapply rtc_l; [|done]. exists h.
        eapply (runs_unlock n h c TlServe _ None); [by eapply ts_bound|done|done].
      * simpl. by rewrite fn_lookup_insert_ne.
      * intros u. simpl. destruct (decide (u = h)) as [->|Hu];
          rewrite ?fn_lookup_insert, ?fn_lookup_insert_ne by done; done.
Qed.

#[export] Instance ticketlock_fifo : FifoLock ticketlock n.
Proof.
  refine {| lk_sim c f := exists o, tl_sim n c f o |}.
  - exists 0. split; [done|apply fifo_ok_start|constructor|]. intros t Ht. by inversion Ht.
  - intros c f t [o Hc]. destruct (ts_at _ _ _ _ Hc t); auto with pgm.
  - intros c f t c' [o Hc] Hs. destruct (tl_simulates c f o t c' Hc Hs) as (f' & Hm & o' & Hc').
    exists f'. split; [done|]. split; [by eapply tl_joins|by exists o'].
  - intros c f t p e _ _. by destruct p.
  - intros c f t p [o Hc]. by eapply tl_progress.
Defined.

End Threads.

(** ** Theorems *)

(** C5. The ticket lock is a first-come first-served lock.  With at most [2^32]
    threads, in any interleaving of their accesses: threads get the lock in exactly
    the order in which they drew their tickets (the first access of [tl_lock]), those
    that drew one and do not have the lock yet being still in their call; two threads
    never own the lock at once; the code never faults; and while a thread wants the
    lock and nobody owns it, the calls under way can be run until somebody does. *)
Theorem ticket_lock_is_fifo n arrived served c :
  Z.of_nat n <= 2 ^ 32 -> history (H := ticketlock) n arrived served c ->
  (exists waiting, arrived = served ++ waiting /\ NoDup waiting /\
     forall t, t ∈ waiting -> exists p, phases c t = Locking p) /\
  (forall t u, phases c t = In -> phases c u = In -> t = u) /\
  (forall t p e, phases c t = Locking p \/ phases c t = Unlocking p ->
     lk_step t (shared c) p <> Fault e) /\
  (forall t p, (t < n)%nat -> phases c t = Locking p -> (forall u, phases c u <> In) ->
     exists c' u, rtc (some_runs n) c c' /\ phases c' u = In).
Proof. intros Hn Hr. pose (L := ticketlock_fifo n Hn). by apply lock_promises. Qed.

(** Thread 0 owns the lock, threads 2 and 1 have drawn tickets, in this order. *)
Definition demo_contended : @conf ticketlock :=
  let c1 := goes start 0%nat 0 (Locking TlTake) in
  let c2 := goes c1 0%nat (2 ^ 32) In in
  let c3 := goes c2 1%nat (2 ^ 32) (Locking TlTake) in
  let c4 := goes c3 2%nat (2 ^ 32) (Locking TlTake) in
  let c5 := goes c4 2%nat (2 * 2 ^ 32) (Locking (TlSpin 1)) in
  goes c5 1%nat (3 * 2 ^ 32) (Locking (TlSpin 2)).

(** One more step of a run. *)
Ltac forward t R tac := eapply (h_step _ _ _ _ t) in R; [|tac]; simpl in R.
Ltac calls := apply step_lock; [lia|reflexivity].
Ltac accesses := apply step_runs; eapply runs_lock; [lia|reflexivity..].

Lemma demo_contended_history : history 3 [0; 2; 1]%nat [0%nat] demo_contended.
Proof.
  pose proof (h_start (H := ticketlock) 3) as R.
  forward 0%nat R calls. forward 0%nat R accesses.
  forward 1%nat R calls. forward 2%nat R calls. forward 2%nat R accesses. forward 1%nat R accesses.
  exact R.
Qed.

Lemma ticket_lock_is_fifo_witness :
  history 3 [0; 2; 1]%nat [0%nat] demo_contended /\
  (exists waiting, [0; 2; 1]%nat = [0%nat] ++ waiting /\ NoDup waiting /\
     forall t, t ∈ waiting -> exists p, phases demo_contended t = Locking p) /\
  forall t u, phases demo_contended t = In -> phases demo_contended u = In -> t = u.
Proof.
  split; [apply demo_contended_history|].
  destruct (ticket_lock_is_fifo 3 [0; 2; 1]%nat [0%nat] demo_contended) as (Hw & Hx & _);
    [lia | apply demo_contended_history |]. split; [exact Hw | exact Hx].
Defined.

End TicketLock.
