(* ===== verification/QueueLock.v ===== *)
(** * The queue lock (include/queuelock.h)

    The MCS lock: threads queue up through their nodes, [tail] points to the
    last of them, every node knows the one behind it, and each thread spins on
    its own [blocked] flag.  The runtime uses it through [ql_lock_no_nest] and
    [ql_unlock_no_nest], where the node is the thread's [thread_qnode]; a pointer
    to a node is therefore the thread it belongs to. *)

From S2P Require Import Prelude Lock.

Module QueueLock.
Import Lock.
#[local] Open Scope Z_scope.

(** ** The code *)

(** [queuelock_t] and the [queuenode_t] of every thread. *)
Record queuelock_t := QueueLock_t {
  ql_tail : option tid;
  next : tid -> option tid;
  blocked : tid -> Z
}.
#[global] Instance queuelock_eta : Eta queuelock_t := fun q =>
  QueueLock_t (ql_tail q) (next q) (blocked q).

Definition QUEUELOCK_INITIALIZER : queuelock_t := QueueLock_t None (fun _ => None) (fun _ => 0).

(** Places in [__ql_lock] and [__ql_unlock]. *)
Inductive ql_pc :=
| QlNext                          (* self->next = NULL *)
| QlBlocked                       (* self->blocked = 1 *)
| QlLoad                          (* prev = q->tail *)
| QlCas (prev : option tid)       (* compare and swap *)
| QlLink (prev : tid)             (* prev->next = self *)
| QlSpin                          (* while(self->blocked) *)
| QuNext                          (* if(!self->next && *)
| QuCas                           (* !compare and swap) *)
| QuWait                          (* while(!self->next) *)
| QuCheck                         (* if(self->next) *)
| QuDeref                         (* self->next-> *)
| QuStore (p : tid).              (* blocked = 0 *)

Definition ql_step (self : tid) (q : queuelock_t) (p : ql_pc) : outcome (queuelock_t * option ql_pc) :=
  match p with
  | QlNext => Ok (q <| next ::= <[self := None]> |>, Some QlBlocked)
  | QlBlocked => Ok (q <| blocked ::= <[self := 1]> |>, Some QlLoad)
  | QlLoad => Ok (q, Some (QlCas (ql_tail q)))
  | QlCas prev =>
      if bool_decide (ql_tail q = prev)
      then Ok (q <| ql_tail := Some self |>,
               match prev with Some a => Some (QlLink a) | None => None end)
      else Ok (q, Some QlLoad)
  | QlLink prev => Ok (q <| next ::= <[prev := Some self]> |>, Some QlSpin)
  | QlSpin => Ok (q, if blocked q self =? 0 then None else Some QlSpin)
  | QuNext => Ok (q, match next q self with None => Some QuCas | Some _ => Some QuCheck end)
  | QuCas =>
      if bool_decide (ql_tail q = Some self)
      then Ok (q <| ql_tail := None |>, Some QuCheck)
      else Ok (q, Some QuWait)
  | QuWait => Ok (q, match next q self with None => Some QuWait | Some _ => Some QuCheck end)
  | QuCheck => Ok (q, match next q self with None => None | Some _ => Some QuDeref end)
  | QuDeref => p ← deref (next q self); mret (q, Some (QuStore p))
  | QuStore p => Ok (q <| blocked ::= <[p := 0]> |>, None)
  end.

(** A thread takes its place when its compare-and-swap succeeds. *)
Definition ql_doorway (q : queuelock_t) (p : ql_pc) : bool :=
  match p with QlCas prev => bool_decide (ql_tail q = prev) | _ => false end.

#[export] Instance queuelock : SpinLock := {|
  lk_shared := queuelock_t;
  lk_pc := ql_pc;
  lk_init := QUEUELOCK_INITIALIZER;
  lk_lock := QlNext;
  lk_unlock := QuNext;
  lk_step := ql_step;
  lk_doorway _ q p := ql_doorway q p
|}.

(** ** The invariant *)

(** What holds for thread [t] at its place; [q] is the queue. *)
Inductive ql_at (s : queuelock_t) (q : list tid) (t : tid) : phase ql_pc -> fphase -> Prop :=
| at_out : ql_at s q t Out FOut
| at_next : ql_at s q t (Locking QlNext) FArriving
| at_blocked : next s t = None -> ql_at s q t (Locking QlBlocked) FArriving
| at_load : next s t = None -> blocked s t = 1 -> ql_at s q t (Locking QlLoad) FArriving
| at_cas prev : next s t = None -> blocked s t = 1 -> ql_at s q t (Locking (QlCas prev)) FArriving
| at_link a : ql_at s q t (Locking (QlLink a)) FWaiting
| at_spin : ql_at s q t (Locking QlSpin) FWaiting
| at_in : ql_at s q t In FIn
| at_unext : ql_at s q t (Unlocking QuNext) FLeaving
| at_ucas : ql_at s q t (Unlocking QuCas) FLeaving
| at_uwait b q' : q = t :: b :: q' -> ql_at s q t (Unlocking QuWait) FLeaving
| at_ucheck b : next s t = Some b -> ql_at s q t (Unlocking QuCheck) FLeaving
| at_gone : next s t = None -> ql_at s q t (Unlocking QuCheck) FGone
| at_uderef b : next s t = Some b -> ql_at s q t (Unlocking QuDeref) FLeaving
| at_ustore b : next s t = Some b -> ql_at s q t (Unlocking (QuStore b)) FLeaving.

(** [b] stands behind [a]: it spins, and [a] knows of it once it has said so. *)
Definition behind (c : @conf queuelock) (a b : tid) : Prop :=
  blocked (shared c) b = 1 /\
  ((phases c b = Locking (QlLink a) /\ next (shared c) a = None) \/
   (phases c b = Locking QlSpin /\ next (shared c) a = Some b)).

Record ql_sim (n : nat) (c : @conf queuelock) (f : fconf) : Prop := {
  qs_fifo : fifo_ok f;
  qs_at t : ql_at (shared c) (queue f) t (phases c t) (fphases f t);
  qs_tail : ql_tail (shared c) = last (queue f);
  qs_last t : last (queue f) = Some t -> next (shared c) t = None;
  qs_behind i a b : queue f !! i = Some a -> queue f !! S i = Some b -> behind c a b;
  qs_head t q p : queue f = t :: q -> phases c t = Locking p -> p = QlSpin /\ blocked (shared c) t = 0;
  qs_bound t : t ∈ queue f -> (t < n)%nat
}.

Section Threads.
Variable n : nat.

(** Memory that differs in the node of [t] only. *)
Definition own_node (s s' : queuelock_t) (t : tid) : Prop :=
  forall u, u <> t -> next s' u = next s u /\ blocked s' u = blocked s u.

Lemma ql_at_node s s' q t u ph fp :
  own_node s s' t -> u <> t -> ql_at s q u ph fp -> ql_at s' q u ph fp.
Proof. intros Hs Hu Ha. destruct (Hs u Hu) as [E1 E2]. destruct Ha; econstructor; rewrite ?E1, ?E2; eauto. Qed.

(** A step of [t] in its own node that changes nothing others look at: [t] is
    outside the queue, or owns the lock afterwards. *)
Lemma ql_frame c f f' t s ph :
  ql_sim n c f -> fifo_ok f' -> queue f' = queue f ->
  (forall u, u <> t -> fphases f' u = fphases f u) ->
  own_node (shared c) s t -> ql_tail s = ql_tail (shared c) ->
  (t ∈ queue f -> next s t = next (shared c) t /\
     exists q, queue f = t :: q /\ forall p, ph <> Locking p) ->
  ql_at s (queue f) t ph (fphases f' t) ->
  ql_sim n (goes c t s ph) f'.
Proof.
  intros Hc Hf' Hq Hu Hn Ht Hin Ha.
  assert (Hother : forall u, u <> t -> phases (goes c t s ph) u = phases c u)
    by (intros u Hne; simpl; by rewrite fn_lookup_insert_ne).
  split; rewrite ?Hq; try done.
  - intros u. destruct (decide (u = t)) as [->|Hne]; [simpl; by rewrite fn_lookup_insert|].
    rewrite Hother, Hu by done. eapply ql_at_node; [done..|]. apply Hc.
  - simpl. rewrite Ht. apply Hc.
  - intros u E. simpl. rewrite <- (qs_last _ _ _ Hc u E). destruct (decide (u = t)) as [->|Hne].
    + apply Hin. by apply last_Some_elem_of.
    + by apply Hn.
  - intros i a b Hia Hib. pose proof (qs_behind _ _ _ Hc i a b Hia Hib) as [Hb Hl].
    assert (Hbt : b <> t).
    { intros ->. destruct Hin as (_ & q & Q & _); [by eapply list_elem_of_lookup_2|].
      rewrite Q in Hib. simpl in Hib. pose proof (fo_nodup _ (qs_fifo _ _ _ Hc)) as Hd. rewrite Q in Hd.
      apply NoDup_cons in Hd as [Hd _]. apply Hd. by eapply list_elem_of_lookup_2. }
    assert (Ena : next s a = next (shared c) a).
    { destruct (decide (a = t)) as [->|Hne]; [|by apply Hn].
      apply Hin. by eapply list_elem_of_lookup_2. }
    unfold behind. rewrite Hother by done. simpl. rewrite Ena. destruct (Hn b Hbt) as [_ ->]. done.
  - intros u q p Q Hp. destruct (decide (u = t)) as [->|Hne].
    + destruct Hin as (_ & q' & _ & Hnl); [rewrite Q; by constructor|].
      simpl in Hp. rewrite fn_lookup_insert in Hp. by destruct (Hnl p).
    + rewrite Hother in Hp by done. simpl. destruct (Hn u Hne) as [_ ->]. by eapply qs_head.
  - apply Hc.
Qed.

(** The two cases: [t] is not in the queue, or it owns the lock. *)
Lemma ql_outside c f f' t s ph :
  ql_sim n c f -> queued (fphases f t) = false -> fifo_ok f' -> queue f' = queue f ->
  (forall u, u <> t -> fphases f' u = fphases f u) ->
  own_node (shared c) s t -> ql_tail s = ql_tail (shared c) ->
  ql_at s (queue f) t ph (fphases f' t) -> ql_sim n (goes c t s ph) f'.
Proof.
  intros Hc Hq Hf' Q Hu Hn Ht Ha. eapply (ql_frame c f f'); try done.
  intros Hin. apply (fo_queued _ (qs_fifo _ _ _ Hc)) in Hin. congruence.
Qed.

Lemma ql_owner c f f' t ph :
  ql_sim n c f -> (exists q, queue f = t :: q) -> fifo_ok f' -> queue f' = queue f ->
  (forall u, u <> t -> fphases f' u = fphases f u) -> (forall p, ph <> Locking p) ->
  ql_at (shared c) (queue f) t ph (fphases f' t) -> ql_sim n (goes c t (shared c) ph) f'.
Proof.
  intros Hc [q Q] Hf' Q' Hu Hp Ha. eapply (ql_frame c f f'); try done. intros _. eauto.
Qed.

Lemma ql_ext c c' f :
  ql_sim n c f -> shared c' = shared c -> (forall u, phases c' u = phases c u) -> ql_sim n c' f.
Proof.
  intros Hc Hs Hp. split; rewrite ?Hs; try apply Hc.
  - intros t. rewrite Hp. apply Hc.
  - intros i a b Ha Hb. unfold behind. rewrite Hs, Hp. by eapply qs_behind.
  - intros t q p. rewrite Hp. apply Hc.
Qed.

Lemma leaving_first c f t :
  ql_sim n c f -> fphases f t = FIn \/ fphases f t = FLeaving -> exists q, queue f = t :: q.
Proof. intros Hc. apply fifo_ok_first, Hc. Qed.

(** *** Locking *)

Lemma own_node_refl s t : own_node s s t.
Proof. by intros u. Qed.

Lemma own_node_next s t v : own_node s (s <| next ::= <[t := v]> |>) t.
Proof. intros u Hu. simpl. by rewrite fn_lookup_insert_ne. Qed.

Lemma own_node_blocked s t v : own_node s (s <| blocked ::= <[t := v]> |>) t.
Proof. intros u Hu. simpl. by rewrite fn_lookup_insert_ne. Qed.
#[local] Hint Resolve own_node_refl own_node_next own_node_blocked : core.

(** Before the compare-and-swap succeeds. *)
Lemma ql_prepare c f t p s p' :
  ql_sim n c f -> phases c t = Locking p -> fphases f t = FArriving ->
  ql_step t (shared c) p = Ok (s, Some p') ->
  (forall prev, p = QlCas prev -> ql_tail (shared c) <> prev) ->
  ql_sim n (goes c t s (Locking p')) f.
Proof.
  intros Hc Hp Hf Hs Hcas. pose proof (qs_at _ _ _ Hc t) as Ha. rewrite Hp, Hf in Ha.
  assert (Hq : queued (fphases f t) = false) by by rewrite Hf.
  inversion Ha; subst; simplify_eq/=.
  - eapply ql_outside; eauto; [apply Hc|]. rewrite Hf. constructor. simpl. by rewrite fn_lookup_insert.
  - eapply ql_outside; eauto; [apply Hc|]. rewrite Hf. constructor; [done|]. simpl. by rewrite fn_lookup_insert.
  - eapply ql_outside; eauto; [apply Hc|]. rewrite Hf. by constructor.
  - rewrite bool_decide_eq_false_2 in Hs by eauto. simplify_eq/=.
    eapply ql_outside; eauto; [apply Hc|]. rewrite Hf. by constructor.
Qed.

Lemma ql_at_snoc s q t u ph fp : ql_at s q u ph fp -> ql_at s (q ++ [t]) u ph fp.
Proof. intros []; try (econstructor; eauto; fail). subst. eapply at_uwait. simpl. eauto. Qed.

(** The compare-and-swap that enqueues; [ph] is where the thread goes. *)
Lemma ql_join c f t prev :
  ql_sim n c f -> (t < n)%nat -> phases c t = Locking (QlCas (Some prev)) ->
  ql_tail (shared c) = Some prev -> fphases f t = FArriving ->
  ql_sim n (goes c t ((shared c) <| ql_tail := Some t |>) (Locking (QlLink prev)))
    (fgoes f t (queue f ++ [t]) FWaiting).
Proof.
  intros Hc Hlt Hp Ht Hf. pose proof (qs_at _ _ _ Hc t) as Ha. rewrite Hp, Hf in Ha.
  inversion Ha as [| | | |? Hn Hb| | | | | | | | | |]; subst.
  pose proof (fifo_ok_join f t (qs_fifo _ _ _ Hc) Hf) as Hf'.
  assert (Hnq : t ∉ queue f) by (rewrite (fo_queued _ (qs_fifo _ _ _ Hc)), Hf; done).
  rewrite (qs_tail _ _ _ Hc) in Ht.
  split; [done|..]; simpl.
  - intros u. destruct (decide (u = t)) as [->|Hne]; rewrite ?fn_lookup_insert; [constructor|].
    rewrite !fn_lookup_insert_ne by done. apply ql_at_snoc.
    eapply (ql_at_node (shared c) _ _ t); [by intros v|done|]. apply Hc.
  - by rewrite last_snoc.
  - intros u. rewrite last_snoc. by intros [= <-].
  - intros i a b Hia Hib. unfold behind; simpl.
    apply lookup_app_Some in Hib as [Hib|[Hi Hib]].
    + rewrite fn_lookup_insert_ne by (intros ->; apply Hnq; by eapply list_elem_of_lookup_2).
      rewrite lookup_app_l in Hia by (apply lookup_lt_Some in Hib; lia). by eapply qs_behind.
    + apply list_lookup_singleton_Some in Hib as [Ei ->].
      rewrite lookup_app_l in Hia by lia. rewrite last_lookup in Ht.
      replace (pred (length (queue f))) with i in Ht by lia. simplify_eq.
      rewrite fn_lookup_insert. split; [done|]. left. split; [done|].
      apply (qs_last _ _ _ Hc). rewrite last_lookup. by replace (pred (length (queue f))) with i by lia.
  - intros u q p Q Hpu. destruct (queue f) as [|x q'] eqn:Qf; [done|]. simplify_eq/=.
    assert (u <> t) by (intros ->; apply Hnq; by constructor).
    rewrite fn_lookup_insert_ne in Hpu by done. by eapply qs_head.
  - intros u [Hu | ->%list_elem_of_singleton]%elem_of_app; [by eapply qs_bound|done].
Qed.

(** The compare-and-swap on an empty queue. *)
Lemma ql_join_empty c f t :
  ql_sim n c f -> (t < n)%nat -> phases c t = Locking (QlCas None) ->
  ql_tail (shared c) = None -> fphases f t = FArriving ->
  exists f', fmoves t f f' /\
    ql_sim n (goes c t ((shared c) <| ql_tail := Some t |>) In) f'.
Proof.
  intros Hc Hlt Hp Ht Hf. pose proof (qs_at _ _ _ Hc t) as Ha. rewrite Hp, Hf in Ha.
  inversion Ha as [| | | |? Hn Hb| | | | | | | | | |]; subst.
  rewrite (qs_tail _ _ _ Hc), last_None in Ht.
  pose proof (f_join t f Hf) as H1. rewrite Ht in H1. simpl in H1.
  assert (H2 : fstep t (fgoes f t [t] FWaiting) (fgoes (fgoes f t [t] FWaiting) t [t] FIn)).
  { apply f_enter; [by rewrite fgoes_phase|done]. }
  eexists. split; [eapply fm_two; [done|by rewrite fgoes_phase|done]|].
  split; simpl.
  - eapply fstep_fifo_ok, H2. eapply fstep_fifo_ok, H1. apply Hc.
  - intros u. destruct (decide (u = t)) as [->|Hne]; rewrite ?fn_lookup_insert; [constructor|].
    rewrite !fn_lookup_insert_ne by done.
    pose proof (ql_at_snoc _ _ t _ _ _ (qs_at _ _ _ Hc u)) as Hs. rewrite Ht in Hs.
    eapply (ql_at_node (shared c) _ _ t); [by intros v|done..].
  - done.
  - by intros u [= <-].
  - by intros [|i] a b.
  - intros u q p [= <- <-]. by rewrite fn_lookup_insert.
  - by intros u ->%list_elem_of_singleton.
Qed.

(** A waiting thread that has somebody in front. *)
Lemma waiting_behind c f t :
  ql_sim n c f -> fphases f t = FWaiting ->
  (exists q, queue f = t :: q) \/
  (exists i a, queue f !! i = Some a /\ queue f !! S i = Some t /\ behind c a t).
Proof.
  intros Hc Hf. assert (Hin : t ∈ queue f) by (apply (fo_queued _ (qs_fifo _ _ _ Hc)); by rewrite Hf).
  apply list_elem_of_lookup in Hin as [[|i] Hi].
  - left. destruct (queue f) as [|x q]; simplify_eq/=. eauto.
  - right. destruct (lookup_lt_is_Some_2 (queue f) i) as [a Ha]; [apply lookup_lt_Some in Hi; lia|].
    exists i, a. split_and!; [done..|]. by eapply qs_behind.
Qed.

Lemma queue_unique f i j t :
  fifo_ok f -> queue f !! i = Some t -> queue f !! j = Some t -> i = j.
Proof. intros Hf. apply NoDup_lookup, Hf. Qed.

(** [prev->next = self]: only the thread in front learns of it. *)
Lemma ql_link c f t a :
  ql_sim n c f -> phases c t = Locking (QlLink a) -> fphases f t = FWaiting ->
  ql_sim n (goes c t ((shared c) <| next ::= <[a := Some t]> |>) (Locking QlSpin)) f.
Proof.
  intros Hc Hp Hf. pose proof (qs_fifo _ _ _ Hc) as Hff.
  destruct (waiting_behind c f t Hc Hf) as [[q Q]|(i & a' & Ha & Ht & Hb & Hl)].
  { by destruct (qs_head _ _ _ Hc t q (QlLink a) Q Hp). }
  destruct Hl as [[Hp' Hn]|[Hp' _]]; [|congruence]. assert (a' = a) as -> by congruence.
  assert (Hne : a <> t) by (intros ->; pose proof (queue_unique f _ _ _ Hff Ha Ht); lia).
  split; [done|..]; simpl.
  - intros u. destruct (decide (u = t)) as [->|Hu].
    { rewrite fn_lookup_insert, Hf. constructor. }
    rewrite fn_lookup_insert_ne by done. pose proof (qs_at _ _ _ Hc u) as Hat.
    destruct (decide (u = a)) as [->|Hua].
    + assert (Hin : a ∈ queue f) by by eapply list_elem_of_lookup_2.
      apply (fo_queued _ Hff) in Hin. inversion Hat as [E E'|E E'|? E E'|? ? E E'|? ? ? E E'| | | | | |? ? ? E E'|? ? E E'|? E E'|? ? E E'|? ? E E'];
        try constructor; try congruence; try (rewrite <- E' in Hin; done). econstructor; done.
    + eapply (ql_at_node (shared c) _ _ a); [|done..]. apply own_node_next.
  - apply Hc.
  - intros u Hu. rewrite fn_lookup_insert_ne; [by apply Hc|]. intros <-.
    rewrite last_lookup in Hu. pose proof (queue_unique f _ _ _ Hff Ha Hu).
    apply lookup_lt_Some in Ht. lia.
  - intros j x y Hx Hy. pose proof (qs_behind _ _ _ Hc j x y Hx Hy) as Hxy. unfold behind in *. simpl.
    destruct (decide (x = a)) as [->|Hxa].
    + pose proof (queue_unique f _ _ _ Hff Ha Hx). simplify_eq. rewrite !fn_lookup_insert. tauto.
    + rewrite (fn_lookup_insert_ne _ a) by done.
      assert (y <> t). { intros ->. pose proof (queue_unique f _ _ _ Hff Ht Hy). simplify_eq. }
      by rewrite fn_lookup_insert_ne.
  - intros u q p Q Hpu. rewrite Q in Ht. assert (u <> t).
    { intros ->. pose proof (queue_unique f (S i) 0 t Hff). rewrite Q in *. naive_solver. }
    rewrite fn_lookup_insert_ne in Hpu by done. by eapply qs_head.
  - apply Hc.
Qed.

(** *** Unlocking *)

(** The compare-and-swap that empties the queue. *)
Lemma ql_empty c f t :
  ql_sim n c f -> phases c t = Unlocking QuCas -> ql_tail (shared c) = Some t ->
  exists f', fmoves t f f' /\
    ql_sim n (goes c t ((shared c) <| ql_tail := None |>) (Unlocking QuCheck)) f'.
Proof.
  intros Hc Hp Ht. pose proof (qs_at _ _ _ Hc t) as Ha. rewrite Hp in Ha.
  pose proof (qs_fifo _ _ _ Hc) as Hff.
  assert (E : fphases f t = FLeaving) by by inversion Ha.
  destruct (leaving_first c f t Hc) as [q Q]; [auto|]. rewrite (qs_tail _ _ _ Hc) in Ht.
  assert (q = []) as ->.
  { pose proof Ht as Hl. rewrite last_lookup in Hl.
    pose proof (queue_unique f (pred (length (queue f))) 0 t Hff Hl) as Hi. rewrite Q in Hi.
    destruct q; [done|]. simpl in Hi. naive_solver. }
  exists (fgoes f t [] FGone). split; [apply fm_one; by apply f_release|].
  split; simpl.
  - by apply fifo_ok_release.
  - intros u. destruct (decide (u = t)) as [->|Hne]; rewrite ?fn_lookup_insert.
    + constructor. by apply Hc.
    + rewrite !fn_lookup_insert_ne by done. pose proof (qs_at _ _ _ Hc u) as Hu.
      rewrite Q in Hu. eapply (ql_at_node _ _ [] t); [by intros v|done|].
      inversion Hu; subst; first [discriminate | econstructor; by eauto].
  - done.
  - done.
  - by intros i a b.
  - done.
  - intros u Hu. by inversion Hu.
Qed.

(** [self->next->blocked = 0]: the second in the queue becomes its first. *)
Lemma ql_pass c f t b :
  ql_sim n c f -> phases c t = Unlocking (QuStore b) ->
  exists f', fmoves t f f' /\ queue f = t :: queue f' /\ head (queue f') = Some b /\
    ql_sim n (goes c t ((shared c) <| blocked ::= <[b := 0]> |>) Out) f'.
Proof.
  intros Hc Hp. pose proof (qs_at _ _ _ Hc t) as Ha. rewrite Hp in Ha.
  pose proof (qs_fifo _ _ _ Hc) as Hff.
  assert (E : fphases f t = FLeaving /\ next (shared c) t = Some b) by by inversion Ha.
  destruct E as [E Hn]. destruct (leaving_first c f t Hc) as [q Q]; [auto|].
  destruct q as [|b' q].
  { pose proof (qs_last _ _ _ Hc t) as Hl. rewrite Q in Hl. rewrite Hl in Hn; done. }
  assert (Hb : behind c t b') by (apply (qs_behind _ _ _ Hc 0); by rewrite Q).
  destruct Hb as [Hb [[_ Hb']|[Hpb Hb']]]; [congruence|]. assert (b' = b) as -> by congruence.
  pose proof (fo_nodup _ Hff) as Hd. rewrite Q in Hd.
  apply NoDup_cons in Hd as [Htq Hd]. pose proof Hd as [Hbq _]%NoDup_cons.
  pose proof (f_release t f (b :: q) E Q) as H1.
  assert (H2 : fstep t (fgoes f t (b :: q) FGone) (fgoes (fgoes f t (b :: q) FGone) t (b :: q) FOut)).
  { apply f_return. by rewrite fgoes_phase. }
  eexists. split_and!; [eapply fm_two; [done|by rewrite fgoes_phase|done]|done|done|]. split; simpl.
  - eapply fstep_fifo_ok, H2. by eapply fstep_fifo_ok, H1.
  - intros u. destruct (decide (u = t)) as [->|Hut]; rewrite ?fn_lookup_insert; [constructor|].
    rewrite !fn_lookup_insert_ne by done. pose proof (qs_at _ _ _ Hc u) as Hu. rewrite Q in Hu.
    assert (Hu' : ql_at (shared c) (b :: q) u (phases c u) (fphases f u)).
    { inversion Hu; subst; first [by simplify_eq | econstructor; by eauto]. }
    destruct (decide (u = b)) as [->|Hub]; [|eapply (ql_at_node _ _ _ b); [|done..]; apply own_node_blocked].
    rewrite Hpb in Hu' |- *. inversion Hu'. constructor.
  - rewrite (qs_tail _ _ _ Hc), Q. done.
  - intros u Hu. apply (qs_last _ _ _ Hc). by rewrite Q.
  - intros i x y Hx Hy. assert (Hxy : behind c x y) by (apply (qs_behind _ _ _ Hc (S i)); by rewrite Q).
    assert (y <> b) by (intros ->; simpl in Hy; apply Hbq; by eapply list_elem_of_lookup_2).
    assert (y <> t) by (intros ->; apply Htq; right; by eapply list_elem_of_lookup_2).
    unfold behind in *. simpl. by rewrite !fn_lookup_insert_ne.
  - intros u q' p [= <- <-] Hpu. rewrite fn_lookup_insert_ne in Hpu by (intros ->; apply Htq; constructor).
    rewrite fn_lookup_insert. split; [congruence|done].
  - intros u Hu. apply (qs_bound _ _ _ Hc). rewrite Q. by constructor.
Qed.

(** The other steps of unlocking. *)
Lemma ql_leave c f t p s r :
  ql_sim n c f -> phases c t = Unlocking p -> ql_step t (shared c) p = Ok (s, r) ->
  (p = QuCas -> ql_tail (shared c) <> Some t) -> (forall b, p <> QuStore b) ->
  exists f', fmoves t f f' /\ ql_sim n (goes c t s (unlocking r)) f'.
Proof.
  intros Hc Hp Hs Hcas Hst. pose proof (qs_at _ _ _ Hc t) as Ha. rewrite Hp in Ha.
  pose proof (qs_fifo _ _ _ Hc) as Hff.
  assert (Hgo : forall ph, fphases f t = FLeaving -> (forall p, ph <> Locking p) ->
    ql_at (shared c) (queue f) t ph FLeaving ->
    exists f', fmoves t f f' /\ ql_sim n (goes c t (shared c) ph) f').
  { intros ph E Hph Hat. exists f. split; [done|].
    apply (ql_owner c f f); [done|by apply (leaving_first c); auto|done..|by rewrite E]. }
  inversion Ha; subst; simplify_eq/=.
  - destruct (next (shared c) t) eqn:En; (apply Hgo; [done..|]); econstructor; done.
  - rewrite bool_decide_eq_false_2 in Hs by auto. simplify_eq/=. apply Hgo; [done..|].
    destruct (leaving_first c f t Hc) as [[|b q] Q]; [auto| |].
    + destruct Hcas; [done|]. by rewrite (qs_tail _ _ _ Hc), Q.
    + by econstructor.
  - destruct (next (shared c) t) eqn:En; (apply Hgo; [done..|]); econstructor; done.
  - match goal with Hn : next _ _ = _ |- _ => rewrite Hn end. apply Hgo; [done..|]. by econstructor.
  - match goal with Hn : next _ _ = _ |- _ => rewrite Hn end.
    pose proof (f_return t f ltac:(done)) as Hr. eexists. split; [by apply fm_one|]. simpl.
    eapply ql_outside; [done | | by eapply fstep_fifo_ok | done | | done | done |].
    + match goal with Hf : FGone = _ |- _ => by rewrite <- Hf end.
    + intros u Hu. by apply fstep_keeps_phases.
    + rewrite fgoes_phase. constructor.
  - match goal with Hn : next _ _ = _ |- _ => rewrite Hn in Hs end. injection Hs as <- <-.
    apply Hgo; [done..|]. by econstructor.
  - by destruct (Hst b).
Qed.

(** A thread at the head of the queue stops spinning. *)
Lemma ql_enter c f t :
  ql_sim n c f -> phases c t = Locking QlSpin -> blocked (shared c) t = 0 ->
  exists f', fmoves t f f' /\ ql_sim n (goes c t (shared c) In) f'.
Proof.
  intros Hc Hp Hb. pose proof (qs_at _ _ _ Hc t) as Ha. rewrite Hp in Ha.
  assert (E : fphases f t = FWaiting) by by inversion Ha.
  destruct (waiting_behind c f t Hc E) as [[q Q]|(i & a & _ & _ & Hb' & _)]; [|congruence].
  pose proof (f_enter t f q E Q) as Hs. rewrite <- Q in Hs.
  eexists. split; [by apply fm_one|].
  eapply (ql_owner c f); [done|eauto|eapply fstep_fifo_ok; [apply Hc|done]|done| |done|].
  - intros u Hu. by apply fstep_keeps_phases.
  - rewrite fgoes_phase. constructor.
Qed.

Lemma ql_stays c f t p :
  ql_sim n c f -> phases c t = Locking p -> ql_sim n (goes c t (shared c) (Locking p)) f.
Proof.
  intros Hc Hp. eapply ql_ext; [done..|]. intros u. simpl.
  destruct (decide (u = t)) as [->|Hne]; by rewrite ?fn_lookup_insert, ?fn_lookup_insert_ne.
Qed.

Lemma ql_locks c f t p s r :
  ql_sim n c f -> (t < n)%nat -> phases c t = Locking p -> ql_step t (shared c) p = Ok (s, r) ->
  exists f', fmoves t f f' /\ ql_sim n (goes c t s (locking r)) f'.
Proof.
  intros Hc Ht Hp Hs. pose proof (qs_at _ _ _ Hc t) as Ha. rewrite Hp in Ha.
  assert (Hprep : forall p', r = Some p' -> fphases f t = FArriving ->
    (forall prev, p = QlCas prev -> ql_tail (shared c) <> prev) ->
    exists f', fmoves t f f' /\ ql_sim n (goes c t s (locking r)) f').
  { intros p' -> Hf Hcas. exists f. split; [done|]. by eapply ql_prepare. }
  inversion Ha as [|Ep Ef|? Ep Ef|? ? Ep Ef|prev Hn Hb Ep Ef|a Ep Ef|Ep Ef| | | | | | | |]; subst.
  - by apply (Hprep QlBlocked); simplify_eq/=.
  - by apply (Hprep QlLoad); simplify_eq/=.
  - by apply (Hprep (QlCas (ql_tail (shared c)))); simplify_eq/=.
  - simpl in Hs. case_bool_decide as E; simplify_eq/=.
    + destruct (ql_tail (shared c)) as [a|] eqn:Et.
      * eexists. split; [apply fm_one; by apply f_join|]. by apply ql_join.
      * by apply ql_join_empty.
    + apply (Hprep QlLoad); [done..|]. by intros ? [= <-].
  - simplify_eq/=. exists f. split; [done|]. by apply ql_link.
  - simplify_eq/=. destruct (Z.eqb_spec (blocked (shared c) t) 0) as [E|E]; [by apply ql_enter|].
    exists f. split; [done|]. by apply ql_stays.
Qed.

Lemma ql_unlocks c f t p s r :
  ql_sim n c f -> phases c t = Unlocking p -> ql_step t (shared c) p = Ok (s, r) ->
  exists f', fmoves t f f' /\ ql_sim n (goes c t s (unlocking r)) f'.
Proof.
  intros Hc Hp Hs. destruct p as [| | | | | | | | | | |b]; try (by eapply ql_leave).
  - destruct (decide (ql_tail (shared c) = Some t)) as [E|E]; [|by eapply ql_leave].
    simpl in Hs. rewrite bool_decide_eq_true_2 in Hs by done. simplify_eq/=. by apply ql_empty.
  - simplify_eq/=. destruct (ql_pass c f t b Hc Hp) as (f' & Hf & _ & _ & Hc'). eauto.
Qed.

Lemma ql_simulates c f t c' :
  ql_sim n c f -> step n t c c' -> exists f', fmoves t f f' /\ ql_sim n c' f'.
Proof.
  intros Hc Hs. pose proof (qs_at _ _ _ Hc t) as Ha. pose proof (qs_fifo _ _ _ Hc) as Hff.
  destruct Hs as [c' [p s r Ht Hp E|p s r Ht Hp E]|Ht Hp|Ht Hp].
  - by eapply ql_locks.
  - by eapply ql_unlocks.
  - rewrite Hp in Ha. assert (E : fphases f t = FOut) by by inversion Ha.
    pose proof (f_call t f E) as Hs. eexists. split; [by apply fm_one|].
    eapply (ql_outside c f); [done|by rewrite E|by eapply fstep_fifo_ok|done| |done|done|].
    + intros u Hu. by apply fstep_keeps_phases.
    + rewrite fgoes_phase. constructor.
  - rewrite Hp in Ha. assert (E : fphases f t = FIn) by by inversion Ha.
    pose proof (f_leave t f E) as Hs. eexists. split; [by apply fm_one|].
    eapply (ql_owner c f); [done|by apply (leaving_first c); auto|by eapply fstep_fifo_ok|done| |done|].
    + intros u Hu. by apply fstep_keeps_phases.
    + rewrite fgoes_phase. constructor.
Qed.

(** A thread joins the queue where its compare-and-swap succeeds. *)
Lemma ql_joins c f t c' f' :
  ql_sim n c f -> step n t c c' -> ql_sim n c' f' -> fjoins t f f' = arrives t c.
Proof.
  intros Hc Hs Hc'. pose proof (qs_at _ _ _ Hc t) as Ha. pose proof (qs_at _ _ _ Hc' t) as Ha'.
  unfold fjoins, arrives. destruct Hs as [c' [p s r Ht Hp E|p s r Ht Hp E]|Ht Hp|Ht Hp];
    simpl in Ha'; rewrite fn_lookup_insert in Ha'; rewrite Hp in *;
    revert Ha Ha'; generalize (fphases f t), (fphases f' t); intros fp fp' Ha Ha';
    inversion Ha; subst; simplify_eq/=; split_matches; try done; by inversion Ha'; subst; rewrite ?Heqb.
Qed.

Lemma ql_no_fault c f t p e :
  ql_sim n c f -> phases c t = Locking p \/ phases c t = Unlocking p ->
  ql_step t (shared c) p <> Fault e.
Proof.
  intros Hc Hp. pose proof (qs_at _ _ _ Hc t) as Ha. destruct p; simpl; try done; try by case_bool_decide.
  destruct Hp as [Hp|Hp]; rewrite Hp in Ha; inversion Ha as [| | | | | | | | | | | | |b Hn|]. by rewrite Hn.
Qed.

(** *** Progress *)

(** The calls under way can be run until somebody owns the lock. *)
Definition gets (c : @conf queuelock) : Prop :=
  exists c' u, rtc (some_runs n) c c' /\ phases c' u = In.

Lemma gets_step c c' t : runs n t c c' -> gets c' -> gets c.
Proof.
  intros Hr (c'' & u & Hr' & Hu). exists c'', u. split; [|done]. eapply rtc_l; [by exists t|done].
Qed.

Lemma gets_in c t s p :
  (t < n)%nat -> phases c t = Locking p -> ql_step t (shared c) p = Ok (s, None) -> gets c.
Proof.
  intros Ht Hp Hs. exists (goes c t s In), t. split; [|simpl; by rewrite fn_lookup_insert].
  apply rtc_once. exists t. by apply (runs_lock n t c p s None).
Qed.

(** Nobody in the queue: the next thread to try succeeds. *)
Definition rank (p : ql_pc) : nat :=
  match p with QlCas None => 0 | QlLoad => 1 | QlCas (Some _) => 2 | QlBlocked => 2 | _ => 3 end.

Lemma gets_empty k c f t p :
  ql_sim n c f -> queue f = [] -> (t < n)%nat -> phases c t = Locking p -> (rank p <= k)%nat -> gets c.
Proof.
  revert c p. induction k as [|k IH]; intros c p Hc Q Ht Hp Hk;
    pose proof (qs_tail _ _ _ Hc) as Htail; rewrite Q in Htail; simpl in Htail;
    pose proof (qs_at _ _ _ Hc t) as Ha; rewrite Hp in Ha.
  - destruct p as [| | |[a|]| | | | | | | |]; simpl in Hk; try lia.
    eapply gets_in; [done..|]. simpl. by rewrite bool_decide_eq_true_2.
  - assert (Hnext : forall s p', ql_step t (shared c) p = Ok (s, Some p') -> (rank p' <= k)%nat ->
      (forall prev, p = QlCas prev -> ql_tail (shared c) <> prev) -> fphases f t = FArriving -> gets c).
    { intros s p' Hs Hr Hcas Hf. apply (gets_step c (goes c t s (Locking p')) t).
      - by apply (runs_lock n t c p s (Some p')).
      - apply (IH _ p'); [by eapply ql_prepare|done..| |done]. simpl. by rewrite fn_lookup_insert. }
    inversion Ha as [|Ep Ef|? Ep Ef|? ? Ep Ef|prev Hn Hb Ep Ef|a Ep Ef|Ep Ef| | | | | | | |]; subst; simpl in Hk.
    + eapply Hnext; [done|simpl; lia|done..].
    + eapply Hnext; [done|simpl; lia|done..].
    + eapply Hnext; [done|rewrite Htail; simpl; lia|done..].
    + destruct prev as [a|].
      * eapply Hnext; [simpl; by rewrite Htail|simpl; simpl in Hk; lia| |done].
        intros prev [= <-]. by rewrite Htail.
      * eapply gets_in; [done..|]. simpl. by rewrite bool_decide_eq_true_2.
    + assert (Hin : t ∈ queue f) by (apply (fo_queued _ (qs_fifo _ _ _ Hc)); by rewrite <- Ef).
      rewrite Q in Hin. by inversion Hin.
    + assert (Hin : t ∈ queue f) by (apply (fo_queued _ (qs_fifo _ _ _ Hc)); by rewrite <- Ef).
      rewrite Q in Hin. by inversion Hin.
Qed.

(** The owner [h] unlocks: its remaining steps, from the last to the first. *)
Section Owner.
Variables h t : tid.
Hypotheses (Hh : (h < n)%nat) (Ht : (t < n)%nat).

Definition wants (c : @conf queuelock) : Prop := exists p, phases c t = Locking p.

(** One step of [h]. *)
Lemma owner_steps c f p s p' :
  ql_sim n c f -> phases c h = Unlocking p -> wants c ->
  ql_step h (shared c) p = Ok (s, Some p') ->
  (forall c' f', ql_sim n c' f' -> shared c' = s -> phases c' h = Unlocking p' ->
     wants c' -> gets c') -> gets c.
Proof.
  intros Hc Hp Hpt Hs Hnext. destruct (ql_unlocks c f h p s _ Hc Hp Hs) as (f' & _ & Hc').
  apply (gets_step c (goes c h s (Unlocking p')) h); [by apply (runs_unlock n h c p s (Some p'))|].
  apply (Hnext _ f'); simpl; rewrite ?fn_lookup_insert; [done..|].
  destruct Hpt as [pt Hpt]. exists pt. simpl. rewrite fn_lookup_insert_ne; [done|congruence].
Qed.

Lemma second_known c f b :
  ql_sim n c f -> (exists q, queue f = h :: q) -> next (shared c) h = Some b ->
  b ∈ queue f /\ b <> h /\ phases c b = Locking QlSpin.
Proof.
  intros Hc [[|b' q] Q] Hn.
  - pose proof (qs_last _ _ _ Hc h) as Hl. rewrite Q in Hl. rewrite Hl in Hn; done.
  - assert (Hb : behind c h b') by (apply (qs_behind _ _ _ Hc 0); by rewrite Q).
    destruct Hb as [_ [[_ Hb]|[Hp Hb]]]; [congruence|]. assert (b' = b) as -> by congruence.
    pose proof (fo_nodup _ (qs_fifo _ _ _ Hc)) as Hd. rewrite Q in Hd |- *.
    apply NoDup_cons in Hd as [Hd _]. split_and!; [apply list_elem_of_further, list_elem_of_here| |done].
    intros ->. apply Hd, list_elem_of_here.
Qed.

Lemma gets_store c f b :
  ql_sim n c f -> phases c h = Unlocking (QuStore b) -> gets c.
Proof.
  intros Hc Hp. pose proof (qs_at _ _ _ Hc h) as Ha. rewrite Hp in Ha.
  assert (E : fphases f h = FLeaving /\ next (shared c) h = Some b) by by inversion Ha.
  destruct E as [E Hn]. destruct (leaving_first c f h Hc) as [q Q]; [auto|].
  destruct (second_known c f b Hc) as (Hb & Hne & Hpb); [eauto|done|].
  eapply gets_step; [eapply (runs_unlock n h c (QuStore b)); [done|done|reflexivity]|].
  eapply (gets_in _ b); [by eapply qs_bound | simpl; by rewrite fn_lookup_insert_ne |].
  simpl. by rewrite fn_lookup_insert.
Qed.

Lemma gets_deref c f : ql_sim n c f -> phases c h = Unlocking QuDeref -> wants c -> gets c.
Proof.
  intros Hc Hp Hpt. pose proof (qs_at _ _ _ Hc h) as Ha. rewrite Hp in Ha.
  assert (exists b, next (shared c) h = Some b) as [b Hn] by (inversion Ha; eauto).
  eapply owner_steps; [done..|simpl; by rewrite Hn|]. intros c' f' Hc' _ Hp' _. by eapply gets_store.
Qed.

Lemma gets_check c f b :
  ql_sim n c f -> phases c h = Unlocking QuCheck -> next (shared c) h = Some b ->
  wants c -> gets c.
Proof.
  intros Hc Hp Hn Hpt. eapply owner_steps; [done..|simpl; by rewrite Hn|].
  intros c' f' Hc' _. by eapply gets_deref.
Qed.

Lemma gets_wait c f : ql_sim n c f -> phases c h = Unlocking QuWait -> wants c -> gets c.
Proof.
  intros Hc Hp Hpt. pose proof (qs_at _ _ _ Hc h) as Ha. rewrite Hp in Ha.
  destruct (next (shared c) h) as [b|] eqn:Hn.
  { eapply owner_steps; [done..|simpl; by rewrite Hn|]. intros c' f' Hc' Hs Hp' Hpt'.
    eapply gets_check; [done..|by rewrite Hs|done]. }
  assert (exists b q, queue f = h :: b :: q) as (b & q & Q) by (inversion Ha; eauto).
  assert (Hb : behind c h b) by (apply (qs_behind _ _ _ Hc 0); by rewrite Q).
  destruct Hb as [_ [[Hpb _]|[_ Hb]]]; [|congruence].
  pose proof (qs_at _ _ _ Hc b) as Hab. rewrite Hpb in Hab.
  pose proof (ql_link c f b h Hc Hpb ltac:(by inversion Hab)) as Hc'.
  eapply gets_step; [eapply (runs_lock n b c); [|done|reflexivity]|].
  { apply (qs_bound _ _ _ Hc). rewrite Q. apply list_elem_of_further, list_elem_of_here. }
  assert (Hbh : h <> b) by congruence.
  eapply owner_steps; [done|simpl; by rewrite fn_lookup_insert_ne| |simpl; by rewrite fn_lookup_insert|].
  - destruct (decide (t = b)) as [E|Hne].
    + exists QlSpin. simpl. rewrite E. by rewrite fn_lookup_insert.
    + destruct Hpt as [pt Hpt]. exists pt. simpl. by rewrite fn_lookup_insert_ne.
  - intros c' f' Hc'' Hs Hp' Hpt'. eapply gets_check; [done..| |done]. rewrite Hs. simpl. by rewrite fn_lookup_insert.
Qed.

Lemma gets_cas c f : ql_sim n c f -> phases c h = Unlocking QuCas -> wants c -> gets c.
Proof.
  intros Hc Hp Hpt. destruct (decide (ql_tail (shared c) = Some h)) as [E|E].
  - pose proof Hpt as [pt Hpt']. eapply owner_steps; [done..|simpl; by rewrite bool_decide_eq_true_2|].
    intros c' f' Hc' Hs Hp' [p Hw]. eapply (gets_empty _ c' f' t p); [done| |done..].
    apply last_None. rewrite <- (qs_tail _ _ _ Hc'), Hs. done.
  - eapply owner_steps; [done..|simpl; by rewrite bool_decide_eq_false_2|].
    intros c' f' Hc' _. by eapply gets_wait.
Qed.

Lemma gets_next c f : ql_sim n c f -> phases c h = Unlocking QuNext -> wants c -> gets c.
Proof.
  intros Hc Hp Hpt. destruct (next (shared c) h) as [b|] eqn:Hn.
  - eapply owner_steps; [done..|simpl; by rewrite Hn|]. intros c' f' Hc' Hs Hp' Hpt'.
    eapply gets_check; [done..|by rewrite Hs|done].
  - eapply owner_steps; [done..|simpl; by rewrite Hn|]. intros c' f' Hc' _. by eapply gets_cas.
Qed.

End Owner.

Lemma ql_progress c f t p :
  ql_sim n c f -> (t < n)%nat -> phases c t = Locking p -> (forall u, phases c u <> In) -> gets c.
Proof.
  intros Hc Ht Hp Hin. destruct (queue f) as [|h q] eqn:Q; [by eapply gets_empty|].
  assert (Hh : h ∈ queue f) by (rewrite Q; apply list_elem_of_here).
  pose proof (qs_bound _ _ _ Hc h Hh) as Hhn. apply (fo_queued _ (qs_fifo _ _ _ Hc)) in Hh.
  assert (Hw : wants t c) by by exists p.
  pose proof (qs_at _ _ _ Hc h) as Ha.
  inversion Ha as [E E'|E E'|? E E'|? ? E E'|? ? ? E E'|a E E'|E E'|E E'|E E'|E E'|? ? ? E E'|? ? E E'|? E E'|? ? E E'|? ? E E'];
    rewrite <- E' in Hh; try done; symmetry in E; eauto using gets_next, gets_cas, gets_wait, gets_check, gets_deref, gets_store.
  - by destruct (qs_head _ _ _ Hc h q (QlLink a) Q E).
  - destruct (qs_head _ _ _ Hc h q QlSpin Q E) as [_ Hb].
    eapply (gets_in _ h); [done..|]. simpl. by rewrite Hb.
  - by destruct (Hin h).
Qed.

#[export] Instance queuelock_fifo : FifoLock queuelock n.
Proof.
  refine {| lk_sim := ql_sim n |}.
  - split; simpl; try done; [apply fifo_ok_start|constructor|]. intros t Ht. by inversion Ht.
  - intros c f t Hc. destruct (qs_at _ _ _ Hc t); auto with pgm.
  - intros c f t c' Hc Hs. destruct (ql_simulates c f t c' Hc Hs) as (f' & Hm & Hc').
    exists f'. split; [done|]. split; [by eapply ql_joins|done].
  - intros c f t p e. apply ql_no_fault.
  - intros c f t p. apply ql_progress.
Defined.

End Threads.

(** ** Theorems *)

(** C3. The queue lock is a first-come first-served lock, for any number of
    threads and any interleaving of their accesses: threads get the lock in exactly
    the order in which their compare-and-swap on [tail] succeeded, those that
    succeeded and do not have the lock yet being still in their call; two threads
    never own the lock at once; no null node is dereferenced; and while a thread wants
    the lock and nobody owns it, the calls under way can be run until somebody
    does. *)
Theorem queue_lock_is_fifo n arrived served c :
  history (H := queuelock) n arrived served c ->
  (exists waiting, arrived = served ++ waiting /\ NoDup waiting /\
     forall t, t ∈ waiting -> exists p, phases c t = Locking p) /\
  (forall t u, phases c t = In -> phases c u = In -> t = u) /\
  (forall t p e, phases c t = Locking p \/ phases c t = Unlocking p ->
     lk_step t (shared c) p <> Fault e) /\
  (forall t p, (t < n)%nat -> phases c t = Locking p -> (forall u, phases c u <> In) ->
     exists c' u, rtc (some_runs n) c c' /\ phases c' u = In).
Proof. apply (lock_promises (n:=n)). Qed.

(** Thread 0 owned the lock and gave it to thread 2, which came before thread 1. *)
Ltac forward t R tac := eapply (h_step _ _ _ _ t) in R; [|tac]; simpl in R.
Ltac calls := apply step_lock; [lia|reflexivity].
Ltac accesses := apply step_runs; eapply runs_lock; [lia|reflexivity..].
Ltac releases := apply step_runs; eapply runs_unlock; [lia|reflexivity..].

Lemma ql_demo_history :
  exists c, history (H := queuelock) 3 [0; 2; 1]%nat [0; 2]%nat c /\ phases c 2%nat = In /\
    phases c 1%nat = Locking QlSpin.
Proof.
  pose proof (h_start (H := queuelock) 3) as R.
  forward 0%nat R calls. do 4 forward 0%nat R accesses.
  forward 1%nat R calls. do 2 forward 1%nat R accesses.
  forward 2%nat R calls. do 5 forward 2%nat R accesses.
  do 4 forward 1%nat R accesses.
  forward 0%nat R ltac:(apply step_unlock; [lia|reflexivity]). do 4 forward 0%nat R releases.
  forward 2%nat R accesses. eexists. split; [exact R|]. split; reflexivity.
Qed.

Lemma queue_lock_is_fifo_witness :
  exists c, history (H := queuelock) 3 [0; 2; 1]%nat [0; 2]%nat c /\ phases c 2%nat = In /\
    (exists waiting, [0; 2; 1]%nat = [0; 2]%nat ++ waiting /\ NoDup waiting /\
       forall t, t ∈ waiting -> exists p, phases c t = Locking p) /\
    forall t u, phases c t = In -> phases c u = In -> t = u.
Proof.
  destruct ql_demo_history as (c & R & H2 & _). exists c. split; [exact R|]. split; [exact H2|].
  destruct (queue_lock_is_fifo 3 [0; 2; 1]%nat [0; 2]%nat c R) as (Hw & Hx & _). split; [exact Hw | exact Hx].
Defined.

End QueueLock.
