(* ===== verification/CondVar.v ===== *)
(** * The condition variable (include/condvar.h)

    With PGM_SYNC_METHOD 1 a node waits on [cv_t], a counter that signals
    change and on which waiters block in the kernel with a futex.  The code is
    modelled one shared access at a time, over any lock that satisfies
    [FifoLock]; the calls are made by threads that own the lock.  A run keeps a log
    of what its threads do: get and give back the lock, wait, signal.  Shown is that
    the log is one of a condition variable in the sense of the pthread one that
    replaces it in the other configuration: waiting releases the lock and goes to
    sleep in one step, and a signal wakes a sleeping thread if there is one. *)

From S2P Require Import Prelude Lock TicketLock.

Module CondVar.
Import Lock.
#[local] Open Scope Z_scope.

(** ** The code *)

Definition FUTEX_WAIT : Z := 0.
Definition FUTEX_WAKE : Z := 1.
Definition FUTEX_PRIVATE_FLAG : Z := 128.
Definition FUTEX_WAIT_PRIVATE : Z := Z.lor FUTEX_WAIT FUTEX_PRIVATE_FLAG.
Definition FUTEX_WAKE_PRIVATE : Z := Z.lor FUTEX_WAKE FUTEX_PRIVATE_FLAG.

Inductive wait_mode_t := CV_PRIVATE | CV_PUBLIC.

Record cv_t := Cv { cv_seq : Z; waiters : Z; mode : wait_mode_t }.
#[global] Instance cv_eta : Eta cv_t := fun v => Cv (cv_seq v) (waiters v) (mode v).

Definition CV_INITIALIZER : cv_t := Cv 0 0 CV_PRIVATE.
Definition CV_INITIALIZER_PUBLIC : cv_t := Cv 0 0 CV_PUBLIC.

Definition wait_mode (m : wait_mode_t) : Z :=
  match m with CV_PRIVATE => FUTEX_WAIT_PRIVATE | CV_PUBLIC => FUTEX_WAIT end.
Definition wake_mode (m : wait_mode_t) : Z :=
  match m with CV_PRIVATE => FUTEX_WAKE_PRIVATE | CV_PUBLIC => FUTEX_WAKE end.

(** Where a thread is: in its own code, in [cv_wait], or in [cv_signal]. *)
Inductive cv_pc :=
| CvUser
| CvLoadSeq                           (* seq = cv->seq *)
| CvLoadWaiters (seq wmode : Z)       (* ++cv->waiters *)
| CvStoreWaiters (seq wmode w : Z)
| CvUnlock (seq wmode : Z)            (* spin_unlock(l) *)
| CvFutex (seq wmode : Z)             (* syscall(SYS_futex, &cv->seq, wait_mode, seq, ...) *)
| CvAsleep                            (* inside that call *)
| CvRelock                            (* spin_lock(l) *)
| CvDecLoad                           (* --cv->waiters *)
| CvDecStore (w : Z)
| CvTest                              (* if(cv->waiters > 0) *)
| CvBump                              (* __sync_fetch_and_add(&cv->seq, 1) *)
| CvWake.                             (* syscall(SYS_futex, &cv->seq, wake_mode, 1, ...) *)

(** What a thread does, as its log has it: it gets the lock (in its own code or at the
    end of [cv_wait]), gives it back, calls [cv_wait], has done the work of
    [cv_signal].  [Bumped] is the increment of [seq]. *)
Inductive action := Enters | Leaves | Waits | Signals.
Inductive label := Quiet | Bumped | Does (a : action).

Abbreviation Signalled := (Does Signals).

Definition logged (t : tid) (a : label) : list (tid * action) :=
  match a with Does x => [(t, x)] | _ => [] end.

(** The accesses to [cv_t]. *)
Definition cv_access (v : cv_t) (p : cv_pc) : option (cv_t * cv_pc * label) :=
  match p with
  | CvLoadSeq => Some (v, CvLoadWaiters (cv_seq v) (wait_mode (mode v)), Quiet)
  | CvLoadWaiters s m => Some (v, CvStoreWaiters s m (waiters v), Quiet)
  | CvStoreWaiters s m w => Some (v <| waiters := signed 32 (w + 1) |>, CvUnlock s m, Quiet)
  | CvDecLoad => Some (v, CvDecStore (waiters v), Quiet)
  | CvDecStore w => Some (v <| waiters := signed 32 (w - 1) |>, CvUser, Quiet)
  | CvTest => if 0 <? waiters v then Some (v, CvBump, Quiet) else Some (v, CvUser, Signalled)
  | CvBump => Some (v <| cv_seq := signed 32 (cv_seq v + 1) |>, CvWake, Bumped)
  | _ => None
  end.

(** Futexes of one process and of several are different queues. *)
Definition private (op : Z) : bool := Z.testbit op 7.

Definition is_in {P} (ph : phase P) : bool := match ph with In => true | _ => false end.

(** What an access to the lock shows. *)
Definition lock_label {P} (before after : phase P) : label :=
  match is_in before, is_in after with
  | true, false => Does Leaves
  | false, true => Does Enters
  | _, _ => Quiet
  end.

Section Threads.
Context {S : SpinLock}.

(** [kernel]: who sleeps on [&cv->seq]. *)
Record cvconf := CvConf {
  lk : conf;
  cv : cv_t;
  kernel : list (tid * bool);
  pcs : tid -> cv_pc
}.

Definition cvstart (m : wait_mode_t) : cvconf := CvConf start (Cv 0 0 m) [] (fun _ => CvUser).

Definition with_lock (c : cvconf) (l : conf) : cvconf := CvConf l (cv c) (kernel c) (pcs c).
Definition with_pc (c : cvconf) (t : tid) (p : cv_pc) : cvconf :=
  CvConf (lk c) (cv c) (kernel c) (<[t := p]> (pcs c)).

(** The kernel resumes [u]. *)
Definition awake (c : cvconf) (u : tid) : cvconf :=
  CvConf (lk c) (cv c) (base.filter (fun e => e.1 <> u) (kernel c)) (<[u := CvRelock]> (pcs c)).

Inductive cvstep (n : nat) (t : tid) (c : cvconf) : label -> cvconf -> Prop :=
| s_user l : pcs c t = CvUser -> step n t (lk c) l ->
    cvstep n t c (lock_label (phases (lk c) t) (phases l t)) (with_lock c l)
| s_wait : (t < n)%nat -> pcs c t = CvUser -> phases (lk c) t = In ->
    cvstep n t c (Does Waits) (with_pc c t CvLoadSeq)
| s_signal : (t < n)%nat -> pcs c t = CvUser -> phases (lk c) t = In ->
    cvstep n t c Quiet (with_pc c t CvTest)
| s_access v p a : cv_access (cv c) (pcs c t) = Some (v, p, a) ->
    cvstep n t c a (CvConf (lk c) v (kernel c) (<[t := p]> (pcs c)))
| s_unlock l s m : pcs c t = CvUnlock s m -> phases (lk c) t <> Out -> step n t (lk c) l ->
    cvstep n t c Quiet (with_lock c l)
| s_unlocked s m : pcs c t = CvUnlock s m -> phases (lk c) t = Out ->
    cvstep n t c Quiet (with_pc c t (CvFutex s m))
| s_block s m : pcs c t = CvFutex s m -> s = cv_seq (cv c) ->
    cvstep n t c Quiet
      (CvConf (lk c) (cv c) (kernel c ++ [(t, private m)]) (<[t := CvAsleep]> (pcs c)))
| s_again s m : pcs c t = CvFutex s m -> s <> cv_seq (cv c) ->
    cvstep n t c Quiet (with_pc c t CvRelock)
| s_spurious : pcs c t = CvAsleep -> cvstep n t c Quiet (awake c t)
| s_relock l : pcs c t = CvRelock -> phases (lk c) t <> In -> step n t (lk c) l ->
    cvstep n t c (lock_label (phases (lk c) t) (phases l t)) (with_lock c l)
| s_relocked : pcs c t = CvRelock -> phases (lk c) t = In ->
    cvstep n t c Quiet (with_pc c t CvDecLoad)
| s_wake_one u : pcs c t = CvWake -> (u, private (wake_mode (mode (cv c)))) ∈ kernel c ->
    cvstep n t c Signalled (with_pc (awake c u) t CvUser)
| s_wake_none : pcs c t = CvWake -> (forall u, (u, private (wake_mode (mode (cv c)))) ∉ kernel c) ->
    cvstep n t c Signalled (with_pc c t CvUser).

(** A run: how often [seq] was advanced, and what the threads did, in order. *)
Inductive cvruns (n : nat) (m : wait_mode_t) : Z -> list (tid * action) -> cvconf -> Prop :=
| cvr_start : cvruns n m 0 [] (cvstart m)
| cvr_step k log c t a c' :
    cvruns n m k log c -> cvstep n t c a c' ->
    cvruns n m (match a with Bumped => k + 1 | _ => k end) (log ++ logged t a) c'.

End Threads.

(** ** What a condition variable is *)

Inductive mstate := MOut | MIn | MAsleep | MWoken.

Abbreviation monitor := (tid -> mstate).

Definition mfree (s : monitor) : Prop := forall u, s u <> MIn.

Inductive mstep (t : tid) (s : monitor) : list (tid * action) -> monitor -> Prop :=
| m_enter : s t = MOut -> mfree s -> mstep t s [(t, Enters)] (<[t := MIn]> s)
| m_leave : s t = MIn -> mstep t s [(t, Leaves)] (<[t := MOut]> s)
| m_wait : s t = MIn -> mstep t s [(t, Waits)] (<[t := MAsleep]> s)
| m_spurious : s t = MAsleep -> mstep t s [] (<[t := MWoken]> s)
| m_reenter : s t = MWoken -> mfree s -> mstep t s [(t, Enters)] (<[t := MIn]> s)
| m_signal_one u : s t = MIn -> s u = MAsleep -> mstep t s [(t, Signals)] (<[u := MWoken]> s)
| m_signal_none : s t = MIn -> (forall u, s u <> MAsleep) -> mstep t s [(t, Signals)] s.

Inductive mruns : list (tid * action) -> monitor -> Prop :=
| mr_start : mruns [] (fun _ => MOut)
| mr_step log s t l s' : mruns log s -> mstep t s l s' -> mruns (log ++ l) s'
| mr_ext log s s' : mruns log s -> (forall t, s' t = s t) -> mruns log s'.

(** How the places of the code appear there. *)
Definition abs {P} (v : cv_t) (p : cv_pc) (ph : phase P) : mstate :=
  match p with
  | CvUser => if is_in ph then MIn else MOut
  | CvLoadSeq => MAsleep
  | CvLoadWaiters s _ | CvStoreWaiters s _ _ | CvUnlock s _ | CvFutex s _ =>
      if s =? cv_seq v then MAsleep else MWoken
  | CvAsleep => MAsleep
  | CvRelock => if is_in ph then MIn else MWoken
  | _ => MIn
  end.

(** How many threads can still be asleep: a wait adds one, a signal takes one away if
    there is one. *)
Definition unsignalled (log : list (tid * action)) : nat :=
  foldl (fun k e => match e.2 with Waits => S k | Signals => pred k | _ => k end) 0%nat log.

Lemma asleep_insert (s : monitor) t x (l : list tid) :
  x <> MAsleep -> (forall u, u ∈ l -> (<[t := x]> s) u = MAsleep) -> (t ∉ l) /\ (forall u, u ∈ l -> s u = MAsleep).
Proof.
  intros Hx Hl. assert (Ht : t ∉ l) by (intros Ht; specialize (Hl t Ht); by rewrite fn_lookup_insert in Hl).
  split; [done|]. intros u Hu. specialize (Hl u Hu). by rewrite fn_lookup_insert_ne in Hl by (by intros ->).
Qed.

(** In a history of the monitor no signal is lost. *)
Lemma mruns_asleep log s :
  mruns log s -> forall l : list tid, NoDup l -> (forall t, t ∈ l -> s t = MAsleep) -> (length l <= unsignalled log)%nat.
Proof.
  induction 1 as [|log s t a s' _ IH Hs|log s s' _ IH He]; intros l Hd Hl.
  - destruct l as [|t l]; [simpl; lia|]. by specialize (Hl t ltac:(left)).
  - unfold unsignalled. rewrite foldl_app. fold (unsignalled log).
    destruct Hs as [Ht Hfr|Ht|Ht|Ht|Ht Hfr|u Ht Hu|Ht Hno]; simpl;
      try (by apply asleep_insert in Hl as [_ Hl]; [auto|done]).
    + destruct (decide (t ∈ l)) as [Hin|Hin].
      * apply elem_of_Permutation in Hin as [l' Hp]. rewrite Hp in Hd |- *. apply NoDup_cons in Hd as [Hnt Hd].
        simpl. apply le_n_S, IH; [done|]. intros u Hu. specialize (Hl u). rewrite Hp in Hl.
        rewrite fn_lookup_insert_ne in Hl by (by intros ->). apply Hl. by right.
      * specialize (IH l Hd). etransitivity; [apply IH|lia]. intros u Hu. specialize (Hl u Hu).
        by rewrite fn_lookup_insert_ne in Hl by (by intros ->).
    + apply asleep_insert in Hl as [Hnu Hl]; [|done].
      assert (S (length l) <= unsignalled log)%nat; [|lia]. apply (IH (u :: l)); [by constructor|].
      intros x [->|Hx]%elem_of_cons; auto.
    + destruct l as [|x l]; [simpl; lia|]. by destruct (Hno x); apply Hl; left.
  - apply IH; [done|]. intros t Ht. rewrite <- He. by apply Hl.
Qed.

(** ** Integers *)

Lemma signed32_mod x : signed 32 x mod 2 ^ 32 = x mod 2 ^ 32.
Proof.
  unfold signed. case_match; [by rewrite Zmod_mod|].
  rewrite <- (Z.mod_add (x mod 2 ^ 32 - 2 ^ 32) 1) by lia.
  replace (x mod 2 ^ 32 - 2 ^ 32 + 1 * 2 ^ 32) with (x mod 2 ^ 32) by lia. by rewrite Zmod_mod.
Qed.

Lemma signed32_succ x : signed 32 (signed 32 x + 1) = signed 32 (x + 1).
Proof.
  unfold signed at 1 3.
  replace ((signed 32 x + 1) mod 2 ^ 32) with ((x + 1) mod 2 ^ 32); [done|].
  rewrite <- (Z.add_mod_idemp_l (signed 32 x)), signed32_mod, Z.add_mod_idemp_l; lia.
Qed.

Lemma signed32_inj j k : 0 <= j <= k -> k < 2 ^ 32 -> signed 32 j = signed 32 k -> j = k.
Proof.
  intros Hj Hk E. apply (mod_eq_close _ _ (2 ^ 32)); [lia| |lia].
  by rewrite <- signed32_mod, E, signed32_mod.
Qed.

(** ** Counting waiters *)

(** Between [++cv->waiters] and [--cv->waiters]. *)
Definition counted (p : cv_pc) : bool :=
  match p with
  | CvUnlock _ _ | CvFutex _ _ | CvAsleep | CvRelock | CvDecLoad | CvDecStore _ => true
  | _ => false
  end.

Definition one (p : cv_pc) : Z := if counted p then 1 else 0.

Definition count (pcs : tid -> cv_pc) (l : list tid) : Z :=
  foldr (fun t k => one (pcs t) + k) 0 l.

Lemma count_other pcs t p l : t ∉ l -> count (<[t := p]> pcs) l = count pcs l.
Proof.
  induction l as [|x l IH]; [done|]. intros [Hx Hl]%not_elem_of_cons. simpl.
  rewrite fn_lookup_insert_ne, IH by done. done.
Qed.

Lemma count_insert pcs t p l :
  NoDup l -> t ∈ l -> count (<[t := p]> pcs) l = count pcs l + one p - one (pcs t).
Proof.
  intros Hl. induction Hl as [|x l Hx Hl IH]; [intros Ht; by inversion Ht|].
  intros [->|Ht]%elem_of_cons; simpl.
  - rewrite fn_lookup_insert, count_other by done. lia.
  - rewrite fn_lookup_insert_ne, IH by (done || by intros ->). lia.
Qed.

Lemma count_bounds pcs l : 0 <= count pcs l <= Z.of_nat (length l).
Proof. induction l as [|x l IH]; simpl; [lia|]. unfold one. case_match; lia. Qed.

Lemma count_zero pcs l t : count pcs l <= 0 -> t ∈ l -> counted (pcs t) = false.
Proof.
  induction l as [|x l IH]; simpl; [intros _ Ht; by inversion Ht|].
  intros Hc [->|Ht]%elem_of_cons; pose proof (count_bounds pcs l); unfold one in Hc.
  - case_match; [lia|done].
  - apply IH; [case_match; lia|done].
Qed.

(** ** The invariant *)

Definition fits {P} (p : cv_pc) (ph : phase P) : Prop :=
  match p with
  | CvUser => True
  | CvUnlock _ _ => forall q, ph <> Locking q
  | CvFutex _ _ | CvAsleep => ph = Out
  | CvRelock => forall q, ph <> Unlocking q
  | _ => ph = In
  end.

Definition recorded (p : cv_pc) : option (Z * Z) :=
  match p with
  | CvLoadWaiters s m | CvStoreWaiters s m _ | CvUnlock s m | CvFutex s m => Some (s, m)
  | _ => None
  end.

Definition loaded (p : cv_pc) : option Z :=
  match p with CvStoreWaiters _ _ w | CvDecStore w => Some w | _ => None end.

Section Proofs.
Context {S : SpinLock} {n : nat} `{!FifoLock S n} (m0 : wait_mode_t).
Hypothesis few : Z.of_nat n < 2 ^ 31.

Record inv (k : Z) (c : cvconf) (f : fconf) : Prop := {
  i_lock : lk_sim (lk c) f;
  i_fifo : fifo_ok f;
  i_fits t : fits (pcs c t) (phases (lk c) t);
  i_user t : ~ (t < n)%nat -> pcs c t = CvUser;
  i_seq : cv_seq (cv c) = signed 32 k;
  i_pos : 0 <= k;
  i_mode : mode (cv c) = m0;
  i_rec t s m : recorded (pcs c t) = Some (s, m) ->
    m = wait_mode m0 /\ exists j, 0 <= j <= k /\ s = signed 32 j;
  i_wake t u s m : pcs c t = CvWake -> pcs c u = CvUnlock s m \/ pcs c u = CvFutex s m ->
    s <> cv_seq (cv c);
  i_count : waiters (cv c) = count (pcs c) (seq 0 n);
  i_load t w : loaded (pcs c t) = Some w -> w = waiters (cv c);
  i_kernel t b : (t, b) ∈ kernel c <-> pcs c t = CvAsleep /\ b = private (wait_mode m0)
}.

Definition view (c : cvconf) : monitor := fun t => abs (cv c) (pcs c t) (phases (lk c) t).

(** *** One owner at a time *)

Lemma owner_unique c f t u :
  lk_sim c f -> fifo_ok f -> phases c t = In -> phases c u = In -> t = u.
Proof.
  intros Hs Hf Ht Hu.
  pose proof (sim_agrees _ _ t Hs) as At. pose proof (sim_agrees _ _ u Hs) as Au.
  rewrite Ht in At. rewrite Hu in Au. inversion At. inversion Au.
  destruct (fifo_ok_first f t Hf) as [q Q]; [auto|]. destruct (fifo_ok_first f u Hf) as [q' Q']; [auto|]. congruence.
Qed.

Lemma in_unique k c f t u :
  inv k c f -> phases (lk c) t = In -> phases (lk c) u = In -> t = u.
Proof. intros Hi. by apply (owner_unique _ f); apply Hi. Qed.

(** What the monitor sees as its owner owns the lock. *)
Lemma view_in k c f t : inv k c f -> view c t = MIn -> phases (lk c) t = In.
Proof.
  intros Hi Hv. pose proof (i_fits _ _ _ Hi t) as Hf. unfold view, abs in Hv.
  destruct (pcs c t); simpl in Hf; repeat case_match; try done; by destruct (phases (lk c) t).
Qed.

Lemma mr_move log s t l s' s'' :
  mruns log s -> mstep t s l s' -> (forall u, s'' u = s' u) -> mruns (log ++ l) s''.
Proof. intros Hr Hs He. eapply mr_ext, He. by eapply mr_step. Qed.

Lemma mr_quiet log s t s' s'' :
  mruns log s -> mstep t s [] s' -> (forall u, s'' u = s' u) -> mruns log s''.
Proof. intros Hr Hs He. rewrite <- (app_nil_r log). by eapply mr_move. Qed.

(** *** The accesses to the lock *)

(** Compute what the monitor sees of a thread. *)
Ltac see :=
  unfold view; simpl;
  repeat match goal with
         | H : pcs _ _ = _ |- _ => rewrite H; simpl
         | H : phases _ _ = _ |- _ => rewrite H; simpl
         end.

Definition related (k : Z) (log : list (tid * action)) (c : cvconf) : Prop :=
  exists f, inv k c f /\ mruns log (view c).

(** An access to the lock keeps the invariant and moves only [t] in the monitor. *)
Lemma lock_inv k c f t l :
  inv k c f -> step n t (lk c) l -> fits (pcs c t) (phases l t) -> exists f', inv k (with_lock c l) f'.
Proof.
  intros Hi Hs Hfit. destruct (sim_step _ _ _ _ (i_lock _ _ _ Hi) Hs) as (f' & Hm & _ & Hl).
  pose proof (fmoves_fifo_ok _ _ _ (i_fifo _ _ _ Hi) Hm) as Hf'. exists f'.
  split; try apply Hi; simpl; try done. intros u. destruct (decide (u = t)) as [->|Hne]; [done|].
  rewrite (step_other n t (lk c) l) by done. apply Hi.
Qed.

Lemma lock_view c t l :
  step n t (lk c) l ->
  forall u, view (with_lock c l) u = <[t := abs (cv c) (pcs c t) (phases l t)]> (view c) u.
Proof.
  intros Hs u. unfold view. simpl. destruct (decide (u = t)) as [->|Hne];
    rewrite ?fn_lookup_insert, ?fn_lookup_insert_ne by done; [done|]. by rewrite (step_other n t (lk c) l).
Qed.

Lemma view_stays c t l log :
  mruns log (view c) -> step n t (lk c) l -> abs (cv c) (pcs c t) (phases l t) = view c t ->
  mruns log (view (with_lock c l)).
Proof.
  intros Hr Hs E. eapply mr_ext; [done|]. intros u. rewrite (lock_view c t l), E by done.
  destruct (decide (u = t)) as [->|Hne]; by rewrite ?fn_lookup_insert, ?fn_lookup_insert_ne.
Qed.

(** The monitor is free when a thread gets the lock. *)
Lemma free_before k c f t l f' :
  inv k c f -> inv k (with_lock c l) f' -> step n t (lk c) l ->
  phases (lk c) t <> In -> phases l t = In -> mfree (view c).
Proof.
  intros Hi Hi' Hs Hn Hl u Hu. apply (view_in k c f) in Hu; [|done].
  assert (Hne : u <> t) by (by intros ->). apply Hne. apply (in_unique k (with_lock c l) f'); simpl; [done| |done].
  by rewrite (step_other n t (lk c) l).
Qed.

Lemma is_in_false {P} (ph : phase P) : is_in ph = false -> ph <> In.
Proof. by intros E ->. Qed.

Lemma is_in_true {P} (ph : phase P) : is_in ph = true -> ph = In.
Proof. by destruct ph. Qed.

Lemma lock_moves k log c f t l :
  inv k c f -> mruns log (view c) -> step n t (lk c) l -> fits (pcs c t) (phases l t) ->
  pcs c t = CvUser \/ (pcs c t = CvRelock /\ phases (lk c) t <> In) ->
  related k (log ++ logged t (lock_label (phases (lk c) t) (phases l t))) (with_lock c l).
Proof.
  intros Hi Hr Hs Hfit Hp. destruct (lock_inv k c f t l Hi Hs Hfit) as [f' Hi']. exists f'. split; [done|].
  pose proof (lock_view c t l Hs) as Hv. unfold lock_label.
  destruct (is_in (phases (lk c) t)) eqn:E1, (is_in (phases l t)) eqn:E2; simpl; rewrite ?app_nil_r.
  - apply (view_stays c t); [done..|]. unfold view, abs. destruct Hp as [->|[-> _]]; by rewrite E1, E2.
  - destruct Hp as [Hp|[_ Hp]]; [|by apply is_in_true in E1].
    eapply mr_step with (t := t) in Hr; [|apply m_leave; unfold view, abs; by rewrite Hp, E1].
    eapply mr_ext; [exact Hr|]. intros u. rewrite Hv. unfold abs. by rewrite Hp, E2.
  - assert (Hfr : mfree (view c)).
    { apply (free_before k c f t l f'); [done..|by apply is_in_false|by apply is_in_true]. }
    destruct Hp as [Hp|[Hp _]].
    + eapply mr_step with (t := t) in Hr; [|apply m_enter; [unfold view, abs; by rewrite Hp, E1|done]].
      eapply mr_ext; [exact Hr|]. intros u. rewrite Hv. unfold abs. by rewrite Hp, E2.
    + eapply mr_step with (t := t) in Hr; [|apply m_reenter; [unfold view, abs; by rewrite Hp, E1|done]].
      eapply mr_ext; [exact Hr|]. intros u. rewrite Hv. unfold abs. by rewrite Hp, E2.
  - apply (view_stays c t); [done..|]. unfold view, abs. destruct Hp as [->|[-> _]]; by rewrite E1, E2.
Qed.

(** Giving the lock back inside [cv_wait] shows nothing: the thread is asleep. *)
Lemma unlock_moves k log c f t l s m :
  inv k c f -> mruns log (view c) -> step n t (lk c) l -> fits (pcs c t) (phases l t) ->
  pcs c t = CvUnlock s m -> related k log (with_lock c l).
Proof.
  intros Hi Hr Hs Hfit Hp. destruct (lock_inv k c f t l Hi Hs Hfit) as [f' Hi']. exists f'. split; [done|].
  apply (view_stays c t); [done..|]. unfold view. by rewrite Hp.
Qed.

(** *** The other accesses *)

Lemma loaded_in k c f t w : inv k c f -> loaded (pcs c t) = Some w -> phases (lk c) t = In.
Proof. intros Hi Hw. pose proof (i_fits _ _ _ Hi t) as Hf. by destruct (pcs c t). Qed.

Lemma wake_in k c f t : inv k c f -> pcs c t = CvWake -> phases (lk c) t = In.
Proof. intros Hi Hp. pose proof (i_fits _ _ _ Hi t) as Hf. by rewrite Hp in Hf. Qed.

(** [seq] moves on only with its owner on the way to wake somebody. *)
Definition advances (k k' : Z) (p : cv_pc) (c : cvconf) (t : tid) : Prop :=
  (k' = k /\ p <> CvWake) \/ (k' = k + 1 /\ p = CvWake /\ phases (lk c) t = In /\ k' < 2 ^ 32).

Lemma inv_set k k' c f t v p kern :
  inv k c f -> (t < n)%nat -> advances k k' p c t ->
  mode v = m0 -> cv_seq v = signed 32 k' ->
  waiters v = waiters (cv c) + one p - one (pcs c t) ->
  (waiters v <> waiters (cv c) -> phases (lk c) t = In) ->
  fits p (phases (lk c) t) ->
  (forall s m, recorded p = Some (s, m) ->
     recorded (pcs c t) = Some (s, m) \/ (s = cv_seq (cv c) /\ m = wait_mode m0)) ->
  (forall w, loaded p = Some w -> w = waiters v) ->
  (forall s m, p = CvUnlock s m \/ p = CvFutex s m ->
     phases (lk c) t = In \/ pcs c t = CvUnlock s m) ->
  (forall u b, (u, b) ∈ kern <-> <[t := p]> (pcs c) u = CvAsleep /\ b = private (wait_mode m0)) ->
  inv k' (CvConf (lk c) v kern (<[t := p]> (pcs c))) f.
Proof.
  intros Hi Ht Hadv Hm Hs Hw Hwin Hfit Hrec Hload Hpend Hk.
  pose proof (i_pos _ _ _ Hi) as Hpos.
  assert (Hother : forall u, u <> t -> <[t := p]> (pcs c) u = pcs c u)
    by (intros u Hu; by rewrite fn_lookup_insert_ne).
  assert (Hself : <[t := p]> (pcs c) t = p) by by rewrite fn_lookup_insert.
  split; simpl; try apply Hi; try done.
  - intros u. destruct (decide (u = t)) as [->|Hu]; [by rewrite Hself|rewrite Hother by done; apply Hi].
  - intros u Hu. rewrite Hother by (by intros ->). by apply Hi.
  - destruct Hadv as [[-> _]|[-> _]]; lia.
  - intros u s m Hu. assert (Hc : m = wait_mode m0 /\ exists j, 0 <= j <= k /\ s = signed 32 j).
    { destruct (decide (u = t)) as [->|Hne].
      - rewrite Hself in Hu. destruct (Hrec s m Hu) as [Ho|[-> ->]]; [by eapply i_rec|].
        split; [done|]. exists k. rewrite (i_seq _ _ _ Hi). split; [lia|done].
      - rewrite Hother in Hu by done. by eapply i_rec. }
    destruct Hc as (-> & j & Hj & ->). split; [done|]. exists j.
    split; [|done]. destruct Hadv as [[-> _]|[-> _]]; lia.
  - intros x y s m Hx Hy. destruct Hadv as [[-> Hnw]|(-> & -> & Hin & Hlt)].
    + rewrite Hs, <- (i_seq _ _ _ Hi).
      destruct (decide (x = t)) as [->|Hxt]; [congruence|]. rewrite Hother in Hx by done.
      destruct (decide (y = t)) as [->|Hyt]; [|rewrite !Hother in Hy by done; by eapply i_wake].
      rewrite Hself in Hy. destruct (Hpend s m Hy) as [Hin|Ho].
      * destruct Hxt. eapply in_unique; [done|by eapply wake_in|done].
      * eapply i_wake; eauto.
    + rewrite Hs. intros E.
      destruct (decide (y = t)) as [->|Hyt]; [rewrite Hself in Hy; by destruct Hy|].
      rewrite Hother in Hy by done.
      destruct (i_rec _ _ _ Hi y s m) as (_ & j & Hj & Ej); [by destruct Hy as [-> | ->]|].
      rewrite Ej in E. apply signed32_inj in E; lia.
  - rewrite Hw, (i_count _ _ _ Hi), count_insert; [done|apply NoDup_seq|apply elem_of_seq; lia].
  - intros u w Hu. destruct (decide (u = t)) as [->|Hne]; [rewrite Hself in Hu; by apply Hload|].
    rewrite Hother in Hu by done. rewrite (i_load _ _ _ Hi u w Hu).
    destruct (decide (waiters v = waiters (cv c))) as [E|E]; [done|].
    destruct Hne. eapply in_unique; [done|by eapply loaded_in|by apply Hwin].
Qed.

Lemma kernel_same k c f t p :
  inv k c f -> pcs c t <> CvAsleep -> p <> CvAsleep ->
  forall u b, (u, b) ∈ kernel c <-> <[t := p]> (pcs c) u = CvAsleep /\ b = private (wait_mode m0).
Proof.
  intros Hi Ho Hp u b. rewrite (i_kernel _ _ _ Hi). destruct (decide (u = t)) as [->|Hu].
  - rewrite fn_lookup_insert. naive_solver.
  - by rewrite fn_lookup_insert_ne.
Qed.

(** What the monitor sees when only the place of [t] changes. *)
Lemma view_set c t v p kern :
  cv_seq v = cv_seq (cv c) ->
  forall u, view (CvConf (lk c) v kern (<[t := p]> (pcs c))) u =
    <[t := abs (cv c) p (phases (lk c) t)]> (view c) u.
Proof.
  intros Hs u. unfold view, abs. simpl. rewrite Hs.
  destruct (decide (u = t)) as [->|Hu]; by rewrite ?fn_lookup_insert, ?fn_lookup_insert_ne.
Qed.

Lemma view_same c t v p kern log :
  mruns log (view c) -> cv_seq v = cv_seq (cv c) -> abs (cv c) p (phases (lk c) t) = view c t ->
  mruns log (view (CvConf (lk c) v kern (<[t := p]> (pcs c)))).
Proof.
  intros Hr Hs Ha. eapply mr_ext; [done|]. intros u. rewrite view_set, Ha by done.
  destruct (decide (u = t)) as [->|Hu]; by rewrite ?fn_lookup_insert, ?fn_lookup_insert_ne.
Qed.

(** Any threads may wake up spuriously. *)
Lemma wake_many log s s' :
  mruns log s ->
  (forall u, s' u = s u \/ ((u < n)%nat /\ s u = MAsleep /\ s' u = MWoken)) -> mruns log s'.
Proof.
  intros Hr Hs. set (mix i u := if decide (u < i)%nat then s' u else s u).
  assert (Hm : forall i, mruns log (mix i)).
  { induction i as [|i IH].
    - eapply mr_ext; [done|]. intros u. unfold mix. by rewrite decide_False by lia.
    - assert (Hmix : forall u, mix (Datatypes.S i) u = <[i := s' i]> (mix i) u).
      { intros u. unfold mix. destruct (decide (u = i)) as [->|Hu];
          rewrite ?fn_lookup_insert, ?fn_lookup_insert_ne by done; [by rewrite decide_True by lia|].
        destruct (decide (u < i)%nat); [rewrite decide_True by lia|rewrite decide_False by lia]; done. }
      destruct (Hs i) as [E|(_ & E & E')].
      + eapply mr_ext; [done|]. intros u. rewrite Hmix. destruct (decide (u = i)) as [->|Hu];
          rewrite ?fn_lookup_insert, ?fn_lookup_insert_ne by done; [|done].
        unfold mix. by rewrite decide_False by lia.
      + rewrite E' in Hmix. eapply mr_quiet; [exact IH|apply (m_spurious i)|exact Hmix].
        unfold mix. by rewrite decide_False by lia. }
  eapply mr_ext; [apply (Hm n)|]. intros u. unfold mix. case_decide; [done|].
  destruct (Hs u) as [->|[]]; [done|lia].
Qed.

(** Asleep: counted, or still the owner of the lock. *)
Lemma asleep_counted k c f u :
  inv k c f -> view c u = MAsleep -> counted (pcs c u) = true \/ phases (lk c) u = In.
Proof.
  intros Hi. pose proof (i_fits _ _ _ Hi u) as Hf. unfold view, abs.
  destruct (pcs c u); simpl in *; auto; by case_match.
Qed.

Lemma user_or_bound k c f t : inv k c f -> pcs c t <> CvUser -> (t < n)%nat.
Proof.
  intros Hi Hp. destruct (decide (t < n)%nat) as [|Hn]; [done|]. by apply (i_user _ _ _ Hi) in Hn.
Qed.

(** [__sync_fetch_and_add(&cv->seq, 1)] wakes everybody who has not blocked. *)
Lemma bump_moves k log c f t :
  inv k c f -> mruns log (view c) -> pcs c t = CvBump -> k + 1 < 2 ^ 32 ->
  related (k + 1) log
    (CvConf (lk c) ((cv c) <| cv_seq := signed 32 (cv_seq (cv c) + 1) |>) (kernel c)
       (<[t := CvWake]> (pcs c))).
Proof.
  intros Hi Hr Hp Hk. pose proof (i_fits _ _ _ Hi t) as Hf. rewrite Hp in Hf. simpl in Hf.
  exists f. split.
  - apply (inv_set k); simpl; try done.
    + apply (user_or_bound k c f); [done|by rewrite Hp].
    + right. split_and!; [done..|lia].
    + apply Hi.
    + by rewrite (i_seq _ _ _ Hi), signed32_succ.
    + rewrite Hp. unfold one. simpl. lia.
    + naive_solver.
    + apply (kernel_same k c f); [done|by rewrite Hp|done].
  - eapply wake_many; [done|]. intros u. unfold view. simpl.
    destruct (decide (u = t)) as [->|Hu]; [left; by rewrite fn_lookup_insert, Hp|].
    rewrite fn_lookup_insert_ne by done.
    assert (Hstale : forall s m, recorded (pcs c u) = Some (s, m) -> s <> signed 32 (cv_seq (cv c) + 1)).
    { intros s m Hrec E. destruct (i_rec _ _ _ Hi u s m Hrec) as (_ & j & Hj & ->).
      rewrite (i_seq _ _ _ Hi), signed32_succ in E. apply signed32_inj in E; lia. }
    assert (Hb : pcs c u <> CvUser -> (u < n)%nat) by by apply (user_or_bound k c f).
    destruct (pcs c u) as [| |s m|s m w|s m|s m| | | | | | |] eqn:Eu; simpl in *; auto;
      specialize (Hstale s m eq_refl); apply Z.eqb_neq in Hstale; rewrite Hstale;
      specialize (Hb ltac:(done)); repeat case_match; auto.
Qed.

(** The remaining accesses change the place of one thread. *)
Lemma set_moves k log l c f t v p kern :
  inv k c f -> mruns log (view c) ->
  inv k (CvConf (lk c) v kern (<[t := p]> (pcs c))) f ->
  cv_seq v = cv_seq (cv c) ->
  (l = [] /\ abs (cv c) p (phases (lk c) t) = view c t) \/
    mstep t (view c) l (<[t := abs (cv c) p (phases (lk c) t)]> (view c)) ->
  related k (log ++ l) (CvConf (lk c) v kern (<[t := p]> (pcs c))).
Proof.
  intros Hi Hr Hi' Hs Hm. exists f. split; [done|]. destruct Hm as [[-> Ha]|Hm].
  - rewrite app_nil_r. by apply view_same.
  - eapply mr_move; [done..|]. by apply view_set.
Qed.

(** The common case: [cv_t] and the kernel are as before. *)
Lemma pc_acts k log l c f t p :
  inv k c f -> mruns log (view c) -> (t < n)%nat -> p <> CvWake -> p <> CvAsleep ->
  pcs c t <> CvAsleep -> one p = one (pcs c t) -> fits p (phases (lk c) t) ->
  (forall s m, recorded p = Some (s, m) ->
     recorded (pcs c t) = Some (s, m) \/ (s = cv_seq (cv c) /\ m = wait_mode m0)) ->
  (forall w, loaded p = Some w -> w = waiters (cv c)) ->
  (forall s m, p = CvUnlock s m \/ p = CvFutex s m -> pcs c t = CvUnlock s m) ->
  (l = [] /\ abs (cv c) p (phases (lk c) t) = view c t) \/
    mstep t (view c) l (<[t := abs (cv c) p (phases (lk c) t)]> (view c)) ->
  related k (log ++ l) (CvConf (lk c) (cv c) (kernel c) (<[t := p]> (pcs c))).
Proof.
  intros Hi Hr Ht Hw Ha Ha' Ho Hf Hrec Hl Hpend Hv.
  apply (set_moves k log l c f); [done..| |done|done].
  apply (inv_set k); try done; try apply Hi.
  - by left.
  - lia.
  - auto.
  - by apply (kernel_same k c f).
Qed.

Lemma pc_moves k log c f t p :
  inv k c f -> mruns log (view c) -> (t < n)%nat -> p <> CvWake -> p <> CvAsleep ->
  pcs c t <> CvAsleep -> one p = one (pcs c t) -> fits p (phases (lk c) t) ->
  (forall s m, recorded p = Some (s, m) ->
     recorded (pcs c t) = Some (s, m) \/ (s = cv_seq (cv c) /\ m = wait_mode m0)) ->
  (forall w, loaded p = Some w -> w = waiters (cv c)) ->
  (forall s m, p = CvUnlock s m \/ p = CvFutex s m -> pcs c t = CvUnlock s m) ->
  abs (cv c) p (phases (lk c) t) = view c t ->
  related k log (CvConf (lk c) (cv c) (kernel c) (<[t := p]> (pcs c))).
Proof. intros. rewrite <- (app_nil_r log). apply (pc_acts k log [] c f); auto. Qed.

(** [++cv->waiters] and [--cv->waiters] are done by the owner of the lock, so
    the value loaded is still there. *)
Lemma store_moves k log c f t p d :
  inv k c f -> mruns log (view c) -> phases (lk c) t = In -> pcs c t <> CvUser ->
  loaded (pcs c t) = Some (waiters (cv c)) -> d = one p - one (pcs c t) ->
  fits p (phases (lk c) t) -> loaded p = None -> p <> CvWake -> p <> CvAsleep ->
  (forall s m, recorded p = Some (s, m) -> recorded (pcs c t) = Some (s, m)) ->
  abs (cv c) p (phases (lk c) t) = view c t ->
  related k log
    (CvConf (lk c) ((cv c) <| waiters := signed 32 (waiters (cv c) + d) |>) (kernel c)
       (<[t := p]> (pcs c))).
Proof.
  intros Hi Hr Hin Hu Hld Hd Hf Hlp Hw Ha Hrec Hv. rewrite <- (app_nil_r log).
  pose proof (user_or_bound k c f t Hi Hu) as Ht.
  assert (Hsl : pcs c t <> CvAsleep) by (intros E; by rewrite E in Hld).
  assert (Hcount : signed 32 (waiters (cv c) + d) = waiters (cv c) + d).
  { apply signed32_small. rewrite (i_count _ _ _ Hi), Hd, Z.add_sub_assoc, <- (count_insert _ t);
      [|apply NoDup_seq|apply elem_of_seq; lia].
    pose proof (count_bounds (<[t := p]> (pcs c)) (seq 0 n)). rewrite length_seq in *. lia. }
  apply (set_moves k log [] c f); [done..| |done|].
  - apply (inv_set k); simpl; try done; try apply Hi.
    + by left.
    + rewrite Hcount. lia.
    + auto.
    + intros w. by rewrite Hlp.
    + auto.
    + by apply (kernel_same k c f).
  - by left.
Qed.

(** A signal with nobody asleep. *)
Lemma signal_none k log c f t :
  inv k c f -> mruns log (view c) -> pcs c t = CvTest \/ pcs c t = CvWake ->
  (forall u, view c u <> MAsleep) ->
  related k (log ++ [(t, Signals)]) (CvConf (lk c) (cv c) (kernel c) (<[t := CvUser]> (pcs c))).
Proof.
  intros Hi Hr Hp Hno. pose proof (i_fits _ _ _ Hi t) as Hf.
  assert (Hin : phases (lk c) t = In) by (by destruct Hp as [Hp|Hp]; rewrite Hp in Hf).
  assert (Hv : view c t = MIn) by (unfold view; by destruct Hp as [-> | ->]).
  exists f. split.
  - apply (inv_set k); try done; try apply Hi.
    + apply (user_or_bound k c f); [done|]. by destruct Hp as [-> | ->].
    + by left.
    + unfold one. destruct Hp as [-> | ->]; simpl; lia.
    + naive_solver.
    + apply (kernel_same k c f); [done| |done]. by destruct Hp as [-> | ->].
  - eapply mr_move; [done|by apply (m_signal_none t)|]. intros u. rewrite view_set by done.
    destruct (decide (u = t)) as [->|Hu]; rewrite ?fn_lookup_insert, ?fn_lookup_insert_ne by done; [|done].
    rewrite Hv. simpl. by rewrite Hin.
Qed.

Lemma access_moves k log c f t v p a :
  inv k c f -> mruns log (view c) -> cv_access (cv c) (pcs c t) = Some (v, p, a) ->
  match a with Bumped => k + 1 | _ => k end < 2 ^ 32 ->
  related (match a with Bumped => k + 1 | _ => k end)
    (log ++ logged t a)
    (CvConf (lk c) v (kernel c) (<[t := p]> (pcs c))).
Proof.
  intros Hi Hr Hacc Hk. pose proof (i_fits _ _ _ Hi t) as Hf.
  pose proof (user_or_bound k c f t Hi) as Ht.
  pose proof (i_load _ _ _ Hi t) as Hload.
  destruct (pcs c t) as [| |s m|s m w| | | | | |w| | |] eqn:Ep; try done; simpl in Hf;
    specialize (Ht ltac:(done)); simpl in Hacc.
  - simplify_eq. simpl. rewrite app_nil_r. apply (pc_moves k log c f); try rewrite Ep; try done.
    + intros s m [= <- <-]. right. by rewrite (i_mode _ _ _ Hi).
    + naive_solver.
    + see. by rewrite Z.eqb_refl.
  - simplify_eq. simpl. rewrite app_nil_r.
    apply (pc_moves k log c f); try rewrite Ep; try done; [by auto|naive_solver|naive_solver|by see].
  - simplify_eq. simpl. rewrite app_nil_r. specialize (Hload w eq_refl) as ->.
    apply (store_moves k log c f); try rewrite Ep; try done; [by rewrite Hf|]. by see.
  - simplify_eq. simpl. rewrite app_nil_r.
    apply (pc_moves k log c f); try rewrite Ep; try done; [naive_solver|naive_solver|by see].
  - simplify_eq. simpl. rewrite app_nil_r. specialize (Hload w eq_refl) as ->.
    apply (store_moves k log c f t CvUser (-1)); try rewrite Ep; try done. by see.
  - destruct (0 <? waiters (cv c)) eqn:Ew; simplify_eq; simpl; rewrite ?app_nil_r.
    + apply (pc_moves k log c f); try rewrite Ep; try done; [naive_solver|by see].
    + apply (signal_none k log c f); [done..|by left|].
      intros u Hu. destruct (asleep_counted k c f u Hi Hu) as [Hc|Hc].
      * rewrite (count_zero (pcs c) (seq 0 n)) in Hc; [done|rewrite <- (i_count _ _ _ Hi); lia|].
        apply elem_of_seq. destruct (decide (u < n)%nat); [lia|].
        rewrite (i_user _ _ _ Hi u) in Hc by done. done.
      * pose proof (in_unique k c f u t Hi Hc Hf) as ->. unfold view in Hu. by rewrite Ep in Hu.
  - simplify_eq. simpl. rewrite app_nil_r. by apply (bump_moves k log c f).
Qed.

(** *** The kernel *)

Lemma block_moves k log c f t s m :
  inv k c f -> mruns log (view c) -> pcs c t = CvFutex s m -> s = cv_seq (cv c) ->
  related k log (CvConf (lk c) (cv c) (kernel c ++ [(t, private m)]) (<[t := CvAsleep]> (pcs c))).
Proof.
  intros Hi Hr Hp Hs. pose proof (i_fits _ _ _ Hi t) as Hf. rewrite Hp in Hf. simpl in Hf.
  destruct (i_rec _ _ _ Hi t s m) as [-> _]; [by rewrite Hp|]. rewrite <- (app_nil_r log).
  apply (set_moves k log [] c f); [done..| |done|].
  - apply (inv_set k); try done; try apply Hi.
    + apply (user_or_bound k c f); [done|by rewrite Hp].
    + by left.
    + rewrite Hp. unfold one. simpl. lia.
    + naive_solver.
    + intros u b. rewrite elem_of_app, list_elem_of_singleton, (i_kernel _ _ _ Hi).
      destruct (decide (u = t)) as [->|Hu]; rewrite ?fn_lookup_insert, ?fn_lookup_insert_ne by done; naive_solver.
  - left. split; [done|]. see. by rewrite Hs, Z.eqb_refl.
Qed.

Lemma awake_inv k c f u : inv k c f -> pcs c u = CvAsleep -> inv k (awake c u) f.
Proof.
  intros Hi Hp. pose proof (i_fits _ _ _ Hi u) as Hf. rewrite Hp in Hf. simpl in Hf.
  apply (inv_set k); try done; try apply Hi.
  - apply (user_or_bound k c f); [done|by rewrite Hp].
  - by left.
  - rewrite Hp. unfold one. simpl. lia.
  - simpl. intros q. by rewrite Hf.
  - naive_solver.
  - intros x b. rewrite list_elem_of_filter, (i_kernel _ _ _ Hi). simpl.
    destruct (decide (x = u)) as [->|Hx]; rewrite ?fn_lookup_insert, ?fn_lookup_insert_ne by done; naive_solver.
Qed.

Lemma awake_view k c f u :
  inv k c f -> pcs c u = CvAsleep -> forall x, view (awake c u) x = <[u := MWoken]> (view c) x.
Proof.
  intros Hi Hp x. unfold awake. rewrite view_set by done. simpl.
  pose proof (i_fits _ _ _ Hi u) as Hf. rewrite Hp in Hf. simpl in Hf.
  by rewrite Hf.
Qed.

Lemma private_modes m : private (wake_mode m) = private (wait_mode m).
Proof. by destruct m. Qed.

Lemma wake_one_moves k log c f t u :
  inv k c f -> mruns log (view c) -> pcs c t = CvWake -> pcs c u = CvAsleep ->
  related k (log ++ [(t, Signals)]) (with_pc (awake c u) t CvUser).
Proof.
  intros Hi Hr Hp Hu. pose proof (awake_inv k c f u Hi Hu) as Hi'.
  assert (Hut : t <> u) by congruence.
  assert (Hp' : pcs (awake c u) t = CvWake) by (simpl; by rewrite fn_lookup_insert_ne).
  pose proof (wake_in k c f t Hi Hp) as Hin.
  exists f. split.
  - apply (inv_set k); try done; try apply Hi.
    + apply (user_or_bound k (awake c u) f); [done|by rewrite Hp'].
    + by left.
    + rewrite Hp'. unfold one. simpl. lia.
    + naive_solver.
    + apply (kernel_same k (awake c u) f); [done|by rewrite Hp'|done].
  - eapply mr_move; [done|apply (m_signal_one t _ u); by see|].
    intros x. unfold with_pc. rewrite view_set by done. simpl. rewrite Hin. simpl.
    destruct (decide (x = t)) as [->|Hx].
    + rewrite fn_lookup_insert, fn_lookup_insert_ne by done. by see.
    + rewrite fn_lookup_insert_ne by done. by apply (awake_view k c f).
Qed.

Lemma nobody_asleep k c f t :
  inv k c f -> pcs c t = CvWake -> (forall u, (u, private (wake_mode (mode (cv c)))) ∉ kernel c) ->
  forall u, view c u <> MAsleep.
Proof.
  intros Hi Hp Hk u Hu. rewrite (i_mode _ _ _ Hi), private_modes in Hk.
  pose proof (i_wake _ _ _ Hi t u) as Hst. specialize (Hk u). rewrite (i_kernel _ _ _ Hi) in Hk.
  assert (Hne : phases (lk c) u = In -> pcs c u = CvWake).
  { intros Hin. by rewrite (in_unique k c f u t Hi Hin (wake_in k c f t Hi Hp)). }
  pose proof (i_fits _ _ _ Hi u) as Hf. unfold view, abs in Hu.
  destruct (pcs c u) as [| | | |s m|s m| | | | | | |]; simpl in Hf; try (by specialize (Hne Hf)); try (by case_match).
  - destruct (Z.eqb_spec s (cv_seq (cv c))) as [E|E]; [|done]. by destruct (Hst s m); auto.
  - destruct (Z.eqb_spec s (cv_seq (cv c))) as [E|E]; [|done]. by destruct (Hst s m); auto.
  - naive_solver.
Qed.

(** ** Every step *)

Lemma cvstep_related k log c t a c' :
  related k log c -> cvstep n t c a c' -> match a with Bumped => k + 1 | _ => k end < 2 ^ 32 ->
  related (match a with Bumped => k + 1 | _ => k end) (log ++ logged t a) c'.
Proof.
  intros (f & Hi & Hr) Hs Hk. pose proof (i_fits _ _ _ Hi t) as Hf.
  destruct Hs as [l Hp Hl|Ht Hp Hin|Ht Hp Hin|v p a Hacc|l s m Hp Hout Hl|s m Hp Hout|s m Hp Hs|s m Hp Hs
    |Hp|l Hp Hin Hl|Hp Hin|u Hp Hu|Hp Hu]; try rewrite Hp in Hf; simpl in Hf;
    try (simpl; rewrite app_nil_r).
  - replace (match lock_label (phases (lk c) t) (phases l t) with Bumped => k + 1 | _ => k end) with k
      by (unfold lock_label; by repeat case_match).
    apply (lock_moves k log c f); [done..|by rewrite Hp|by left].
  - apply (pc_acts k log [(t, Waits)] c f); rewrite ?Hp; try done; [naive_solver|].
    right. apply m_wait. unfold view. rewrite Hp. simpl. by rewrite Hin.
  - apply (pc_moves k log c f); rewrite ?Hp; try done; [naive_solver|by see].
  - by apply (access_moves k log c f).
  - eapply unlock_moves; rewrite ?Hp; try done. simpl. intros q Hq.
    destruct Hl as [l [p s' r _ Hl _|p s' [] _ Hl _]|_ Hl|_ Hl]; simpl in Hq;
      rewrite fn_lookup_insert in Hq; try done. by apply Hf in Hl.
  - apply (pc_moves k log c f); rewrite ?Hp; try done; [|by auto|naive_solver|by see].
    apply (user_or_bound k c f); [done|by rewrite Hp].
  - by eapply block_moves.
  - apply (pc_moves k log c f); rewrite ?Hp; try done; [| |naive_solver|].
    + apply (user_or_bound k c f); [done|by rewrite Hp].
    + simpl. by rewrite Hf.
    + see. by apply Z.eqb_neq in Hs as ->.
  - exists f. split; [by apply awake_inv|].
    eapply mr_quiet; [done|apply (m_spurious t); by see|by apply (awake_view k c f)].
  - replace (match lock_label (phases (lk c) t) (phases l t) with Bumped => k + 1 | _ => k end) with k
      by (unfold lock_label; by repeat case_match).
    apply (lock_moves k log c f); [done..| |by right]. rewrite Hp. simpl. intros q Hq.
    destruct Hl as [l [p s' [] _ Hl _|p s' r _ Hl _]|_ Hl|_ Hl]; simpl in Hq;
      rewrite fn_lookup_insert in Hq; try done. by apply Hf in Hl.
  - apply (pc_moves k log c f); rewrite ?Hp; try done; [|naive_solver|by see].
    apply (user_or_bound k c f); [done|by rewrite Hp].
  - apply (wake_one_moves k log c f); [done..|]. by apply (i_kernel _ _ _ Hi) in Hu as [].
  - apply (signal_none k log c f); [done..|by right|]. by apply (nobody_asleep k c f t).
Qed.

Lemma related_start : related 0 [] (cvstart m0).
Proof.
  exists fstart. split; [|eapply mr_ext; [constructor|done]].
  split; simpl; try done; [apply sim_start|apply fifo_ok_start| |].
  - by induction (seq 0 n).
  - intros t b. split; [intros Ht; by inversion Ht|naive_solver].
Qed.

Lemma cvruns_related k log c : cvruns n m0 k log c -> k < 2 ^ 32 -> related k log c.
Proof.
  induction 1 as [|k log c t a c' Hr IH Hs]; intros Hk; [apply related_start|].
  apply cvstep_related with c; [apply IH|done|done]. destruct a; lia.
Qed.

End Proofs.

(** ** Theorems *)

(** What the users of the condition variable may rely on. *)
Lemma cv_promises (S : SpinLock) n (L : FifoLock S n) m k log c :
  Z.of_nat n < 2 ^ 31 -> cvruns n m k log c -> k < 2 ^ 32 ->
  waiters (cv c) = count (pcs c) (seq 0 n) /\
  (exists s, mruns log s /\
    (forall t, pcs c t = CvAsleep -> s t = MAsleep) /\
    (forall t, pcs c t = CvUser -> s t = if is_in (phases (lk c) t) then MIn else MOut) /\
    (forall t, pcs c t = CvRelock -> phases (lk c) t <> In -> s t = MWoken)) /\
  (forall l, NoDup l -> (forall t, t ∈ l -> pcs c t = CvAsleep) -> (length l <= unsignalled log)%nat).
Proof.
  intros Hn Hr Hk. destruct (cvruns_related m Hn k log c Hr Hk) as (f & Hi & Hm).
  assert (Hsl : forall t, pcs c t = CvAsleep -> view c t = MAsleep) by (intros t Ht; unfold view; by rewrite Ht).
  split; [apply Hi|]. split; [exists (view c); split_and!; [done..| |]|].
  - intros t Ht. unfold view. by rewrite Ht.
  - intros t Ht Hin. unfold view. rewrite Ht. simpl. by destruct (phases (lk c) t).
  - intros l Hd Hl. apply (mruns_asleep log (view c)); auto.
Qed.

(** C4. Over any first-come first-served spinlock, [cv_wait] and [cv_signal] are a
    condition variable.  Take any interleaving of fewer than [2^31] threads that
    lock, unlock, wait and signal, with spurious wake-ups, and fewer than [2^32]
    signals that found a waiter: what the threads did, in its order (getting the lock,
    giving it back, calling [cv_wait], signalling), is a history of a monitor, in
    which only one thread is inside at a time, waiting releases the lock and goes to
    sleep in one step, and every signal wakes a sleeping thread if there is one.  The
    history ends in the state of the code: a thread blocked in the kernel is asleep, a
    thread in its own code is inside exactly if it owns the lock, and a thread on its
    way back has been woken.  So no signal is lost: the threads blocked in the kernel
    are never more than the waits that no later signal has answered.  And [waiters]
    counts the threads inside [cv_wait]. *)
Theorem cv_is_condition_variable (S : SpinLock) n (L : FifoLock S n) m k log c :
  Z.of_nat n < 2 ^ 31 -> cvruns n m k log c -> k < 2 ^ 32 ->
  waiters (cv c) = count (pcs c) (seq 0 n) /\
  (exists s, mruns log s /\
    (forall t, pcs c t = CvAsleep -> s t = MAsleep) /\
    (forall t, pcs c t = CvUser -> s t = if is_in (phases (lk c) t) then MIn else MOut) /\
    (forall t, pcs c t = CvRelock -> phases (lk c) t <> In -> s t = MWoken)) /\
  (forall l, NoDup l -> (forall t, t ∈ l -> pcs c t = CvAsleep) -> (length l <= unsignalled log)%nat).
Proof. by apply cv_promises. Qed.

(** A wake-up that gets lost is no history: nobody can be left asleep here. *)
Example lost_wakeup_is_no_history s :
  mruns [(0, Enters); (0, Waits); (1, Enters); (1, Signals)]%nat s -> s 0%nat <> MAsleep.
Proof.
  intros Hr H0. enough (length [0%nat] <= 0)%nat by (simpl in *; lia).
  apply (mruns_asleep _ _ Hr); [apply NoDup_singleton|]. by intros t ->%list_elem_of_singleton.
Qed.

(** One more step of a run. *)
Ltac forward t R tac := eapply (cvr_step _ _ _ _ _ t) in R; [|tac]; simpl in R.

(** A run over the ticket lock: thread 0 waits, thread 1 signals it. *)
Definition cv_demo_log : list (tid * action) :=
  [(0, Enters); (0, Waits); (1, Enters); (1, Signals)]%nat.

Lemma cv_demo_run :
  exists c, @cvruns TicketLock.ticketlock 2 CV_PRIVATE 1 cv_demo_log c /\ pcs c 0%nat = CvRelock.
Proof.
  pose proof (@cvr_start TicketLock.ticketlock 2 CV_PRIVATE) as R.
  forward 0%nat R ltac:(apply s_user; [reflexivity|apply step_lock; [lia|reflexivity]]).
  forward 0%nat R ltac:(apply s_user; [reflexivity|apply step_runs; eapply runs_lock; [lia|reflexivity..]]).
  forward 0%nat R ltac:(apply s_wait; [lia|reflexivity..]).
  do 3 forward 0%nat R ltac:(apply s_access; reflexivity).
  forward 0%nat R ltac:(eapply s_unlock; [reflexivity|done|apply step_unlock; [lia|reflexivity]]).
  forward 0%nat R ltac:(eapply s_unlock; [reflexivity|done|apply step_runs; eapply runs_unlock; [lia|reflexivity..]]).
  forward 0%nat R ltac:(eapply s_unlocked; reflexivity).
  forward 0%nat R ltac:(eapply s_block; reflexivity).
  forward 1%nat R ltac:(apply s_user; [reflexivity|apply step_lock; [lia|reflexivity]]).
  forward 1%nat R ltac:(apply s_user; [reflexivity|apply step_runs; eapply runs_lock; [lia|reflexivity..]]).
  forward 1%nat R ltac:(apply s_signal; [lia|reflexivity..]).
  do 2 forward 1%nat R ltac:(apply s_access; reflexivity).
  forward 1%nat R ltac:(apply (s_wake_one _ _ _ 0%nat); [reflexivity|apply list_elem_of_here]).
  eexists. split; [exact R|reflexivity].
Qed.

Lemma cv_is_condition_variable_witness :
  exists c, @cvruns TicketLock.ticketlock 2 CV_PRIVATE 1 cv_demo_log c /\ pcs c 0%nat = CvRelock /\
    exists s, mruns cv_demo_log s /\ forall t, pcs c t = CvAsleep -> s t = MAsleep.
Proof.
  destruct cv_demo_run as (c & R & Hc). exists c. split; [exact R|]. split; [exact Hc|].
  destruct (cv_is_condition_variable TicketLock.ticketlock 2
    (TicketLock.ticketlock_fifo 2 ltac:(lia)) CV_PRIVATE 1 cv_demo_log c ltac:(lia) R ltac:(lia))
    as (_ & (s & Hs & Ha & _) & _).
  exists s. split; [exact Hs | exact Ha].
Defined.

End CondVar.
