(* ===== verification/NonPreempt.v ===== *)
(** * Non-preemptive locking (the [_np] routines of include/ticketlock.h,
    include/queuelock.h, include/spinlock.h and include/condvar.h, and
    include/interrupts.h)

    With PGM_NP_METHOD 1 or 2 a thread becomes non-preemptive before it takes a
    spinlock and preemptive again after it gave it back: it disables interrupts and
    restores the saved flags, or it enters and leaves a section of LITMUS^RT.  The
    routines wrap the lock and unlock of either spinlock in the same way, so they
    are modelled over any [SpinLock], and the result is a [SpinLock] again.  It is a
    first-come first-served lock if the one inside is, hence so is the condition
    variable over it, which is what [cv_wait_np] makes of it. *)

From S2P Require Import Prelude Lock TicketLock CondVar.

Module NonPreempt.
Import Lock.
#[local] Open Scope Z_scope.

(** PGM_NP_INTERRUPTS or PGM_NP_LITMUS *)
Inductive np_method := Interrupts | Litmus.

(** liblitmus: what [enter_np] and [exit_np] do to the control page of a thread.  A
    thread in a section cannot be preempted, and leaving it undoes entering it. *)
Class Litmus_np := {
  np_page : Type;
  np_idle : np_page;
  enter_np : np_page -> np_page;
  exit_np : np_page -> np_page;
  np_section : np_page -> bool
}.

Class LitmusLaws (X : Litmus_np) := {
  enter_law pg : np_section (enter_np pg) = true;
  exit_law pg : exit_np (enter_np pg) = pg
}.

(** What a thread has of its own: the flags of its processor, its control page, and
    the caller's variable [flags]. *)
Record cpu `{Litmus_np} := Cpu { eflags : Z; page : np_page; saved : Z }.
Arguments Cpu {_}.
Arguments eflags {_}.
Arguments page {_}.
Arguments saved {_}.

#[global] Instance cpu_eta `{Litmus_np} : Eta cpu := fun v => Cpu (eflags v) (page v) (saved v).

(** The interrupt flag is bit 9. *)
Definition cli (f : Z) : Z := Z.clearbit f 9.

(** Places in the wrappers: [save_flags], [cli] or [enter_np]; inside the lock and
    the unlock they wrap; [restore_flags] or [exit_np]. *)
Inductive np_pc (P : Type) :=
| NpSave
| NpCli
| NpEnter
| NpLock (p : P)
| NpUnlock (p : P)
| NpRestore
| NpExit.
Arguments NpSave {P}.
Arguments NpCli {P}.
Arguments NpEnter {P}.
Arguments NpLock {P} p.
Arguments NpUnlock {P} p.
Arguments NpRestore {P}.
Arguments NpExit {P}.

Section Code.
Context `{Litmus_np} (S : SpinLock) (m : np_method) (flags0 : tid -> Z).

Definition np_shared : Type := lk_shared * (tid -> cpu).

(** The part of the thread changes. *)
Definition own (t : tid) (s : np_shared) (g : cpu -> cpu) : np_shared := (s.1, <[t := g (s.2 t)]> s.2).

(** What the unlock is followed by. *)
Definition np_last : np_pc lk_pc := match m with Interrupts => NpRestore | Litmus => NpExit end.

Definition np_step (t : tid) (s : np_shared) (p : np_pc lk_pc) : outcome (np_shared * option (np_pc lk_pc)) :=
  match p with
  | NpSave => Ok (own t s (fun v => v <| saved := eflags v |>), Some NpCli)
  | NpCli => Ok (own t s (fun v => v <| eflags ::= cli |>), Some (NpLock lk_lock))
  | NpEnter => Ok (own t s (fun v => v <| page ::= enter_np |>), Some (NpLock lk_lock))
  | NpLock p =>
      match lk_step t s.1 p with
      | Ok (s', r) => Ok ((s', s.2), NpLock <$> r)
      | Fault e => Fault e
      end
  | NpUnlock p =>
      match lk_step t s.1 p with
      | Ok (s', Some p) => Ok ((s', s.2), Some (NpUnlock p))
      | Ok (s', None) => Ok ((s', s.2), Some np_last)
      | Fault e => Fault e
      end
  | NpRestore => Ok (own t s (fun v => v <| eflags := saved v |>), None)
  | NpExit => Ok (own t s (fun v => v <| page ::= exit_np |>), None)
  end.

(** [spin_init_np], [spin_lock_np] and [spin_unlock_np], started with processors
    whose flags are [flags0]. *)
Definition np_lock : SpinLock := {|
  lk_shared := np_shared;
  lk_pc := np_pc lk_pc;
  lk_init := (lk_init, fun t => Cpu (flags0 t) np_idle 0);
  lk_lock := match m with Interrupts => NpSave | Litmus => NpEnter end;
  lk_unlock := NpUnlock lk_unlock;
  lk_step := np_step;
  lk_doorway t s p := match p with NpLock q => lk_doorway t s.1 q | _ => false end
|}.

End Code.

(** ** The lock inside *)

Section Proofs.
Context `{X : Litmus_np} `{!LitmusLaws X} {S : SpinLock} (n : nat) `{L : !FifoLock S n} (m : np_method) (flags0 : tid -> Z).

Abbreviation NP := (np_lock S m flags0).

(** What a thread is doing with the lock inside. *)
Definition inner (ph : phase (np_pc (@lk_pc S))) : phase (@lk_pc S) :=
  match ph with
  | Locking (NpLock p) => Locking p
  | In => In
  | Unlocking (NpUnlock p) => Unlocking p
  | _ => Out
  end.

(** The places of the code that belong to the lock half and the unlock half. *)
Definition well_placed (ph : phase (np_pc (@lk_pc S))) : Prop :=
  match ph with
  | Locking (NpUnlock _ | NpRestore | NpExit) | Unlocking (NpSave | NpCli | NpEnter | NpLock _) => False
  | _ => True
  end.

(** Where a thread is in the history of the wrapped lock, given where it is in the
    history of the lock inside. *)
Definition lifted (ph : phase (np_pc (@lk_pc S))) (fp : fphase) : fphase :=
  match ph with
  | Locking (NpSave | NpCli | NpEnter) => FArriving
  | Unlocking (NpRestore | NpExit) => FGone
  | _ => fp
  end.

(** The configuration inside. *)
Record contains (c : @conf NP) (c0 : @conf S) : Prop := {
  co_shared : shared c0 = (shared c).1;
  co_phases t : phases c0 t = inner (phases c t);
  co_placed t : well_placed (phases c t)
}.

Record np_sim (c : @conf NP) (f : fconf) (c0 : @conf S) (f0 : fconf) : Prop := {
  ns_contains : contains c c0;
  ns_sim : lk_sim c0 f0;
  ns_queue : queue f = queue f0;
  ns_phases t : fphases f t = lifted (phases c t) (fphases f0 t)
}.

(** Thread [t] moves in the wrapper, and inside, if at all, to the same place. *)
Lemma contains_goes c c0 t s s0 ph ph0 :
  contains c c0 -> s0 = s.1 -> ph0 = inner ph -> well_placed ph -> contains (goes c t s ph) (goes c0 t s0 ph0).
Proof.
  intros [Hs Hp Hw] -> -> Hok. split; simpl; [done|..]; intros u; destruct (decide (u = t)) as [->|Hne];
    rewrite ?fn_lookup_insert, ?fn_lookup_insert_ne by done; auto.
Qed.

Lemma contains_stays c c0 t s ph :
  contains c c0 -> shared c0 = s.1 -> inner ph = inner (phases c t) -> well_placed ph -> contains (goes c t s ph) c0.
Proof.
  intros [Hs Hp Hw] Es Ei Hok. split; simpl; [done|..]; intros u; destruct (decide (u = t)) as [->|Hne];
    rewrite ?fn_lookup_insert, ?fn_lookup_insert_ne by done; auto. by rewrite Ei.
Qed.

(** The doorway is the one of the lock inside. *)
Lemma contains_arrives c c0 t : contains c c0 -> arrives t c = arrives t c0.
Proof.
  intros [Hs Hp _]. unfold arrives. rewrite Hs, Hp. by destruct (phases c t) as [|[]| |[]].
Qed.

(** What the wrapped lock does after one access of [t]. *)
Definition np_result (c : @conf NP) (f : fconf) (t : tid) (c' : @conf NP) : Prop :=
  exists g, fmoves t f g /\ fjoins t f g = arrives t c /\ exists c0' f0', np_sim c' g c0' f0'.

(** Nothing happens inside: the history of the wrapped lock makes at most a step. *)
Lemma np_stays c f c0 f0 t s ph fp :
  np_sim c f c0 f0 -> (shared c).1 = s.1 -> inner ph = inner (phases c t) -> well_placed ph ->
  fp = lifted ph (fphases f0 t) -> fp = fphases f t \/ fstep t f (fgoes f t (queue f) fp) ->
  arrives t c = [] -> queued fp = false \/ queued (fphases f t) = true -> np_result c f t (goes c t s ph).
Proof.
  intros [Hc Hl Hq Hp] Es Ei Hok Ef Hmove Harr Hjoin.
  assert (Hj : forall ph', ph' = fp -> negb (queued (fphases f t)) && queued ph' = false).
  { intros ph' ->. destruct Hjoin as [-> | ->]; [by rewrite andb_false_r|done]. }
  assert (Hsim : np_sim (goes c t s ph) (fgoes f t (queue f) fp) c0 f0).
  { split; [|done..|].
    - apply contains_stays; try done. by rewrite (co_shared _ _ Hc).
    - intros u. simpl. destruct (decide (u = t)) as [->|Hne]; rewrite ?fn_lookup_insert, ?fn_lookup_insert_ne by done; auto. }
  destruct Hmove as [Heq|Hs].
  2: { exists (fgoes f t (queue f) fp). split; [by apply fm_one|]. split; [|by exists c0, f0].
       unfold fjoins. by rewrite fgoes_phase, Hj. }
  exists f. split; [done|]. split; [unfold fjoins; by rewrite Hj|]. exists c0, f0. split; [apply Hsim|done..|].
  intros u. pose proof (ns_phases _ _ _ _ Hsim u) as Hu. simpl in Hu. simpl.
  destruct (decide (u = t)) as [->|Hne]; rewrite ?fn_lookup_insert, ?fn_lookup_insert_ne in * by done; congruence.
Qed.

(** Steps of the history inside are steps of the history of the wrapped lock. *)
Lemma fstep_lift t f0 f0' f :
  fstep t f0 f0' -> queue f = queue f0 -> fphases f t = fphases f0 t ->
  fstep t f (fgoes f t (queue f0') (fphases f0' t)).
Proof.
  intros Hs Hq Hp. destruct Hs; rewrite fgoes_phase; simpl; rewrite <- ?Hq;
    econstructor; rewrite ?Hp, ?Hq; done.
Qed.

Lemma fmoves_lift t f0 f0' f :
  fmoves t f0 f0' -> queue f = queue f0 -> fphases f t = fphases f0 t ->
  exists f', fmoves t f f' /\ queue f' = queue f0' /\ fphases f' t = fphases f0' t /\
    forall u, u <> t -> fphases f' u = fphases f u.
Proof.
  intros Hm Hq Hp. destruct Hm as [|f1 H1|f1 f2 H1 Hn H2]; [by exists f|..].
  - pose proof (fstep_lift _ _ _ f H1 Hq Hp) as G1. eexists. split; [by apply fm_one|].
    split; [done|]. split; [by rewrite fgoes_phase|]. intros u Hu. by apply fstep_keeps_phases.
  - pose proof (fstep_lift _ _ _ f H1 Hq Hp) as G1.
    pose proof (fstep_lift _ _ _ _ H2 (eq_refl : queue (fgoes f t (queue f1) (fphases f1 t)) = queue f1)
      (fgoes_phase f t _ _)) as G2.
    eexists. split; [eapply fm_two; [done|by rewrite fgoes_phase|done]|]. split; [done|]. split; [by rewrite fgoes_phase|].
    intros u Hu. by rewrite !fstep_keeps_phases.
Qed.

(** The lock inside makes a step that changes the thread's place in the wrapper in
    the same way. *)
Lemma np_moves c f c0 f0 t s ph s0 ph0 :
  np_sim c f c0 f0 -> step n t c0 (goes c0 t s0 ph0) -> s0 = s.1 -> ph0 = inner ph -> well_placed ph ->
  (forall f0', fmoves t f0 f0' -> fjoins t f0 f0' = arrives t c -> agrees ph0 (fphases f0' t) ->
     exists g, fmoves t f g /\ fjoins t f g = arrives t c /\ queue g = queue f0' /\
     fphases g t = lifted ph (fphases f0' t) /\ forall u, u <> t -> fphases g u = fphases f u) ->
  np_result c f t (goes c t s ph).
Proof.
  intros [Hc Hl Hq Hp] Hs Es Eph Hok Hnext. destruct (sim_step c0 f0 t _ Hl Hs) as (f0' & Hm & Hj & Hl').
  rewrite <- (contains_arrives c c0 t Hc) in Hj.
  pose proof (sim_agrees _ _ t Hl') as Ha. simpl in Ha. rewrite fn_lookup_insert in Ha.
  destruct (Hnext f0' Hm Hj Ha) as (g & Hm' & Hj' & Hq' & Ht & Hu). exists g. split; [done|]. split; [done|].
  exists (goes c0 t s0 ph0), f0'. split; [by apply contains_goes|done|done|].
  intros u. simpl. destruct (decide (u = t)) as [->|Hne]; rewrite ?fn_lookup_insert, ?fn_lookup_insert_ne by done; [done|].
  rewrite Hu, Hp, (fmoves_other f0 t f0' u Hm) by done. done.
Qed.

(** The end of the unlock inside, in the history. *)
Lemma return_moves t f f' : fmoves t f f' -> fphases f t = FLeaving \/ fphases f t = FGone -> fphases f' t = FOut ->
  fphases f t = FGone /\ queue f' = queue f \/ fphases f t = FLeaving /\ queue f = t :: queue f'.
Proof.
  intros Hm Hi Ho. destruct Hm as [|f1 H1|f1 f2 H1 Hn H2]; [by destruct Hi; congruence|..].
  - destruct H1; rewrite fgoes_phase in Ho; try congruence. auto.
  - destruct H1 as [E|E|q E|E|q E Q|E]; try (destruct Hi; congruence).
    + destruct H2 as [E'|E'|q' E'|E'|q' E'|E']; rewrite fgoes_phase in E'; try congruence. auto.
    + destruct H2 as [E'|E'|q' E'|E'|q' E'|E']; rewrite fgoes_phase in E', Ho; congruence.
Qed.

(** A call that becomes non-preemptive reaches the lock inside. *)
Lemma np_calls c f c0 f0 t s :
  np_sim c f c0 f0 -> (t < n)%nat -> inner (phases c t) = Out -> fphases f t = FArriving -> s.1 = (shared c).1 ->
  np_result c f t (goes c t s (Locking (NpLock lk_lock))).
Proof.
  intros Hsim Hn Hi Ha Es. pose proof Hsim as [Hc Hl Hq Hp].
  assert (Hout : phases c0 t = Out) by (by rewrite (co_phases _ _ Hc)).
  assert (Harr : arrives t c = []) by (rewrite (contains_arrives c c0 t Hc); unfold arrives; by rewrite Hout).
  apply (np_moves c f c0 f0 t s _ (shared c0) (Locking lk_lock) Hsim); try done.
  - by apply step_lock.
  - by rewrite (co_shared _ _ Hc).
  - intros f0' Hm Hj Hag.
    assert (Ho : fphases f0 t = FOut).
    { pose proof (sim_agrees _ _ t Hl) as Hag0. rewrite Hout in Hag0. by inversion Hag0. }
    assert (E : fphases f0' t = FArriving).
    { rewrite Harr in Hj. unfold fjoins in Hj. rewrite Ho in Hj.
      inversion Hag as [| | p Ep Ef| | |]; [done|]. by rewrite <- Ef in Hj. }
    exists f. split; [done|]. split; [unfold fjoins; by rewrite Ha, Harr|].
    split_and!; [|by rewrite E, Ha|done]. rewrite Hq.
    destruct Hm as [|f1 H1|f1 f2 H1 Hn' H2]; [done|by destruct H1; try congruence|].
    destruct H1; try congruence. destruct H2 as [E'|E'|q E'|E'|q E'|E']; rewrite fgoes_phase in E, E'; congruence.
Qed.

(** A step of the lock inside that stays in the wrapper's half. *)
Lemma np_follows c f c0 f0 t s ph s0 ph0 :
  np_sim c f c0 f0 -> step n t c0 (goes c0 t s0 ph0) -> s0 = s.1 -> ph0 = inner ph -> well_placed ph ->
  (forall fp, lifted (phases c t) fp = fp) -> (forall fp, lifted ph fp = fp) ->
  np_result c f t (goes c t s ph).
Proof.
  intros Hsim Hs Es Eph Hok Hl1 Hl2. pose proof Hsim as [Hc Hl Hq Hp].
  apply (np_moves c f c0 f0 t s ph s0 ph0 Hsim); try done. intros f0' Hm Hj _. rewrite Hl2.
  assert (Et : fphases f t = fphases f0 t) by (by rewrite Hp, Hl1).
  destruct (fmoves_lift t f0 f0' f Hm Hq Et) as (g & Hm' & Hq' & Et' & Hu). exists g.
  split; [done|]. split; [|done]. rewrite <- Hj. unfold fjoins. by rewrite Et, Et'.
Qed.

Lemma last_place : inner (Unlocking (np_last S m)) = Out /\ well_placed (Unlocking (np_last S m)) /\
  forall fp, lifted (Unlocking (np_last S m)) fp = FGone.
Proof. unfold np_last. by destruct m. Qed.

Lemma first_place : inner (Locking (@lk_lock NP)) = Out /\ well_placed (Locking (@lk_lock NP)) /\
  forall fp, lifted (Locking (@lk_lock NP)) fp = FArriving.
Proof. simpl. by destruct m. Qed.

(** The unlock inside returns. *)
Lemma np_returns c f c0 f0 t s p s0 :
  np_sim c f c0 f0 -> (t < n)%nat -> phases c t = Unlocking (NpUnlock p) ->
  lk_step t (shared c).1 p = Ok (s0, None) -> s0 = s.1 ->
  np_result c f t (goes c t s (Unlocking (np_last S m))).
Proof.
  intros Hsim Hn Ep E Es. pose proof Hsim as [Hc Hl Hq Hp]. destruct last_place as (Li & Lw & Ll).
  assert (Ei : phases c0 t = Unlocking p) by (by rewrite (co_phases _ _ Hc), Ep).
  pose proof (sim_agrees _ _ t Hl) as Hag0. rewrite Ei in Hag0.
  assert (Ef : fphases f t = fphases f0 t) by (by rewrite Hp, Ep).
  apply (np_moves c f c0 f0 t s _ s0 Out Hsim); try done.
  - apply step_runs. eapply (runs_unlock n t c0 p s0 None); [done..|]. by rewrite (co_shared _ _ Hc).
  - intros f0' Hm _ Hag. assert (Harr : arrives t c = []) by (unfold arrives; by rewrite Ep). rewrite Harr.
    destruct (return_moves t f0 f0' Hm) as [[Eg Eq]|[Eg Eq]]; [inversion Hag0; auto|by inversion Hag|..].
    + exists f. rewrite Eq. split_and!; try done; [unfold fjoins; by rewrite Ef, Eg|]. etransitivity; [|symmetry; apply Ll]. congruence.
    + exists (fgoes f t (queue f0') FGone). split.
      { apply fm_one, f_release; congruence. }
      split_and!; try done; [unfold fjoins; by rewrite Ef, Eg|rewrite fgoes_phase; symmetry; apply Ll|]. intros u Hu. by apply fstep_keeps_phases.
Qed.

Lemma np_simulates c f c0 f0 t c' :
  np_sim c f c0 f0 -> step n t c c' -> np_result c f t c'.
Proof.
  intros Hsim Hs. pose proof Hsim as [Hc Hl Hq Hp]. pose proof (co_placed _ _ Hc t) as Hw.
  pose proof (co_phases _ _ Hc t) as Hi. pose proof (sim_agrees _ _ t Hl) as Hag. specialize (Hp t) as Hpt.
  destruct Hs as [c' Hr|Hn Ep|Hn Ep].
  - destruct Hr as [p s r Hn Ep E|p s r Hn Ep E]; rewrite Ep in *; destruct p; simpl in Hw, Hi, Hpt, E; try done.
    + injection E as <- <-. apply (np_stays c f c0 f0 t _ _ FArriving Hsim); try done; rewrite ?Ep; auto. unfold arrives. by rewrite Ep.
    + injection E as <- <-. apply (np_calls c f c0 f0); try done. by rewrite Ep.
    + injection E as <- <-. apply (np_calls c f c0 f0); try done. by rewrite Ep.
    + destruct (lk_step t (shared c).1 p) as [[s' r']|] eqn:Es; [|done]. injection E as <- <-.
      apply (np_follows c f c0 f0 t _ _ s' (locking r') Hsim); try done; rewrite ?Ep; try done; try (by destruct r').
      apply step_runs, (runs_lock n t c0 p); try done. by rewrite (co_shared _ _ Hc).
    + destruct (lk_step t (shared c).1 p) as [[s' [p'|]]|] eqn:Es; [..|done]; injection E as <- <-.
      * apply (np_follows c f c0 f0 t _ _ s' (Unlocking p') Hsim); try done; rewrite ?Ep; try done.
        apply step_runs, (runs_unlock n t c0 p s' (Some p')); try done. by rewrite (co_shared _ _ Hc).
      * by apply (np_returns c f c0 f0 t (s', (shared c).2) p s').
    + injection E as <- <-. rewrite Hi in Hag. inversion Hag as [Eo| | | | |].
      apply (np_stays c f c0 f0 t _ _ FOut Hsim); try done; rewrite ?Ep; try done;
        [right; by apply f_return|unfold arrives; by rewrite Ep|by left].
    + injection E as <- <-. rewrite Hi in Hag. inversion Hag as [Eo| | | | |].
      apply (np_stays c f c0 f0 t _ _ FOut Hsim); try done; rewrite ?Ep; try done;
        [right; by apply f_return|unfold arrives; by rewrite Ep|by left].
  - rewrite Ep in *. simpl in Hi, Hpt. rewrite Hi in Hag. inversion Hag as [Eo| | | | |].
    destruct first_place as (Fi & Fw & Fl). apply (np_stays c f c0 f0 t _ _ FArriving Hsim); try done; rewrite ?Ep; try done;
      [right; apply f_call; congruence|unfold arrives; by rewrite Ep|by left].
  - rewrite Ep in *. simpl in Hi.
    apply (np_follows c f c0 f0 t _ _ (shared c0) (Unlocking lk_unlock) Hsim); try done; rewrite ?Ep; try done.
    + by apply step_unlock.
    + by rewrite (co_shared _ _ Hc).
Qed.

(** Accesses of the lock inside are accesses of the wrapped lock. *)
Lemma runs_lift c c0 c0' : contains c c0 -> some_runs n c0 c0' -> exists c', some_runs n c c' /\ contains c' c0'.
Proof.
  intros Hc [t Hr]. pose proof (co_phases _ _ Hc t) as Hi. pose proof (co_placed _ _ Hc t) as Hw.
  destruct Hr as [p s r Hn Ep E|p s r Hn Ep E]; rewrite Ep in Hi; rewrite (co_shared _ _ Hc) in E.
  - destruct (phases c t) as [|[]| |[]] eqn:Et; try done. injection Hi as <-.
    eexists. split; [exists t; eapply (runs_lock n t c (NpLock p)); [done..|]; simpl; by rewrite E|].
    apply contains_goes; try done; by destruct r.
  - destruct (phases c t) as [|[]| |[]] eqn:Et; try done. injection Hi as <-. destruct last_place as (Li & Lw & _).
    destruct r as [p'|].
    + eexists. split; [exists t; eapply (runs_unlock n t c (NpUnlock p)); [done..|]; simpl; by rewrite E|].
      by apply contains_goes.
    + eexists. split; [exists t; eapply (runs_unlock n t c (NpUnlock p)); [done..|]; simpl; by rewrite E|].
      by apply contains_goes.
Qed.

Lemma runs_lift_all c c0 c0' : contains c c0 -> rtc (some_runs n) c0 c0' -> exists c', rtc (some_runs n) c c' /\ contains c' c0'.
Proof.
  intros Hc Hr. revert c Hc. induction Hr as [|c0 c1 c2 Hs _ IH]; intros c Hc; [by exists c|].
  destruct (runs_lift c c0 c1 Hc Hs) as (c' & Hs' & Hc'). destruct (IH c' Hc') as (c'' & Hr & Hc'').
  exists c''. split; [by eapply rtc_l|done].
Qed.

(** With a thread inside the lock and no owner, there will be one. *)
Lemma np_inside c f c0 f0 t p :
  np_sim c f c0 f0 -> (t < n)%nat -> phases c t = Locking (NpLock p) -> (forall u, phases c u <> In) ->
  exists c' u, rtc (some_runs n) c c' /\ phases c' u = In.
Proof.
  intros [Hc Hl _ _] Hn Ep Hno.
  destruct (sim_progress c0 f0 t p Hl Hn) as (c0' & u & Hr & Hu).
  { by rewrite (co_phases _ _ Hc), Ep. }
  { intros u Hu. rewrite (co_phases _ _ Hc) in Hu. apply (Hno u). by destruct (phases c u) as [|[]| |[]]. }
  destruct (runs_lift_all c c0 c0' Hc Hr) as (c' & Hr' & Hc'). exists c', u. split; [done|].
  rewrite (co_phases _ _ Hc') in Hu. by destruct (phases c' u) as [|[]| |[]].
Qed.

Lemma np_progress c f c0 f0 t p :
  np_sim c f c0 f0 -> (t < n)%nat -> phases c t = Locking p -> (forall u, phases c u <> In) ->
  exists c' u, rtc (some_runs n) c c' /\ phases c' u = In.
Proof.
  assert (Hnext : forall c f c0 f0 p s q, np_sim c f c0 f0 -> (t < n)%nat -> phases c t = Locking p ->
    (forall u, phases c u <> In) -> np_step S m t (shared c) p = Ok (s, Some q) ->
    some_runs n c (goes c t s (Locking q)) /\ (exists g c0' f0', np_sim (goes c t s (Locking q)) g c0' f0') /\
    phases (goes c t s (Locking q)) t = Locking q /\ forall u, phases (goes c t s (Locking q)) u <> In).
  { clear. intros c f c0 f0 p s q Hsim Hn Ep Hno E.
    assert (Hr : runs n t c (goes c t s (Locking q))) by (by apply (runs_lock n t c p s (Some q))).
    split; [by exists t|]. split; [|split].
    - destruct (np_simulates _ _ _ _ _ _ Hsim (step_runs _ _ _ _ Hr)) as (g & _ & _ & c0' & f0' & Hs). by exists g, c0', f0'.
    - simpl. by rewrite fn_lookup_insert.
    - intros u. simpl. destruct (decide (u = t)) as [->|Hne]; rewrite ?fn_lookup_insert, ?fn_lookup_insert_ne by done; done. }
  intros Hsim Hn Ep Hno. pose proof (co_placed _ _ (ns_contains _ _ _ _ Hsim) t) as Hw. rewrite Ep in Hw.
  destruct p; try done.
  - destruct (Hnext _ _ _ _ _ _ _ Hsim Hn Ep Hno eq_refl) as (R1 & (g & c1 & f1 & S1) & P1 & N1).
    destruct (Hnext _ _ _ _ _ _ _ S1 Hn P1 N1 eq_refl) as (R2 & (g' & c2 & f2 & S2) & P2 & N2).
    destruct (np_inside _ _ _ _ _ _ S2 Hn P2 N2) as (c' & u & Hr & Hu). exists c', u. split; [|done]. by do 2 (eapply rtc_l; [done|]).
  - destruct (Hnext _ _ _ _ _ _ _ Hsim Hn Ep Hno eq_refl) as (R1 & (g & c1 & f1 & S1) & P1 & N1).
    destruct (np_inside _ _ _ _ _ _ S1 Hn P1 N1) as (c' & u & Hr & Hu). exists c', u. split; [|done]. by eapply rtc_l.
  - destruct (Hnext _ _ _ _ _ _ _ Hsim Hn Ep Hno eq_refl) as (R1 & (g & c1 & f1 & S1) & P1 & N1).
    destruct (np_inside _ _ _ _ _ _ S1 Hn P1 N1) as (c' & u & Hr & Hu). exists c', u. split; [|done]. by eapply rtc_l.
  - by apply (np_inside c f c0 f0 t p).
Qed.

(** The wrapped lock is a first-come first-served lock. *)
#[export] Instance np_fifo : FifoLock NP n.
Proof.
  refine {| lk_sim c f := exists c0 f0, np_sim c f c0 f0 |}.
  - exists start, fstart. split; [by split|apply sim_start|done..].
  - intros c f t (c0 & f0 & [Hc Hl Hq Hp]). rewrite Hp. pose proof (sim_agrees _ _ t Hl) as Ha.
    rewrite (co_phases _ _ Hc) in Ha. pose proof (co_placed _ _ Hc t) as Hw.
    destruct (phases c t) as [|[]| |[]]; simpl in *; try done; auto with pgm; inversion Ha; auto with pgm.
  - intros c f t c' (c0 & f0 & Hsim) Hs. by eapply np_simulates.
  - intros c f t p e (c0 & f0 & [Hc Hl _ _]) Hp E. pose proof (co_phases _ _ Hc t) as Hi. pose proof (co_placed _ _ Hc t) as Hw.
    destruct Hp as [Hp|Hp]; rewrite Hp in Hi, Hw; destruct p; simpl in *; try done.
    + destruct (lk_step t (shared c).1 p) as [[]|e'] eqn:Es; [done|]. rewrite <- (co_shared _ _ Hc) in Es.
      by apply (sim_no_fault c0 f0 t p e') in Es; auto.
    + destruct (lk_step t (shared c).1 p) as [[s [|]]|e'] eqn:Es; [done..|]. rewrite <- (co_shared _ _ Hc) in Es.
      by apply (sim_no_fault c0 f0 t p e') in Es; auto.
  - intros c f t p (c0 & f0 & Hsim). by eapply np_progress.
Defined.

(** ** Preemption *)

(** Inside the lock the thread cannot be preempted. *)
Definition non_preemptive (v : cpu) : bool :=
  match m with Interrupts => negb (Z.testbit (eflags v) 9) | Litmus => np_section (page v) end.

(** Between becoming non-preemptive and becoming preemptive again. *)
Definition inside (ph : phase (np_pc (@lk_pc S))) : bool :=
  match ph with Locking (NpLock _) | In | Unlocking _ => true | _ => false end.

(** What is known of a thread's processor. *)
Record cpu_ok (t : tid) (ph : phase (np_pc (@lk_pc S))) (v : cpu) : Prop := {
  ok_flags : eflags v = if inside ph then match m with Interrupts => cli (flags0 t) | Litmus => flags0 t end else flags0 t;
  ok_page : page v = if inside ph then match m with Interrupts => np_idle | Litmus => enter_np np_idle end else np_idle;
  ok_saved : m = Interrupts -> inside ph = true \/ ph = Locking NpCli -> saved v = flags0 t;
  ok_place : match ph with
             | Locking NpEnter | Unlocking NpExit => m = Litmus
             | Locking (NpSave | NpCli) | Unlocking NpRestore => m = Interrupts
             | _ => well_placed ph
             end
}.

Lemma cpu_moves t ph s s' r :
  cpu_ok t ph (s.2 t) ->
  (forall p, ph = Locking p -> np_step S m t s p = Ok (s', r) -> cpu_ok t (locking (H := NP) r) (s'.2 t)) /\
  (forall p, ph = Unlocking p -> np_step S m t s p = Ok (s', r) -> cpu_ok t (unlocking (H := NP) r) (s'.2 t)).
Proof.
  intros [Hf Hs Hv Hp]. split; intros p -> E; destruct p; simpl in *; try done.
  - injection E as <- <-. split; simpl; rewrite ?fn_lookup_insert; try done.
  - injection E as <- <-. split; simpl; rewrite ?fn_lookup_insert; simpl; try done.
    + by rewrite Hf, Hp.
    + by rewrite Hs, Hp.
    + intros _ _. apply Hv; auto.
  - injection E as <- <-. split; simpl; rewrite ?fn_lookup_insert; simpl; try done.
    + by rewrite Hf, Hp.
    + by rewrite Hs, Hp.
    + by rewrite Hp.
  - destruct (lk_step t s.1 p) as [[s0 r0]|]; [|done]. injection E as <- <-. destruct r0; split; simpl; try done; intros; apply Hv; auto.
  - destruct (lk_step t s.1 p) as [[s0 [p'|]]|]; [..|done]; injection E as <- <-; split; simpl; try done; try (intros; apply Hv; auto).
    unfold np_last. by destruct m.
  - injection E as <- <-. split; simpl; rewrite ?fn_lookup_insert; simpl; try done.
    + by apply Hv; auto.
    + by rewrite Hs, Hp.
    + intros _ [?|?]; done.
  - injection E as <- <-. split; simpl; rewrite ?fn_lookup_insert; simpl; try done.
    + by rewrite Hf, Hp.
    + by rewrite Hs, Hp, exit_law.
    + by rewrite Hp.
Qed.

(** A thread's access leaves the others' processors alone. *)
Lemma cpu_other t s p s' r u : np_step S m t s p = Ok (s', r) -> u <> t -> s'.2 u = s.2 u.
Proof.
  intros E Hu. destruct p; simpl in E; try (injection E as <- <-; simpl; by rewrite fn_lookup_insert_ne).
  - destruct (lk_step t s.1 p) as [[s0 r0]|]; [|done]. by injection E as <- <-.
  - destruct (lk_step t s.1 p) as [[s0 [p'|]]|]; [..|done]; by injection E as <- <-.
Qed.

Definition cpus_ok (c : @conf NP) : Prop := forall t, cpu_ok t (phases c t) ((shared c).2 t).

Lemma cpus_step c t c' : cpus_ok c -> step n t c c' -> cpus_ok c'.
Proof.
  intros Hok Hs u. destruct (decide (u = t)) as [->|Hne].
  - specialize (Hok t). destruct Hs as [c' Hr|Hn Ep|Hn Ep].
    + destruct Hr as [p s r Hn Ep E|p s r Hn Ep E]; simpl; rewrite fn_lookup_insert;
        destruct (cpu_moves t _ (shared c) s r Hok) as [H1 H2]; eauto.
    + simpl. rewrite fn_lookup_insert. rewrite Ep in Hok. destruct Hok as [Hf Hs Hv Hp].
      split; simpl in *; try done; destruct m; try done; intros _ [?|?]; done.
    + simpl. rewrite fn_lookup_insert. rewrite Ep in Hok. destruct Hok as [Hf Hs Hv Hp].
      split; simpl in *; try done. intros; apply Hv; auto.
  - rewrite (step_other n t c c' u Hs Hne). replace ((shared c').2 u) with ((shared c).2 u); [done|].
    destruct Hs as [c' Hr|Hn Ep|Hn Ep]; try done.
    destruct Hr as [p s r Hn Ep E|p s r Hn Ep E]; symmetry; exact (cpu_other t (shared c) p s r u E Hne).
Qed.

Lemma cpus_reachable c : rtc (some_step n) start c -> cpus_ok c.
Proof.
  intros Hr. assert (H0 : cpus_ok start) by (intros t; split; simpl; try done; by intros _ [?|?]).
  revert H0. generalize (@start NP) as c1, Hr. clear Hr. intros c1 Hr H0.
  induction Hr as [|c1 c2 c3 [t Hs] _ IH]; [done|]. by apply IH, (cpus_step c1 t).
Qed.

End Proofs.

(** ** Theorems *)

(** C6. The non-preemptive variant of any first-come first-served spinlock, by
    interrupts or by LITMUS^RT sections, is a first-come first-served lock too: in any
    interleaving threads get it in exactly the order in which they passed the doorway
    of the lock inside, one at a time, without a fault, and while a thread wants it and
    nobody owns it, the calls under way can be run until somebody does.  And a thread
    cannot be preempted from before it asks for the lock inside until after it gave it
    back (so no thread spins behind one that was preempted), and a thread outside has
    the processor flags it came with, whatever they were, and an untouched control
    page. *)
Theorem np_lock_is_fifo `{X : Litmus_np} `{!LitmusLaws X} (S : SpinLock) n (L : FifoLock S n) m flags0
    arrived served (c : @conf (np_lock S m flags0)) :
  history n arrived served c ->
  ((exists waiting, arrived = served ++ waiting /\ NoDup waiting /\
      forall t, t ∈ waiting -> exists p, phases c t = Locking p) /\
   (forall t u, phases c t = In -> phases c u = In -> t = u) /\
   (forall t p e, phases c t = Locking p \/ phases c t = Unlocking p -> lk_step t (shared c) p <> Fault e) /\
   (forall t p, (t < n)%nat -> phases c t = Locking p -> (forall u, phases c u <> In) ->
      exists c' u, rtc (some_runs n) c c' /\ phases c' u = In)) /\
  (forall t, inside (phases c t) = true -> non_preemptive m ((shared c).2 t) = true) /\
  (forall t, phases c t = Out -> eflags ((shared c).2 t) = flags0 t /\ page ((shared c).2 t) = np_idle).
Proof.
  intros Hh. pose proof (history_reachable _ _ _ Hh) as Hr.
  split; [by apply (lock_promises arrived served)|]. pose proof (cpus_reachable n m flags0 c Hr) as Hok. split; intros t Ht.
  - destruct (Hok t) as [Hf Hs _ _]. rewrite Ht in Hf, Hs. unfold non_preemptive. destruct m.
    + rewrite Hf. unfold cli. by rewrite Z.clearbit_eq.
    + rewrite Hs. apply enter_law.
  - destruct (Hok t) as [Hf Hs _ _]. rewrite Ht in Hf, Hs. done.
Qed.

(** [cv_wait_np] is [cv_wait] with the wrapped lock. *)
Definition np_cvruns `{Litmus_np} (S : SpinLock) (m : np_method) (flags0 : tid -> Z) :=
  @CondVar.cvruns (np_lock S m flags0).

Lemma np_condition_variable `{X : Litmus_np} `{!LitmusLaws X} (S : SpinLock) n (L : FifoLock S n) m flags0 cm k log c :
  Z.of_nat n < 2 ^ 31 -> np_cvruns S m flags0 n cm k log c -> k < 2 ^ 32 ->
  (exists s, CondVar.mruns log s /\ forall t, CondVar.pcs c t = CondVar.CvAsleep -> s t = CondVar.MAsleep) /\
  (forall l, NoDup l -> (forall t, t ∈ l -> CondVar.pcs c t = CondVar.CvAsleep) ->
     (length l <= CondVar.unsignalled log)%nat).
Proof.
  intros Hn Hr Hk.
  destruct (CondVar.cv_promises _ n (np_fifo n m flags0) cm k log c Hn Hr Hk) as (_ & (s & Hs & Ha & _) & Hl).
  split; [by exists s|done].
Qed.

(** The sections a thread is in, for concrete runs. *)
#[local] Instance nested_np : Litmus_np := {|
  np_page := list unit; np_idle := []; enter_np := cons tt; exit_np l := List.tl l; np_section l := negb (List.length l =? 0)%nat
|}.

#[local] Instance nested_laws : LitmusLaws nested_np.
Proof. by split. Qed.

(** A ticket lock with interrupts disabled: thread 0 owns it, thread 1 waits. *)
Ltac forward t R tac := eapply (h_step _ _ _ _ t) in R; [|tac]; simpl in R.

Lemma np_demo_history :
  exists c : @conf (np_lock TicketLock.ticketlock Interrupts (fun _ => 0x202)),
    history 2 [0; 1]%nat [0%nat] c /\ phases c 0%nat = In /\
    phases c 1%nat = Locking (NpLock (TicketLock.TlSpin 1)).
Proof.
  pose proof (h_start (H := np_lock TicketLock.ticketlock Interrupts (fun _ => 0x202)) 2) as R.
  forward 0%nat R ltac:(apply step_lock; [lia|reflexivity]).
  do 3 forward 0%nat R ltac:(apply step_runs; eapply runs_lock; [lia|reflexivity..]).
  forward 1%nat R ltac:(apply step_lock; [lia|reflexivity]).
  do 3 forward 1%nat R ltac:(apply step_runs; eapply runs_lock; [lia|reflexivity..]).
  eexists. split; [exact R|]. split; reflexivity.
Qed.

Lemma np_lock_is_fifo_witness :
  exists c : @conf (np_lock TicketLock.ticketlock Interrupts (fun _ => 0x202)),
    history 2 [0; 1]%nat [0%nat] c /\ phases c 0%nat = In /\
    non_preemptive Interrupts ((shared c).2 0%nat) = true /\
    non_preemptive Interrupts ((shared c).2 1%nat) = true.
Proof.
  destruct np_demo_history as (c & Hh & H0 & H1). exists c. split; [exact Hh|]. split; [exact H0|].
  destruct (np_lock_is_fifo TicketLock.ticketlock 2 (TicketLock.ticketlock_fifo 2 ltac:(lia)) Interrupts _ _ _ c Hh)
    as (_ & Hn & _).
  split; apply Hn; [by rewrite H0|by rewrite H1].
Defined.

End NonPreempt.
