(* ===== verification/Config.v ===== *)
(** * The choices of config.h, and the lock they give (include/config.h,
    include/spinlock.h, the lock macros of src/pgm.cpp)

    config.h checks its settings and turns them into the macros the rest is compiled
    with; spinlock.h and pgm.cpp pick the lock by them.  Every configuration that
    compiles with the runtime's own locks has a first-come first-served lock. *)

From S2P Require Import Prelude Lock TicketLock QueueLock NonPreempt.
From Stdlib Require Import String.

Module Config.
Import Lock NonPreempt.
#[local] Open Scope Z_scope.

(** What can be chosen. *)
Record settings := Settings {
  PGM_SYNC_METHOD : Z;
  PGM_SPINLOCK_TYPE : Z;
  PGM_NP_METHOD : Z;
  PGM_ALLOW_P_SPIN : bool;
  PGM_SYNC_SCOPE : Z
}.

(** The file as it is, with and without [_USE_LITMUS]. *)
Definition config_h (use_litmus : bool) : settings :=
  Settings (if use_litmus then 1 else 0) 0 (if use_litmus then 2 else 0) false 0.

(** PGM_USE_PTHREAD_SYNC or PGM_USE_PGM_SYNC with its spinlock; PGM_PREEMPTIVE or a
    method; PGM_PRIVATE or PGM_SHARED. *)
Inductive sync := PthreadSync | PgmSync (queue : bool).
Inductive scope := Private | Shared.

Record config := Configured { c_sync : sync; c_np : option np_method; c_scope : scope }.

(** The [#error]s, in their order, and the macros. *)
Definition configure (s : settings) : string + config :=
  let m := PGM_SYNC_METHOD s in
  let np := PGM_NP_METHOD s in
  if (m =? 0) && negb (np =? 0) then inl "Cannot disable interrupts using pthread synchronization."%string
  else if (m =? 1) && (np =? 0) && negb (PGM_ALLOW_P_SPIN s) then inl "Spinlocks are unsafe without non-preemption."%string
  else if negb ((m =? 0) || (m =? 1)) then inl "Unknown synchronization method selected."%string
  else if negb ((np =? 0) || (np =? 1) || (np =? 2)) then inl "Unknown non-preemption method."%string
  else if negb ((PGM_SYNC_SCOPE s =? 0) || (PGM_SYNC_SCOPE s =? 1)) then inl "Unknown synchronization scope."%string
  else if (m =? 1) && negb ((PGM_SPINLOCK_TYPE s =? 0) || (PGM_SPINLOCK_TYPE s =? 1))
  then inl "Unknown spinlock configuration!"%string
  else inr (Configured (if m =? 0 then PthreadSync else PgmSync (PGM_SPINLOCK_TYPE s =? 1))
              (if np =? 0 then None else Some (if np =? 1 then Interrupts else Litmus))
              (if PGM_SYNC_SCOPE s =? 0 then Private else Shared)).

(** [spinlock_t] *)
Definition spinlock (queue : bool) : SpinLock := if queue then QueueLock.queuelock else TicketLock.ticketlock.

(** [pgm_lock_t] with [pgm_lock] and [pgm_unlock]; [None] for a mutex of pthreads. *)
Definition pgm_lock_t `{Litmus_np} (flags0 : tid -> Z) (c : config) : option SpinLock :=
  match c_sync c with
  | PthreadSync => None
  | PgmSync queue =>
      Some (match c_np c with None => spinlock queue | Some m => np_lock (spinlock queue) m flags0 end)
  end.

(** The configurations of the file. *)
Lemma config_h_builds :
  configure (config_h false) = inr (Configured PthreadSync None Private) /\
  configure (config_h true) = inr (Configured (PgmSync false) (Some Litmus) Private).
Proof. done. Qed.

(** What compiles can be used: pthreads preemptively only, spinlocks preemptively only
    on request. *)
Lemma configure_sound s c : configure s = inr c ->
  (c_sync c = PthreadSync -> c_np c = None) /\
  (forall q, c_sync c = PgmSync q -> c_np c = None -> PGM_ALLOW_P_SPIN s = true).
Proof.
  unfold configure. intros E.
  destruct (Z.eqb_spec (PGM_SYNC_METHOD s) 0) as [E0|E0], (Z.eqb_spec (PGM_NP_METHOD s) 0) as [N0|N0];
    destruct (Z.eqb_spec (PGM_SYNC_METHOD s) 1) as [E1|E1]; simpl in E; try lia; try done;
    repeat match type of E with context [if ?b then _ else _] => destruct b eqn:?; simpl in E; try done end;
    injection E as <-; simpl; split; try done; by destruct (PGM_ALLOW_P_SPIN s).
Qed.

Section Locks.
Context `{X : Litmus_np} `{!LitmusLaws X} (n : nat) (few : Z.of_nat n <= 2 ^ 32).

Definition spinlock_fifo (queue : bool) : FifoLock (spinlock queue) n :=
  match queue with true => QueueLock.queuelock_fifo n | false => TicketLock.ticketlock_fifo n few end.

(** Every configuration with the runtime's own locks has a first-come first-served
    lock. *)
Lemma configured_lock_promises cfg flags0 S arrived served (c : @conf S) :
  pgm_lock_t flags0 cfg = Some S -> history n arrived served c ->
  served `prefix_of` arrived /\
  (forall t u, phases c t = In -> phases c u = In -> t = u) /\
  (forall t p, (t < n)%nat -> phases c t = Locking p -> (forall u, phases c u <> In) ->
     exists c' u, rtc (some_runs n) c c' /\ phases c' u = In).
Proof.
  intros E Hr. unfold pgm_lock_t in E. destruct (c_sync cfg) as [|queue]; [done|].
  pose proof (spinlock_fifo queue) as L. injection E as <-.
  destruct (c_np cfg) as [m|]; destruct (lock_promises (n := n) _ _ c Hr) as ((w & -> & _) & ? & _ & ?);
    split_and!; auto; by exists w.
Qed.

End Locks.

End Config.
