(* ===== verification/Ring.v ===== *)
(** * The ring buffer (include/ring.h) *)

From S2P Require Import Prelude.

Module Ring.

(** [slot_state_t] *)
Definition SLOT_FREE : Z := 0.
Definition SLOT_READY : Z := 1.

(** [struct ring].  [slots] and [buf] are [None] when the allocation that
    should have produced them failed: the code does not test for it. *)
Record ring := MkRing {
  nmemb : Z;
  memb_sz : Z;
  nfree : Z;
  widx : Z;
  ridx : Z;
  slots : option block;
  buf : option block;
  user_managed_buffers : bool
}.

#[global] Instance ring_eta : Eta ring := fun r =>
  MkRing (nmemb r) (memb_sz r) (nfree r) (widx r) (ridx r) (slots r) (buf r)
    (user_managed_buffers r).

#[global] Instance Zeroed_ring : Zeroed ring := MkRing 0 0 0 0 0 None None false.

(** The C library's allocator. *)
Record allocator := { malloc : Z -> option block; calloc : Z -> option block }.

(** [count] of [init_ring]: [min_count] rounded up to a power of two. *)
Definition round_count (min_count : Z) : outcome Z :=
  if 2 <? min_count
  then lz ← clzl (min_count - 1);
       shr64 (Z.ldiff (Z.ones 64) (Z.shiftr (Z.ones 64) 1)) (lz - 1)
  else mret min_count.

Definition init_ring (al : allocator) (r : option ring) (min_count size : Z)
    : outcome (Z * option ring) :=
  match r with
  | None => mret (-1, r)
  | Some _ =>
      if (min_count =? 0) || (size =? 0) then mret (-1, r)
      else
        count ← round_count min_count;
        if count =? 0 then mret (-1, r)
        else mret (0, Some {|
               nmemb := count; memb_sz := size; nfree := count; widx := 0; ridx := 0;
               slots := calloc al count;
               buf := malloc al (wrap64 (count * size));
               user_managed_buffers := false |})
  end.

(** [__init_ring]: the caller provides both buffers; the first [count] slots
    are cleared. *)
Definition init_ring_user (count size : Z) (slot_buf data_buf : option block)
    : outcome ring :=
  sb ← deref slot_buf;
  sb' ← block_write sb 0 (replicate (Z.to_nat count) SLOT_FREE);
  mret {| nmemb := count; memb_sz := size; nfree := count; widx := 0; ridx := 0;
          slots := Some sb'; buf := data_buf; user_managed_buffers := true |}.

(** [free_ring]: which of the two buffers are handed to [free]. *)
Definition free_ring (r : option ring) : list (option block) :=
  match r with
  | None => []
  | Some r => if user_managed_buffers r then [] else [slots r; buf r]
  end.

Definition is_ring_empty (r : ring) : bool := nfree r =? nmemb r.
Definition is_ring_full (r : ring) : bool := nfree r =? 0.

(** The address [r->buf + idx * r->memb_sz], as an offset into [buf]; [None]
    when it is the null pointer. *)
Definition slot_addr (r : ring) (idx : Z) : option Z :=
  let off := wrap64 (idx * memb_sz r) in
  match buf r with
  | None => if off =? 0 then None else Some off
  | Some _ => Some off
  end.

Definition slot_index (r : ring) (addr : Z) : outcome Z := udiv addr (memb_sz r).

Definition slots_set (r : ring) (idx v : Z) : outcome ring :=
  sb ← deref (slots r);
  sb' ← block_set sb idx v;
  mret (r <| slots := Some sb' |>).

(** *** The single accesses the routines below are made of *)

(** [idx = r->widx++ % r->nmemb; dst = r->buf + idx*r->memb_sz] *)
Definition claim_slot (r : ring) : outcome (option Z * ring) :=
  idx ← umod (widx r) (nmemb r);
  mret (slot_addr r idx, r <| widx := wrap64 (widx r + 1) |>).

(** [idx = (addr - r->buf) / r->memb_sz; r->slots[idx] = v] *)
Definition mark_slot (r : ring) (addr v : Z) : outcome ring :=
  idx ← slot_index r addr;
  slots_set r idx v.

Definition sub_nfree (r : ring) : ring := r <| nfree := wrap64 (nfree r - 1) |>.
Definition add_nfree (r : ring) : ring := r <| nfree := wrap64 (nfree r + 1) |>.

(** [idx = r->ridx % r->nmemb], then the slot's address if it is ready. *)
Definition ready_slot (r : ring) : outcome (option Z) :=
  idx ← umod (ridx r) (nmemb r);
  sb ← deref (slots r);
  st ← block_get sb idx;
  mret (if st =? SLOT_READY then slot_addr r idx else None).

Definition bump_ridx (r : ring) : ring := r <| ridx := wrap64 (ridx r + 1) |>.

(** [memcpy(__dst, src, sz)] and [memcpy(dst, __src, sz)] *)
Definition copy_in (r : ring) (addr : Z) (src : list Z) : outcome ring :=
  b ← deref (buf r);
  b' ← block_write b addr src;
  mret (r <| buf := Some b' |>).

Definition copy_out (r : ring) (addr sz : Z) : outcome (list Z) :=
  b ← deref (buf r);
  block_read b addr sz.

(** *** Multi-writer variants *)

Definition begin_mwrite_ring (r : ring) : outcome (option Z * ring) :=
  if nfree r <=? 0 then mret (None, r)
  else
    let old := signed 64 (nfree r) in
    let r := sub_nfree r in
    if old <=? 0 then mret (None, add_nfree r)
    else claim_slot r.

Definition end_mwrite_ring (r : ring) (addr : Z) : outcome ring :=
  mark_slot r addr SLOT_READY.

(** *** Single-writer variants *)

Definition begin_write_ring (r : ring) : outcome (option Z * ring) :=
  if nfree r <=? 0 then mret (None, r) else claim_slot r.

Definition end_write_ring (r : ring) (addr : Z) : outcome ring :=
  r' ← mark_slot r addr SLOT_READY;
  mret (sub_nfree r').

(** *** Single-reader variants *)

Definition begin_read_ring (r : ring) : outcome (option Z) :=
  if nfree r =? nmemb r then mret None else ready_slot r.

Definition end_read_ring (r : ring) (addr : Z) : outcome ring :=
  r' ← mark_slot r addr SLOT_FREE;
  mret (add_nfree (bump_ridx r')).

(** *** The enqueue and dequeue macros

    Each spins on its [begin] routine until that returns an address.  Run by a
    thread alone, a [begin] routine that returns null leaves the ring as it
    was, so the spin never ends: the result is then [None]. *)

Definition write_vec_ring (r : ring) (src : list Z) : outcome (option ring) :=
  dr ← begin_write_ring r;
  match dr with
  | (None, _) => mret None
  | (Some dst, r) =>
      r ← copy_in r dst src;
      r ← end_write_ring r dst;
      mret (Some r)
  end.

Definition mwrite_vec_ring (r : ring) (src : list Z) : outcome (option ring) :=
  dr ← begin_mwrite_ring r;
  match dr with
  | (None, _) => mret None
  | (Some dst, r) =>
      r ← copy_in r dst src;
      r ← end_mwrite_ring r dst;
      mret (Some r)
  end.

Definition read_vec_ring (r : ring) (sz : Z) : outcome (option (list Z * ring)) :=
  src ← begin_read_ring r;
  match src with
  | None => mret None
  | Some addr =>
      bs ← copy_out r addr sz;
      r ← end_read_ring r addr;
      mret (Some (bs, r))
  end.

(** [write_ring], [mwrite_ring] and [read_ring] assign one value of the
    element type: the bytes of a [sz]-byte value are copied as a vector of
    that many bytes is. *)
Definition write_ring := write_vec_ring.
Definition mwrite_ring := mwrite_vec_ring.
Definition read_ring := read_vec_ring.

(** ** Rounding up to a power of two *)

Lemma round_count_small (c : Z) :
  0 < c <= 2 ^ 63 -> round_count c = Ok (2 ^ Z.log2_up c).
Proof.
  intros Hc. unfold round_count. destruct (2 <? c) eqn:E; bool_to_prop.
  - unfold clzl. replace (c - 1 =? 0) with false by (symmetry; apply Z.eqb_neq; lia).
    simpl_outcome. unfold shr64.
    assert (Hl : Z.log2_up c = Z.log2 (c - 1) + 1).
    { unfold Z.log2_up. destruct (Z.compare_spec 1 c); try lia. by rewrite <- Z.sub_1_r. }
    assert (0 <= Z.log2 (c - 1) <= 62).
    { split; [apply Z.log2_nonneg|]. enough (Z.log2 (c - 1) < 63) by lia.
      apply Z.log2_lt_pow2; lia. }
    rewrite in_range_true by lia. f_equal.
    replace 9223372036854775808
      with (2 ^ (Z.log2 (c - 1) + 1) * 2 ^ (63 - Z.log2 (c - 1) - 1)).
    + rewrite Z.shiftr_div_pow2, Hl by lia. apply Z.div_mul. apply Z.pow_nonzero; lia.
    + rewrite <- Z.pow_add_r by lia.
      by replace (Z.log2 (c - 1) + 1 + (63 - Z.log2 (c - 1) - 1)) with 63 by lia.
  - assert (c = 1 \/ c = 2) as [->| ->] by lia; reflexivity.
Qed.

Lemma round_count_huge (c : Z) :
  2 ^ 63 < c < 2 ^ 64 -> round_count c = Fault BadShift.
Proof.
  intros Hc. unfold round_count. replace (2 <? c) with true by (symmetry; apply Z.ltb_lt; lia).
  unfold clzl. replace (c - 1 =? 0) with false by (symmetry; apply Z.eqb_neq; lia).
  assert (Z.log2 (c - 1) = 63) as -> by (apply Z.log2_unique; lia). reflexivity.
Qed.

(** ** Shape of a ring and its slots

    [slot_state r i] and [slot_data r i] are the state and the element of slot
    [i]; [shape] is what [init_ring] establishes and no operation changes. *)

Definition slot_state (r : ring) (i : Z) : Z :=
  match slots r with Some sb => byte_at sb i | None => 0 end.

Definition slot_data (r : ring) (i : Z) : list Z :=
  match buf r with Some b => bytes_at b (i * memb_sz r) (memb_sz r) | None => [] end.

Record shape (r : ring) : Prop := {
  sh_pow2 : exists k, 0 <= k <= 63 /\ nmemb r = 2 ^ k;
  sh_memb_sz : 0 < memb_sz r;
  sh_bytes : nmemb r * memb_sz r < 2 ^ 64;
  sh_slots : exists sb, slots r = Some sb /\ b_size sb = nmemb r;
  sh_buf : exists b, buf r = Some b /\ b_size b = nmemb r * memb_sz r
}.

(** Everything but the slots and the buffer is unchanged. *)
Definition same_ctl (r r' : ring) : Prop :=
  nmemb r' = nmemb r /\ memb_sz r' = memb_sz r /\ nfree r' = nfree r /\
  widx r' = widx r /\ ridx r' = ridx r.

Lemma shape_nmemb_pos r : shape r -> 0 < nmemb r.
Proof. intros [(k & Hk & ->) _ _ _ _]. apply Z.pow_pos_nonneg; lia. Qed.

Lemma shape_divides r : shape r -> (nmemb r | 2 ^ 64).
Proof.
  intros [(k & Hk & ->) _ _ _ _]. exists (2 ^ (64 - k)).
  rewrite <- Z.pow_add_r by lia. f_equal. lia.
Qed.

Lemma shape_slot_addr r i :
  shape r -> 0 <= i < nmemb r -> slot_addr r i = Some (i * memb_sz r).
Proof.
  intros Hs Hi. destruct (sh_buf r Hs) as (b & Hb & _). unfold slot_addr. rewrite Hb.
  f_equal. unfold wrap64. apply Z.mod_small.
  pose proof (sh_bytes r Hs). pose proof (sh_memb_sz r Hs). nia.
Qed.

Lemma shape_slot_index r i : shape r -> slot_index r (i * memb_sz r) = Ok i.
Proof.
  intros Hs. pose proof (sh_memb_sz r Hs). unfold slot_index, udiv.
  replace (memb_sz r =? 0) with false by (symmetry; apply Z.eqb_neq; lia).
  f_equal. apply Z.div_mul. lia.
Qed.

Lemma mark_slot_spec r i v :
  shape r -> 0 <= i < nmemb r ->
  exists r', mark_slot r (i * memb_sz r) v = Ok r' /\ shape r' /\ same_ctl r r' /\
    (forall j, slot_state r' j = if decide (i = j) then v else slot_state r j) /\
    (forall j, slot_data r' j = slot_data r j).
Proof.
  intros Hs Hi. unfold mark_slot. rewrite (shape_slot_index r i Hs). simpl_outcome.
  destruct (sh_slots r Hs) as (sb & Hsb & Hsz).
  unfold slots_set. rewrite Hsb. simpl_outcome. unfold block_set.
  rewrite aset_ok by lia. simpl_outcome. eexists. split; [done|]. split; [|split; [|split]].
  - destruct Hs. constructor; simpl; eauto.
  - done.
  - intros j. unfold slot_state, byte_at. simpl. rewrite Hsb, cell_insert. done.
  - done.
Qed.

Lemma copy_in_spec r i src :
  shape r -> 0 <= i < nmemb r -> Z.of_nat (List.length src) = memb_sz r ->
  exists r', copy_in r (i * memb_sz r) src = Ok r' /\ shape r' /\ same_ctl r r' /\
    (forall j, slot_state r' j = slot_state r j) /\
    (forall j, slot_data r' j = if decide (i = j) then src else slot_data r j).
Proof.
  intros Hs Hi Hlen. destruct (sh_buf r Hs) as (b & Hb & Hsz).
  pose proof (sh_memb_sz r Hs) as Hpos.
  unfold copy_in. rewrite Hb. simpl_outcome. unfold block_write. rewrite Hlen, Hsz.
  replace ((0 <=? i * memb_sz r) && (i * memb_sz r + memb_sz r <=? nmemb r * memb_sz r))
    with true by (symmetry; apply andb_true_iff; split; apply Z.leb_le; nia).
  simpl_outcome. eexists. split; [done|]. split; [|split; [|split]].
  - destruct Hs. constructor; simpl; eauto.
  - done.
  - done.
  - intros j. unfold slot_data. rewrite Hb. simpl. unfold set_field.
    case_decide; [subst; by apply bytes_at_store_same|].
    rewrite bytes_at_store_disjoint by (rewrite Hlen; nia). done.
Qed.

Lemma copy_out_spec r i :
  shape r -> 0 <= i < nmemb r -> copy_out r (i * memb_sz r) (memb_sz r) = Ok (slot_data r i).
Proof.
  intros Hs Hi. destruct (sh_buf r Hs) as (b & Hb & Hsz).
  pose proof (sh_memb_sz r Hs). unfold copy_out, slot_data. rewrite Hb. simpl_outcome.
  unfold block_read. rewrite Hsz.
  by replace ((0 <=? i * memb_sz r) && (i * memb_sz r + memb_sz r <=? nmemb r * memb_sz r))
    with true by (symmetry; apply andb_true_iff; split; apply Z.leb_le; nia).
Qed.

Lemma shape_upd r (f w d : Z) :
  shape r ->
  shape (r <| widx := w |>) /\ shape (r <| nfree := f |>) /\ shape (r <| ridx := d |>).
Proof. intros []. split; [|split]; constructor; simpl; eauto. Qed.

Lemma shape_set_widx r w : shape r -> shape (r <| widx := w |>).
Proof. intros Hs. apply (shape_upd r 0 w 0 Hs). Qed.
Lemma shape_set_nfree r f : shape r -> shape (r <| nfree := f |>).
Proof. intros Hs. apply (shape_upd r f 0 0 Hs). Qed.
Lemma shape_set_ridx r d : shape r -> shape (r <| ridx := d |>).
Proof. intros Hs. apply (shape_upd r 0 0 d Hs). Qed.

Lemma umod_ok x y : 0 < y -> umod x y = Ok (x mod y).
Proof. intros. unfold umod. by replace (y =? 0) with false by (symmetry; apply Z.eqb_neq; lia). Qed.

Lemma claim_slot_spec r :
  shape r ->
  claim_slot r = Ok (Some (widx r mod nmemb r * memb_sz r), r <| widx := wrap64 (widx r + 1) |>).
Proof.
  intros Hs. pose proof (shape_nmemb_pos r Hs). unfold claim_slot.
  rewrite umod_ok by lia. simpl_outcome.
  rewrite shape_slot_addr by (auto using Z.mod_pos_bound). done.
Qed.

Lemma ready_slot_spec r :
  shape r ->
  ready_slot r = Ok (if slot_state r (ridx r mod nmemb r) =? SLOT_READY
                     then Some (ridx r mod nmemb r * memb_sz r) else None).
Proof.
  intros Hs. pose proof (shape_nmemb_pos r Hs).
  pose proof (Z.mod_pos_bound (ridx r) (nmemb r)).
  destruct (sh_slots r Hs) as (sb & Hsb & Hsz). unfold ready_slot, slot_state.
  rewrite umod_ok, Hsb by lia. simpl_outcome. unfold block_get. rewrite aget_ok by lia.
  simpl_outcome. rewrite shape_slot_addr by (auto; lia). done.
Qed.

(** ** Refinement: the ring is a bounded FIFO queue

    [queue r q]: ring [r] holds the elements [q], oldest first. *)

Record queue (r : ring) (q : list (list Z)) : Prop := {
  q_shape : shape r;
  q_nfree : 0 <= nfree r;
  q_length : Z.of_nat (List.length q) = nmemb r - nfree r;
  q_widx : widx r = wrap64 (ridx r + Z.of_nat (List.length q));
  q_full : forall k x, q !! k = Some x ->
    slot_state r ((ridx r + Z.of_nat k) mod nmemb r) = SLOT_READY /\
    slot_data r ((ridx r + Z.of_nat k) mod nmemb r) = x;
  q_empty : forall k, Z.of_nat (List.length q) <= k < nmemb r ->
    slot_state r ((ridx r + k) mod nmemb r) = SLOT_FREE
}.

Lemma queue_widx_slot r q :
  queue r q -> widx r mod nmemb r = (ridx r + Z.of_nat (List.length q)) mod nmemb r.
Proof.
  intros Hq. rewrite (q_widx r q Hq). unfold wrap64.
  pose proof (shape_nmemb_pos r (q_shape r q Hq)).
  apply mod_mod_divide; [lia|]. apply shape_divides. apply Hq.
Qed.

(** Two offsets from the same base that differ by less than the size of the
    ring name different slots. *)
Lemma slots_differ (base a b n : Z) :
  0 <= a < n -> 0 <= b < n -> a <> b -> (base + a) mod n <> (base + b) mod n.
Proof. intros Ha Hb Hne Heq. apply mod_eq_close in Heq; lia. Qed.

Lemma queue_size_bound r q : queue r q -> 0 <= nfree r <= nmemb r /\ nmemb r < 2 ^ 64.
Proof.
  intros Hq. pose proof (q_nfree r q Hq). pose proof (q_length r q Hq).
  pose proof (sh_bytes r (q_shape r q Hq)). pose proof (sh_memb_sz r (q_shape r q Hq)).
  nia.
Qed.

(** The effect a completed write has on the ring turns [q] into [q ++ [src]]... *)
Lemma queue_push r q r' src :
  queue r q -> 0 < nfree r -> shape r' ->
  nmemb r' = nmemb r -> nfree r' = nfree r - 1 ->
  widx r' = wrap64 (widx r + 1) -> ridx r' = ridx r ->
  (forall j, slot_state r' j =
     if decide (widx r mod nmemb r = j) then SLOT_READY else slot_state r j) ->
  (forall j, slot_data r' j =
     if decide (widx r mod nmemb r = j) then src else slot_data r j) ->
  queue r' (q ++ [src]).
Proof.
  intros Hq Hf Hs' Hn Hf' Hw Hr Hst Hda. pose proof (q_length r q Hq) as Hl.
  remember (widx r mod nmemb r) as i eqn:Hi.
  rewrite (queue_widx_slot r q Hq) in Hi. subst i.
  constructor; rewrite ?length_app, ?Hn, ?Hf', ?Hr; simpl.
  - done.
  - lia.
  - lia.
  - rewrite Hw, (q_widx r q Hq). unfold wrap64. rewrite Zplus_mod_idemp_l. f_equal. lia.
  - intros k x Hx. rewrite Hst, Hda. apply lookup_app_Some in Hx as [Hx|[Hk Hx]].
    + pose proof (lookup_lt_Some _ _ _ Hx).
      rewrite !decide_False by (apply slots_differ; lia). by apply (q_full r q Hq).
    + apply list_lookup_singleton_Some in Hx as [Hx <-].
      assert (k = List.length q) as -> by lia. by rewrite !decide_True by done.
  - intros k Hk. rewrite Hst, decide_False by (apply slots_differ; lia).
    apply (q_empty r q Hq). lia.
Qed.

(** ... and the effect of a completed read turns [x :: q] into [q]. *)
Lemma queue_pop r q x r' :
  queue r (x :: q) -> shape r' ->
  nmemb r' = nmemb r -> nfree r' = nfree r + 1 ->
  widx r' = widx r -> ridx r' = wrap64 (ridx r + 1) ->
  (forall j, slot_state r' j =
     if decide (ridx r mod nmemb r = j) then SLOT_FREE else slot_state r j) ->
  (forall j, slot_data r' j = slot_data r j) ->
  queue r' q.
Proof.
  intros Hq Hs' Hn Hf' Hw Hr Hst Hda.
  pose proof (q_length r _ Hq) as Hl. pose proof (q_nfree r _ Hq). simpl in Hl.
  assert (Hbump : forall k, (ridx r' + k) mod nmemb r' = (ridx r + (1 + k)) mod nmemb r).
  { intros k. rewrite Hr, Hn. unfold wrap64. rewrite <- (Zplus_mod_idemp_l (_ mod _)).
    pose proof (shape_nmemb_pos r (q_shape r _ Hq)).
    rewrite mod_mod_divide by (try apply shape_divides, Hq; done).
    rewrite Zplus_mod_idemp_l. f_equal. lia. }
  constructor.
  - done.
  - lia.
  - lia.
  - rewrite Hw, Hr, (q_widx r _ Hq). simpl. unfold wrap64. rewrite Zplus_mod_idemp_l.
    f_equal. lia.
  - intros k y Hy. pose proof (lookup_lt_Some _ _ _ Hy). rewrite Hbump, Hst, Hda.
    rewrite decide_False by (rewrite <- (Z.add_0_r (ridx r)) at 1; apply slots_differ; lia).
    replace (1 + Z.of_nat k) with (Z.of_nat (S k)) by lia. by apply (q_full r _ Hq).
  - intros k Hk. rewrite Hbump, Hst. case_decide as Hd; [done|].
    destruct (decide (1 + k = nmemb r)) as [Hk1|Hk1]; [|apply (q_empty r _ Hq); simpl; lia].
    exfalso. apply Hd. rewrite Hk1.
    replace (ridx r + nmemb r) with (ridx r + 1 * nmemb r) by lia.
    by rewrite Z.mod_add by lia.
Qed.

(** The tail that [write_vec_ring] and [mwrite_vec_ring] share: fill slot [i]
    of [r], then mark it ready. *)
Lemma fill_and_mark r i src :
  shape r -> 0 <= i < nmemb r -> Z.of_nat (List.length src) = memb_sz r ->
  exists r2 r3, copy_in r (i * memb_sz r) src = Ok r2 /\
    mark_slot r2 (i * memb_sz r) SLOT_READY = Ok r3 /\ shape r3 /\ same_ctl r r3 /\
    (forall j, slot_state r3 j = if decide (i = j) then SLOT_READY else slot_state r j) /\
    (forall j, slot_data r3 j = if decide (i = j) then src else slot_data r j).
Proof.
  intros Hs Hi Hlen.
  destruct (copy_in_spec r i src Hs Hi Hlen) as (r2 & E2 & Hs2 & Hc2 & Hst2 & Hda2).
  destruct Hc2 as (Hn2 & Hm2 & Hc2). rewrite <- Hn2 in Hi.
  destruct (mark_slot_spec r2 i SLOT_READY Hs2 Hi) as (r3 & E3 & Hs3 & Hc3 & Hst3 & Hda3).
  exists r2, r3. rewrite <- Hm2 at 2. split; [done|]. split; [done|]. split; [done|].
  unfold same_ctl in *. split; [intuition congruence|].
  split; intros j; [by rewrite Hst3, Hst2 | by rewrite Hda3, Hda2].
Qed.

Lemma write_appends r q src :
  queue r q -> 0 < nfree r -> Z.of_nat (List.length src) = memb_sz r ->
  exists r', write_vec_ring r src = Ok (Some r') /\ queue r' (q ++ [src]) /\
    nmemb r' = nmemb r /\ memb_sz r' = memb_sz r.
Proof.
  intros Hq Hf Hlen. pose proof (q_shape r q Hq) as Hs.
  pose proof (shape_nmemb_pos r Hs) as Hn. pose proof (queue_size_bound r q Hq).
  unfold write_vec_ring, begin_write_ring.
  replace (nfree r <=? 0) with false by (symmetry; apply Z.leb_gt; lia).
  rewrite claim_slot_spec by done. simpl_outcome.
  destruct (fill_and_mark (r <| widx := wrap64 (widx r + 1) |>) (widx r mod nmemb r) src)
    as (r2 & r3 & E2 & E3 & Hs3 & (Hn3 & Hm3 & Hf3 & Hw3 & Hr3) & Hst & Hda);
    [by apply shape_set_widx | apply Z.mod_pos_bound; done | done |].
  simpl in *. rewrite E2. simpl. unfold end_write_ring. rewrite E3. simpl.
  eexists. split; [done|]. split; [|done].
  apply (queue_push r q); simpl; auto.
  - by apply shape_set_nfree.
  - rewrite Hf3. apply Z.mod_small. lia.
Qed.

Lemma mwrite_appends r q src :
  queue r q -> 0 < nfree r < 2 ^ 63 -> Z.of_nat (List.length src) = memb_sz r ->
  exists r', mwrite_vec_ring r src = Ok (Some r') /\ queue r' (q ++ [src]) /\
    nmemb r' = nmemb r /\ memb_sz r' = memb_sz r.
Proof.
  intros Hq Hf Hlen. pose proof (q_shape r q Hq) as Hs.
  pose proof (shape_nmemb_pos r Hs) as Hn. pose proof (queue_size_bound r q Hq).
  unfold mwrite_vec_ring, begin_mwrite_ring.
  replace (nfree r <=? 0) with false by (symmetry; apply Z.leb_gt; lia).
  assert (signed 64 (nfree r) = nfree r) as ->.
  { unfold signed. rewrite Z.mod_small by lia.
    by replace (nfree r <? 2 ^ (64 - 1)) with true by (symmetry; apply Z.ltb_lt; lia). }
  replace (nfree r <=? 0) with false by (symmetry; apply Z.leb_gt; lia).
  rewrite claim_slot_spec by (by apply shape_set_nfree). simpl_outcome.
  destruct (fill_and_mark ((sub_nfree r) <| widx := wrap64 (widx r + 1) |>)
              (widx r mod nmemb r) src)
    as (r2 & r3 & E2 & E3 & Hs3 & (Hn3 & Hm3 & Hf3 & Hw3 & Hr3) & Hst & Hda);
    [by apply shape_set_widx, shape_set_nfree | apply Z.mod_pos_bound; done | done |].
  simpl in *. rewrite E2. simpl. unfold end_mwrite_ring. rewrite E3. simpl.
  eexists. split; [done|]. split; [|done].
  apply (queue_push r q); simpl; auto; [lia|]. rewrite Hf3. apply Z.mod_small. lia.
Qed.

Lemma read_takes_head r q x :
  queue r (x :: q) ->
  exists r', read_vec_ring r (memb_sz r) = Ok (Some (x, r')) /\ queue r' q /\
    nmemb r' = nmemb r /\ memb_sz r' = memb_sz r.
Proof.
  intros Hq. pose proof (q_shape r _ Hq) as Hs.
  pose proof (shape_nmemb_pos r Hs) as Hn. pose proof (q_length r _ Hq) as Hl. simpl in Hl.
  pose proof (queue_size_bound r _ Hq).
  destruct (q_full r _ Hq 0 x) as [Hst Hda]; [done|]. rewrite Z.add_0_r in Hst, Hda.
  assert (Hi : 0 <= ridx r mod nmemb r < nmemb r) by (apply Z.mod_pos_bound; lia).
  unfold read_vec_ring, begin_read_ring.
  replace (nfree r =? nmemb r) with false by (symmetry; apply Z.eqb_neq; lia).
  rewrite ready_slot_spec, Hst by done. simpl_outcome.
  rewrite copy_out_spec, Hda by done. simpl_outcome. unfold end_read_ring.
  destruct (mark_slot_spec r (ridx r mod nmemb r) SLOT_FREE Hs Hi)
    as (r3 & E3 & Hs3 & (Hn3 & Hm3 & Hf3 & Hw3 & Hr3) & Hst3 & Hda3).
  rewrite E3. simpl_outcome. eexists. split; [done|]. split; [|done].
  apply (queue_pop r q x); simpl; auto.
  - by apply shape_set_nfree, shape_set_ridx.
  - rewrite Hf3. apply Z.mod_small. lia.
  - by rewrite Hr3.
Qed.

Lemma write_full_spins r q src :
  queue r q -> nfree r = 0 -> write_vec_ring r src = Ok None.
Proof. intros Hq Hf. unfold write_vec_ring, begin_write_ring. by rewrite Hf. Qed.

Lemma read_empty_spins r sz : queue r [] -> read_vec_ring r sz = Ok None.
Proof.
  intros Hq. pose proof (q_length r _ Hq) as Hl. simpl in Hl.
  unfold read_vec_ring, begin_read_ring.
  by replace (nfree r =? nmemb r) with true by (symmetry; apply Z.eqb_eq; lia).
Qed.

(** ** Initialisation *)

(** What the C standard says of the two allocation functions: a block has the
    size asked for, and [calloc] clears it. *)
Record allocator_ok (al : allocator) : Prop := {
  al_malloc : forall n b, malloc al n = Some b -> b_size b = n;
  al_calloc : forall n b, calloc al n = Some b ->
    b_size b = n /\ forall i, byte_at b i = 0
}.

Lemma init_ring_queue al r0 c sz sb b :
  allocator_ok al -> 0 < c <= 2 ^ 63 -> 0 < sz -> 2 ^ Z.log2_up c * sz < 2 ^ 64 ->
  calloc al (2 ^ Z.log2_up c) = Some sb -> malloc al (2 ^ Z.log2_up c * sz) = Some b ->
  exists r, init_ring al (Some r0) c sz = Ok (0, Some r) /\ queue r [] /\
    nmemb r = 2 ^ Z.log2_up c /\ memb_sz r = sz.
Proof.
  intros [Hmal Hcal] Hc Hsz Hov Hsb Hb. pose proof (Z.log2_up_nonneg c) as Hl0.
  assert (Hl : Z.log2_up c <= 63) by (apply Z.log2_up_le_pow2; lia).
  assert (0 < 2 ^ Z.log2_up c) by (apply Z.pow_pos_nonneg; lia).
  destruct (Hcal _ _ Hsb) as [Hsbz Hzero]. pose proof (Hmal _ _ Hb) as Hbz.
  unfold init_ring. replace ((c =? 0) || (sz =? 0)) with false
    by (symmetry; apply orb_false_iff; split; apply Z.eqb_neq; lia).
  rewrite round_count_small by done. simpl_outcome.
  replace (2 ^ Z.log2_up c =? 0) with false by (symmetry; apply Z.eqb_neq; lia).
  unfold wrap64. rewrite Z.mod_small, Hsb, Hb by nia.
  eexists. split; [done|]. split; [|done].
  constructor; simpl; try done; try lia.
  - constructor; simpl; eauto.
  - intros k _. unfold slot_state. simpl. apply Hzero.
Qed.

(** ** The interface a bounded FIFO channel offers

    A channel of element size [fc_elem] that holds at most [fc_cap] elements;
    [fc_holds c q] reads "channel [c] contains [q], oldest first".  [None]
    stands for a call that cannot finish until the other side moves. *)

Class FifoChannel (C : Type) := {
  fc_holds : C -> list (list Z) -> Prop;
  fc_cap : C -> Z;
  fc_elem : C -> Z;
  fc_put : C -> list Z -> outcome (option C);
  fc_get : C -> outcome (option (list Z * C));
  fc_bounded c q : fc_holds c q -> Z.of_nat (List.length q) <= fc_cap c;
  fc_put_room c q x :
    fc_holds c q -> Z.of_nat (List.length q) < fc_cap c ->
    Z.of_nat (List.length x) = fc_elem c ->
    exists c', fc_put c x = Ok (Some c') /\ fc_holds c' (q ++ [x]) /\
      fc_cap c' = fc_cap c /\ fc_elem c' = fc_elem c;
  fc_put_full c q x :
    fc_holds c q -> Z.of_nat (List.length q) = fc_cap c -> fc_put c x = Ok None;
  fc_get_some c q x :
    fc_holds c (x :: q) ->
    exists c', fc_get c = Ok (Some (x, c')) /\ fc_holds c' q /\
      fc_cap c' = fc_cap c /\ fc_elem c' = fc_elem c;
  fc_get_none c : fc_holds c [] -> fc_get c = Ok None
}.

#[global] Instance ring_channel : FifoChannel ring.
Proof.
  refine {| fc_holds := queue; fc_cap := nmemb; fc_elem := memb_sz;
            fc_put := write_vec_ring; fc_get := fun r => read_vec_ring r (memb_sz r) |}.
  - intros r q Hq. pose proof (q_length r q Hq). pose proof (q_nfree r q Hq). lia.
  - intros r q x Hq Hroom. apply write_appends; [done|]. pose proof (q_length r q Hq). lia.
  - intros r q x Hq Hfull. apply (write_full_spins r q x Hq). pose proof (q_length r q Hq). lia.
  - intros r q x. apply read_takes_head.
  - intros r Hq. by apply read_empty_spins.
Defined.

(** *** A client of the interface: a thread that issues puts and gets *)

Inductive op := Put (x : list Z) | Get.
Inductive obs := PutDone | PutBlocked | Got (x : list Z) | GetBlocked.

(** What a bounded FIFO of capacity [cap] is to show for a sequence of calls. *)
Fixpoint fifo_spec (cap : Z) (q : list (list Z)) (ops : list op) : list obs :=
  match ops with
  | [] => []
  | Put x :: ops =>
      if Z.of_nat (List.length q) <? cap then PutDone :: fifo_spec cap (q ++ [x]) ops
      else PutBlocked :: fifo_spec cap q ops
  | Get :: ops =>
      match q with
      | [] => GetBlocked :: fifo_spec cap q ops
      | x :: q => Got x :: fifo_spec cap q ops
      end
  end.

Fixpoint fifo_run {C} `{FifoChannel C} (c : C) (ops : list op) : outcome (list obs) :=
  match ops with
  | [] => mret []
  | Put x :: ops =>
      r ← fc_put c x;
      match r with
      | Some c => os ← fifo_run c ops; mret (PutDone :: os)
      | None => os ← fifo_run c ops; mret (PutBlocked :: os)
      end
  | Get :: ops =>
      r ← fc_get c;
      match r with
      | Some (x, c) => os ← fifo_run c ops; mret (Got x :: os)
      | None => os ← fifo_run c ops; mret (GetBlocked :: os)
      end
  end.

Definition op_sized (sz : Z) (o : op) : Prop :=
  match o with Put x => Z.of_nat (List.length x) = sz | Get => True end.

Lemma fifo_run_spec {C} `{FifoChannel C} (c : C) q ops :
  fc_holds c q -> Forall (op_sized (fc_elem c)) ops ->
  fifo_run c ops = Ok (fifo_spec (fc_cap c) q ops).
Proof.
  intros Hq Hops. revert c q Hq Hops. induction ops as [|o ops IH]; intros c q Hq Hops; [done|].
  apply Forall_cons in Hops as [Ho Hops]. destruct o as [x|]; simpl.
  - pose proof (fc_bounded c q Hq). destruct (Z.ltb_spec (Z.of_nat (List.length q)) (fc_cap c)).
    + destruct (fc_put_room c q x) as (c' & -> & Hc' & Hcap & Hel); [done..|].
      rewrite <- Hel in Hops. simpl. by rewrite (IH c' _ Hc' Hops), Hcap.
    + rewrite (fc_put_full c q x) by (done || lia). simpl. by rewrite (IH c q Hq Hops).
  - destruct q as [|x q].
    + rewrite fc_get_none by done. simpl. by rewrite (IH c [] Hq Hops).
    + destruct (fc_get_some c q x Hq) as (c' & -> & Hc' & Hcap & Hel).
      rewrite <- Hel in Hops. simpl. by rewrite (IH c' q Hc' Hops), Hcap.
Qed.

(** A ring that [init_ring] set up with both allocations granted. *)
Record created (al : allocator) (c sz : Z) (r : ring) : Prop := {
  cr_al : allocator_ok al;
  cr_count : 0 < c <= 2 ^ 63;
  cr_size : 0 < sz;
  cr_fits : 2 ^ Z.log2_up c * sz < 2 ^ 64;
  cr_slots : is_Some (calloc al (2 ^ Z.log2_up c));
  cr_buf : is_Some (malloc al (2 ^ Z.log2_up c * sz));
  cr_init : init_ring al (Some zeroed) c sz = Ok (0, Some r)
}.

Lemma created_queue al c sz r :
  created al c sz r ->
  queue r [] /\ ridx r = 0 /\ nmemb r = 2 ^ Z.log2_up c /\ memb_sz r = sz.
Proof.
  intros [Hal Hc Hsz Hfit [sb Hsb] [b Hb] Hin].
  destruct (init_ring_queue al zeroed c sz sb b) as (r' & E & Hq & Hn & Hm); [done..|].
  rewrite E in Hin. injection Hin as <-. split_and!; try done.
  revert E. unfold init_ring. replace ((c =? 0) || (sz =? 0)) with false
    by (symmetry; apply orb_false_iff; split; apply Z.eqb_neq; lia).
  rewrite round_count_small by done. simpl_outcome.
  by destruct (2 ^ Z.log2_up c =? 0); intros [= <-].
Qed.

(** An allocator that always succeeds, for concrete runs. *)
Definition test_alloc : allocator :=
  {| malloc n := Some (Block n ∅); calloc n := Some (Block n ∅) |}.

Lemma test_alloc_ok : allocator_ok test_alloc.
Proof. split; intros n b [= <-]; [done|]. split; [done|]. intros i. unfold byte_at, cell. done. Qed.

Definition test_ring : ring :=
  MkRing 4 2 4 0 0 (Some (Block 4 ∅)) (Some (Block 8 ∅)) false.

Lemma test_created : created test_alloc 3 2 test_ring.
Proof. constructor; [apply test_alloc_ok | lia | lia | done | eauto | eauto | done]. Qed.

(** ** Properties *)

(** [init_ring] rounds the requested element count up to a power of two:
    the ring it sets up has the least power of two of slots that is at least
    [min_count], all of them free. *)
Theorem init_ring_rounds_up (al : allocator) (c sz : Z) :
  0 < c <= 2 ^ 63 -> 0 < sz ->
  exists r k, init_ring al (Some zeroed) c sz = Ok (0, Some r) /\
    nmemb r = 2 ^ k /\ 0 <= k <= 63 /\ c <= nmemb r < 2 * c /\
    nfree r = nmemb r /\ is_ring_empty r = true.
Proof.
  intros Hc Hsz. pose proof (Z.log2_up_nonneg c).
  assert (Z.log2_up c <= 63) by (apply Z.log2_up_le_pow2; lia).
  unfold init_ring. replace ((c =? 0) || (sz =? 0)) with false
    by (symmetry; apply orb_false_iff; split; apply Z.eqb_neq; lia).
  rewrite round_count_small by done. simpl_outcome.
  assert (0 < 2 ^ Z.log2_up c) by (apply Z.pow_pos_nonneg; lia).
  replace (2 ^ Z.log2_up c =? 0) with false by (symmetry; apply Z.eqb_neq; lia).
  eexists _, (Z.log2_up c). split; [done|]. unfold is_ring_empty. simpl. rewrite Z.eqb_refl.
  split_and!; try done; try lia.
  - destruct (Z.eq_dec c 1) as [->|]; [done|]. apply Z.log2_up_spec. lia.
  - destruct (Z.eq_dec c 1) as [->|]; [done|].
    pose proof (Z.log2_up_spec c) as [Hlo _]; [lia|].
    assert (Hk : 0 < Z.log2_up c) by (apply Z.log2_up_pos; lia).
    replace (Z.log2_up c) with (Z.succ (Z.pred (Z.log2_up c))) at 1 by lia.
    rewrite Z.pow_succ_r by lia. lia.
Qed.

Lemma init_ring_rounds_up_witness :
  exists r k, init_ring test_alloc (Some zeroed) 5 8 = Ok (0, Some r) /\
    nmemb r = 2 ^ k /\ 0 <= k <= 63 /\ 5 <= nmemb r < 2 * 5 /\
    nfree r = nmemb r /\ is_ring_empty r = true.
Proof. apply (init_ring_rounds_up test_alloc 5 8); lia. Defined.

(** The guard for counts that are too big never runs: above [2^63] elements
    the shift amount is -1, which is undefined, before [count == 0] is tested. *)
Theorem init_ring_huge_undefined (al : allocator) (r : ring) (c sz : Z) :
  2 ^ 63 < c < 2 ^ 64 -> sz <> 0 -> init_ring al (Some r) c sz = Fault BadShift.
Proof.
  intros Hc Hsz. unfold init_ring. replace ((c =? 0) || (sz =? 0)) with false
    by (symmetry; apply orb_false_iff; split; apply Z.eqb_neq; lia).
  by rewrite round_count_huge.
Qed.

Lemma init_ring_huge_undefined_witness :
  init_ring test_alloc (Some zeroed) (2 ^ 63 + 1) 1 = Fault BadShift.
Proof. apply (init_ring_huge_undefined test_alloc zeroed (2 ^ 63 + 1) 1); lia. Defined.

(** C19. Used by one thread, a ring is a bounded FIFO queue: for every sequence
    of writes and reads the calls give what a queue of [nmemb] elements gives,
    wrap-around of the indices included; a write to a full ring and a read from
    an empty one do not return. *)
Theorem ring_refines_bounded_fifo (al : allocator) (c sz : Z) (r : ring) (ops : list op) :
  created al c sz r -> Forall (op_sized sz) ops ->
  fifo_run r ops = Ok (fifo_spec (nmemb r) [] ops).
Proof.
  intros Hc Hops. destruct (created_queue al c sz r Hc) as (Hq & _ & _ & Hm).
  apply (@fifo_run_spec ring ring_channel r [] ops); [exact Hq|]. simpl. by rewrite Hm.
Qed.

Lemma ring_refines_bounded_fifo_witness :
  fifo_run test_ring [Get; Put [1; 2]; Put [3; 4]; Get; Put [5; 6]; Get]
  = Ok [GetBlocked; PutDone; PutDone; Got [1; 2]; PutDone; Got [3; 4]].
Proof.
  apply (ring_refines_bounded_fifo test_alloc 3 2 test_ring
    [Get; Put [1; 2]; Put [3; 4]; Get; Put [5; 6]; Get]).
  - apply test_created.
  - repeat constructor.
Defined.

(** The multi-writer enqueue, run by one thread, appends to the queue as the
    single-writer one does, as long as the free count fits a signed word. *)
Theorem mwrite_appends_to_queue (r : ring) (q : list (list Z)) (src : list Z) :
  queue r q -> 0 < nfree r < 2 ^ 63 -> Z.of_nat (List.length src) = memb_sz r ->
  exists r', mwrite_vec_ring r src = Ok (Some r') /\ queue r' (q ++ [src]).
Proof.
  intros Hq Hf Hlen. destruct (mwrite_appends r q src Hq Hf Hlen) as (r' & E & Hq' & _). eauto.
Qed.

Lemma mwrite_appends_to_queue_witness :
  exists r', mwrite_vec_ring test_ring [7; 8] = Ok (Some r') /\ queue r' ([] ++ [[7; 8]]).
Proof.
  apply (mwrite_appends_to_queue test_ring [] [7; 8]); [|simpl; lia|done].
  apply (created_queue test_alloc 3 2), test_created.
Defined.

End Ring.
