(* ===== verification/RingConc.v ===== *)
(** * The ring buffer between one writer and one reader thread

    include/ring.h runs its single-writer and single-reader routines in two
    threads without a lock.  Here the two macros [write_vec_ring] and
    [read_vec_ring] are cut into their accesses to the shared ring, and the
    accesses of the two threads interleave in any order.  The theorems say
    that no access faults, that the threads never touch the same element at
    the same time, and that the reader receives the elements in the order in
    which they were written, none lost and none twice. *)

From S2P Require Import Prelude Ring.

Module RingConc.
Import Ring.

(** Where the writer is in [write_vec_ring] (with the element it writes and,
    once it has one, its slot's address)... *)
Inductive wpc :=
| WIdle
| WTest (x : list Z)
| WClaim (x : list Z)
| WCopy (x : list Z) (dst : Z)
| WMark (dst : Z)
| WSub.

(** ... and where the reader is in [read_vec_ring]. *)
Inductive rpc :=
| RIdle
| RTest
| RSlot
| RCopy (src : Z)
| RFree (src : Z)
| RBump
| RAdd.

(** [sent] and [rcvd] record the elements in the order in which the writer
    claimed slots for them and the reader copied them out. *)
Record conf := Conf {
  c_ring : ring;
  c_w : wpc;
  c_r : rpc;
  sent : list (list Z);
  rcvd : list (list Z)
}.

#[global] Instance conf_eta : Eta conf := fun c =>
  Conf (c_ring c) (c_w c) (c_r c) (sent c) (rcvd c).

(** One access of the writer; an idle writer starts a call with [x]. *)
Definition wstep (x : list Z) (c : conf) : outcome conf :=
  let r := c_ring c in
  match c_w c with
  | WIdle => mret (c <| c_w := WTest x |>)
  | WTest x => mret (c <| c_w := if nfree r <=? 0 then WTest x else WClaim x |>)
  | WClaim x =>
      ar ← claim_slot r;
      match ar with
      | (Some dst, r) =>
          mret (c <| c_ring := r |> <| c_w := WCopy x dst |> <| sent ::= fun l => l ++ [x] |>)
      | (None, r) => mret (c <| c_ring := r |> <| c_w := WTest x |>)
      end
  | WCopy x dst =>
      r ← copy_in r dst x;
      mret (c <| c_ring := r |> <| c_w := WMark dst |>)
  | WMark dst =>
      r ← mark_slot r dst SLOT_READY;
      mret (c <| c_ring := r |> <| c_w := WSub |>)
  | WSub => mret (c <| c_ring := sub_nfree r |> <| c_w := WIdle |>)
  end.

(** One access of the reader. *)
Definition rstep (c : conf) : outcome conf :=
  let r := c_ring c in
  match c_r c with
  | RIdle => mret (c <| c_r := RTest |>)
  | RTest => mret (c <| c_r := if nfree r =? nmemb r then RTest else RSlot |>)
  | RSlot =>
      a ← ready_slot r;
      mret (c <| c_r := match a with Some src => RCopy src | None => RTest end |>)
  | RCopy src =>
      bs ← copy_out r src (memb_sz r);
      mret (c <| c_r := RFree src |> <| rcvd ::= fun l => l ++ [bs] |>)
  | RFree src =>
      r ← mark_slot r src SLOT_FREE;
      mret (c <| c_ring := r |> <| c_r := RBump |>)
  | RBump => mret (c <| c_ring := bump_ridx r |> <| c_r := RAdd |>)
  | RAdd => mret (c <| c_ring := add_nfree r |> <| c_r := RIdle |>)
  end.

(** Either thread moves; the writer only writes elements of the ring's size. *)
Inductive step : conf -> conf -> Prop :=
| step_writer c c' x :
    Z.of_nat (List.length x) = memb_sz (c_ring c) -> wstep x c = Ok c' -> step c c'
| step_reader c c' : rstep c = Ok c' -> step c c'.

Definition initial (r : ring) : conf := Conf r WIdle RIdle [] [].

(** ** The invariant *)

Definition zlen {A} (l : list A) : Z := Z.of_nat (List.length l).

(** The writer has claimed a slot it has not yet subtracted ([w_held]), not yet
    marked ready ([w_unmarked]), not yet filled ([w_unfilled]). *)
Definition w_held (p : wpc) : Z := match p with WCopy _ _ | WMark _ | WSub => 1 | _ => 0 end.
Definition w_unmarked (p : wpc) : Z := match p with WCopy _ _ | WMark _ => 1 | _ => 0 end.
Definition w_unfilled (p : wpc) : Z := match p with WCopy _ _ => 1 | _ => 0 end.

(** The reader has received an element but not advanced [ridx] ([r_ahead]),
    freed its slot but not advanced ([r_freed]), found the ring not empty and
    not advanced ([r_tested]), advanced but not given the slot back in [nfree]
    ([r_held]). *)
Definition r_ahead (p : rpc) : Z := match p with RFree _ | RBump => 1 | _ => 0 end.
Definition r_freed (p : rpc) : Z := match p with RBump => 1 | _ => 0 end.
Definition r_tested (p : rpc) : Z :=
  match p with RSlot | RCopy _ | RFree _ | RBump => 1 | _ => 0 end.
Definition r_held (p : rpc) : Z := match p with RAdd => 1 | _ => 0 end.

(** How often [widx] and [ridx] were advanced. *)
Definition nwrite (c : conf) : Z := zlen (sent c).
Definition nread (c : conf) : Z := zlen (rcvd c) - r_ahead (c_r c).

Definition wpc_ok (c : conf) : Prop :=
  let r := c_ring c in
  match c_w c with
  | WTest x => zlen x = memb_sz r
  | WClaim x => zlen x = memb_sz r /\ 0 < nfree r
  | WCopy x dst =>
      zlen x = memb_sz r /\ last (sent c) = Some x /\
      dst = (nwrite c - 1) mod nmemb r * memb_sz r
  | WMark dst => dst = (nwrite c - 1) mod nmemb r * memb_sz r
  | WIdle | WSub => True
  end.

Definition rpc_ok (c : conf) : Prop :=
  let r := c_ring c in
  match c_r c with
  | RCopy src | RFree src =>
      src = nread c mod nmemb r * memb_sz r /\ nread c < nwrite c - w_unmarked (c_w c)
  | _ => True
  end.

Record inv (c : conf) : Prop := {
  i_shape : shape (c_ring c);
  i_widx : widx (c_ring c) = wrap64 (nwrite c);
  i_ridx : ridx (c_ring c) = wrap64 (nread c);
  i_nonneg : 0 <= nread c;
  i_order : nread c + r_ahead (c_r c) <= nwrite c - w_unmarked (c_w c);
  i_held : w_held (c_w c) + r_tested (c_r c) <= nwrite c - nread c;
  i_room : nwrite c - nread c + r_held (c_r c) <= nmemb (c_ring c);
  i_nfree : nfree (c_ring c) =
    nmemb (c_ring c) - nwrite c + w_held (c_w c) + nread c - r_held (c_r c);
  i_slots : forall k, nread c <= k < nread c + nmemb (c_ring c) ->
    slot_state (c_ring c) (k mod nmemb (c_ring c)) =
    if decide (nread c + r_freed (c_r c) <= k < nwrite c - w_unmarked (c_w c))
    then SLOT_READY else SLOT_FREE;
  i_data : forall k x, nread c <= k < nwrite c - w_unfilled (c_w c) ->
    sent c !! Z.to_nat k = Some x ->
    slot_data (c_ring c) (k mod nmemb (c_ring c)) = x;
  i_prefix : rcvd c = take (List.length (rcvd c)) (sent c);
  i_wpc : wpc_ok c;
  i_rpc : rpc_ok c
}.

Lemma inv_initial r : queue r [] -> ridx r = 0 -> inv (initial r).
Proof.
  intros Hq Hr. pose proof (q_shape r _ Hq) as Hs. pose proof (shape_nmemb_pos r Hs).
  pose proof (q_length r _ Hq) as Hl. simpl in Hl.
  constructor; unfold nread, nwrite, zlen; simpl; try done; try lia.
  - rewrite (q_widx r _ Hq). simpl. by rewrite Hr.
  - intros k Hk. rewrite decide_False by lia.
    pose proof (q_empty r _ Hq k) as He. rewrite Hr in He. apply He. simpl. lia.
Qed.

(** The slot behind an index is the same before and after the index wraps. *)
Lemma wrapped_slot r k : shape r -> wrap64 k mod nmemb r = k mod nmemb r.
Proof.
  intros Hs. unfold wrap64. apply mod_mod_divide; [by apply shape_nmemb_pos | by apply shape_divides].
Qed.

Lemma wrap64_succ k : wrap64 (wrap64 k + 1) = wrap64 (k + 1).
Proof. unfold wrap64. apply Zplus_mod_idemp_l. Qed.

Lemma other_slot (a b n : Z) : 0 < n -> -n < a - b < n -> a <> b -> a mod n <> b mod n.
Proof. intros Hn Hd Hne Heq. apply Hne. by apply (mod_eq_close a b n). Qed.

Lemma inv_nfree_bound c : inv c -> 0 <= nfree (c_ring c) <= nmemb (c_ring c) /\ nmemb (c_ring c) < 2 ^ 64.
Proof.
  intros []. pose proof (sh_bytes _ i_shape0). pose proof (sh_memb_sz _ i_shape0).
  pose proof (shape_nmemb_pos _ i_shape0).
  assert (0 <= w_held (c_w c)) by (destruct (c_w c); simpl; lia).
  assert (0 <= r_held (c_r c)) by (destruct (c_r c); simpl; lia).
  assert (0 <= r_tested (c_r c)) by (destruct (c_r c); simpl; lia). nia.
Qed.

Ltac unfold_conf :=
  unfold wpc_ok, rpc_ok in *; unfold nread, nwrite in *; simpl in *.

Lemma wstep_claim c x :
  inv c -> c_w c = WClaim x -> exists c', wstep [] c = Ok c' /\ inv c'.
Proof.
  intros Hi Hw. destruct c as [r w rp s rc]. simpl in Hw. subst w.
  destruct Hi as [Hs Hwi Hri Hnn Ho Hh Hr Hf Hsl Hd Hp [Hx Hfr] Hrp]. unfold_conf.
  pose proof (shape_nmemb_pos r Hs).
  unfold wstep. simpl. rewrite claim_slot_spec by done. simpl_outcome.
  rewrite Hwi, wrapped_slot, wrap64_succ by done. eexists. split; [done|].
  assert (Hz : zlen (s ++ [x]) = zlen s + 1) by (unfold zlen; rewrite length_app; simpl; lia).
  constructor; unfold_conf; rewrite ?Hz; try done; try lia.
  - by apply shape_set_widx.
  - intros k Hk. change (slot_state _ ?i) with (slot_state r i).
    rewrite Hsl by lia. repeat case_decide; (done || lia).
  - intros k y Hk Hy. change (slot_data _ ?i) with (slot_data r i). apply Hd; [lia|].
    rewrite lookup_app_l in Hy; [done|]. unfold zlen in *. lia.
  - rewrite Hp at 1. rewrite take_app_le; [done|]. unfold zlen in *. destruct rp; simpl in *; lia.
  - rewrite last_snoc. replace (zlen s + 1 - 1) with (zlen s) by lia. done.
  - destruct rp; try done; simpl in *; intuition lia.
Qed.

Lemma wstep_copy c x dst :
  inv c -> c_w c = WCopy x dst -> exists c', wstep [] c = Ok c' /\ inv c'.
Proof.
  intros Hi Hw. destruct c as [r w rp s rc]. simpl in Hw. subst w.
  destruct Hi as [Hs Hwi Hri Hnn Ho Hh Hr Hf Hsl Hd Hp (Hx & Hl & ->) Hrp]. unfold_conf.
  pose proof (shape_nmemb_pos r Hs).
  destruct (copy_in_spec r ((zlen s - 1) mod nmemb r) x Hs)
    as (r2 & E2 & Hs2 & (Hn2 & Hm2 & Hf2 & Hw2 & Hr2) & Hst2 & Hda2);
    [by apply Z.mod_pos_bound | done |].
  unfold wstep. simpl. rewrite E2. simpl_outcome. eexists. split; [done|].
  constructor; unfold_conf; rewrite ?Hn2, ?Hf2, ?Hw2, ?Hr2, ?Hm2; try done; try lia.
  - intros k Hk. by rewrite Hst2, Hsl.
  - intros k y Hk Hy. rewrite Hda2. case_decide as Hc.
    + apply mod_eq_close in Hc; [|lia|destruct rp; simpl in *; lia]. subst k.
      rewrite last_lookup in Hl. unfold zlen in Hy.
      replace (Z.to_nat (Z.of_nat (List.length s) - 1)) with (pred (List.length s)) in Hy by lia.
      congruence.
    + apply Hd; [|done]. enough (k <> zlen s - 1) by lia. intros ->. done.
Qed.

Lemma wstep_mark c dst :
  inv c -> c_w c = WMark dst -> exists c', wstep [] c = Ok c' /\ inv c'.
Proof.
  intros Hi Hw. destruct c as [r w rp s rc]. simpl in Hw. subst w.
  destruct Hi as [Hs Hwi Hri Hnn Ho Hh Hr Hf Hsl Hd Hp -> Hrp]. unfold_conf.
  pose proof (shape_nmemb_pos r Hs).
  destruct (mark_slot_spec r ((zlen s - 1) mod nmemb r) SLOT_READY Hs)
    as (r2 & E2 & Hs2 & (Hn2 & Hm2 & Hf2 & Hw2 & Hr2) & Hst2 & Hda2);
    [by apply Z.mod_pos_bound|].
  unfold wstep. simpl. rewrite E2. simpl_outcome. eexists. split; [done|].
  assert (0 <= r_ahead rp <= 1 /\ r_freed rp <= r_ahead rp /\ 0 <= r_held rp)
    by (destruct rp; simpl; lia).
  constructor; unfold_conf; rewrite ?Hn2, ?Hf2, ?Hw2, ?Hr2, ?Hm2; try done; try lia.
  - intros k Hk. rewrite Hst2, Hsl by lia. case_decide as Hc.
    + apply mod_eq_close in Hc; [|lia|lia]. subst k. by rewrite decide_True by lia.
    + assert (k <> zlen s - 1) by (by intros ->).
      repeat case_decide; (done || lia).
  - intros k y Hk Hy. rewrite Hda2. by apply Hd.
  - destruct rp; try done; simpl in *; intuition lia.
Qed.

Lemma wstep_inv c x :
  inv c -> zlen x = memb_sz (c_ring c) -> exists c', wstep x c = Ok c' /\ inv c'.
Proof.
  intros Hi Hx. destruct (c_w c) as [|y|y|y d|d|] eqn:Ew.
  - unfold wstep. rewrite Ew. eexists. split; [done|].
    destruct c as [r w rp s rc], Hi; unfold_conf; subst w; constructor; unfold_conf; done.
  - unfold wstep. rewrite Ew. eexists. split; [done|].
    destruct c as [r w rp s rc], Hi; unfold_conf; subst w; unfold_conf.
    destruct (Z.leb_spec (nfree r) 0); constructor; unfold_conf; done.
  - destruct (wstep_claim c y Hi Ew) as (c' & E & Hi'). exists c'. split; [|done].
    revert E. unfold wstep. by rewrite Ew.
  - destruct (wstep_copy c y d Hi Ew) as (c' & E & Hi'). exists c'. split; [|done].
    revert E. unfold wstep. by rewrite Ew.
  - destruct (wstep_mark c d Hi Ew) as (c' & E & Hi'). exists c'. split; [|done].
    revert E. unfold wstep. by rewrite Ew.
  - unfold wstep. rewrite Ew. eexists. split; [done|].
    pose proof (inv_nfree_bound c Hi).
    destruct c as [r w rp s rc], Hi; unfold_conf; subst w; unfold_conf.
    constructor; unfold_conf; try done; try lia.
    + by apply shape_set_nfree.
    + assert (0 <= r_ahead rp <= 1 /\ 0 <= r_held rp) by (destruct rp; simpl; lia).
      unfold wrap64. rewrite Z.mod_small; lia.
Qed.

Lemma rstep_slot c :
  inv c -> c_r c = RSlot -> exists c', rstep c = Ok c' /\ inv c'.
Proof.
  intros Hi Hw. destruct c as [r w rp s rc]. simpl in Hw. subst rp.
  destruct Hi as [Hs Hwi Hri Hnn Ho Hh Hr Hf Hsl Hd Hp Hwp Hrp]. unfold_conf.
  pose proof (shape_nmemb_pos r Hs).
  unfold rstep. simpl. rewrite ready_slot_spec by done. simpl_outcome.
  rewrite Hri, wrapped_slot by done. eexists. split; [done|].
  pose proof (Hsl (zlen rc - 0)) as Hsl0. rewrite Hsl0 by lia.
  case_decide as Hc; simpl; constructor; unfold_conf; try done; try lia.
Qed.

Lemma rstep_copy c src :
  inv c -> c_r c = RCopy src -> exists c', rstep c = Ok c' /\ inv c'.
Proof.
  intros Hi Hw. destruct c as [r w rp s rc]. simpl in Hw. subst rp.
  destruct Hi as [Hs Hwi Hri Hnn Ho Hh Hr Hf Hsl Hd Hp Hwp [-> Hlt]]. unfold_conf.
  pose proof (shape_nmemb_pos r Hs).
  assert (Hw01 : 0 <= w_unfilled w <= w_unmarked w) by (destruct w; simpl; lia).
  destruct (lookup_lt_is_Some_2 s (List.length rc)) as [x Hx]; [unfold zlen in *; lia|].
  assert (Hdx : slot_data r ((zlen rc - 0) mod nmemb r) = x).
  { apply Hd; [lia|]. unfold zlen. by replace (Z.to_nat (Z.of_nat (List.length rc) - 0))
      with (List.length rc) by lia. }
  unfold rstep. simpl. rewrite copy_out_spec, Hdx by (auto using Z.mod_pos_bound).
  simpl_outcome. eexists. split; [done|].
  assert (Hz : zlen (rc ++ [x]) = zlen rc + 1) by (unfold zlen; rewrite length_app; simpl; lia).
  assert (Hz1 : zlen (rc ++ [x]) - 1 = zlen rc - 0) by lia.
  constructor; unfold_conf; rewrite ?Hz1; try done; try lia.
  rewrite length_app. simpl. rewrite Nat.add_comm. simpl. rewrite (take_S_r _ _ x) by done.
  by rewrite <- Hp.
Qed.

Lemma rstep_free c src :
  inv c -> c_r c = RFree src -> exists c', rstep c = Ok c' /\ inv c'.
Proof.
  intros Hi Hw. destruct c as [r w rp s rc]. simpl in Hw. subst rp.
  destruct Hi as [Hs Hwi Hri Hnn Ho Hh Hr Hf Hsl Hd Hp Hwp [-> Hlt]]. unfold_conf.
  pose proof (shape_nmemb_pos r Hs).
  destruct (mark_slot_spec r ((zlen rc - 1) mod nmemb r) SLOT_FREE Hs)
    as (r2 & E2 & Hs2 & (Hn2 & Hm2 & Hf2 & Hw2 & Hr2) & Hst2 & Hda2);
    [by apply Z.mod_pos_bound|].
  unfold rstep. simpl. rewrite E2. simpl_outcome. eexists. split; [done|].
  constructor; unfold_conf; rewrite ?Hn2, ?Hf2, ?Hw2, ?Hr2, ?Hm2; try done; try lia.
  - intros k Hk. rewrite Hst2, Hsl by lia. case_decide as Hc.
    + apply mod_eq_close in Hc; [|lia|lia]. subst k. by rewrite decide_False by lia.
    + assert (k <> zlen rc - 1) by (by intros ->).
      repeat case_decide; (done || lia).
  - intros k y Hk Hy. rewrite Hda2. by apply Hd.
Qed.

Lemma rstep_bump c :
  inv c -> c_r c = RBump -> exists c', rstep c = Ok c' /\ inv c'.
Proof.
  intros Hi Hw. destruct c as [r w rp s rc]. simpl in Hw. subst rp.
  destruct Hi as [Hs Hwi Hri Hnn Ho Hh Hr Hf Hsl Hd Hp Hwp Hrp]. unfold_conf.
  pose proof (shape_nmemb_pos r Hs).
  assert (Hw01 : 0 <= w_unmarked w <= w_held w /\ w_held w <= 1) by (destruct w; simpl; lia).
  unfold rstep. simpl. eexists. split; [done|].
  constructor; unfold_conf; try done; try lia.
  - by apply shape_set_ridx.
  - rewrite Hri, wrap64_succ. f_equal. lia.
  - intros k Hk. change (slot_state _ ?i) with (slot_state r i).
    destruct (decide (k = zlen rc - 1 + nmemb r)) as [->|Hne].
    + replace (zlen rc - 1 + nmemb r) with (zlen rc - 1 + 1 * nmemb r) by lia.
      rewrite Z.mod_add, Hsl, !decide_False by lia. done.
    + rewrite Hsl by lia. repeat case_decide; (done || lia).
  - intros k y Hk Hy. change (slot_data _ ?i) with (slot_data r i). apply Hd; [lia|done].
Qed.

Lemma rstep_inv c : inv c -> exists c', rstep c = Ok c' /\ inv c'.
Proof.
  intros Hi. destruct (c_r c) as [| | |a|a| |] eqn:Er.
  - unfold rstep. rewrite Er. eexists. split; [done|].
    destruct c as [r w rp s rc], Hi; unfold_conf; subst rp; constructor; unfold_conf; done.
  - unfold rstep. rewrite Er. eexists. split; [done|].
    destruct c as [r w rp s rc], Hi; unfold_conf; subst rp; unfold_conf.
    destruct (Z.eqb_spec (nfree r) (nmemb r)); constructor; unfold_conf; (done || lia).
  - by apply rstep_slot.
  - by apply (rstep_copy c a).
  - by apply (rstep_free c a).
  - by apply rstep_bump.
  - unfold rstep. rewrite Er. eexists. split; [done|].
    pose proof (inv_nfree_bound c Hi).
    destruct c as [r w rp s rc], Hi; unfold_conf; subst rp; unfold_conf.
    assert (0 <= w_unmarked w <= w_held w /\ w_held w <= 1) by (destruct w; simpl; lia).
    constructor; unfold_conf; try done; try lia.
    + by apply shape_set_nfree.
    + unfold wrap64. rewrite Z.mod_small; lia.
    + destruct w; try done. split; [apply i_wpc0|]. unfold wrap64. rewrite Z.mod_small; simpl in *; lia.
Qed.

Lemma step_inv c c' : step c c' -> inv c -> inv c'.
Proof.
  intros [c1 c2 x Hx E|c1 c2 E] Hi.
  - destruct (wstep_inv c1 x Hi Hx) as (c3 & E3 & Hi3). congruence.
  - destruct (rstep_inv c1 Hi) as (c3 & E3 & Hi3). congruence.
Qed.

Lemma steps_inv c c' : rtc step c c' -> inv c -> inv c'.
Proof. induction 1; eauto using step_inv. Qed.

Lemma reachable_inv al n sz r c :
  created al n sz r -> rtc step (initial r) c -> inv c.
Proof.
  intros Hcr Hst. destruct (created_queue al n sz r Hcr) as (Hq & Hr & _).
  eauto using steps_inv, inv_initial.
Qed.

Lemma step_geometry c c' :
  step c c' -> inv c ->
  nmemb (c_ring c') = nmemb (c_ring c) /\ memb_sz (c_ring c') = memb_sz (c_ring c).
Proof.
  intros Hst Hi. pose proof (i_shape c Hi) as Hs.
  destruct Hst as [c1 c2 x _ E|c1 c2 E].
  - unfold wstep in E. destruct (c_w c1) as [|y|y|y d|d|] eqn:Ew;
      try by injection E as <-.
    + rewrite claim_slot_spec in E by done. by injection E as <-.
    + pose proof (i_wpc c1 Hi) as Hw. unfold wpc_ok in Hw. rewrite Ew in Hw.
      destruct Hw as (Hy & _ & ->).
      destruct (copy_in_spec (c_ring c1) ((nwrite c1 - 1) mod nmemb (c_ring c1)) y Hs)
        as (r2 & E2 & _ & (? & ? & _) & _);
        [apply Z.mod_pos_bound; by apply shape_nmemb_pos | done |].
      rewrite E2 in E. by injection E as <-.
    + pose proof (i_wpc c1 Hi) as Hw. unfold wpc_ok in Hw. rewrite Ew in Hw. subst d.
      destruct (mark_slot_spec (c_ring c1) ((nwrite c1 - 1) mod nmemb (c_ring c1)) SLOT_READY Hs)
        as (r2 & E2 & _ & (? & ? & _) & _);
        [apply Z.mod_pos_bound; by apply shape_nmemb_pos |].
      rewrite E2 in E. by injection E as <-.
  - unfold rstep in E. destruct (c_r c1) as [| | |d|d| |] eqn:Er;
      try by injection E as <-.
    + rewrite ready_slot_spec in E by done. by injection E as <-.
    + apply bind_ok in E as (bs & _ & E). by injection E as <-.
    + pose proof (i_rpc c1 Hi) as Hw. unfold rpc_ok in Hw. rewrite Er in Hw.
      destruct Hw as (-> & _).
      destruct (mark_slot_spec (c_ring c1) (nread c1 mod nmemb (c_ring c1)) SLOT_FREE Hs)
        as (r2 & E2 & _ & (? & ? & _) & _);
        [apply Z.mod_pos_bound; by apply shape_nmemb_pos |].
      rewrite E2 in E. by injection E as <-.
Qed.

Lemma steps_geometry c c' :
  rtc step c c' -> inv c ->
  nmemb (c_ring c') = nmemb (c_ring c) /\ memb_sz (c_ring c') = memb_sz (c_ring c).
Proof.
  induction 1 as [|c1 c2 c3 Hst _ IH]; intros Hi; [done|].
  destruct (step_geometry c1 c2 Hst Hi) as [E1 E2].
  destruct (IH (step_inv c1 c2 Hst Hi)) as [E3 E4]. split; congruence.
Qed.

(** ** Properties *)

(** C1. In every interleaving of one writer and one reader the elements the
    reader has copied out are a prefix of the elements written, in their order,
    and at most [nmemb] elements are in flight. *)
Theorem spsc_fifo (al : allocator) (n sz : Z) (r : ring) (c : conf) :
  created al n sz r -> rtc step (initial r) c ->
  rcvd c `prefix_of` sent c /\
  Z.of_nat (List.length (sent c)) - Z.of_nat (List.length (rcvd c)) <= nmemb r.
Proof.
  intros Hcr Hst. destruct (created_queue al n sz r Hcr) as (Hq & Hr & _).
  pose proof (inv_initial r Hq Hr) as Hi0. pose proof (steps_inv _ _ Hst Hi0) as Hi.
  destruct (steps_geometry _ _ Hst Hi0) as [Hn _]. simpl in Hn. split.
  - rewrite (i_prefix c Hi). apply prefix_take.
  - pose proof (i_room c Hi) as Hroom. unfold nread, nwrite, zlen in Hroom. rewrite Hn in Hroom.
    destruct (c_r c); simpl in *; lia.
Qed.

(** No access faults: whatever the interleaving so far, the next access of
    the writer (of an element of the right size) and the next access of the
    reader both succeed. *)
Theorem spsc_never_faults (al : allocator) (n sz : Z) (r : ring) (c : conf) (x : list Z) :
  created al n sz r -> rtc step (initial r) c -> Z.of_nat (List.length x) = sz ->
  (exists c', wstep x c = Ok c') /\ (exists c', rstep c = Ok c').
Proof.
  intros Hcr Hst Hx. destruct (created_queue al n sz r Hcr) as (Hq & Hr & _ & Hm).
  pose proof (inv_initial r Hq Hr) as Hi0. pose proof (steps_inv _ _ Hst Hi0) as Hi.
  destruct (steps_geometry _ _ Hst Hi0) as [_ Hg]. simpl in Hg.
  destruct (wstep_inv c x Hi) as (c1 & E1 & _); [unfold zlen; congruence|].
  destruct (rstep_inv c Hi) as (c2 & E2 & _). eauto.
Qed.

(** C32. The writer never fills the slot the reader is copying out of: the two
    addresses differ whenever both are in their copy. *)
Theorem spsc_race_free (al : allocator) (n sz : Z) (r : ring) (c : conf) (x : list Z) (dst src : Z) :
  created al n sz r -> rtc step (initial r) c ->
  c_w c = WCopy x dst -> c_r c = RCopy src -> dst <> src.
Proof.
  intros Hcr Hst Hw Hr Heq. pose proof (reachable_inv al n sz r c Hcr Hst) as Hi.
  pose proof (i_wpc c Hi) as Hwp. pose proof (i_rpc c Hi) as Hrp. pose proof (i_room c Hi).
  unfold wpc_ok in Hwp. unfold rpc_ok in Hrp. rewrite Hw in *. rewrite Hr in *. simpl in *.
  destruct Hwp as (_ & _ & ->). destruct Hrp as (-> & Hlt).
  pose proof (sh_memb_sz _ (i_shape c Hi)).
  apply Z.mul_reg_r in Heq; [|lia]. revert Heq.
  pose proof (shape_nmemb_pos _ (i_shape c Hi)). apply other_slot; lia.
Qed.

(** A run of both threads: [true] moves the writer, [false] the reader. *)
Fixpoint interleave (sched : list bool) (x : list Z) (c : conf) : outcome conf :=
  match sched with
  | [] => mret c
  | b :: sched => c' ← (if b then wstep x c else rstep c); interleave sched x c'
  end.

Lemma interleave_reachable sched x c c' :
  inv c -> zlen x = memb_sz (c_ring c) -> interleave sched x c = Ok c' -> rtc step c c'.
Proof.
  revert c. induction sched as [|b sched IH]; intros c Hi Hx E; [by injection E as <-|].
  apply bind_ok in E as (c1 & E1 & E).
  assert (Hst : step c c1) by (destruct b; [by apply (step_writer c c1 x) | by apply step_reader]).
  eapply rtc_l; [exact Hst|]. apply IH; [by apply (step_inv c c1)| |done].
  destruct (step_geometry c c1 Hst Hi). congruence.
Qed.

(** One element is written; the reader copies it out while the writer copies
    a second one in. *)
Definition test_sched : list bool := replicate 9 true ++ [false; false; false].

Definition test_conf : conf :=
  match interleave test_sched [1; 2] (initial test_ring) with Ok c => c | Fault _ => initial test_ring end.

Lemma test_conf_reachable : rtc step (initial test_ring) test_conf.
Proof.
  destruct (created_queue _ _ _ _ test_created) as (Hq & Hr & _).
  apply (interleave_reachable test_sched [1; 2]); [by apply inv_initial|done|].
  vm_compute. reflexivity.
Qed.

Lemma spsc_fifo_witness :
  rcvd test_conf `prefix_of` sent test_conf /\
  Z.of_nat (List.length (sent test_conf)) - Z.of_nat (List.length (rcvd test_conf)) <= nmemb test_ring.
Proof. exact (spsc_fifo test_alloc 3 2 test_ring test_conf test_created test_conf_reachable). Defined.

Lemma spsc_never_faults_witness :
  (exists c', wstep [5; 6] test_conf = Ok c') /\ (exists c', rstep test_conf = Ok c').
Proof.
  exact (spsc_never_faults test_alloc 3 2 test_ring test_conf [5; 6]
           test_created test_conf_reachable eq_refl).
Defined.

Lemma spsc_race_free_witness :
  c_w test_conf = WCopy [1; 2] 2 /\ c_r test_conf = RCopy 0 /\ 2 <> 0.
Proof.
  split; [vm_compute; reflexivity|]. split; [vm_compute; reflexivity|].
  apply (spsc_race_free test_alloc 3 2 test_ring test_conf [1; 2] 2 0
           test_created test_conf_reachable); vm_compute; reflexivity.
Defined.

End RingConc.
