(* ===== verification/RingMulti.v ===== *)
(** * The ring buffer between several writers and one reader

    The multi-writer routines of include/ring.h, [__begin_mwrite_ring] and
    [__end_mwrite_ring], run in any number of threads at once beside one reader.
    A writer first takes a permit from the unsigned counter [nfree]; when the
    counter was not positive it gives it back, so the counter can pass below
    zero for a while and is then a huge number to everybody who reads it.  The
    macro [mwrite_vec_ring] is cut into its accesses to the shared ring; the
    reader is the one of [RingConc]. *)

From S2P Require Import Prelude Ring RingConc.

Module RingMulti.
Import Ring RingConc.

(** Where a writer is in [mwrite_vec_ring].  [k] counts the slot it holds among
    all slots ever claimed. *)
Inductive mpc :=
| MIdle
| MTest (x : list Z)
| MSub (x : list Z)
| MUndo (x : list Z)
| MClaim (x : list Z)
| MCopy (x : list Z) (dst k : Z)
| MMark (dst k : Z).

(** [m_sent] records the elements in the order in which slots were claimed for
    them. *)
Record mconf := MConf {
  m_ring : ring;
  m_pcs : list mpc;
  m_r : rpc;
  m_sent : list (list Z);
  m_rcvd : list (list Z)
}.

#[global] Instance mconf_eta : Eta mconf := fun c =>
  MConf (m_ring c) (m_pcs c) (m_r c) (m_sent c) (m_rcvd c).

(** One access of a writer that is at [p]; an idle one starts a call with [x]. *)
Definition maccess (x : list Z) (p : mpc) (r : ring) (sent : list (list Z))
    : outcome (mpc * ring * list (list Z)) :=
  match p with
  | MIdle => mret (MTest x, r, sent)
  | MTest x => mret (if nfree r <=? 0 then MTest x else MSub x, r, sent)
  | MSub x =>
      let old := signed 64 (nfree r) in
      mret (if old <=? 0 then MUndo x else MClaim x, sub_nfree r, sent)
  | MUndo x => mret (MTest x, add_nfree r, sent)
  | MClaim x =>
      '(dst, r) ← claim_slot r;
      match dst with
      | Some dst => mret (MCopy x dst (zlen sent), r, sent ++ [x])
      | None => mret (MTest x, r, sent)
      end
  | MCopy x dst k =>
      r ← copy_in r dst x;
      mret (MMark dst k, r, sent)
  | MMark dst k =>
      r ← mark_slot r dst SLOT_READY;
      mret (MIdle, r, sent)
  end.

Definition mwstep (t : nat) (x : list Z) (c : mconf) : outcome mconf :=
  match m_pcs c !! t with
  | None => mret c
  | Some p =>
      '(p', r, sent) ← maccess x p (m_ring c) (m_sent c);
      mret (c <| m_ring := r |> <| m_pcs ::= <[t := p']> |> <| m_sent := sent |>)
  end.

(** One access of the reader. *)
Definition mrstep (c : mconf) : outcome mconf :=
  b ← rstep (Conf (m_ring c) WIdle (m_r c) (m_sent c) (m_rcvd c));
  mret (c <| m_ring := c_ring b |> <| m_r := c_r b |> <| m_rcvd := rcvd b |>).

Inductive mstep : mconf -> mconf -> Prop :=
| mstep_writer c c' t x :
    zlen x = memb_sz (m_ring c) -> mwstep t x c = Ok c' -> mstep c c'
| mstep_reader c c' : mrstep c = Ok c' -> mstep c c'.

Definition minitial (r : ring) (n : nat) : mconf := MConf r (replicate n MIdle) RIdle [] [].

(** ** Counting threads *)

Definition total (f : mpc -> Z) (l : list mpc) : Z := fold_right (fun p k => f p + k) 0 l.

Lemma total_insert f l t p p' :
  l !! t = Some p -> total f (<[t := p']> l) = total f l - f p + f p'.
Proof.
  revert t. induction l as [|q l IH]; intros [|t] E; simplify_eq/=; [lia|].
  rewrite (IH t E). lia.
Qed.

Lemma total_bound f l : (forall p, 0 <= f p <= 1) -> 0 <= total f l <= zlen l.
Proof.
  intros Hf. unfold zlen. induction l as [|p l IH]; simpl; [lia|]. specialize (Hf p). lia.
Qed.

Lemma total_member f l t p : (forall p, 0 <= f p <= 1) -> l !! t = Some p -> f p <= total f l.
Proof.
  intros Hf. revert t. induction l as [|q l IH]; intros [|t] E; simplify_eq/=.
  - pose proof (total_bound f l Hf). lia.
  - specialize (IH t E). specialize (Hf q). lia.
Qed.

(** ** The invariant *)

(** A permit taken and not yet turned into a slot; a permit that has to be given
    back; the slot a writer holds, and whether it is still to be filled. *)
Definition permit (p : mpc) : Z := match p with MClaim _ => 1 | _ => 0 end.
Definition debt (p : mpc) : Z := match p with MUndo _ => 1 | _ => 0 end.
Definition ticket (p : mpc) : option Z :=
  match p with MCopy _ _ k | MMark _ k => Some k | _ => None end.
Definition unfilled (p : mpc) : option Z := match p with MCopy _ _ k => Some k | _ => None end.

Definition holds (h : mpc -> option Z) (l : list mpc) (k : Z) : Prop :=
  exists t p, l !! t = Some p /\ h p = Some k.

#[global] Instance holds_dec h l k : Decision (holds h l k).
Proof.
  refine (cast_if (decide (Exists (fun p => h p = Some k) l))).
  - abstract (apply Exists_exists in e as (p & [t Ht]%list_elem_of_lookup & Hp); by exists t, p).
  - abstract (intros (t & p & Ht & Hp); apply n, Exists_exists; exists p; split; [by eapply list_elem_of_lookup_2|done]).
Defined.

Definition r_taken (p : rpc) : Z := match p with RCopy _ | RFree _ | RBump => 1 | _ => 0 end.

Definition mwrite (c : mconf) : Z := zlen (m_sent c).
Definition mread (c : mconf) : Z := zlen (m_rcvd c) - r_ahead (m_r c).

Definition mpc_ok (c : mconf) (p : mpc) : Prop :=
  let r := m_ring c in
  match p with
  | MIdle => True
  | MTest x | MSub x | MUndo x | MClaim x => zlen x = memb_sz r
  | MCopy x dst k =>
      zlen x = memb_sz r /\ m_sent c !! Z.to_nat k = Some x /\
      dst = k mod nmemb r * memb_sz r /\ mread c + r_taken (m_r c) <= k < mwrite c
  | MMark dst k =>
      dst = k mod nmemb r * memb_sz r /\ mread c + r_taken (m_r c) <= k < mwrite c
  end.

Record minv (c : mconf) : Prop := {
  mi_shape : shape (m_ring c);
  mi_small : nmemb (m_ring c) <= 2 ^ 62 /\ zlen (m_pcs c) <= 2 ^ 62;
  mi_widx : widx (m_ring c) = wrap64 (mwrite c);
  mi_ridx : ridx (m_ring c) = wrap64 (mread c);
  mi_nonneg : 0 <= mread c;
  mi_order : mread c + r_taken (m_r c) <= mwrite c;
  mi_room : mwrite c - mread c + total permit (m_pcs c) + r_held (m_r c) <= nmemb (m_ring c);
  mi_nfree : nfree (m_ring c) = wrap64 (nmemb (m_ring c) - (mwrite c - mread c) -
    total permit (m_pcs c) - total debt (m_pcs c) - r_held (m_r c));
  mi_ready : forall k, mread c + r_freed (m_r c) <= k < mwrite c -> ~ holds ticket (m_pcs c) k ->
    slot_state (m_ring c) (k mod nmemb (m_ring c)) = SLOT_READY;
  mi_free : forall k, mread c <= k < mread c + nmemb (m_ring c) ->
    k < mread c + r_freed (m_r c) \/ mwrite c <= k \/ holds ticket (m_pcs c) k ->
    slot_state (m_ring c) (k mod nmemb (m_ring c)) = SLOT_FREE;
  mi_data : forall k x, mread c <= k < mwrite c -> ~ holds unfilled (m_pcs c) k ->
    m_sent c !! Z.to_nat k = Some x -> slot_data (m_ring c) (k mod nmemb (m_ring c)) = x;
  mi_prefix : m_rcvd c = take (List.length (m_rcvd c)) (m_sent c);
  mi_unique : forall t t' p p' k, m_pcs c !! t = Some p -> m_pcs c !! t' = Some p' ->
    ticket p = Some k -> ticket p' = Some k -> t = t';
  mi_pcs : forall t p, m_pcs c !! t = Some p -> mpc_ok c p;
  mi_rpc : match m_r c with
    | RCopy src | RFree src => src = mread c mod nmemb (m_ring c) * memb_sz (m_ring c)
    | _ => True
    end
}.

(** ** Preservation *)

Lemma permit_bound p : 0 <= permit p <= 1.
Proof. destruct p; simpl; lia. Qed.
Lemma debt_bound p : 0 <= debt p <= 1.
Proof. destruct p; simpl; lia. Qed.

Lemma signed64_wrap v : - 2 ^ 63 <= v < 2 ^ 63 -> signed 64 (wrap64 v) = v.
Proof.
  intros Hv. unfold signed, wrap64. rewrite Z.mod_mod by lia. change (2 ^ (64 - 1)) with (2 ^ 63).
  destruct (Z.le_gt_cases 0 v).
  - rewrite Z.mod_small by lia. destruct (Z.ltb_spec v (2 ^ 63)); lia.
  - replace (v mod 2 ^ 64) with (v + 2 ^ 64).
    + destruct (Z.ltb_spec (v + 2 ^ 64) (2 ^ 63)); lia.
    + symmetry. rewrite <- (Z.mod_add v 1) by lia. apply Z.mod_small. lia.
Qed.

Lemma wrap64_add v d : wrap64 (wrap64 v + d) = wrap64 (v + d).
Proof. unfold wrap64. apply Zplus_mod_idemp_l. Qed.

Section Holds.
Context (h : mpc -> option Z) (l : list mpc) (t : nat) (p p' : mpc) (Ht : l !! t = Some p).

Lemma holds_keep k : h p' = h p -> holds h (<[t := p']> l) k <-> holds h l k.
Proof.
  intros E. split; intros (u & q & Hu & Hq).
  - destruct (decide (t = u)) as [<-|Hne].
    + rewrite list_lookup_insert_eq in Hu by (by eapply lookup_lt_Some). simplify_eq. exists t, p. by rewrite <- E.
    + rewrite list_lookup_insert_ne in Hu by done. by exists u, q.
  - destruct (decide (t = u)) as [<-|Hne].
    + simplify_eq. exists t, p'. rewrite list_lookup_insert_eq by (by eapply lookup_lt_Some). by rewrite E.
    + exists u, q. by rewrite list_lookup_insert_ne.
Qed.

Lemma holds_gain k k0 :
  h p = None -> h p' = Some k0 -> holds h (<[t := p']> l) k <-> holds h l k \/ k = k0.
Proof.
  intros E E'. split.
  - intros (u & q & Hu & Hq). destruct (decide (t = u)) as [<-|Hne].
    + rewrite list_lookup_insert_eq in Hu by (by eapply lookup_lt_Some). simplify_eq. by right.
    + rewrite list_lookup_insert_ne in Hu by done. left. by exists u, q.
  - intros [(u & q & Hu & Hq)| ->].
    + exists u, q. rewrite list_lookup_insert_ne; [done|]. intros <-. congruence.
    + exists t, p'. by rewrite list_lookup_insert_eq by (by eapply lookup_lt_Some).
Qed.

Lemma holds_lose k k0 :
  h p = Some k0 -> h p' = None ->
  (forall u q, l !! u = Some q -> h q = Some k0 -> u = t) ->
  holds h (<[t := p']> l) k <-> holds h l k /\ k <> k0.
Proof.
  intros E E' Hu. split.
  - intros (u & q & Hq & Hk). destruct (decide (t = u)) as [<-|Hne].
    + rewrite list_lookup_insert_eq in Hq by (by eapply lookup_lt_Some). simplify_eq.
    + rewrite list_lookup_insert_ne in Hq by done. split; [by exists u, q|]. intros ->.
      by apply Hne, eq_sym, (Hu u q).
  - intros [(u & q & Hq & Hk) Hne]. exists u, q. rewrite list_lookup_insert_ne; [done|].
    intros <-. congruence.
Qed.

Lemma insert_cases u q : <[t := p']> l !! u = Some q -> (u = t /\ q = p') \/ (u <> t /\ l !! u = Some q).
Proof.
  destruct (decide (t = u)) as [<-|Hne].
  - rewrite list_lookup_insert_eq by (by eapply lookup_lt_Some). intros [= <-]. by left.
  - rewrite list_lookup_insert_ne by done. right. split; [congruence|done].
Qed.

End Holds.

Lemma minv_initial r n :
  queue r [] -> ridx r = 0 -> nmemb r <= 2 ^ 62 -> Z.of_nat n <= 2 ^ 62 -> minv (minitial r n).
Proof.
  intros Hq Hr Hm Hn. pose proof (q_shape r _ Hq) as Hs. pose proof (shape_nmemb_pos r Hs).
  pose proof (q_length r _ Hq) as Hl. simpl in Hl.
  assert (Hpc : forall t p, replicate n MIdle !! t = Some p -> p = MIdle).
  { intros t p. by intros [-> _]%lookup_replicate. }
  assert (Htot : forall f, f MIdle = 0 -> total f (replicate n MIdle) = 0).
  { intros f Hf. clear Hn Hpc. induction n as [|n IH]; simpl; [done|]. rewrite Hf, IH. done. }
  assert (Hno : forall h k, h MIdle = None -> ~ holds h (replicate n MIdle) k).
  { intros h k Hh (t & p & Ht & Hp). apply Hpc in Ht as ->. congruence. }
  constructor; unfold mread, mwrite, zlen in *; simpl; try done; rewrite ?(Htot permit), ?(Htot debt) by done; try lia.
  - by rewrite length_replicate.
  - rewrite (q_widx r _ Hq). simpl. by rewrite Hr.
  - unfold wrap64. rewrite Z.mod_small; [lia|]. pose proof (sh_bytes r Hs). pose proof (sh_memb_sz r Hs). nia.
  - intros k Hk _. pose proof (q_empty r _ Hq k) as He. rewrite Hr in He. apply He. simpl. lia.
  - intros t t' p p' k Ht%Hpc _ Hp. by subst.
  - intros t p Ht%Hpc. by subst.
Qed.

Ltac unfold_mconf := unfold mread, mwrite in *; simpl in *.

Lemma ticket_unfilled p : ticket p = None -> unfilled p = None.
Proof. by destruct p. Qed.

(** A step that only moves the counter. *)
Lemma minv_counter c t p p' f :
  minv c -> m_pcs c !! t = Some p -> ticket p = None -> ticket p' = None -> mpc_ok c p' ->
  mwrite c - mread c + (total permit (m_pcs c) - permit p + permit p') + r_held (m_r c) <= nmemb (m_ring c) ->
  f = wrap64 (nmemb (m_ring c) - (mwrite c - mread c) - (total permit (m_pcs c) - permit p + permit p')
    - (total debt (m_pcs c) - debt p + debt p') - r_held (m_r c)) ->
  minv (c <| m_ring ::= fun r => r <| nfree := f |> |> <| m_pcs ::= <[t := p']> |>).
Proof.
  intros Hi Ht Ep Ep' Hok Hroom Hf. destruct c as [r l rp s rc].
  destruct Hi as [Hs [Hsm Hsl] Hw Hr Hnn Ho Hro Hnf Hrdy Hfree Hd Hp Hu Hpc Hrpc]. unfold_mconf.
  assert (Hk : forall k, holds ticket (<[t := p']> l) k <-> holds ticket l k).
  { intros k. apply (holds_keep _ _ _ p); congruence. }
  assert (Hk' : forall k, holds unfilled (<[t := p']> l) k <-> holds unfilled l k).
  { intros k. apply (holds_keep _ _ _ p); [done|]. by rewrite !ticket_unfilled. }
  constructor; unfold_mconf; rewrite ?(total_insert _ l t p) by done; try done.
  - by apply shape_set_nfree.
  - split; [done|]. unfold zlen in *. by rewrite length_insert.
  - intros k. rewrite Hk. apply Hrdy.
  - intros k. rewrite Hk. apply Hfree.
  - intros k x. rewrite Hk'. apply Hd.
  - intros u u' q q' k [[-> ->]|[_ Hq]]%(insert_cases _ _ p) [[-> ->]|[_ Hq']]%(insert_cases _ _ p) E E';
      try done; try congruence. by apply (Hu u u' q q' k).
  - intros u q [[-> ->]|[_ Hq]]%(insert_cases _ _ p); [done| |done]. by apply (Hpc u).
Qed.

Lemma minv_total_bounds c :
  minv c -> 0 <= total permit (m_pcs c) /\ 0 <= total debt (m_pcs c) <= 2 ^ 62 /\
    0 <= r_held (m_r c) /\ 0 < nmemb (m_ring c) <= 2 ^ 62 /\ r_taken (m_r c) <= mwrite c - mread c /\
    0 <= r_taken (m_r c) <= 1.
Proof.
  intros [Hs [Hsm Hsl] _ _ _ Ho _ _ _ _ _ _ _ _ _].
  pose proof (total_bound permit (m_pcs c) permit_bound). pose proof (total_bound debt (m_pcs c) debt_bound).
  pose proof (shape_nmemb_pos _ Hs).
  assert (0 <= r_held (m_r c)) by (destruct (m_r c); simpl; lia).
  assert (0 <= r_taken (m_r c) <= 1) by (destruct (m_r c); simpl; lia). lia.
Qed.

(** The counter read as a signed number. *)
Lemma nfree_signed c :
  minv c -> signed 64 (nfree (m_ring c)) = nmemb (m_ring c) - (mwrite c - mread c) -
    total permit (m_pcs c) - total debt (m_pcs c) - r_held (m_r c).
Proof.
  intros Hi. destruct (minv_total_bounds c Hi) as (? & ? & ? & ? & ? & ?).
  rewrite (mi_nfree c Hi). apply signed64_wrap. pose proof (mi_room c Hi). lia.
Qed.

Lemma mwstep_counter c t x p :
  minv c -> zlen x = memb_sz (m_ring c) -> m_pcs c !! t = Some p ->
  match p with MIdle | MTest _ | MSub _ | MUndo _ => True | _ => False end ->
  exists c', mwstep t x c = Ok c' /\ minv c'.
Proof.
  intros Hi Hx Ht Hp. pose proof (mi_pcs c Hi t p Ht) as Hok. pose proof (mi_room c Hi) as Hroom.
  pose proof (mi_nfree c Hi) as Hnf. pose proof (nfree_signed c Hi) as Hsg.
  destruct (minv_total_bounds c Hi) as (Hb1 & Hb2 & Hb3 & Hb4 & Hb5 & Hb6).
  assert (Hgo : forall p' f, ticket p = None -> ticket p' = None -> mpc_ok c p' ->
    mwrite c - mread c + (total permit (m_pcs c) - permit p + permit p') + r_held (m_r c) <= nmemb (m_ring c) ->
    f = wrap64 (nmemb (m_ring c) - (mwrite c - mread c) - (total permit (m_pcs c) - permit p + permit p')
      - (total debt (m_pcs c) - debt p + debt p') - r_held (m_r c)) ->
    minv (c <| m_ring := (m_ring c) <| nfree := f |> |> <| m_pcs ::= <[t := p']> |> <| m_sent := m_sent c |>)).
  { intros p' f E E' Hok' Hr Hf. apply (minv_counter c t p p' f) in Hi; try done. }
  assert (Hsame : forall r, r <| nfree := nfree r |> = r) by (by intros []).
  unfold mwstep. rewrite Ht. destruct p as [|y|y|y| | |]; try done; simpl; (eexists; split; [done|]).
  - specialize (Hgo (MTest x) (nfree (m_ring c))). rewrite Hsame in Hgo. apply Hgo; simpl; try done; try lia.
    rewrite Hnf. f_equal. lia.
  - assert (forall q, ticket q = None -> permit q = 0 -> debt q = 0 -> mpc_ok c q ->
      minv (c <| m_ring := m_ring c |> <| m_pcs ::= <[t := q]> |> <| m_sent := m_sent c |>)) as Hq.
    { intros q E1 E2 E3 E4. specialize (Hgo q (nfree (m_ring c))). rewrite Hsame in Hgo.
      apply Hgo; simpl; try done; rewrite ?E2, ?E3; try lia. rewrite Hnf. f_equal. lia. }
    by destruct (nfree (m_ring c) <=? 0); apply Hq.
  - unfold sub_nfree. destruct (Z.leb_spec (signed 64 (nfree (m_ring c))) 0) as [Hle|Hgt];
      apply Hgo; simpl; try done; try lia; rewrite Hnf; unfold Z.sub at 1; rewrite wrap64_add; f_equal; lia.
  - unfold add_nfree. apply Hgo; simpl; try done; try lia. rewrite Hnf, wrap64_add. f_equal. lia.
Qed.

(** *** Claiming, filling and marking a slot *)

Lemma zlen_snoc {A} (l : list A) x : zlen (l ++ [x]) = zlen l + 1.
Proof. unfold zlen. rewrite length_app. simpl. lia. Qed.

Lemma mwstep_claim c t x y :
  minv c -> m_pcs c !! t = Some (MClaim y) -> exists c', mwstep t x c = Ok c' /\ minv c'.
Proof.
  intros Hi Ht. destruct (minv_total_bounds c Hi) as (Hb1 & Hb2 & Hb3 & Hb4 & Hb5 & Hb6).
  destruct c as [r l rp s rc].
  destruct Hi as [Hs [Hsm Hsl] Hw Hr Hnn Ho Hro Hnf Hrdy Hfree Hd Hp Hu Hpc Hrpc]. unfold_mconf.
  pose proof (Hpc t _ Ht) as Hy. simpl in Hy.
  pose proof (total_member permit l t _ permit_bound Ht) as Hper. simpl in Hper.
  unfold mwstep. simpl. rewrite Ht. simpl. rewrite claim_slot_spec by done. simpl_outcome.
  rewrite Hw, wrapped_slot, wrap64_succ by done. eexists. split; [done|].
  set (p' := MCopy y (zlen s mod nmemb r * memb_sz r) (zlen s)).
  assert (Hk : forall k, holds ticket (<[t := p']> l) k <-> holds ticket l k \/ k = zlen s)
    by (intros k; by apply (holds_gain _ _ _ (MClaim y))).
  assert (Hk' : forall k, holds unfilled (<[t := p']> l) k <-> holds unfilled l k \/ k = zlen s)
    by (intros k; by apply (holds_gain _ _ _ (MClaim y))).
  assert (Hlt : forall u q k, l !! u = Some q -> ticket q = Some k -> k < zlen s).
  { intros u q k Hq E. pose proof (Hpc u q Hq) as Hok. destruct q; simplify_eq/=; intuition. }
  constructor; unfold_mconf; rewrite ?zlen_snoc, ?(total_insert _ l t (MClaim y)) by done; try done; simpl; try lia.
  - by apply shape_set_widx.
  - split; [done|]. unfold zlen in *. by rewrite length_insert.
  - rewrite Hnf. f_equal. lia.
  - intros k Hkr Hn. rewrite Hk in Hn. apply Hrdy; [|tauto]. enough (k <> zlen s) by lia. tauto.
  - intros k Hkr Hc. rewrite Hk in Hc. apply Hfree; [lia|]. destruct Hc as [?|[?|[?| ->]]]; [by left|right; left; lia|auto|].
    right. left. lia.
  - intros k z Hkr Hn Hz. rewrite Hk' in Hn. assert (k <> zlen s) by tauto. apply Hd; [lia|tauto|].
    rewrite lookup_app_l in Hz; [done|]. unfold zlen in *. lia.
  - rewrite Hp at 1. rewrite take_app_le; [done|]. unfold zlen in *. destruct rp; simpl in *; lia.
  - intros u u' q q' k [[-> ->]|[Hne Hq]]%(insert_cases _ _ (MClaim y)) [[-> ->]|[Hne' Hq']]%(insert_cases _ _ (MClaim y)) E E';
      try done; simplify_eq/=.
    + apply (Hlt u' q') in E'; [lia|done].
    + apply (Hlt u q) in E; [lia|done].
    + by apply (Hu u u' q q' k).
  - intros u q [[-> ->]|[_ Hq]]%(insert_cases _ _ (MClaim y)); [| |done].
    + unfold mpc_ok; unfold_mconf. rewrite zlen_snoc. split_and!; try done; try lia.
      unfold zlen. rewrite Nat2Z.id. by rewrite list_lookup_middle.
    + pose proof (Hpc u q Hq) as Hok. unfold mpc_ok in *. unfold_mconf. rewrite ?zlen_snoc.
      destruct q; try done; intuition (try lia). by apply lookup_app_l_Some.
Qed.

(** Slots of different claims in flight are different. *)
Lemma slot_apart a b n lo hi : 0 < n -> lo <= a < hi -> lo <= b < hi -> hi - lo <= n -> a mod n = b mod n -> a = b.
Proof. intros. apply (mod_eq_close a b n); lia. Qed.

Lemma mwstep_copy c t x y dst k0 :
  minv c -> m_pcs c !! t = Some (MCopy y dst k0) -> exists c', mwstep t x c = Ok c' /\ minv c'.
Proof.
  intros Hi Ht. destruct (minv_total_bounds c Hi) as (Hb1 & Hb2 & Hb3 & Hb4 & Hb5 & Hb6).
  destruct c as [r l rp s rc].
  destruct Hi as [Hs [Hsm Hsl] Hw Hr Hnn Ho Hro Hnf Hrdy Hfree Hd Hp Hu Hpc Hrpc]. unfold_mconf.
  pose proof (Hpc t _ Ht) as (Hy & Hsy & -> & Hk0). unfold_mconf.
  destruct (copy_in_spec r (k0 mod nmemb r) y Hs)
    as (r2 & E2 & Hs2 & (Hn2 & Hm2 & Hf2 & Hw2 & Hr2) & Hst2 & Hda2); [apply Z.mod_pos_bound; lia | done |].
  unfold mwstep. simpl. rewrite Ht. simpl. rewrite E2. simpl_outcome. eexists. split; [done|].
  set (p := MCopy y (k0 mod nmemb r * memb_sz r) k0) in *. set (p' := MMark (k0 mod nmemb r * memb_sz r) k0).
  assert (Hk : forall k, holds ticket (<[t := p']> l) k <-> holds ticket l k)
    by (intros k; by apply (holds_keep _ _ _ p)).
  assert (Hk' : forall k, holds unfilled (<[t := p']> l) k <-> holds unfilled l k /\ k <> k0).
  { intros k. apply (holds_lose _ _ _ p); try done. intros u q Hq E. apply (Hu u t q p k0); try done. by destruct q. }
  constructor; unfold_mconf; rewrite ?Hn2, ?Hf2, ?Hw2, ?Hr2, ?Hm2, ?(total_insert _ l t p) by done; try done; simpl; try lia.
  - split; [done|]. unfold zlen in *. by rewrite length_insert.
  - rewrite Hnf. f_equal. lia.
  - intros k Hkr Hn. rewrite Hk in Hn. rewrite Hst2. by apply Hrdy.
  - intros k Hkr Hc. rewrite Hk in Hc. rewrite Hst2. by apply Hfree.
  - intros k z Hkr Hn Hz. rewrite Hk' in Hn. rewrite Hda2. case_decide as Hc.
    + apply (slot_apart _ _ _ (zlen rc - r_ahead rp) (zlen s)) in Hc; [|lia..]. subst k. congruence.
    + apply Hd; try done. intros Hun. apply Hn. split; [done|]. by intros ->.
  - intros u u' q q' k [[-> ->]|[Hne Hq]]%(insert_cases _ _ p) [[-> ->]|[Hne' Hq']]%(insert_cases _ _ p) E E';
      try done; simplify_eq/=.
    + by apply (Hu t u' p q' k).
    + by apply (Hu u t q p k).
    + by apply (Hu u u' q q' k).
  - intros u q [[-> ->]|[_ Hq]]%(insert_cases _ _ p); [| |done].
    + unfold mpc_ok; unfold_mconf. by rewrite Hn2, Hm2.
    + pose proof (Hpc u q Hq) as Hok. unfold mpc_ok in *. unfold_mconf. by rewrite Hn2, Hm2.
Qed.

Lemma mwstep_mark c t x dst k0 :
  minv c -> m_pcs c !! t = Some (MMark dst k0) -> exists c', mwstep t x c = Ok c' /\ minv c'.
Proof.
  intros Hi Ht. destruct (minv_total_bounds c Hi) as (Hb1 & Hb2 & Hb3 & Hb4 & Hb5 & Hb6).
  destruct c as [r l rp s rc].
  destruct Hi as [Hs [Hsm Hsl] Hw Hr Hnn Ho Hro Hnf Hrdy Hfree Hd Hp Hu Hpc Hrpc]. unfold_mconf.
  pose proof (Hpc t _ Ht) as (-> & Hk0). unfold_mconf.
  destruct (mark_slot_spec r (k0 mod nmemb r) SLOT_READY Hs)
    as (r2 & E2 & Hs2 & (Hn2 & Hm2 & Hf2 & Hw2 & Hr2) & Hst2 & Hda2); [apply Z.mod_pos_bound; lia|].
  unfold mwstep. simpl. rewrite Ht. simpl. rewrite E2. simpl_outcome. eexists. split; [done|].
  set (p := MMark (k0 mod nmemb r * memb_sz r) k0) in *.
  assert (Hfr : r_freed rp <= r_taken rp) by (destruct rp; simpl; lia).
  assert (Hk : forall k, holds ticket (<[t := MIdle]> l) k <-> holds ticket l k /\ k <> k0).
  { intros k. apply (holds_lose _ _ _ p); try done. intros u q Hq E. by apply (Hu u t q p k0). }
  assert (Hk' : forall k, holds unfilled (<[t := MIdle]> l) k <-> holds unfilled l k)
    by (intros k; by apply (holds_keep _ _ _ p)).
  constructor; unfold_mconf; rewrite ?Hn2, ?Hf2, ?Hw2, ?Hr2, ?Hm2, ?(total_insert _ l t p) by done; try done; simpl; try lia.
  - split; [done|]. unfold zlen in *. by rewrite length_insert.
  - rewrite Hnf. f_equal. lia.
  - intros k Hkr Hn. rewrite Hk in Hn. rewrite Hst2. case_decide as Hc; [done|].
    apply Hrdy; [done|]. intros Hh. apply Hn. split; [done|]. by intros ->.
  - intros k Hkr Hc. rewrite Hk in Hc. rewrite Hst2. case_decide as Hm.
    + apply (slot_apart _ _ _ (zlen rc - r_ahead rp) (zlen rc - r_ahead rp + nmemb r)) in Hm; [|lia..]. subst k.
      destruct Hc as [?|[?|[_ ?]]]; [lia|lia|done].
    + apply Hfree; [done|]. tauto.
  - intros k z Hkr Hn Hz. rewrite Hk' in Hn. rewrite Hda2. by apply Hd.
  - intros u u' q q' k [[-> ->]|[Hne Hq]]%(insert_cases _ _ p) [[-> ->]|[Hne' Hq']]%(insert_cases _ _ p) E E';
      try done. by apply (Hu u u' q q' k).
  - intros u q [[-> ->]|[_ Hq]]%(insert_cases _ _ p); [done| |done].
    pose proof (Hpc u q Hq) as Hok. unfold mpc_ok in *. unfold_mconf. by rewrite Hn2, Hm2.
Qed.

Lemma mwstep_inv c t x :
  minv c -> zlen x = memb_sz (m_ring c) -> exists c', mwstep t x c = Ok c' /\ minv c'.
Proof.
  intros Hi Hx. destruct (m_pcs c !! t) as [p|] eqn:Ht.
  - destruct p; try (by eapply mwstep_counter).
    + by eapply mwstep_claim.
    + by eapply mwstep_copy.
    + by eapply mwstep_mark.
  - exists c. split; [|done]. unfold mwstep. by rewrite Ht.
Qed.

(** *** The reader *)

(** A step of the reader that leaves the writers' slots alone. *)
Lemma mpc_ok_keep c c' p :
  nmemb (m_ring c') = nmemb (m_ring c) -> memb_sz (m_ring c') = memb_sz (m_ring c) ->
  m_sent c' = m_sent c -> mread c' + r_taken (m_r c') = mread c + r_taken (m_r c) ->
  mpc_ok c p -> mpc_ok c' p.
Proof.
  intros En Em Es Ek. unfold mpc_ok, mwrite. rewrite En, Em, Es.
  destruct p; try done; rewrite Ek; done.
Qed.

Lemma mrstep_quiet c :
  minv c -> m_r c = RIdle \/ m_r c = RTest -> exists c', mrstep c = Ok c' /\ minv c'.
Proof.
  intros Hi Hr. assert (Hgo : forall rp', rp' = RTest \/ rp' = RSlot -> minv (c <| m_r := rp' |>)).
  { intros rp' Hrp. destruct c as [r l rp s rc], Hi. unfold_mconf.
    assert (r_ahead rp' = r_ahead rp /\ r_taken rp' = r_taken rp /\ r_held rp' = r_held rp /\ r_freed rp' = r_freed rp)
      as (E1 & E2 & E3 & E4) by (destruct Hrp, Hr; by subst).
    constructor; unfold_mconf; rewrite ?E1, ?E2, ?E3, ?E4; try done; [|destruct Hrp; by subst].
    intros t p Ht. apply (mpc_ok_keep (MConf r l rp s rc)); try done; [|by apply (mi_pcs0 t)].
    unfold_mconf. by rewrite E1, E2. }
  assert (Hring : forall rp', c <| m_ring := m_ring c |> <| m_r := rp' |> <| m_rcvd := m_rcvd c |> = c <| m_r := rp' |>)
    by (by destruct c).
  unfold mrstep, rstep. destruct Hr as [E|E]; rewrite E; simpl; eexists; (split; [done|]); rewrite Hring; apply Hgo;
    [by left | destruct (_ =? _); [by left | by right]].
Qed.

Lemma mrstep_slot c : minv c -> m_r c = RSlot -> exists c', mrstep c = Ok c' /\ minv c'.
Proof.
  intros Hi Er. destruct (minv_total_bounds c Hi) as (Hb1 & Hb2 & Hb3 & Hb4 & Hb5 & Hb6).
  destruct c as [r l rp s rc]. simpl in Er. subst rp.
  destruct Hi as [Hs [Hsm Hsl] Hw Hr Hnn Ho Hro Hnf Hrdy Hfree Hd Hp Hu Hpc Hrpc]. unfold_mconf.
  unfold mrstep, rstep. simpl. rewrite ready_slot_spec by done. simpl_outcome. rewrite Hr, wrapped_slot by done.
  eexists. split; [done|]. set (m := zlen rc - 0) in *.
  assert (Hm : slot_state r (m mod nmemb r) = SLOT_READY -> m < zlen s /\ ~ holds ticket l m).
  { intros E. destruct (decide (m < zlen s)); [destruct (decide (holds ticket l m)); [|done]|].
    all: rewrite Hfree in E; [done|lia|]; auto. right. left. lia. }
  destruct (Z.eqb_spec (slot_state r (m mod nmemb r)) SLOT_READY) as [E|E];
    constructor; unfold_mconf; try done; fold m; try (destruct (Hm E); lia).
  - intros t p Ht. pose proof (Hpc t p Ht) as Hok. destruct (Hm E) as [_ Hn].
    assert (Hne : forall k, ticket p = Some k -> k <> m) by (intros k Ek ->; apply Hn; by exists t, p).
    unfold mpc_ok in *. unfold_mconf. fold m in Hok |- *.
    destruct p as [| | | | |z d k|d k]; try done; specialize (Hne k eq_refl); intuition lia.
Qed.

Lemma mrstep_copy c src : minv c -> m_r c = RCopy src -> exists c', mrstep c = Ok c' /\ minv c'.
Proof.
  intros Hi Er. destruct (minv_total_bounds c Hi) as (Hb1 & Hb2 & Hb3 & Hb4 & Hb5 & Hb6).
  destruct c as [r l rp s rc]. simpl in Er. subst rp.
  destruct Hi as [Hs [Hsm Hsl] Hw Hr Hnn Ho Hro Hnf Hrdy Hfree Hd Hp Hu Hpc Hrpc]. unfold_mconf. subst src.
  destruct (lookup_lt_is_Some_2 s (List.length rc)) as [x Hx]; [unfold zlen in *; lia|].
  assert (Hdx : slot_data r ((zlen rc - 0) mod nmemb r) = x).
  { apply Hd; [lia| |]; [|unfold zlen; by replace (Z.to_nat (Z.of_nat (List.length rc) - 0)) with (List.length rc) by lia].
    intros (t & p & Ht & Hun). pose proof (Hpc t p Ht) as Hok. unfold mpc_ok in Hok. unfold_mconf.
    destruct p; simplify_eq/=. lia. }
  unfold mrstep, rstep. simpl. rewrite copy_out_spec, Hdx by (try apply Z.mod_pos_bound; done || lia). simpl_outcome.
  eexists. split; [done|].
  assert (Hz1 : zlen (rc ++ [x]) - 1 = zlen rc - 0) by (rewrite zlen_snoc; lia).
  constructor; unfold_mconf; rewrite ?Hz1; try done.
  - rewrite length_app. simpl. rewrite Nat.add_comm. simpl. rewrite (take_S_r _ _ x) by done. by rewrite <- Hp.
  - intros t p Ht. apply (mpc_ok_keep (MConf r l (RCopy ((zlen rc - 0) mod nmemb r * memb_sz r)) s rc)); try done; [|by apply (Hpc t)].
    unfold_mconf. lia.
Qed.

Lemma mrstep_free c src : minv c -> m_r c = RFree src -> exists c', mrstep c = Ok c' /\ minv c'.
Proof.
  intros Hi Er. destruct (minv_total_bounds c Hi) as (Hb1 & Hb2 & Hb3 & Hb4 & Hb5 & Hb6).
  destruct c as [r l rp s rc]. simpl in Er. subst rp.
  destruct Hi as [Hs [Hsm Hsl] Hw Hr Hnn Ho Hro Hnf Hrdy Hfree Hd Hp Hu Hpc Hrpc]. unfold_mconf. subst src.
  destruct (mark_slot_spec r ((zlen rc - 1) mod nmemb r) SLOT_FREE Hs)
    as (r2 & E2 & Hs2 & (Hn2 & Hm2 & Hf2 & Hw2 & Hr2) & Hst2 & Hda2); [apply Z.mod_pos_bound; lia|].
  unfold mrstep, rstep. simpl. rewrite E2. simpl_outcome. eexists. split; [done|].
  constructor; unfold_mconf; rewrite ?Hn2, ?Hf2, ?Hw2, ?Hr2, ?Hm2; try done.
  - intros k Hkr Hn. rewrite Hst2. case_decide as Hc; [|apply Hrdy; [lia|done]].
    apply (slot_apart _ _ _ (zlen rc - 1) (zlen s)) in Hc; lia.
  - intros k Hkr Hc. rewrite Hst2. case_decide as Hm; [done|]. apply Hfree; [done|].
    destruct Hc as [?|?]; [|auto]. destruct Hm. f_equal. lia.
  - intros k z Hkr Hn Hz. rewrite Hda2. by apply Hd.
  - intros t p Ht. apply (mpc_ok_keep (MConf r l (RFree ((zlen rc - 1) mod nmemb r * memb_sz r)) s rc)); try done. by apply (Hpc t).
Qed.

Lemma mrstep_bump c : minv c -> m_r c = RBump -> exists c', mrstep c = Ok c' /\ minv c'.
Proof.
  intros Hi Er. destruct (minv_total_bounds c Hi) as (Hb1 & Hb2 & Hb3 & Hb4 & Hb5 & Hb6).
  destruct c as [r l rp s rc]. simpl in Er. subst rp.
  destruct Hi as [Hs [Hsm Hsl] Hw Hr Hnn Ho Hro Hnf Hrdy Hfree Hd Hp Hu Hpc Hrpc]. unfold_mconf.
  unfold mrstep, rstep. simpl. eexists. split; [done|].
  constructor; unfold_mconf; try done; try lia.
  - by apply shape_set_ridx.
  - rewrite Hr, wrap64_succ. f_equal. lia.
  - rewrite Hnf. f_equal. lia.
  - intros k Hkr Hn. apply Hrdy; [lia|done].
  - intros k Hkr Hc. change (slot_state _ ?i) with (slot_state r i).
    destruct (decide (k = zlen rc - 1 + nmemb r)) as [->|Hne].
    + replace (zlen rc - 1 + nmemb r) with (zlen rc - 1 + 1 * nmemb r) by lia.
      rewrite Z.mod_add by lia. apply Hfree; lia.
    + apply Hfree; [lia|]. destruct Hc as [?|?]; [lia|auto].
  - intros k z Hkr Hn Hz. change (slot_data _ ?i) with (slot_data r i). apply Hd; try done. lia.
  - intros t p Ht. apply (mpc_ok_keep (MConf r l RBump s rc)); try done; [|by apply (Hpc t)]. unfold_mconf. lia.
Qed.

Lemma mrstep_add c : minv c -> m_r c = RAdd -> exists c', mrstep c = Ok c' /\ minv c'.
Proof.
  intros Hi Er. destruct c as [r l rp s rc]. simpl in Er. subst rp.
  destruct Hi as [Hs [Hsm Hsl] Hw Hr Hnn Ho Hro Hnf Hrdy Hfree Hd Hp Hu Hpc Hrpc]. unfold_mconf.
  unfold mrstep, rstep. simpl. eexists. split; [done|].
  constructor; unfold_mconf; try done; try lia.
  - by apply shape_set_nfree.
  - rewrite Hnf, wrap64_add. f_equal. lia.
Qed.

Lemma mrstep_inv c : minv c -> exists c', mrstep c = Ok c' /\ minv c'.
Proof.
  intros Hi. destruct (m_r c) eqn:Er; eauto using mrstep_quiet, mrstep_slot, mrstep_copy, mrstep_free, mrstep_bump, mrstep_add.
Qed.

(** *** The geometry of the ring never changes *)

Definition geometry (r : ring) : Z * Z := (nmemb r, memb_sz r).

Lemma claim_slot_geometry r d r' : claim_slot r = Ok (d, r') -> geometry r' = geometry r.
Proof. unfold claim_slot. intros (idx & _ & E)%bind_ok. by injection E as _ <-. Qed.

Lemma copy_in_geometry r a x r' : copy_in r a x = Ok r' -> geometry r' = geometry r.
Proof. unfold copy_in. intros (b & _ & (b' & _ & E)%bind_ok)%bind_ok. by injection E as <-. Qed.

Lemma mark_slot_geometry r a v r' : mark_slot r a v = Ok r' -> geometry r' = geometry r.
Proof.
  unfold mark_slot, slots_set. intros (i & _ & (b & _ & (b' & _ & E)%bind_ok)%bind_ok)%bind_ok.
  by injection E as <-.
Qed.

Lemma maccess_geometry x p r s p' r' s' : maccess x p r s = Ok (p', r', s') -> geometry r' = geometry r.
Proof.
  destruct p; simpl; intros E; try (by injection E as _ <- _).
  - apply bind_ok in E as ([[d|] r2] & E2 & E); injection E as _ <- _; by apply claim_slot_geometry in E2.
  - apply bind_ok in E as (r2 & E2 & E). injection E as _ <- _. by apply copy_in_geometry in E2.
  - apply bind_ok in E as (r2 & E2 & E). injection E as _ <- _. by apply mark_slot_geometry in E2.
Qed.

Lemma rstep_geometry b b' : rstep b = Ok b' -> geometry (c_ring b') = geometry (c_ring b).
Proof.
  unfold rstep. destruct (c_r b); intros E; try (by injection E as <-);
    apply bind_ok in E as (r2 & E2 & E); injection E as <-; try done.
  by apply mark_slot_geometry in E2.
Qed.

Lemma mstep_geometry c c' :
  mstep c c' -> geometry (m_ring c') = geometry (m_ring c) /\ List.length (m_pcs c') = List.length (m_pcs c).
Proof.
  intros [c1 c2 t x _ E|c1 c2 E].
  - unfold mwstep in E. destruct (m_pcs c1 !! t) as [p|]; [|by injection E as <-].
    apply bind_ok in E as ([[p' r] s] & E2 & E). injection E as <-. simpl. rewrite length_insert.
    by apply maccess_geometry in E2.
  - unfold mrstep in E. apply bind_ok in E as (b & E2 & E). injection E as <-. by apply rstep_geometry in E2.
Qed.

Lemma mstep_inv c c' : mstep c c' -> minv c -> minv c'.
Proof.
  intros [c1 c2 t x Hx E|c1 c2 E] Hi.
  - destruct (mwstep_inv c1 t x Hi Hx) as (c3 & E3 & Hi3). congruence.
  - destruct (mrstep_inv c1 Hi) as (c3 & E3 & Hi3). congruence.
Qed.

Lemma mreachable al n sz r w c :
  created al n sz r -> nmemb r <= 2 ^ 62 -> Z.of_nat w <= 2 ^ 62 -> rtc mstep (minitial r w) c ->
  minv c /\ geometry (m_ring c) = (nmemb r, sz).
Proof.
  intros Hcr Hn Hw Hst. destruct (created_queue al n sz r Hcr) as (Hq & Hr & _ & Hm).
  assert (Hgo : forall a b, rtc mstep a b -> minv a -> geometry (m_ring a) = (nmemb r, sz) ->
    minv b /\ geometry (m_ring b) = (nmemb r, sz)).
  { induction 1 as [|a b d Hab _ IH]; intros Hi Hg; [done|].
    apply IH; [by apply (mstep_inv a)|]. by rewrite (proj1 (mstep_geometry _ _ Hab)). }
  apply (Hgo _ _ Hst); [by apply minv_initial|]. unfold geometry. simpl. congruence.
Qed.

(** ** Properties *)

(** C2. Any number of writers and one reader on a ring, in every interleaving of
    their accesses: what the reader has copied out is a prefix of the elements in
    the order in which slots were claimed for them, none lost and none twice, and
    at most [nmemb] elements are in flight; whatever happened so far, the next
    access of every thread succeeds. *)
Theorem mpsc_fifo (al : allocator) (n sz : Z) (r : ring) (w : nat) (c : mconf) :
  created al n sz r -> nmemb r <= 2 ^ 62 -> Z.of_nat w <= 2 ^ 62 -> rtc mstep (minitial r w) c ->
  m_rcvd c `prefix_of` m_sent c /\
  Z.of_nat (List.length (m_sent c)) - Z.of_nat (List.length (m_rcvd c)) <= nmemb r /\
  (forall t x, Z.of_nat (List.length x) = sz -> exists c', mwstep t x c = Ok c') /\
  (exists c', mrstep c = Ok c').
Proof.
  intros Hcr Hn Hw Hst. destruct (mreachable al n sz r w c Hcr Hn Hw Hst) as [Hi [= Hg Hm]].
  destruct (minv_total_bounds c Hi) as (Hb1 & Hb2 & Hb3 & Hb4 & Hb5 & Hb6). split_and!.
  - rewrite (mi_prefix c Hi). apply prefix_take.
  - pose proof (mi_room c Hi) as Hroom. unfold mread, mwrite, zlen in Hroom. rewrite Hg in Hroom.
    destruct (m_r c); simpl in *; lia.
  - intros t x Hx. destruct (mwstep_inv c t x Hi) as (c' & E & _); [unfold zlen; congruence|eauto].
  - destruct (mrstep_inv c Hi) as (c' & E & _). eauto.
Qed.

(** C31. No two threads copy to or from the same slot at the same time: the slots
    of two writers differ, and so do those of a writer and the reader. *)
Theorem mpsc_race_free (al : allocator) (n sz : Z) (r : ring) (w : nat) (c : mconf) t x dst k :
  created al n sz r -> nmemb r <= 2 ^ 62 -> Z.of_nat w <= 2 ^ 62 -> rtc mstep (minitial r w) c ->
  m_pcs c !! t = Some (MCopy x dst k) ->
  (forall t' x' dst' k', t <> t' -> m_pcs c !! t' = Some (MCopy x' dst' k') -> dst <> dst') /\
  (forall src, m_r c = RCopy src -> dst <> src).
Proof.
  intros Hcr Hn Hw Hst Ht. destruct (mreachable al n sz r w c Hcr Hn Hw Hst) as [Hi _].
  destruct (minv_total_bounds c Hi) as (Hb1 & Hb2 & Hb3 & Hb4 & Hb5 & Hb6). pose proof (mi_room c Hi) as Hroom.
  pose proof (sh_memb_sz _ (mi_shape c Hi)). pose proof (mi_pcs c Hi t _ Ht) as (_ & _ & -> & Hk).
  split.
  - intros t' x' dst' k' Hne Ht' Heq. pose proof (mi_pcs c Hi t' _ Ht') as (_ & _ & -> & Hk').
    apply Z.mul_reg_r in Heq; [|lia]. apply (slot_apart _ _ _ (mread c) (mwrite c)) in Heq; [|lia..]. subst k'.
    by apply Hne, (mi_unique c Hi t t' _ _ k Ht Ht').
  - intros src Er Heq. pose proof (mi_rpc c Hi) as Hrpc. rewrite Er in *. rewrite Hrpc in Heq. simpl in *.
    apply Z.mul_reg_r in Heq; [|lia]. apply (slot_apart _ _ _ (mread c) (mwrite c)) in Heq; lia.
Qed.

(** A run: [Some t] moves writer [t], [None] the reader. *)
Fixpoint mrun (sched : list (option nat)) (x : list Z) (c : mconf) : outcome mconf :=
  match sched with
  | [] => mret c
  | u :: sched => c' ← (match u with Some t => mwstep t x c | None => mrstep c end); mrun sched x c'
  end.

Lemma mrun_reachable sched x c c' :
  zlen x = memb_sz (m_ring c) -> mrun sched x c = Ok c' -> rtc mstep c c'.
Proof.
  revert c. induction sched as [|u sched IH]; intros c Hx E; [by injection E as <-|].
  apply bind_ok in E as (c1 & E1 & E).
  assert (Hst : mstep c c1) by (destruct u as [t|]; [by apply (mstep_writer c c1 t x) | by apply mstep_reader]).
  eapply rtc_l; [exact Hst|]. apply IH; [|done]. destruct (mstep_geometry c c1 Hst) as [[= _ ->] _]. done.
Qed.

(** Two writers claim slots; the second one fills and marks its slot first. *)
Definition mtest_sched : list (option nat) :=
  replicate 4 (Some 0%nat) ++ replicate 4 (Some 1%nat) ++ [None; None; None].

Definition mtest_conf : mconf :=
  match mrun mtest_sched [1; 2] (minitial test_ring 2) with Ok c => c | Fault _ => minitial test_ring 2 end.

Lemma mtest_reachable : rtc mstep (minitial test_ring 2) mtest_conf.
Proof. apply (mrun_reachable mtest_sched [1; 2]); [done|]. vm_compute. reflexivity. Qed.

Lemma mpsc_fifo_witness :
  m_sent mtest_conf = [[1; 2]; [1; 2]] /\ m_rcvd mtest_conf `prefix_of` m_sent mtest_conf.
Proof.
  split; [vm_compute; reflexivity|].
  apply (mpsc_fifo test_alloc 3 2 test_ring 2 mtest_conf test_created); [by vm_compute | by vm_compute | apply mtest_reachable].
Defined.

Lemma mpsc_race_free_witness :
  m_pcs mtest_conf = [MCopy [1; 2] 0 0; MCopy [1; 2] 2 1] /\ 0 <> 2.
Proof.
  split; [vm_compute; reflexivity|].
  destruct (mpsc_race_free test_alloc 3 2 test_ring 2 mtest_conf 0 [1; 2] 0 0 test_created) as [H _];
    [by vm_compute | by vm_compute | apply mtest_reachable | vm_compute; reflexivity |].
  by apply (H 1%nat [1; 2] 2 1); [|vm_compute].
Defined.

End RingMulti.
