(* ===== verification/Types.v ===== *)
(** * Data of the graph runtime (include/pgm.h, src/pgm.cpp)

    The structures a graph is made of, the process-wide globals, and the
    primitive accesses to them.  A pointer to a graph, a node or an edge is its
    index in the array that holds it, as in [g - gGraphs]. *)

From S2P Require Import Prelude Ring.
From Stdlib Require Import Ascii.

Module Types.
Import Ring.

(** ** Limits and flags of pgm.h *)

Definition PGM_GRAPH_NAME_LEN : nat := 80.
Definition PGM_EDGE_NAME_LEN : nat := 80.
Definition PGM_NODE_NAME_LEN : nat := 80.
Definition PGM_MAX_NODES : Z := 1024 * 4.
Definition PGM_MAX_EDGES : Z := 1024 * 4.
Definition PGM_MAX_GRAPHS : Z := 128.
Definition PGM_MAX_IN_DEGREE : Z := 32.
Definition PGM_MAX_OUT_DEGREE : Z := PGM_MAX_IN_DEGREE.

Definition PGM_SIGNALED : Z := 0x80000000.
Definition PGM_DATA_PASSING : Z := 0x40000000.
Definition PGM_EDGE_CV : Z := 0x1.
Definition PGM_EDGE_FIFO : Z := 0x2.
Definition PGM_EDGE_MQ : Z := 0x4.
Definition PGM_EDGE_RING : Z := 0x8.
Definition PGM_EDGE_SOCK_STREAM : Z := 0x10.

(** [pgm_edge_type_t] *)
Definition pgm_cv_edge : Z := Z.lor PGM_EDGE_CV PGM_SIGNALED.
Definition pgm_ring_edge : Z := Z.lor (Z.lor PGM_EDGE_RING PGM_SIGNALED) PGM_DATA_PASSING.
Definition pgm_fast_fifo_edge : Z := Z.lor (Z.lor PGM_EDGE_FIFO PGM_SIGNALED) PGM_DATA_PASSING.
Definition pgm_fast_mq_edge : Z := Z.lor (Z.lor PGM_EDGE_MQ PGM_SIGNALED) PGM_DATA_PASSING.
Definition pgm_fifo_edge : Z := Z.lor PGM_EDGE_FIFO PGM_DATA_PASSING.
Definition pgm_mq_edge : Z := Z.lor PGM_EDGE_MQ PGM_DATA_PASSING.
Definition pgm_sock_stream_edge : Z := Z.lor PGM_EDGE_SOCK_STREAM PGM_DATA_PASSING.

Definition PGM_TERMINATE : Z := 0x80.
Definition PGM_NORMAL : Z := 0x01.

(** [type & flag], as a truth value *)
Definition has_flag (type flag : Z) : bool := negb (Z.land type flag =? 0).

(** ** Handles *)

Record node_t := Node_t { nd_graph : Z; nd_node : Z }.
Record edge_t := Edge_t { ed_graph : Z; ed_edge : Z }.

#[global] Instance node_t_eq_dec : EqDecision node_t.
Proof. solve_decision. Defined.
#[global] Instance edge_t_eq_dec : EqDecision edge_t.
Proof. solve_decision. Defined.

(** ** Edge attributes

    The members of the anonymous union of [edge_attr_t] overlap: [nr_init],
    [nmemb], [mq_maxmsg] and [port] all start at its first byte, so they are
    read from the same word [u_word]. *)
Record edge_attr_t := Attr {
  nr_produce : Z;
  nr_consume : Z;
  nr_threshold : Z;
  type : Z;
  u_word : Z;
  u_node : Z;
  u_fd_prod_socket : Z
}.

#[global] Instance attr_eta : Eta edge_attr_t := fun a =>
  Attr (nr_produce a) (nr_consume a) (nr_threshold a) (type a) (u_word a) (u_node a)
    (u_fd_prod_socket a).
#[global] Instance Zeroed_attr : Zeroed edge_attr_t := Attr 0 0 0 0 0 0 0.

Definition nr_init (a : edge_attr_t) : Z := u_word a.
Definition a_nmemb (a : edge_attr_t) : Z := u_word a.
Definition mq_maxmsg (a : edge_attr_t) : Z := signed 32 (u_word a).
Definition port (a : edge_attr_t) : Z := signed 16 (u_word a).

Definition default_edge : edge_attr_t := Attr 1 1 1 pgm_cv_edge 0 0 0.

(** ** struct pgm_edge *)

(** Which of the five operation tables [ops] points to. *)
Inductive edge_ops :=
| pgm_cv_edge_ops
| pgm_fifo_edge_ops
| pgm_mq_edge_ops
| pgm_ring_edge_ops
| pgm_sock_stream_edge_ops.

#[global] Instance edge_ops_eq_dec : EqDecision edge_ops.
Proof. solve_decision. Defined.

(** The union of the descriptor fields and the ring. *)
Inductive edge_ipc :=
| IpcStd (fd_out fd_in next_tag : Z)
| IpcRing (ringbuf : ring) (ring_cmd : Z).

Record pgm_edge := Edge {
  e_name : list ascii;
  e_producer : Z;
  e_consumer : Z;
  is_backedge : bool;
  e_attr : edge_attr_t;
  e_ops : option edge_ops;
  nr_skips : Z;
  nr_pending : Z;
  e_ipc : edge_ipc;
  buf_out : Z;
  buf_in : Z
}.

#[global] Instance edge_eta : Eta pgm_edge := fun e =>
  Edge (e_name e) (e_producer e) (e_consumer e) (is_backedge e) (e_attr e) (e_ops e)
    (nr_skips e) (nr_pending e) (e_ipc e) (buf_out e) (buf_in e).
#[global] Instance Zeroed_edge : Zeroed pgm_edge :=
  Edge (replicate PGM_EDGE_NAME_LEN NUL) 0 0 false zeroed None 0 0 (IpcStd 0 0 0) 0 0.

(** Member access through the union.  Zeroed storage is the zeroed ring, and
    the first bytes of a ring are the low half of its [nmemb], so that is what
    reading [fd_out]/[fd_in] of a ring edge gives. *)
Definition fd_out (e : pgm_edge) : Z :=
  match e_ipc e with IpcStd o _ _ => o | IpcRing r _ => signed 32 (nmemb r) end.
Definition fd_in (e : pgm_edge) : Z :=
  match e_ipc e with IpcStd _ i _ => i | IpcRing r _ => signed 32 (nmemb r / 2 ^ 32) end.
Definition next_tag (e : pgm_edge) : Z :=
  match e_ipc e with IpcStd _ _ t => t | IpcRing r _ => memb_sz r end.
Definition ringbuf (e : pgm_edge) : ring :=
  match e_ipc e with IpcStd _ _ _ => zeroed | IpcRing r _ => r end.
Definition ring_cmd (e : pgm_edge) : Z :=
  match e_ipc e with IpcStd _ _ _ => 0 | IpcRing _ c => c end.

Definition set_fd_out (v : Z) (e : pgm_edge) : pgm_edge :=
  e <| e_ipc := IpcStd v (fd_in e) (next_tag e) |>.
Definition set_fd_in (v : Z) (e : pgm_edge) : pgm_edge :=
  e <| e_ipc := IpcStd (fd_out e) v (next_tag e) |>.
Definition set_next_tag (v : Z) (e : pgm_edge) : pgm_edge :=
  e <| e_ipc := IpcStd (fd_out e) (fd_in e) v |>.
Definition set_ringbuf (r : ring) (e : pgm_edge) : pgm_edge :=
  e <| e_ipc := IpcRing r (ring_cmd e) |>.
Definition set_ring_cmd (c : Z) (e : pgm_edge) : pgm_edge :=
  e <| e_ipc := IpcRing (ringbuf e) c |>.

Definition is_signal_driven_attr (a : edge_attr_t) : bool := has_flag (type a) PGM_SIGNALED.
Definition is_data_passing_attr (a : edge_attr_t) : bool := has_flag (type a) PGM_DATA_PASSING.
Definition is_signal_driven (e : pgm_edge) : bool := is_signal_driven_attr (e_attr e).
Definition is_data_passing (e : pgm_edge) : bool := is_data_passing_attr (e_attr e).

(** ** struct pgm_node

    [n_lock] tells whether the node's lock is held; [n_wait] stands for the
    condition variable by the number of signals sent to it.  The two counts of
    termination messages, [int] in the source, grow by one a message and are not
    bounded here. *)

Definition UNCLAIMED_NODE : Z := -1.

Record pgm_node := Node {
  n_name : list ascii;
  n_in : gmap Z Z;
  n_out : gmap Z Z;
  nr_in : Z;
  nr_out : Z;
  nr_in_data : Z;
  nr_in_signaled : Z;
  nr_in_data_backedges : Z;
  nr_in_signaled_backedges : Z;
  signal_edge_mask : Z;
  nr_terminate_signals : Z;
  nr_terminate_msgs : Z;
  owner : Z;
  userdata : Z;
  n_lock : bool;
  n_wait : Z
}.

#[global] Instance node_eta : Eta pgm_node := fun n =>
  Node (n_name n) (n_in n) (n_out n) (nr_in n) (nr_out n) (nr_in_data n) (nr_in_signaled n)
    (nr_in_data_backedges n) (nr_in_signaled_backedges n) (signal_edge_mask n)
    (nr_terminate_signals n) (nr_terminate_msgs n) (owner n) (userdata n) (n_lock n) (n_wait n).
#[global] Instance Zeroed_node : Zeroed pgm_node :=
  Node (replicate PGM_NODE_NAME_LEN NUL) ∅ ∅ 0 0 0 0 0 0 0 0 0 0 0 false 0.

(** ** struct pgm_graph *)

Record pgm_graph := Graph {
  in_use : bool;
  g_name : list ascii;
  g_lock : bool;
  nr_nodes : Z;
  nr_edges : Z;
  nodes : gmap Z pgm_node;
  edges : gmap Z pgm_edge
}.

#[global] Instance graph_eta : Eta pgm_graph := fun g =>
  Graph (in_use g) (g_name g) (g_lock g) (nr_nodes g) (nr_edges g) (nodes g) (edges g).
#[global] Instance Zeroed_graph : Zeroed pgm_graph :=
  Graph false (replicate PGM_GRAPH_NAME_LEN NUL) false 0 0 ∅ ∅.

(** ** Edge buffers in memory

    [pgm_memory_hdr_t] by address, and the other bytes of the process by
    address.  A [char] bit field of width one is signed: it reads 0 or -1. *)
Record pgm_memory_hdr_t := Hdr {
  usersize : Z;
  assigned_edge : edge_t;
  cookie : Z;
  producer_flag : Z
}.

#[global] Instance hdr_eta : Eta pgm_memory_hdr_t := fun h =>
  Hdr (usersize h) (assigned_edge h) (cookie h) (producer_flag h).

Record heap_t := Heap { hdrs : gmap Z pgm_memory_hdr_t; hbytes : gmap Z Z }.
#[global] Instance heap_eta : Eta heap_t := fun h => Heap (hdrs h) (hbytes h).

(** ** The process

    [gGraphs] is [None] while it is the null pointer.  [world] is whatever the
    operating system and the C library keep for the process.  [gIsGraphMaster] is
    [__thread] in the source: the model has the flag of the thread that started the
    runtime, the one that creates and destroys graphs. *)
Record pgm_state (W : Type) := State {
  gGraphs : option (gmap Z pgm_graph);
  gGraphSharedMem : bool;
  gIsGraphMaster : bool;
  gGraphPath : string;
  gMemName : string;
  heap : heap_t;
  world : W
}.
Arguments State {W}.
Arguments gGraphs {W}.
Arguments gGraphSharedMem {W}.
Arguments gIsGraphMaster {W}.
Arguments gGraphPath {W}.
Arguments gMemName {W}.
Arguments heap {W}.
Arguments world {W}.

#[global] Instance state_eta {W} : Eta (pgm_state W) := fun s =>
  State (gGraphs s) (gGraphSharedMem s) (gIsGraphMaster s) (gGraphPath s) (gMemName s)
    (heap s) (world s).

(** ** Accesses *)

Section Access.
Context {W : Type}.

Definition modify (f : pgm_state W -> pgm_state W) : ST (pgm_state W) unit :=
  s ← get; put (f s).

Definition rd_graph (g : Z) : ST (pgm_state W) pgm_graph :=
  s ← get;
  m ← lift (deref (gGraphs s));
  lift (aget PGM_MAX_GRAPHS m g).

Definition wr_graph (g : Z) (v : pgm_graph) : ST (pgm_state W) unit :=
  s ← get;
  m ← lift (deref (gGraphs s));
  m' ← lift (aset PGM_MAX_GRAPHS m g v);
  put (s <| gGraphs := Some m' |>).

Definition upd_graph (g : Z) (f : pgm_graph -> pgm_graph) : ST (pgm_state W) unit :=
  v ← rd_graph g; wr_graph g (f v).

Definition node_of (g : pgm_graph) (n : Z) : outcome pgm_node := aget PGM_MAX_NODES (nodes g) n.
Definition edge_of (g : pgm_graph) (e : Z) : outcome pgm_edge := aget PGM_MAX_EDGES (edges g) e.
Definition in_of (n : pgm_node) (i : Z) : outcome Z := aget PGM_MAX_IN_DEGREE (n_in n) i.
Definition out_of (n : pgm_node) (i : Z) : outcome Z := aget PGM_MAX_OUT_DEGREE (n_out n) i.

Definition rd_node (g n : Z) : ST (pgm_state W) pgm_node :=
  v ← rd_graph g; lift (node_of v n).

Definition upd_node (g n : Z) (f : pgm_node -> pgm_node) : ST (pgm_state W) unit :=
  v ← rd_graph g;
  x ← lift (node_of v n);
  wr_graph g (v <| nodes ::= <[n := f x]> |>).

Definition rd_edge (g e : Z) : ST (pgm_state W) pgm_edge :=
  v ← rd_graph g; lift (edge_of v e).

Definition upd_edge (g e : Z) (f : pgm_edge -> pgm_edge) : ST (pgm_state W) unit :=
  v ← rd_graph g;
  x ← lift (edge_of v e);
  wr_graph g (v <| edges ::= <[e := f x]> |>).

(** [pthread_mutex_lock(&g->lock)]: a thread that already holds the mutex
    waits for itself. *)
Definition mutex_lock (g : Z) : ST (pgm_state W) unit :=
  v ← rd_graph g;
  if g_lock v then fail Deadlock else wr_graph g (v <| g_lock := true |>).

Definition mutex_unlock (g : Z) : ST (pgm_state W) unit :=
  upd_graph g (fun v => v <| g_lock := false |>).

Definition is_valid_handle (graph : Z) : bool :=
  (0 <=? graph) && (graph <=? PGM_MAX_GRAPHS).

Definition is_valid_graph (graph : Z) : ST (pgm_state W) bool :=
  s ← get;
  match gGraphs s with
  | None => mret false
  | Some _ => if is_valid_handle graph then v ← rd_graph graph; mret (in_use v) else mret false
  end.

End Access.

End Types.
