(* ===== verification/Sys.v ===== *)
(** * The operating system and the C and Boost libraries

    Everything the runtime calls outside its own sources, as the methods of a
    class: the model takes an instance as a parameter and says nothing about
    what a call returns.  [W] is the state the outside world keeps. *)

From S2P Require Import Prelude Ring Types.

Module Sys.
Import Types.

(** errno values the code compares with *)
Definition ENOENT : Z := 2.
Definition ENXIO : Z := 6.
Definition EAGAIN : Z := 11.
Definition EWOULDBLOCK : Z := 11.

Class Syscalls (W : Type) := {
  sys_errno : W -> Z;
  sys_gettid : W -> Z;
  (* libc: zero is the null pointer *)
  sys_malloc : Z -> W -> Z * W;
  sys_free : Z -> W -> W;
  sys_alloc : W -> Ring.allocator;
  sys_new_graphs : W -> bool * W;
  sys_shm_remove : string -> W -> W;
  sys_time : W -> Z * W;
  sys_usleep : Z -> W -> W;
  (* Boost; [remove] and [exists] on the path of a FIFO are taken to answer, although
     Boost documents that they may throw *)
  string_hash : string -> Z;
  path_append : string -> string -> string;
  fs_remove : string -> W -> bool * W;
  fs_exists : string -> W -> bool * W;
  (* FIFOs and descriptors *)
  sys_mkfifo : string -> W -> Z * W;
  sys_open_rdonly : string -> W -> Z * W;
  sys_open_wronly : string -> W -> Z * W;
  sys_close : Z -> W -> Z * W;
  sys_read : Z -> Z -> W -> (Z * list Z) * W;
  sys_write : Z -> list Z -> W -> Z * W;
  (* the highest descriptor plus one, the set; how many are ready, and which *)
  sys_select : Z -> list Z -> W -> (Z * list Z) * W;
  (* message queues *)
  sys_mq_unlink : string -> W -> Z * W;
  sys_mq_open_rdonly : string -> Z -> Z -> W -> Z * W;
  sys_mq_open_wronly : string -> Z -> Z -> W -> Z * W;
  sys_mq_close : Z -> W -> Z * W;
  sys_mq_receive : Z -> Z -> W -> (Z * list Z) * W;
  sys_mq_send : Z -> list Z -> W -> Z * W;
  (* sockets *)
  sys_getaddrinfo : Z -> Z -> bool -> W -> (Z * list Z) * W;
  sys_freeaddrinfo : list Z -> W -> W;
  sys_socket : Z -> W -> Z * W;
  sys_connect : Z -> Z -> W -> Z * W;
  sys_bind : Z -> Z -> W -> Z * W;
  sys_listen : Z -> Z -> W -> Z * W;
  sys_accept : Z -> W -> Z * W;
  sys_recv : Z -> Z -> W -> (Z * list Z) * W;
  sys_send : Z -> list Z -> W -> Z * W
}.

Section Call.
Context {W : Type} `{Syscalls W}.

(** Run a call on the world. *)
Definition sys {A} (call : W -> A * W) : ST (pgm_state W) A :=
  s ← get;
  let '(a, w) := call (world s) in
  put (s <| world := w |>) ;; mret a.

Definition errno : ST (pgm_state W) Z := s ← get; mret (sys_errno (world s)).
Definition pgm_gettid : ST (pgm_state W) Z := s ← get; mret (sys_gettid (world s)).

End Call.

(** Worlds for concrete runs: every call succeeds, the memory allocator hands
    out ascending 16-byte aligned addresses, and [recv] says what sockets
    deliver. *)
Definition demo_sys_recv (recv : Z -> list Z) : Syscalls Z := {|
  sys_errno _ := 0;
  sys_gettid _ := 1234;
  sys_malloc n w := (w, w + 16 * (n / 16 + 1));
  sys_free _ w := w;
  sys_alloc _ := Ring.test_alloc;
  sys_new_graphs w := (true, w);
  sys_shm_remove _ w := w;
  sys_time w := (0, w);
  sys_usleep _ w := w;
  string_hash _ := 0;
  path_append d n := (d +:+ "/" +:+ n)%string;
  fs_remove _ w := (true, w);
  fs_exists _ w := (true, w);
  sys_mkfifo _ w := (0, w);
  sys_open_rdonly _ w := (3, w);
  sys_open_wronly _ w := (4, w);
  sys_close _ w := (0, w);
  sys_read _ n w := ((0, []), w);
  sys_write _ bs w := (Z.of_nat (List.length bs), w);
  sys_select _ fds w := ((Z.of_nat (List.length fds), fds), w);
  sys_mq_unlink _ w := (0, w);
  sys_mq_open_rdonly _ _ _ w := (3, w);
  sys_mq_open_wronly _ _ _ w := (4, w);
  sys_mq_close _ w := (0, w);
  sys_mq_receive _ _ w := ((0, []), w);
  sys_mq_send _ _ w := (0, w);
  sys_getaddrinfo _ _ _ w := ((0, [1]), w);
  sys_freeaddrinfo _ w := w;
  sys_socket _ w := (5, w);
  sys_connect _ _ w := (0, w);
  sys_bind _ _ w := (0, w);
  sys_listen _ _ w := (0, w);
  sys_accept _ w := (6, w);
  sys_recv _ n w := ((Z.of_nat (List.length (recv n)), recv n), w);
  sys_send _ bs w := (Z.of_nat (List.length bs), w)
|}.

#[global] Instance demo_sys : Syscalls Z := demo_sys_recv (fun _ => []).

(** The process before any call. *)
Definition demo_start : pgm_state Z :=
  State None false false EmptyString EmptyString (Heap ∅ ∅) 4096.

End Sys.
