(* ===== verification/Structure.v ===== *)
(** * The structure of a graph and how calls see it

    What the accesses of [Types] do to a state; the part of a graph that says
    which nodes and edges there are and how they are linked (its skeleton),
    with the equivalence "same skeleton"; the well-formedness invariant of a
    graph; and the calls that leave every skeleton alone. *)

From S2P Require Import Prelude Ring Types Sys.
From Stdlib Require Import Ascii.

Module Structure.
Import Types Sys.

(** ** Stepping through a state-passing call *)

Lemma bind_step {S A B} (m : ST S A) (k : A -> ST S B) (s : S) (a : A) (s' : S) :
  m s = Ok (a, s') -> (m ≫= k) s = k a s'.
Proof. unfold mbind, ST_bind. by intros ->. Qed.

Lemma bind_fault {S A B} (m : ST S A) (k : A -> ST S B) (s : S) (f : fault) :
  m s = Fault f -> (m ≫= k) s = Fault f.
Proof. unfold mbind, ST_bind. by intros ->. Qed.

Section Access.
Context {W : Type}.
Implicit Types (s : pgm_state W) (gr : pgm_graph).

(** Graph [g] of state [s] is [gr]; and [s] with graph [g] replaced. *)
Definition has_graph s (g : Z) gr : Prop :=
  0 <= g < PGM_MAX_GRAPHS /\ exists m, gGraphs s = Some m /\ cell m g = gr.

Definition put_graph (g : Z) gr s : pgm_state W :=
  s <| gGraphs ::= fmap (insert g gr) |>.

Lemma has_graph_put s g gr gr' : has_graph s g gr -> has_graph (put_graph g gr' s) g gr'.
Proof.
  intros (Hg & m & Hm & _). split; [done|]. exists (<[g := gr']> m). simpl. rewrite Hm.
  split; [done|]. apply cell_insert_eq.
Qed.

Lemma has_graph_put_ne s g h gr gr' :
  g <> h -> has_graph (put_graph g gr' s) h gr <-> has_graph s h gr.
Proof.
  intros Hne. unfold has_graph, put_graph. simpl. destruct (gGraphs s) as [m|]; simpl.
  - split; intros (Hh & m' & [= <-] & <-); (split; [done|]); eexists; (split; [done|]);
      by rewrite cell_insert_ne.
  - split; intros (_ & m & E & _); discriminate.
Qed.

Lemma has_graph_fun s g gr gr' : has_graph s g gr -> has_graph s g gr' -> gr = gr'.
Proof. intros (_ & m & Hm & <-) (_ & m' & Hm' & <-). by simplify_eq. Qed.

Lemma put_put s g gr gr' : put_graph g gr (put_graph g gr' s) = put_graph g gr s.
Proof.
  destruct s as [m ? ? ? ? ? ?]. unfold put_graph, set_field. simpl. f_equal.
  destruct m as [m|]; simpl; [|done]. by rewrite insert_insert_eq.
Qed.

Lemma rd_graph_at s g gr : has_graph s g gr -> rd_graph g s = Ok (gr, s).
Proof.
  intros (Hg & m & Hm & <-). unfold rd_graph. rewrite (bind_step _ _ _ s s) by done.
  rewrite Hm. rewrite (bind_step _ _ _ m s) by done. unfold lift. by rewrite aget_ok.
Qed.

Lemma wr_graph_at s g gr gr' :
  has_graph s g gr -> wr_graph g gr' s = Ok (tt, put_graph g gr' s).
Proof.
  intros (Hg & m & Hm & _). unfold wr_graph. rewrite (bind_step _ _ _ s s) by done.
  rewrite Hm. rewrite (bind_step _ _ _ m s) by done.
  rewrite (bind_step _ _ _ (<[g := gr']> m) s) by (unfold lift; by rewrite aset_ok).
  unfold put, put_graph. destruct s. simpl in *. by subst.
Qed.

Lemma upd_graph_at s g gr f :
  has_graph s g gr -> upd_graph g f s = Ok (tt, put_graph g (f gr) s).
Proof.
  intros Hs. unfold upd_graph. rewrite (bind_step _ _ _ _ _ (rd_graph_at s g gr Hs)).
  by apply (wr_graph_at s g gr).
Qed.

Lemma rd_node_at s g gr n :
  has_graph s g gr -> 0 <= n < PGM_MAX_NODES -> rd_node g n s = Ok (cell (nodes gr) n, s).
Proof.
  intros Hs Hn. unfold rd_node. rewrite (bind_step _ _ _ _ _ (rd_graph_at s g gr Hs)).
  unfold lift, node_of. by rewrite aget_ok.
Qed.

Lemma rd_edge_at s g gr e :
  has_graph s g gr -> 0 <= e < PGM_MAX_EDGES -> rd_edge g e s = Ok (cell (edges gr) e, s).
Proof.
  intros Hs Hn. unfold rd_edge. rewrite (bind_step _ _ _ _ _ (rd_graph_at s g gr Hs)).
  unfold lift, edge_of. by rewrite aget_ok.
Qed.

Lemma upd_node_at s g gr n f :
  has_graph s g gr -> 0 <= n < PGM_MAX_NODES ->
  upd_node g n f s =
  Ok (tt, put_graph g (gr <| nodes ::= <[n := f (cell (nodes gr) n)]> |>) s).
Proof.
  intros Hs Hn. unfold upd_node. rewrite (bind_step _ _ _ _ _ (rd_graph_at s g gr Hs)).
  rewrite (bind_step _ _ _ (cell (nodes gr) n) s) by (unfold lift, node_of; by rewrite aget_ok).
  by apply (wr_graph_at s g gr).
Qed.

Lemma upd_edge_at s g gr e f :
  has_graph s g gr -> 0 <= e < PGM_MAX_EDGES ->
  upd_edge g e f s =
  Ok (tt, put_graph g (gr <| edges ::= <[e := f (cell (edges gr) e)]> |>) s).
Proof.
  intros Hs Hn. unfold upd_edge. rewrite (bind_step _ _ _ _ _ (rd_graph_at s g gr Hs)).
  rewrite (bind_step _ _ _ (cell (edges gr) e) s) by (unfold lift, edge_of; by rewrite aget_ok).
  by apply (wr_graph_at s g gr).
Qed.

Lemma mutex_lock_at s g gr :
  has_graph s g gr -> g_lock gr = false ->
  mutex_lock g s = Ok (tt, put_graph g (gr <| g_lock := true |>) s).
Proof.
  intros Hs Hl. unfold mutex_lock. rewrite (bind_step _ _ _ _ _ (rd_graph_at s g gr Hs)).
  rewrite Hl. by apply (wr_graph_at s g gr).
Qed.

Lemma mutex_unlock_at s g gr :
  has_graph s g gr -> mutex_unlock g s = Ok (tt, put_graph g (gr <| g_lock := false |>) s).
Proof. intros Hs. unfold mutex_unlock. by rewrite (upd_graph_at s g gr). Qed.

Lemma is_valid_graph_at s g gr : has_graph s g gr -> is_valid_graph g s = Ok (in_use gr, s).
Proof.
  intros Hs. pose proof Hs as ([Hg0 Hg1] & m & Hm & _). unfold is_valid_graph.
  rewrite (bind_step _ _ _ s s) by done. rewrite Hm.
  unfold is_valid_handle. replace ((0 <=? g) && (g <=? PGM_MAX_GRAPHS)) with true
    by (symmetry; apply andb_true_iff; split; apply Z.leb_le; lia).
  by rewrite (bind_step _ _ _ _ _ (rd_graph_at s g gr Hs)).
Qed.

End Access.

Create HintDb pgm_st.
#[export] Hint Resolve has_graph_put rd_graph_at wr_graph_at upd_graph_at rd_node_at rd_edge_at
  upd_node_at upd_edge_at mutex_lock_at mutex_unlock_at is_valid_graph_at : pgm_st.

(** Run the first call of a sequence. *)
Ltac st_step :=
  erewrite bind_step;
  [ | first [ reflexivity
            | eapply rd_graph_at; solve [eauto with pgm_st]
            | eapply is_valid_graph_at; solve [eauto with pgm_st]
            | eapply mutex_lock_at; [solve [eauto with pgm_st] | simpl; first [done | assumption]]
            | eapply mutex_unlock_at; solve [eauto with pgm_st]
            | eapply upd_graph_at; solve [eauto with pgm_st]
            | eapply rd_node_at; [solve [eauto with pgm_st] | simpl; first [assumption | lia]]
            | eapply rd_edge_at; [solve [eauto with pgm_st] | simpl; first [assumption | lia]]
            | eapply upd_node_at; [solve [eauto with pgm_st] | simpl; first [assumption | lia]]
            | eapply upd_edge_at; [solve [eauto with pgm_st] | simpl; first [assumption | lia]] ] ];
  cbv beta.

(** ** Skeletons *)

Definition node_skel (n : pgm_node) :=
  (n_name n, n_in n, n_out n, nr_in n, nr_out n, nr_in_data n, nr_in_signaled n,
   nr_in_data_backedges n, nr_in_signaled_backedges n, signal_edge_mask n).

Definition attr_skel (a : edge_attr_t) :=
  (nr_produce a, nr_consume a, nr_threshold a, type a, u_word a).

Definition edge_skel (e : pgm_edge) :=
  (e_name e, e_producer e, e_consumer e, is_backedge e, attr_skel (e_attr e), e_ops e).

#[global] Instance graph_equiv : Equiv pgm_graph := fun g g' =>
  (in_use g, g_name g, g_lock g, nr_nodes g, nr_edges g) =
  (in_use g', g_name g', g_lock g', nr_nodes g', nr_edges g') /\
  (forall i, node_skel (cell (nodes g) i) = node_skel (cell (nodes g') i)) /\
  (forall i, edge_skel (cell (edges g) i) = edge_skel (cell (edges g') i)).

#[global] Instance graph_equiv_equivalence : Equivalence (≡@{pgm_graph}).
Proof.
  split.
  - intros g. done.
  - intros g h (E & En & Ee). split; [done|]. split; intros i; by symmetry.
  - intros g h k (E & En & Ee) (E' & En' & Ee'). split; [congruence|].
    split; intros i; [rewrite En | rewrite Ee]; done.
Qed.

(** The edge indices a node lists. *)
Definition in_list (n : pgm_node) : list Z := cell (n_in n) <$> upto (nr_in n).
Definition out_list (n : pgm_node) : list Z := cell (n_out n) <$> upto (nr_out n).

Definition gnode (g : pgm_graph) (i : Z) : pgm_node := cell (nodes g) i.
Definition gedge (g : pgm_graph) (e : Z) : pgm_edge := cell (edges g) e.

(** How many of the listed edges satisfy a test. *)
Definition count_edges (g : pgm_graph) (P : pgm_edge -> bool) (l : list Z) : Z :=
  Z.of_nat (List.length (filter (fun e => P (gedge g e) = true) l)).

(** ** Well-formed graphs

    Node [i] lists as inbound exactly edges whose consumer it is and as
    outbound exactly edges whose producer it is, each once, and its counters
    and its mask describe its inbound edges. *)
Record node_wf (g : pgm_graph) (i : Z) : Prop := {
  nw_in : 0 <= nr_in (gnode g i) < PGM_MAX_IN_DEGREE;
  nw_out : 0 <= nr_out (gnode g i) < PGM_MAX_OUT_DEGREE;
  nw_in_nodup : NoDup (in_list (gnode g i));
  nw_out_nodup : NoDup (out_list (gnode g i));
  nw_in_edges : forall e, e ∈ in_list (gnode g i) ->
    0 <= e < nr_edges g /\ e_consumer (gedge g e) = i /\
    0 <= e_producer (gedge g e) < nr_nodes g /\
    e ∈ out_list (gnode g (e_producer (gedge g e)));
  nw_out_edges : forall e, e ∈ out_list (gnode g i) ->
    0 <= e < nr_edges g /\ e_producer (gedge g e) = i /\
    0 <= e_consumer (gedge g e) < nr_nodes g /\
    e ∈ in_list (gnode g (e_consumer (gedge g e)));
  nw_signaled : nr_in_signaled (gnode g i) =
    count_edges g is_signal_driven (in_list (gnode g i));
  nw_data : nr_in_data (gnode g i) = count_edges g is_data_passing (in_list (gnode g i));
  nw_signaled_back : nr_in_signaled_backedges (gnode g i) =
    count_edges g (fun e => is_signal_driven e && is_backedge e) (in_list (gnode g i));
  nw_data_back : nr_in_data_backedges (gnode g i) =
    count_edges g (fun e => is_data_passing e && is_backedge e) (in_list (gnode g i));
  nw_mask : forall j, 0 <= j ->
    Z.testbit (signal_edge_mask (gnode g i)) j =
    (j <? nr_in (gnode g i)) && is_signal_driven (gedge g (cell (n_in (gnode g i)) j))
}.

(** A linked edge consumes no more than the threshold it waits for. *)
Definition attr_wf (a : edge_attr_t) : Prop :=
  0 < nr_produce a /\ 0 < nr_consume a <= nr_threshold a.

Record graph_wf (g : pgm_graph) : Prop := {
  gw_nodes : 0 <= nr_nodes g < PGM_MAX_NODES;
  gw_edges : 0 <= nr_edges g < PGM_MAX_EDGES;
  gw_node : forall i, 0 <= i < nr_nodes g -> node_wf g i;
  gw_attr : forall i e, 0 <= i < nr_nodes g -> e ∈ in_list (gnode g i) ->
    attr_wf (e_attr (gedge g e))
}.

Lemma zeroed_graph_wf : graph_wf zeroed.
Proof. split; simpl; try (unfold PGM_MAX_NODES, PGM_MAX_EDGES; lia); intros; lia. Qed.

(** *** What equivalent graphs agree on *)

Lemma equiv_node g g' i :
  g ≡ g' ->
  in_list (gnode g i) = in_list (gnode g' i) /\
  out_list (gnode g i) = out_list (gnode g' i) /\
  node_skel (gnode g i) = node_skel (gnode g' i).
Proof.
  intros (_ & Hn & _). specialize (Hn i). unfold gnode, in_list, out_list.
  split_and!; [| |done]; injection Hn; intros; congruence.
Qed.

Lemma equiv_edge g g' e : g ≡ g' -> edge_skel (gedge g e) = edge_skel (gedge g' e).
Proof. intros (_ & _ & He). apply He. Qed.

Lemma equiv_sizes g g' : g ≡ g' -> nr_nodes g = nr_nodes g' /\ nr_edges g = nr_edges g'.
Proof. intros (E & _). by injection E. Qed.

(** A test of an edge that only looks at its skeleton. *)
Class SkelTest (P : pgm_edge -> bool) :=
  skel_test : forall e e', edge_skel e = edge_skel e' -> P e = P e'.

#[global] Instance signal_skel : SkelTest is_signal_driven.
Proof.
  intros e e' E. unfold is_signal_driven, is_signal_driven_attr. injection E. intros. congruence.
Qed.
#[global] Instance data_skel : SkelTest is_data_passing.
Proof.
  intros e e' E. unfold is_data_passing, is_data_passing_attr. injection E. intros. congruence.
Qed.
#[global] Instance back_skel : SkelTest is_backedge.
Proof. intros e e' E. by injection E. Qed.
#[global] Instance and_skel P Q `{SkelTest P, SkelTest Q} : SkelTest (fun e => P e && Q e).
Proof. intros e e' E. f_equal; by apply skel_test. Qed.

Lemma count_edges_ext (g g' : pgm_graph) (P : pgm_edge -> bool) (l : list Z) :
  (forall e, e ∈ l -> P (gedge g e) = P (gedge g' e)) ->
  count_edges g P l = count_edges g' P l.
Proof.
  intros Hl. unfold count_edges. f_equal. f_equal.
  induction l as [|x l IH]; [done|]. rewrite !filter_cons.
  rewrite (Hl x) by set_solver. rewrite IH by set_solver. done.
Qed.

Lemma count_edges_equiv g g' P `{SkelTest P} l :
  g ≡ g' -> count_edges g P l = count_edges g' P l.
Proof. intros Hg. apply count_edges_ext. intros e _. by apply skel_test, equiv_edge. Qed.

Lemma node_wf_equiv g g' i : g ≡ g' -> node_wf g i -> node_wf g' i.
Proof.
  intros Hg [].
  destruct (equiv_node g g' i Hg) as (Ei & Eo & Es).
  destruct (equiv_sizes g g' Hg) as [Esn Ese].
  injection Es as _ Ein _ Enri Enro Edata Esig Edb Esb Emask.
  constructor.
  - by rewrite <- Enri.
  - by rewrite <- Enro.
  - by rewrite <- Ei.
  - by rewrite <- Eo.
  - rewrite <- Ei. intros e He. pose proof (equiv_edge g g' e Hg) as Ee. injection Ee as _ Ep Ec _ _ _.
    rewrite <- Ep, <- Ec, <- Esn, <- Ese.
    destruct (equiv_node g g' (e_producer (gedge g e)) Hg) as (_ & <- & _). by apply nw_in_edges0.
  - rewrite <- Eo. intros e He. pose proof (equiv_edge g g' e Hg) as Ee. injection Ee as _ Ep Ec _ _ _.
    rewrite <- Ep, <- Ec, <- Esn, <- Ese.
    destruct (equiv_node g g' (e_consumer (gedge g e)) Hg) as (<- & _ & _). by apply nw_out_edges0.
  - rewrite <- Esig, <- Ei, nw_signaled0. apply (count_edges_equiv g g' _ _ Hg).
  - rewrite <- Edata, <- Ei, nw_data0. apply (count_edges_equiv g g' _ _ Hg).
  - rewrite <- Esb, <- Ei, nw_signaled_back0. apply (count_edges_equiv g g' _ _ Hg).
  - rewrite <- Edb, <- Ei, nw_data_back0. apply (count_edges_equiv g g' _ _ Hg).
  - intros j Hj. rewrite <- Emask, <- Enri, <- Ein, nw_mask0 by done. f_equal.
    by apply skel_test, equiv_edge.
Qed.

#[global] Instance graph_wf_proper : Proper ((≡@{pgm_graph}) ==> iff) graph_wf.
Proof.
  assert (Hone : forall g g', g ≡ g' -> graph_wf g -> graph_wf g').
  { intros g g' Hg []. destruct (equiv_sizes g g' Hg) as [Esn Ese]. constructor.
    - by rewrite <- Esn.
    - by rewrite <- Ese.
    - intros i Hi. rewrite <- Esn in Hi. eauto using node_wf_equiv.
    - intros i e Hi He. rewrite <- Esn in Hi.
      destruct (equiv_node g g' i Hg) as (Ei & _). rewrite <- Ei in He.
      specialize (gw_attr0 i e Hi He). pose proof (equiv_edge g g' e Hg) as Ee.
      injection Ee as _ _ _ _ Ep Ec Et _ _ _. unfold attr_wf in *. by rewrite <- Ep, <- Ec, <- Et. }
  intros g g' Hg. split; apply Hone; [done | by symmetry].
Qed.

(** ** Calls that keep the skeleton of graph [g], who owns its nodes, and the
    other graphs *)

Definition same_owners (gr gr' : pgm_graph) : Prop :=
  forall i, owner (gnode gr' i) = owner (gnode gr i).

Definition keeps_skel {W A} (g : Z) (m : ST (pgm_state W) A) : Prop :=
  forall s a s' gr, has_graph s g gr -> m s = Ok (a, s') ->
    (exists gr', has_graph s' g gr' /\ gr ≡ gr' /\ same_owners gr gr') /\
    (forall h x, h <> g -> has_graph s h x -> has_graph s' h x) /\
    gIsGraphMaster s' = gIsGraphMaster s.

Section Keeps.
Context {W : Type}.

Lemma keeps_ret {A} (g : Z) (a : A) : keeps_skel (W := W) g (mret a).
Proof. intros s b s' gr Hs [= <- <-]. split_and!; [by exists gr | done | done]. Qed.

Lemma keeps_bind {A B} (g : Z) (m : ST (pgm_state W) A) (k : A -> ST (pgm_state W) B) :
  keeps_skel g m -> (forall a, keeps_skel g (k a)) -> keeps_skel g (m ≫= k).
Proof.
  intros Hm Hk s b s' gr Hs E. apply st_bind_ok in E as (a & s1 & E1 & E2).
  destruct (Hm s a s1 gr Hs E1) as ((gr1 & Hs1 & Eq1 & Ew1) & Ho1 & Hma1).
  destruct (Hk a s1 b s' gr1 Hs1 E2) as ((gr2 & Hs2 & Eq2 & Ew2) & Ho2 & Hma2).
  split_and!; [|eauto|congruence]. exists gr2. split; [done|].
  split; [by transitivity gr1 | intros i; by rewrite Ew2, Ew1].
Qed.

Lemma keeps_fail {A} (g : Z) (f : fault) : keeps_skel (W := W) (A := A) g (fail f).
Proof. intros s b s' gr Hs E. discriminate. Qed.

(** A call that returns the state it got. *)
Lemma keeps_pure {A} (g : Z) (m : ST (pgm_state W) A) :
  (forall s a s', m s = Ok (a, s') -> s' = s) -> keeps_skel g m.
Proof. intros Hm s a s' gr Hs E. apply Hm in E as ->. split_and!; [by exists gr | done | done]. Qed.

Lemma keeps_get (g : Z) : keeps_skel (W := W) g get.
Proof. apply keeps_pure. by intros s a s' [= <- <-]. Qed.

Lemma keeps_lift {A} (g : Z) (o : outcome A) : keeps_skel (W := W) g (lift o).
Proof. apply keeps_pure. unfold lift. destruct o; by intros s b s' [= <- <-]. Qed.

Lemma keeps_rd_graph g h : keeps_skel (W := W) g (rd_graph h).
Proof.
  apply keeps_bind; [apply keeps_get|]. intros s. apply keeps_bind; intros; apply keeps_lift.
Qed.

Lemma keeps_rd_node g h n : keeps_skel (W := W) g (rd_node h n).
Proof. apply keeps_bind; [apply keeps_rd_graph | intros; apply keeps_lift]. Qed.

Lemma keeps_rd_edge g h n : keeps_skel (W := W) g (rd_edge h n).
Proof. apply keeps_bind; [apply keeps_rd_graph | intros; apply keeps_lift]. Qed.

(** A change of the state that leaves [gGraphs] and [gIsGraphMaster] alone. *)
Lemma keeps_modify g (f : pgm_state W -> pgm_state W) :
  (forall s, gGraphs (f s) = gGraphs s /\ gIsGraphMaster (f s) = gIsGraphMaster s) ->
  keeps_skel g (modify f).
Proof.
  intros Hf s a s' gr Hs E. injection E as _ <-. destruct (Hf s) as [Eg Em].
  unfold has_graph in *. rewrite Eg. split_and!; [by exists gr | done | done].
Qed.

Lemma keeps_sys {A} g (call : W -> A * W) : keeps_skel g (sys call).
Proof.
  intros s a s' gr Hs E. unfold sys in E. apply st_bind_ok in E as (s0 & s1 & [= <- <-] & E).
  destruct (call (world s)) as [b w]. injection E as <- <-. split_and!; [by exists gr | done | done].
Qed.

Lemma keeps_upd_edge g e f :
  (forall x, edge_skel (f x) = edge_skel x) -> keeps_skel (W := W) g (upd_edge g e f).
Proof.
  intros Hf s a s' gr Hs E.
  assert (He : 0 <= e < PGM_MAX_EDGES).
  { unfold upd_edge in E. rewrite (bind_step _ _ _ _ _ (rd_graph_at s g gr Hs)) in E.
    apply st_bind_ok in E as (x & s1 & E1 & _). unfold lift, edge_of in E1.
    destruct (aget _ _ _) eqn:Ea; [|done]. by apply aget_inv in Ea as []. }
  rewrite (upd_edge_at s g gr e f Hs He) in E. injection E as <- <-.
  split_and!; [|intros h x Hh; by apply has_graph_put_ne|done].
  eexists. split; [by eapply has_graph_put|]. split; [|done]. split; [done|]. split; [done|].
  intros i. simpl. rewrite cell_insert. case_decide; [subst; by rewrite Hf | done].
Qed.

Lemma keeps_upd_node g n f :
  (forall x, node_skel (f x) = node_skel x) -> (forall x, owner (f x) = owner x) ->
  keeps_skel (W := W) g (upd_node g n f).
Proof.
  intros Hf Hw s a s' gr Hs E.
  assert (He : 0 <= n < PGM_MAX_NODES).
  { unfold upd_node in E. rewrite (bind_step _ _ _ _ _ (rd_graph_at s g gr Hs)) in E.
    apply st_bind_ok in E as (x & s1 & E1 & _). unfold lift, node_of in E1.
    destruct (aget _ _ _) eqn:Ea; [|done]. by apply aget_inv in Ea as []. }
  rewrite (upd_node_at s g gr n f Hs He) in E. injection E as <- <-.
  split_and!; [|intros h x Hh; by apply has_graph_put_ne|done].
  eexists. split; [by eapply has_graph_put|]. split; [split; [done|]; split; [|done]|];
    intros i; unfold gnode; simpl; rewrite cell_insert; case_decide; subst; auto.
Qed.

Lemma keeps_for_each {A} g (l : list A) (body : A -> ST (pgm_state W) unit) :
  (forall x, keeps_skel g (body x)) -> keeps_skel g (for_each l body).
Proof.
  intros Hb. induction l as [|x l IH]; [apply keeps_ret|]. apply keeps_bind; auto.
Qed.

Lemma keeps_for_acc {A B} g (l : list A) (acc : B) (body : A -> B -> ST (pgm_state W) B) :
  (forall x b, keeps_skel g (body x b)) -> keeps_skel g (for_acc l acc body).
Proof.
  intros Hb. revert acc. induction l as [|x l IH]; intros acc; [apply keeps_ret|].
  apply keeps_bind; auto.
Qed.

End Keeps.

Create HintDb pgm_keeps.
#[export] Hint Resolve keeps_ret keeps_fail keeps_get keeps_lift keeps_rd_graph keeps_rd_node
  keeps_rd_edge keeps_sys : pgm_keeps.
#[export] Hint Extern 2 (keeps_skel _ (upd_edge _ _ _)) =>
  apply keeps_upd_edge; intros; done : pgm_keeps.
#[export] Hint Extern 2 (keeps_skel _ (upd_node _ _ _)) =>
  apply keeps_upd_node; intros; done : pgm_keeps.
#[export] Hint Extern 2 (keeps_skel _ (modify _)) => apply keeps_modify; done : pgm_keeps.

(** Split a call into its parts and discharge each. *)
Ltac keeps :=
  repeat first
    [ solve [eauto with pgm_keeps nocore]
    | apply keeps_bind; [|intros ?]
    | match goal with
      | |- keeps_skel _ (let '(_, _) := ?p in _) => destruct p
      | |- keeps_skel _ (if ?b then _ else _) => destruct b
      | |- keeps_skel _ (match ?x with _ => _ end) => destruct x
      | |- keeps_skel _ (let _ := _ in _) => cbv zeta
      end ].

End Structure.
