(* ===== verification/Memory.v ===== *)
(** * Edge buffers (src/pgm.cpp, "Memory Management Routines") *)

From S2P Require Import Prelude Ring Types Sys.

Module Memory.
Import Types Sys.

Definition PGM_COOKIE : Z := 0x00100100.
Definition PGM_USERMEM_ALIGNMENT : Z := 16.
Definition PGM_USERMEM_PADDING : Z := PGM_USERMEM_ALIGNMENT - 1.
Definition sizeof_hdr : Z := 24.
Definition sizeof_offset : Z := 1.
Definition PGM_USERMEM_EXTRA : Z := sizeof_hdr + sizeof_offset + PGM_USERMEM_PADDING.
Definition PGM_TRANSMISSION_TAGS : Z := 1.

Definition BAD_EDGE : edge_t := Edge_t (-1) (-1).

Section Memory.
Context {W : Type} `{Syscalls W}.

Definition rd_byte (a : Z) : ST (pgm_state W) Z :=
  s ← get;
  match hbytes (heap s) !! a with Some b => mret b | None => fail OutOfBounds end.

Definition wr_byte (a v : Z) : ST (pgm_state W) unit :=
  modify (fun s => s <| heap ::= fun h => h <| hbytes ::= <[a := v mod 256]> |> |>).

Definition rd_hdr (a : Z) : ST (pgm_state W) pgm_memory_hdr_t :=
  s ← get;
  if a =? 0 then fail NullDeref
  else match hdrs (heap s) !! a with Some h => mret h | None => fail OutOfBounds end.

Definition wr_hdr (a : Z) (h : pgm_memory_hdr_t) : ST (pgm_state W) unit :=
  if a =? 0 then fail NullDeref
  else modify (fun s => s <| heap ::= fun hp => hp <| hdrs ::= <[a := h]> |> |>).

Definition upd_hdr (a : Z) (f : pgm_memory_hdr_t -> pgm_memory_hdr_t) : ST (pgm_state W) unit :=
  h ← rd_hdr a; wr_hdr a (f h).

(** [free(p)] of a block that starts with a header. *)
Definition c_free (a : Z) : ST (pgm_state W) unit :=
  if a =? 0 then mret tt
  else
    modify (fun s => s <| heap ::= fun hp => hp <| hdrs ::= delete a |> |>) ;;
    modify (fun s => s <| world ::= sys_free a |>).

Definition pgm_get_mem_header (userptr : Z) : ST (pgm_state W) Z :=
  off ← rd_byte (userptr - 2);
  if PGM_USERMEM_EXTRA <? off then mret 0 else mret (userptr - off).

Definition pgm_get_mem_header_safe (userptr : Z) : ST (pgm_state W) Z :=
  ptr ← pgm_get_mem_header userptr;
  if ptr =? 0 then mret 0
  else
    h ← rd_hdr ptr;
    if negb (cookie h =? PGM_COOKIE) then mret 0 else mret ptr.

Definition pgm_get_user_ptr (mem : Z) : Z :=
  Z.ldiff (wrap64 (mem + PGM_USERMEM_EXTRA)) PGM_USERMEM_PADDING.

Definition is_bad_edge (e : edge_t) : bool :=
  (ed_graph e =? ed_graph BAD_EDGE) && (ed_edge e =? ed_edge BAD_EDGE).

Definition is_producer_buf (userptr : Z) : ST (pgm_state W) Z :=
  ptr ← pgm_get_mem_header_safe userptr;
  if ptr =? 0 then mret 0
  else
    h ← rd_hdr ptr;
    if is_bad_edge (assigned_edge h) then mret 0
    else mret (if producer_flag h =? 1 then 1 else 0).

Definition is_consumer_buf (userptr : Z) : ST (pgm_state W) Z :=
  ptr ← pgm_get_mem_header_safe userptr;
  if ptr =? 0 then mret 0
  else
    h ← rd_hdr ptr;
    if is_bad_edge (assigned_edge h) then mret 0
    else mret (if producer_flag h =? 0 then 1 else 0).

(** The edge goes back through the second component when there is one. *)
Definition is_buf_assigned (userptr : Z) : ST (pgm_state W) (option edge_t) :=
  ptr ← pgm_get_mem_header_safe userptr;
  if ptr =? 0 then mret None
  else
    h ← rd_hdr ptr;
    if is_bad_edge (assigned_edge h) then mret None
    else mret (Some (assigned_edge h)).

(** [producer_flag] of a fresh header is whatever [malloc] left there; it is
    not read while the header is unassigned. *)
Definition pgm_malloc (nbytes : Z) : ST (pgm_state W) Z :=
  if negb (PGM_USERMEM_EXTRA <=? 255) then fail AssertFailure
  else
    buf ← sys (sys_malloc (wrap64 (nbytes + PGM_TRANSMISSION_TAGS + PGM_USERMEM_EXTRA)));
    if buf =? 0 then mret 0
    else
      wr_hdr buf (Hdr nbytes BAD_EDGE PGM_COOKIE 0) ;;
      let ptr := pgm_get_user_ptr buf in
      wr_byte (ptr - 2) (ptr - buf) ;;
      mret ptr.

Definition pgm_free (userptr : Z) : ST (pgm_state W) unit :=
  if userptr =? 0 then mret tt
  else
    hdr ← pgm_get_mem_header_safe userptr;
    if hdr =? 0 then mret tt
    else
      _ ← is_buf_assigned userptr; (* only to warn *)
      c_free hdr.

(** [true] assigned to a signed one-bit field reads back as -1. *)
Definition flag_of (b : bool) : Z := signed 1 (if b then 1 else 0).

Definition malloc_edge_buf (g e : Z) (is_producer : bool) : ST (pgm_state W) Z :=
  ed ← rd_edge g e;
  let usernbytes := if is_producer then nr_produce (e_attr ed) else nr_consume (e_attr ed) in
  uptr ← pgm_malloc usernbytes;
  if uptr =? 0 then mret 0
  else
    mem ← pgm_get_mem_header uptr;
    upd_hdr mem (fun h => h <| assigned_edge := Edge_t g e |>
                            <| producer_flag := flag_of is_producer |>) ;;
    mret mem.

Definition pgm_malloc_edge_buf_p (edge : edge_t) : ST (pgm_state W) Z :=
  ok ← is_valid_graph (ed_graph edge);
  if negb ok then mret 0
  else e ← rd_edge (ed_graph edge) (ed_edge edge); pgm_malloc (nr_produce (e_attr e)).

Definition pgm_malloc_edge_buf_c (edge : edge_t) : ST (pgm_state W) Z :=
  ok ← is_valid_graph (ed_graph edge);
  if negb ok then mret 0
  else e ← rd_edge (ed_graph edge) (ed_edge edge); pgm_malloc (nr_consume (e_attr e)).

Definition pgm_get_edge_buf_p (edge : edge_t) : ST (pgm_state W) Z :=
  ok ← is_valid_graph (ed_graph edge);
  if negb ok then mret 0
  else
    e ← rd_edge (ed_graph edge) (ed_edge edge);
    if negb (is_data_passing e) then mret 0 else mret (pgm_get_user_ptr (buf_out e)).

Definition pgm_get_edge_buf_c (edge : edge_t) : ST (pgm_state W) Z :=
  ok ← is_valid_graph (ed_graph edge);
  if negb ok then mret 0
  else
    e ← rd_edge (ed_graph edge) (ed_edge edge);
    if negb (is_data_passing e) then mret 0 else mret (pgm_get_user_ptr (buf_in e)).

Definition pgm_get_edge_from_buf (uptr : Z) : ST (pgm_state W) edge_t :=
  r ← is_buf_assigned uptr;
  match r with Some edge => mret edge | None => mret BAD_EDGE end.

Definition pgm_is_buf_in_use (uptr : Z) : ST (pgm_state W) Z :=
  r ← is_buf_assigned uptr;
  match r with Some _ => mret 1 | None => mret 0 end.

Definition swap_edge_buf (edge : edge_t) (new_uptr : Z) (swap_producer : bool)
    : ST (pgm_state W) Z :=
  if new_uptr =? 0 then mret 0
  else
    ok ← is_valid_graph (ed_graph edge);
    if negb ok then mret 0
    else
      e ← rd_edge (ed_graph edge) (ed_edge edge);
      if negb (is_data_passing e) then mret 0
      else
        hdr ← pgm_get_mem_header_safe new_uptr;
        if hdr =? 0 then mret 0
        else
          h ← rd_hdr hdr;
          if negb (ed_graph (assigned_edge h) =? ed_graph BAD_EDGE)
             && negb (ed_edge (assigned_edge h) =? ed_edge BAD_EDGE)
          then mret 0
          else
            let old_hdr := if swap_producer then buf_out e else buf_in e in
            oh ← rd_hdr old_hdr;
            if negb (usersize h =? usersize oh) then mret 0
            else
              upd_hdr hdr (fun h => h <| assigned_edge := edge |>
                                      <| producer_flag := producer_flag oh |>) ;;
              upd_hdr old_hdr (fun h => h <| assigned_edge := BAD_EDGE |>) ;;
              upd_edge (ed_graph edge) (ed_edge edge) (fun e =>
                if swap_producer then e <| buf_out := hdr |> else e <| buf_in := hdr |>) ;;
              mret (pgm_get_user_ptr old_hdr).

Definition pgm_swap_edge_buf_p (edge : edge_t) (new_uptr : Z) : ST (pgm_state W) Z :=
  swap_edge_buf edge new_uptr true.

Definition pgm_swap_edge_buf_c (edge : edge_t) (new_uptr : Z) : ST (pgm_state W) Z :=
  swap_edge_buf edge new_uptr false.

(** The edge field a header's flag selects. *)
Definition rd_edge_slot (edge : edge_t) (flag : Z) : ST (pgm_state W) Z :=
  e ← rd_edge (ed_graph edge) (ed_edge edge);
  mret (if negb (flag =? 0) then buf_out e else buf_in e).

Definition wr_edge_slot (edge : edge_t) (flag v : Z) : ST (pgm_state W) unit :=
  upd_edge (ed_graph edge) (ed_edge edge) (fun e =>
    if negb (flag =? 0) then e <| buf_out := v |> else e <| buf_in := v |>).

Definition pgm_swap_edge_bufs (a b : Z) : ST (pgm_state W) Z :=
  if (a =? 0) || (b =? 0) then mret (-1)
  else if a =? b then mret (-1)
  else
    ra ← is_buf_assigned a;
    match ra with
    | None => mret (-1)
    | Some edgea =>
        rb ← is_buf_assigned b;
        match rb with
        | None => mret (-1)
        | Some edgeb =>
            hdra ← pgm_get_mem_header a;
            hdrb ← pgm_get_mem_header b;
            ha ← rd_hdr hdra;
            hb ← rd_hdr hdrb;
            if negb (usersize ha =? usersize hb) then mret (-1)
            else
              tempbufptr ← rd_edge_slot edgea (producer_flag ha);
              bufb ← rd_edge_slot edgeb (producer_flag hb);
              wr_edge_slot edgea (producer_flag ha) bufb ;;
              wr_edge_slot edgeb (producer_flag hb) tempbufptr ;;
              upd_hdr hdra (fun h => h <| assigned_edge := edgeb |>) ;;
              upd_hdr hdrb (fun h => h <| assigned_edge := edgea |>) ;;
              ha' ← rd_hdr hdra;
              hb' ← rd_hdr hdrb;
              upd_hdr hdra (fun h => h <| producer_flag := producer_flag hb' |>) ;;
              upd_hdr hdrb (fun h => h <| producer_flag := producer_flag ha' |>) ;;
              mret 0
        end
    end.

End Memory.

End Memory.
