(* ===== verification/Ipc.v ===== *)
(** * The IPC back ends of edges (src/pgm.cpp, "IPC Functions for Data-Passing
    Edges"): one set of operations per edge type and the tables that select
    them. *)

From S2P Require Import Prelude Ring Types Sys Structure Memory.
From stdpp Require Import pretty.

Module Ipc.
#[local] Open Scope Z_scope.
Import Types Sys Structure Memory.

Section Ipc.
Context {W : Type} `{Syscalls W}.

(** An edge operation gets the graph, the producer and consumer nodes and the
    edge; a close operation only the edge. *)
#[local] Abbreviation edge_op := (Z -> Z -> Z -> Z -> ST (pgm_state W) Z).
#[local] Abbreviation close_op := (Z -> Z -> ST (pgm_state W) Z).

(** ** Dummy operations *)

Definition dummy_edge_op (g p c e : Z) : ST (pgm_state W) Z := mret 0.
Definition dummy_edge_close (g e : Z) : ST (pgm_state W) Z := mret 0.

(** ** Ring *)

Definition ring_init (g p c e : Z) : ST (pgm_state W) Z :=
  ed ← rd_edge g e;
  if negb (nr_produce (e_attr ed) =? nr_consume (e_attr ed)) then mret (-1)
  else
    s ← get;
    '(ret, r) ← lift (Ring.init_ring (sys_alloc (world s)) (Some (ringbuf ed))
                        (a_nmemb (e_attr ed)) (nr_produce (e_attr ed)));
    match r with
    | Some r => upd_edge g e (set_ringbuf r) ;; mret ret
    | None => mret ret
    end.

Definition ring_open_consumer (g p c e : Z) : ST (pgm_state W) Z :=
  mem ← malloc_edge_buf g e false;
  upd_edge g e (fun ed => ed <| buf_in := mem |>) ;; mret 0.

Definition ring_open_producer (g p c e : Z) : ST (pgm_state W) Z :=
  mem ← malloc_edge_buf g e true;
  upd_edge g e (fun ed => ed <| buf_out := mem |>) ;; mret 0.

Definition ring_close_consumer (g e : Z) : ST (pgm_state W) Z :=
  ed ← rd_edge g e;
  c_free (buf_in ed) ;;
  upd_edge g e (fun ed => ed <| buf_in := 0 |>) ;; mret 0.

Definition ring_close_producer (g e : Z) : ST (pgm_state W) Z :=
  ed ← rd_edge g e;
  c_free (buf_out ed) ;;
  upd_edge g e (fun ed => ed <| buf_out := 0 |>) ;; mret 0.

(** [free_ring] releases the two blocks the ring owns; they are gone from the
    model with it. *)
Definition ring_destroy (g p c e : Z) : ST (pgm_state W) Z :=
  ed ← rd_edge g e;
  let r := ringbuf ed in
  match Ring.free_ring (Some r) with
  | [] => mret 0
  | _ => upd_edge g e (set_ringbuf (r <| Ring.slots := None |> <| Ring.buf := None |>)) ;; mret 0
  end.

(** [ring_read]/[ring_write] on the ring of an edge: the value switch on
    [nbytes] only selects how the same bytes are copied.  [None]: the call
    spins. *)
Definition ring_read (ed : pgm_edge) (nbytes : Z) : outcome (option (list Z * Ring.ring)) :=
  if negb (nbytes =? nr_produce (e_attr ed)) then Fault AssertFailure
  else if negb (nbytes =? nr_consume (e_attr ed)) then Fault AssertFailure
  else if (nbytes =? 8) || (nbytes =? 4) || (nbytes =? 2) || (nbytes =? 1)
  then Ring.read_ring (ringbuf ed) nbytes
  else Ring.read_vec_ring (ringbuf ed) nbytes.

Definition ring_write (ed : pgm_edge) (bs : list Z) : outcome (option Ring.ring) :=
  let nbytes := Z.of_nat (List.length bs) in
  if negb (nbytes =? nr_produce (e_attr ed)) then Fault AssertFailure
  else if negb (nbytes =? nr_consume (e_attr ed)) then Fault AssertFailure
  else if (nbytes =? 8) || (nbytes =? 4) || (nbytes =? 2) || (nbytes =? 1)
  then Ring.write_ring (ringbuf ed) bs
  else Ring.write_vec_ring (ringbuf ed) bs.

(** ** FIFO *)

Definition fifo_name (g p c e : Z) : ST (pgm_state W) string :=
  s ← get;
  let hash := string_hash (gGraphPath s) in
  gr ← rd_graph g;
  pn ← rd_node g p;
  cn ← rd_node g c;
  ed ← rd_edge g e;
  gname ← lift (std_string (g_name gr));
  pname ← lift (std_string (n_name pn));
  cname ← lift (std_string (n_name cn));
  ename ← lift (std_string (e_name ed));
  mret (pretty hash +:+ "_" +:+ gname +:+ "_" +:+ pname +:+ "_" +:+ cname
          +:+ "_" +:+ ename +:+ ".edge")%string.

Definition fifo_create (g p c e : Z) : ST (pgm_state W) Z :=
  s ← get;
  if bool_decide (gGraphPath s = EmptyString) then mret (-1)
  else
    fifoName ← fifo_name g p c e;
    let fifoPath := path_append (gGraphPath s) fifoName in
    _ ← sys (fs_remove fifoPath);
    ret ← sys (sys_mkfifo fifoPath);
    mret ret.

Definition fifo_open_consumer (g p c e : Z) : ST (pgm_state W) Z :=
  s ← get;
  if bool_decide (gGraphPath s = EmptyString) then mret (-1)
  else
    fifoName ← fifo_name g p c e;
    let fifoPath := path_append (gGraphPath s) fifoName in
    fd ← sys (sys_open_rdonly fifoPath);
    upd_edge g e (set_fd_in fd) ;;
    if negb (fd =? -1)
    then mem ← malloc_edge_buf g e false;
         upd_edge g e (fun ed => ed <| buf_in := mem |>) ;; mret 0
    else mret (-1).

(** The [do ... while(ret == -1)] loop of [fifo_open_producer], at most [fuel]
    rounds; [None] when that was not enough. *)
Fixpoint fifo_open_loop (fuel : nat) (fifoPath : string) (start_time g e : Z)
    : ST (pgm_state W) (option Z) :=
  match fuel with
  | O => mret None
  | S fuel =>
      fd ← sys (sys_open_wronly fifoPath);
      upd_edge g e (set_fd_out fd) ;;
      if fd =? -1 then
        err ← errno;
        if negb (err =? ENXIO) then mret (Some (-1))
        else
          now ← sys sys_time;
          if 60 <? now - start_time then mret (Some (-1))
          else
            modify (fun s => s <| world ::= sys_usleep 1000 |>) ;;
            fifo_open_loop fuel fifoPath start_time g e
      else mret (Some 0)
  end.

Definition fifo_open_producer (fuel : nat) (g p c e : Z) : ST (pgm_state W) Z :=
  s ← get;
  if bool_decide (gGraphPath s = EmptyString) then mret (-1)
  else
    fifoName ← fifo_name g p c e;
    let fifoPath := path_append (gGraphPath s) fifoName in
    start_time ← sys sys_time;
    r ← fifo_open_loop fuel fifoPath start_time g e;
    match r with
    | None => fail OutOfFuel (* still waiting for a reader *)
    | Some ret =>
        if ret =? 0
        then mem ← malloc_edge_buf g e true;
             upd_edge g e (fun ed => ed <| buf_out := mem |>) ;; mret ret
        else mret ret
    end.

Definition fifo_close_consumer (g e : Z) : ST (pgm_state W) Z :=
  ed ← rd_edge g e;
  ret ← sys (sys_close (fd_in ed));
  if ret =? 0 then
    upd_edge g e (set_fd_in 0) ;;
    c_free (buf_in ed) ;;
    upd_edge g e (fun ed => ed <| buf_in := 0 |>) ;; mret ret
  else mret ret.

Definition fifo_close_producer (g e : Z) : ST (pgm_state W) Z :=
  ed ← rd_edge g e;
  ret ← sys (sys_close (fd_out ed));
  if ret =? 0 then
    upd_edge g e (set_fd_out 0) ;;
    c_free (buf_out ed) ;;
    upd_edge g e (fun ed => ed <| buf_out := 0 |>) ;; mret ret
  else mret ret.

Definition fifo_destroy (g p c e : Z) : ST (pgm_state W) Z :=
  s ← get;
  if bool_decide (gGraphPath s = EmptyString) then mret (-1)
  else
    fifoName ← fifo_name g p c e;
    let fifoPath := path_append (gGraphPath s) fifoName in
    there ← sys (fs_exists fifoPath);
    if there : bool
    then gone ← sys (fs_remove fifoPath); mret (if gone : bool then 0 else -1)
    else mret (-1).

(** ** POSIX message queues *)

Definition mq_name := fifo_name.

Definition mq_path (g p c e : Z) : ST (pgm_state W) string :=
  n ← mq_name g p c e; mret (path_append "/" n).

Definition mq_create (g p c e : Z) : ST (pgm_state W) Z :=
  mqPath ← mq_path g p c e;
  ret ← sys (sys_mq_unlink mqPath);
  err ← errno;
  mret (if (ret =? -1) && (err =? ENOENT) then 0 else ret).

Definition mq_open_consumer (g p c e : Z) : ST (pgm_state W) Z :=
  mqPath ← mq_path g p c e;
  ed ← rd_edge g e;
  fd ← sys (sys_mq_open_rdonly mqPath (mq_maxmsg (e_attr ed))
              (wrap64 (nr_produce (e_attr ed) + 1)));
  upd_edge g e (set_fd_in fd) ;;
  if fd =? -1 then mret (-1)
  else
    mem ← malloc_edge_buf g e false;
    upd_edge g e (fun ed => ed <| buf_in := mem |>) ;; mret 0.

Definition mq_open_producer (g p c e : Z) : ST (pgm_state W) Z :=
  mqPath ← mq_path g p c e;
  ed ← rd_edge g e;
  fd ← sys (sys_mq_open_wronly mqPath (mq_maxmsg (e_attr ed))
              (wrap64 (nr_produce (e_attr ed) + 1)));
  upd_edge g e (set_fd_out fd) ;;
  if fd =? -1 then mret (-1)
  else
    mem ← malloc_edge_buf g e true;
    upd_edge g e (fun ed => ed <| buf_out := mem |>) ;; mret 0.

Definition mq_close_consumer (g e : Z) : ST (pgm_state W) Z :=
  ed ← rd_edge g e;
  ret ← sys (sys_mq_close (fd_in ed));
  if ret =? 0 then
    upd_edge g e (set_fd_in 0) ;;
    c_free (buf_in ed) ;;
    upd_edge g e (fun ed => ed <| buf_in := 0 |>) ;; mret ret
  else mret ret.

Definition mq_close_producer (g e : Z) : ST (pgm_state W) Z :=
  ed ← rd_edge g e;
  ret ← sys (sys_mq_close (fd_out ed));
  if ret =? 0 then
    upd_edge g e (set_fd_out 0) ;;
    c_free (buf_out ed) ;;
    upd_edge g e (fun ed => ed <| buf_out := 0 |>) ;; mret ret
  else mret ret.

Definition mq_destroy (g p c e : Z) : ST (pgm_state W) Z :=
  mqPath ← mq_path g p c e;
  sys (sys_mq_unlink mqPath).

(** ** TCP sockets *)

Definition sock_stream_create (g p c e : Z) : ST (pgm_state W) Z := mret 0.

(** The loops over [getaddrinfo]'s results: the first address for which both
    calls succeed. *)
Fixpoint connect_loop (addrs : list Z) : ST (pgm_state W) (option Z) :=
  match addrs with
  | [] => mret None
  | rp :: addrs =>
      sfd ← sys (sys_socket rp);
      if sfd =? -1 then connect_loop addrs
      else
        r ← sys (sys_connect sfd rp);
        if negb (r =? -1) then mret (Some sfd)
        else _ ← sys (sys_close sfd); connect_loop addrs
  end.

Fixpoint bind_loop (addrs : list Z) : ST (pgm_state W) (option Z) :=
  match addrs with
  | [] => mret None
  | rp :: addrs =>
      sfd ← sys (sys_socket rp);
      if sfd =? -1 then bind_loop addrs
      else
        r ← sys (sys_bind sfd rp);
        if r =? 0 then mret (Some sfd)
        else _ ← sys (sys_close sfd); bind_loop addrs
  end.

Definition sock_stream_open_consumer (g p c e : Z) : ST (pgm_state W) Z :=
  ed ← rd_edge g e;
  '(s, result) ← sys (sys_getaddrinfo (u_node (e_attr ed)) (port (e_attr ed)) false);
  if negb (s =? 0) then mret (-1)
  else
    r ← connect_loop result;
    match r with
    | None => mret (-1)
    | Some sfd =>
        modify (fun s => s <| world ::= sys_freeaddrinfo result |>) ;;
        upd_edge g e (set_fd_in sfd) ;;
        mem ← malloc_edge_buf g e false;
        upd_edge g e (fun ed => ed <| buf_in := mem |>) ;; mret 0
    end.

Definition sock_stream_open_producer (g p c e : Z) : ST (pgm_state W) Z :=
  ed ← rd_edge g e;
  '(s, result) ← sys (sys_getaddrinfo 0 (port (e_attr ed)) true);
  if negb (s =? 0) then mret (-1)
  else
    r ← bind_loop result;
    match r with
    | None => mret (-1)
    | Some sfd =>
        modify (fun s => s <| world ::= sys_freeaddrinfo result |>) ;;
        ret ← sys (sys_listen sfd 1);
        if ret <? 0 then mret ret
        else
          ret ← sys (sys_accept sfd);
          if ret <? 0 then mret ret
          else
            upd_edge g e (set_fd_out ret) ;;
            upd_edge g e (fun ed => ed <| e_attr ::= fun a => a <| u_fd_prod_socket := sfd |> |>) ;;
            mem ← malloc_edge_buf g e true;
            upd_edge g e (fun ed => ed <| buf_out := mem |>) ;; mret 0
    end.

Definition sock_stream_close_consumer (g e : Z) : ST (pgm_state W) Z :=
  ed ← rd_edge g e;
  ret ← sys (sys_close (fd_in ed));
  if ret =? 0 then
    upd_edge g e (set_fd_in 0) ;;
    c_free (buf_in ed) ;;
    upd_edge g e (fun ed => ed <| buf_in := 0 |>) ;; mret ret
  else mret ret.

Definition sock_stream_close_producer (g e : Z) : ST (pgm_state W) Z :=
  ed ← rd_edge g e;
  ret ← sys (sys_close (fd_out ed));
  ret2 ← sys (sys_close (u_fd_prod_socket (e_attr ed)));
  let ret := Z.lor ret ret2 in
  if ret =? 0 then
    upd_edge g e (set_fd_out 0) ;;
    upd_edge g e (fun ed => ed <| e_attr ::= fun a => a <| u_fd_prod_socket := 0 |> |>) ;;
    c_free (buf_out ed) ;;
    upd_edge g e (fun ed => ed <| buf_out := 0 |>) ;; mret ret
  else mret ret.

Definition sock_stream_destroy (g p c e : Z) : ST (pgm_state W) Z := mret 0.

(** ** Condition-variable edges *)

Definition cv_create (g p c e : Z) : ST (pgm_state W) Z :=
  upd_edge g e (fun ed => ed <| nr_pending := nr_init (e_attr ed) |>) ;; mret 0.

(** ** The operation tables *)

Definition ops_init (o : edge_ops) : edge_op :=
  match o with
  | pgm_cv_edge_ops => cv_create
  | pgm_fifo_edge_ops => fifo_create
  | pgm_mq_edge_ops => mq_create
  | pgm_ring_edge_ops => ring_init
  | pgm_sock_stream_edge_ops => sock_stream_create
  end.

Definition ops_open_consumer (o : edge_ops) : edge_op :=
  match o with
  | pgm_cv_edge_ops => dummy_edge_op
  | pgm_fifo_edge_ops => fifo_open_consumer
  | pgm_mq_edge_ops => mq_open_consumer
  | pgm_ring_edge_ops => ring_open_consumer
  | pgm_sock_stream_edge_ops => sock_stream_open_consumer
  end.

Definition ops_open_producer (fuel : nat) (o : edge_ops) : edge_op :=
  match o with
  | pgm_cv_edge_ops => dummy_edge_op
  | pgm_fifo_edge_ops => fifo_open_producer fuel
  | pgm_mq_edge_ops => mq_open_producer
  | pgm_ring_edge_ops => ring_open_producer
  | pgm_sock_stream_edge_ops => sock_stream_open_producer
  end.

Definition ops_close_consumer (o : edge_ops) : close_op :=
  match o with
  | pgm_cv_edge_ops => dummy_edge_close
  | pgm_fifo_edge_ops => fifo_close_consumer
  | pgm_mq_edge_ops => mq_close_consumer
  | pgm_ring_edge_ops => ring_close_consumer
  | pgm_sock_stream_edge_ops => sock_stream_close_consumer
  end.

Definition ops_close_producer (o : edge_ops) : close_op :=
  match o with
  | pgm_cv_edge_ops => dummy_edge_close
  | pgm_fifo_edge_ops => fifo_close_producer
  | pgm_mq_edge_ops => mq_close_producer
  | pgm_ring_edge_ops => ring_close_producer
  | pgm_sock_stream_edge_ops => sock_stream_close_producer
  end.

Definition ops_destroy (o : edge_ops) : edge_op :=
  match o with
  | pgm_cv_edge_ops => dummy_edge_op
  | pgm_fifo_edge_ops => fifo_destroy
  | pgm_mq_edge_ops => mq_destroy
  | pgm_ring_edge_ops => ring_destroy
  | pgm_sock_stream_edge_ops => sock_stream_destroy
  end.

(** ** No back end changes how a graph is linked

    Every operation of every table leaves the skeleton of the graph it runs in,
    and every other graph, as it found them. *)

Lemma keeps_rd_byte g a : keeps_skel (W := W) g (rd_byte a).
Proof. unfold rd_byte. keeps. Qed.
Lemma keeps_wr_byte g a v : keeps_skel (W := W) g (wr_byte a v).
Proof. unfold wr_byte. keeps. Qed.
Lemma keeps_rd_hdr g a : keeps_skel (W := W) g (rd_hdr a).
Proof. unfold rd_hdr. keeps. Qed.
Lemma keeps_wr_hdr g a h : keeps_skel (W := W) g (wr_hdr a h).
Proof. unfold wr_hdr. keeps. Qed.

#[local] Hint Resolve keeps_rd_byte keeps_wr_byte keeps_rd_hdr keeps_wr_hdr : pgm_keeps.

Lemma keeps_upd_hdr g a f : keeps_skel (W := W) g (upd_hdr a f).
Proof. unfold upd_hdr. keeps. Qed.
Lemma keeps_c_free g a : keeps_skel (W := W) g (c_free a).
Proof. unfold c_free. keeps. Qed.
Lemma keeps_get_mem_header g a : keeps_skel (W := W) g (pgm_get_mem_header a).
Proof. unfold pgm_get_mem_header. keeps. Qed.
Lemma keeps_pgm_malloc g n : keeps_skel (W := W) g (pgm_malloc n).
Proof. unfold pgm_malloc. keeps. Qed.

#[local] Hint Resolve keeps_upd_hdr keeps_c_free keeps_get_mem_header keeps_pgm_malloc : pgm_keeps.

Lemma keeps_malloc_edge_buf g h e b : keeps_skel (W := W) g (malloc_edge_buf h e b).
Proof. unfold malloc_edge_buf. keeps. Qed.
Lemma keeps_fifo_name g h p c e : keeps_skel (W := W) g (fifo_name h p c e).
Proof. unfold fifo_name. keeps. Qed.

#[local] Hint Resolve keeps_malloc_edge_buf keeps_fifo_name : pgm_keeps.

Lemma keeps_mq_path g h p c e : keeps_skel (W := W) g (mq_path h p c e).
Proof. unfold mq_path, mq_name. keeps. Qed.
Lemma keeps_errno g : keeps_skel (W := W) g errno.
Proof. unfold errno. keeps. Qed.

#[local] Hint Resolve keeps_mq_path keeps_errno : pgm_keeps.

Lemma keeps_fifo_open_loop g fuel path t e :
  keeps_skel (W := W) g (fifo_open_loop fuel path t g e).
Proof. induction fuel; simpl; keeps. Qed.
Lemma keeps_connect_loop g l : keeps_skel (W := W) g (connect_loop l).
Proof. induction l; simpl; keeps. Qed.
Lemma keeps_bind_loop g l : keeps_skel (W := W) g (bind_loop l).
Proof. induction l; simpl; keeps. Qed.

#[local] Hint Resolve keeps_fifo_open_loop keeps_connect_loop keeps_bind_loop : pgm_keeps.

Lemma keeps_ops_init o g p c e : keeps_skel (W := W) g (ops_init o g p c e).
Proof.
  destruct o; simpl;
    unfold cv_create, fifo_create, mq_create, ring_init, sock_stream_create; keeps.
Qed.
Lemma keeps_ops_destroy o g p c e : keeps_skel (W := W) g (ops_destroy o g p c e).
Proof.
  destruct o; simpl;
    unfold dummy_edge_op, fifo_destroy, mq_destroy, ring_destroy, sock_stream_destroy; keeps.
Qed.
Lemma keeps_ops_open_consumer o g p c e : keeps_skel (W := W) g (ops_open_consumer o g p c e).
Proof.
  destruct o; simpl; unfold dummy_edge_op, fifo_open_consumer, mq_open_consumer,
    ring_open_consumer, sock_stream_open_consumer; keeps.
Qed.
Lemma keeps_ops_open_producer fuel o g p c e :
  keeps_skel (W := W) g (ops_open_producer fuel o g p c e).
Proof.
  destruct o; simpl; unfold dummy_edge_op, fifo_open_producer, mq_open_producer,
    ring_open_producer, sock_stream_open_producer; keeps.
Qed.
Lemma keeps_ops_close_consumer o g e : keeps_skel (W := W) g (ops_close_consumer o g e).
Proof.
  destruct o; simpl; unfold dummy_edge_close, fifo_close_consumer, mq_close_consumer,
    ring_close_consumer, sock_stream_close_consumer; keeps.
Qed.
Lemma keeps_ops_close_producer o g e : keeps_skel (W := W) g (ops_close_producer o g e).
Proof.
  destruct o; simpl; unfold dummy_edge_close, fifo_close_producer, mq_close_producer,
    ring_close_producer, sock_stream_close_producer; keeps.
Qed.

End Ipc.

#[export] Hint Resolve keeps_ops_init keeps_ops_destroy keeps_ops_open_consumer
  keeps_ops_open_producer keeps_ops_close_consumer keeps_ops_close_producer : pgm_keeps.

End Ipc.
