(* ===== verification/GraphInit.v ===== *)
(** * Set-up and tear-down (src/pgm.cpp, "PGM Framework Init/Destroy Routines"
    and "Graph/Node/Edge Init/Destroy Routines") *)

From S2P Require Import Prelude Ring Types Sys Structure Memory Ipc.
From Stdlib Require Import Ascii.

Module GraphInit.
Import Types Sys Structure Memory Ipc.
#[local] Open Scope Z_scope.

(** [snprintf(name, LEN, "%x", n)] for an [unsigned int] *)
Definition hex_digit (d : Z) : ascii :=
  ascii_of_nat (Z.to_nat (if d <? 10 then 48 + d else 87 + d)).

Fixpoint hex_digits (fuel : nat) (n : Z) : list ascii :=
  match fuel with
  | O => []
  | S fuel =>
      if n <? 16 then [hex_digit n] else hex_digits fuel (n / 16) ++ [hex_digit (n mod 16)]
  end.

Definition hex_name (n : Z) : list ascii := hex_digits 8 n.

(** [len <= 0 || len > LEN] with [len = strnlen(name, LEN)] *)
Definition bad_name_len (name : list ascii) (max : nat) : bool :=
  let len := Z.of_nat (strnlen name max) in (len <=? 0) || (Z.of_nat max <? len).

Section GraphInit.
Context {W : Type} `{Syscalls W}.

(** ** The process *)

Definition prepare_graph_private_mem : ST (pgm_state W) Z :=
  s ← get;
  match gGraphs s with
  | None =>
      ok ← sys sys_new_graphs;
      if ok : bool then
        modify (fun s => s <| gGraphs := Some ∅ |> <| gIsGraphMaster := true |>) ;; mret 0
      else mret (-1)
  | Some _ => mret 1
  end.

Definition pgm_init_process_local : ST (pgm_state W) Z := prepare_graph_private_mem.

Definition pgm_destroy : ST (pgm_state W) Z :=
  s ← get;
  if gGraphSharedMem s then
    modify (fun s => s <| gGraphs := None |> <| gGraphSharedMem := false |>) ;;
    (if gIsGraphMaster s
     then modify (fun s => s <| world ::= sys_shm_remove (gMemName s) |>) else mret tt) ;;
    mret 0
  else
    match gGraphs s with
    | Some _ => modify (fun s => s <| gGraphs := None |>) ;; mret 0
    | None => mret (-1)
    end.

(** ** Graphs

    An output parameter is an argument (its value on entry) and part of the
    result. *)

Definition prepare_graph (graph_name : list ascii) : ST (pgm_state W) (Z * Z) :=
  slot ← for_break (upto PGM_MAX_GRAPHS) (fun i =>
    gr ← rd_graph i; mret (if negb (in_use gr) then Some i else None));
  match slot with
  | None => mret (-1, -1)
  | Some graph =>
      upd_graph graph (fun _ => zeroed <| in_use := true |>) ;;
      if bad_name_len graph_name PGM_GRAPH_NAME_LEN then mret (-1, graph)
      else
        upd_graph graph (fun gr =>
          gr <| g_name ::= fun old => strncpy old graph_name PGM_GRAPH_NAME_LEN |>) ;;
        mret (0, graph)
  end.

Definition open_graph (graph_name : list ascii) : ST (pgm_state W) (Z * Z) :=
  let len := strnlen graph_name (List.length graph_name) in
  slot ← for_break (upto PGM_MAX_GRAPHS) (fun i =>
    gr ← rd_graph i;
    mret (if strncmp_eq (g_name gr) graph_name len then Some i else None));
  match slot with
  | None => mret (-1, -1)
  | Some graph => mret (0, graph)
  end.

Definition pgm_find_graph (graph : Z) (graph_name : list ascii) : ST (pgm_state W) (Z * Z) :=
  s ← get;
  if negb (gGraphSharedMem s) then mret (-1, graph)
  else if bad_name_len graph_name PGM_GRAPH_NAME_LEN then mret (-1, graph)
  else open_graph graph_name.

Definition pgm_find_graph_num (graph n : Z) : ST (pgm_state W) (Z * Z) :=
  pgm_find_graph graph (hex_name n).

Definition pgm_init_graph (graph : Z) (graph_name : list ascii) : ST (pgm_state W) (Z * Z) :=
  s ← get;
  match gGraphs s with
  | None => mret (-1, graph)
  | Some _ =>
      if bad_name_len graph_name PGM_GRAPH_NAME_LEN then mret (-1, graph)
      else if gIsGraphMaster s then
        '(found, graph) ← pgm_find_graph graph graph_name;
        if negb (found =? 0) then prepare_graph graph_name else mret (-1, graph)
      else mret (-1, graph)
  end.

Definition pgm_init_graph_num (graph n : Z) : ST (pgm_state W) (Z * Z) :=
  pgm_init_graph graph (hex_name n).

(** [e->ops->destroy(...)] through the table pointer, which may be null. *)
Definition destroy_edge (g i : Z) : ST (pgm_state W) unit :=
  e ← rd_edge g i;
  o ← lift (deref (e_ops e));
  _ ← ops_destroy o g (e_producer e) (e_consumer e) i;
  mret tt.

Definition destroy_graph (g : Z) : ST (pgm_state W) unit :=
  gr ← rd_graph g;
  for_each (upto (nr_edges gr)) (destroy_edge g) ;;
  upd_graph g (fun gr =>
    gr <| in_use := false |> <| nr_nodes := 0 |>
       <| g_name := replicate PGM_GRAPH_NAME_LEN NUL |> <| nodes := ∅ |>).

Definition pgm_destroy_graph (graph : Z) : ST (pgm_state W) Z :=
  s ← get;
  if negb (gIsGraphMaster s) then mret (-1)
  else
    ok ← is_valid_graph graph;
    if negb ok then mret (-1)
    else
      mutex_lock graph ;;
      gr ← rd_graph graph;
      busy ← for_break (upto (nr_nodes gr)) (fun i =>
        n ← rd_node graph i;
        mret (if negb (owner n =? UNCLAIMED_NODE) then Some i else None));
      match busy with
      | None => destroy_graph graph ;; mutex_unlock graph ;; mret 0
      | Some _ => mutex_unlock graph ;; mret (-1)
      end.

(** ** Nodes *)

Definition pgm_init_node (node : option node_t) (graph : Z) (name : list ascii)
    : ST (pgm_state W) (Z * option node_t) :=
  match node with
  | None => mret (-1, node)
  | Some _ =>
      ok ← is_valid_graph graph;
      s ← get;
      if negb ok then mret (-1, node)
      else if negb (gIsGraphMaster s) then mret (-1, node)
      else if bad_name_len name PGM_NODE_NAME_LEN then mret (-1, node)
      else
        let len := strnlen name PGM_NODE_NAME_LEN in
        mutex_lock graph ;;
        gr ← rd_graph graph;
        if nr_nodes gr + 1 =? PGM_MAX_NODES then mutex_unlock graph ;; mret (-1, node)
        else
          let id := nr_nodes gr in
          upd_graph graph (fun gr => gr <| nr_nodes ::= fun k => k + 1 |>) ;;
          upd_node graph id (fun _ =>
            zeroed <| owner := UNCLAIMED_NODE |>
                   <| n_name ::= fun old => strncpy old name len |>) ;;
          mutex_unlock graph ;;
          mret (0, Some (Node_t graph id))
  end.

Definition pgm_init_node_num (node : option node_t) (graph n : Z)
    : ST (pgm_state W) (Z * option node_t) :=
  pgm_init_node node graph (hex_name n).

(** ** Edges *)

(** The tests on the attributes before the graph is locked. *)
Definition attr_rejected (a : edge_attr_t) : bool :=
  (has_flag (type a) PGM_EDGE_MQ && negb (nr_produce a =? nr_consume a)) ||
  (has_flag (type a) PGM_EDGE_RING &&
     (negb (nr_produce a =? nr_consume a) || (a_nmemb a =? 0))) ||
  (nr_threshold a <? nr_consume a) ||
  ((nr_produce a <=? 0) || (nr_consume a <=? 0) || (nr_threshold a <=? 0)) ||
  (type a =? 0).

(** The table [e->ops] is set to. *)
Definition select_ops (t : Z) : option edge_ops :=
  if has_flag t PGM_EDGE_CV then Some pgm_cv_edge_ops
  else if has_flag t PGM_EDGE_FIFO then Some pgm_fifo_edge_ops
  else if has_flag t PGM_EDGE_MQ then Some pgm_mq_edge_ops
  else if has_flag t PGM_EDGE_RING then Some pgm_ring_edge_ops
  else if has_flag t PGM_EDGE_SOCK_STREAM then Some pgm_sock_stream_edge_ops
  else None.

(** The consumer's counters and mask for one more inbound edge. *)
Definition count_in_edge (a : edge_attr_t) (backedge : bool) (nc : pgm_node) : pgm_node :=
  let nc :=
    if is_signal_driven_attr a then
      let nc := nc <| nr_in_signaled ::= fun k => k + 1 |>
                   <| signal_edge_mask ::= fun m => wrap32 (Z.lor m (Z.shiftl 1 (nr_in nc))) |> in
      if backedge then nc <| nr_in_signaled_backedges ::= fun k => k + 1 |> else nc
    else nc in
  if is_data_passing_attr a then
    let nc := nc <| nr_in_data ::= fun k => k + 1 |> in
    if backedge then nc <| nr_in_data_backedges ::= fun k => k + 1 |> else nc
  else nc.

(** [np->out[np->nr_out++] = e] and [nc->in[nc->nr_in++] = e] *)
Definition push_out (g n e : Z) : ST (pgm_state W) unit :=
  np ← rd_node g n;
  a ← lift (aset PGM_MAX_OUT_DEGREE (n_out np) (nr_out np) e);
  upd_node g n (fun np => np <| n_out := a |> <| nr_out ::= fun k => k + 1 |>).

Definition push_in (g n e : Z) : ST (pgm_state W) unit :=
  nc ← rd_node g n;
  a ← lift (aset PGM_MAX_IN_DEGREE (n_in nc) (nr_in nc) e);
  upd_node g n (fun nc => nc <| n_in := a |> <| nr_in ::= fun k => k + 1 |>).

(** The edge after [memset] and the assignments that follow it. *)
Definition fresh_edge (producer consumer : node_t) (name : list ascii) (a : edge_attr_t)
    (backedge : bool) (skips : Z) : pgm_edge :=
  let e := zeroed <| e_name ::= fun old => strncpy old name (strnlen name PGM_EDGE_NAME_LEN) |>
                  <| e_producer := nd_node producer |>
                  <| e_consumer := nd_node consumer |>
                  <| e_attr := a |> in
  if backedge then e <| is_backedge := true |> <| nr_skips := skips |> else e.

(** [__pgm_init_edge] *)
Definition init_edge (edge : option edge_t) (producer consumer : node_t) (name : list ascii)
    (attr : edge_attr_t) (backedge : bool) (skips : Z)
    : ST (pgm_state W) (Z * option edge_t) :=
  match edge with
  | None => mret (-1, edge)
  | Some _ =>
    if negb (nd_graph producer =? nd_graph consumer) then mret (-1, edge)
    else
    ok ← is_valid_graph (nd_graph producer);
    s ← get;
    if negb ok then mret (-1, edge)
    else if negb (gIsGraphMaster s) then mret (-1, edge)
    else if bad_name_len name PGM_EDGE_NAME_LEN then mret (-1, edge)
    else if attr_rejected attr then mret (-1, edge)
    else
      let g := nd_graph producer in
      mutex_lock g ;;
      gr ← rd_graph g;
      if nr_edges gr + 1 =? PGM_MAX_EDGES then mutex_unlock g ;; mret (-1, edge)
      else if (nr_nodes gr <=? nd_node producer) || (nr_nodes gr <=? nd_node consumer)
      then mutex_unlock g ;; mret (-1, edge)
      else
        let id := nr_edges gr in
        upd_graph g (fun gr => gr <| nr_edges ::= fun k => k + 1 |>) ;;
        let edge := Some (Edge_t g id) in
        np ← rd_node g (nd_node producer);
        if nr_out np + 1 =? PGM_MAX_OUT_DEGREE then mutex_unlock g ;; mret (-1, edge)
        else
        nc ← rd_node g (nd_node consumer);
        if nr_in nc + 1 =? PGM_MAX_IN_DEGREE then mutex_unlock g ;; mret (-1, edge)
        else
          upd_node g (nd_node consumer) (count_in_edge attr backedge) ;;
          push_out g (nd_node producer) id ;;
          push_in g (nd_node consumer) id ;;
          upd_edge g id (fun _ => fresh_edge producer consumer name attr backedge skips) ;;
          match select_ops (type attr) with
          | None => mutex_unlock g ;; mret (-1, edge)
          | Some o =>
              upd_edge g id (fun e => e <| e_ops := Some o |>) ;;
              ret ← ops_init o g (nd_node producer) (nd_node consumer) id;
              mutex_unlock g ;; mret (ret, edge)
          end
  end.

Definition pgm_init_edge (edge : option edge_t) (producer consumer : node_t)
    (name : list ascii) (attr : edge_attr_t) : ST (pgm_state W) (Z * option edge_t) :=
  init_edge edge producer consumer name attr false 0.

Definition pgm_init_edge_num (edge : option edge_t) (producer consumer : node_t)
    (n : Z) (attr : edge_attr_t) : ST (pgm_state W) (Z * option edge_t) :=
  pgm_init_edge edge producer consumer (hex_name n) attr.

Definition pgm_init_backedge (edge : option edge_t) (skips : Z) (producer consumer : node_t)
    (name : list ascii) (attr : edge_attr_t) : ST (pgm_state W) (Z * option edge_t) :=
  init_edge edge producer consumer name attr true skips.

Definition pgm_init_backedge_num (edge : option edge_t) (skips : Z) (producer consumer : node_t)
    (n : Z) (attr : edge_attr_t) : ST (pgm_state W) (Z * option edge_t) :=
  pgm_init_backedge edge skips producer consumer (hex_name n) attr.

End GraphInit.

End GraphInit.
