(* ===== verification/GraphWf.v ===== *)
(** * Building a graph keeps it well formed

    What [pgm_init_node] and [__pgm_init_edge] do to a graph, as functions on
    the graph alone, and that these functions preserve [graph_wf]. *)

From S2P Require Import Prelude Ring Types Sys Structure Memory Ipc GraphInit.
From Stdlib Require Import Ascii.

Module GraphWf.
Import Types Sys Structure Memory Ipc GraphInit.
#[local] Open Scope Z_scope.

(** A graph without nodes. *)
Lemma empty_graph_wf gr : nr_nodes gr = 0 -> nr_edges gr = 0 -> graph_wf gr.
Proof.
  intros En Ee. constructor; rewrite ?En, ?Ee; try (unfold PGM_MAX_NODES, PGM_MAX_EDGES; lia);
    intros; lia.
Qed.

(** ** Adding a node *)

Definition fresh_node (name : list ascii) : pgm_node :=
  zeroed <| owner := UNCLAIMED_NODE |>
         <| n_name ::= fun old => strncpy old name (strnlen name PGM_NODE_NAME_LEN) |>.

Definition add_node (name : list ascii) (gr : pgm_graph) : pgm_graph :=
  gr <| nr_nodes ::= fun k => k + 1 |> <| nodes ::= <[nr_nodes gr := fresh_node name]> |>.

(** Nodes below the new one are untouched. *)
Lemma gnode_add_node name gr i :
  i <> nr_nodes gr -> gnode (add_node name gr) i = gnode gr i.
Proof. intros. unfold gnode. simpl. by rewrite cell_insert_ne. Qed.

Lemma gnode_add_node_new name gr : gnode (add_node name gr) (nr_nodes gr) = fresh_node name.
Proof. apply cell_insert_eq. Qed.

(** A node without edges is well formed. *)
Lemma node_wf_empty gr i :
  nr_in (gnode gr i) = 0 -> nr_out (gnode gr i) = 0 ->
  nr_in_signaled (gnode gr i) = 0 -> nr_in_data (gnode gr i) = 0 ->
  nr_in_signaled_backedges (gnode gr i) = 0 -> nr_in_data_backedges (gnode gr i) = 0 ->
  signal_edge_mask (gnode gr i) = 0 -> node_wf gr i.
Proof.
  intros Hi Ho Hs Hd Hsb Hdb Hm.
  assert (Ei : in_list (gnode gr i) = []) by (unfold in_list; by rewrite Hi).
  assert (Eo : out_list (gnode gr i) = []) by (unfold out_list; by rewrite Ho).
  constructor; rewrite ?Hi, ?Ho, ?Hs, ?Hd, ?Hsb, ?Hdb, ?Hm, ?Ei, ?Eo;
    try done; try (apply NoDup_nil_2); try (intros e He; by apply elem_of_nil in He).
  intros j Hj. rewrite Z.testbit_0_l. symmetry. apply andb_false_iff. left. apply Z.ltb_ge. lia.
Qed.

(** The conditions on an old node only mention old nodes and edges. *)
Lemma node_wf_grow gr gr' i :
  graph_wf gr -> 0 <= i < nr_nodes gr -> nr_nodes gr <= nr_nodes gr' ->
  nr_edges gr <= nr_edges gr' -> (forall j, 0 <= j < nr_nodes gr -> gnode gr' j = gnode gr j) ->
  (forall e, 0 <= e < nr_edges gr -> gedge gr' e = gedge gr e) -> node_wf gr' i.
Proof.
  intros Hwf Hi Hn He En Ee. destruct (gw_node gr Hwf i Hi).
  assert (Hold : forall P e, e ∈ in_list (gnode gr i) -> P (gedge gr e) = P (gedge gr' e) :> bool).
  { intros P e Hin. destruct (nw_in_edges0 e Hin) as (? & _). by rewrite Ee. }
  constructor; rewrite ?(En i Hi); try done.
  - intros e Hin. destruct (nw_in_edges0 e Hin) as (? & ? & ? & ?). rewrite Ee by done.
    rewrite En by done. split_and!; try done; lia.
  - intros e Hin. destruct (nw_out_edges0 e Hin) as (? & ? & ? & ?). rewrite Ee by done.
    rewrite En by done. split_and!; try done; lia.
  - rewrite nw_signaled0. apply count_edges_ext. auto.
  - rewrite nw_data0. apply count_edges_ext. auto.
  - rewrite nw_signaled_back0. apply count_edges_ext.
    intros; apply (Hold (fun e => is_signal_driven e && is_backedge e)); auto.
  - rewrite nw_data_back0. apply count_edges_ext.
    intros; apply (Hold (fun e => is_data_passing e && is_backedge e)); auto.
  - intros j Hj. rewrite nw_mask0 by done. destruct (j <? nr_in (gnode gr i)) eqn:Ej; [|done].
    simpl. apply Hold. unfold in_list. apply list_elem_of_fmap. exists j. split; [done|].
    apply elem_of_upto. bool_to_prop. lia.
Qed.

Lemma add_node_wf name gr :
  graph_wf gr -> nr_nodes gr + 1 <> PGM_MAX_NODES -> graph_wf (add_node name gr).
Proof.
  intros Hwf Hfull. pose proof Hwf as [Hn He _ Ha].
  assert (Hnode : forall i, 0 <= i < nr_nodes gr + 1 -> node_wf (add_node name gr) i).
  { intros i Hi. destruct (decide (i = nr_nodes gr)) as [->|].
    - by apply node_wf_empty; rewrite gnode_add_node_new.
    - apply (node_wf_grow gr); simpl; try lia; try done.
      intros j Hj. apply gnode_add_node. lia. }
  constructor; simpl; [lia | done | done |].
  intros i e Hi Hin. destruct (decide (i = nr_nodes gr)) as [->|].
  - rewrite gnode_add_node_new in Hin. by apply elem_of_nil in Hin.
  - rewrite gnode_add_node in Hin by done. apply (Ha i e); [lia | done].
Qed.

(** ** Adding an edge *)

Definition add_out (e : Z) (n : pgm_node) : pgm_node :=
  n <| n_out ::= <[nr_out n := e]> |> <| nr_out ::= fun k => k + 1 |>.
Definition add_in (e : Z) (n : pgm_node) : pgm_node :=
  n <| n_in ::= <[nr_in n := e]> |> <| nr_in ::= fun k => k + 1 |>.

(** Index [i] changed by [f] if it is [k]. *)
Definition at_node (k : Z) (f : pgm_node -> pgm_node) (m : gmap Z pgm_node) : gmap Z pgm_node :=
  <[k := f (cell m k)]> m.

Definition count_edge_slot (gr : pgm_graph) : pgm_graph :=
  gr <| nr_edges ::= fun k => k + 1 |>.

Definition link_edge (p c : Z) (e : pgm_edge) (gr : pgm_graph) : pgm_graph :=
  let id := nr_edges gr in
  (count_edge_slot gr)
    <| nodes ::= fun m => at_node c (add_in id) (at_node p (add_out id)
                  (at_node c (count_in_edge (e_attr e) (is_backedge e)) m)) |>
    <| edges ::= <[id := e]> |>.

Section Link.
Context (p c : Z) (ed : pgm_edge) (gr : pgm_graph).
#[local] Abbreviation id := (nr_edges gr).
#[local] Abbreviation gr' := (link_edge p c ed gr).

#[local] Ltac link_cases i :=
  let E := fresh "E" in let F := fresh "F" in
  destruct (decide (c = i)) as [E|E]; destruct (decide (p = i)) as [F|F];
  rewrite ?(bool_decide_eq_true_2 _ E), ?(bool_decide_eq_false_2 _ E),
    ?(bool_decide_eq_true_2 _ F), ?(bool_decide_eq_false_2 _ F).

Lemma gedge_link_new : gedge gr' id = ed.
Proof. apply cell_insert_eq. Qed.

Lemma gedge_link_old e : e <> id -> gedge gr' e = gedge gr e.
Proof. intros. unfold gedge. simpl. by rewrite cell_insert_ne. Qed.

Lemma gnode_link i :
  gnode gr' i =
  (if decide (c = i) then add_in id else fun n => n)
    ((if decide (p = i) then add_out id else fun n => n)
       ((if decide (c = i) then count_in_edge (e_attr ed) (is_backedge ed) else fun n => n)
          (gnode gr i))).
Proof.
  unfold gnode. simpl. unfold at_node. rewrite !cell_insert.
  repeat case_decide; by subst.
Qed.

(** [count_in_edge] leaves the lists alone. *)
Lemma count_in_edge_lists a b n :
  n_in (count_in_edge a b n) = n_in n /\ nr_in (count_in_edge a b n) = nr_in n /\
  n_out (count_in_edge a b n) = n_out n /\ nr_out (count_in_edge a b n) = nr_out n.
Proof. unfold count_in_edge. by destruct (is_signal_driven_attr a), (is_data_passing_attr a), b. Qed.

(** Pushing on an array of indices and reading it back. *)
Lemma push_list (m : gmap Z Z) (k e : Z) :
  0 <= k -> cell (<[k := e]> m) <$> upto (k + 1) = (cell m <$> upto k) ++ [e].
Proof.
  intros Hk. rewrite upto_snoc, fmap_app by done. simpl. rewrite cell_insert_eq. f_equal.
  apply list_fmap_ext. intros j x Hx. apply list_elem_of_lookup_2, elem_of_upto in Hx.
  apply cell_insert_ne. lia.
Qed.

Lemma in_list_link i :
  0 <= nr_in (gnode gr i) ->
  in_list (gnode gr' i) = in_list (gnode gr i) ++ (if bool_decide (c = i) then [id] else []).
Proof.
  intros Hi. rewrite gnode_link. unfold in_list.
  destruct (count_in_edge_lists (e_attr ed) (is_backedge ed) (gnode gr i)) as (Ei & En & _).
  link_cases i; simpl; rewrite ?Ei, ?En; try (by apply push_list); by rewrite app_nil_r.
Qed.

Lemma out_list_link i :
  0 <= nr_out (gnode gr i) ->
  out_list (gnode gr' i) = out_list (gnode gr i) ++ (if bool_decide (p = i) then [id] else []).
Proof.
  intros Hi. rewrite gnode_link. unfold out_list.
  destruct (count_in_edge_lists (e_attr ed) (is_backedge ed) (gnode gr i)) as (_ & _ & Ei & En).
  link_cases i; simpl; rewrite ?Ei, ?En; try (by apply push_list); by rewrite app_nil_r.
Qed.

Lemma sizes_link i :
  nr_in (gnode gr' i) = nr_in (gnode gr i) + (if decide (c = i) then 1 else 0) /\
  nr_out (gnode gr' i) = nr_out (gnode gr i) + (if decide (p = i) then 1 else 0).
Proof.
  rewrite gnode_link.
  destruct (count_in_edge_lists (e_attr ed) (is_backedge ed) (gnode gr i)) as (_ & En & _ & Eo).
  repeat case_decide; simpl; rewrite ?En, ?Eo; lia.
Qed.

(** The counters of node [i] grow by the new edge if it is the consumer. *)
Definition one_if (b : bool) : Z := if b then 1 else 0.

Lemma counters_link i :
  let hit := bool_decide (c = i) in
  nr_in_signaled (gnode gr' i) =
    nr_in_signaled (gnode gr i) + one_if (hit && is_signal_driven ed) /\
  nr_in_data (gnode gr' i) = nr_in_data (gnode gr i) + one_if (hit && is_data_passing ed) /\
  nr_in_signaled_backedges (gnode gr' i) = nr_in_signaled_backedges (gnode gr i) +
    one_if (hit && (is_signal_driven ed && is_backedge ed)) /\
  nr_in_data_backedges (gnode gr' i) = nr_in_data_backedges (gnode gr i) +
    one_if (hit && (is_data_passing ed && is_backedge ed)).
Proof.
  intros hit. subst hit. rewrite gnode_link.
  unfold count_in_edge, is_signal_driven, is_data_passing.
  destruct (is_signal_driven_attr _), (is_data_passing_attr _), (is_backedge ed);
    link_cases i; simpl; lia.
Qed.

(** Counting over a list of old edges followed by the new one. *)
Lemma count_link P l (b : bool) :
  (forall e, e ∈ l -> e <> id) ->
  count_edges gr' P (l ++ (if b then [id] else [])) =
  count_edges gr P l + one_if (b && P ed).
Proof.
  intros Hl. transitivity (count_edges gr' P l + one_if (b && P ed)).
  - unfold count_edges. rewrite filter_app, length_app, Nat2Z.inj_add. f_equal.
    destruct b; [|done]. rewrite filter_cons, gedge_link_new. by destruct (P ed).
  - f_equal. apply count_edges_ext. intros e He. by rewrite gedge_link_old by auto.
Qed.

(** Setting bit [k] of a 32-bit mask. *)
Lemma testbit_set_bit m k j :
  0 <= j -> 0 <= k < 32 ->
  Z.testbit (wrap32 (Z.lor m (Z.shiftl 1 k))) j = (j <? 32) && (Z.testbit m j || (j =? k)).
Proof.
  intros Hj Hk. unfold wrap32. destruct (Z.ltb_spec j 32).
  - rewrite Z.mod_pow2_bits_low, Z.lor_spec by lia. simpl. f_equal.
    rewrite Z.shiftl_1_l, Z.pow2_bits_eqb by lia. apply Z.eqb_sym.
  - by rewrite Z.mod_pow2_bits_high by lia.
Qed.

Lemma mask_link i j :
  0 <= j -> 0 <= nr_in (gnode gr i) < 32 ->
  Z.testbit (signal_edge_mask (gnode gr' i)) j =
  if bool_decide (c = i) && is_signal_driven ed
  then (j <? 32) && (Z.testbit (signal_edge_mask (gnode gr i)) j || (j =? nr_in (gnode gr i)))
  else Z.testbit (signal_edge_mask (gnode gr i)) j.
Proof.
  intros Hj Hi. rewrite gnode_link. unfold count_in_edge, is_signal_driven.
  rewrite <- testbit_set_bit by done.
  destruct (is_signal_driven_attr _), (is_data_passing_attr _), (is_backedge ed);
    link_cases i; done.
Qed.

Context (Hwf : graph_wf gr).

Lemma in_list_old i e : 0 <= i < nr_nodes gr -> e ∈ in_list (gnode gr i) -> 0 <= e < id.
Proof. intros Hi He. by apply (nw_in_edges gr i (gw_node gr Hwf i Hi)). Qed.

Lemma out_list_old i e : 0 <= i < nr_nodes gr -> e ∈ out_list (gnode gr i) -> 0 <= e < id.
Proof. intros Hi He. by apply (nw_out_edges gr i (gw_node gr Hwf i Hi)). Qed.

Lemma elem_of_in_link i e :
  0 <= i < nr_nodes gr ->
  e ∈ in_list (gnode gr' i) <-> e ∈ in_list (gnode gr i) \/ (c = i /\ e = id).
Proof.
  intros Hi. rewrite in_list_link by apply (nw_in gr i (gw_node gr Hwf i Hi)).
  rewrite elem_of_app. case_bool_decide; rewrite ?list_elem_of_singleton, ?elem_of_nil; tauto.
Qed.

Lemma elem_of_out_link i e :
  0 <= i < nr_nodes gr ->
  e ∈ out_list (gnode gr' i) <-> e ∈ out_list (gnode gr i) \/ (p = i /\ e = id).
Proof.
  intros Hi. rewrite out_list_link by apply (nw_out gr i (gw_node gr Hwf i Hi)).
  rewrite elem_of_app. case_bool_decide; rewrite ?list_elem_of_singleton, ?elem_of_nil; tauto.
Qed.

Lemma NoDup_link l (b : bool) :
  NoDup l -> (forall e, e ∈ l -> 0 <= e < id) -> NoDup (l ++ if b then [id] else []).
Proof.
  intros Hn Hl. apply NoDup_app. split_and!; [done| |destruct b; [apply NoDup_singleton|by apply NoDup_nil_2]].
  intros e He Hin. apply Hl in He. destruct b; [|by apply elem_of_nil in Hin].
  apply list_elem_of_singleton in Hin. lia.
Qed.

Context (Hp : 0 <= p < nr_nodes gr) (Hc : 0 <= c < nr_nodes gr).
Context (Hep : e_producer ed = p) (Hec : e_consumer ed = c).

(** The edges listed by a node of the new graph. *)
Lemma in_edges_link i e :
  0 <= i < nr_nodes gr -> e ∈ in_list (gnode gr' i) ->
  0 <= e < id + 1 /\ e_consumer (gedge gr' e) = i /\
  0 <= e_producer (gedge gr' e) < nr_nodes gr /\
  e ∈ out_list (gnode gr' (e_producer (gedge gr' e))).
Proof.
  intros Hi He. pose proof (gw_edges gr Hwf).
  apply elem_of_in_link in He as [He|[<- ->]]; [| |done].
  - destruct (nw_in_edges gr i (gw_node gr Hwf i Hi) e He) as (He0 & ? & ? & ?).
    rewrite gedge_link_old by lia. split_and!; try done; try lia.
    apply elem_of_out_link; auto.
  - rewrite gedge_link_new, Hep. split_and!; try done; try lia.
    apply elem_of_out_link; auto.
Qed.

Lemma out_edges_link i e :
  0 <= i < nr_nodes gr -> e ∈ out_list (gnode gr' i) ->
  0 <= e < id + 1 /\ e_producer (gedge gr' e) = i /\
  0 <= e_consumer (gedge gr' e) < nr_nodes gr /\
  e ∈ in_list (gnode gr' (e_consumer (gedge gr' e))).
Proof.
  intros Hi He. pose proof (gw_edges gr Hwf).
  apply elem_of_out_link in He as [He|[<- ->]]; [| |done].
  - destruct (nw_out_edges gr i (gw_node gr Hwf i Hi) e He) as (He0 & ? & ? & ?).
    rewrite gedge_link_old by lia. split_and!; try done; try lia.
    apply elem_of_in_link; auto.
  - rewrite gedge_link_new, Hec. split_and!; try done; try lia.
    apply elem_of_in_link; auto.
Qed.

Context (Hout : nr_out (gnode gr p) + 1 <> PGM_MAX_OUT_DEGREE).
Context (Hin : nr_in (gnode gr c) + 1 <> PGM_MAX_IN_DEGREE).

Lemma n_in_link i j :
  j <> nr_in (gnode gr i) -> cell (n_in (gnode gr' i)) j = cell (n_in (gnode gr i)) j.
Proof.
  intros Hj. rewrite gnode_link.
  destruct (count_in_edge_lists (e_attr ed) (is_backedge ed) (gnode gr i)) as (Ei & En & _).
  repeat case_decide; simpl; rewrite ?Ei, ?En; try done; by rewrite cell_insert_ne.
Qed.

Lemma n_in_link_new : cell (n_in (gnode gr' c)) (nr_in (gnode gr c)) = id.
Proof.
  rewrite gnode_link. destruct (decide (c = c)); [|done].
  destruct (count_in_edge_lists (e_attr ed) (is_backedge ed) (gnode gr c)) as (_ & En & _).
  case_decide; simpl; rewrite ?En; apply cell_insert_eq.
Qed.

Lemma mask_wf_link i j :
  0 <= i < nr_nodes gr -> 0 <= j ->
  Z.testbit (signal_edge_mask (gnode gr' i)) j =
  (j <? nr_in (gnode gr' i)) && is_signal_driven (gedge gr' (cell (n_in (gnode gr' i)) j)).
Proof.
  intros Hi Hj. pose proof (gw_node gr Hwf i Hi) as Hnode. pose proof (nw_in _ _ Hnode) as Hni.
  rewrite mask_link by (unfold PGM_MAX_IN_DEGREE in *; lia).
  rewrite (nw_mask _ _ Hnode j Hj). destruct (sizes_link i) as [-> _].
  destruct (Z.lt_trichotomy j (nr_in (gnode gr i))) as [Hlt|[->|Hgt]].
  - assert (He : cell (n_in (gnode gr i)) j ∈ in_list (gnode gr i)).
    { apply list_elem_of_fmap. exists j. split; [done|]. apply elem_of_upto. lia. }
    rewrite n_in_link by lia. apply in_list_old in He; [|done]. rewrite gedge_link_old by lia.
    replace (j <? 32) with true by (unfold PGM_MAX_IN_DEGREE in *; lia).
    replace (j =? _) with false by lia. rewrite orb_false_r.
    replace (j <? nr_in (gnode gr i)) with true by lia.
    replace (j <? _) with true by (case_decide; lia). by destruct (_ && _).
  - rewrite Z.ltb_irrefl, Z.eqb_refl.
    replace (nr_in (gnode gr i) <? 32) with true by (unfold PGM_MAX_IN_DEGREE in *; lia).
    destruct (decide (c = i)) as [E|E];
      rewrite ?(bool_decide_eq_true_2 _ E), ?(bool_decide_eq_false_2 _ E); simpl.
    + rewrite <- E, n_in_link_new, gedge_link_new. replace (_ <? _) with true by lia.
      by destruct (is_signal_driven ed).
    + by replace (_ <? _) with false by lia.
  - replace (j <? nr_in (gnode gr i)) with false by lia. replace (j =? _) with false by lia.
    replace (j <? _ + _) with false by (case_decide; lia). rewrite orb_false_r, andb_false_r.
    by destruct (_ && _).
Qed.

Lemma node_wf_link i : 0 <= i < nr_nodes gr -> node_wf gr' i.
Proof.
  intros Hi. pose proof (gw_node gr Hwf i Hi) as Hnode. pose proof (nw_in _ _ Hnode).
  pose proof (nw_out _ _ Hnode). destruct (sizes_link i) as [Esi Eso].
  destruct (counters_link i) as (Ecs & Ecd & Ecsb & Ecdb).
  assert (Hfresh : forall e, e ∈ in_list (gnode gr i) -> e <> id).
  { intros e He. pose proof (in_list_old i e Hi He). lia. }
  assert (Hcount : forall P, count_edges gr' P (in_list (gnode gr' i)) =
    count_edges gr P (in_list (gnode gr i)) + one_if (bool_decide (c = i) && P ed)).
  { intros P. by rewrite in_list_link, <- count_link by (done || lia). }
  constructor; rewrite ?Hcount.
  - rewrite Esi. destruct (decide (c = i)) as [E|E]; [rewrite <- E in *|]; lia.
  - rewrite Eso. destruct (decide (p = i)) as [E|E]; [rewrite <- E in *|]; lia.
  - rewrite in_list_link by lia. apply NoDup_link; [apply Hnode|]. eauto using in_list_old.
  - rewrite out_list_link by lia. apply NoDup_link; [apply Hnode|]. eauto using out_list_old.
  - intros e He. by apply in_edges_link.
  - intros e He. by apply out_edges_link.
  - by rewrite Ecs, (nw_signaled _ _ Hnode).
  - by rewrite Ecd, (nw_data _ _ Hnode).
  - by rewrite Ecsb, (nw_signaled_back _ _ Hnode).
  - by rewrite Ecdb, (nw_data_back _ _ Hnode).
  - intros j Hj. by apply mask_wf_link.
Qed.

Lemma link_edge_wf :
  id + 1 <> PGM_MAX_EDGES -> attr_wf (e_attr ed) -> graph_wf gr'.
Proof.
  intros Hfull Ha. pose proof (gw_edges gr Hwf). constructor; simpl.
  - apply (gw_nodes gr Hwf).
  - lia.
  - apply node_wf_link.
  - intros i e Hi He. apply elem_of_in_link in He as [He|[_ ->]]; [| |done].
    + pose proof (in_list_old i e Hi He). rewrite gedge_link_old by lia. by apply (gw_attr gr Hwf i).
    + by rewrite gedge_link_new.
Qed.

End Link.

(** Taking an edge slot without linking it, as the two failing branches do that
    find a full list after [nr_edges] was incremented. *)
Lemma count_edge_slot_wf gr :
  graph_wf gr -> nr_edges gr + 1 <> PGM_MAX_EDGES -> graph_wf (count_edge_slot gr).
Proof.
  intros Hwf Hfull. pose proof Hwf as [Hn He _ Ha]. constructor; simpl; [done | lia | | done].
  intros i Hi. by apply (node_wf_grow gr); simpl; try lia.
Qed.

(** ** What the calls do *)

Section Calls.
Context {W : Type} `{Syscalls W}.
Implicit Types (s : pgm_state W) (gr : pgm_graph).

(** Graph [g] is in use, nobody holds its lock, and the process may change it. *)
Record usable s (g : Z) gr : Prop := {
  us_graph : has_graph s g gr;
  us_in_use : in_use gr = true;
  us_unlocked : g_lock gr = false;
  us_master : gIsGraphMaster s = true
}.

(** Writing back the graph that is there changes nothing. *)
Lemma put_graph_id s g gr : has_graph s g gr -> in_use gr = true -> put_graph g gr s = s.
Proof.
  intros (_ & m & Hm & Hc) Hu. destruct s as [gs ? ? ? ? ? ?]. simpl in Hm. subst gs.
  unfold put_graph, set_field. simpl. do 2 f_equal. apply insert_id.
  unfold cell in Hc. destruct (m !! g); simpl in Hc; [by subst | by subst gr].
Qed.

Lemma relock gr : g_lock gr = false -> (gr <| g_lock := true |>) <| g_lock := false |> = gr.
Proof. destruct gr. simpl. by intros ->. Qed.

(** The new slot and the new edge do not depend on the lock. *)
Lemma unlock_slot gr :
  g_lock gr = false ->
  (count_edge_slot (gr <| g_lock := true |>)) <| g_lock := false |> = count_edge_slot gr.
Proof. destruct gr. simpl. by intros ->. Qed.

Lemma unlock_link p c e gr :
  g_lock gr = false ->
  (link_edge p c e (gr <| g_lock := true |>)) <| g_lock := false |> = link_edge p c e gr.
Proof. destruct gr. simpl. by intros ->. Qed.

(** Locking, looking, and unlocking. *)
Lemma put_unlock s g gr :
  usable s g gr ->
  put_graph g ((gr <| g_lock := true |>) <| g_lock := false |>)
    (put_graph g (gr <| g_lock := true |>) s) = s.
Proof. intros [Hg Hu Hl _]. rewrite put_put, relock by done. by apply put_graph_id. Qed.

Lemma pgm_init_node_runs s g gr h name :
  usable s g gr -> 0 <= nr_nodes gr < PGM_MAX_NODES ->
  pgm_init_node (Some h) g name s =
  Ok (if bad_name_len name PGM_NODE_NAME_LEN || (nr_nodes gr + 1 =? PGM_MAX_NODES)
      then (-1, Some h, s)
      else (0, Some (Node_t g (nr_nodes gr)), put_graph g (add_node name gr) s)).
Proof.
  intros Hs Hn. pose proof Hs as [Hg Hu Hl Hma]. unfold pgm_init_node.
  st_step. rewrite Hu. st_step. rewrite Hma. simpl.
  destruct (bad_name_len name PGM_NODE_NAME_LEN); [done|]. simpl.
  st_step. st_step. simpl. destruct (nr_nodes gr + 1 =? PGM_MAX_NODES).
  - st_step. unfold mret, ST_ret. by rewrite put_unlock.
  - do 3 st_step. unfold mret, ST_ret. rewrite !put_put. do 3 f_equal.
    unfold add_node, set_field. destruct gr. simpl in *. by subst.
Qed.

Lemma push_out_at s g gr n e :
  has_graph s g gr -> 0 <= n < PGM_MAX_NODES ->
  0 <= nr_out (gnode gr n) < PGM_MAX_OUT_DEGREE ->
  push_out g n e s = Ok (tt, put_graph g (gr <| nodes ::= at_node n (add_out e) |>) s).
Proof.
  intros Hg Hn Ho. unfold push_out. st_step.
  erewrite bind_step; [|unfold lift; by rewrite aset_ok].
  by erewrite upd_node_at by done.
Qed.

Lemma push_in_at s g gr n e :
  has_graph s g gr -> 0 <= n < PGM_MAX_NODES ->
  0 <= nr_in (gnode gr n) < PGM_MAX_IN_DEGREE ->
  push_in g n e s = Ok (tt, put_graph g (gr <| nodes ::= at_node n (add_in e) |>) s).
Proof.
  intros Hg Hn Ho. unfold push_in. st_step.
  erewrite bind_step; [|unfold lift; by rewrite aset_ok].
  by erewrite upd_node_at by done.
Qed.

Section InitEdge.
Context (s : pgm_state W) (g : Z) (gr : pgm_graph).
Context (Hs : usable s g gr) (Hwf : graph_wf gr).
Context (h : edge_t) (p c : Z) (name : list ascii) (attr : edge_attr_t).
Context (backedge : bool) (skips : Z).
#[local] Abbreviation id := (nr_edges gr).
#[local] Abbreviation np := (Node_t g p).
#[local] Abbreviation nc := (Node_t g c).
#[local] Abbreviation fresh := (fresh_edge np nc name attr backedge skips).

(** The rest of [__pgm_init_edge] once the edge is linked: the back end's
    [init], and the lock released. *)
Definition finish_edge (o : edge_ops) : ST (pgm_state W) (Z * option edge_t) :=
  ret ← ops_init o g p c id;
  mutex_unlock g ;; mret (ret, Some (Edge_t g id)).

(** The outcome of [__pgm_init_edge] on every branch. *)
Definition init_edge_result : outcome (Z * option edge_t * pgm_state W) :=
  if bad_name_len name PGM_EDGE_NAME_LEN || attr_rejected attr ||
     ((id + 1 =? PGM_MAX_EDGES) || ((nr_nodes gr <=? p) || (nr_nodes gr <=? c)))
  then Ok (-1, Some h, s)
  else if (nr_out (gnode gr p) + 1 =? PGM_MAX_OUT_DEGREE) ||
          (nr_in (gnode gr c) + 1 =? PGM_MAX_IN_DEGREE)
  then Ok (-1, Some (Edge_t g id), put_graph g (count_edge_slot gr) s)
  else match select_ops (type attr) with
       | None => Ok (-1, Some (Edge_t g id), put_graph g (link_edge p c fresh gr) s)
       | Some o =>
           finish_edge o (put_graph g
             ((link_edge p c (fresh <| e_ops := Some o |>) gr) <| g_lock := true |>) s)
       end.

Lemma fresh_edge_links :
  e_producer fresh = p /\ e_consumer fresh = c /\ e_attr fresh = attr /\
  is_backedge fresh = backedge.
Proof. unfold fresh_edge. by destruct backedge. Qed.

Lemma counted_lists (m : gmap Z pgm_node) i :
  nr_in (cell (at_node c (count_in_edge attr backedge) m) i) = nr_in (cell m i) /\
  nr_out (cell (at_node c (count_in_edge attr backedge) m) i) = nr_out (cell m i).
Proof.
  unfold at_node. rewrite cell_insert. case_decide; [subst i|done].
  by destruct (count_in_edge_lists attr backedge (cell m c)) as (_ & ? & _ & ?).
Qed.

Lemma nr_in_add_out (m : gmap Z pgm_node) e i :
  nr_in (cell (at_node p (add_out e) m) i) = nr_in (cell m i).
Proof. unfold at_node. rewrite cell_insert. case_decide; by subst. Qed.

(** The four statements that link a new edge. *)
Lemma link_steps {A} s1 gl e i (k : ST (pgm_state W) A) :
  i = nr_edges gl -> has_graph s1 g (count_edge_slot gl) -> e_attr e = attr -> is_backedge e = backedge ->
  0 <= p < PGM_MAX_NODES -> 0 <= c < PGM_MAX_NODES -> 0 <= nr_edges gl < PGM_MAX_EDGES ->
  0 <= nr_out (gnode gl p) < PGM_MAX_OUT_DEGREE -> 0 <= nr_in (gnode gl c) < PGM_MAX_IN_DEGREE ->
  (upd_node g c (count_in_edge attr backedge) ;;
   push_out g p i ;; push_in g c i ;; upd_edge g i (fun _ => e) ;; k) s1 = k (put_graph g (link_edge p c e gl) s1).
Proof.
  intros -> Hg Ea Eb Hp Hc He Ho Hi.
  destruct (counted_lists (nodes gl) p) as [_ Eop].
  destruct (counted_lists (nodes gl) c) as [Eic _].
  erewrite bind_step; [|by eapply upd_node_at].
  cbv beta. erewrite bind_step; [|eapply push_out_at; [eauto with pgm_st | done |]].
  2: { change (0 <= nr_out (cell (at_node c (count_in_edge attr backedge) (nodes gl)) p)
                 < PGM_MAX_OUT_DEGREE). by rewrite Eop. }
  cbv beta. erewrite bind_step; [|eapply push_in_at; [eauto with pgm_st | done |]].
  2: { change (0 <= nr_in (cell (at_node p (add_out (nr_edges gl))
                 (at_node c (count_in_edge attr backedge) (nodes gl))) c) < PGM_MAX_IN_DEGREE).
       by rewrite nr_in_add_out, Eic. }
  cbv beta. st_step. rewrite !put_put. subst. done.
Qed.

Lemma init_edge_runs :
  0 <= p -> 0 <= c ->
  init_edge (Some h) np nc name attr backedge skips s = init_edge_result.
Proof.
  intros Hp Hc. pose proof Hs as [Hg Hu Hl Hma]. pose proof Hwf as [Hn He Hnode _].
  unfold init_edge, init_edge_result. simpl. rewrite Z.eqb_refl. simpl.
  st_step. rewrite Hu. st_step. rewrite Hma. simpl.
  destruct (bad_name_len name PGM_EDGE_NAME_LEN); [done|]. simpl.
  destruct (attr_rejected attr); [done|]. simpl.
  st_step. st_step. simpl.
  destruct (id + 1 =? PGM_MAX_EDGES) eqn:Hfull; simpl.
  { st_step. unfold mret, ST_ret. by rewrite put_unlock. }
  destruct ((nr_nodes gr <=? p) || (nr_nodes gr <=? c)) eqn:Hnodes; simpl.
  { st_step. unfold mret, ST_ret. by rewrite put_unlock. }
  bool_to_prop. st_step. st_step. simpl. fold (gnode gr p).
  destruct (nr_out (gnode gr p) + 1 =? PGM_MAX_OUT_DEGREE) eqn:Ho; simpl.
  { st_step. unfold mret, ST_ret. rewrite !put_put. do 3 f_equal. by apply unlock_slot. }
  st_step. simpl. fold (gnode gr c).
  destruct (nr_in (gnode gr c) + 1 =? PGM_MAX_IN_DEGREE) eqn:Hi.
  { st_step. unfold mret, ST_ret. rewrite !put_put. do 3 f_equal. by apply unlock_slot. }
  destruct fresh_edge_links as (_ & _ & Ea & Eb). bool_to_prop.
  rewrite (link_steps _ (gr <| g_lock := true |>) fresh id); try done; try lia;
    try apply Hnode; try (eapply has_graph_put; eauto with pgm_st); try lia.
  destruct (select_ops (type attr)) as [o|]; [|st_step].
  - st_step. rewrite !put_put. simpl. rewrite cell_insert_eq.
    unfold finish_edge. do 2 f_equal. unfold link_edge, set_field. simpl. f_equal.
    by rewrite insert_insert_eq.
  - unfold mret, ST_ret. rewrite !put_put. do 3 f_equal. by apply unlock_link.
Qed.

Lemma attr_accepted : attr_rejected attr = false -> attr_wf attr.
Proof. unfold attr_rejected, attr_wf. intros. bool_to_prop. lia. Qed.

Lemma link_fresh_wf e :
  0 <= p < nr_nodes gr -> 0 <= c < nr_nodes gr -> id + 1 <> PGM_MAX_EDGES ->
  nr_out (gnode gr p) + 1 <> PGM_MAX_OUT_DEGREE -> nr_in (gnode gr c) + 1 <> PGM_MAX_IN_DEGREE ->
  e_producer e = p -> e_consumer e = c -> attr_wf (e_attr e) ->
  graph_wf (link_edge p c e gr).
Proof. intros. by apply link_edge_wf. Qed.

(** The tail of [__pgm_init_edge] releases the lock and keeps the structure. *)
Lemma finish_edge_keeps o gl r s' :
  in_use gl = true -> g_lock gl = false ->
  finish_edge o (put_graph g (gl <| g_lock := true |>) s) = Ok (r, s') ->
  exists gr', usable s' g gr' /\ gr' ≡ gl /\
    (forall k x, k <> g -> has_graph s k x -> has_graph s' k x).
Proof.
  intros Hiu Hlk E. pose proof Hs as [Hg _ _ Hma].
  apply st_bind_ok in E as (ret & s1 & E1 & E2).
  destruct (keeps_ops_init o g p c id _ _ _ _ (has_graph_put _ _ _ _ Hg) E1)
    as ((gr1 & Hg1 & Eq1 & _) & Hoth & Hm).
  erewrite bind_step in E2; [|by eapply mutex_unlock_at]. injection E2 as <- <-.
  exists (gr1 <| g_lock := false |>). pose proof Eq1 as (Efields & En & Ee).
  injection Efields as Eu Enm El Enn Ene. simpl in *.
  split; [split|split].
  - by eapply has_graph_put.
  - simpl. congruence.
  - done.
  - simpl. by rewrite Hm.
  - split; [simpl; congruence|]. split; intros i; simpl; [by rewrite En | by rewrite Ee].
  - intros k x Hk Hx. apply has_graph_put_ne; [done|]. apply Hoth; [done|].
    by apply has_graph_put_ne.
Qed.

(** A condition-variable edge starts with [nr_init] tokens. *)
Lemma finish_cv e :
  finish_edge pgm_cv_edge_ops
    (put_graph g ((link_edge p c e gr) <| g_lock := true |>) s) =
  Ok (0, Some (Edge_t g id),
      put_graph g (link_edge p c (e <| nr_pending := nr_init (e_attr e) |>) gr) s).
Proof.
  pose proof Hs as [Hg Hu Hl _]. pose proof (gw_edges gr Hwf).
  unfold finish_edge, ops_init, cv_create.
  erewrite bind_step; [|by st_step]. cbv beta. st_step. unfold mret, ST_ret. rewrite !put_put.
  do 3 f_equal. unfold link_edge, set_field. simpl. rewrite cell_insert_eq, insert_insert_eq.
  by rewrite Hl.
Qed.

End InitEdge.

(** ** Properties *)

Lemma usable_put s g gr gr' :
  usable s g gr -> in_use gr' = true -> g_lock gr' = false -> usable (put_graph g gr' s) g gr'.
Proof. intros [Hg _ _ Hm] Hu Hl. split; [by eapply has_graph_put | done | done | done]. Qed.

(** [pgm_init_node] on a usable, well-formed graph always returns, with the
    lock released and the graph well formed: either it appends a fresh,
    unclaimed, unconnected node and returns its handle, or the name is unusable
    or the node array full and nothing changed. *)
Theorem pgm_init_node_adds s g gr h name :
  usable s g gr -> graph_wf gr ->
  exists ret hd s' gr',
    pgm_init_node (Some h) g name s = Ok (ret, hd, s') /\
    usable s' g gr' /\ graph_wf gr' /\
    (if bad_name_len name PGM_NODE_NAME_LEN || (nr_nodes gr + 1 =? PGM_MAX_NODES)
     then ret = -1 /\ hd = Some h /\ s' = s
     else ret = 0 /\ hd = Some (Node_t g (nr_nodes gr)) /\ nr_nodes gr' = nr_nodes gr + 1 /\
          nr_edges gr' = nr_edges gr /\ gnode gr' (nr_nodes gr) = fresh_node name /\
          forall i, i <> nr_nodes gr -> gnode gr' i = gnode gr i).
Proof.
  intros Hs Hwf. rewrite (pgm_init_node_runs s g gr) by (done || apply (gw_nodes gr Hwf)).
  destruct (_ || _) eqn:E.
  - exists (-1), (Some h), s, gr. done.
  - bool_to_prop. do 4 eexists. split; [done|]. split_and!.
    + apply (usable_put s g gr); [done | apply Hs | apply Hs].
    + by apply add_node_wf.
    + done.
    + done.
    + done.
    + done.
    + apply gnode_add_node_new.
    + intros i. apply gnode_add_node.
Qed.

(** Whatever [__pgm_init_edge] returns (for any edge type and whatever the
    back end's [init] does), the graph is well formed afterwards, its lock is
    released, and no other graph changed. *)
Theorem init_edge_preserves_wf s g gr h p c name attr backedge skips r s' :
  usable s g gr -> graph_wf gr -> 0 <= p -> 0 <= c ->
  init_edge (Some h) (Node_t g p) (Node_t g c) name attr backedge skips s = Ok (r, s') ->
  exists gr', usable s' g gr' /\ graph_wf gr' /\
    (forall k x, k <> g -> has_graph s k x -> has_graph s' k x).
Proof.
  intros Hs Hwf Hp Hc. rewrite (init_edge_runs s g gr) by done. unfold init_edge_result.
  destruct (_ || attr_rejected attr || _) eqn:E1; [intros [= <- <-]; eauto|].
  apply orb_false_iff in E1 as [E1 E2]. bool_to_prop.
  destruct (_ || _) eqn:E3.
  { intros [= <- <-]. exists (count_edge_slot gr).
    split; [apply (usable_put s g gr); [done | apply Hs | apply Hs]|].
    split; [by apply count_edge_slot_wf|]. intros. by apply has_graph_put_ne. }
  bool_to_prop.
  destruct (fresh_edge_links g p c name attr backedge skips) as (Ep & Ec & Ea & _).
  assert (Hlink : forall e, e_producer e = p -> e_consumer e = c -> e_attr e = attr ->
    graph_wf (link_edge p c e gr)).
  { intros e Hep Hec Hea. apply link_fresh_wf; try done; try lia. rewrite Hea. by apply attr_accepted. }
  destruct (select_ops (type attr)) as [o|].
  - intros E. eapply finish_edge_keeps in E as (gr' & Hu & Heq & Ho); [|done|apply Hs|apply Hs].
    exists gr'. split; [done|]. split; [|done]. rewrite Heq. by apply Hlink.
  - intros [= <- <-]. eexists. split; [apply (usable_put s g gr); [done | apply Hs | apply Hs]|].
    split; [by apply Hlink|]. intros. by apply has_graph_put_ne.
Qed.

(** C33. [pgm_init_edge] for a condition-variable edge between two nodes of a
    well-formed graph with room left returns 0: the new edge holds [nr_init]
    tokens, it is the last outbound edge of its producer and the last inbound
    edge of its consumer, and no other node's lists change. *)
Theorem pgm_init_edge_links s g gr h p c name attr :
  usable s g gr -> graph_wf gr -> 0 <= p < nr_nodes gr -> 0 <= c < nr_nodes gr ->
  bad_name_len name PGM_EDGE_NAME_LEN = false -> attr_rejected attr = false ->
  nr_edges gr + 1 <> PGM_MAX_EDGES -> nr_out (gnode gr p) + 1 <> PGM_MAX_OUT_DEGREE ->
  nr_in (gnode gr c) + 1 <> PGM_MAX_IN_DEGREE -> has_flag (type attr) PGM_EDGE_CV = true ->
  exists s' gr',
    pgm_init_edge (Some h) (Node_t g p) (Node_t g c) name attr s =
      Ok (0, Some (Edge_t g (nr_edges gr)), s') /\
    usable s' g gr' /\ graph_wf gr' /\
    nr_pending (gedge gr' (nr_edges gr)) = nr_init attr /\
    forall i, 0 <= i < nr_nodes gr ->
      in_list (gnode gr' i) = in_list (gnode gr i) ++
        (if bool_decide (c = i) then [nr_edges gr] else []) /\
      out_list (gnode gr' i) = out_list (gnode gr i) ++
        (if bool_decide (p = i) then [nr_edges gr] else []).
Proof.
  intros Hs Hwf Hp Hc En Er Hfull Ho Hi Hcv. unfold pgm_init_edge.
  rewrite (init_edge_runs s g gr) by (done || lia). unfold init_edge_result.
  rewrite En, Er, !(proj2 (Z.eqb_neq _ _)), !(proj2 (Z.leb_gt _ _)) by (done || lia). simpl.
  unfold select_ops. rewrite Hcv. rewrite (finish_cv s g gr Hs Hwf).
  set (e := set_field nr_pending _ _). destruct (gw_node gr Hwf p Hp), (gw_node gr Hwf c Hc).
  do 2 eexists. split; [done|]. split_and!.
  - apply (usable_put s g gr); [done | apply Hs | apply Hs].
  - apply link_fresh_wf; try done. by apply attr_accepted.
  - by rewrite gedge_link_new.
  - intros i Hn. destruct (gw_node gr Hwf i Hn).
    split; [apply in_list_link | apply out_list_link]; lia.
Qed.

Lemma strncpy_fill (dst src : list ascii) (n : nat) :
  List.length dst = n -> strncpy dst src n = strncpy_bytes src n.
Proof. intros Hn. unfold strncpy. by rewrite drop_ge, app_nil_r by lia. Qed.

(** The slot [prepare_graph] takes. *)
Definition free_slot (m : gmap Z pgm_graph) : option Z :=
  first_some (fun i => if negb (in_use (cell m i)) then Some i else None) (upto PGM_MAX_GRAPHS).

Lemma prepare_graph_runs s m name :
  gGraphs s = Some m -> bad_name_len name PGM_GRAPH_NAME_LEN = false ->
  prepare_graph name s =
  Ok (match free_slot m with
      | None => (-1, -1, s)
      | Some g => (0, g, put_graph g (zeroed <| in_use := true |>
                    <| g_name := strncpy_bytes name PGM_GRAPH_NAME_LEN |>) s)
      end).
Proof.
  intros Hm Hn. unfold prepare_graph. rewrite Hn.
  assert (Hg : forall i, 0 <= i < PGM_MAX_GRAPHS -> has_graph s i (cell m i))
    by (intros i Hi; split; eauto).
  erewrite bind_step; [|eapply for_break_pure].
  2:{ intros x Hx%elem_of_upto. erewrite bind_step by (by apply rd_graph_at, Hg). done. }
  cbv beta. unfold free_slot. destruct (first_some _ _) as [g|] eqn:E; [|done].
  apply first_some_upto in E as (i & Hi & Ei & _).
  destruct (in_use (cell m i)); simpl in Ei; [done|]. injection Ei as <-.
  pose proof (Hg i Hi). st_step. st_step. unfold mret, ST_ret. rewrite put_put. do 3 f_equal.
  unfold zeroed, Zeroed_graph, set_field. cbn [g_name in_use g_lock nr_nodes nr_edges nodes edges].
  f_equal. by apply strncpy_fill, length_replicate.
Qed.

Lemma init_graph_private s m g0 name :
  gGraphs s = Some m -> gIsGraphMaster s = true -> gGraphSharedMem s = false ->
  bad_name_len name PGM_GRAPH_NAME_LEN = false ->
  pgm_init_graph g0 name s = prepare_graph name s.
Proof.
  intros Hm Hma Hsh Hn. unfold pgm_init_graph. rewrite (bind_step _ _ _ s s) by done.
  rewrite Hm, Hn, Hma. erewrite bind_step; [|]. 2:{
    unfold pgm_find_graph. rewrite (bind_step _ _ _ s s) by done. by rewrite Hsh. }
  done.
Qed.

(** [pgm_init_graph] in process-local mode takes the first free slot and
    leaves there an empty, unlocked, well-formed graph under the given name; if
    no slot is free it returns -1 and changes nothing.  Other graphs stay as
    they are. *)
Theorem pgm_init_graph_creates s m g0 name :
  gGraphs s = Some m -> gIsGraphMaster s = true -> gGraphSharedMem s = false ->
  bad_name_len name PGM_GRAPH_NAME_LEN = false ->
  (exists g s' gr,
     pgm_init_graph g0 name s = Ok (0, g, s') /\ 0 <= g < PGM_MAX_GRAPHS /\
     in_use (cell m g) = false /\ (forall j, 0 <= j < g -> in_use (cell m j) = true) /\
     usable s' g gr /\ graph_wf gr /\ nr_nodes gr = 0 /\ nr_edges gr = 0 /\
     g_name gr = strncpy_bytes name PGM_GRAPH_NAME_LEN /\
     (forall k x, k <> g -> has_graph s k x -> has_graph s' k x)) \/
  ((forall j, 0 <= j < PGM_MAX_GRAPHS -> in_use (cell m j) = true) /\
   pgm_init_graph g0 name s = Ok (-1, -1, s)).
Proof.
  intros Hm Hma Hsh Hn. rewrite (init_graph_private s m) by done.
  rewrite (prepare_graph_runs s m) by done. destruct (free_slot m) as [g|] eqn:E.
  - left. apply first_some_upto in E as (i & Hi & Ei & Hj).
    destruct (in_use (cell m i)) eqn:Hu; simpl in Ei; [done|]. injection Ei as <-.
    do 3 eexists. split; [done|]. split_and!; try lia.
    + done.
    + intros j Hji. specialize (Hj j Hji). by destruct (in_use (cell m j)).
    + split; [eapply has_graph_put; split; eauto | done | done | done].
    + by apply empty_graph_wf.
    + done.
    + done.
    + done.
    + intros. by apply has_graph_put_ne.
  - right. split; [|done]. intros j Hj.
    pose proof (proj1 (first_some_None _ _) E j (proj2 (elem_of_upto _ _) Hj)) as Ej.
    simpl in Ej. by destruct (in_use (cell m j)).
Qed.

(** [is_valid_handle] accepts the handle [PGM_MAX_GRAPHS], one past the end
    of [gGraphs]: [pgm_init_node] with it reads outside the array. *)
Theorem handle_past_end_faults s m h name :
  gGraphs s = Some m -> pgm_init_node (Some h) PGM_MAX_GRAPHS name s = Fault OutOfBounds.
Proof.
  intros Hm. unfold pgm_init_node. apply bind_fault. unfold is_valid_graph.
  rewrite (bind_step _ _ _ s s) by done. rewrite Hm. simpl. apply bind_fault. unfold rd_graph.
  rewrite (bind_step _ _ _ s s) by done. rewrite Hm. by rewrite (bind_step _ _ _ m s) by done.
Qed.

End Calls.

(** ** A concrete graph *)

Definition demo_graph : pgm_graph :=
  zeroed <| in_use := true |> <| g_name := strncpy_bytes (lit "g") PGM_GRAPH_NAME_LEN |>.

Definition demo_nodes : pgm_graph := add_node (lit "b") (add_node (lit "a") demo_graph).

Definition demo_state (gr : pgm_graph) : pgm_state Z :=
  demo_start <| gGraphs := Some {[0 := gr]} |> <| gIsGraphMaster := true |>.

Lemma demo_usable gr : in_use gr = true -> g_lock gr = false -> usable (demo_state gr) 0 gr.
Proof.
  intros. split; [|done|done|done]. split; [done|]. eexists. split; [done|].
  unfold cell. by rewrite lookup_singleton_eq.
Qed.

Lemma demo_graph_wf : graph_wf demo_graph.
Proof. by apply empty_graph_wf. Qed.

Lemma demo_nodes_wf : graph_wf demo_nodes.
Proof. by apply add_node_wf; [apply add_node_wf; [apply demo_graph_wf|]|]. Qed.

Lemma pgm_init_node_adds_witness :
  exists ret hd s' gr',
    pgm_init_node (Some (Node_t 0 0)) 0 (lit "a") (demo_state demo_graph) = Ok (ret, hd, s') /\
    usable s' 0 gr' /\ graph_wf gr' /\ hd = Some (Node_t 0 0).
Proof.
  destruct (pgm_init_node_adds (demo_state demo_graph) 0 demo_graph (Node_t 0 0) (lit "a"))
    as (ret & hd & s' & gr' & E & Hu & Hw & Hr); [by apply demo_usable | apply demo_graph_wf |].
  exists ret, hd, s', gr'. split_and!; [done | done | done | apply Hr].
Defined.

Lemma pgm_init_edge_links_witness :
  exists s' gr',
    pgm_init_edge (Some (Edge_t 0 0)) (Node_t 0 0) (Node_t 0 1) (lit "e") default_edge
      (demo_state demo_nodes) = Ok (0, Some (Edge_t 0 0), s') /\ in_list (gnode gr' 1) = [0].
Proof.
  destruct (pgm_init_edge_links (demo_state demo_nodes) 0 demo_nodes (Edge_t 0 0) 0 1 (lit "e")
    default_edge (demo_usable demo_nodes eq_refl eq_refl) demo_nodes_wf ltac:(done) ltac:(done)
    eq_refl eq_refl ltac:(done) ltac:(done) ltac:(done) eq_refl)
    as (s' & gr' & E & _ & _ & _ & Hl).
  exists s', gr'. split; [done|]. by destruct (Hl 1 ltac:(done)).
Defined.

Lemma pgm_init_graph_creates_witness :
  exists g s', pgm_init_graph 0 (lit "g2") (demo_state demo_graph) = Ok (0, g, s') /\ g = 1.
Proof.
  destruct (pgm_init_graph_creates (demo_state demo_graph) {[0 := demo_graph]} 0 (lit "g2")
    eq_refl eq_refl eq_refl eq_refl)
    as [(g & s' & gr & E & Hg & Hfree & Hused & _)|[Hall _]].
  - exists g, s'. split; [done|]. destruct (Z.lt_trichotomy g 1) as [|[|]]; [|done|].
    + by assert (g = 0) as -> by lia.
    + by specialize (Hused 1 ltac:(lia)).
  - by specialize (Hall 1 ltac:(done)).
Defined.

Lemma handle_past_end_faults_witness :
  pgm_init_node (Some (Node_t 0 0)) PGM_MAX_GRAPHS (lit "a") (demo_state demo_graph) =
  Fault OutOfBounds.
Proof. apply (handle_past_end_faults _ {[0 := demo_graph]}). reflexivity. Defined.

End GraphWf.
