(* ===== verification/Startup.v ===== *)
(** * Starting the runtime (src/pgm.cpp, "PGM Framework Init/Destroy Routines")

    [pgm_init] prepares the directory that holds FIFOs, which it wipes, and
    allocates the table of graphs.  Paths and the file system are Boost's: the
    class [Filesystem].  The code uses the overloads that throw [filesystem_error],
    and nothing catches it: such a call ends with the fault [Uncaught].  In the
    default configuration (PGM_SYNC_SCOPE 0) the routines for shared memory only
    report that it is not compiled in. *)

From S2P Require Import Prelude Ring Types Sys Structure Memory Ipc GraphInit.
From Stdlib Require Import Ascii.

Module Startup.
Import Types Sys Structure GraphInit.
#[local] Open Scope Z_scope.

(** ** The code *)

(** Boost.Filesystem: paths, their elements in iteration order, and the calls
    that look at or change the file system; [None] is an exception. *)
Class Filesystem (W : Type) := {
  path_elements : string -> list string;
  path_is_relative : string -> bool;
  fs_current_path : W -> option string;
  fs_present : string -> W -> option bool;
  fs_is_directory : string -> W -> option bool;
  fs_equivalent : string -> string -> W -> option bool;
  fs_is_empty : string -> W -> option bool;
  fs_create_directories : string -> W -> option bool * W;
  fs_remove_all : string -> W -> option Z * W
}.

Section Code.
Context {W : Type} `{Syscalls W} `{Filesystem W}.

(** A call that may throw. *)
Definition throwing {A} (o : option A) : ST (pgm_state W) A :=
  match o with Some a => mret a | None => fail Uncaught end.

Definition looks {A} (f : W -> option A) : ST (pgm_state W) A := s ← get; throwing (f (world s)).
Definition changes {A} (f : W -> option A * W) : ST (pgm_state W) A := o ← sys f; throwing o.

Definition allowed : list string := ["/dev/shm"; "/home"; "/tmp"]%string.

(** The inner loop of [safePath]: does [toCheck] start with [compare]?
    [*toCheck] is read before it is tested against the end, which is undefined
    when the path has no more elements. *)
Fixpoint has_stem (compare toCheck : list string) : outcome bool :=
  match compare, toCheck with
  | [], _ => Ok true
  | _ :: _, [] => Fault OutOfBounds
  | c :: compare, t :: toCheck =>
      if bool_decide (c = t) then has_stem compare toCheck else Ok false
  end.

Definition safePath (dir : string) : ST (pgm_state W) Z :=
  dirAbs ← (if path_is_relative dir
            then current ← looks fs_current_path; mret (path_append current dir)
            else mret dir);
  if bool_decide (path_elements dirAbs = []) || bool_decide (path_elements dirAbs = path_elements "/")
  then mret (-1)
  else
    failures ← for_acc allowed 0 (fun stem failures =>
      ok ← lift (has_stem (path_elements stem) (path_elements dirAbs));
      mret (if ok : bool then failures else failures + 1));
    mret (if Z.of_nat (length allowed) =? failures then -1 else 0).

(** [create_dir:], the test for emptiness, and the [goto] back; [fuel] bounds
    how often it is taken. *)
Fixpoint create_dir (fuel : nat) (graphDir : string) : ST (pgm_state W) Z :=
  match fuel with
  | O => fail OutOfFuel
  | S fuel =>
      made ← changes (fs_create_directories graphDir);
      if negb (made : bool) then mret (-1)
      else
        empty ← looks (fs_is_empty graphDir);
        if negb (empty : bool) then
          n ← changes (fs_remove_all graphDir);
          if n =? 0 then mret (-1) else create_dir fuel graphDir
        else mret 0
  end.

Definition prepare_dir (fuel : nat) (graphDir : string) : ST (pgm_state W) Z :=
  safe ← safePath graphDir;
  if negb (safe =? 0) then mret (-1) else
  there ← looks (fs_present graphDir);
  file ← (if there : bool then dir ← looks (fs_is_directory graphDir); mret (negb dir) else mret false);
  if file : bool then mret (-1) else
  current ← looks fs_current_path;
  same ← looks (fs_equivalent graphDir current);
  if same : bool then mret (-1) else
  there ← looks (fs_present graphDir);
  if negb (there : bool) then create_dir fuel graphDir else
  empty ← looks (fs_is_empty graphDir);
  if negb (empty : bool) then
    n ← changes (fs_remove_all graphDir);
    if n =? 0 then mret (-1) else create_dir fuel graphDir
  else mret 0.

(** Not compiled with shared memory. *)
Definition prepare_graph_shared_mem (graphDir : string) : ST (pgm_state W) Z := mret (-1).
Definition open_graph_shared_mem (graphDir : string) : ST (pgm_state W) Z := mret (-1).

Definition pgm_init (fuel : nat) (dir : string) (create use_shared_mem : bool) : ST (pgm_state W) Z :=
  graphDir ← (if path_is_relative dir
              then current ← looks fs_current_path; mret (path_append current dir)
              else mret dir);
  let finish ret := modify (fun s => s <| gGraphPath := graphDir |>) ;; mret ret in
  if create then
    ret ← prepare_dir fuel graphDir;
    if negb (ret =? 0) then mret ret
    else if use_shared_mem then
      ret ← prepare_graph_shared_mem graphDir;
      if negb (ret =? 0) then mret ret else finish ret
    else
      ret ← prepare_graph_private_mem;
      finish ret
  else if negb use_shared_mem then mret (-1)
  else
    ret ← open_graph_shared_mem graphDir;
    if negb (ret =? 0) then mret ret else finish ret.

End Code.

(** ** What the calls do *)

(** What is at a path. *)
Inductive entry := Absent | File | EmptyDir | FullDir.

#[export] Instance entry_eq_dec : EqDecision entry.
Proof. solve_decision. Defined.

(** The documented effect of the calls on the path they are given, when they do not
    throw: they report what is there; [create_directories] either fails or makes an
    empty directory out of nothing; [remove_all] either removes nothing or
    everything. *)
Class FilesystemLaws (W : Type) `(Filesystem W) := {
  at_path : W -> string -> entry;
  present_law w p b : fs_present p w = Some b ->
    b = negb (match at_path w p with Absent => true | _ => false end);
  directory_law w p b : fs_is_directory p w = Some b ->
    b = match at_path w p with EmptyDir | FullDir => true | _ => false end;
  empty_law w p b : at_path w p = EmptyDir \/ at_path w p = FullDir -> fs_is_empty p w = Some b ->
    b = match at_path w p with EmptyDir => true | _ => false end;
  create_law w p w' : at_path w p = Absent -> fs_create_directories p w = (Some true, w') ->
    at_path w' p = EmptyDir;
  remove_law w p w' n : fs_remove_all p w = (Some n, w') -> n <> 0 -> at_path w' p = Absent
}.
Arguments at_path {W _ _}.

(** A file system in which no call throws. *)
Record no_exceptions (W : Type) `{Filesystem W} : Prop := {
  ne_current (w : W) : fs_current_path w <> None;
  ne_present p (w : W) : fs_present p w <> None;
  ne_directory p (w : W) : fs_is_directory p w <> None;
  ne_equivalent p q (w : W) : fs_equivalent p q w <> None;
  ne_empty p (w : W) : fs_is_empty p w <> None;
  ne_create p (w : W) : (fs_create_directories p w).1 <> None;
  ne_remove p (w : W) : (fs_remove_all p w).1 <> None
}.

Section Laws.
Context {W : Type} `{Syscalls W} {F : Filesystem W} `{L : !FilesystemLaws W F}.
Implicit Types (s : pgm_state W).

(** The first elements of a path. *)
Fixpoint stem_matches (compare path : list string) : bool :=
  match compare, path with
  | [], _ => true
  | c :: compare, t :: path => bool_decide (c = t) && stem_matches compare path
  | _ :: _, [] => false
  end.

Lemma has_stem_starts compare path :
  ~ (path `prefix_of` compare /\ path <> compare) -> has_stem compare path = Ok (stem_matches compare path).
Proof.
  revert path. induction compare as [|c compare IH]; intros [|t path] Hp; simpl; try done.
  - exfalso. apply Hp. split; [apply prefix_nil|done].
  - case_bool_decide as E; [|done]. subst. apply IH. intros [Hpre Hne]. apply Hp.
    split; [by apply prefix_cons|congruence].
Qed.

(** The current directory, if it can be told. *)
Definition cwd s : string := default EmptyString (fs_current_path (world s)).

Definition absolute s (dir : string) : string :=
  if path_is_relative dir then path_append (cwd s) dir else dir.

(** [path] is too short to be told apart from [stem]. *)
Definition inside (path stem : list string) : Prop := path `prefix_of` stem /\ path <> stem.

Definition under_allowed (path : list string) : bool :=
  existsb (fun stem => stem_matches (path_elements stem) path) allowed.

(** What a call leaves: [P] of its result, or an exception of the file system. *)
Definition yields {A} (P : A -> pgm_state W -> Prop) (r : outcome (A * pgm_state W)) : Prop :=
  match r with
  | Ok (a, s') => P a s'
  | Fault f => f = Uncaught /\ ~ no_exceptions W
  end.

Lemma yields_looks {A B} (f : W -> option A) (k : A -> ST (pgm_state W) B) s (P : B -> pgm_state W -> Prop) :
  (f (world s) = None -> ~ no_exceptions W) ->
  (forall a, f (world s) = Some a -> yields P (k a s)) -> yields P ((looks f ≫= k) s).
Proof.
  intros Hn Hs. unfold looks, throwing, mbind, ST_bind, get. simpl.
  destruct (f (world s)) as [a|]; [by apply Hs|]. by split; [|apply Hn].
Qed.

Lemma yields_changes {A B} (f : W -> option A * W) (k : A -> ST (pgm_state W) B) s (P : B -> pgm_state W -> Prop) :
  ((f (world s)).1 = None -> ~ no_exceptions W) ->
  (forall a w, f (world s) = (Some a, w) -> yields P (k a (s <| world := w |>))) -> yields P ((changes f ≫= k) s).
Proof.
  intros Hn Hs. unfold changes, throwing, sys, mbind, ST_bind, get, put, mret, ST_ret. simpl.
  destruct (f (world s)) as [[a|] w]; [by apply Hs|]. by split; [|apply Hn].
Qed.

Lemma yields_absolute {B} (dir : string) (k : string -> ST (pgm_state W) B) s (P : B -> pgm_state W -> Prop) :
  yields P (k (absolute s dir) s) ->
  yields P (((if path_is_relative dir
              then current ← looks fs_current_path; mret (path_append current dir) else mret dir) ≫= k) s).
Proof.
  unfold absolute, cwd. destruct (path_is_relative dir); [|done]. intros Hk.
  unfold looks, throwing, mbind, ST_bind, get. simpl.
  destruct (fs_current_path (world s)) as [c|] eqn:E; [done|].
  split; [done|]. intros Hq. by apply (ne_current W Hq (world s)).
Qed.

(** What [safePath] says of a path it can judge. *)
Definition safe (path : list string) : bool :=
  negb (bool_decide (path = []) || bool_decide (path = path_elements "/") || negb (under_allowed path)).

Lemma safePath_runs s dir :
  let path := path_elements (absolute s dir) in
  (forall stem, stem ∈ allowed -> ~ inside path (path_elements stem)) ->
  yields (fun ret s' => ret = (if safe path then 0 else -1) /\ s' = s) (safePath dir s).
Proof.
  intros path Hin. unfold safePath. apply yields_absolute. cbv beta. fold path. unfold safe.
  destruct (bool_decide (path = []) || bool_decide (path = path_elements "/")) eqn:E; [done|]. cbv iota.
  erewrite bind_step; [|apply (for_acc_pure _ _ (fun stem failures =>
    if stem_matches (path_elements stem) path then failures else failures + 1))].
  - simpl. unfold under_allowed, mret, ST_ret. simpl.
    do 3 destruct (stem_matches _ _); done.
  - intros stem k Hs. unfold lift. rewrite has_stem_starts by by apply Hin. done.
Qed.

Lemma yields_bind {A B} (m : ST (pgm_state W) A) (k : A -> ST (pgm_state W) B) s P Q :
  yields P (m s) -> (forall a s', P a s' -> yields Q (k a s')) -> yields Q ((m ≫= k) s).
Proof. unfold mbind, ST_bind. destruct (m s) as [[a s']|f]; simpl; auto. Qed.

(** The directory is there and empty, or the call has failed; the graphs are as they
    were. *)
Definition emptied s (dir : string) (ret : Z) s' : Prop :=
  ((ret = 0 /\ at_path (world s') dir = EmptyDir) \/ ret = -1) /\ gGraphs s' = gGraphs s.

(** From nothing, one round is enough. *)
Lemma create_dir_runs fuel s dir :
  at_path (world s) dir = Absent -> yields (emptied s dir) (create_dir (S fuel) dir s).
Proof.
  intros Ha. simpl. apply yields_changes; [intros E Hq; by apply (ne_create W Hq) in E|]. intros ok w' E.
  destruct ok; simpl; [|by split; [right|]].
  pose proof (create_law _ _ _ Ha E) as Hd.
  apply yields_looks; [intros E' Hq; by apply (ne_empty W Hq) in E'|]. simpl. intros b Eb.
  rewrite (empty_law _ _ b (or_introl Hd) Eb), Hd. simpl. by split; [left|].
Qed.

Lemma remove_create_runs fuel s dir :
  yields (emptied s dir)
    ((n ← changes (fs_remove_all dir); if n =? 0 then mret (-1) else create_dir (S fuel) dir) s).
Proof.
  apply yields_changes; [intros E Hq; by apply (ne_remove W Hq) in E|]. intros n w' E.
  destruct (Z.eqb_spec n 0) as [->|Hn]; [by split; [right|]|].
  exact (create_dir_runs fuel (s <| world := w' |>) dir (remove_law _ _ _ _ E Hn)).
Qed.

(** What is refused without a change. *)
Definition refused s (dir : string) : Prop :=
  safe (path_elements (absolute s dir)) = false \/ at_path (world s) dir = File \/
  fs_equivalent dir (cwd s) (world s) = Some true.

Definition prepared s (dir : string) (ret : Z) s' : Prop :=
  emptied s dir ret s' /\ (refused s dir -> ret = -1 /\ s' = s).

Lemma refusal s dir : prepared s dir (-1) s.
Proof. split; [by split; [right|]|done]. Qed.

Lemma emptied_prepared s dir r : yields (emptied s dir) r -> ~ refused s dir -> yields (prepared s dir) r.
Proof. intros Hr Hn. destruct r as [[ret s']|f]; [|done]. by split. Qed.

Lemma prepare_dir_runs fuel s dir :
  let path := path_elements (absolute s dir) in
  (forall stem, stem ∈ allowed -> ~ inside path (path_elements stem)) ->
  yields (prepared s dir) (prepare_dir (S fuel) dir s).
Proof.
  intros path Hin. unfold prepare_dir. eapply yields_bind; [by apply safePath_runs|]. cbv beta.
  intros ret s' [-> ->]. fold path. destruct (safe path) eqn:Es; [simpl|exact (refusal s dir)].
  apply yields_looks; [intros E Hq; by apply (ne_present W Hq) in E|]. intros there Et. pose proof Et as Ht.
  apply present_law in Ht. subst there.
  destruct (bool_decide (at_path (world s) dir = File)) eqn:Ef.
  { apply bool_decide_eq_true in Ef. rewrite Ef. simpl.
    eapply (yields_bind _ _ _ (fun b s' => b = true /\ s' = s)).
    - apply yields_looks; [intros E Hq; by apply (ne_directory W Hq) in E|]. intros b Eb.
      apply directory_law in Eb. rewrite Ef in Eb. by subst.
    - intros b s' [-> ->]. exact (refusal s dir). }
  apply bool_decide_eq_false in Ef.
  eapply (yields_bind _ _ _ (fun b s' => b = false /\ s' = s)).
  { destruct (at_path (world s) dir) eqn:Ha; simpl; try done;
      (apply yields_looks; [intros E Hq; by apply (ne_directory W Hq) in E|]); intros b Eb;
      apply directory_law in Eb; rewrite Ha in Eb; by subst. }
  intros b s' [-> ->].
  apply yields_looks; [intros E Hq; by apply (ne_current W Hq) in E|]. intros c Ec.
  apply yields_looks; [intros E Hq; by apply (ne_equivalent W Hq) in E|]. intros same Eq.
  destruct same; [exact (refusal s dir)|].
  assert (Hn : ~ refused s dir).
  { intros [Hr|[Hr|Hr]]; [fold path in Hr; congruence|done|]. unfold cwd in Hr. rewrite Ec in Hr. simpl in Hr. congruence. }
  apply emptied_prepared; [|done].
  apply yields_looks; [intros E Hq; by apply (ne_present W Hq) in E|]. intros there Et'.
  apply present_law in Et'. subst there. destruct (at_path (world s) dir) eqn:Ha; simpl; [by apply create_dir_runs|done|..];
    (apply yields_looks; [intros E Hq; by apply (ne_empty W Hq) in E|]); intros b Eb;
    (apply empty_law in Eb; [|by auto]); rewrite Ha in Eb; subst; simpl;
    [by split; [left|]|apply remove_create_runs].
Qed.

(** C26. [prepare_dir] on a path that [safePath] can judge, with what Boost documents
    of its calls: it never goes back to [create_dir] more than once; it is left by an
    exception only if a call of the file system throws one (nothing catches it), and
    returns otherwise.  It returns 0 only with an empty directory in place, and -1
    otherwise; when it returns for a path that is not safe, a file, or the current
    directory, it has returned -1 and changed nothing. *)
Theorem prepare_dir_leaves_empty_dir fuel s dir :
  let path := path_elements (absolute s dir) in
  (forall stem, stem ∈ allowed -> ~ inside path (path_elements stem)) ->
  match prepare_dir (S fuel) dir s with
  | Ok (ret, s') =>
      ((ret = 0 /\ at_path (world s') dir = EmptyDir) \/ ret = -1) /\
      (safe path = false \/ at_path (world s) dir = File \/
       fs_equivalent dir (cwd s) (world s) = Some true -> ret = -1 /\ s' = s)
  | Fault f => f = Uncaught /\ ~ no_exceptions W
  end.
Proof.
  intros path Hin. pose proof (prepare_dir_runs fuel s dir Hin) as Hr.
  destruct (prepare_dir (S fuel) dir s) as [[ret s']|f]; [|done]. destruct Hr as [[Hx _] Hno]. by split.
Qed.


End Laws.

(** ** Concrete runs *)

(** POSIX paths: the root, then the names between slashes. *)
Fixpoint names (cur s : string) : list string :=
  match s with
  | EmptyString => match cur with EmptyString => [] | _ => [cur] end
  | String c s =>
      if bool_decide (c = "/"%char)
      then (match cur with EmptyString => [] | _ => [cur] end) ++ names EmptyString s
      else names (cur +:+ String c EmptyString) s
  end.

Definition posix_elements (s : string) : list string :=
  match s with String "/" s => "/"%string :: names EmptyString s | _ => names EmptyString s end.

(** A file system that knows one path; the number is what is there. *)
Definition demo_at (w : Z) : entry :=
  match w with 0 => Absent | 1 => File | 2 => EmptyDir | _ => FullDir end.

#[local] Instance demo_fs : Filesystem Z := {|
  path_elements := posix_elements;
  path_is_relative s := match s with String "/" _ => false | _ => true end;
  fs_current_path _ := Some "/home/me"%string;
  fs_present _ w := Some (negb (match demo_at w with Absent => true | _ => false end));
  fs_is_directory _ w := Some (match demo_at w with EmptyDir | FullDir => true | _ => false end);
  fs_equivalent _ _ _ := Some false;
  fs_is_empty _ w := Some (match demo_at w with EmptyDir => true | _ => false end);
  fs_create_directories _ w := match demo_at w with Absent => (Some true, 2) | _ => (Some false, w) end;
  fs_remove_all _ _ := (Some 1, 0)
|}.

#[local] Instance demo_fs_laws : FilesystemLaws Z demo_fs.
Proof.
  refine {| at_path w _ := demo_at w |}; simpl.
  - by intros w p b [= <-].
  - by intros w p b [= <-].
  - by intros w p b _ [= <-].
  - intros w _ w' ->. by intros [= <-].
  - intros w _ w' n [= <- <-]. done.
Defined.

Lemma demo_fs_quiet : no_exceptions Z.
Proof. split; try done. intros p w. simpl. by destruct (demo_at w). Qed.

(** The current directory is full. *)
Definition demo_process : pgm_state Z :=
  State None false false EmptyString EmptyString (Heap ∅ ∅) 3.

Lemma demo_judged stem : stem ∈ allowed ->
  ~ inside (path_elements (absolute demo_process "/tmp/graphs")) (path_elements stem).
Proof.
  intros Hs [[k E] _]. repeat (apply elem_of_cons in Hs as [->|Hs]); [..|by inversion Hs];
    vm_compute in E; discriminate.
Qed.

Lemma prepare_dir_leaves_empty_dir_witness :
  exists ret s', prepare_dir 1 "/tmp/graphs" demo_process = Ok (ret, s') /\ ret = 0 /\
    at_path (world s') "/tmp/graphs" = EmptyDir.
Proof.
  assert (Hr : exists s1, prepare_dir 1 "/tmp/graphs" demo_process = Ok (0, s1)) by (eexists; vm_compute; reflexivity).
  destruct Hr as [s1 Hr].
  pose proof (prepare_dir_leaves_empty_dir 0 demo_process "/tmp/graphs" demo_judged) as Hx. cbv zeta in Hx.
  rewrite Hr in Hx. exists 0, s1. split; [exact Hr|]. split; [reflexivity|].
  destruct Hx as [[[_ Hx]|Hx] _]; [exact Hx|discriminate].
Defined.


(** Boost reports a directory that may not be made by throwing, which [pgm_init] does
    not turn into the -1 that it documents. *)
Definition denied_fs : Filesystem Z := {|
  path_elements := posix_elements;
  path_is_relative s := match s with String "/" _ => false | _ => true end;
  fs_current_path _ := Some "/home/me"%string;
  fs_present _ _ := Some false;
  fs_is_directory _ _ := Some false;
  fs_equivalent _ _ _ := Some false;
  fs_is_empty _ _ := None;
  fs_create_directories _ w := (None, w);
  fs_remove_all _ w := (None, w)
|}.

Example pgm_init_throws :
  @pgm_init Z _ denied_fs 1 "/tmp/graphs" true false demo_process = Fault Uncaught.
Proof. vm_compute. reflexivity. Qed.

(** The check compares names, it does not resolve them: a path that leaves the
    allowed directories through [..] passes, and is wiped. *)
Example safePath_accepts_escape :
  safePath "/tmp/../etc" demo_process = Ok (0, demo_process).
Proof. vm_compute. reflexivity. Qed.

(** A path above an allowed one is read past its end. *)
Example safePath_reads_past_end : safePath "/dev" demo_process = Fault OutOfBounds.
Proof. vm_compute. reflexivity. Qed.

End Startup.
