(* ===== verification/Teardown.v ===== *)
(** * Tear-down of a graph

    [pgm_destroy_graph] refuses while a node is claimed, and otherwise runs the
    back end's [destroy] of every edge and frees the slot. *)

From S2P Require Import Prelude Ring Types Sys Structure Memory Ipc GraphInit GraphWf.
From Stdlib Require Import Ascii.

Module Teardown.
Import Types Sys Structure Memory Ipc GraphInit GraphWf.
#[local] Open Scope Z_scope.

(** ** Edges whose [destroy] returns *)

(** The buffer holds a terminated C string. *)
Definition terminated (buf : list ascii) : Prop := NUL ∈ buf.

Lemma std_string_terminated buf : terminated buf -> exists str, std_string buf = Ok str.
Proof.
  induction buf as [|ch buf IH]; [by intros ?%elem_of_nil|].
  simpl. intros Hb. case_bool_decide as Hch; [eauto|].
  apply elem_of_cons in Hb as [Hb|Hb]; [by rewrite Hb in Hch|].
  destruct (IH Hb) as [str ->]. simpl. eauto.
Qed.

(** Edge [e] has an operation table and terminated names around it. *)
Record edge_live (gr : pgm_graph) (e : Z) : Prop := {
  el_ops : is_Some (e_ops (gedge gr e));
  el_name : terminated (e_name (gedge gr e));
  el_producer : 0 <= e_producer (gedge gr e) < PGM_MAX_NODES;
  el_consumer : 0 <= e_consumer (gedge gr e) < PGM_MAX_NODES;
  el_pname : terminated (n_name (gnode gr (e_producer (gedge gr e))));
  el_cname : terminated (n_name (gnode gr (e_consumer (gedge gr e))))
}.

#[global] Instance edge_live_proper : Proper ((≡@{pgm_graph}) ==> eq ==> iff) edge_live.
Proof.
  assert (Hone : forall g g' e, g ≡ g' -> edge_live g e -> edge_live g' e).
  { intros g g' e Hg [].
    pose proof (equiv_edge g g' e Hg) as Ee. injection Ee as En Ep Ec _ _ _ _ _ _ Eo.
    pose proof (equiv_node g g' (e_producer (gedge g e)) Hg) as (_ & _ & Es).
    pose proof (equiv_node g g' (e_consumer (gedge g e)) Hg) as (_ & _ & Et).
    injection Es as Epn. injection Et as Ecn.
    split; rewrite <- ?Eo, <- ?En, <- ?Ep, <- ?Ec, <- ?Epn, <- ?Ecn; done. }
  intros g g' Hg e _ <-. split; apply Hone; [done | by symmetry].
Qed.

Section Teardown.
Context {W : Type} `{Syscalls W}.
Implicit Types (s : pgm_state W) (gr : pgm_graph).

(** A call on the outside world always returns. *)
Lemma sys_returns {A} (call : W -> A * W) s : exists a w, sys call s = Ok (a, s <| world := w |>).
Proof.
  unfold sys. rewrite (bind_step _ _ _ s s) by done.
  destruct (call (world s)) as [a w]. by exists a, w.
Qed.

Definition returns {A} (m : ST (pgm_state W) A) s : Prop := exists a s', m s = Ok (a, s').

Lemma returns_bind {A B} (m : ST (pgm_state W) A) (k : A -> ST (pgm_state W) B) s :
  returns m s -> (forall a s', m s = Ok (a, s') -> returns (k a) s') -> returns (m ≫= k) s.
Proof. intros (a & s' & E) Hk. unfold returns. rewrite (bind_step _ _ _ _ _ E). by eapply Hk. Qed.

Lemma returns_sys {A B} (call : W -> A * W) (k : A -> ST (pgm_state W) B) s :
  (forall a w, returns (k a) (s <| world := w |>)) -> returns (sys call ≫= k) s.
Proof.
  intros Hk. destruct (sys_returns call s) as (a & w & E). unfold returns.
  rewrite (bind_step _ _ _ _ _ E). apply Hk.
Qed.

Lemma fifo_name_returns s g gr e :
  has_graph s g gr -> 0 <= e < PGM_MAX_EDGES -> terminated (g_name gr) -> edge_live gr e ->
  exists str, fifo_name g (e_producer (gedge gr e)) (e_consumer (gedge gr e)) e s = Ok (str, s).
Proof.
  intros Hg He Hn []. unfold fifo_name. do 5 st_step.
  destruct (std_string_terminated _ Hn) as [? E0].
  destruct (std_string_terminated _ el_pname0) as [? E1].
  destruct (std_string_terminated _ el_cname0) as [? E2].
  destruct (std_string_terminated _ el_name0) as [? E3].
  unfold gnode in E1, E2. unfold gedge in E3. rewrite E0, E1, E2, E3.
  do 4 (erewrite (bind_step (lift (Ok _))) by done; cbv beta).
  by eexists.
Qed.

Lemma destroy_edge_returns s g gr e :
  has_graph s g gr -> 0 <= e < PGM_MAX_EDGES -> terminated (g_name gr) -> edge_live gr e ->
  returns (destroy_edge g e) s.
Proof.
  intros Hg He Hn Hl. pose proof Hl as [[o Ho] _ _ _ _ _]. unfold destroy_edge, returns.
  st_step. fold (gedge gr e). rewrite Ho. rewrite (bind_step _ _ _ o s) by done.
  apply returns_bind; [|intros; by do 2 eexists].
  destruct (fifo_name_returns s g gr e Hg He Hn Hl) as [str Estr].
  destruct o; simpl; [by do 2 eexists| | | |by do 2 eexists].
  - unfold fifo_destroy, returns. rewrite (bind_step _ _ _ s s) by done.
    case_bool_decide; [by do 2 eexists|]. rewrite (bind_step _ _ _ _ _ Estr).
    apply returns_sys. intros [] w; [|by do 2 eexists].
    apply returns_sys. intros; by do 2 eexists.
  - unfold mq_destroy, mq_path, mq_name. apply returns_bind.
    + unfold returns. rewrite (bind_step _ _ _ _ _ Estr). by do 2 eexists.
    + intros a s' _. destruct (sys_returns (sys_mq_unlink a) s') as (b & w & E).
      by do 2 eexists.
  - unfold ring_destroy, returns. st_step. cbv zeta.
    destruct (Ring.free_ring _); [by do 2 eexists|]. st_step. by do 2 eexists.
Qed.

Lemma keeps_destroy_edge g e : keeps_skel (W := W) g (destroy_edge g e).
Proof. unfold destroy_edge. keeps. Qed.

(** The loop over the edges. *)
Lemma destroy_loop s g gr l :
  has_graph s g gr -> terminated (g_name gr) ->
  (forall e, e ∈ l -> 0 <= e < PGM_MAX_EDGES /\ edge_live gr e) ->
  exists s' gr', for_each l (destroy_edge g) s = Ok (tt, s') /\ has_graph s' g gr' /\ gr ≡ gr' /\
    (forall k x, k <> g -> has_graph s k x -> has_graph s' k x) /\
    gIsGraphMaster s' = gIsGraphMaster s.
Proof.
  revert s gr. induction l as [|e l IH]; intros s gr Hg Hn Hl; simpl.
  { exists s, gr. by split_and!. }
  destruct (Hl e) as [He Hlive]; [by constructor|].
  destruct (destroy_edge_returns s g gr e Hg He Hn Hlive) as ([] & s1 & E1).
  destruct (keeps_destroy_edge g e s tt s1 gr Hg E1) as ((gr1 & Hg1 & Eq1 & _) & Ho1 & Hm1).
  rewrite (bind_step _ _ _ _ _ E1).
  destruct (IH s1 gr1) as (s' & gr' & E & Hg' & Eq' & Ho' & Hm'); [done| | |].
  - pose proof Eq1 as (Ef & _). by injection Ef as _ <-.
  - intros x Hx. rewrite <- Eq1. apply Hl. by constructor.
  - exists s', gr'. split_and!; [done|done|by transitivity gr1|eauto|congruence].
Qed.

(** The claimed node the search of [pgm_destroy_graph] finds. *)
Definition busy_node gr : option Z :=
  first_some (fun i => if negb (owner (gnode gr i) =? UNCLAIMED_NODE) then Some i else None)
    (upto (nr_nodes gr)).

Lemma busy_node_search {A} s g gr (k : option Z -> ST (pgm_state W) A) :
  has_graph s g gr -> 0 <= nr_nodes gr < PGM_MAX_NODES ->
  (busy ← for_break (upto (nr_nodes gr)) (fun i =>
     n ← rd_node g i;
     mret (if negb (owner n =? UNCLAIMED_NODE) then Some i else None));
   k busy) s = k (busy_node gr) s.
Proof.
  intros Hg Hn. erewrite bind_step; [|eapply for_break_pure].
  2:{ intros i Hi%elem_of_upto. st_step. done. }
  done.
Qed.

Lemma busy_node_None gr :
  (forall i, 0 <= i < nr_nodes gr -> owner (gnode gr i) = UNCLAIMED_NODE) -> busy_node gr = None.
Proof. intros Ho. apply first_some_None. intros i Hi%elem_of_upto. by rewrite Ho. Qed.

Lemma destroy_graph_runs s g gr :
  has_graph s g gr -> nr_edges gr < PGM_MAX_EDGES -> terminated (g_name gr) ->
  (forall e, 0 <= e < nr_edges gr -> edge_live gr e) ->
  exists s' gr', destroy_graph g s = Ok (tt, s') /\ has_graph s' g gr' /\
    in_use gr' = false /\ nr_nodes gr' = 0 /\ nodes gr' = ∅ /\
    (forall k x, k <> g -> has_graph s k x -> has_graph s' k x).
Proof.
  intros Hg Hne Hn Hl. unfold destroy_graph. st_step.
  destruct (destroy_loop s g gr (upto (nr_edges gr))) as (s1 & gr1 & E & Hg1 & _ & Ho & _);
    [done | done | |].
  { intros e He%elem_of_upto. split; [lia | by apply Hl]. }
  rewrite (bind_step _ _ _ _ _ E). rewrite (upd_graph_at _ _ _ _ Hg1).
  do 2 eexists. split; [done|]. split; [by eapply has_graph_put|]. split_and!; try done.
  intros k x Hk Hx. apply has_graph_put_ne; auto.
Qed.

(** C38. [pgm_destroy_graph] refuses a well-formed, unlocked graph while any of its
    nodes is claimed: it returns -1 and the process state is exactly as before. *)
Theorem pgm_destroy_graph_refuses s g gr i :
  usable s g gr -> graph_wf gr -> 0 <= i < nr_nodes gr ->
  owner (gnode gr i) <> UNCLAIMED_NODE ->
  pgm_destroy_graph g s = Ok (-1, s).
Proof.
  intros Hs Hwf Hi Ho. pose proof Hs as [Hg Hu Hl Hm]. pose proof (gw_nodes gr Hwf).
  unfold pgm_destroy_graph. rewrite (bind_step _ _ _ s s) by done. rewrite Hm. simpl.
  st_step. rewrite Hu. simpl. do 2 st_step.
  rewrite (busy_node_search _ g (gr <| g_lock := true |>)) by eauto with pgm_st.
  destruct (busy_node _) as [j|] eqn:E.
  - st_step. unfold mret, ST_ret. by rewrite put_unlock.
  - pose proof (proj1 (first_some_None _ _) E i (proj2 (elem_of_upto _ _) Hi)) as Ei.
    simpl in Ei. destruct (_ =? _) eqn:Eo; [|done]. apply Z.eqb_eq in Eo. done.
Qed.

(** C35. [pgm_destroy_graph] on a well-formed graph with no claimed node, whose
    edges all have their operations and terminated names, returns 0: the slot
    is free again with no node left in it, its lock is released, and no other
    graph changed.  (Boost's [exists] and [remove] on the paths of the FIFOs may
    fail, but are taken not to throw.) *)
Theorem pgm_destroy_graph_frees s g gr :
  usable s g gr -> graph_wf gr -> terminated (g_name gr) ->
  (forall i, 0 <= i < nr_nodes gr -> owner (gnode gr i) = UNCLAIMED_NODE) ->
  (forall e, 0 <= e < nr_edges gr -> edge_live gr e) ->
  exists s' gr', pgm_destroy_graph g s = Ok (0, s') /\ has_graph s' g gr' /\
    in_use gr' = false /\ g_lock gr' = false /\ nr_nodes gr' = 0 /\ nodes gr' = ∅ /\
    (forall k x, k <> g -> has_graph s k x -> has_graph s' k x).
Proof.
  intros Hs Hwf Hn Ho Hl. pose proof Hs as [Hg Hu Hlk Hm]. pose proof (gw_edges gr Hwf) as Hne.
  unfold pgm_destroy_graph. rewrite (bind_step _ _ _ s s) by done. rewrite Hm. simpl.
  st_step. rewrite Hu. simpl. do 2 st_step.
  rewrite (busy_node_search _ g (gr <| g_lock := true |>)) by (eauto with pgm_st || apply Hwf).
  rewrite busy_node_None by exact Ho.
  destruct (destroy_graph_runs (put_graph g (gr <| g_lock := true |>) s) g
    (gr <| g_lock := true |>)) as (s1 & gr1 & E & Hg1 & ? & ? & ? & Hoth);
    [eauto with pgm_st | apply Hne | done | intros e He; by destruct (Hl e He) |].
  rewrite (bind_step _ _ _ _ _ E). st_step. do 2 eexists. split; [done|].
  split; [by eapply has_graph_put|]. split_and!; try done.
  intros k x Hk Hx. apply has_graph_put_ne; [done|]. apply Hoth; [done|].
  by apply has_graph_put_ne.
Qed.

End Teardown.

(** ** Concrete runs *)

Definition claimed_graph : pgm_graph :=
  demo_nodes <| nodes ::= at_node 1 (fun n => n <| owner := 1234 |>) |>.

Lemma claimed_graph_wf : graph_wf claimed_graph.
Proof.
  apply (graph_wf_proper demo_nodes); [|apply demo_nodes_wf]. split; [done|]. split; [|done].
  intros i. change (nodes claimed_graph) with
    (at_node 1 (fun n => n <| owner := 1234 |>) (nodes demo_nodes)).
  unfold at_node. rewrite cell_insert. by case_decide; subst.
Qed.

Lemma pgm_destroy_graph_refuses_witness :
  pgm_destroy_graph 0 (demo_state claimed_graph) = Ok (-1, demo_state claimed_graph).
Proof.
  apply (pgm_destroy_graph_refuses (demo_state claimed_graph) 0 claimed_graph 1).
  - by apply demo_usable.
  - apply claimed_graph_wf.
  - done.
  - done.
Defined.

(** Two nodes with a FIFO edge between them. *)
Definition piped_graph : pgm_graph :=
  link_edge 0 1 ((fresh_edge (Node_t 0 0) (Node_t 0 1) (lit "e") (Attr 1 1 1 pgm_fast_fifo_edge 0 0 0) false 0)
    <| e_ops := Some pgm_fifo_edge_ops |>) demo_nodes.

Lemma piped_graph_wf : graph_wf piped_graph.
Proof. by apply link_edge_wf; [apply demo_nodes_wf|..]. Qed.

Lemma terminated_check name : bool_decide (NUL ∈ name) = true -> terminated name.
Proof. apply bool_decide_eq_true_1. Qed.

Lemma pgm_destroy_graph_frees_witness :
  exists s' gr', pgm_destroy_graph 0 (demo_state piped_graph) = Ok (0, s') /\
    has_graph s' 0 gr' /\ in_use gr' = false.
Proof.
  destruct (pgm_destroy_graph_frees (demo_state piped_graph) 0 piped_graph)
    as (s' & gr' & E & Hg & Hu & _).
  - by apply demo_usable.
  - apply piped_graph_wf.
  - apply terminated_check. vm_compute. reflexivity.
  - intros i Hi. change (nr_nodes piped_graph) with 2 in Hi.
    assert (i = 0 \/ i = 1) as [->| ->] by lia; reflexivity.
  - intros e He. change (nr_edges piped_graph) with 1 in He. assert (e = 0) as -> by lia.
    split; [by eexists|apply terminated_check; vm_compute; reflexivity|by vm_compute|by vm_compute|..];
      apply terminated_check; vm_compute; reflexivity.
  - by exists s', gr'.
Defined.

(** A process with one graph, two nodes "a" and "b", and [n] edges from the one
    to the other. *)
Definition parallel_edges (n : Z) : ST (pgm_state Z) (list Z) :=
  _ ← pgm_init_process_local;
  _ ← pgm_init_graph 0 (lit "g");
  _ ← pgm_init_node (Some (Node_t 0 0)) 0 (lit "a");
  _ ← pgm_init_node (Some (Node_t 0 0)) 0 (lit "b");
  for_acc (upto n) [] (fun i rets =>
    '(ret, _) ← pgm_init_edge_num (Some (Edge_t 0 0)) (Node_t 0 0) (Node_t 0 1) i default_edge;
    mret (rets ++ [ret])).

(** The thirty-second parallel edge is refused because the producer's list
    is full, but its slot is already counted and holds no operations:
    destroying the graph then calls through a null table, although every call
    before it succeeded. *)
Theorem degree_overflow_breaks_destroy :
  (r ← parallel_edges 32; mret (List.nth 30 r (-1), List.nth 31 r 0)) demo_start ≫=
    (fun '(r, s) => mret r) = Ok (0, -1) /\
  (_ ← parallel_edges 31; pgm_destroy_graph 0) demo_start ≫= (fun '(r, s) => mret r) = Ok 0 /\
  (_ ← parallel_edges 32; pgm_destroy_graph 0) demo_start = Fault NullDeref.
Proof. vm_compute. done. Qed.

End Teardown.
