(* ===== verification/Buffers.v ===== *)
(** * Properties of edge buffers

    The layout [pgm_malloc] produces, and the ownership discipline between
    edges and buffers: the buffer an edge end points to names that edge and
    that end in its header, so no two edge ends ever share a buffer.  Swapping
    keeps the discipline. *)

From S2P Require Import Prelude Ring Types Sys Structure Memory.

Module Buffers.
Import Types Sys Structure Memory.

(** ** Layout *)

(** The address handed to the user, for an allocation at [buf]. *)
Lemma user_ptr_layout (buf : Z) :
  0 < buf -> buf + PGM_USERMEM_EXTRA < 2 ^ 64 -> (8 | buf) ->
  (16 | pgm_get_user_ptr buf) /\
  buf + sizeof_hdr <= pgm_get_user_ptr buf - 2 /\
  pgm_get_user_ptr buf <= buf + PGM_USERMEM_EXTRA.
Proof.
  intros Hb Hw [q Hq]. unfold pgm_get_user_ptr, wrap64.
  change PGM_USERMEM_PADDING with (Z.ones 4). unfold PGM_USERMEM_EXTRA in *.
  change (sizeof_hdr + sizeof_offset + PGM_USERMEM_PADDING) with 40 in *.
  change sizeof_hdr with 24. rewrite Z.mod_small by lia.
  rewrite Z.ldiff_ones_r, Z.shiftl_mul_pow2, Z.shiftr_div_pow2 by lia.
  change (2 ^ 4) with 16. split; [by exists ((buf + 40) / 16)|].
  pose proof (Z.div_mod (buf + 40) 16 ltac:(lia)). pose proof (Z.mod_pos_bound (buf + 40) 16).
  assert (Hm : (buf + 40) mod 16 = 0 \/ (buf + 40) mod 16 = 8).
  { rewrite Hq. replace (q * 8 + 40) with ((q + 5) * 8) by lia.
    change 16 with (2 * 8). rewrite Z.mul_mod_distr_r by lia.
    pose proof (Z.mod_pos_bound (q + 5) 2). lia. }
  lia.
Qed.

Section Buffers.
Context {W : Type} `{Syscalls W}.
Implicit Types (s : pgm_state W) (gr : pgm_graph).

(** The header that the calls find for user pointer [p]. *)
Definition hdr_of s (p buf : Z) (h : pgm_memory_hdr_t) : Prop :=
  exists off, hbytes (heap s) !! (p - 2) = Some off /\ off <= PGM_USERMEM_EXTRA /\
    p - off = buf /\ buf <> 0 /\ hdrs (heap s) !! buf = Some h.

Lemma get_mem_header_at s p buf h :
  hdr_of s p buf h -> pgm_get_mem_header p s = Ok (buf, s).
Proof.
  intros (off & Ho & Hle & Hp & _). unfold pgm_get_mem_header, rd_byte.
  erewrite bind_step; [|erewrite bind_step by done; by rewrite Ho].
  cbv beta. replace (_ <? _) with false by lia. by rewrite Hp.
Qed.

Lemma rd_hdr_at s a h : a <> 0 -> hdrs (heap s) !! a = Some h -> rd_hdr a s = Ok (h, s).
Proof.
  intros Ha Hh. unfold rd_hdr. erewrite bind_step by done.
  apply Z.eqb_neq in Ha. by rewrite Ha, Hh.
Qed.

Lemma mem_header_safe_at s p buf h :
  hdr_of s p buf h -> cookie h = PGM_COOKIE -> pgm_get_mem_header_safe p s = Ok (buf, s).
Proof.
  intros Hp Hc. pose proof Hp as (off & _ & _ & _ & Hb & Hh). unfold pgm_get_mem_header_safe.
  rewrite (bind_step _ _ _ _ _ (get_mem_header_at s p buf h Hp)).
  rewrite (proj2 (Z.eqb_neq _ _) Hb).
  by rewrite (bind_step _ _ _ _ _ (rd_hdr_at s buf h Hb Hh)), Hc.
Qed.

Lemma buf_assigned_at s p buf h :
  hdr_of s p buf h -> cookie h = PGM_COOKIE ->
  is_buf_assigned p s =
  Ok (if is_bad_edge (assigned_edge h) then None else Some (assigned_edge h), s).
Proof.
  intros Hp Hc. pose proof Hp as (off & _ & _ & _ & Hb & Hh). unfold is_buf_assigned.
  rewrite (bind_step _ _ _ _ _ (mem_header_safe_at s p buf h Hp Hc)).
  rewrite (proj2 (Z.eqb_neq _ _) Hb).
  rewrite (bind_step _ _ _ _ _ (rd_hdr_at s buf h Hb Hh)). by destruct (is_bad_edge _).
Qed.

(** The state after a successful [pgm_malloc]. *)
Definition malloced s (w : W) (nbytes buf : Z) : pgm_state W :=
  (s <| world := w |>) <| heap ::= fun hp =>
    hp <| hdrs ::= <[buf := Hdr nbytes BAD_EDGE PGM_COOKIE 0]> |>
       <| hbytes ::= <[pgm_get_user_ptr buf - 2 := (pgm_get_user_ptr buf - buf) mod 256]> |> |>.

Lemma pgm_malloc_runs s nbytes buf w :
  0 <= nbytes -> buf + nbytes + 1 + 40 < 2 ^ 64 ->
  sys_malloc (nbytes + 1 + 40) (world s) = (buf, w) -> 0 < buf ->
  pgm_malloc nbytes s = Ok (pgm_get_user_ptr buf, malloced s w nbytes buf).
Proof.
  intros Hn Hw Hm Hb. unfold pgm_malloc, sys.
  change PGM_USERMEM_EXTRA with 40. change PGM_TRANSMISSION_TAGS with 1. simpl.
  rewrite bind_step with (a := buf) (s' := s <| world := w |>).
  2:{ unfold mbind, ST_bind, get, wrap64. rewrite Z.mod_small by lia. by rewrite Hm. }
  rewrite (proj2 (Z.eqb_neq buf 0)) by lia. unfold wr_hdr. rewrite (proj2 (Z.eqb_neq buf 0)) by lia.
  done.
Qed.

(** C30. [pgm_malloc]: when [malloc] returns a block that is 8-byte aligned, the
    user pointer is 16-byte aligned, the offset byte lies behind the header and
    in front of the transmission tag, the [nbytes] of user data end inside the
    block, and from the pointer alone the header is found again, unassigned and
    with the requested size. *)
Theorem pgm_malloc_layout s nbytes buf w :
  0 <= nbytes -> buf + nbytes + PGM_TRANSMISSION_TAGS + PGM_USERMEM_EXTRA < 2 ^ 64 ->
  sys_malloc (nbytes + PGM_TRANSMISSION_TAGS + PGM_USERMEM_EXTRA) (world s) = (buf, w) ->
  0 < buf -> (8 | buf) ->
  exists ptr s' h,
    pgm_malloc nbytes s = Ok (ptr, s') /\ (16 | ptr) /\ ptr = pgm_get_user_ptr buf /\
    buf + sizeof_hdr <= ptr - 2 /\
    ptr + nbytes < buf + (nbytes + PGM_TRANSMISSION_TAGS + PGM_USERMEM_EXTRA) /\
    pgm_get_mem_header_safe ptr s' = Ok (buf, s') /\ hdrs (heap s') !! buf = Some h /\
    usersize h = nbytes /\ pgm_is_buf_in_use ptr s' = Ok (0, s').
Proof.
  intros Hn Hw Hm Hb Hal.
  change PGM_USERMEM_EXTRA with 40 in *. change PGM_TRANSMISSION_TAGS with 1 in *.
  destruct (user_ptr_layout buf Hb) as (Hdiv & Hoff & Hend);
    [change PGM_USERMEM_EXTRA with 40; lia|done|]. change PGM_USERMEM_EXTRA with 40 in *.
  rewrite (pgm_malloc_runs s nbytes buf w) by done.
  set (ptr := pgm_get_user_ptr buf) in *. set (s' := malloced s w nbytes buf).
  assert (Hp : hdr_of s' ptr buf (Hdr nbytes BAD_EDGE PGM_COOKIE 0)).
  { exists (ptr - buf). subst s'. simpl. change PGM_USERMEM_EXTRA with 40. rewrite !lookup_insert_eq. unfold sizeof_hdr in *.
    rewrite Z.mod_small by lia. split_and!; try done; lia. }
  exists ptr, s', (Hdr nbytes BAD_EDGE PGM_COOKIE 0). split_and!; try done; try lia.
  - by apply (mem_header_safe_at _ _ _ _ Hp).
  - by destruct Hp as (? & _ & _ & _ & _ & ?).
  - unfold pgm_is_buf_in_use. by rewrite (bind_step _ _ _ _ _ (buf_assigned_at _ _ _ _ Hp eq_refl)).
Qed.

(** ** Ownership *)

(** The buffer at one end of an edge: [true] is the producer's. *)
Definition end_buf (producer : bool) (e : pgm_edge) : Z := if producer then buf_out e else buf_in e.

Definition set_end_buf (producer : bool) (b : Z) (e : pgm_edge) : pgm_edge :=
  if producer then e <| buf_out := b |> else e <| buf_in := b |>.

Definition owned_by (h : pgm_memory_hdr_t) (g e : Z) (producer : bool) : Prop :=
  cookie h = PGM_COOKIE /\ assigned_edge h = Edge_t g e /\ producer_flag h = flag_of producer.

(** The buffer at each end of each edge names that edge and that end. *)
Definition bufs_ok s : Prop := forall g gr e side,
  has_graph s g gr -> 0 <= e < PGM_MAX_EDGES -> end_buf side (gedge gr e) <> 0 ->
  exists h, hdrs (heap s) !! end_buf side (gedge gr e) = Some h /\ owned_by h g e side.

Lemma flag_of_inj a b : flag_of a = flag_of b -> a = b.
Proof. by destruct a, b. Qed.

(** No two edge ends share a buffer. *)
Lemma bufs_distinct s g gr e side g' gr' e' side' :
  bufs_ok s -> has_graph s g gr -> has_graph s g' gr' -> 0 <= e < PGM_MAX_EDGES ->
  0 <= e' < PGM_MAX_EDGES -> end_buf side (gedge gr e) <> 0 ->
  end_buf side (gedge gr e) = end_buf side' (gedge gr' e') ->
  (g, e, side) = (g', e', side').
Proof.
  intros Hok Hg Hg' He He' Hb Eb.
  destruct (Hok g gr e side Hg He Hb) as (h & Hh & _ & Ea & Ef).
  destruct (Hok g' gr' e' side' Hg' He') as (h' & Hh' & _ & Ea' & Ef'); [congruence|].
  rewrite <- Eb in Hh'. simplify_eq. assert (side = side') as -> by (apply flag_of_inj; congruence).
  congruence.
Qed.

Lemma end_buf_set side side' b e :
  end_buf side (set_end_buf side' b e) = if decide (side = side') then b else end_buf side e.
Proof. destruct side, side'; by repeat case_decide. Qed.

Lemma upd_hdr_at s a h f :
  a <> 0 -> hdrs (heap s) !! a = Some h ->
  upd_hdr a f s = Ok (tt, s <| heap ::= fun hp => hp <| hdrs ::= <[a := f h]> |> |>).
Proof.
  intros Ha Hh. unfold upd_hdr. rewrite (bind_step _ _ _ _ _ (rd_hdr_at s a h Ha Hh)).
  unfold wr_hdr. by rewrite (proj2 (Z.eqb_neq _ _) Ha).
Qed.

(** The state with some headers replaced; graphs are where they were. *)
Definition set_hdrs (m : gmap Z pgm_memory_hdr_t) s : pgm_state W :=
  s <| heap ::= fun hp => hp <| hdrs := m |> |>.

Lemma has_graph_set_hdrs m s g gr : has_graph (set_hdrs m s) g gr <-> has_graph s g gr.
Proof. done. Qed.

(** State [s] with one edge end pointing to [b]. *)
Definition point_end (g e : Z) (side : bool) (b : Z) gr s : pgm_state W :=
  put_graph g (gr <| edges ::= <[e := set_end_buf side b (gedge gr e)]> |>) s.

(** The new buffer takes the place of the old one at one end of edge [e]. *)
Definition swapped (side : bool) (g e : Z) gr (buf old : Z) (h oh : pgm_memory_hdr_t) s
    : pgm_state W :=
  point_end g e side buf gr
    (set_hdrs (<[old := oh <| assigned_edge := BAD_EDGE |>]>
       (<[buf := h <| assigned_edge := Edge_t g e |> <| producer_flag := producer_flag oh |>]>
          (hdrs (heap s)))) s).

Lemma gedge_set gr e f e' :
  gedge (gr <| edges ::= <[e := f]> |>) e' = if decide (e = e') then f else gedge gr e'.
Proof. apply cell_insert. Qed.

(** Which graph a state with graph [g] replaced has at [k]. *)
Lemma has_graph_put_inv s g gr gr' k x :
  has_graph s g gr -> has_graph (put_graph g gr' s) k x ->
  (k = g /\ x = gr') \/ (k <> g /\ has_graph s k x).
Proof.
  intros Hg Hk. destruct (decide (k = g)) as [->|Hne].
  - left. split; [done|]. eapply has_graph_fun; [done|]. by eapply has_graph_put.
  - right. split; [done|]. by apply has_graph_put_ne in Hk.
Qed.

Lemma end_buf_point s g gr e side b k x e' side' :
  has_graph s g gr -> has_graph (point_end g e side b gr s) k x ->
  exists x0, has_graph s k x0 /\
    end_buf side' (gedge x e') =
    if decide ((k, e', side') = (g, e, side)) then b else end_buf side' (gedge x0 e').
Proof.
  intros Hg Hx. apply (has_graph_put_inv _ _ gr) in Hx as [[-> ->]|[Hne Hx]]; [| |done].
  - exists gr. split; [done|]. rewrite gedge_set.
    destruct (decide (e = e')) as [<-|]; [rewrite end_buf_set|];
      repeat case_decide; simplify_eq; done.
  - exists x. split; [done|]. by rewrite decide_False by naive_solver.
Qed.

(** A header that no edge end may point to. *)
Definition unassigned (h : pgm_memory_hdr_t) : Prop :=
  ed_graph (assigned_edge h) = -1 \/ ed_edge (assigned_edge h) = -1.

Lemma unassigned_not_owned h g e side :
  unassigned h -> owned_by h g e side -> 0 <= g -> 0 <= e -> False.
Proof. intros [Hu|Hu] (_ & Ea & _); rewrite Ea in Hu; simpl in Hu; lia. Qed.

Lemma swapped_bufs_ok side g e gr buf h oh s :
  bufs_ok s -> has_graph s g gr -> 0 <= e < PGM_MAX_EDGES ->
  end_buf side (gedge gr e) <> 0 -> hdrs (heap s) !! end_buf side (gedge gr e) = Some oh ->
  hdrs (heap s) !! buf = Some h -> cookie h = PGM_COOKIE -> unassigned h ->
  bufs_ok (swapped side g e gr buf (end_buf side (gedge gr e)) h oh s).
Proof.
  intros Hok Hg He Hold Hoh Hh Hc Hfree k x e' side' Hx He' Hb.
  destruct (Hok g gr e side Hg He Hold) as (oh' & Hoh' & Hown). simplify_eq.
  apply (end_buf_point _ _ _ _ _ _ _ _ e' side') in Hx as (x0 & Hx0 & Eb); [|done].
  rewrite Eb in *. clear Eb. simpl.
  destruct (decide ((k, e', side') = (g, e, side))) as [[= -> -> ->]|Hne].
  - rewrite lookup_insert_ne, lookup_insert_eq.
    2:{ intros E. rewrite E in *. simplify_eq. destruct Hg as [? _].
        eapply unassigned_not_owned; [done..|lia|lia]. }
    destruct Hown as (_ & _ & Hf). eexists. split; [done|]. by split_and!.
  - destruct (Hok k x0 e' side' Hx0 He' Hb) as (h0 & Hh0 & Hown0). exists h0. split; [|done].
    rewrite !lookup_insert_ne; [done| |].
    + intros E. rewrite <- E in Hh0. simplify_eq. destruct Hx0 as [? _].
      eapply unassigned_not_owned; [done..|lia|lia].
    + intros E. apply Hne. symmetry. by apply (bufs_distinct s g gr _ _ k x0).
Qed.

(** C29. [__pgm_swap_edge_buf] with a buffer that came from [pgm_malloc]: a buffer
    assigned to an edge or of the wrong size is refused, with 0 and no change;
    otherwise the new buffer becomes the edge end's buffer, the pointer to the
    old one is returned and its header is free for another swap, and every edge
    end still owns the buffer it points to. *)
Theorem swap_edge_buf_exchanges s g gr e side p buf h :
  bufs_ok s -> has_graph s g gr -> in_use gr = true -> 0 <= e < PGM_MAX_EDGES ->
  is_data_passing (gedge gr e) = true -> end_buf side (gedge gr e) <> 0 ->
  p <> 0 -> hdr_of s p buf h -> cookie h = PGM_COOKIE ->
  exists oh, hdrs (heap s) !! end_buf side (gedge gr e) = Some oh /\
    if (negb (ed_graph (assigned_edge h) =? -1) && negb (ed_edge (assigned_edge h) =? -1))
       || negb (usersize h =? usersize oh)
    then swap_edge_buf (Edge_t g e) p side s = Ok (0, s)
    else exists s' gr',
      swap_edge_buf (Edge_t g e) p side s =
        Ok (pgm_get_user_ptr (end_buf side (gedge gr e)), s') /\
      bufs_ok s' /\ has_graph s' g gr' /\ end_buf side (gedge gr' e) = buf /\
      hdrs (heap s') !! end_buf side (gedge gr e) = Some (oh <| assigned_edge := BAD_EDGE |>).
Proof.
  intros Hok Hg Hu He Hd Hold Hp Hh Hc. pose proof Hh as (off & _ & _ & _ & Hb & Hhb).
  destruct (Hok g gr e side Hg He Hold) as (oh & Hoh & _). exists oh. split; [done|].
  unfold swap_edge_buf. rewrite (proj2 (Z.eqb_neq _ _) Hp). st_step. rewrite Hu. simpl.
  st_step. fold (gedge gr e). rewrite Hd. simpl.
  rewrite (bind_step _ _ _ _ _ (mem_header_safe_at s p buf h Hh Hc)).
  rewrite (proj2 (Z.eqb_neq _ _) Hb), (bind_step _ _ _ _ _ (rd_hdr_at s buf h Hb Hhb)).
  destruct (_ && _) eqn:Ea; simpl; [done|].
  fold (end_buf side (gedge gr e)). rewrite (bind_step _ _ _ _ _ (rd_hdr_at s _ oh Hold Hoh)).
  destruct (usersize h =? usersize oh); simpl; [|done].
  assert (Hun : unassigned h).
  { apply andb_false_iff in Ea as [Ea|Ea]; bool_to_prop; [by left | by right]. }
  assert (Hne : buf <> end_buf side (gedge gr e)).
  { intros ->. simplify_eq. destruct (Hok g gr e side Hg He Hold) as (h' & Hh' & Hown). simplify_eq.
    destruct Hg as [? _]. eapply unassigned_not_owned; [done..|lia|lia]. }
  exists (swapped side g e gr buf (end_buf side (gedge gr e)) h oh s).
  eexists. split_and!.
  - rewrite (bind_step _ _ _ _ _ (upd_hdr_at _ _ h _ Hb Hhb)).
    erewrite bind_step by (apply (upd_hdr_at _ _ oh); [done|]; simpl; by rewrite lookup_insert_ne).
    erewrite bind_step; [|apply (upd_edge_at _ g gr e); [exact Hg | done]]. done.
  - by apply swapped_bufs_ok.
  - by eapply has_graph_put.
  - rewrite gedge_set, decide_True by done. rewrite end_buf_set. by case_decide.
  - apply lookup_insert_eq.
Qed.

(** *** Two buffers in use change places *)

Section SwapBufs.
Context (s : pgm_state W) (Hok : bufs_ok s).
Context (pa ba pb bb ga ea gb eb : Z) (sa sb : bool) (ha hb : pgm_memory_hdr_t).
Context (gra grb : pgm_graph).
Context (Hpa : hdr_of s pa ba ha) (Hpb : hdr_of s pb bb hb).
Context (Hga : has_graph s ga gra) (Hgb : has_graph s gb grb).
Context (Hea : 0 <= ea < PGM_MAX_EDGES) (Heb : 0 <= eb < PGM_MAX_EDGES).
Context (Hba : end_buf sa (gedge gra ea) = ba) (Hbb : end_buf sb (gedge grb eb) = bb).
Context (Hne : (ga, ea, sa) <> (gb, eb, sb)).

Lemma hdr_owned p b h g gr e side :
  hdr_of s p b h -> has_graph s g gr -> 0 <= e < PGM_MAX_EDGES ->
  end_buf side (gedge gr e) = b -> owned_by h g e side /\ b <> 0 /\ hdrs (heap s) !! b = Some h.
Proof.
  intros (off & _ & _ & _ & Hb & Hh) Hg He <-.
  destruct (Hok g gr e side Hg He Hb) as (h' & Hh' & Ho). by simplify_eq.
Qed.

Lemma owned_assigned p b h g gr e side :
  hdr_of s p b h -> has_graph s g gr -> 0 <= e < PGM_MAX_EDGES ->
  end_buf side (gedge gr e) = b -> is_buf_assigned p s = Ok (Some (Edge_t g e), s).
Proof.
  intros Hp Hg He Hb. destruct (hdr_owned p b h g gr e side Hp Hg He Hb) as ((Hc & Ha & _) & _).
  rewrite (buf_assigned_at s p b h Hp Hc), Ha. unfold is_bad_edge. simpl.
  destruct Hg as [? _]. by replace (g =? -1) with false by lia.
Qed.

Lemma slot_of_flag side e : (if negb (flag_of side =? 0) then buf_out e else buf_in e) = end_buf side e.
Proof. by destruct side. Qed.

Lemma rd_slot_at s1 g gr e side :
  has_graph s1 g gr -> 0 <= e < PGM_MAX_EDGES ->
  rd_edge_slot (Edge_t g e) (flag_of side) s1 = Ok (end_buf side (gedge gr e), s1).
Proof. intros Hg He. unfold rd_edge_slot. simpl. st_step. by rewrite slot_of_flag. Qed.

Lemma wr_slot_at s1 g gr e side v :
  has_graph s1 g gr -> 0 <= e < PGM_MAX_EDGES ->
  wr_edge_slot (Edge_t g e) (flag_of side) v s1 = Ok (tt, point_end g e side v gr s1).
Proof.
  intros Hg He. unfold wr_edge_slot. simpl. erewrite upd_edge_at by done. by destruct side.
Qed.

(** The headers after the exchange. *)
Definition swapped_hdrs : gmap Z pgm_memory_hdr_t :=
  <[bb := hb <| assigned_edge := Edge_t ga ea |> <| producer_flag := flag_of sa |>]>
    (<[ba := ha <| assigned_edge := Edge_t gb eb |> <| producer_flag := flag_of sb |>]>
       (hdrs (heap s))).

Lemma bufs_differ : ba <> bb.
Proof.
  intros E. destruct (hdr_owned pa ba ha ga gra ea sa) as (_ & Hb0 & _); try done.
  apply Hne, (bufs_distinct s ga gra ea sa gb grb eb sb); try done; congruence.
Qed.

(** The edges and the headers after the exchange. *)
Definition swapped_both (grb1 : pgm_graph) : pgm_state W :=
  set_hdrs swapped_hdrs (point_end gb eb sb ba grb1 (point_end ga ea sa bb gra s)).

Lemma swapped_both_ends grb1 k x e side :
  has_graph (point_end ga ea sa bb gra s) gb grb1 -> has_graph (swapped_both grb1) k x ->
  exists x0, has_graph s k x0 /\
    end_buf side (gedge x e) =
    if decide ((k, e, side) = (gb, eb, sb)) then ba
    else if decide ((k, e, side) = (ga, ea, sa)) then bb else end_buf side (gedge x0 e).
Proof.
  intros Hg1 Hx. unfold swapped_both in Hx. rewrite has_graph_set_hdrs in Hx.
  destruct (end_buf_point _ _ _ _ _ _ _ _ e side Hg1 Hx) as (x1 & Hx1 & ->).
  destruct (end_buf_point _ _ _ _ _ _ _ _ e side Hga Hx1) as (x0 & Hx0 & ->).
  by exists x0.
Qed.

Lemma has_graph_after g gr e side b k x :
  has_graph s g gr -> has_graph s k x -> exists x', has_graph (point_end g e side b gr s) k x'.
Proof.
  intros Hg Hk. destruct (decide (g = k)) as [<-|].
  - eexists. by eapply has_graph_put.
  - exists x. by apply has_graph_put_ne.
Qed.

Lemma has_graph_both grb1 k x :
  has_graph s k x -> has_graph (point_end ga ea sa bb gra s) gb grb1 ->
  exists x', has_graph (swapped_both grb1) k x'.
Proof.
  intros Hk Hg1. destruct (has_graph_after ga gra ea sa bb k x Hga Hk) as [x1 Hx1].
  destruct (decide (gb = k)) as [<-|].
  - eexists. apply has_graph_set_hdrs. by eapply has_graph_put.
  - exists x1. apply has_graph_set_hdrs. by apply has_graph_put_ne.
Qed.

(** The header updates, on the state with both edges changed. *)
Lemma swap_headers grb1 :
  ba <> 0 -> bb <> 0 -> hdrs (heap s) !! ba = Some ha -> hdrs (heap s) !! bb = Some hb ->
  producer_flag ha = flag_of sa -> producer_flag hb = flag_of sb -> ba <> bb ->
  (upd_hdr ba (fun h => h <| assigned_edge := Edge_t gb eb |>) ;;
   upd_hdr bb (fun h => h <| assigned_edge := Edge_t ga ea |>) ;;
   ha' ← rd_hdr ba;
   hb' ← rd_hdr bb;
   upd_hdr ba (fun h => h <| producer_flag := producer_flag hb' |>) ;;
   upd_hdr bb (fun h => h <| producer_flag := producer_flag ha' |>) ;;
   mret 0) (point_end gb eb sb ba grb1 (point_end ga ea sa bb gra s)) =
  Ok (0, swapped_both grb1).
Proof.
  intros Ha0 Hb0 Hha Hhb Hfa Hfb Hd.
  do 2 (erewrite bind_step; [|apply upd_hdr_at; [done | simpl; simplify_map_eq; done]]).
  do 2 (erewrite bind_step; [|apply rd_hdr_at; [done | simpl; simplify_map_eq; done]]).
  do 2 (erewrite bind_step; [|apply upd_hdr_at; [done | simpl; simplify_map_eq; done]]).
  unfold mret, ST_ret. do 2 f_equal. simpl. rewrite Hfa, Hfb.
  unfold swapped_both, set_hdrs, set_field. simpl. do 2 f_equal. unfold swapped_hdrs.
  rewrite (insert_insert_ne _ bb ba), !insert_insert_eq by done. simpl.
  by rewrite insert_insert_ne, insert_insert_eq.
Qed.

Lemma swapped_both_ok grb1 :
  has_graph (point_end ga ea sa bb gra s) gb grb1 -> bufs_ok (swapped_both grb1).
Proof.
  intros Hg1 k x e side Hx He Hb.
  destruct (hdr_owned pa ba ha ga gra ea sa) as ((Hca & _) & _); try done.
  destruct (hdr_owned pb bb hb gb grb eb sb) as ((Hcb & _) & _); try done.
  destruct (swapped_both_ends grb1 k x e side Hg1 Hx) as (x0 & Hx0 & Eb). rewrite Eb in *.
  pose proof bufs_differ. simpl. unfold swapped_hdrs.
  destruct (decide ((k, e, side) = (gb, eb, sb))) as [[= -> -> ->]|Hb1].
  { rewrite lookup_insert_ne, lookup_insert_eq by done. eexists. by split. }
  destruct (decide ((k, e, side) = (ga, ea, sa))) as [[= -> -> ->]|Ha1].
  { rewrite lookup_insert_eq. eexists. by split. }
  destruct (Hok k x0 e side Hx0 He Hb) as (h0 & Hh0 & Ho). exists h0. split; [|done].
  rewrite !lookup_insert_ne; [done| |].
  - intros E. apply Ha1. apply (bufs_distinct s k x0 _ _ ga gra); try done. congruence.
  - intros E. apply Hb1. apply (bufs_distinct s k x0 _ _ gb grb); try done. congruence.
Qed.

(** C28. [pgm_swap_edge_bufs] on the buffers of two different edge ends, of equal
    size, exchanges them: each end now points to the other's buffer, the headers
    say so, and every edge end still owns the buffer it points to.  Buffers of
    different sizes are refused with -1 and no change. *)
Theorem swap_edge_bufs_exchanges :
  pa <> 0 -> pb <> 0 -> pa <> pb ->
  if negb (usersize ha =? usersize hb)
  then pgm_swap_edge_bufs pa pb s = Ok (-1, s)
  else exists s', pgm_swap_edge_bufs pa pb s = Ok (0, s') /\ bufs_ok s' /\
    exists gra' grb', has_graph s' ga gra' /\ has_graph s' gb grb' /\
      end_buf sa (gedge gra' ea) = bb /\ end_buf sb (gedge grb' eb) = ba.
Proof.
  intros Ha0 Hb0 Hab.
  destruct (hdr_owned pa ba ha ga gra ea sa) as ((Hca & Haa & Hfa) & Hba0 & Hha); try done.
  destruct (hdr_owned pb bb hb gb grb eb sb) as ((Hcb & Hab' & Hfb) & Hbb0 & Hhb); try done.
  pose proof bufs_differ as Hd. unfold pgm_swap_edge_bufs.
  rewrite (proj2 (Z.eqb_neq pa 0)), (proj2 (Z.eqb_neq pb 0)), (proj2 (Z.eqb_neq pa pb)) by done.
  simpl. rewrite (bind_step _ _ _ _ _ (owned_assigned pa ba ha ga gra ea sa Hpa Hga Hea Hba)).
  rewrite (bind_step _ _ _ _ _ (owned_assigned pb bb hb gb grb eb sb Hpb Hgb Heb Hbb)).
  rewrite (bind_step _ _ _ _ _ (get_mem_header_at s pa ba ha Hpa)).
  rewrite (bind_step _ _ _ _ _ (get_mem_header_at s pb bb hb Hpb)).
  rewrite (bind_step _ _ _ _ _ (rd_hdr_at s ba ha Hba0 Hha)).
  rewrite (bind_step _ _ _ _ _ (rd_hdr_at s bb hb Hbb0 Hhb)).
  destruct (usersize ha =? usersize hb); simpl; [|done].
  rewrite Hfa, Hfb, (bind_step _ _ _ _ _ (rd_slot_at s ga gra ea sa Hga Hea)).
  rewrite (bind_step _ _ _ _ _ (rd_slot_at s gb grb eb sb Hgb Heb)), Hba, Hbb.
  rewrite (bind_step _ _ _ _ _ (wr_slot_at s ga gra ea sa bb Hga Hea)).
  destruct (has_graph_after ga gra ea sa bb gb grb Hga Hgb) as [grb1 Hg1].
  rewrite (bind_step _ _ _ _ _ (wr_slot_at _ gb grb1 eb sb ba Hg1 Heb)).
  exists (swapped_both grb1). split; [by apply swap_headers|].
  split; [by apply swapped_both_ok|].
  destruct (has_graph_both grb1 ga gra Hga) as [gra' Hga']; [done|].
  destruct (has_graph_both grb1 gb grb Hgb) as [grb' Hgb']; [done|].
  exists gra', grb'. split_and!; [done..| |].
  - destruct (swapped_both_ends grb1 ga gra' ea sa Hg1 Hga') as (x0 & _ & ->).
    rewrite decide_False by done. by rewrite decide_True.
  - destruct (swapped_both_ends grb1 gb grb' eb sb Hg1 Hgb') as (x0 & _ & ->).
    by rewrite decide_True.
Qed.

End SwapBufs.

(** ** Corner cases *)

(** [is_producer_buf] never recognises a producer's buffer: the flag is a
    signed one-bit field, [true] is stored as -1, and the test compares it with
    1.  Whatever buffer it is asked about, it returns 0. *)
Theorem is_producer_buf_always_zero s p buf h g e side :
  hdr_of s p buf h -> owned_by h g e side -> is_producer_buf p s = Ok (0, s).
Proof.
  intros Hp (Hc & Ha & Hf). pose proof Hp as (off & _ & _ & _ & Hb & Hh). unfold is_producer_buf.
  rewrite (bind_step _ _ _ _ _ (mem_header_safe_at s p buf h Hp Hc)).
  rewrite (proj2 (Z.eqb_neq _ _) Hb), (bind_step _ _ _ _ _ (rd_hdr_at s buf h Hb Hh)).
  rewrite Hf. destruct (is_bad_edge _); [done|]. by destruct side.
Qed.

(** Swapping a buffer into a data-passing edge that nobody has opened reads
    the size in the header of a buffer that is not there; and asking for that
    edge's buffer gives the address 32, not the null pointer. *)
Theorem unopened_edge_buffers s g gr e p buf h side :
  has_graph s g gr -> in_use gr = true -> 0 <= e < PGM_MAX_EDGES ->
  is_data_passing (gedge gr e) = true -> end_buf side (gedge gr e) = 0 ->
  p <> 0 -> hdr_of s p buf h -> cookie h = PGM_COOKIE -> assigned_edge h = BAD_EDGE ->
  swap_edge_buf (Edge_t g e) p side s = Fault NullDeref /\
  (if side then pgm_get_edge_buf_p else pgm_get_edge_buf_c) (Edge_t g e) s = Ok (32, s).
Proof.
  intros Hg Hu He Hd Hend Hp Hh Hc Ha. pose proof Hh as (off & _ & _ & _ & Hb & Hhb). split.
  - unfold swap_edge_buf. rewrite (proj2 (Z.eqb_neq _ _) Hp). st_step. rewrite Hu. simpl.
    st_step. fold (gedge gr e). rewrite Hd. simpl.
    rewrite (bind_step _ _ _ _ _ (mem_header_safe_at s p buf h Hh Hc)).
    rewrite (proj2 (Z.eqb_neq _ _) Hb), (bind_step _ _ _ _ _ (rd_hdr_at s buf h Hb Hhb)), Ha.
    simpl. fold (end_buf side (gedge gr e)). by rewrite Hend.
  - unfold pgm_get_edge_buf_p, pgm_get_edge_buf_c.
    destruct side; st_step; rewrite Hu; simpl; st_step; fold (gedge gr e); rewrite Hd; simpl;
      simpl in Hend; by rewrite Hend.
Qed.

End Buffers.

(** ** A concrete heap: the two buffers of an open edge, and a free one *)

Definition demo_hdr (a : edge_t) (producer : bool) : pgm_memory_hdr_t :=
  Hdr 8 a PGM_COOKIE (flag_of producer).

Definition demo_fifo : pgm_edge :=
  zeroed <| e_attr := default_edge <| type := pgm_fifo_edge |> |>
         <| buf_out := 4096 |> <| buf_in := 8192 |>.

Definition demo_heap (e : pgm_edge) : pgm_state Z :=
  State (Some {[0 := zeroed <| in_use := true |> <| nr_edges := 1 |> <| edges := {[0 := e]} |>]})
    false true EmptyString EmptyString
    (Heap {[4096 := demo_hdr (Edge_t 0 0) true; 8192 := demo_hdr (Edge_t 0 0) false;
            12288 := demo_hdr BAD_EDGE false]}
          {[4126 := 32; 8222 := 32; 12318 := 32]}) 16384.

Definition demo_fifo_graph (e : pgm_edge) : pgm_graph :=
  zeroed <| in_use := true |> <| nr_edges := 1 |> <| edges := {[0 := e]} |>.

Lemma demo_heap_graph e : has_graph (demo_heap e) 0 (demo_fifo_graph e).
Proof. split; [done|]. by eexists. Qed.

Lemma demo_heap_bufs : bufs_ok (demo_heap demo_fifo).
Proof.
  intros g gr e side (_ & m & [= <-] & <-) He Hb.
  unfold gedge, cell in *. destruct (decide (0 = g)) as [<-|Hg].
  - rewrite lookup_singleton_eq in *. simpl in *. destruct (decide (0 = e)) as [<-|Hne].
    + rewrite lookup_singleton_eq in *. destruct side; by eexists.
    + rewrite lookup_singleton_ne in * by done. by destruct side.
  - rewrite lookup_singleton_ne in * by done. by destruct side.
Qed.

Lemma demo_hdr_of e p buf h :
  hbytes (heap (demo_heap e)) !! (p - 2) = Some (p - buf) -> p - buf <= 40 -> buf <> 0 ->
  hdrs (heap (demo_heap e)) !! buf = Some h -> hdr_of (demo_heap e) p buf h.
Proof. intros. exists (p - buf). split_and!; try done. lia. Qed.

Lemma pgm_malloc_layout_witness :
  exists ptr s', pgm_malloc 100 demo_start = Ok (ptr, s') /\ (16 | ptr) /\
    pgm_get_mem_header_safe ptr s' = Ok (4096, s').
Proof.
  destruct (pgm_malloc_layout demo_start 100 4096 4240) as (ptr & s' & h & E & Hd & _ & _ & _ & Hh & _).
  - lia.
  - reflexivity.
  - reflexivity.
  - lia.
  - by exists 512.
  - by exists ptr, s'.
Defined.

Lemma swap_edge_buf_exchanges_witness :
  exists s', swap_edge_buf (Edge_t 0 0) 12320 true (demo_heap demo_fifo) = Ok (4128, s') /\
    bufs_ok s'.
Proof.
  destruct (swap_edge_buf_exchanges (demo_heap demo_fifo) 0 (demo_fifo_graph demo_fifo) 0 true
    12320 12288 (demo_hdr BAD_EDGE false)) as (oh & Hoh & Hrest);
    try done; try apply demo_heap_bufs; try apply demo_heap_graph; try (by apply demo_hdr_of).
  injection Hoh as <-. simpl in Hrest. destruct Hrest as (s' & gr' & E & Hok & _).
  by exists s'.
Defined.

Lemma swap_edge_bufs_exchanges_witness :
  exists s', pgm_swap_edge_bufs 4128 8224 (demo_heap demo_fifo) = Ok (0, s') /\ bufs_ok s'.
Proof.
  destruct (swap_edge_bufs_exchanges (demo_heap demo_fifo) demo_heap_bufs 4128 4096 8224 8192
    0 0 0 0 true false (demo_hdr (Edge_t 0 0) true) (demo_hdr (Edge_t 0 0) false)
    (demo_fifo_graph demo_fifo) (demo_fifo_graph demo_fifo)) as (s' & E & Hok & _);
    try done; try apply demo_heap_graph; try (by apply demo_hdr_of).
  by exists s'.
Defined.

Lemma is_producer_buf_always_zero_witness :
  is_producer_buf 4128 (demo_heap demo_fifo) = Ok (0, demo_heap demo_fifo).
Proof.
  apply (is_producer_buf_always_zero _ 4128 4096 (demo_hdr (Edge_t 0 0) true) 0 0 true);
    [by apply demo_hdr_of | done].
Defined.

Lemma unopened_edge_buffers_witness :
  swap_edge_buf (Edge_t 0 0) 12320 true (demo_heap (demo_fifo <| buf_out := 0 |>)) =
  Fault NullDeref.
Proof.
  destruct (unopened_edge_buffers (demo_heap (demo_fifo <| buf_out := 0 |>)) 0
    (demo_fifo_graph (demo_fifo <| buf_out := 0 |>)) 0 12320 12288 (demo_hdr BAD_EDGE false) true)
    as [E _]; try done; try apply demo_heap_graph; try (by apply demo_hdr_of).
Defined.

End Buffers.
