(* ===== verification/Query.v ===== *)
(** * Queries (src/pgm.cpp, "Graph/Node/Edge Query Routines" and "Graph
    Validation Routines")

    The look-ups by name, the getters, the degree counts, and the two
    depth-first searches behind [pgm_is_ancestor] and [pgm_is_dag]. *)

From S2P Require Import Prelude Ring Types Sys Structure Memory Ipc GraphInit.
From Stdlib Require Import Ascii.

Module Query.
Import Types Sys Structure GraphInit.
#[local] Open Scope Z_scope.

Section Query.
Context {W : Type}.

(** [pthread_mutex_lock(&g->lock); ...; pthread_mutex_unlock(&g->lock);] *)
Definition locked {A} (graph : Z) (body : ST (pgm_state W) A) : ST (pgm_state W) A :=
  mutex_lock graph ;;
  r ← body;
  mutex_unlock graph ;;
  mret r.

(** ** Finding by name *)

Definition pgm_find_node (node : option node_t) (graph : Z) (name : list ascii)
    : ST (pgm_state W) (Z * option node_t) :=
  match node with
  | None => mret (-1, node)
  | Some _ =>
      ok ← is_valid_graph graph;
      if negb ok then mret (-1, node)
      else if bad_name_len name PGM_NODE_NAME_LEN then mret (-1, node)
      else
        let len := strnlen name PGM_NODE_NAME_LEN in
        locked graph (
          gr ← rd_graph graph;
          found ← for_break (upto (nr_nodes gr)) (fun i =>
            n ← rd_node graph i;
            mret (if strncmp_eq (n_name n) name len then Some i else None));
          match found with
          | Some i => mret (0, Some (Node_t graph i))
          | None => mret (-1, node)
          end)
  end.

Definition pgm_find_node_num (node : option node_t) (graph n : Z)
    : ST (pgm_state W) (Z * option node_t) :=
  pgm_find_node node graph (hex_name n).

(** [for(j = 0; j < nr; ++j) if(i == list[j]) { found++; break; }] *)
Definition listed (size nr : Z) (l : gmap Z Z) (i : Z) : ST (pgm_state W) bool :=
  r ← for_break (upto nr) (fun j =>
    x ← lift (aget size l j); mret (if i =? x then Some tt else None));
  mret (match r with Some _ => true | None => false end).

(** The attributes go back through the last component when the caller passed
    somewhere to put them. *)
Definition pgm_find_first_edge (edge : option edge_t) (producer consumer : node_t)
    (want_attr : bool) : ST (pgm_state W) (Z * option edge_t * option edge_attr_t) :=
  match edge with
  | None => mret (-1, edge, None)
  | Some _ =>
      if negb (nd_graph producer =? nd_graph consumer) then mret (-1, edge, None)
      else
        ok ← is_valid_graph (nd_graph producer);
        if negb ok then mret (-1, edge, None)
        else
          let graph := nd_graph producer in
          locked graph (
            gr ← rd_graph graph;
            found ← for_break (upto (nr_edges gr)) (fun i =>
              e ← rd_edge graph i;
              mret (if (e_producer e =? nd_node producer) && (e_consumer e =? nd_node consumer)
                    then Some (i, e_attr e) else None));
            match found with
            | Some (i, a) =>
                mret (0, Some (Edge_t graph i), if want_attr then Some a else None)
            | None => mret (-1, edge, None)
            end)
  end.

(** The name is optional; without one the attributes are not asked for. *)
Definition pgm_find_edge (edge : option edge_t) (producer consumer : node_t)
    (name : option (list ascii)) (want_attr : bool)
    : ST (pgm_state W) (Z * option edge_t * option edge_attr_t) :=
  match name with
  | None => pgm_find_first_edge edge producer consumer false
  | Some name =>
    match edge with
    | None => mret (-1, edge, None)
    | Some _ =>
      if negb (nd_graph producer =? nd_graph consumer) then mret (-1, edge, None)
      else
        ok ← is_valid_graph (nd_graph producer);
        if negb ok then mret (-1, edge, None)
        else if bad_name_len name PGM_EDGE_NAME_LEN then mret (-1, edge, None)
        else
          let len := strnlen name PGM_EDGE_NAME_LEN in
          let graph := nd_graph producer in
          locked graph (
            gr ← rd_graph graph;
            found ← for_break (upto (nr_edges gr)) (fun i =>
              e ← rd_edge graph i;
              if (e_producer e =? nd_node producer) && (e_consumer e =? nd_node consumer)
                 && strncmp_eq (e_name e) name len
              then
                np ← rd_node graph (nd_node producer);
                nc ← rd_node graph (nd_node consumer);
                o ← listed PGM_MAX_OUT_DEGREE (nr_out np) (n_out np) i;
                c ← listed PGM_MAX_IN_DEGREE (nr_in nc) (n_in nc) i;
                mret (Some (if o && c then Some (i, e_attr e) else None))
              else mret None);
            match found with
            | Some (Some (i, a)) =>
                mret (0, Some (Edge_t graph i), if want_attr then Some a else None)
            | _ => mret (-1, edge, None)
            end)
    end
  end.

Definition pgm_find_edge_num (edge : option edge_t) (producer consumer : node_t) (n : Z)
    (want_attr : bool) : ST (pgm_state W) (Z * option edge_t * option edge_attr_t) :=
  pgm_find_edge edge producer consumer (Some (hex_name n)) want_attr.

(** ** Getters *)

Definition pgm_set_user_data (node : node_t) (udata : Z) : ST (pgm_state W) Z :=
  ok ← is_valid_graph (nd_graph node);
  if negb ok then mret (-1)
  else upd_node (nd_graph node) (nd_node node) (fun n => n <| userdata := udata |>) ;; mret 0.

(** Read a field of a node or an edge, or give [bad] for a bad graph. *)
Definition get_node {A} (node : node_t) (bad : A) (f : pgm_node -> A) : ST (pgm_state W) A :=
  ok ← is_valid_graph (nd_graph node);
  if negb ok then mret bad
  else n ← rd_node (nd_graph node) (nd_node node); mret (f n).

Definition get_edge {A} (edge : edge_t) (bad : A) (f : pgm_edge -> A) : ST (pgm_state W) A :=
  ok ← is_valid_graph (ed_graph edge);
  if negb ok then mret bad
  else e ← rd_edge (ed_graph edge) (ed_edge edge); mret (f e).

Definition pgm_get_user_data (node : node_t) : ST (pgm_state W) Z := get_node node 0 userdata.

Definition pgm_get_name (node : node_t) : ST (pgm_state W) (option (list ascii)) :=
  get_node node None (fun n => Some (n_name n)).

Definition pgm_get_producer (edge : edge_t) : ST (pgm_state W) node_t :=
  get_edge edge (Node_t (ed_graph edge) (-1)) (fun e => Node_t (ed_graph edge) (e_producer e)).

Definition pgm_get_consumer (edge : edge_t) : ST (pgm_state W) node_t :=
  get_edge edge (Node_t (ed_graph edge) (-1)) (fun e => Node_t (ed_graph edge) (e_consumer e)).

(** [ret] is never set. *)
Definition pgm_get_edge_attrs (edge : edge_t) (want_attrs : bool)
    : ST (pgm_state W) (Z * option edge_attr_t) :=
  ok ← is_valid_graph (ed_graph edge);
  if negb ok then mret (-1, None)
  else if negb want_attrs then mret (-1, None)
  else e ← rd_edge (ed_graph edge) (ed_edge edge); mret (-1, Some (e_attr e)).

Definition pgm_is_backedge (backedge : edge_t) : ST (pgm_state W) Z :=
  get_edge backedge 0 (fun e => if is_backedge e then 1 else 0).

Definition pgn_get_nr_skips_remaining (backedge : edge_t) : ST (pgm_state W) Z :=
  get_edge backedge 0 (fun e => if is_backedge e then nr_skips e else 0).

(** The attributes are [size_t], the results [int]. *)
Definition pgm_get_nr_produce (edge : edge_t) : ST (pgm_state W) Z :=
  get_edge edge (-1) (fun e => signed 32 (nr_produce (e_attr e))).
Definition pgm_get_nr_consume (edge : edge_t) : ST (pgm_state W) Z :=
  get_edge edge (-1) (fun e => signed 32 (nr_consume (e_attr e))).
Definition pgm_get_nr_threshold (edge : edge_t) : ST (pgm_state W) Z :=
  get_edge edge (-1) (fun e => signed 32 (nr_threshold (e_attr e))).

(** ** Neighbours

    The loop the four enumerations share: over the node's [nr] listed edges,
    explicit back edges left out on request, [f] of the others appended to the
    caller's array.  The result is the count and the entries written. *)
Definition collect {A} (graph size nr : Z) (l : gmap Z Z) (ignore_backedges : bool)
    (f : Z -> pgm_edge -> A) : ST (pgm_state W) (Z * list A) :=
  for_acc (upto nr) (nr, []) (fun i acc =>
    let '(num, out) := acc in
    x ← lift (aget size l i);
    e ← rd_edge graph x;
    if ignore_backedges && is_backedge e then mret (num - 1, out)
    else mret (num, out ++ [f x e])).

Definition pgm_get_successors (node : node_t) (successors : bool) (len : Z)
    (ignore_backedges : bool) : ST (pgm_state W) (Z * list node_t) :=
  if negb successors then mret (-1, [])
  else
    ok ← is_valid_graph (nd_graph node);
    if negb ok then mret (-1, [])
    else
      locked (nd_graph node) (
        n ← rd_node (nd_graph node) (nd_node node);
        if len <? nr_out n then mret (-1, [])
        else collect (nd_graph node) PGM_MAX_OUT_DEGREE (nr_out n) (n_out n) ignore_backedges
               (fun _ e => Node_t (nd_graph node) (e_consumer e))).

Definition pgm_get_edges_out (node : node_t) (edges : bool) (len : Z)
    (ignore_backedges : bool) : ST (pgm_state W) (Z * list edge_t) :=
  if negb edges then mret (-1, [])
  else
    ok ← is_valid_graph (nd_graph node);
    if negb ok then mret (-1, [])
    else
      locked (nd_graph node) (
        n ← rd_node (nd_graph node) (nd_node node);
        if len <? nr_out n then mret (-1, [])
        else collect (nd_graph node) PGM_MAX_OUT_DEGREE (nr_out n) (n_out n) ignore_backedges
               (fun x _ => Edge_t (nd_graph node) x)).

Definition pgm_get_predecessors (node : node_t) (predecessors : bool) (len : Z)
    (ignore_backedges : bool) : ST (pgm_state W) (Z * list node_t) :=
  if negb predecessors then mret (-1, [])
  else
    ok ← is_valid_graph (nd_graph node);
    if negb ok then mret (-1, [])
    else
      locked (nd_graph node) (
        n ← rd_node (nd_graph node) (nd_node node);
        if len <? nr_in n then mret (-1, [])
        else collect (nd_graph node) PGM_MAX_IN_DEGREE (nr_in n) (n_in n) ignore_backedges
               (fun _ e => Node_t (nd_graph node) (e_producer e))).

Definition pgm_get_edges_in (node : node_t) (edges : bool) (len : Z)
    (ignore_backedges : bool) : ST (pgm_state W) (Z * list edge_t) :=
  if negb edges then mret (-1, [])
  else
    ok ← is_valid_graph (nd_graph node);
    if negb ok then mret (-1, [])
    else
      locked (nd_graph node) (
        n ← rd_node (nd_graph node) (nd_node node);
        if len <? nr_in n then mret (-1, [])
        else collect (nd_graph node) PGM_MAX_IN_DEGREE (nr_in n) (n_in n) ignore_backedges
               (fun x _ => Edge_t (nd_graph node) x)).

(** ** Degrees *)

(** [for(...) if(!g->edges[list[i]].is_backedge) ++ret;] *)
Definition count_forward (graph size nr : Z) (l : gmap Z Z) (ret : Z) : ST (pgm_state W) Z :=
  for_acc (upto nr) ret (fun i ret =>
    x ← lift (aget size l i);
    e ← rd_edge graph x;
    mret (if negb (is_backedge e) then ret + 1 else ret)).

Definition pgm_get_degree_in (node : node_t) (ignore_backedges : bool) : ST (pgm_state W) Z :=
  ok ← is_valid_graph (nd_graph node);
  if negb ok then mret (-1)
  else
    locked (nd_graph node) (
      n ← rd_node (nd_graph node) (nd_node node);
      if negb ignore_backedges then mret (nr_in n)
      else count_forward (nd_graph node) PGM_MAX_IN_DEGREE (nr_in n) (n_in n) 0).

Definition pgm_get_degree_out (node : node_t) (ignore_backedges : bool) : ST (pgm_state W) Z :=
  ok ← is_valid_graph (nd_graph node);
  if negb ok then mret (-1)
  else
    locked (nd_graph node) (
      n ← rd_node (nd_graph node) (nd_node node);
      if negb ignore_backedges then mret (nr_out n)
      else count_forward (nd_graph node) PGM_MAX_OUT_DEGREE (nr_out n) (n_out n) 0).

Definition pgm_get_degree (node : node_t) (ignore_backedges : bool) : ST (pgm_state W) Z :=
  ok ← is_valid_graph (nd_graph node);
  if negb ok then mret (-1)
  else
    locked (nd_graph node) (
      n ← rd_node (nd_graph node) (nd_node node);
      if negb ignore_backedges then mret (nr_in n + nr_out n)
      else
        ret ← count_forward (nd_graph node) PGM_MAX_IN_DEGREE (nr_in n) (n_in n) 0;
        count_forward (nd_graph node) PGM_MAX_OUT_DEGREE (nr_out n) (n_out n) ret).

(** ** Parents and ancestors *)

Definition pgm_is_parent (node query : node_t) : ST (pgm_state W) Z :=
  if negb (nd_graph node =? nd_graph query) then mret (-1)
  else
    ok ← is_valid_graph (nd_graph node);
    if negb ok then mret (-1)
    else if nd_node node =? nd_node query then mret 0
    else
      let graph := nd_graph node in
      locked graph (
        n ← rd_node graph (nd_node node);
        r ← for_break (upto (nr_in n)) (fun i =>
          x ← lift (in_of n i);
          e ← rd_edge graph x;
          mret (if is_backedge e then None
                else if nd_node query =? e_producer e then Some tt else None));
        mret (match r with Some _ => 1 | None => 0 end)).

Definition pgm_is_child (node query : node_t) : ST (pgm_state W) Z := pgm_is_parent query node.

(** The recursive search, on the graph it reads and its set of visited nodes.
    The loop [for(i = 0; i < degree && !is_pred; ++i)] is [parents]. *)
Section Ancestor.
Context (g : pgm_graph) (q : Z).

Fixpoint parents (visit : Z -> gset Z -> outcome (bool * gset Z)) (nd : pgm_node)
    (idx : list Z) (visited : gset Z) : outcome (bool * gset Z) :=
  match idx with
  | [] => mret (false, visited)
  | i :: idx =>
      x ← in_of nd i;
      e ← edge_of g x;
      if is_backedge e then parents visit nd idx visited
      else
        let parent_idx := e_producer e in
        if bool_decide (parent_idx ∈ visited) then parents visit nd idx visited
        else
          '(is_pred, visited) ← visit parent_idx ({[parent_idx]} ∪ visited);
          if is_pred : bool then mret (true, visited) else parents visit nd idx visited
  end.

Fixpoint is_ancestor (fuel : nat) (n : Z) (visited : gset Z) : outcome (bool * gset Z) :=
  match fuel with
  | O => Fault OutOfFuel
  | S fuel =>
      if n =? q then mret (true, visited)
      else
        nd ← node_of g n;
        if nr_in nd =? 0 then mret (false, visited)
        else parents (is_ancestor fuel) nd (upto (nr_in nd)) visited
  end.

End Ancestor.

(** A search visits a node at most once, so [PGM_MAX_NODES] rounds suffice. *)
Definition dfs_fuel : nat := Z.to_nat (PGM_MAX_NODES + 1).
#[global] Arguments dfs_fuel : simpl never.

Definition pgm_is_ancestor (node query : node_t) : ST (pgm_state W) Z :=
  if negb (nd_graph node =? nd_graph query) then mret (-1)
  else
    ok ← is_valid_graph (nd_graph node);
    if negb ok then mret (-1)
    else if nd_node node =? nd_node query then mret 0
    else
      let graph := nd_graph node in
      locked graph (
        gr ← rd_graph graph;
        '(r, _) ← lift (is_ancestor gr (nd_node query) dfs_fuel (nd_node node) ∅);
        mret (if r : bool then 1 else 0)).

Definition pgm_is_descendant (n query : node_t) : ST (pgm_state W) Z := pgm_is_ancestor query n.

(** ** Cycles

    Nodes are identified by their names in [visited] and [path]. *)
Section Dag.
Context (g : pgm_graph) (ignore_explicit_backedges : bool).

Fixpoint dag_succs (visit : Z -> gset string -> gset string ->
      outcome (bool * gset string * gset string))
    (nd : pgm_node) (idx : list Z) (visited path : gset string)
    : outcome (bool * gset string * gset string) :=
  match idx with
  | [] => mret (true, visited, path)
  | i :: idx =>
      x ← out_of nd i;
      e ← edge_of g x;
      if ignore_explicit_backedges && is_backedge e then dag_succs visit nd idx visited path
      else
        succ ← node_of g (e_consumer e);
        successor_name ← std_string (n_name succ);
        if bool_decide (successor_name ∈ path) then mret (false, visited, path)
        else
          '(ok, visited, path) ← visit (e_consumer e) visited path;
          if negb ok then mret (false, visited, path) else dag_succs visit nd idx visited path
  end.

Fixpoint dag_visit (fuel : nat) (n : Z) (visited path : gset string)
    : outcome (bool * gset string * gset string) :=
  match fuel with
  | O => Fault OutOfFuel
  | S fuel =>
      nd ← node_of g n;
      name ← std_string (n_name nd);
      if bool_decide (name ∈ visited) then mret (true, visited, path)
      else
        '(ok, visited, path) ←
          dag_succs (dag_visit fuel) nd (upto (nr_out nd)) ({[name]} ∪ visited) ({[name]} ∪ path);
        mret (if negb ok then (false, visited, path) else (true, visited, path ∖ {[name]}))
  end.

(** [for(i = 0; i < g->nr_nodes && 1 == isDag; ++i)] *)
Fixpoint dag_roots (ns : list Z) (visited : gset string) : outcome bool :=
  match ns with
  | [] => mret true
  | i :: ns =>
      nd ← node_of g i;
      name ← std_string (n_name nd);
      if bool_decide (name ∈ visited) then dag_roots ns visited
      else
        '(ok, visited, _) ← dag_visit dfs_fuel i visited ∅;
        if negb ok then mret false else dag_roots ns visited
  end.

End Dag.

Definition pgm_is_dag (graph : Z) (ignore_explicit_backedges : bool) : ST (pgm_state W) Z :=
  ok ← is_valid_graph graph;
  if negb ok then mret 0
  else
    gr ← rd_graph graph;
    r ← lift (dag_roots gr ignore_explicit_backedges (upto (nr_nodes gr)) ∅);
    mret (if r : bool then 1 else 0).

End Query.

End Query.
