(* ===== verification/Search.v ===== *)
(** * The two depth-first searches are correct

    [pgm_is_ancestor] decides reachability over forward edges, and [pgm_is_dag]
    decides the absence of cycles, for every well-formed graph; both finish
    within the fuel the model gives them. *)

From S2P Require Import Prelude Ring Types Sys Structure Memory Ipc GraphInit GraphWf Teardown Query.
From stdpp Require Import relations.
From Stdlib Require Import Ascii.

#[local] Set Warnings "-clear-no-such-hyp".

Module Search.
Import Types Sys Structure GraphInit GraphWf Teardown Query.
#[local] Open Scope Z_scope.

(** ** Counting what is left to visit *)

Section Todo.
Context {K : Type} `{Countable K} (key : Z -> K).

(** How many of the nodes of [l] have no key in [V]. *)
Definition todo (l : list Z) (V : gset K) : nat :=
  List.length (filter (fun i => key i ∉ V) l).

Lemma todo_mono l (V V' : gset K) : V ⊆ V' -> (todo l V' <= todo l V)%nat.
Proof.
  intros HV. unfold todo. induction l as [|x l IH]; [done|]. rewrite !filter_cons.
  repeat case_decide; simpl; [lia | set_solver | lia | lia].
Qed.

Lemma todo_insert l (V : gset K) x :
  x ∈ l -> key x ∉ V -> (todo l ({[key x]} ∪ V) < todo l V)%nat.
Proof.
  intros Hx HV. apply list_elem_of_split in Hx as (l1 & l2 & ->). unfold todo.
  rewrite !filter_app, !length_app, !filter_cons.
  rewrite decide_False, decide_True by set_solver. simpl.
  pose proof (todo_mono l1 V ({[key x]} ∪ V) ltac:(set_solver)).
  pose proof (todo_mono l2 V ({[key x]} ∪ V) ltac:(set_solver)). unfold todo in *. lia.
Qed.

Lemma todo_le l (V : gset K) : (todo l V <= List.length l)%nat.
Proof. apply length_filter. Qed.

End Todo.

(** ** Ancestors *)

(** [p] is a parent of [n] over an edge that is not an explicit back edge. *)
Definition parent (g : pgm_graph) (n p : Z) : Prop :=
  exists e, e ∈ in_list (gnode g n) /\ is_backedge (gedge g e) = false /\
    e_producer (gedge g e) = p.

Definition is_node (g : pgm_graph) (n : Z) : Prop := 0 <= n < nr_nodes g.

Lemma parent_is_node g n p : graph_wf g -> is_node g n -> parent g n p -> is_node g p.
Proof.
  intros Hwf Hn (e & He & _ & <-). by apply (nw_in_edges g n (gw_node g Hwf n Hn)) in He as (_ & _ & ? & _).
Qed.

Section Ancestor.
Context (g : pgm_graph) (Hwf : graph_wf g) (q : Z).
Implicit Types (V : gset Z).

(** What a search from [n] that started with [V] visited reports. *)
Definition ancestor_post (n : Z) V (r : bool * gset Z) : Prop :=
  V ⊆ r.2 /\ (forall x, x ∈ r.2 -> is_node g x \/ x ∈ V) /\
  (if r.1 then rtc (parent g) n q
   else forall x, x = n \/ (x ∈ r.2 /\ x ∉ V) -> x <> q /\ forall p, parent g x p -> p ∈ r.2).

(** The same for the loop over the inbound edges at positions [idx]. *)
Definition parents_post (n : Z) (idx : list Z) V (r : bool * gset Z) : Prop :=
  V ⊆ r.2 /\ (forall x, x ∈ r.2 -> is_node g x \/ x ∈ V) /\
  (if r.1 then rtc (parent g) n q
   else (forall x, x ∈ r.2 -> x ∉ V -> x <> q /\ forall p, parent g x p -> p ∈ r.2) /\
        forall i, i ∈ idx -> let e := gedge g (cell (n_in (gnode g n)) i) in
          is_backedge e = false -> e_producer e ∈ r.2).

Lemma in_edge_at n i :
  is_node g n -> 0 <= i < nr_in (gnode g n) ->
  in_of (gnode g n) i = Ok (cell (n_in (gnode g n)) i) /\
  cell (n_in (gnode g n)) i ∈ in_list (gnode g n) /\
  edge_of g (cell (n_in (gnode g n)) i) = Ok (gedge g (cell (n_in (gnode g n)) i)).
Proof.
  intros Hn Hi. destruct (gw_node g Hwf n Hn). pose proof (gw_edges g Hwf).
  assert (Hin : cell (n_in (gnode g n)) i ∈ in_list (gnode g n)).
  { apply list_elem_of_fmap. exists i. split; [done|]. apply elem_of_upto. lia. }
  destruct (nw_in_edges0 _ Hin) as (? & _). unfold in_of, edge_of.
  rewrite !aget_ok by lia. done.
Qed.

Lemma parents_correct visit n idx V :
  is_node g n -> (forall i, i ∈ idx -> 0 <= i < nr_in (gnode g n)) ->
  (forall p V', is_node g p -> V ⊆ V' -> p ∉ V' ->
     exists r, visit p ({[p]} ∪ V') = Ok r /\ ancestor_post p ({[p]} ∪ V') r) ->
  exists r, parents g visit (gnode g n) idx V = Ok r /\ parents_post n idx V r.
Proof.
  revert V. induction idx as [|i idx IH]; intros V Hn His Hvisit; simpl.
  { exists (false, V). split; [done|]. split; [done|]. split; [by right|]. simpl. set_solver. }
  destruct (in_edge_at n i Hn) as (-> & Hin & He); [apply His; set_solver|]. simpl. rewrite He. simpl.
  set (e := gedge g (cell (n_in (gnode g n)) i)) in *.
  assert (Hskip : forall V1, V ⊆ V1 -> (is_backedge e = false -> e_producer e ∈ V1) ->
    (forall x, x ∈ V1 -> is_node g x \/ x ∈ V) ->
    (forall x, x ∈ V1 -> x ∉ V -> x <> q /\ forall p, parent g x p -> p ∈ V1) ->
    exists r, parents g visit (gnode g n) idx V1 = Ok r /\ parents_post n (i :: idx) V r).
  { intros V1 HV1 Hi Hnodes Hclosed.
    destruct (IH V1 Hn) as (r & E & Hsub & Hnd & Hr); [set_solver|intros; apply Hvisit; set_solver|].
    exists r. split; [done|]. split; [by transitivity V1|]. split.
    { intros x Hx. destruct (Hnd x Hx); auto. }
    destruct r as [[] V2]; simpl in *; [done|]. destruct Hr as [Hcl Hidx]. split.
    - intros x Hx HxV. destruct (decide (x ∈ V1)) as [Hx1|Hx1]; [|by apply Hcl].
      destruct (Hclosed x Hx1 HxV) as [? Hp]. split; [done|]. auto.
    - intros j [->|Hj]%elem_of_cons; [set_solver | by apply Hidx]. }
  destruct (is_backedge e) eqn:Hback; [apply Hskip; set_solver|].
  case_bool_decide as Hvis; [apply Hskip; set_solver|].
  assert (Hpar : parent g n (e_producer e)) by (by eexists).
  destruct (Hvisit (e_producer e) V) as ((b & V1) & -> & Hsub & Hnd & Hpost);
    [by eapply parent_is_node | done | done |]. simpl in *.
  pose proof (parent_is_node g n _ Hwf Hn Hpar). destruct b.
  - exists (true, V1). split; [done|]. split; [clear - Hsub; set_solver|].
    split; [clear - Hnd H; set_solver|]. simpl. by eapply rtc_l.
  - apply Hskip; [clear - Hsub; set_solver | clear - Hsub; set_solver | clear - Hnd H; set_solver |].
    intros x Hx HxV. apply Hpost.
    destruct (decide (x = e_producer e)); [by left | right; clear - Hx HxV n0; set_solver].
Qed.

Lemma is_ancestor_searches fuel n V :
  is_node g n -> n ∈ V \/ V = ∅ -> (todo (fun i => i) (upto (nr_nodes g)) V < fuel)%nat ->
  exists r, is_ancestor g q fuel n V = Ok r /\ ancestor_post n V r.
Proof.
  revert n V. induction fuel as [|fuel IH]; intros n V Hn HV Hfuel; [lia|]. simpl.
  destruct (Z.eqb_spec n q) as [->|Hq].
  { exists (true, V). split; [done|]. split; [done|]. split; [by right|]. simpl. done. }
  unfold node_of. rewrite aget_ok by (pose proof (gw_nodes g Hwf); unfold is_node in *; lia).
  simpl. fold (gnode g n).
  assert (Hempty : nr_in (gnode g n) = 0 -> forall p, ~ parent g n p).
  { intros E p (e & He & _). unfold in_list in He. rewrite E in He. by apply elem_of_nil in He. }
  destruct (Z.eqb_spec (nr_in (gnode g n)) 0) as [E|E].
  { exists (false, V). split; [done|]. split; [done|]. split; [by right|]. simpl.
    intros x [->|[]]; [|done]. split; [done|]. intros p Hp. by destruct (Hempty E p). }
  destruct (parents_correct (is_ancestor g q fuel) n (upto (nr_in (gnode g n))) V)
    as (r & -> & Hsub & Hnd & Hr); [done|intros i; apply elem_of_upto| |].
  { intros p V' Hp HV' Hnew. apply IH; [done|set_solver|].
    assert (Hlt : (todo (fun i => i) (upto (nr_nodes g)) ({[p]} ∪ V') <
                   todo (fun i => i) (upto (nr_nodes g)) V')%nat).
    { apply (todo_insert (fun i => i)); [by apply elem_of_upto | done]. }
    pose proof (todo_mono (fun i => i) (upto (nr_nodes g)) V V' HV'). lia. }
  exists r. split; [done|]. split; [done|]. split; [done|].
  destruct r as [[] V1]; simpl in *; [done|]. destruct Hr as [Hcl Hidx].
  intros x [->|[Hx HxV]]; [|by apply Hcl]. split; [done|].
  intros p (e & (i & -> & Hi)%list_elem_of_fmap & Hb & <-). by apply Hidx.
Qed.

End Ancestor.

Lemma length_upto n : List.length (upto n) = Z.to_nat n.
Proof. apply length_seqZ. Qed.

Lemma is_ancestor_decides g q n :
  graph_wf g -> is_node g n ->
  exists b V, is_ancestor g q dfs_fuel n ∅ = Ok (b, V) /\ (b = true <-> rtc (parent g) n q).
Proof.
  intros Hwf Hn.
  destruct (is_ancestor_searches g Hwf q dfs_fuel n ∅) as ((b & V) & E & _ & _ & Hr); [done|by right| |].
  { pose proof (todo_le (fun i => i) (upto (nr_nodes g)) (∅ : gset Z)).
    rewrite length_upto in *. pose proof (gw_nodes g Hwf). unfold dfs_fuel. lia. }
  exists b, V. split; [done|]. destruct b; [done|]. split; [done|]. simpl in Hr.
  intros Hpath. exfalso.
  assert (Hinv : forall x, rtc (parent g) n x -> x = n \/ x ∈ V).
  { intros x. apply (rtc_ind_r (fun x => x = n \/ x ∈ V)); [by left|].
    intros y z _ Hyz IH. right. apply (Hr y); [|done].
    destruct IH as [->|Hy]; [by left | right; split; [done | apply not_elem_of_empty]]. }
  destruct (Hr q) as [? _]; [|done].
  destruct (Hinv q Hpath); [by left | right; split; [done | apply not_elem_of_empty]].
Qed.

(** ** Cycles *)

(** [m] follows [n] over an edge the check looks at. *)
Definition follows (g : pgm_graph) (ign : bool) (n m : Z) : Prop :=
  exists e, e ∈ out_list (gnode g n) /\ ign && is_backedge (gedge g e) = false /\
    e_consumer (gedge g e) = m.

Definition acyclic (g : pgm_graph) (ign : bool) : Prop :=
  forall i, is_node g i -> ~ tc (follows g ign) i i.

Lemma follows_is_node g ign n m : graph_wf g -> is_node g n -> follows g ign n m -> is_node g m.
Proof.
  intros Hwf Hn (e & He & _ & <-).
  by apply (nw_out_edges g n (gw_node g Hwf n Hn)) in He as (_ & _ & ? & _).
Qed.

(** The name of node [i] as a [std::string]. *)
Definition name_of (g : pgm_graph) (i : Z) : string :=
  match std_string (n_name (gnode g i)) with Ok str => str | Fault _ => EmptyString end.

(** Node names are terminated and different. *)
Record names_ok (g : pgm_graph) : Prop := {
  no_term : forall i, is_node g i -> NUL ∈ n_name (gnode g i);
  no_inj : forall i j, is_node g i -> is_node g j -> name_of g i = name_of g j -> i = j
}.

Section Dag.
Context (g : pgm_graph) (Hwf : graph_wf g) (Hnames : names_ok g) (ign : bool).
#[local] Abbreviation nm := (name_of g).
#[local] Abbreviation nodes_of := (upto (nr_nodes g)).
Implicit Types (V P : gset string).

Lemma name_at i : is_node g i -> std_string (n_name (gnode g i)) = Ok (nm i).
Proof.
  intros Hi. pose proof (no_term g Hnames i Hi) as Ht. unfold name_of.
  destruct (std_string_terminated _ Ht) as [str ->]. done.
Qed.

Lemma node_at i : is_node g i -> node_of g i = Ok (gnode g i).
Proof.
  intros Hi. pose proof (gw_nodes g Hwf). unfold node_of. rewrite aget_ok; [done|].
  unfold is_node in Hi. lia.
Qed.

(** Every chain of followers from a finished node ends. *)
Definition ends (i : Z) : Prop := Acc (fun y x => follows g ign x y) i.

Lemma ends_no_cycle i : ends i -> ~ tc (follows g ign) i i.
Proof.
  induction 1 as [i _ IH]. intros Hc. inversion Hc as [x y Hxy|x y z Hxy Hyz]; subst.
  - apply (IH i Hxy). by apply tc_once.
  - apply (IH y Hxy). by apply tc_r with i.
Qed.

(** Nodes in [V] but not on the path [P] are finished. *)
Definition finished V P : Prop := forall i, is_node g i -> nm i ∈ V -> nm i ∉ P -> ends i.

(** All nodes on the path lead to [n]. *)
Definition leads P (n : Z) : Prop := forall i, is_node g i -> nm i ∈ P -> rtc (follows g ign) i n.

Definition has_cycle : Prop := exists i, is_node g i /\ tc (follows g ign) i i.

Definition visit_post (n : Z) V P (r : bool * gset string * gset string) : Prop :=
  let '(b, V', P') := r in
  if b then P' = P /\ V ⊆ V' /\ nm n ∈ V' /\ finished V' P else has_cycle.

Definition succs_post (n : Z) (idx : list Z) V P (r : bool * gset string * gset string) : Prop :=
  let '(b, V', P') := r in
  if b then P' = P /\ V ⊆ V' /\ finished V' P /\
    forall i, i ∈ idx -> let e := gedge g (cell (n_out (gnode g n)) i) in
      ign && is_backedge e = false -> nm (e_consumer e) ∈ V' /\ nm (e_consumer e) ∉ P
  else has_cycle.

Lemma out_edge_at n i :
  is_node g n -> 0 <= i < nr_out (gnode g n) ->
  out_of (gnode g n) i = Ok (cell (n_out (gnode g n)) i) /\
  cell (n_out (gnode g n)) i ∈ out_list (gnode g n) /\
  edge_of g (cell (n_out (gnode g n)) i) = Ok (gedge g (cell (n_out (gnode g n)) i)).
Proof.
  intros Hn Hi. destruct (gw_node g Hwf n Hn). pose proof (gw_edges g Hwf).
  assert (Hin : cell (n_out (gnode g n)) i ∈ out_list (gnode g n)).
  { apply list_elem_of_fmap. exists i. split; [done|]. apply elem_of_upto. lia. }
  destruct (nw_out_edges0 _ Hin) as (? & _). unfold out_of, edge_of.
  rewrite !aget_ok by lia. done.
Qed.

Lemma leads_step P n m : leads P n -> follows g ign n m -> leads P m.
Proof. intros HP Hm i Hi Hin. by eapply rtc_r; [apply HP|]. Qed.

Lemma path_cycle P n m :
  leads P n -> is_node g m -> follows g ign n m -> nm m ∈ P -> has_cycle.
Proof. intros HP Hm Hf Hin. exists m. split; [done|]. eapply tc_rtc_l; [by apply HP | by apply tc_once]. Qed.

Lemma dag_succs_correct visit n idx V P :
  is_node g n -> (forall i, i ∈ idx -> 0 <= i < nr_out (gnode g n)) ->
  leads P n -> finished V P ->
  (forall m V', is_node g m -> V ⊆ V' -> leads P m -> finished V' P -> nm m ∉ P ->
     exists r, visit m V' P = Ok r /\ visit_post m V' P r) ->
  exists r, dag_succs g ign visit (gnode g n) idx V P = Ok r /\ succs_post n idx V P r.
Proof.
  intros Hn. revert V. induction idx as [|i idx IH]; intros V Hidx HP HV Hvisit; simpl.
  { exists (true, V, P). split; [done|]. simpl. split_and!; [done|done|done|].
    intros i Hi. by apply elem_of_nil in Hi. }
  destruct (out_edge_at n i Hn) as (-> & Hin & He); [apply Hidx; by constructor|]. simpl.
  rewrite He. simpl. set (e := gedge g (cell (n_out (gnode g n)) i)) in *.
  assert (Hnext : forall V1, V ⊆ V1 -> finished V1 P ->
    (ign && is_backedge e = false -> nm (e_consumer e) ∈ V1 /\ nm (e_consumer e) ∉ P) ->
    exists r, dag_succs g ign visit (gnode g n) idx V1 P = Ok r /\ succs_post n (i :: idx) V P r).
  { intros V1 HV1 HF Hi. destruct (IH V1) as (((b & V2) & P2) & E & Hr).
    - intros j Hj. apply Hidx. by constructor.
    - done.
    - done.
    - intros m V' Hm HV'. apply Hvisit; [done|]. by transitivity V1.
    - eexists. split; [exact E|]. destruct b; [|done]. simpl in *.
      destruct Hr as (-> & HV2 & HF2 & Hj). split_and!; [done|by transitivity V1|done|].
      intros j [->|Hj']%elem_of_cons; [|by apply Hj]. intros Hb. destruct (Hi Hb). auto. }
  destruct (ign && is_backedge e) eqn:Hb; [by apply Hnext|].
  assert (Hf : follows g ign n (e_consumer e)) by (by eexists).
  pose proof (follows_is_node g ign n _ Hwf Hn Hf) as Hm.
  rewrite (node_at _ Hm). simpl. rewrite (name_at _ Hm). simpl. case_bool_decide as Hpath.
  { eexists. split; [done|]. simpl. by eapply path_cycle. }
  destruct (Hvisit (e_consumer e) V) as (((b & V1) & P1) & -> & Hr); try done.
  { by eapply leads_step. }
  simpl. destruct b; simpl; [|by eexists]. destruct Hr as (-> & HV1 & Hm1 & HF).
  by apply Hnext.
Qed.

Lemma ends_intro n idx V P :
  succs_post n idx V P (true, V, P) -> (forall i, 0 <= i < nr_out (gnode g n) -> i ∈ idx) ->
  is_node g n -> ends n.
Proof.
  intros (_ & _ & HF & Hi) Hidx Hn. constructor. intros m Hm.
  pose proof (follows_is_node g ign n m Hwf Hn Hm).
  destruct Hm as (e & (i & -> & Hin)%list_elem_of_fmap & Hb & <-).
  destruct (Hi i) as [Hv Hp]; [apply Hidx; by apply elem_of_upto | done |]. by apply HF.
Qed.

Lemma dag_visit_correct fuel n V P :
  is_node g n -> leads P n -> finished V P -> nm n ∉ P -> (todo nm nodes_of V < fuel)%nat ->
  exists r, dag_visit g ign fuel n V P = Ok r /\ visit_post n V P r.
Proof.
  revert n V P. induction fuel as [|fuel IH]; intros n V P Hn HP HF Hnp Hfuel; [lia|]. simpl.
  rewrite (node_at _ Hn). simpl. rewrite (name_at _ Hn). simpl. case_bool_decide as Hvis.
  { eexists. split; [done|]. by simpl. }
  assert (Hinj : forall i, is_node g i -> nm i = nm n -> i = n).
  { intros i Hi E. by apply (no_inj g Hnames). }
  assert (HP1 : leads ({[nm n]} ∪ P) n).
  { intros i Hi [E%elem_of_singleton|Hin]%elem_of_union; [by rewrite (Hinj i Hi E) | by apply HP]. }
  assert (HF1 : finished ({[nm n]} ∪ V) ({[nm n]} ∪ P)).
  { intros i Hi Hv Hp. apply HF; [done | clear - Hv Hp; set_solver | clear - Hp; set_solver]. }
  destruct (dag_succs_correct (dag_visit g ign fuel) n (upto (nr_out (gnode g n)))
    ({[nm n]} ∪ V) ({[nm n]} ∪ P) Hn) as (((b & V2) & P2) & -> & Hr); try done.
  { intros i. apply elem_of_upto. }
  { intros m V' Hm HV' Hlm HFm Hnm. apply IH; try done.
    pose proof (todo_insert nm nodes_of V n (proj2 (elem_of_upto _ _) Hn) Hvis).
    pose proof (todo_mono nm nodes_of _ V' HV'). lia. }
  simpl. destruct b; simpl; [|by eexists]. destruct Hr as (-> & HV2 & HF2 & Hidx).
  assert (Hends : ends n).
  { eapply (ends_intro n _ V2); [split_and!; try done|intros i; apply elem_of_upto|done]. }
  eexists. split; [done|]. simpl. split_and!.
  - clear - Hnp. set_solver.
  - clear - HV2. set_solver.
  - clear - HV2. set_solver.
  - intros i Hi Hv Hp. destruct (decide (nm i = nm n)) as [E|E]; [by rewrite (Hinj i Hi E)|].
    apply HF2; [done | done |]. clear - Hp E. set_solver.
Qed.

Lemma todo_fuel V : (todo nm nodes_of V < dfs_fuel)%nat.
Proof.
  pose proof (todo_le nm nodes_of V). rewrite length_upto in *. pose proof (gw_nodes g Hwf).
  unfold dfs_fuel. lia.
Qed.

#[local] Opaque dfs_fuel.

(** The outer loop over the nodes that are still to be tried. *)
Lemma dag_roots_correct ns V :
  (forall i, i ∈ ns -> is_node g i) -> finished V ∅ ->
  (forall i, is_node g i -> i ∈ ns \/ nm i ∈ V) ->
  exists b, dag_roots g ign ns V = Ok b /\
    if b then forall i, is_node g i -> ends i else has_cycle.
Proof.
  revert V. induction ns as [|n ns IH]; intros V Hns HF Hall; simpl.
  { exists true. split; [done|]. intros i Hi. apply HF; [done| |apply not_elem_of_empty].
    by destruct (Hall i Hi) as [?%elem_of_nil|]. }
  assert (Hn : is_node g n) by (apply Hns; by constructor).
  rewrite (node_at _ Hn). simpl. rewrite (name_at _ Hn). simpl. case_bool_decide as Hvis.
  { apply IH; [intros; apply Hns; by constructor | done |].
    intros i Hi. destruct (Hall i Hi) as [[->|]%elem_of_cons|]; auto. }
  destruct (dag_visit_correct dfs_fuel n V ∅) as (((b & V1) & P1) & -> & Hr);
    [done | by intros i Hi ?%not_elem_of_empty | done | apply not_elem_of_empty | apply todo_fuel |].
  simpl. destruct b; simpl; [|by eexists]. destruct Hr as (_ & HV1 & Hn1 & HF1).
  apply IH; [intros; apply Hns; by constructor | done |].
  intros i Hi. destruct (Hall i Hi) as [[->|]%elem_of_cons|]; auto.
Qed.

Lemma dag_roots_decides :
  exists b, dag_roots g ign nodes_of ∅ = Ok b /\ (b = true <-> acyclic g ign).
Proof.
  destruct (dag_roots_correct nodes_of ∅) as (b & E & Hb).
  - intros i. apply elem_of_upto.
  - intros i _ Hi. by apply not_elem_of_empty in Hi.
  - intros i Hi. left. by apply elem_of_upto.
  - exists b. split; [done|]. destruct b; (split; [|try done]).
    + intros _ i Hi. apply ends_no_cycle, Hb, Hi.
    + done.
    + destruct Hb as (i & Hi & Hc). intros Ha. by destruct (Ha i Hi).
Qed.

End Dag.

End Search.
