(* ===== verification/Lookup.v ===== *)
(** * Properties of the queries

    What the look-ups by name find, that the enumerations return exactly the
    listed neighbours, and what [pgm_is_parent], [pgm_is_ancestor] and
    [pgm_is_dag] decide.  None of the queries changes the process state. *)

From S2P Require Import Prelude Ring Types Sys Structure Memory Ipc GraphInit GraphWf Teardown Query Search.
From stdpp Require Import relations.
From Stdlib Require Import Ascii.

Module Lookup.
Import Types Sys Structure GraphInit GraphWf Teardown Query Search.
#[local] Open Scope Z_scope.
#[local] Opaque dfs_fuel.

(** ** Prefixes *)

Lemma strnlen_idem (b : list ascii) (max : nat) : strnlen b (strnlen b max) = strnlen b max.
Proof.
  revert b. induction max as [|max IH]; intros [|c b]; simpl; try done.
  case_bool_decide as Hc; [done|]. f_equal. apply IH.
Qed.

(** [strncmp] with the whole second string compares for "starts with". *)
Lemma strncmp_prefix (a b : list ascii) (n : nat) :
  strnlen b n = n -> strncmp_eq a b n = true <-> take n a = take n b.
Proof.
  revert a b. induction n as [|n IH]; intros a [|c b]; simpl; try done.
  case_bool_decide as Hc; [done|]. intros [= Hn]. destruct a as [|d a]; simpl.
  - by rewrite bool_decide_eq_false_2.
  - case_bool_decide as Hd; [subst d|split; [done|congruence]].
    rewrite bool_decide_eq_false_2 by done. rewrite IH by done. split; congruence.
Qed.

(** The buffer starts with the (at most [max]) characters of [name]. *)
Definition starts_with (buf name : list ascii) (max : nat) : Prop :=
  take (strnlen name max) buf = take (strnlen name max) name.

#[global] Instance starts_with_dec buf name max : Decision (starts_with buf name max).
Proof. unfold starts_with. apply _. Defined.

Lemma strncmp_starts buf name max :
  strncmp_eq buf name (strnlen name max) = bool_decide (starts_with buf name max).
Proof.
  apply eq_true_iff_eq. rewrite bool_decide_eq_true. apply strncmp_prefix, strnlen_idem.
Qed.

Section Lookup.
Context {W : Type}.
Implicit Types (s : pgm_state W) (gr : pgm_graph).

(** ** Reading under the lock *)

Lemma locked_reads {A} s g gr (body : ST (pgm_state W) A) (r : A) :
  has_graph s g gr -> in_use gr = true -> g_lock gr = false ->
  (forall s1, has_graph s1 g (gr <| g_lock := true |>) -> body s1 = Ok (r, s1)) ->
  locked g body s = Ok (r, s).
Proof.
  intros Hg Hu Hl Hbody. unfold locked. st_step.
  erewrite bind_step by (apply Hbody; eauto with pgm_st). cbv beta. st_step.
  unfold mret, ST_ret. by rewrite put_put, relock, put_graph_id.
Qed.

Lemma graph_wf_lock gr b : graph_wf gr -> graph_wf (gr <| g_lock := b |>).
Proof.
  intros []. split; [done | done | | done]. intros i Hi. destruct (gw_node0 i Hi). by split.
Qed.

(** ** Find by name *)

Definition find_named (l : list Z) (buf_of : Z -> list ascii) (name : list ascii) (max : nat)
    : option Z :=
  first_some (fun i => if bool_decide (starts_with (buf_of i) name max) then Some i else None) l.

Lemma find_node_result s g gr h name :
  has_graph s g gr -> in_use gr = true -> g_lock gr = false -> graph_wf gr ->
  bad_name_len name PGM_NODE_NAME_LEN = false ->
  pgm_find_node (Some h) g name s =
  Ok (match find_named (upto (nr_nodes gr)) (fun i => n_name (gnode gr i)) name PGM_NODE_NAME_LEN with
      | Some i => (0, Some (Node_t g i)) | None => (-1, Some h) end, s).
Proof.
  intros Hg Hu Hl Hwf Hn. unfold pgm_find_node. st_step. rewrite Hu, Hn. simpl.
  pose proof (gw_nodes gr Hwf). apply (locked_reads s g gr); [done..|].
  intros s1 Hs1. st_step. erewrite bind_step; [|eapply for_break_pure].
  2:{ intros i Hi%elem_of_upto. simpl in Hi. st_step. by rewrite strncmp_starts. }
  cbv beta. unfold find_named. by destruct (first_some _ _).
Qed.

(** The lowest index that starts with the name, if there is one. *)
Lemma find_named_cases n buf_of name max :
  match find_named (upto n) buf_of name max with
  | Some i => 0 <= i < n /\ starts_with (buf_of i) name max /\
      forall j, 0 <= j < i -> ~ starts_with (buf_of j) name max
  | None => forall j, 0 <= j < n -> ~ starts_with (buf_of j) name max
  end.
Proof.
  unfold find_named. destruct (first_some _ _) as [i|] eqn:E.
  - apply first_some_upto in E as (k & Hk & Ek & Hj).
    case_bool_decide as Hs; [|done]. injection Ek as ->. split_and!; try done; try lia.
    intros j Hji. specialize (Hj j Hji). by case_bool_decide.
  - intros j Hj. pose proof (proj1 (first_some_None _ _) E j (proj2 (elem_of_upto _ _) Hj)) as Ej.
    simpl in Ej. by case_bool_decide.
Qed.

(** [pgm_find_node] returns the node with the lowest index whose name starts
    with the given one (the comparison stops at the end of the name searched
    for), or -1 when there is none; nothing changes either way. *)
Theorem pgm_find_node_first s g gr h name :
  has_graph s g gr -> in_use gr = true -> g_lock gr = false -> graph_wf gr ->
  bad_name_len name PGM_NODE_NAME_LEN = false ->
  exists ret hd, pgm_find_node (Some h) g name s = Ok (ret, hd, s) /\
    ((exists i, ret = 0 /\ hd = Some (Node_t g i) /\ is_node gr i /\
        starts_with (n_name (gnode gr i)) name PGM_NODE_NAME_LEN /\
        forall j, 0 <= j < i -> ~ starts_with (n_name (gnode gr j)) name PGM_NODE_NAME_LEN) \/
     (ret = -1 /\ hd = Some h /\
        forall j, is_node gr j -> ~ starts_with (n_name (gnode gr j)) name PGM_NODE_NAME_LEN)).
Proof.
  intros Hg Hu Hl Hwf Hn. rewrite (find_node_result s g gr) by done.
  pose proof (find_named_cases (nr_nodes gr) (fun i => n_name (gnode gr i)) name PGM_NODE_NAME_LEN) as Hf.
  destruct (find_named _ _ _ _) as [i|]; do 2 eexists; (split; [done|]).
  - left. exists i. by destruct Hf as (? & ? & ?).
  - by right.
Qed.

(** ** Reachability and cycles *)

(** C24. [pgm_is_ancestor] on two nodes of a well-formed graph always returns, 1
    exactly when the query is a different node from which the node can be
    reached over edges that are not explicit back edges, and 0 otherwise. *)
Theorem pgm_is_ancestor_correct s g gr n q :
  has_graph s g gr -> in_use gr = true -> g_lock gr = false -> graph_wf gr ->
  is_node gr n -> is_node gr q ->
  exists ret, pgm_is_ancestor (Node_t g n) (Node_t g q) s = Ok (ret, s) /\
    ((ret = 1 /\ tc (parent gr) n q /\ n <> q) \/
     (ret = 0 /\ (n = q \/ ~ tc (parent gr) n q))).
Proof.
  intros Hg Hu Hl Hwf Hn Hq. unfold pgm_is_ancestor. simpl. rewrite Z.eqb_refl. simpl.
  st_step. rewrite Hu. simpl. destruct (Z.eqb_spec n q) as [->|Hnq].
  { exists 0. split; [done|]. right. by split; [|left]. }
  destruct (is_ancestor_decides (gr <| g_lock := true |>) q n) as (b & V & E & Hb);
    [by apply graph_wf_lock | done |].
  erewrite (locked_reads s g gr _ (if b then 1 else 0)); [|done..|].
  2:{ intros s1 Hs1. st_step. unfold lift. rewrite E. done. }
  change (parent (gr <| g_lock := true |>)) with (parent gr) in Hb.
  exists (if b then 1 else 0). split; [done|]. destruct b; [left|right]; split; try done.
  - split; [|done]. destruct (proj1 Hb eq_refl) as [|x y z Hxy Hyz]; [done|]. by eapply tc_rtc_r; [apply tc_once|].
  - right. intros Hc. by apply tc_rtc, Hb in Hc.
Qed.

(** C23. [pgm_is_dag] on a well-formed graph whose node names are terminated and
    pairwise different always returns, 1 exactly when no node can be reached from itself, over all edges
    or over all but the explicit back edges. *)
Theorem pgm_is_dag_correct s g gr ign :
  has_graph s g gr -> in_use gr = true -> graph_wf gr -> names_ok gr ->
  exists ret, pgm_is_dag g ign s = Ok (ret, s) /\
    ((ret = 1 /\ acyclic gr ign) \/ (ret = 0 /\ ~ acyclic gr ign)).
Proof.
  intros Hg Hu Hwf Hnames. unfold pgm_is_dag. st_step. rewrite Hu. simpl. st_step.
  destruct (dag_roots_decides gr Hwf Hnames ign) as (b & E & Hb). unfold lift. rewrite E.
  exists (if b then 1 else 0). split; [by destruct b|].
  destruct b; [left; split; [done | by apply Hb] | right; split; [done|]].
  intros Ha. by apply Hb in Ha.
Qed.

(** ** Enumerations *)

(** The listed edges a query looks at. *)
Definition looked_at gr (ign : bool) (l : list Z) : list Z :=
  filter (fun e => ign && is_backedge (gedge gr e) = false) l.

Lemma collect_fold {A} gr (ign : bool) (f : Z -> pgm_edge -> A) (l : gmap Z Z) (idx : list Z) k out :
  fold_left (fun acc i =>
      if ign && is_backedge (gedge gr (cell l i)) then (acc.1 - 1, acc.2)
      else (acc.1, acc.2 ++ [f (cell l i) (gedge gr (cell l i))])) idx (k, out) =
  (k - Z.of_nat (List.length idx) +
     Z.of_nat (List.length (looked_at gr ign (cell l <$> idx))),
   out ++ ((fun x => f x (gedge gr x)) <$> looked_at gr ign (cell l <$> idx))).
Proof.
  revert k out. induction idx as [|i idx IH]; intros k out; simpl.
  { rewrite app_nil_r. f_equal. lia. }
  unfold looked_at in *. rewrite filter_cons.
  destruct (ign && is_backedge (gedge gr (cell l i))) eqn:E; simpl; rewrite IH.
  - change (list_fmap Z Z (cell l) idx) with (cell l <$> idx). f_equal. lia.
  - change (list_fmap Z Z (cell l) idx) with (cell l <$> idx).
    rewrite <- app_assoc. simpl. f_equal. lia.
Qed.

(** What [collect] returns for a list of edges of the graph. *)
Lemma collect_runs {A} s g gr size nr (l : gmap Z Z) ign (f : Z -> pgm_edge -> A) :
  has_graph s g gr -> 0 <= nr <= size ->
  (forall x, x ∈ (cell l <$> upto nr) -> 0 <= x < PGM_MAX_EDGES) ->
  collect g size nr l ign f s =
  Ok (Z.of_nat (List.length (looked_at gr ign (cell l <$> upto nr))),
      (fun x => f x (gedge gr x)) <$> looked_at gr ign (cell l <$> upto nr), s).
Proof.
  intros Hg Hnr Hl. unfold collect.
  rewrite (for_acc_pure _ _ (fun i acc =>
    if ign && is_backedge (gedge gr (cell l i)) then (acc.1 - 1, acc.2)
    else (acc.1, acc.2 ++ [f (cell l i) (gedge gr (cell l i))]))).
  - rewrite collect_fold. do 3 f_equal. rewrite length_upto. lia.
  - intros i [num out] Hi%elem_of_upto. erewrite bind_step by (unfold lift; by rewrite aget_ok by lia).
    cbv beta. assert (0 <= cell l i < PGM_MAX_EDGES).
    { apply Hl, list_elem_of_fmap. exists i. by split; [|apply elem_of_upto]. }
    st_step. simpl. fold (gedge gr (cell l i)). by destruct (ign && _).
Qed.

(** Edges a node of a well-formed graph lists are inside the edge array. *)
Lemma listed_in_range gr n x :
  graph_wf gr -> is_node gr n -> x ∈ in_list (gnode gr n) \/ x ∈ out_list (gnode gr n) ->
  0 <= x < PGM_MAX_EDGES.
Proof.
  intros Hwf Hn Hx. destruct (gw_node gr Hwf n Hn). pose proof (gw_edges gr Hwf).
  destruct Hx as [Hx|Hx]; [apply nw_in_edges0 in Hx | apply nw_out_edges0 in Hx]; lia.
Qed.

Definition succs gr (g : Z) (ign : bool) (n : Z) : list node_t :=
  (fun e => Node_t g (e_consumer (gedge gr e))) <$> looked_at gr ign (out_list (gnode gr n)).
Definition preds gr (g : Z) (ign : bool) (n : Z) : list node_t :=
  (fun e => Node_t g (e_producer (gedge gr e))) <$> looked_at gr ign (in_list (gnode gr n)).

Lemma neighbours_result s g gr n len ign :
  has_graph s g gr -> in_use gr = true -> g_lock gr = false -> graph_wf gr -> is_node gr n ->
  pgm_get_successors (Node_t g n) true len ign s =
    Ok (if len <? nr_out (gnode gr n) then (-1, [])
        else (Z.of_nat (List.length (succs gr g ign n)), succs gr g ign n), s) /\
  pgm_get_predecessors (Node_t g n) true len ign s =
    Ok (if len <? nr_in (gnode gr n) then (-1, [])
        else (Z.of_nat (List.length (preds gr g ign n)), preds gr g ign n), s).
Proof.
  intros Hg Hu Hl Hwf Hn. pose proof (gw_nodes gr Hwf) as Hnn.
  assert (Hr : 0 <= n < PGM_MAX_NODES) by (unfold is_node in Hn; lia).
  destruct (gw_node gr Hwf n Hn) as [Hi Ho]. unfold succs, preds. rewrite !length_fmap.
  split; [unfold pgm_get_successors | unfold pgm_get_predecessors]; simpl;
    st_step; rewrite Hu; simpl; apply (locked_reads s g gr); try done;
    intros s1 Hs1; st_step; simpl; fold (gnode gr n); (destruct (len <? _); [done|]);
    (rewrite (collect_runs s1 g (gr <| g_lock := true |>)); [done | done | unfold PGM_MAX_IN_DEGREE, PGM_MAX_OUT_DEGREE in *; lia |]);
    intros x Hx; eapply (listed_in_range gr n); try done; auto.
Qed.


(** [pgm_get_edge_attrs] stores the attributes of the edge and returns -1, its
    error value, for every edge of every graph in use. *)
Theorem pgm_get_edge_attrs_reports_error s g gr e :
  has_graph s g gr -> in_use gr = true -> 0 <= e < PGM_MAX_EDGES ->
  pgm_get_edge_attrs (Edge_t g e) true s = Ok (-1, Some (e_attr (gedge gr e)), s).
Proof.
  intros Hg Hu He. unfold pgm_get_edge_attrs. simpl. st_step. rewrite Hu. simpl. st_step. done.
Qed.

End Lookup.

(** ** Concrete graphs *)

(** A condition-variable edge from node [p] to node [c], appended. *)
Definition demo_link (p c : Z) (gr : pgm_graph) : pgm_graph :=
  link_edge p c ((fresh_edge (Node_t 0 p) (Node_t 0 c) (lit "e") default_edge false 0)
    <| e_ops := Some pgm_cv_edge_ops |>) gr.

Definition demo_chain : pgm_graph := demo_link 0 1 demo_nodes.

Lemma demo_link_wf p c gr :
  graph_wf gr -> is_node gr p -> is_node gr c ->
  nr_out (gnode gr p) + 1 <> PGM_MAX_OUT_DEGREE -> nr_in (gnode gr c) + 1 <> PGM_MAX_IN_DEGREE ->
  nr_edges gr + 1 <> PGM_MAX_EDGES -> graph_wf (demo_link p c gr).
Proof. intros. by apply link_edge_wf. Qed.

Lemma demo_chain_wf : graph_wf demo_chain.
Proof. by apply demo_link_wf; [apply demo_nodes_wf|..]. Qed.

(** Nodes [a], [b], and a second [a], in a chain. *)
Definition twins : pgm_graph :=
  demo_link 1 2 (demo_link 0 1 (add_node (lit "a") (add_node (lit "b")
    (add_node (lit "a") demo_graph)))).

Lemma twins_out :
  out_list (gnode twins 0) = [0] /\ out_list (gnode twins 1) = [1] /\
  out_list (gnode twins 2) = [].
Proof. vm_compute. done. Qed.

Lemma twins_forward i j : follows twins false i j -> i < j.
Proof.
  intros (e & He & _ & <-).
  destruct (decide (i = 0)) as [->|H0]; [|destruct (decide (i = 1)) as [->|H1];
    [|destruct (decide (i = 2)) as [->|H2]]].
  - destruct twins_out as (E & _). rewrite E in He. apply list_elem_of_singleton in He as ->.
    vm_compute. reflexivity.
  - destruct twins_out as (_ & E & _). rewrite E in He. apply list_elem_of_singleton in He as ->.
    vm_compute. reflexivity.
  - destruct twins_out as (_ & _ & E). rewrite E in He. by apply elem_of_nil in He.
  - exfalso. assert (E : gnode twins i = zeroed).
    { unfold twins, demo_link. rewrite !gnode_link, !decide_False by done.
      by rewrite !gnode_add_node by done. }
    rewrite E in He. by apply elem_of_nil in He.
Qed.

(** Because [pgm_is_dag] tells nodes apart by name, two nodes of the same name
    make it reject an acyclic graph: a chain of three nodes, the first and the
    last of the same name, is reported as cyclic. *)
Theorem pgm_is_dag_confuses_names :
  acyclic twins false /\ pgm_is_dag 0 false (demo_state twins) = Ok (0, demo_state twins).
Proof.
  split; [|vm_compute; reflexivity]. intros i _ Hc.
  assert (Hlt : forall x y, tc (follows twins false) x y -> x < y).
  { intros x y. induction 1 as [x y Hxy|x y z Hxy _ IH]; [by apply twins_forward|].
    apply twins_forward in Hxy. lia. }
  apply Hlt in Hc. lia.
Qed.

Lemma demo_chain_state : has_graph (demo_state demo_chain) 0 demo_chain.
Proof. by apply demo_usable. Qed.

Lemma pgm_find_node_first_witness :
  exists ret hd, pgm_find_node (Some (Node_t 0 0)) 0 (lit "b") (demo_state demo_nodes) =
    Ok (ret, hd, demo_state demo_nodes).
Proof.
  destruct (pgm_find_node_first (demo_state demo_nodes) 0 demo_nodes (Node_t 0 0) (lit "b"))
    as (ret & hd & E & _); [by apply demo_usable | done | done | apply demo_nodes_wf | done |].
  by exists ret, hd.
Defined.

Lemma pgm_is_ancestor_correct_witness :
  exists ret, pgm_is_ancestor (Node_t 0 1) (Node_t 0 0) (demo_state demo_chain) =
    Ok (ret, demo_state demo_chain).
Proof.
  destruct (pgm_is_ancestor_correct (demo_state demo_chain) 0 demo_chain 1 0) as (ret & E & _);
    [apply demo_chain_state | done | done | apply demo_chain_wf | done | done |].
  by exists ret.
Defined.

Lemma demo_chain_names : names_ok demo_chain.
Proof.
  assert (Hn : forall i, is_node demo_chain i -> i = 0 \/ i = 1).
  { intros i [Hi Hi']. change (nr_nodes demo_chain) with 2 in Hi'. lia. }
  split.
  - intros i [->| ->]%Hn; apply (bool_decide_eq_true_1 (NUL ∈ _)); vm_compute; reflexivity.
  - intros i j [->| ->]%Hn [->| ->]%Hn; vm_compute; done.
Qed.

Lemma pgm_is_dag_correct_witness :
  exists ret, pgm_is_dag 0 true (demo_state demo_chain) = Ok (ret, demo_state demo_chain).
Proof.
  destruct (pgm_is_dag_correct (demo_state demo_chain) 0 demo_chain true) as (ret & E & _);
    [apply demo_chain_state | done | apply demo_chain_wf | apply demo_chain_names |].
  by exists ret.
Defined.


Lemma pgm_get_edge_attrs_reports_error_witness :
  pgm_get_edge_attrs (Edge_t 0 0) true (demo_state demo_chain) =
  Ok (-1, Some default_edge, demo_state demo_chain).
Proof.
  apply (pgm_get_edge_attrs_reports_error (demo_state demo_chain) 0 demo_chain 0);
    [apply demo_chain_state | done | done].
Defined.

End Lookup.
