(* ===== verification/Double.v ===== *)
(** * The type [double]

    IEEE 754 binary64 as the Standard Library's [SpecFloat] defines it, computed
    with integers.  The depth queries and the driver use sums, products and
    comparisons of doubles; the lemmas are about the order and about doubles
    that hold small integers. *)

From S2P Require Import Prelude.
From Stdlib Require Import SpecFloat.

Module Double.

Abbreviation double := spec_float.

Definition dadd : double -> double -> double := SFadd 53 1024.
Definition dmul : double -> double -> double := SFmul 53 1024.
Definition ddiv : double -> double -> double := SFdiv 53 1024.
Definition dltb (x y : double) : bool := SFltb x y.
Definition deqb (x y : double) : bool := SFeqb x y.

(** The double nearest to an integer. *)
Definition dofZ (z : Z) : double := binary_normalize 53 1024 z 0 false.

(** [std::numeric_limits<double>::max()] *)
Definition DBL_MAX : double := S754_finite false (2 ^ 53 - 1) 971.

(** [std::min(a, b)] *)
Definition std_min (a b : double) : double := if dltb b a then b else a.

(** [(uint64_t)x]: truncation, undefined for what does not fit. *)
Definition to_uint64 (x : double) : option Z :=
  match x with
  | S754_zero _ => Some 0
  | S754_finite s m e =>
      let z := if e <? 0 then Z.shiftr (Zpos m) (- e) else Z.shiftl (Zpos m) e in
      if s then if z =? 0 then Some 0 else None
      else if z <? 2 ^ 64 then Some z else None
  | _ => None
  end.

(** [(int)x] *)
Definition to_int (x : double) : option Z :=
  match x with
  | S754_zero _ => Some 0
  | S754_finite s m e =>
      let z := if e <? 0 then Z.shiftr (Zpos m) (- e) else Z.shiftl (Zpos m) e in
      let z := if s then - z else z in
      if (-2 ^ 31 <=? z) && (z <? 2 ^ 31) then Some z else None
  | _ => None
  end.

#[export] Instance double_eq_dec : EqDecision double.
Proof. intros x y. unfold Decision. repeat decide equality. Defined.

(** ** Order *)

Lemma dltb_trans x y z : dltb x y = true -> dltb y z = true -> dltb x z = true.
Proof.
  unfold dltb, SFltb, SFcompare.
  destruct x as [|[]| |[] m1 e1], y as [|[]| |[] m2 e2], z as [|[]| |[] m3 e3]; try done;
    change (Pos.compare_cont Eq m1 m2) with (Pos.compare m1 m2) in *;
    change (Pos.compare_cont Eq m2 m3) with (Pos.compare m2 m3) in *;
    change (Pos.compare_cont Eq m1 m3) with (Pos.compare m1 m3) in *;
  destruct (Z.compare_spec e1 e2), (Z.compare_spec e2 e3), (Z.compare_spec e1 e3),
    (Pos.compare_spec m1 m2), (Pos.compare_spec m2 m3), (Pos.compare_spec m1 m3); simpl; try done; lia.
Qed.

Lemma dltb_irrefl x : dltb x x = false.
Proof.
  unfold dltb, SFltb, SFcompare. destruct x as [|[]| |[] m e]; try done;
    rewrite Z.compare_refl; change (Pos.compare_cont Eq m m) with (Pos.compare m m); by rewrite Pos.compare_refl.
Qed.

Lemma dltb_asym x y : dltb x y = true -> dltb y x = false.
Proof.
  intros H. destruct (dltb y x) eqn:E; [|done]. by rewrite <- (dltb_irrefl x), (dltb_trans x y x).
Qed.

(** ** Small integers *)

(** As many as a graph has nodes. *)
Definition small (z : Z) : Prop := -4096 <= z <= 4096.

Lemma dofZ_next z : -4096 <= z < 4096 -> dltb (dofZ z) (dofZ (z + 1)) = true.
Proof.
  intros Hz. assert (H : forallb (fun z => dltb (dofZ z) (dofZ (z + 1))) (seqZ (-4096) 8192) = true)
    by (vm_compute; reflexivity).
  rewrite forallb_forall in H. apply H, list_elem_of_In, elem_of_seqZ. lia.
Qed.

Lemma dofZ_lt a b : small a -> small b -> a < b -> dltb (dofZ a) (dofZ b) = true.
Proof.
  intros Ha Hb Hlt. unfold small in *. replace b with (a + 1 + Z.of_nat (Z.to_nat (b - a - 1))) in * by lia.
  set (k := Z.to_nat (b - a - 1)) in *. clearbody k. clear Hlt. induction k as [|k IH].
  - rewrite Z.add_0_r. apply dofZ_next. lia.
  - eapply dltb_trans; [apply IH; lia|].
    replace (a + 1 + Z.of_nat (S k)) with (a + 1 + Z.of_nat k + 1) by lia. apply dofZ_next. lia.
Qed.

Lemma dofZ_ltb a b : small a -> small b -> dltb (dofZ a) (dofZ b) = (a <? b).
Proof.
  intros Ha Hb. destruct (Z.ltb_spec a b) as [|Hge]; [by apply dofZ_lt|].
  destruct (decide (a = b)) as [->|Hne]; [apply dltb_irrefl|]. apply dltb_asym, dofZ_lt; [done..|lia].
Qed.

Lemma dofZ_max z : small z -> dltb (dofZ z) DBL_MAX = true.
Proof.
  intros Hz. assert (H : dltb (dofZ 4096) DBL_MAX = true) by done.
  destruct (decide (z = 4096)) as [->|Hne]; [done|].
  eapply dltb_trans; [apply (dofZ_lt z 4096); unfold small in *; lia|done].
Qed.

Lemma std_min_small a b : small a -> small b -> std_min (dofZ a) (dofZ b) = dofZ (Z.min a b).
Proof.
  intros Ha Hb. unfold std_min. rewrite dofZ_ltb by done. destruct (Z.ltb_spec b a); f_equal; lia.
Qed.

Lemma std_min_max z : small z -> std_min DBL_MAX (dofZ z) = dofZ z.
Proof. intros Hz. unfold std_min. by rewrite dofZ_max. Qed.

Lemma std_min_max_r z : small z -> std_min (dofZ z) DBL_MAX = dofZ z.
Proof. intros Hz. unfold std_min. by rewrite dltb_asym by by apply dofZ_max. Qed.

(** Up to the sign of zero. *)
Lemma dmul_neg z : small z -> deqb (dmul (dofZ z) (dofZ (-1))) (dofZ (- z)) = true.
Proof.
  intros Hz. unfold small in Hz.
  assert (H : forallb (fun z => deqb (dmul (dofZ z) (dofZ (-1))) (dofZ (- z))) (seqZ (-4096) 8193) = true)
    by (vm_compute; reflexivity).
  rewrite forallb_forall in H. apply H, list_elem_of_In, elem_of_seqZ. lia.
Qed.

Lemma dmul_neg_exact z : 1 <= z <= 4096 -> dmul (dofZ (-1)) (dofZ z) = dofZ (- z).
Proof.
  intros Hz. assert (H : forallb (fun z => bool_decide (dmul (dofZ (-1)) (dofZ z) = dofZ (- z))) (seqZ 1 4096) = true)
    by (vm_compute; reflexivity).
  rewrite forallb_forall in H. eapply bool_decide_eq_true_1, H, list_elem_of_In, elem_of_seqZ. lia.
Qed.

End Double.
