(* ===== verification/Depth.v ===== *)
(** * Longest and shortest paths (src/pgm.cpp, "Longest/Shortest Path Routines")

    [pgm_get_max_depth] and [pgm_get_min_depth] copy the forward edges into a
    Boost graph, run Boost's Bellman-Ford or Dijkstra algorithm from every
    source, and take the best result.  The two algorithms are parameters, and
    what Boost documents of them is the class [BoostLaws]: the weight of a best
    path, or the largest double where there is none.  Shown is that with
    positive integer weights the calls return the weight of a heaviest path into
    the node and of a lightest path from a source; without a weight function,
    the number of edges of a longest and of a shortest one. *)

From S2P Require Import Prelude Double Types Sys Structure GraphInit GraphWf Query Search Lookup.

Module Depth.
Import Double Types Sys Structure GraphInit GraphWf Query Search Lookup.
#[local] Open Scope Z_scope.

(** ** The code *)

(** [boost::bellman_ford_shortest_paths] on a graph given by its number of
    vertices, its edges and their weights, and the initial distances; and
    [boost::dijkstra_shortest_paths] from a vertex, which initialises them. *)
Class Boost := {
  bellman_ford : Z -> list (Z * Z) -> list double -> list double -> list double;
  dijkstra : Z -> list (Z * Z) -> list double -> Z -> list double
}.

Section Code.
Context {W : Type} `{Syscalls W} `{Boost}.

(** A [pgm_weight_func_t] with its [user] pointer. *)
Definition pgm_weight_func_t : Type := edge_t -> ST (pgm_state W) double.

(** The edges that are not back edges: their index, producer and consumer. *)
Definition forward_edges (graph : Z) : ST (pgm_state W) (list (Z * (Z * Z))) :=
  g ← rd_graph graph;
  for_acc (upto (nr_edges g)) [] (fun i acc =>
    e ← rd_edge graph i;
    mret (if is_backedge e then acc else acc ++ [(i, (e_producer e, e_consumer e))])).

(** The weights, [unit] without a weight function. *)
Definition edge_weights (graph : Z) (fwd : list (Z * (Z * Z))) (wfunc : option pgm_weight_func_t)
    (scale : double -> double) (unit : double) : ST (pgm_state W) (list double) :=
  match wfunc with
  | Some w =>
      for_acc fwd [] (fun e acc =>
        x ← w (Edge_t graph e.1);
        mret (acc ++ [scale x]))
  | None => mret (replicate (length fwd) unit)
  end.

(** The loop over the sources: [near i] are the distances from [i], [clean]
    replaces the distance of a vertex that was not reached. *)
Definition best_source (graph target : Z) (near : Z -> list double) (clean : double -> double)
    : ST (pgm_state W) double :=
  g ← rd_graph graph;
  for_acc (upto (nr_nodes g)) DBL_MAX (fun i dist =>
    n ← rd_node graph i;
    nr_forward_in ← count_forward graph PGM_MAX_IN_DEGREE (nr_in n) (n_in n) 0;
    if negb (nr_forward_in =? 0) then mret dist
    else
      adist ← lift (match near i !! Z.to_nat target with
                    | Some x => Ok x
                    | None => Fault OutOfBounds
                    end);
      mret (std_min dist (clean adist))).

(** [std::fill(d.begin(), d.end(), max()); d[i] = 0.0;] *)
Definition dist_init (n i : Z) : list double :=
  <[Z.to_nat i := dofZ 0]> (replicate (Z.to_nat n) DBL_MAX).

Definition pgm_get_max_depth (target : node_t) (wfunc : option pgm_weight_func_t)
    : ST (pgm_state W) double :=
  ok ← is_valid_graph (nd_graph target);
  if negb ok then mret (dofZ (-1)) else
  dag ← pgm_is_dag (nd_graph target) true;
  if dag =? 0 then mret (dofZ (-1)) else
  if nd_node target <? 0 then mret (dofZ (-1)) else
  locked (nd_graph target) (
    g ← rd_graph (nd_graph target);
    if nr_nodes g <=? nd_node target then mret (dofZ (-1))
    else
      fwd ← forward_edges (nd_graph target);
      weights ← edge_weights (nd_graph target) fwd wfunc (dmul (dofZ (-1))) (dofZ (-1));
      dist ← best_source (nd_graph target) (nd_node target)
        (fun i => bellman_ford (nr_nodes g) fwd.*2 weights (dist_init (nr_nodes g) i))
        (fun adist => if dltb (dofZ 0) adist then DBL_MAX else adist);
      mret (dmul dist (dofZ (-1)))).

Definition pgm_get_min_depth (target : node_t) (wfunc : option pgm_weight_func_t)
    : ST (pgm_state W) double :=
  ok ← is_valid_graph (nd_graph target);
  if negb ok then mret (dofZ (-1)) else
  dag ← pgm_is_dag (nd_graph target) true;
  if dag =? 0 then mret (dofZ (-1)) else
  if nd_node target <? 0 then mret (dofZ (-1)) else
  locked (nd_graph target) (
    g ← rd_graph (nd_graph target);
    if nr_nodes g <=? nd_node target then mret (dofZ (-1))
    else
      fwd ← forward_edges (nd_graph target);
      weights ← edge_weights (nd_graph target) fwd wfunc (fun x => x) (dofZ 1);
      best_source (nd_graph target) (nd_node target)
        (fun i => dijkstra (nr_nodes g) fwd.*2 weights i)
        (fun adist => if dltb adist (dofZ 0) then DBL_MAX else adist)).

End Code.

(** ** Walks *)

Definition arc (es : list (Z * Z)) (a b : Z) : Prop := (a, b) ∈ es.

(** The arcs stay among the vertices [0 .. n-1] and do not close a circle. *)
Record dag (n : Z) (es : list (Z * Z)) : Prop := {
  da_range a b : arc es a b -> 0 <= a < n /\ 0 <= b < n;
  da_acyclic a : ~ tc (arc es) a a
}.

Definition entry (n : Z) (es : list (Z * Z)) (i : Z) : Prop := 0 <= i < n /\ forall a, ~ arc es a i.

(** A walk and the sum of the weights along it. *)
Inductive wwalk (es : list (Z * Z)) (ws : list Z) : Z -> Z -> Z -> Prop :=
| wwalk_nil a : wwalk es ws 0 a a
| wwalk_cons a b c w k : ((a, b), w) ∈ zip es ws -> wwalk es ws k b c -> wwalk es ws (w + k) a c.

(** Positive integers, and walks light enough that doubles add them exactly. *)
Record weights_ok (es : list (Z * Z)) (ws : list Z) : Prop := {
  wo_length : length ws = length es;
  wo_pos e w : (e, w) ∈ zip es ws -> 1 <= w;
  wo_total k a b : wwalk es ws k a b -> k <= 4096
}.

(** What Boost promises of graphs without circles whose weights, negated for
    Bellman-Ford, are such integers. *)
Class BoostLaws `(Boost) : Prop := {
  bf_law n es ws i v :
    n <= PGM_MAX_NODES -> dag n es -> weights_ok es ws -> 0 <= i < n -> 0 <= v < n ->
    (exists k, wwalk es ws k i v /\ (forall j, wwalk es ws j i v -> j <= k) /\
       bellman_ford n es ((fun w => dofZ (- w)) <$> ws) (dist_init n i) !! Z.to_nat v = Some (dofZ (- k))) \/
    ((forall k, ~ wwalk es ws k i v) /\
       bellman_ford n es ((fun w => dofZ (- w)) <$> ws) (dist_init n i) !! Z.to_nat v = Some DBL_MAX);
  dj_law n es ws i v :
    n <= PGM_MAX_NODES -> dag n es -> weights_ok es ws -> 0 <= i < n -> 0 <= v < n ->
    (exists k, wwalk es ws k i v /\ (forall j, wwalk es ws j i v -> k <= j) /\
       dijkstra n es (dofZ <$> ws) i !! Z.to_nat v = Some (dofZ k)) \/
    ((forall k, ~ wwalk es ws k i v) /\
       dijkstra n es (dofZ <$> ws) i !! Z.to_nat v = Some DBL_MAX)
}.

Section Walks.
Context (n : Z) (es : list (Z * Z)) (Hdag : dag n es).

Lemma arc_range a b : arc es a b -> 0 <= a < n /\ 0 <= b < n.
Proof. apply Hdag. Qed.

(** A walk does not meet a vertex twice. *)
Lemma walk_vertices k a b :
  nsteps (arc es) k a b -> 0 <= a < n ->
  exists l, length l = S k /\ NoDup l /\ forall x, x ∈ l -> 0 <= x < n /\ rtc (arc es) a x.
Proof.
  intros Hw. induction Hw as [a|k a b c Hab Hw IH]; intros Ha.
  - exists [a]. split_and!; [done|apply NoDup_singleton|]. intros x ->%list_elem_of_singleton. done.
  - destruct IH as (l & Hl & Hn & Hin); [by apply (arc_range a b)|]. exists (a :: l). split_and!.
    + simpl. lia.
    + apply NoDup_cons. split; [|done]. intros Hal. destruct (Hin a Hal) as [_ Hr].
      apply (da_acyclic _ _ Hdag a). by eapply tc_rtc_r; [apply tc_once|].
    + intros x [->|Hx]%elem_of_cons; [done|]. destruct (Hin x Hx). split; [done|]. by eapply rtc_l.
Qed.

Lemma walk_short k a b : nsteps (arc es) k a b -> 0 <= a < n -> Z.of_nat k < n.
Proof.
  intros Hw Ha. destruct (walk_vertices k a b Hw Ha) as (l & Hl & Hn & Hin).
  assert (length l <= length (seqZ 0 n))%nat.
  { apply submseteq_length, NoDup_submseteq; [done|]. intros x Hx. apply elem_of_seqZ. apply Hin in Hx. lia. }
  rewrite length_seqZ in *. lia.
Qed.

#[local] Instance has_arc_dec v : Decision (exists a, arc es a v).
Proof.
  assert (E : Exists (fun e => e.2 = v) es <-> exists a, arc es a v).
  { rewrite Exists_exists. unfold arc. split; [intros ([a b] & Hin & <-); eauto|intros [a Ha]; by exists (a, v)]. }
  destruct (decide (Exists (fun e => e.2 = v) es)) as [He|He]; [left|right]; by rewrite <- E.
Defined.

(** Walking backwards ends at an entry. *)
Lemma from_entry v : 0 <= v < n -> exists i k, entry n es i /\ nsteps (arc es) k i v.
Proof.
  intros Hv.
  assert (Hback : forall j, (exists i k, entry n es i /\ nsteps (arc es) k i v) \/
    exists a, 0 <= a < n /\ nsteps (arc es) j a v).
  { induction j as [|j [IH|(a & Ha & Hj)]]; [right; exists v; by split; [|constructor]|by left|].
    destruct (decide (exists b, arc es b a)) as [[b Hb]|Hno].
    - right. exists b. split; [by apply (arc_range b a)|]. by econstructor.
    - left. exists a, j. split; [|done]. split; [done|]. naive_solver. }
  destruct (Hback (Z.to_nat n)) as [|(a & Ha & Hj)]; [done|]. apply walk_short in Hj; lia.
Qed.

Lemma wwalk_app ws k a b j c : wwalk es ws k a b -> wwalk es ws j b c -> wwalk es ws (k + j) a c.
Proof.
  intros Hk Hj. induction Hk as [a|a b' b w k Hab Hk IH]; [done|].
  rewrite <- Z.add_assoc. by eapply wwalk_cons; [|apply IH].
Qed.

Lemma wwalk_steps ws k a b : wwalk es ws k a b -> exists m, nsteps (arc es) m a b.
Proof.
  induction 1 as [a|a b c w k Hab _ [m Hm]]; [exists 0%nat; constructor|]. exists (S m).
  econstructor; [|done]. by apply elem_of_zip_l in Hab.
Qed.

Lemma wwalk_nonneg ws k a b : weights_ok es ws -> wwalk es ws k a b -> 0 <= k.
Proof. intros Hw. induction 1 as [a|a b c w k Hab _ IH]; [done|]. pose proof (wo_pos _ _ Hw _ _ Hab). lia. Qed.

(** Every arc has a weight. *)
Lemma steps_wwalk ws m a b : length ws = length es -> nsteps (arc es) m a b -> exists k, wwalk es ws k a b.
Proof.
  intros Hlen. induction 1 as [a|m a b c Hab _ [k Hk]]; [exists 0; constructor|].
  apply list_elem_of_lookup in Hab as [p Hp].
  destruct (lookup_lt_is_Some_2 ws p) as [w Hw]; [rewrite Hlen; by eapply lookup_lt_Some|].
  exists (w + k). eapply wwalk_cons; [|done]. apply list_elem_of_lookup. exists p.
  apply lookup_zip_with_Some. by exists (a, b), w.
Qed.

End Walks.

(** ** The loop over the sources

    [val k] is the distance the loop works with for a walk of weight [k], and
    [better] says which of two weights it prefers. *)

Section Best.
Context (n : Z) (es : list (Z * Z)) (t : Z) (walk : Z -> Z -> Z -> Prop) (val : Z -> double)
  (better : Z -> Z -> Prop) (res : Z -> double).
Context `{!PreOrder better}.

Definition fits (k : Z) : Prop := 0 <= k <= 4096.

Hypothesis Hres : forall i, entry n es i ->
  (exists k, fits k /\ walk k i t /\ (forall j, walk j i t -> better k j) /\
     res i = val k) \/
  ((forall j, ~ walk j i t) /\ res i = DBL_MAX).
Hypothesis Hmin : forall a b, fits a -> fits b ->
  exists c, (c = a \/ c = b) /\ better c a /\ better c b /\ std_min (val a) (val b) = val c.
Hypothesis Hmax : forall a, fits a -> std_min DBL_MAX (val a) = val a /\ std_min (val a) DBL_MAX = val a.

(** [d] is right for the entries among [P]. *)
Definition best (P : Z -> Prop) (d : double) : Prop :=
  (d = DBL_MAX /\ forall i j, P i -> entry n es i -> ~ walk j i t) \/
  exists k, fits k /\ d = val k /\ (exists i, entry n es i /\ walk k i t) /\
    forall i j, P i -> entry n es i -> walk j i t -> better k j.

Lemma best_step P d i :
  entry n es i -> best P d -> best (fun x => P x \/ x = i) (std_min d (res i)).
Proof.
  intros Hi Hd. destruct (Hres i Hi) as [(k & Hk & Hw & Hall & ->)|[Hno ->]], Hd as [[-> Hd]|(k' & Hk' & -> & (i' & Hi' & Hw') & Hd)].
  - right. exists k. destruct (Hmax k Hk) as [-> _]. split_and!; [done..|by eauto|].
    intros x j [Hx| ->] Hx' Hj; [by destruct (Hd x j)|auto].
  - right. destruct (Hmin k' k Hk' Hk) as (c & Hc & B1 & B2 & ->). exists c. split_and!.
    + by destruct Hc as [-> | ->].
    + done.
    + destruct Hc as [-> | ->]; eauto.
    + intros x j [Hx| ->] Hx' Hj; [transitivity k'|transitivity k]; eauto.
  - left. split; [done|]. intros x j [Hx| ->] Hx'; [by apply Hd|apply Hno].
  - right. exists k'. destruct (Hmax k' Hk') as [_ ->]. split_and!; [done..|by eauto|].
    intros x j [Hx| ->] Hx' Hj; [by eauto|by destruct (Hno j)].
Qed.

Lemma best_skip P d i : ~ entry n es i -> best P d -> best (fun x => P x \/ x = i) d.
Proof.
  intros Hi [[-> Hd]|(k & Hk & -> & He & Hd)]; [left|right; exists k]; split_and!; try done; naive_solver.
Qed.

Lemma best_fold (is_entry : Z -> bool) l P d :
  (forall i, i ∈ l -> is_entry i = true <-> entry n es i) -> best P d ->
  best (fun x => P x \/ x ∈ l)
    (fold_left (fun d i => if is_entry i then std_min d (res i) else d) l d).
Proof.
  revert P d. induction l as [|i l IH]; intros P d Hl Hd; simpl.
  - destruct Hd as [[-> Hd]|(k & Hk & -> & He & Hd)]; [left|right; exists k]; split_and!; try done;
      intros x j [Hx|Hx]; (by inversion Hx) || by eauto.
  - assert (Hd' : best (fun x => (P x \/ x = i) \/ x ∈ l)
      (fold_left (fun d i => if is_entry i then std_min d (res i) else d) l
        (if is_entry i then std_min d (res i) else d))).
    { apply IH; [intros j Hj; apply Hl; by constructor|].
      assert (Hi : is_entry i = true <-> entry n es i) by (apply Hl; constructor).
      destruct (is_entry i); [apply best_step|apply best_skip]; try done; [by apply Hi|].
      intros He. by apply Hi in He. }
    destruct Hd' as [[-> Hd']|(k & Hk & -> & He & Hd')]; [left|right; exists k]; split_and!; try done;
      intros x j Hx; apply Hd'; rewrite elem_of_cons in Hx; tauto.
Qed.

End Best.

(** ** Graphs *)

(** Every counted edge is listed by its producer. *)
Definition linked (gr : pgm_graph) : Prop := forall e, 0 <= e < nr_edges gr ->
  is_node gr (e_producer (gedge gr e)) /\ e ∈ out_list (gnode gr (e_producer (gedge gr e))).

Definition forward (gr : pgm_graph) (e : Z) : Prop := is_backedge (gedge gr e) = false.
#[local] Instance forward_dec gr e : Decision (forward gr e).
Proof. unfold forward. apply _. Defined.

Definition fwd_of (gr : pgm_graph) : list (Z * (Z * Z)) :=
  (fun i => (i, (e_producer (gedge gr i), e_consumer (gedge gr i)))) <$>
    filter (forward gr) (upto (nr_edges gr)).

Definition arcs (gr : pgm_graph) : list (Z * Z) := (fwd_of gr).*2.

(** The weights of the same edges. *)
Definition fwd_weights (gr : pgm_graph) (wt : Z -> Z) : list Z := (fun e => wt e.1) <$> fwd_of gr.

(** A path of forward edges and its weight. *)
Inductive path (gr : pgm_graph) (wt : Z -> Z) : Z -> Z -> Z -> Prop :=
| path_nil a : path gr wt 0 a a
| path_cons a e k c :
    e ∈ out_list (gnode gr a) -> forward gr e -> path gr wt k (e_consumer (gedge gr e)) c ->
    path gr wt (wt e + k) a c.

(** A node nothing leads to except explicit back edges. *)
Definition source (gr : pgm_graph) (i : Z) : Prop :=
  is_node gr i /\ forall j, is_node gr j -> ~ follows gr true j i.

Lemma fold_snoc {A B} (P : A -> Prop) `{!forall x, Decision (P x)} (t : A -> bool) (f : A -> B) l acc :
  (forall x, t x = false <-> P x) ->
  fold_left (fun acc x => if t x then acc else acc ++ [f x]) l acc = acc ++ (f <$> filter P l).
Proof.
  intros Ht. revert acc. induction l as [|x l IH]; intros acc; simpl; [by rewrite app_nil_r|].
  rewrite IH. destruct (t x) eqn:E.
  - by rewrite filter_cons_False by (intros Hp; apply Ht in Hp; congruence).
  - rewrite filter_cons_True by by apply Ht. by rewrite <- app_assoc.
Qed.

Lemma fold_push {A B} (f : A -> B) l acc : fold_left (fun acc x => acc ++ [f x]) l acc = acc ++ (f <$> l).
Proof.
  revert acc. induction l as [|x l IH]; intros acc; simpl; [by rewrite app_nil_r|]. by rewrite IH, <- app_assoc.
Qed.

Section Graphs.
Context (gr : pgm_graph) (Hwf : graph_wf gr) (Hlinked : linked gr).

Lemma elem_of_arcs a b :
  arc (arcs gr) a b <-> exists e, 0 <= e < nr_edges gr /\ forward gr e /\
    e_producer (gedge gr e) = a /\ e_consumer (gedge gr e) = b.
Proof.
  unfold arc, arcs, fwd_of. rewrite <- list_fmap_compose. rewrite list_elem_of_fmap. split.
  - intros (e & E & [Hf He]%list_elem_of_filter). apply elem_of_upto in He. simpl in E. simplify_eq. eauto.
  - intros (e & He & Hf & <- & <-). exists e. split; [done|]. apply list_elem_of_filter.
    split; [done|]. by apply elem_of_upto.
Qed.

Lemma arc_follows a b : arc (arcs gr) a b <-> is_node gr a /\ follows gr true a b.
Proof.
  rewrite elem_of_arcs. split.
  - intros (e & He & Hf & <- & <-). destruct (Hlinked e He) as [Hn Ho]. split; [done|]. by exists e.
  - intros [Hn (e & Ho & Hb & <-)]. exists e.
    destruct (nw_out_edges _ _ (gw_node _ Hwf a Hn) e Ho) as (He & Hp & _). done.
Qed.

Lemma arcs_dag : acyclic gr true -> dag (nr_nodes gr) (arcs gr).
Proof.
  intros Ha. split.
  - intros a b [Hn Hf]%arc_follows. split; [done|]. by eapply follows_is_node.
  - intros a Hc. assert (Hn : is_node gr a) by (inversion Hc as [x y Hs|x y z Hs _]; subst; apply arc_follows in Hs as [Hs _]; done).
    apply (Ha a Hn). eapply tc_congruence with (f := id); [|done]. intros x y [_ Hxy]%arc_follows. done.
Qed.

Lemma elem_of_weighted wt a b w :
  ((a, b), w) ∈ zip (arcs gr) (fwd_weights gr wt) <-> exists e, 0 <= e < nr_edges gr /\ forward gr e /\
    e_producer (gedge gr e) = a /\ e_consumer (gedge gr e) = b /\ wt e = w.
Proof.
  unfold arcs, fwd_weights. rewrite zip_with_fmap_l, zip_with_fmap_r, zip_with_diag. split.
  - intros (x & E & (e & -> & [Hf He]%list_elem_of_filter)%list_elem_of_fmap)%list_elem_of_fmap.
    apply elem_of_upto in He. simpl in E. simplify_eq. eauto 10.
  - intros (e & He & Hf & <- & <- & <-). apply list_elem_of_fmap.
    exists (e, (e_producer (gedge gr e), e_consumer (gedge gr e))). split; [reflexivity|].
    apply list_elem_of_fmap. exists e. split; [done|]. apply list_elem_of_filter. split; [done|]. by apply elem_of_upto.
Qed.

Lemma walk_path wt k a b :
  is_node gr a -> wwalk (arcs gr) (fwd_weights gr wt) k a b <-> path gr wt k a b.
Proof.
  intros Ha. split.
  - clear Ha. induction 1 as [a|a b c w k Hab _ IH]; [constructor|].
    apply elem_of_weighted in Hab as (e & He & Hf & <- & <- & <-). destruct (Hlinked e He) as [_ Ho].
    by apply (path_cons _ _ _ e).
  - intros Hp. revert Ha. induction Hp as [a|a e k c He Hf _ IH]; intros Ha; [constructor|].
    destruct (nw_out_edges _ _ (gw_node _ Hwf a Ha) e He) as (Hr & Hp & Hc & _).
    eapply wwalk_cons; [apply elem_of_weighted; by exists e|]. by apply IH.
Qed.

(** Where every edge weighs one, the weight of a path is its length. *)
Lemma path_length k a b : nsteps (follows gr true) k a b -> path gr (fun _ => 1) (Z.of_nat k) a b.
Proof.
  induction 1 as [a|k a b c (e & He & Hf & <-) _ IH]; [constructor|].
  replace (Z.of_nat (S k)) with (1 + Z.of_nat k) by lia. by apply (path_cons _ (fun _ => 1) a e).
Qed.

Lemma length_path wt k a b :
  (forall e, wt e = 1) -> path gr wt k a b -> 0 <= k /\ nsteps (follows gr true) (Z.to_nat k) a b.
Proof.
  intros Hwt. induction 1 as [a|a e k c He Hf _ [Hk IH]]; [split; [done|constructor]|]. rewrite Hwt.
  split; [lia|]. rewrite Z2Nat.inj_add by lia. econstructor; [by exists e|done].
Qed.

Lemma walk_follows k a b : is_node gr a -> nsteps (arc (arcs gr)) k a b <-> nsteps (follows gr true) k a b.
Proof.
  intros Ha. split.
  - apply nsteps_congruence with (f := id). intros x y [_ Hxy]%arc_follows. done.
  - intros Hw. revert Ha. induction Hw as [a|k a b c Hab Hw IH]; intros Ha; [constructor|].
    apply (nsteps_l _ _ _ b); [by apply arc_follows|]. apply IH. by eapply follows_is_node.
Qed.

Lemma entry_source i : entry (nr_nodes gr) (arcs gr) i <-> source gr i.
Proof.
  split; intros [Hi Hn]; (split; [done|]).
  - intros j Hj Hf. apply (Hn j). by apply arc_follows.
  - intros a [Ha Hf]%arc_follows. by apply (Hn a).
Qed.

(** The forward edges into [i]. *)
Definition in_degree (i : Z) : Z :=
  Z.of_nat (length (filter (forward gr) (in_list (gnode gr i)))).

Lemma in_degree_entry i :
  is_node gr i -> in_degree i = 0 <-> entry (nr_nodes gr) (arcs gr) i.
Proof.
  intros Hi. unfold in_degree. split.
  - intros Hz. split; [done|]. intros a Ha. apply elem_of_arcs in Ha as (e & He & Hf & Hp & Hc).
    assert (Hin : e ∈ in_list (gnode gr i)).
    { destruct (Hlinked e He) as [Hn Ho]. rewrite <- Hc.
      by apply (nw_out_edges _ _ (gw_node _ Hwf _ Hn)) in Ho as (_ & _ & _ & Ho). }
    assert (Hfil : e ∈ filter (forward gr) (in_list (gnode gr i))) by by apply list_elem_of_filter.
    destruct (filter _ _); [by inversion Hfil|simpl in Hz; lia].
  - intros [_ Hn]. destruct (filter _ _) as [|e l] eqn:E; [done|].
    assert (He : e ∈ filter (forward gr) (in_list (gnode gr i))) by (rewrite E; constructor).
    apply list_elem_of_filter in He as [Hf Hin].
    destruct (nw_in_edges _ _ (gw_node _ Hwf i Hi) e Hin) as (He & Hc & Hp & _).
    destruct (Hn (e_producer (gedge gr e))). apply elem_of_arcs. eauto.
Qed.

End Graphs.

(** ** Running the code *)

Section Runs.
Context {W : Type} `{Syscalls W}.
Implicit Types (s : pgm_state W) (gr : pgm_graph).

Lemma forward_edges_runs s g gr :
  has_graph s g gr -> graph_wf gr -> forward_edges g s = Ok (fwd_of gr, s).
Proof.
  intros Hg Hwf. unfold forward_edges. st_step.
  rewrite (for_acc_pure _ _ (fun i acc => if is_backedge (gedge gr i) then acc
    else acc ++ [(i, (e_producer (gedge gr i), e_consumer (gedge gr i)))])).
  - unfold fwd_of. by rewrite (fold_snoc (forward gr)).
  - intros i acc Hi%elem_of_upto. pose proof (gw_edges gr Hwf). st_step. fold (gedge gr i).
    by destruct (is_backedge _).
Qed.

Lemma fold_count_forward (P : Z -> Prop) `{!forall x, Decision (P x)} (t : Z -> bool) l k :
  (forall x, t x = false <-> P x) ->
  fold_left (fun k x => if negb (t x) then k + 1 else k) l k = k + Z.of_nat (length (filter P l)).
Proof.
  intros Ht. revert k. induction l as [|x l IH]; intros k; simpl; [lia|]. rewrite IH.
  destruct (t x) eqn:E; simpl.
  - by rewrite filter_cons_False by (intros Hp; apply Ht in Hp; congruence).
  - rewrite filter_cons_True by by apply Ht. simpl. lia.
Qed.

Lemma fold_left_fmap {A B C} (f : A -> B) (h : C -> B -> C) l c :
  fold_left h (f <$> l) c = fold_left (fun c x => h c (f x)) l c.
Proof. revert c. induction l as [|x l IH]; intros c; simpl; [done|]. apply IH. Qed.

Lemma count_forward_runs s g gr i :
  has_graph s g gr -> graph_wf gr -> is_node gr i ->
  count_forward g PGM_MAX_IN_DEGREE (nr_in (gnode gr i)) (n_in (gnode gr i)) 0 s =
  Ok (in_degree gr i, s).
Proof.
  intros Hg Hwf Hi. unfold count_forward. pose proof (nw_in _ _ (gw_node gr Hwf i Hi)) as Hin.
  rewrite (for_acc_pure _ _ (fun j k =>
    if negb (is_backedge (gedge gr (cell (n_in (gnode gr i)) j))) then k + 1 else k)).
  - unfold in_degree, in_list.
    pose proof (fold_count_forward (forward gr) (fun e => is_backedge (gedge gr e))
      (cell (n_in (gnode gr i)) <$> upto (nr_in (gnode gr i))) 0) as Hc.
    rewrite fold_left_fmap, Z.add_0_l in Hc. by rewrite <- Hc.
  - intros j k Hj%elem_of_upto.
    erewrite bind_step by (unfold lift; by rewrite aget_ok by lia). cbv beta.
    assert (0 <= cell (n_in (gnode gr i)) j < PGM_MAX_EDGES).
    { apply (listed_in_range gr i); [done..|left]. apply list_elem_of_fmap. exists j.
      by split; [|apply elem_of_upto]. }
    st_step. fold (gedge gr (cell (n_in (gnode gr i)) j)). by destruct (is_backedge _).
Qed.

Lemma best_source_runs s g gr t (near : Z -> list double) (clean : double -> double) :
  has_graph s g gr -> graph_wf gr ->
  (forall i, is_node gr i -> in_degree gr i = 0 -> is_Some (near i !! Z.to_nat t)) ->
  best_source g t near clean s =
  Ok (fold_left (fun d i => if in_degree gr i =? 0
        then std_min d (clean (default DBL_MAX (near i !! Z.to_nat t))) else d)
        (upto (nr_nodes gr)) DBL_MAX, s).
Proof.
  intros Hg Hwf Hn. unfold best_source. st_step.
  rewrite (for_acc_pure _ _ (fun i d => if in_degree gr i =? 0
    then std_min d (clean (default DBL_MAX (near i !! Z.to_nat t))) else d)); [done|].
  intros i d Hi%elem_of_upto. pose proof (gw_nodes gr Hwf). st_step. fold (gnode gr i).
  erewrite bind_step by by apply count_forward_runs. cbv beta.
  destruct (Z.eqb_spec (in_degree gr i) 0) as [E|E]; [|done]. simpl.
  destruct (Hn i Hi E) as [x Hx]. by rewrite Hx.
Qed.

(** [wt] gives the weights the call works with: those of the caller's function,
    which neither fails nor changes anything, or one for every edge. *)
Definition weighs (wfunc : option (@pgm_weight_func_t W)) (g : Z) gr (wt : Z -> Z) : Prop :=
  match wfunc with
  | Some w => forall e s, 0 <= e < nr_edges gr -> forward gr e -> w (Edge_t g e) s = Ok (dofZ (wt e), s)
  | None => forall e, wt e = 1
  end.

Lemma edge_weights_runs s wfunc g gr wt scale unit (f : Z -> double) :
  weighs wfunc g gr wt -> (forall e, 0 <= e < nr_edges gr -> forward gr e -> scale (dofZ (wt e)) = f (wt e)) ->
  unit = f 1 ->
  edge_weights g (fwd_of gr) wfunc scale unit s = Ok (f <$> fwd_weights gr wt, s).
Proof.
  intros Hw Hscale Hunit. unfold edge_weights, fwd_weights. destruct wfunc as [w|]; simpl in Hw.
  - rewrite (for_acc_pure _ _ (fun e acc => acc ++ [f (wt e.1)])).
    + by rewrite (fold_push (fun e => f (wt e.1))), <- list_fmap_compose.
    + intros x acc (e & -> & [Hf He%elem_of_upto]%list_elem_of_filter)%list_elem_of_fmap. simpl.
      erewrite bind_step by by apply Hw. cbv beta. by rewrite Hscale.
  - rewrite <- list_fmap_compose, (const_fmap _ _ unit); [done|]. intros i e _. simpl. by rewrite Hw, Hunit.
Qed.

Lemma is_dag_runs s g gr :
  has_graph s g gr -> in_use gr = true -> graph_wf gr -> names_ok gr -> acyclic gr true ->
  pgm_is_dag g true s = Ok (1, s).
Proof.
  intros Hg Hu Hwf Hnames Ha. unfold pgm_is_dag. st_step. rewrite Hu. simpl. st_step.
  destruct (dag_roots_decides gr Hwf Hnames true) as (b & E & Hb). unfold lift. rewrite E.
  apply Hb in Ha. by subst.
Qed.

End Runs.

(** ** Theorems *)

#[local] Instance at_least_preorder : PreOrder (fun k j : Z => j <= k).
Proof. split; [by intros k|intros a b c; lia]. Qed.

Lemma fits_small k : fits k -> small k /\ small (- k).
Proof. unfold fits, small. lia. Qed.

Section Depths.
Context {W : Type} `{Syscalls W} `{HB : Boost} `{!BoostLaws HB}.
Implicit Types (s : pgm_state W) (gr : pgm_graph).

(** What the loop over the sources computes from distances that are right. *)
Lemma best_of_sources gr t wt (val : Z -> double) (better : Z -> Z -> Prop) `{!PreOrder better}
    (res : Z -> double) :
  graph_wf gr -> linked gr -> acyclic gr true -> is_node gr t ->
  (forall i, entry (nr_nodes gr) (arcs gr) i ->
    (exists k, fits k /\ path gr wt k i t /\ (forall j, path gr wt j i t -> better k j) /\
       res i = val k) \/ ((forall j, ~ path gr wt j i t) /\ res i = DBL_MAX)) ->
  (forall a b, fits a -> fits b ->
    exists c, (c = a \/ c = b) /\ better c a /\ better c b /\ std_min (val a) (val b) = val c) ->
  (forall a, fits a -> std_min DBL_MAX (val a) = val a /\ std_min (val a) DBL_MAX = val a) ->
  exists k, fits k /\
    fold_left (fun d i => if in_degree gr i =? 0 then std_min d (res i) else d)
      (upto (nr_nodes gr)) DBL_MAX = val k /\
    (exists i, source gr i /\ path gr wt k i t) /\
    (forall i j, source gr i -> path gr wt j i t -> better k j).
Proof.
  intros Hwf Hl Ha Ht Hres Hmin Hmax. pose proof (arcs_dag gr Hwf Hl Ha) as Hdag.
  assert (Hb : best (nr_nodes gr) (arcs gr) t (path gr wt) val better (fun x => False \/ x ∈ upto (nr_nodes gr))
    (fold_left (fun d i => if in_degree gr i =? 0 then std_min d (res i) else d) (upto (nr_nodes gr)) DBL_MAX)).
  { apply best_fold with (is_entry := fun i => in_degree gr i =? 0); [done..| |].
    - intros i Hi%elem_of_upto. rewrite Z.eqb_eq. by apply in_degree_entry.
    - left. split; [done|]. by intros i j []. }
  destruct (from_entry _ _ Hdag t Ht) as (i0 & m0 & He0 & Hm0).
  destruct (steps_wwalk (arcs gr) (fwd_weights gr wt) m0 i0 t) as [k0 Hk0]; [|done|].
  { unfold fwd_weights, arcs. by rewrite !length_fmap. }
  apply walk_path in Hk0; [|done..|apply He0].
  destruct Hb as [[_ Hno]|(k & Hk & E & (i & Hi & Hw) & Hall)].
  { destruct (Hno i0 k0); [right; apply elem_of_upto, He0|done..]. }
  exists k. split_and!; [done..| |].
  - exists i. split; [by apply entry_source|done].
  - intros i' j Hi' Hj. apply (Hall i'); [right; apply elem_of_upto, Hi'|by apply entry_source|done].
Qed.

(** Positive integer weights, and no path heavier than what is exact. *)
Record weighing (wfunc : option (@pgm_weight_func_t W)) (g : Z) gr (wt : Z -> Z) : Prop := {
  wg_func : weighs wfunc g gr wt;
  wg_pos e : 0 <= e < nr_edges gr -> forward gr e -> 1 <= wt e;
  wg_total k i j : is_node gr i -> path gr wt k i j -> k <= 4096
}.

(** Without a weight function every edge weighs one. *)
Lemma weighing_unit g gr :
  graph_wf gr -> linked gr -> acyclic gr true -> weighing None g gr (fun _ => 1).
Proof.
  intros Hwf Hl Ha. split; [done..|]. intros k i j Hi (Hk & Hs)%length_path; [|done].
  apply walk_follows in Hs; [|done..]. apply (walk_short _ _ (arcs_dag gr Hwf Hl Ha)) in Hs; [|done].
  pose proof (gw_nodes gr Hwf). unfold PGM_MAX_NODES in *. lia.
Qed.

(** The distances the two calls work with. *)
Definition bf_near gr wt (i : Z) : list double :=
  bellman_ford (nr_nodes gr) (arcs gr) ((fun w => dofZ (- w)) <$> fwd_weights gr wt) (dist_init (nr_nodes gr) i).
Definition bf_clean (x : double) : double := if dltb (dofZ 0) x then DBL_MAX else x.

Definition dj_near gr wt (i : Z) : list double :=
  dijkstra (nr_nodes gr) (arcs gr) (dofZ <$> fwd_weights gr wt) i.
Definition dj_clean (x : double) : double := if dltb x (dofZ 0) then DBL_MAX else x.

Definition result gr t (near : Z -> list double) (clean : double -> double) : double :=
  fold_left (fun d i => if in_degree gr i =? 0
    then std_min d (clean (default DBL_MAX (near i !! Z.to_nat t))) else d)
    (upto (nr_nodes gr)) DBL_MAX.

Section Calls.
Context s g gr t wfunc wt (Hg : has_graph s g gr) (Hu : in_use gr = true) (Hlk : g_lock gr = false)
  (Hwf : graph_wf gr) (Hn : names_ok gr) (Hl : linked gr) (Ha : acyclic gr true) (Ht : is_node gr t)
  (Hw : weighing wfunc g gr wt).

Lemma node_small : nr_nodes gr <= PGM_MAX_NODES.
Proof. pose proof (gw_nodes gr Hwf). lia. Qed.

Lemma fwd_weights_ok : weights_ok (arcs gr) (fwd_weights gr wt).
Proof.
  split.
  - unfold fwd_weights, arcs. by rewrite !length_fmap.
  - intros [a b] w (e & He & Hf & _ & _ & <-)%elem_of_weighted. by apply (wg_pos _ _ _ _ Hw).
  - intros k a b Hk. inversion Hk as [|? b' ? w j Hab Hj]; subst; [lia|].
    apply elem_of_zip_l in Hab. apply (arc_range _ _ (arcs_dag gr Hwf Hl Ha)) in Hab as [Hi _].
    apply (wg_total _ _ _ _ Hw _ a b Hi). by apply walk_path.
Qed.

Lemma path_fits k i j : is_node gr i -> path gr wt k i j -> fits k.
Proof.
  intros Hi Hk. split; [|by eapply wg_total]. apply walk_path in Hk; [|done..].
  by eapply wwalk_nonneg; [apply fwd_weights_ok|].
Qed.

Lemma bf_right i : is_node gr i ->
  (exists k, fits k /\ path gr wt k i t /\ (forall j, path gr wt j i t -> j <= k) /\
     bf_near gr wt i !! Z.to_nat t = Some (dofZ (- k))) \/
  ((forall j, ~ path gr wt j i t) /\ bf_near gr wt i !! Z.to_nat t = Some DBL_MAX).
Proof.
  intros Hi. setoid_rewrite <- (walk_path gr Hwf Hl wt _ i t Hi). unfold bf_near.
  destruct (bf_law (nr_nodes gr) (arcs gr) (fwd_weights gr wt) i t) as [(k & Hk & Hx)|Hno];
    [apply node_small|by apply arcs_dag|apply fwd_weights_ok|done..| |by right].
  left. exists k. split; [|done]. apply (path_fits k i t Hi). by apply walk_path.
Qed.

Lemma dj_right i : is_node gr i ->
  (exists k, fits k /\ path gr wt k i t /\ (forall j, path gr wt j i t -> k <= j) /\
     dj_near gr wt i !! Z.to_nat t = Some (dofZ k)) \/
  ((forall j, ~ path gr wt j i t) /\ dj_near gr wt i !! Z.to_nat t = Some DBL_MAX).
Proof.
  intros Hi. setoid_rewrite <- (walk_path gr Hwf Hl wt _ i t Hi). unfold dj_near.
  destruct (dj_law (nr_nodes gr) (arcs gr) (fwd_weights gr wt) i t) as [(k & Hk & Hx)|Hno];
    [apply node_small|by apply arcs_dag|apply fwd_weights_ok|done..| |by right].
  left. exists k. split; [|done]. apply (path_fits k i t Hi). by apply walk_path.
Qed.

(** The weight of one edge is exact, too. *)
Lemma weight_range e : 0 <= e < nr_edges gr -> forward gr e -> 1 <= wt e <= 4096.
Proof.
  intros He Hf. split; [by apply (wg_pos _ _ _ _ Hw)|]. destruct (Hl e He) as [Hi Ho].
  apply (wg_total _ _ _ _ Hw (wt e) _ (e_consumer (gedge gr e)) Hi). rewrite <- (Z.add_0_r (wt e)).
  apply (path_cons _ _ _ e); [done..|constructor].
Qed.

(** The part of both calls before the last loop: validity, the DAG test, the
    lock and the copy of the edges. *)
Ltac reach_loop :=
  simpl; st_step; rewrite Hu; simpl;
  erewrite bind_step by (by eapply is_dag_runs); cbv beta; simpl;
  destruct (Z.ltb_spec t 0); [unfold is_node in Ht; lia|];
  apply (locked_reads s g gr); [done..|]; intros s1 Hs1; st_step; simpl;
  destruct (Z.leb_spec (nr_nodes gr) t); [unfold is_node in Ht; lia|];
  erewrite bind_step by (eapply forward_edges_runs; [done|by apply graph_wf_lock]); cbv beta.

Lemma run_max :
  pgm_get_max_depth (Node_t g t) wfunc s =
  Ok (dmul (result gr t (bf_near gr wt) bf_clean) (dofZ (-1)), s).
Proof.
  unfold pgm_get_max_depth. reach_loop.
  erewrite bind_step; [|apply (edge_weights_runs _ _ _ gr wt _ _ (fun w => dofZ (- w))); [by apply Hw| |done]].
  - cbv beta. erewrite bind_step; [|eapply best_source_runs; [done|by apply graph_wf_lock|]]; [done|].
    intros i Hi _. destruct (bf_right i Hi) as [(k & _ & _ & _ & E)|[_ E]]; exact (mk_is_Some _ _ E).
  - intros e He Hf. by apply dmul_neg_exact, weight_range.
Qed.

Lemma run_min :
  pgm_get_min_depth (Node_t g t) wfunc s = Ok (result gr t (dj_near gr wt) dj_clean, s).
Proof.
  unfold pgm_get_min_depth. reach_loop.
  erewrite bind_step by (apply (edge_weights_runs _ _ _ gr wt _ _ dofZ); [by apply Hw|done..]). cbv beta.
  erewrite best_source_runs; [|done|by apply graph_wf_lock|]; [reflexivity|].
  intros i Hi _. destruct (dj_right i Hi) as [(k & _ & _ & _ & E)|[_ E]]; exact (mk_is_Some _ _ E).
Qed.

(** Any path can be extended backwards to a source. *)
Lemma path_from_source i j :
  is_node gr i -> path gr wt j i t -> exists i' k, source gr i' /\ path gr wt k i' t /\ j <= k.
Proof.
  intros Hi Hj. pose proof (arcs_dag gr Hwf Hl Ha) as Hdag. pose proof fwd_weights_ok as Hok.
  destruct (from_entry _ _ Hdag i Hi) as (i' & m & He & Hm).
  apply (steps_wwalk _ (fwd_weights gr wt)) in Hm as [k Hk]; [|apply Hok].
  exists i', (k + j). split_and!; [by apply entry_source| |].
  - apply walk_path; [done..|apply He|]. eapply wwalk_app; [done|]. by apply walk_path.
  - apply wwalk_nonneg in Hk; [lia|done].
Qed.

Lemma max_depth_heaviest :
  exists d k, pgm_get_max_depth (Node_t g t) wfunc s = Ok (d, s) /\ deqb d (dofZ k) = true /\
    (exists i, source gr i /\ path gr wt k i t) /\
    (forall i j, is_node gr i -> path gr wt j i t -> j <= k).
Proof.
  rewrite run_max. unfold result.
  destruct (best_of_sources gr t wt (fun k => dofZ (- k)) (fun k j => j <= k)
    (fun i => bf_clean (default DBL_MAX (bf_near gr wt i !! Z.to_nat t)))) as (k & Hk & E & He & Hall); try done.
  - intros i [Hi _]. destruct (bf_right i Hi) as [(k & Hk & Hp & Hj & ->)|[Hj ->]]; [left|by right].
    exists k. split_and!; [done..|]. simpl. unfold bf_clean. pose proof (fits_small _ Hk) as [_ Hk'].
    rewrite dofZ_ltb by done. destruct Hk. by destruct (Z.ltb_spec 0 (- k)); [lia|].
  - intros a b Hfa%fits_small Hfb%fits_small. rewrite std_min_small by tauto.
    destruct (decide (a <= b)); [exists b|exists a]; split_and!; auto; try lia; f_equal; lia.
  - intros a Hfa%fits_small. rewrite std_min_max, std_min_max_r by tauto. done.
  - eexists _, k. split_and!; [done| |done|].
    + rewrite E. apply fits_small in Hk as [_ Hk]. pose proof (dmul_neg _ Hk) as Hm.
      by rewrite Z.opp_involutive in Hm.
    + intros i j Hi Hj. destruct (path_from_source i j) as (i' & k' & Hi' & Hk' & Hle); [done..|].
      pose proof (Hall i' k' Hi' Hk'). lia.
Qed.

Lemma min_depth_lightest :
  exists k, pgm_get_min_depth (Node_t g t) wfunc s = Ok (dofZ k, s) /\
    (exists i, source gr i /\ path gr wt k i t) /\
    (forall i j, source gr i -> path gr wt j i t -> k <= j).
Proof.
  rewrite run_min. unfold result.
  destruct (best_of_sources gr t wt dofZ Z.le
    (fun i => dj_clean (default DBL_MAX (dj_near gr wt i !! Z.to_nat t)))) as (k & Hk & E & He & Hall); try done.
  - intros i [Hi _]. destruct (dj_right i Hi) as [(k & Hk & Hp & Hj & ->)|[Hj ->]]; [left|by right].
    exists k. split_and!; [done..|]. simpl. unfold dj_clean. pose proof (fits_small _ Hk) as [Hk' _].
    rewrite dofZ_ltb by done. destruct Hk. by destruct (Z.ltb_spec k 0); [lia|].
  - intros a b Hfa%fits_small Hfb%fits_small. rewrite std_min_small by tauto.
    destruct (decide (a <= b)); [exists a|exists b]; split_and!; auto; try lia; f_equal; lia.
  - intros a Hfa%fits_small. rewrite std_min_max, std_min_max_r by tauto. done.
  - exists k. by rewrite E.
Qed.

End Calls.

(** C14. [pgm_get_max_depth], on a node of a well-formed, unlocked, acyclic graph in
    which all edges are linked and the names of the nodes are terminated and pairwise
    different (the call first asks [pgm_is_dag], which goes by names, and returns -1
    for some acyclic graphs with equal ones), and with a weight function (or none, when
    every edge weighs one) whose weights are positive integers, no path weighing more
    than 4096: it returns the weight of a heaviest path of forward edges into the node.
    Such a path leads there from a source, and no path from any node is heavier. *)
Theorem max_depth_is_heaviest s g gr t wfunc wt :
  has_graph s g gr -> in_use gr = true -> g_lock gr = false -> graph_wf gr -> names_ok gr ->
  linked gr -> acyclic gr true -> is_node gr t -> weighing wfunc g gr wt ->
  exists d k, pgm_get_max_depth (Node_t g t) wfunc s = Ok (d, s) /\ deqb d (dofZ k) = true /\
    (exists i, source gr i /\ path gr wt k i t) /\
    (forall i j, is_node gr i -> path gr wt j i t -> j <= k).
Proof. intros. by apply max_depth_heaviest. Qed.

(** C15. [pgm_get_min_depth], on a node of a well-formed, unlocked, acyclic graph in
    which all edges are linked and the names of the nodes are terminated and pairwise
    different (it too asks [pgm_is_dag] first), and with a weight function (or none,
    when every edge weighs one) whose weights are positive integers, no path weighing
    more than 4096: it returns the weight of a lightest path of forward edges from a
    source to the node. *)
Theorem min_depth_is_lightest s g gr t wfunc wt :
  has_graph s g gr -> in_use gr = true -> g_lock gr = false -> graph_wf gr -> names_ok gr ->
  linked gr -> acyclic gr true -> is_node gr t -> weighing wfunc g gr wt ->
  exists k, pgm_get_min_depth (Node_t g t) wfunc s = Ok (dofZ k, s) /\
    (exists i, source gr i /\ path gr wt k i t) /\
    (forall i j, source gr i -> path gr wt j i t -> k <= j).
Proof. intros. by apply min_depth_lightest. Qed.

(** Without a weight function, the number of edges of a longest path into the
    node and of a shortest path from a source. *)
Corollary max_depth_is_longest s g gr t :
  has_graph s g gr -> in_use gr = true -> g_lock gr = false -> graph_wf gr -> names_ok gr ->
  linked gr -> acyclic gr true -> is_node gr t ->
  exists d k, pgm_get_max_depth (Node_t g t) None s = Ok (d, s) /\
    deqb d (dofZ (Z.of_nat k)) = true /\
    (exists i, source gr i /\ nsteps (follows gr true) k i t) /\
    (forall i j, is_node gr i -> nsteps (follows gr true) j i t -> (j <= k)%nat).
Proof.
  intros Hg Hu Hlk Hwf Hn Hl Ha Ht.
  destruct (max_depth_heaviest s g gr t None (fun _ => 1)) as (d & k & E & Hd & (i & Hi & Hp) & Hall);
    [done..|by apply weighing_unit|].
  apply length_path in Hp as [Hk Hp]; [|done]. exists d, (Z.to_nat k). rewrite Z2Nat.id by done.
  split_and!; [done..|by exists i|]. intros i' j Hi' Hj%path_length. pose proof (Hall i' _ Hi' Hj). lia.
Qed.

Corollary min_depth_is_shortest s g gr t :
  has_graph s g gr -> in_use gr = true -> g_lock gr = false -> graph_wf gr -> names_ok gr ->
  linked gr -> acyclic gr true -> is_node gr t ->
  exists k, pgm_get_min_depth (Node_t g t) None s = Ok (dofZ (Z.of_nat k), s) /\
    (exists i, source gr i /\ nsteps (follows gr true) k i t) /\
    (forall i j, source gr i -> nsteps (follows gr true) j i t -> (k <= j)%nat).
Proof.
  intros Hg Hu Hlk Hwf Hn Hl Ha Ht.
  destruct (min_depth_lightest s g gr t None (fun _ => 1)) as (k & E & (i & Hi & Hp) & Hall);
    [done..|by apply weighing_unit|].
  apply length_path in Hp as [Hk Hp]; [|done]. exists (Z.to_nat k). rewrite Z2Nat.id by done.
  split_and!; [done..|by exists i|]. intros i' j Hi' Hj%path_length. pose proof (Hall i' _ Hi' Hj). lia.
Qed.

End Depths.

(** ** The laws can hold

    Path searches by enumeration, good enough to show that the laws are those of
    actual functions. *)

Section Slow.
Context (es : list (Z * Z)) (ws : list Z) (v : Z).

(** The weights of the walks of [m] edges from [a] to [v]. *)
Fixpoint totals (m : nat) (a : Z) : list Z :=
  match m with
  | O => if decide (a = v) then [0] else []
  | S m => flat_map (fun x => if decide (x.1.1 = a) then Z.add x.2 <$> totals m x.1.2 else []) (zip es ws)
  end.

Lemma totals_walk m a k : k ∈ totals m a -> wwalk es ws k a v.
Proof.
  revert a k. induction m as [|m IH]; intros a k; simpl.
  - case_decide as E; [|by intros ?%elem_of_nil]. intros ->%list_elem_of_singleton. rewrite E. constructor.
  - intros ([[a' b] w] & Hin & Hk)%list_elem_of_In%in_flat_map. simpl in Hk.
    case_decide as E; [|by destruct Hk]. subst a'.
    apply list_elem_of_In, list_elem_of_fmap in Hk as (j & -> & Hj). apply list_elem_of_In in Hin.
    eapply wwalk_cons; [done|by apply IH].
Qed.

Lemma walk_totals a k : wwalk es ws k a v -> exists m, nsteps (arc es) m a v /\ k ∈ totals m a.
Proof.
  enough (Hall : forall c, wwalk es ws k a c -> c = v -> exists m, nsteps (arc es) m a v /\ k ∈ totals m a) by eauto.
  intros c Hw. induction Hw as [a|a b c w k Hab _ IH]; intros ->.
  - exists 0%nat. split; [constructor|]. simpl. rewrite decide_True by done. by apply list_elem_of_singleton.
  - destruct (IH eq_refl) as (m & Hm & Hk). exists (S m). split.
    + econstructor; [|done]. by apply elem_of_zip_l in Hab.
    + simpl. apply list_elem_of_In, in_flat_map. exists ((a, b), w). split; [by apply list_elem_of_In|].
      simpl. rewrite decide_True by done. apply list_elem_of_In, list_elem_of_fmap. eauto.
Qed.

(** All of them: no walk has [n] edges. *)
Definition all_totals (n a : Z) : list Z := flat_map (fun m => totals m a) (seq 0 (Z.to_nat n)).

Lemma elem_of_all_totals n a k :
  dag n es -> 0 <= a < n -> k ∈ all_totals n a <-> wwalk es ws k a v.
Proof.
  intros Hdag Ha. unfold all_totals. rewrite list_elem_of_In, in_flat_map. split.
  - intros (m & _ & Hk%list_elem_of_In). by eapply totals_walk.
  - intros (m & Hm & Hk)%walk_totals. exists m. split; [|by apply list_elem_of_In].
    apply (walk_short _ _ Hdag) in Hm; [|done]. apply in_seq. lia.
Qed.

End Slow.

(** The best of a list. *)
Definition pick (op : Z -> Z -> Z) (l : list Z) : option Z :=
  foldr (fun x acc => Some (from_option (op x) x acc)) None l.

Lemma pick_spec op (R : Z -> Z -> Prop) `{!PreOrder R} l :
  (forall a b, (op a b = a \/ op a b = b) /\ R (op a b) a /\ R (op a b) b) ->
  match pick op l with
  | Some k => k ∈ l /\ forall j, j ∈ l -> R k j
  | None => l = []
  end.
Proof.
  intros Hop. induction l as [|x l IH]; simpl; [done|]. destruct (pick op l) as [k|]; simpl.
  - destruct IH as [Hk Hj], (Hop x k) as (Ho & Hx & Hk'). split.
    + destruct Ho as [-> | ->]; [constructor|by constructor].
    + intros j [->|Hin]%elem_of_cons; [done|]. transitivity k; auto.
  - subst l. split; [constructor|]. intros j ->%list_elem_of_singleton. done.
Qed.

(** The best of the elements of a predicate. *)
Lemma pick_best op (R : Z -> Z -> Prop) `{!PreOrder R} l (P : Z -> Prop) :
  (forall a b, (op a b = a \/ op a b = b) /\ R (op a b) a /\ R (op a b) b) -> (forall k, k ∈ l <-> P k) ->
  match pick op l with
  | Some k => P k /\ forall j, P j -> R k j
  | None => forall k, ~ P k
  end.
Proof.
  intros Hop HP. pose proof (pick_spec op R l Hop) as Hs. destruct (pick op l) as [k|].
  - destruct Hs as [Hk Hj]. split; [by apply HP|]. intros j Hpj. by apply Hj, HP.
  - intros k Hk%HP. subst l. by apply elem_of_nil in Hk.
Qed.

Definition as_distance (sign : Z) (k : option Z) : double :=
  match k with Some k => dofZ (sign * k) | None => DBL_MAX end.

(** The integer a double holds, without its sign. *)
Definition magnitude (x : double) : Z :=
  match x with
  | SpecFloat.S754_finite _ m e => if e <? 0 then Z.shiftr (Zpos m) (- e) else Z.shiftl (Zpos m) e
  | _ => 0
  end.

Lemma magnitude_dofZ w : 1 <= w <= 4096 -> magnitude (dofZ w) = w /\ magnitude (dofZ (- w)) = w.
Proof.
  intros Hw. assert (H : forallb (fun w => (magnitude (dofZ w) =? w) && (magnitude (dofZ (- w)) =? w)) (seqZ 1 4096) = true)
    by (vm_compute; reflexivity).
  rewrite forallb_forall in H. specialize (H w). rewrite <- list_elem_of_In, elem_of_seqZ, andb_true_iff, !Z.eqb_eq in H.
  apply H. lia.
Qed.

(** Weights of edges are found again. *)
Lemma magnitudes (f : Z -> double) es ws :
  weights_ok es ws -> (forall w, 1 <= w <= 4096 -> magnitude (f w) = w) -> magnitude <$> (f <$> ws) = ws.
Proof.
  intros Hok Hf. rewrite <- list_fmap_compose. apply list_eq. intros p. rewrite list_lookup_fmap.
  destruct (ws !! p) as [w|] eqn:Hp; simpl; [|done]. f_equal. apply Hf.
  destruct (lookup_lt_is_Some_2 es p) as [[a b] He].
  { rewrite <- (wo_length _ _ Hok). by eapply lookup_lt_Some. }
  assert (Hin : ((a, b), w) ∈ zip es ws).
  { apply list_elem_of_lookup. exists p. apply lookup_zip_with_Some. by exists (a, b), w. }
  split; [by apply (wo_pos _ _ Hok) in Hin|]. rewrite <- (Z.add_0_r w).
  apply (wo_total _ _ Hok _ a b). eapply wwalk_cons; [done|constructor].
Qed.

(** The source is the vertex whose initial distance is not the largest one. *)
Definition start_of (d : list double) : Z :=
  match list_find (fun x => dltb x DBL_MAX = true) d with Some (i, _) => Z.of_nat i | None => 0 end.

#[local] Instance slow_boost : Boost := {|
  bellman_ford n es ws d :=
    (fun v => as_distance (-1) (pick Z.max (all_totals es (magnitude <$> ws) v n (start_of d)))) <$> seqZ 0 n;
  dijkstra n es ws i :=
    (fun v => as_distance 1 (pick Z.min (all_totals es (magnitude <$> ws) v n i))) <$> seqZ 0 n
|}.

Lemma start_of_initial n i : 0 <= i < n -> start_of (dist_init n i) = i.
Proof.
  intros Hi. unfold start_of, dist_init.
  assert (Hf : list_find (fun x => dltb x DBL_MAX = true)
    (<[Z.to_nat i := dofZ 0]> (replicate (Z.to_nat n) DBL_MAX)) = Some (Z.to_nat i, dofZ 0)).
  { apply list_find_Some. split_and!.
    - apply list_lookup_insert_eq. rewrite length_replicate. lia.
    - by apply dofZ_max.
    - intros j y Hj Hlt. rewrite list_lookup_insert_ne in Hj by lia.
      apply lookup_replicate_1 in Hj as [-> _]. by rewrite dltb_irrefl. }
  rewrite Hf. lia.
Qed.

Lemma slow_lookup n (f : Z -> double) v : 0 <= v < n -> (f <$> seqZ 0 n) !! Z.to_nat v = Some (f v).
Proof.
  intros Hv. rewrite list_lookup_fmap, lookup_seqZ_lt by lia. simpl. do 2 f_equal. lia.
Qed.

#[local] Instance slow_boost_laws : BoostLaws slow_boost.
Proof.
  split; intros n es ws i v Hn Hdag Hok Hi Hv; simpl; rewrite slow_lookup by done;
    assert (Hat : forall k, k ∈ all_totals es ws v n i <-> wwalk es ws k i v) by (intros; by apply elem_of_all_totals).
  - rewrite start_of_initial, (magnitudes _ es) by (done || intros w Hw; by apply magnitude_dofZ).
    pose proof (pick_best Z.max (fun k j => j <= k) _ _ ltac:(cbv beta; intros; lia) Hat) as Hs.
    destruct (pick _ _) as [k|]; [left; exists k; destruct Hs|right]; by split_and!.
  - rewrite (magnitudes _ es) by (done || intros w Hw; by apply magnitude_dofZ).
    pose proof (pick_best Z.min Z.le _ _ ltac:(cbv beta; intros; lia) Hat) as Hs.
    destruct (pick _ _) as [k|]; [left; exists k; destruct Hs|right]; split_and!; try done.
    unfold as_distance. do 2 f_equal. lia.
Qed.

(** *** A run *)

(** Three nodes, with an edge from each to every later one. *)
Definition demo_dag : pgm_graph :=
  demo_link 0 2 (demo_link 1 2 (demo_link 0 1 (add_node (lit "c") (add_node (lit "b")
    (add_node (lit "a") demo_graph))))).

Lemma demo_dag_wf : graph_wf demo_dag.
Proof.
  unfold demo_dag. do 3 (apply demo_link_wf; [| vm_compute; first [discriminate | split; [discriminate|reflexivity]]..]).
  do 3 (apply add_node_wf; [|vm_compute; discriminate]). apply demo_graph_wf.
Qed.

Lemma demo_dag_node i : is_node demo_dag i -> i = 0 \/ i = 1 \/ i = 2.
Proof. unfold is_node. change (nr_nodes demo_dag) with 3. lia. Qed.

Lemma demo_dag_linked : linked demo_dag.
Proof.
  intros e He. change (nr_edges demo_dag) with 3 in He.
  assert (e = 0 \/ e = 1 \/ e = 2) as [->|[->| ->]] by lia;
    (split; [vm_compute; split; [discriminate|reflexivity]|]);
    apply (bool_decide_eq_true_1 (_ ∈ _)); vm_compute; reflexivity.
Qed.

Lemma demo_dag_names : names_ok demo_dag.
Proof.
  split.
  - intros i [->|[->| ->]]%demo_dag_node; apply (bool_decide_eq_true_1 (NUL ∈ _)); vm_compute; reflexivity.
  - intros i j [->|[->| ->]]%demo_dag_node [->|[->| ->]]%demo_dag_node; vm_compute; done.
Qed.

Lemma demo_dag_out :
  out_list (gnode demo_dag 0) = [0; 2] /\ out_list (gnode demo_dag 1) = [1] /\
  out_list (gnode demo_dag 2) = [].
Proof. vm_compute. done. Qed.

Lemma demo_dag_forward i j : is_node demo_dag i -> follows demo_dag true i j -> i < j.
Proof.
  destruct demo_dag_out as (E0 & E1 & E2).
  intros [->|[->| ->]]%demo_dag_node (e & He & _ & <-); rewrite ?E0, ?E1, ?E2 in He;
    repeat (apply elem_of_cons in He as [->|He]); try (by apply elem_of_nil in He); vm_compute; reflexivity.
Qed.

Lemma demo_dag_acyclic : acyclic demo_dag true.
Proof.
  intros i Hi Hc. enough (forall x y, tc (follows demo_dag true) x y -> is_node demo_dag x -> x < y) as Hlt
    by (apply Hlt in Hc; [lia|done]).
  intros x y. induction 1 as [x y Hxy|x y z Hxy _ IH]; intros Hx; [by apply demo_dag_forward|].
  pose proof (demo_dag_forward x y Hx Hxy).
  pose proof (follows_is_node _ _ _ _ demo_dag_wf Hx Hxy) as Hy. specialize (IH Hy). lia.
Qed.

Lemma demo_dag_state : has_graph (demo_state demo_dag) 0 demo_dag.
Proof. by apply demo_usable. Qed.

(** The direct edge is heavier than the way around. *)
Definition demo_wt (e : Z) : Z := if e =? 2 then 20 else 3.
Definition demo_weight : @pgm_weight_func_t Z := fun e => mret (dofZ (demo_wt (ed_edge e))).

Lemma demo_path_light k i j : path demo_dag demo_wt k i j -> is_node demo_dag i -> k <= 20 * (j - i).
Proof.
  induction 1 as [a|a e k c He Hf _ IH]; intros Hi; [lia|].
  assert (Hfo : follows demo_dag true a (e_consumer (gedge demo_dag e))) by by exists e.
  pose proof (demo_dag_forward _ _ Hi Hfo). pose proof (follows_is_node _ _ _ _ demo_dag_wf Hi Hfo) as Hn.
  specialize (IH Hn). assert (demo_wt e <= 20) by (unfold demo_wt; destruct (e =? 2); lia). lia.
Qed.

Lemma demo_weighing : weighing (Some demo_weight) 0 demo_dag demo_wt.
Proof.
  split; [done|intros e _ _; unfold demo_wt; destruct (e =? 2); lia|].
  intros k i j Hi Hp. assert (Hj : path demo_dag demo_wt k i j -> is_node demo_dag j).
  { clear Hp. intros Hp. induction Hp as [a|a e k c He Hf _ IH]; [done|]. apply IH.
    apply (follows_is_node demo_dag true a); [apply demo_dag_wf|done|by exists e]. }
  specialize (Hj Hp). apply demo_path_light in Hp; [|done].
  destruct (demo_dag_node _ Hi) as [->|[->| ->]], (demo_dag_node _ Hj) as [->|[->| ->]]; lia.
Qed.

(** The direct edge wins the longest distance, the way around the shortest. *)
Lemma max_depth_is_heaviest_witness :
  pgm_get_max_depth (Node_t 0 2) (Some demo_weight) (demo_state demo_dag) = Ok (dofZ 20, demo_state demo_dag) /\
  exists k, (exists i, source demo_dag i /\ path demo_dag demo_wt k i 2) /\
    forall i j, is_node demo_dag i -> path demo_dag demo_wt j i 2 -> j <= k.
Proof.
  split; [vm_compute; reflexivity|].
  destruct (max_depth_is_heaviest (demo_state demo_dag) 0 demo_dag 2 (Some demo_weight) demo_wt) as (d & k & _ & _ & Hk);
    [apply demo_dag_state | reflexivity | reflexivity | apply demo_dag_wf | apply demo_dag_names |
     apply demo_dag_linked | apply demo_dag_acyclic | vm_compute; split; [discriminate|reflexivity] |
     apply demo_weighing |].
  by exists k.
Defined.

Lemma min_depth_is_lightest_witness :
  exists k, pgm_get_min_depth (Node_t 0 2) (Some demo_weight) (demo_state demo_dag) =
      Ok (dofZ k, demo_state demo_dag) /\ dofZ k = dofZ 6.
Proof.
  destruct (min_depth_is_lightest (demo_state demo_dag) 0 demo_dag 2 (Some demo_weight) demo_wt) as (k & E & _);
    [apply demo_dag_state | reflexivity | reflexivity | apply demo_dag_wf | apply demo_dag_names |
     apply demo_dag_linked | apply demo_dag_acyclic | vm_compute; split; [discriminate|reflexivity] |
     apply demo_weighing |].
  exists k. split; [exact E|].
  assert (E' : pgm_get_min_depth (Node_t 0 2) (Some demo_weight) (demo_state demo_dag) =
    Ok (dofZ 6, demo_state demo_dag)) by (vm_compute; reflexivity).
  rewrite E' in E. by injection E.
Defined.

End Depth.
