(* ===== verification/Print.v ===== *)
(** * Printing a graph (src/pgm.cpp, [pgm_print_graph])

    The text written for a graph, in the language of GraphViz, and that it can
    be read back: a reader that looks at one line at a time finds exactly the
    nodes and the edges of the graph. *)

From S2P Require Import Prelude Ring Types Sys Structure GraphInit GraphWf Query Search Lookup.
From Stdlib Require Import Ascii.

Module Print.
Import Types Sys Structure GraphInit GraphWf Query Search Lookup.
#[local] Open Scope Z_scope.

(** ** Characters and formats *)

Definition tab : list ascii := ["009"%char].
Definition nl : list ascii := ["010"%char].
Definition dq : list ascii := ["034"%char].

Definition quoted (t : list ascii) : list ascii := dq ++ t ++ dq.

Definition iscntrl (c : ascii) : bool := (N_of_ascii c <? 32)%N || (N_of_ascii c =? 127)%N.

Definition digit (d : Z) : ascii := ascii_of_N (Z.to_N (48 + d)).

Fixpoint dec_digits (fuel : nat) (n : Z) : list ascii :=
  match fuel with
  | O => []
  | S fuel => if n <? 10 then [digit n] else dec_digits fuel (n / 10) ++ [digit (n mod 10)]
  end.

(** [%lu] of a number below 2^64 has at most twenty digits. *)
Definition fmt_lu (n : Z) : list ascii := dec_digits 20 n.
Definition fmt_d (n : Z) : list ascii := if n <? 0 then lit "-" ++ fmt_lu (- n) else fmt_lu n.

(** ** The code *)

Definition edgeTypeStr (e : pgm_edge) : list ascii :=
  match e_ops e with
  | Some pgm_ring_edge_ops => lit "ring"
  | Some pgm_fifo_edge_ops => lit "fifo"
  | Some pgm_mq_edge_ops => lit "mq"
  | Some pgm_sock_stream_edge_ops => lit "stream"
  | Some pgm_cv_edge_ops => lit "cv"
  | None => lit "unknown"
  end.

Fixpoint filter_ctrlchars (str : list ascii) (len : nat) : list ascii :=
  match len, str with
  | S len, c :: str =>
      if bool_decide (c = NUL) then c :: str
      else if iscntrl c then NUL :: str
      else c :: filter_ctrlchars str len
  | _, _ => str
  end.

(** [namebuf] after it was filled, as [%s] prints it.  When it holds no NUL the
    output function reads on past its end. *)
Definition namebuf (name : list ascii) : outcome (list ascii) :=
  match std_string (filter_ctrlchars (strncpy_bytes name PGM_NODE_NAME_LEN) PGM_NODE_NAME_LEN) with
  | Ok s => Ok (lit s)
  | Fault f => Fault f
  end.

Section Code.
Context {W : Type}.

Definition print_node (graph i : Z) : ST (pgm_state W) (list ascii) :=
  n ← rd_node graph i;
  degreeIn ← count_forward graph PGM_MAX_IN_DEGREE (nr_in n) (n_in n) 0;
  degreeOut ← count_forward graph PGM_MAX_OUT_DEGREE (nr_out n) (n_out n) 0;
  let isSrc := degreeIn =? 0 in
  let isSink := degreeOut =? 0 in
  name ← lift (namebuf (n_name n));
  mret (tab ++ fmt_d i
    ++ lit " [shape=" ++ (if isSrc || isSink then lit "doublecircle" else lit "circle")
    ++ lit ", style=" ++ (if isSrc || isSink then lit "filled" else quoted [])
    ++ lit ", color=" ++ (if isSrc then quoted (lit "#56A0D3")
                          else if isSink then quoted (lit "#E04050D3") else quoted [])
    ++ lit ", label=" ++ quoted name ++ lit "];" ++ nl).

(** [snprintf(thresh, sizeof(thresh), ...)] keeps 79 characters. *)
Definition thresh (e : pgm_edge) : list ascii :=
  take 79 (if negb (is_backedge e) then lit "(" ++ fmt_lu (nr_threshold (e_attr e)) ++ lit ")"
           else lit "(" ++ fmt_lu (nr_threshold (e_attr e)) ++ lit ", " ++ fmt_lu (nr_skips e)
                  ++ lit ")").

Definition print_edge (graph i : Z) : ST (pgm_state W) (list ascii) :=
  e ← rd_edge graph i;
  name ← lift (namebuf (e_name e));
  mret (tab ++ fmt_d (e_producer e) ++ lit " -> " ++ fmt_d (e_consumer e)
    ++ lit " [style=" ++ (if negb (is_backedge e) then lit "solid" else lit "dashed")
    ++ lit ", color=" ++ (if is_data_passing e then lit "blue" else lit "dimgray")
    ++ lit ", label="
    ++ quoted ((if is_signal_driven e && negb (bool_decide (e_ops e = Some pgm_cv_edge_ops))
                then lit "fast_" else []) ++ edgeTypeStr e ++ lit "_" ++ name)
    ++ lit ", headlabel=" ++ quoted (fmt_lu (nr_consume (e_attr e)) ++ lit " " ++ thresh e)
    ++ lit ", taillabel=" ++ quoted (fmt_lu (nr_produce (e_attr e))) ++ lit "]" ++ nl).

(** What is done under the lock.  The second part of the result is what was
    written to [outs]. *)
Definition print_locked (graph : Z) : ST (pgm_state W) (Z * list ascii) :=
  g ← rd_graph graph;
  name ← lift (namebuf (g_name g));
  let outs := lit "digraph G {" ++ nl ++ tab ++ lit "rankdir=TB;" ++ nl
    ++ tab ++ lit "size=" ++ quoted (lit "11,8.5") ++ lit ";" ++ nl
    ++ tab ++ lit "label=" ++ quoted name ++ lit ";" ++ nl in
  outs ← for_acc (upto (nr_nodes g)) outs (fun i outs =>
    t ← print_node graph i; mret (outs ++ t));
  outs ← for_acc (upto (nr_edges g)) outs (fun i outs =>
    t ← print_edge graph i; mret (outs ++ t));
  mret (0, outs ++ lit "}" ++ nl).

Definition pgm_print_graph (graph : Z) : ST (pgm_state W) (Z * list ascii) :=
  ok ← is_valid_graph graph;
  if negb ok then mret (-1, []) else locked graph (print_locked graph).

End Code.

(** ** A reader

    It looks for lines that start with a number: an edge when an arrow and
    another number follow, a node when a bracket does. *)

Definition is_digit (c : ascii) : bool := (48 <=? N_of_ascii c)%N && (N_of_ascii c <=? 57)%N.

Fixpoint read_num (acc : Z) (l : list ascii) : Z * list ascii :=
  match l with
  | c :: rest => if is_digit c then read_num (10 * acc + (Z.of_N (N_of_ascii c) - 48)) rest
                 else (acc, l)
  | [] => (acc, l)
  end.

Inductive item := NodeItem (i : Z) | EdgeItem (p c : Z).

Definition read_line (l : list ascii) : option item :=
  match l with
  | c :: d :: rest =>
      if bool_decide ([c] = tab) && is_digit d then
        let '(n, r) := read_num 0 (d :: rest) in
        if bool_decide (take 2 r = lit " [") then Some (NodeItem n)
        else if bool_decide (take 4 r = lit " -> ")
        then Some (EdgeItem n (fst (read_num 0 (drop 4 r))))
        else None
      else None
  | _ => None
  end.

Fixpoint lines (cur l : list ascii) : list (list ascii) :=
  match l with
  | [] => []
  | c :: l => if bool_decide ([c] = nl) then cur :: lines [] l else lines (cur ++ [c]) l
  end.

Definition read_graph (t : list ascii) : list item := omap read_line (lines [] t).

(** ** Characters *)

Lemma digit_code d : 0 <= d < 10 -> N_of_ascii (digit d) = Z.to_N (48 + d).
Proof. intros Hd. unfold digit. apply N_ascii_embedding. lia. Qed.

Lemma digit_is_digit d : 0 <= d < 10 -> is_digit (digit d) = true.
Proof. intros Hd. unfold is_digit. rewrite digit_code by done. apply andb_true_iff. split; apply N.leb_le; lia. Qed.

Lemma digits_are n k : 0 <= n -> Forall (fun c => is_digit c = true) (dec_digits k n).
Proof.
  revert n. induction k as [|k IH]; intros n Hn; simpl; [constructor|].
  destruct (Z.ltb_spec n 10).
  - constructor; [|done]. apply digit_is_digit. lia.
  - apply Forall_app. split; [apply IH, Z.div_pos; lia|]. constructor; [|done].
    apply digit_is_digit, Z.mod_pos_bound. lia.
Qed.

(** What the reader makes of a row of digits. *)
Definition value (acc : Z) (l : list ascii) : Z :=
  fold_left (fun a c => 10 * a + (Z.of_N (N_of_ascii c) - 48)) l acc.

Lemma read_num_digits l acc rest :
  Forall (fun c => is_digit c = true) l ->
  read_num acc (l ++ rest) = read_num (value acc l) rest.
Proof.
  revert acc. induction l as [|c l IH]; intros acc Hl; [done|].
  apply Forall_cons in Hl as [Hc Hl]. simpl. rewrite Hc. by rewrite IH.
Qed.

Lemma value_digits k n : 0 <= n < 10 ^ Z.of_nat k -> value 0 (dec_digits k n) = n.
Proof.
  revert n. induction k as [|k IH]; intros n Hn; simpl; [simpl in Hn; lia|].
  assert (Hdig : forall d, 0 <= d < 10 -> Z.of_N (N_of_ascii (digit d)) - 48 = d)
    by (intros d Hd; rewrite digit_code by done; lia).
  destruct (Z.ltb_spec n 10).
  - unfold value. cbn [fold_left]. rewrite Hdig by lia. lia.
  - unfold value. rewrite fold_left_app. cbn [fold_left]. fold (value 0 (dec_digits k (n / 10))).
    rewrite Nat2Z.inj_succ, Z.pow_succ_r in Hn by lia.
    rewrite IH by (split; [apply Z.div_pos | apply Z.div_lt_upper_bound]; lia).
    rewrite Hdig by (apply Z.mod_pos_bound; lia). pose proof (Z.div_mod n 10). lia.
Qed.

Lemma dec_digits_nonempty k n : dec_digits (S k) n <> [].
Proof. simpl. destruct (n <? 10); [done|]. by destruct (dec_digits k (n / 10)). Qed.

(** A number the formats print in full. *)
Definition prints (n : Z) : Prop := 0 <= n < 2 ^ 64.

Lemma fmt_d_lu n : 0 <= n -> fmt_d n = fmt_lu n.
Proof. intros Hn. unfold fmt_d. by destruct (Z.ltb_spec n 0); [lia|]. Qed.

Lemma read_fmt n c rest :
  prints n -> is_digit c = false -> read_num 0 (fmt_lu n ++ c :: rest) = (n, c :: rest).
Proof.
  intros Hn Hc. unfold fmt_lu. rewrite read_num_digits by (apply digits_are; apply Hn).
  rewrite value_digits; [simpl; by rewrite Hc|].
  unfold prints in Hn. change (10 ^ Z.of_nat 20) with 100000000000000000000. lia.
Qed.

(** Text without control characters. *)
Definition clean (t : list ascii) : Prop := Forall (fun c => iscntrl c = false) t.

Lemma clean_app a b : clean (a ++ b) <-> clean a /\ clean b.
Proof. apply Forall_app. Qed.
Lemma clean_take k t : clean t -> clean (take k t).
Proof. apply Forall_take. Qed.
Lemma clean_quoted t : clean t -> clean (quoted t).
Proof. intros Ht. unfold quoted, clean. rewrite !Forall_app. split_and!; [by repeat constructor | done | by repeat constructor]. Qed.

Lemma clean_digits l : Forall (fun c => is_digit c = true) l -> clean l.
Proof.
  intros Hl. apply (Forall_impl _ _ _ Hl). intros c [H1 H2]%andb_true_iff. unfold iscntrl. apply orb_false_iff.
  apply N.leb_le in H1, H2. split; [apply N.ltb_ge | apply N.eqb_neq]; lia.
Qed.
Lemma clean_fmt_lu n : 0 <= n -> clean (fmt_lu n).
Proof. intros Hn. by apply clean_digits, digits_are. Qed.

Lemma strncpy_bytes_length src n : length (strncpy_bytes src n) = n.
Proof.
  revert src. induction n as [|n IH]; intros [|c src]; simpl; try done; [by rewrite IH|].
  case_bool_decide; simpl; by rewrite IH.
Qed.

Lemma filter_prints b k :
  (length b <= k)%nat ->
  match std_string (filter_ctrlchars b k) with
  | Ok s => clean (lit s)
  | Fault _ => clean b
  end.
Proof.
  revert k. induction b as [|c b IH]; intros [|k] Hk; simpl in *; try (constructor || lia).
  specialize (IH k ltac:(lia)).
  case_bool_decide as Hc; simpl; [rewrite bool_decide_eq_true_2 by done; constructor|].
  destruct (iscntrl c) eqn:E; [constructor|]. simpl. rewrite bool_decide_eq_false_2 by done.
  destruct (std_string _); simpl; by constructor.
Qed.

(** The name ends within its array, or something in it ends it. *)
Definition name_ends (name : list ascii) : Prop :=
  Exists (fun c => iscntrl c = true) (strncpy_bytes name PGM_NODE_NAME_LEN).

Lemma namebuf_prints name : name_ends name -> exists t, namebuf name = Ok t /\ clean t.
Proof.
  intros (c & Hc & Hi)%Exists_exists. unfold namebuf.
  pose proof (filter_prints (strncpy_bytes name PGM_NODE_NAME_LEN) PGM_NODE_NAME_LEN) as Hf.
  destruct (std_string _); [eexists; split; [done|]; apply Hf; by rewrite strncpy_bytes_length|].
  rewrite strncpy_bytes_length in Hf. specialize (Hf (le_n _)).
  unfold clean in Hf. rewrite Forall_forall in Hf.
  by rewrite (Hf c Hc) in Hi.
Qed.

(** ** Lines *)

Lemma lines_line cur a rest :
  "010"%char ∉ a ->
  lines cur (a ++ nl ++ rest) = (cur ++ a) :: lines [] rest.
Proof.
  revert cur. induction a as [|c a IH]; intros cur Ha; simpl.
  - by rewrite app_nil_r.
  - rewrite bool_decide_eq_false_2 by (intros [= ->]; apply Ha; constructor).
    rewrite IH by set_solver. by rewrite <- app_assoc.
Qed.

Lemma clean_no_nl t : clean t -> "010"%char ∉ t.
Proof. unfold clean. rewrite Forall_forall. intros Ht Hin. specialize (Ht _ Hin). done. Qed.

Lemma read_any line rest :
  "010"%char ∉ line ->
  read_graph (line ++ nl ++ rest) =
  match read_line line with Some x => [x] | None => [] end ++ read_graph rest.
Proof.
  intros Hb. unfold read_graph. rewrite lines_line by done. rewrite app_nil_l.
  cbn [omap list_omap]. by destruct (read_line line).
Qed.

(** One line: a tab and text without control characters. *)
Lemma read_one body rest :
  clean body ->
  read_graph (tab ++ body ++ nl ++ rest) =
  match read_line (tab ++ body) with Some x => [x] | None => [] end ++ read_graph rest.
Proof.
  intros Hb%clean_no_nl. rewrite <- read_any by set_solver. by rewrite <- app_assoc.
Qed.

(** A line that starts with a number. *)
Lemma read_line_num n rest c :
  prints n -> is_digit c = false ->
  read_line (tab ++ fmt_lu n ++ c :: rest) =
  (if bool_decide (take 2 (c :: rest) = lit " [") then Some (NodeItem n)
   else if bool_decide (take 4 (c :: rest) = lit " -> ")
   then Some (EdgeItem n (fst (read_num 0 (drop 4 (c :: rest))))) else None).
Proof.
  intros Hn Hc. pose proof (read_fmt n c rest Hn Hc) as Hr.
  pose proof (digits_are n 20 (proj1 Hn)) as Hd. fold (fmt_lu n) in Hd.
  destruct (fmt_lu n) as [|d l] eqn:E; [by apply dec_digits_nonempty in E|].
  apply Forall_cons in Hd as [Hd _].
  unfold read_line. cbn [app tab]. rewrite Hd. cbn [app] in Hr. by rewrite Hr.
Qed.

Lemma read_node_line i X rest :
  prints i -> clean X ->
  read_graph (tab ++ fmt_d i ++ lit " [" ++ X ++ nl ++ rest) = NodeItem i :: read_graph rest.
Proof.
  intros Hi HX. rewrite fmt_d_lu by apply Hi.
  replace (fmt_lu i ++ lit " [" ++ X ++ nl ++ rest) with ((fmt_lu i ++ lit " [" ++ X) ++ nl ++ rest)
    by by rewrite <- !app_assoc.
  rewrite read_one by (rewrite !clean_app; split_and!; [apply clean_fmt_lu, Hi | by repeat constructor | done]).
  change (lit " [" ++ X) with (" "%char :: "["%char :: X).
  by rewrite read_line_num.
Qed.

Lemma read_edge_line p c X rest :
  prints p -> prints c -> clean X ->
  read_graph (tab ++ fmt_d p ++ lit " -> " ++ fmt_d c ++ lit " [" ++ X ++ nl ++ rest) =
  EdgeItem p c :: read_graph rest.
Proof.
  intros Hp Hc HX. rewrite !fmt_d_lu by (apply Hp || apply Hc).
  replace (fmt_lu p ++ lit " -> " ++ fmt_lu c ++ lit " [" ++ X ++ nl ++ rest)
    with ((fmt_lu p ++ lit " -> " ++ fmt_lu c ++ lit " [" ++ X) ++ nl ++ rest)
    by by rewrite <- !app_assoc.
  rewrite read_one by (rewrite !clean_app; split_and!;
    [apply clean_fmt_lu, Hp | by repeat constructor | apply clean_fmt_lu, Hc | by repeat constructor | done]).
  change (lit " -> " ++ fmt_lu c ++ lit " [" ++ X)
    with (" "%char :: "-"%char :: ">"%char :: " "%char :: fmt_lu c ++ " "%char :: "["%char :: X).
  rewrite read_line_num by done.
  match goal with |- context [read_num 0 (drop 4 ?l)] =>
    change (drop 4 l) with (fmt_lu c ++ " "%char :: "["%char :: X) end.
  by rewrite read_fmt.
Qed.

(** Text in which every piece is a line of its own reads as the list of what
    the pieces stand for. *)
Lemma read_pieces (l : list Z) (piece : Z -> list ascii) (what : Z -> item) rest :
  (forall i r, i ∈ l -> read_graph (piece i ++ r) = what i :: read_graph r) ->
  read_graph (concat (piece <$> l) ++ rest) = (what <$> l) ++ read_graph rest.
Proof.
  induction l as [|i l IH]; intros Hl; [done|].
  rewrite !fmap_cons. cbn [concat app]. rewrite <- app_assoc, Hl by constructor.
  f_equal. apply IH. intros j r Hj. apply Hl. by constructor.
Qed.

Lemma fold_append (l : list Z) (piece : Z -> list ascii) out :
  fold_left (fun out i => out ++ piece i) l out = out ++ concat (piece <$> l).
Proof.
  revert out. induction l as [|i l IH]; intros out; simpl; [by rewrite app_nil_r|].
  by rewrite IH, <- app_assoc.
Qed.

(** ** The output *)

Section Calls.
Context {W : Type}.
Implicit Types (s : pgm_state W) (gr : pgm_graph).

(** Counting the forward edges of a list of edges that exist. *)
Lemma count_forward_some s g gr size nr l :
  has_graph s g gr -> nr <= size ->
  (forall j, 0 <= j < nr -> 0 <= cell l j < PGM_MAX_EDGES) ->
  exists d, count_forward g size nr l 0 s = Ok (d, s).
Proof.
  intros Hg Hn Hl. eexists. unfold count_forward. apply (for_acc_pure _ _ (fun j k =>
    if negb (is_backedge (gedge gr (cell l j))) then k + 1 else k)).
  intros j k Hj%elem_of_upto. erewrite bind_step by (unfold lift; by rewrite aget_ok by lia). cbv beta.
  specialize (Hl j Hj). by st_step.
Qed.

Lemma listed_range gr i j :
  graph_wf gr -> is_node gr i ->
  (0 <= j < nr_in (gnode gr i) -> 0 <= cell (n_in (gnode gr i)) j < PGM_MAX_EDGES) /\
  (0 <= j < nr_out (gnode gr i) -> 0 <= cell (n_out (gnode gr i)) j < PGM_MAX_EDGES).
Proof.
  intros Hwf Hi. split; intros Hj; apply (listed_in_range gr i); try done; [left | right];
    apply list_elem_of_fmap; exists j; by split; [|apply elem_of_upto].
Qed.

Lemma text_ends (T X a : list ascii) s :
  T = X ++ nl -> Ok (a ++ T, s) = Ok (a ++ X ++ nl, s).
Proof. by intros ->. Qed.

Lemma print_node_runs s g gr i :
  has_graph s g gr -> graph_wf gr -> is_node gr i -> name_ends (n_name (gnode gr i)) ->
  exists X, print_node g i s = Ok (tab ++ fmt_d i ++ lit " [" ++ X ++ nl, s) /\ clean X.
Proof.
  intros Hg Hwf Hi (name & En & Hname)%namebuf_prints. pose proof (gw_nodes gr Hwf).
  pose proof (gw_node gr Hwf i Hi) as Hn. unfold is_node in Hi. unfold print_node. st_step. fold (gnode gr i).
  destruct (count_forward_some s g gr PGM_MAX_IN_DEGREE (nr_in (gnode gr i)) (n_in (gnode gr i)))
    as [din Ein]; [done | pose proof (nw_in _ _ Hn); lia | intros j; apply listed_range; done |].
  destruct (count_forward_some s g gr PGM_MAX_OUT_DEGREE (nr_out (gnode gr i)) (n_out (gnode gr i)))
    as [dout Eout]; [done | pose proof (nw_out _ _ Hn); lia | intros j; apply listed_range; done |].
  erewrite bind_step by done. cbv beta. erewrite bind_step by done. cbv beta zeta.
  rewrite En. erewrite bind_step by done. cbv beta.
  unfold mret, ST_ret. change (lit " [shape=") with (lit " [" ++ lit "shape=").
  rewrite <- (app_assoc (lit " [")), (app_assoc tab), (app_assoc (tab ++ _)).
  eexists. split.
  - rewrite (app_assoc tab), (app_assoc (tab ++ fmt_d i) (lit " [") (_ ++ nl)).
    apply text_ends. rewrite !app_assoc. reflexivity.
  - rewrite !clean_app. split_and!; try (repeat case_match; by repeat constructor). by apply clean_quoted.
Qed.

(** The numbers of an edge are in the range of their C types, its ends not
    negative. *)
Record edge_in_range (e : pgm_edge) : Prop := {
  er_producer : 0 <= e_producer e < 2 ^ 31;
  er_consumer : 0 <= e_consumer e < 2 ^ 31;
  er_produce : prints (nr_produce (e_attr e));
  er_consume : prints (nr_consume (e_attr e));
  er_threshold : prints (nr_threshold (e_attr e));
  er_skips : prints (nr_skips e)
}.

Lemma clean_thresh e : edge_in_range e -> clean (thresh e).
Proof.
  intros [_ _ _ _ [Ht _] [Hs _]]. apply clean_take. destruct (negb _); rewrite !clean_app;
    split_and!; try (by repeat constructor); by apply clean_fmt_lu.
Qed.

Lemma clean_edgeTypeStr e : clean (edgeTypeStr e).
Proof. unfold edgeTypeStr. repeat case_match; by repeat constructor. Qed.

Lemma print_edge_runs s g gr i :
  has_graph s g gr -> 0 <= i < PGM_MAX_EDGES -> edge_in_range (gedge gr i) ->
  name_ends (e_name (gedge gr i)) ->
  exists X, print_edge g i s =
    Ok (tab ++ fmt_d (e_producer (gedge gr i)) ++ lit " -> " ++ fmt_d (e_consumer (gedge gr i))
          ++ lit " [" ++ X ++ nl, s) /\ clean X.
Proof.
  intros Hg Hi He (name & En & Hname)%namebuf_prints. unfold print_edge. st_step.
  fold (gedge gr i). rewrite En. erewrite bind_step by done. cbv beta.
  unfold mret, ST_ret. change (lit " [style=") with (lit " [" ++ lit "style=").
  rewrite <- (app_assoc (lit " [")). eexists. split.
  - do 4 match goal with |- context [Ok (?a ++ ?b ++ ?c, s) = _] => rewrite !(app_assoc a b) end.
    apply text_ends. rewrite !app_assoc. reflexivity.
  - pose proof (clean_thresh _ He). destruct He as [_ _ [Hp _] [Hc _] _ _].
    rewrite !clean_app. split_and!; try (repeat case_match; by repeat constructor);
      apply clean_quoted.
    + rewrite !clean_app. repeat match goal with |- _ /\ _ => split end; try done;
        [|apply clean_edgeTypeStr|by repeat constructor].
      destruct (_ && _); [by repeat constructor|apply Forall_nil_2].
    + rewrite !clean_app. repeat match goal with |- _ /\ _ => split end; try done;
        [by apply clean_fmt_lu | by repeat constructor].
    + by apply clean_fmt_lu.
Qed.

Definition printed (r : outcome (list ascii * pgm_state W)) : list ascii :=
  match r with Ok (t, _) => t | Fault _ => [] end.

(** The pass over the nodes or over the edges. *)
Lemma print_pass s (l : list Z) (pr : Z -> ST (pgm_state W) (list ascii)) out :
  (forall i, i ∈ l -> exists t, pr i s = Ok (t, s)) ->
  for_acc l out (fun i out => t ← pr i; mret (out ++ t)) s =
  Ok (out ++ concat ((fun i => printed (pr i s)) <$> l), s).
Proof.
  intros Hl. rewrite <- fold_append. apply (for_acc_pure _ _ (fun i out => out ++ printed (pr i s))).
  intros i b Hi. destruct (Hl i Hi) as [t Et]. unfold mbind, ST_bind. by rewrite Et.
Qed.

Lemma read_header name rest :
  clean name ->
  read_graph ((lit "digraph G {" ++ nl ++ tab ++ lit "rankdir=TB;" ++ nl
      ++ tab ++ lit "size=" ++ quoted (lit "11,8.5") ++ lit ";" ++ nl
      ++ tab ++ lit "label=" ++ quoted name ++ lit ";" ++ nl) ++ rest) = read_graph rest.
Proof.
  intros Hn. rewrite <- !app_assoc.
  rewrite (read_any (lit "digraph G {")) by (apply clean_no_nl; by repeat constructor).
  rewrite (read_one (lit "rankdir=TB;")) by (by repeat constructor).
  rewrite (app_assoc (lit "size=")), (app_assoc (lit "size=" ++ _)), read_one
    by (rewrite !clean_app; split; [split|]; by repeat constructor).
  rewrite (app_assoc (lit "label=")), (app_assoc (lit "label=" ++ _)), read_one; [done|].
  rewrite !clean_app. split; [split|]; [by repeat constructor | by apply clean_quoted | by repeat constructor].
Qed.

Definition edge_item gr (e : Z) : item :=
  EdgeItem (e_producer (gedge gr e)) (e_consumer (gedge gr e)).

Lemma read_nodes s g gr rest :
  has_graph s g gr -> graph_wf gr ->
  (forall i, is_node gr i -> name_ends (n_name (gnode gr i))) ->
  read_graph (concat ((fun i => printed (print_node g i s)) <$> upto (nr_nodes gr)) ++ rest) =
  (NodeItem <$> upto (nr_nodes gr)) ++ read_graph rest.
Proof.
  intros Hg Hwf Hn. apply read_pieces. intros i r Hi%elem_of_upto.
  destruct (print_node_runs s g gr i Hg Hwf Hi (Hn i Hi)) as (X & -> & HX). cbn [printed].
  rewrite <- !app_assoc. apply read_node_line; [|done].
  pose proof (gw_nodes gr Hwf). unfold prints, PGM_MAX_NODES in *. lia.
Qed.

Lemma read_edges_text s g gr rest :
  has_graph s g gr -> graph_wf gr ->
  (forall e, 0 <= e < nr_edges gr -> name_ends (e_name (gedge gr e)) /\ edge_in_range (gedge gr e)) ->
  read_graph (concat ((fun i => printed (print_edge g i s)) <$> upto (nr_edges gr)) ++ rest) =
  (edge_item gr <$> upto (nr_edges gr)) ++ read_graph rest.
Proof.
  intros Hg Hwf He. apply read_pieces. intros i r Hi%elem_of_upto.
  pose proof (gw_edges gr Hwf). destruct (He i Hi) as [Hn Hr].
  destruct (print_edge_runs s g gr i Hg ltac:(lia) Hr Hn) as (X & -> & HX). cbn [printed].
  rewrite <- !app_assoc. destruct Hr. apply read_edge_line; [unfold prints; lia..|done].
Qed.

(** Everything that is printed can be printed. *)
Record printable gr : Prop := {
  pr_graph : name_ends (g_name gr);
  pr_nodes : forall i, is_node gr i -> name_ends (n_name (gnode gr i));
  pr_edges : forall e, 0 <= e < nr_edges gr ->
    name_ends (e_name (gedge gr e)) /\ edge_in_range (gedge gr e)
}.

Lemma print_locked_runs s g gr :
  has_graph s g gr -> graph_wf gr -> printable gr ->
  exists text, print_locked g s = Ok (0, text, s) /\
    read_graph text =
      (NodeItem <$> upto (nr_nodes gr)) ++ (edge_item gr <$> upto (nr_edges gr)).
Proof.
  intros Hg Hwf [(name & En & Hname)%namebuf_prints Hn He]. pose proof (gw_edges gr Hwf).
  eexists. split.
  - unfold print_locked. st_step. rewrite En. erewrite bind_step by done. cbv beta zeta.
    erewrite bind_step; [|apply print_pass].
    + cbv beta. erewrite bind_step; [|apply print_pass]; [cbv beta; reflexivity|].
      intros e Hi%elem_of_upto. destruct (He e Hi) as [H1 H2].
      destruct (print_edge_runs s g gr e) as (X & -> & _); [done | lia | done | done | eauto].
    + intros i Hi%elem_of_upto.
      destruct (print_node_runs s g gr i Hg Hwf Hi (Hn i Hi)) as (X & -> & _). eauto.
  - rewrite <- (app_assoc (_ ++ concat _)), <- (app_assoc _ (concat _) (concat _ ++ _)).
    rewrite read_header by done. rewrite (read_nodes s g gr) by done.
    rewrite (read_edges_text s g gr) by done. by rewrite app_nil_r.
Qed.

(** C25. [pgm_print_graph], on a well-formed, unlocked graph in which the name of the
    graph and of every node and edge has its terminator (or some control character)
    within its array (a name of 80 characters, which is accepted, does not, and is read
    past its end) and the numbers of every edge
    slot fit their C types, writes a text that shows the graph: reading it line by
    line gives its nodes, in order, and then one edge for every edge slot, with
    its producer and its consumer; the graph is left as it was and unlocked. *)
Theorem pgm_print_graph_shows s g gr :
  has_graph s g gr -> in_use gr = true -> g_lock gr = false -> graph_wf gr -> printable gr ->
  exists text, pgm_print_graph g s = Ok (0, text, s) /\
    read_graph text =
      (NodeItem <$> upto (nr_nodes gr)) ++ (edge_item gr <$> upto (nr_edges gr)).
Proof.
  intros Hg Hu Hl Hwf Hp. set (gr1 := gr <| g_lock := true |>).
  destruct (print_locked_runs (put_graph g gr1 s) g gr1) as (text & Et & Hread);
    [by eapply has_graph_put | by apply graph_wf_lock | by destruct Hp |].
  exists text. split; [|done]. unfold pgm_print_graph. st_step. rewrite Hu. cbn [negb].
  unfold locked. st_step. fold gr1. erewrite bind_step by done. cbv beta. st_step.
  unfold mret, ST_ret. subst gr1. by rewrite put_put, relock, put_graph_id.
Qed.

End Calls.

(** ** Concrete graphs *)

Lemma demo_printable : printable demo_chain.
Proof.
  split.
  - apply (bool_decide_unpack _). vm_compute. exact I.
  - intros i Hi. assert (i = 0 \/ i = 1) as [->| ->] by (unfold is_node in Hi; change (nr_nodes demo_chain) with 2 in Hi; lia);
      apply (bool_decide_unpack _); vm_compute; exact I.
  - intros e Hi. assert (e = 0) as -> by (change (nr_edges demo_chain) with 1 in Hi; lia).
    split; [apply (bool_decide_unpack _); vm_compute; exact I|].
    split; vm_compute; split; congruence.
Qed.

(** An edge slot that was counted but never filled, as a call leaves it that
    finds the list of a node full, is printed as an edge from node 0 to itself. *)
Example print_shows_empty_slot :
  match pgm_print_graph 0 (demo_state (count_edge_slot demo_nodes)) with
  | Ok (_, text, _) => read_graph text
  | Fault _ => []
  end = [NodeItem 0; NodeItem 1; EdgeItem 0 0].
Proof. vm_compute. reflexivity. Qed.

(** A name of 80 characters is accepted, fills its array, and is printed from a
    buffer without a terminator. *)
Example print_long_name_faults :
  let name := replicate 80 "x"%char in
  bad_name_len name PGM_NODE_NAME_LEN = false /\
  pgm_print_graph 0 (demo_state (add_node name demo_graph)) = Fault OutOfBounds.
Proof. vm_compute. done. Qed.

Lemma pgm_print_graph_shows_witness :
  exists text, pgm_print_graph 0 (demo_state demo_chain) = Ok (0, text, demo_state demo_chain) /\
    read_graph text = [NodeItem 0; NodeItem 1; EdgeItem 0 1].
Proof.
  apply (pgm_print_graph_shows (demo_state demo_chain) 0 demo_chain);
    [by apply demo_usable | done | done | apply demo_chain_wf | apply demo_printable].
Defined.

End Print.
