(* ===== verification/Ownership.v ===== *)
(** * Claiming and releasing nodes (src/pgm.cpp, "Ownership Routines")

    A node belongs to at most one thread.  Claiming opens the node's inbound
    edges and then its outbound ones; releasing closes them. *)

From S2P Require Import Prelude Ring Types Sys Structure Memory Ipc GraphInit GraphWf Teardown Query Search Lookup.
From Stdlib Require Import Ascii.

Module Ownership.
Import Types Sys Structure Memory Ipc GraphInit GraphWf Query Search Lookup.
#[local] Open Scope Z_scope.

Section Ownership.
Context {W : Type} `{Syscalls W}.
(** How often a producer retries to open a FIFO. *)
Context (retries : nat).

(** [__pgm_claim_node]: whether every edge could be opened. *)
Definition claim_node (g n : Z) : ST (pgm_state W) Z :=
  nd ← rd_node g n;
  err ← for_acc (upto (nr_in nd)) false (fun i was_error =>
    x ← lift (in_of nd i);
    e ← rd_edge g x;
    o ← lift (deref (e_ops e));
    ret ← ops_open_consumer o g (e_producer e) n x;
    mret (was_error || negb (ret =? 0)));
  err ← for_acc (upto (nr_out nd)) err (fun i was_error =>
    x ← lift (out_of nd i);
    e ← rd_edge g x;
    o ← lift (deref (e_ops e));
    ret ← ops_open_producer retries o g n (e_consumer e) x;
    mret (was_error || negb (ret =? 0)));
  mret (if err : bool then -1 else 0).

(** [(tid == 0) ? pgm_gettid() : tid] *)
Definition owner_tid (tid : Z) : ST (pgm_state W) Z :=
  if tid =? 0 then pgm_gettid else mret tid.

Definition pgm_claim_node (node : node_t) (tid : Z) : ST (pgm_state W) Z :=
  ok ← is_valid_graph (nd_graph node);
  if negb ok then mret (-1)
  else
    let g := nd_graph node in
    mutex_lock g ;;
    gr ← rd_graph g;
    if (nd_node node <? 0) || (nr_nodes gr <=? nd_node node)
    then mutex_unlock g ;; mret (-1)
    else
      n ← rd_node g (nd_node node);
      if negb (owner n =? UNCLAIMED_NODE) then mutex_unlock g ;; mret (-1)
      else
        t ← owner_tid tid;
        upd_node g (nd_node node) (fun n => n <| owner := t |>) ;;
        mutex_unlock g ;;
        claim_node g (nd_node node).

Definition pgm_claim_any_node (graph : Z) (node : option node_t) (tid : Z)
    : ST (pgm_state W) (Z * option node_t) :=
  ok ← is_valid_graph graph;
  if negb ok then mret (-1, node)
  else match node with
  | None => mret (-1, node)
  | Some _ =>
      mutex_lock graph ;;
      gr ← rd_graph graph;
      found ← for_break (upto (nr_nodes gr)) (fun i =>
        n ← rd_node graph i;
        if owner n =? UNCLAIMED_NODE then
          t ← owner_tid tid;
          upd_node graph i (fun n => n <| owner := t |>) ;;
          mret (Some i)
        else mret None);
      mutex_unlock graph ;;
      match found with
      | None => mret (-1, node)
      | Some i =>
          ret ← claim_node graph i;
          mret (ret, if ret =? 0 then Some (Node_t graph i) else node)
      end
  end.

Definition pgm_release_node (node : node_t) (tid : Z) : ST (pgm_state W) Z :=
  ok ← is_valid_graph (nd_graph node);
  if negb ok then mret (-1)
  else
    let g := nd_graph node in
    tid ← owner_tid tid;
    mutex_lock g ;;
    gr ← rd_graph g;
    if (nd_node node <? 0) || (nr_nodes gr <=? nd_node node)
    then mutex_unlock g ;; mret (-1)
    else
      n ← rd_node g (nd_node node);
      if negb (owner n =? tid) || (owner n =? UNCLAIMED_NODE)
      then mutex_unlock g ;; mret (-1)
      else
        err ← for_acc (upto (nr_out n)) false (fun i was_error =>
          x ← lift (out_of n i);
          e ← rd_edge g x;
          o ← lift (deref (e_ops e));
          ret ← ops_close_producer o g x;
          mret (was_error || negb (ret =? 0)));
        err ← for_acc (upto (nr_in n)) err (fun i was_error =>
          x ← lift (in_of n i);
          e ← rd_edge g x;
          o ← lift (deref (e_ops e));
          ret ← ops_close_consumer o g x;
          mret (was_error || negb (ret =? 0)));
        upd_node g (nd_node node) (fun n => n <| owner := UNCLAIMED_NODE |>) ;;
        mutex_unlock g ;;
        mret (if err : bool then -1 else 0).

(** ** Properties *)

Implicit Types (s : pgm_state W) (gr : pgm_graph).

Lemma keeps_claim_node g n : keeps_skel (W := W) g (claim_node g n).
Proof.
  unfold claim_node. apply keeps_bind; [keeps|]. intros nd.
  apply keeps_bind; [apply keeps_for_acc; intros; keeps|]. intros err.
  apply keeps_bind; [apply keeps_for_acc; intros; keeps|]. intros; keeps.
Qed.

(** The thread that ends up as the owner. *)
Definition tid_of s (tid : Z) : Z := if tid =? 0 then sys_gettid (world s) else tid.

Lemma owner_tid_at s tid : owner_tid tid s = Ok (tid_of s tid, s).
Proof. unfold owner_tid, tid_of. by destruct (tid =? 0). Qed.

(** Node [n] of a graph now belongs to [t]. *)
Definition set_owner (n t : Z) gr : pgm_graph :=
  gr <| nodes ::= at_node n (fun nd => nd <| owner := t |>) |>.

Lemma set_owner_equiv n t gr : gr ≡ set_owner n t gr.
Proof.
  split; [done|]. split; [|done]. intros i. simpl. unfold at_node. rewrite cell_insert.
  by case_decide; subst.
Qed.

Lemma owner_set_owner n t gr i :
  owner (gnode (set_owner n t gr) i) = if decide (n = i) then t else owner (gnode gr i).
Proof. unfold gnode. simpl. unfold at_node. rewrite cell_insert. by case_decide; subst. Qed.

(** A claimed node cannot be claimed: [pgm_claim_node] returns -1 and the
    process state is exactly as before, whoever asks. *)
Theorem pgm_claim_node_exclusive s g gr n tid :
  has_graph s g gr -> in_use gr = true -> g_lock gr = false -> graph_wf gr ->
  owner (gnode gr n) <> UNCLAIMED_NODE ->
  pgm_claim_node (Node_t g n) tid s = Ok (-1, s).
Proof.
  intros Hg Hu Hl Hwf Ho. pose proof (gw_nodes gr Hwf). unfold pgm_claim_node. simpl.
  st_step. rewrite Hu. simpl. st_step. st_step.
  assert (Hback : put_graph g ((gr <| g_lock := true |>) <| g_lock := false |>)
    (put_graph g (gr <| g_lock := true |>) s) = s) by (by rewrite put_put, relock, put_graph_id).
  simpl. destruct ((n <? 0) || (nr_nodes gr <=? n)) eqn:Hn.
  { st_step. unfold mret, ST_ret. by rewrite Hback. }
  bool_to_prop. st_step. simpl. fold (gnode gr n). rewrite (proj2 (Z.eqb_neq _ _) Ho). simpl.
  st_step. unfold mret, ST_ret. by rewrite Hback.
Qed.

(** A free node is marked before its edges are opened. *)
Lemma claim_free s g gr n tid :
  has_graph s g gr -> in_use gr = true -> g_lock gr = false -> graph_wf gr -> is_node gr n ->
  owner (gnode gr n) = UNCLAIMED_NODE ->
  pgm_claim_node (Node_t g n) tid s =
  claim_node g n (put_graph g (set_owner n (tid_of s tid) gr) s).
Proof.
  intros Hg Hu Hl Hwf Hn Ho. unfold pgm_claim_node. simpl. pose proof (gw_nodes gr Hwf).
  unfold is_node in Hn. st_step. rewrite Hu. simpl. st_step. st_step. simpl.
  replace (n <? 0) with false by lia. replace (nr_nodes gr <=? n) with false by lia.
  simpl. st_step. simpl. fold (gnode gr n). rewrite Ho. simpl.
  rewrite (bind_step _ _ _ _ _ (owner_tid_at _ tid)). st_step. st_step. rewrite !put_put.
  change (tid_of (put_graph g (gr <| g_lock := true |>) s) tid) with (tid_of s tid).
  do 2 f_equal. unfold set_owner, set_field. destruct gr; simpl in *; by subst.
Qed.

(** Claiming a free node: whenever the call returns, with or without errors
    from the edges it opened, the node belongs to the caller, every other node
    has the owner it had, and the graph is well formed and unlocked. *)
Theorem pgm_claim_node_takes s g gr n tid ret s' :
  has_graph s g gr -> in_use gr = true -> g_lock gr = false -> graph_wf gr ->
  is_node gr n -> owner (gnode gr n) = UNCLAIMED_NODE ->
  pgm_claim_node (Node_t g n) tid s = Ok (ret, s') ->
  exists gr', has_graph s' g gr' /\ graph_wf gr' /\ in_use gr' = true /\ g_lock gr' = false /\
    forall i, owner (gnode gr' i) = if decide (n = i) then tid_of s tid else owner (gnode gr i).
Proof.
  intros Hg Hu Hl Hwf Hn Ho E. rewrite (claim_free s g gr) in E by done.
  destruct (keeps_claim_node g n _ _ _ _ (has_graph_put _ _ _ _ Hg) E)
    as ((gr' & Hg' & Eq & Ew) & _).
  exists gr'. pose proof Eq as (Ef & _). injection Ef as Efu _ Efl _ _. simpl in *.
  split_and!; [done | | congruence | congruence |].
  - rewrite <- Eq. by rewrite <- set_owner_equiv.
  - intros i. by rewrite Ew, owner_set_owner.
Qed.

Lemma release_refused s g gr n tid :
  has_graph s g gr -> in_use gr = true -> g_lock gr = false -> graph_wf gr ->
  ~ is_node gr n \/ owner (gnode gr n) <> tid_of s tid \/ owner (gnode gr n) = UNCLAIMED_NODE ->
  pgm_release_node (Node_t g n) tid s = Ok (-1, s).
Proof.
  intros Hg Hu Hl Hwf Ho. pose proof (gw_nodes gr Hwf). unfold pgm_release_node. simpl.
  st_step. rewrite Hu. simpl. rewrite (bind_step _ _ _ _ _ (owner_tid_at s tid)). st_step. st_step.
  assert (Hback : put_graph g ((gr <| g_lock := true |>) <| g_lock := false |>)
    (put_graph g (gr <| g_lock := true |>) s) = s) by (by rewrite put_put, relock, put_graph_id).
  simpl. destruct ((n <? 0) || (nr_nodes gr <=? n)) eqn:Hn.
  { st_step. unfold mret, ST_ret. by rewrite Hback. }
  bool_to_prop. st_step. simpl. fold (gnode gr n).
  assert (Hrej : negb (owner (gnode gr n) =? tid_of s tid) || (owner (gnode gr n) =? UNCLAIMED_NODE) = true).
  { destruct Ho as [Hno|[Hno|Hno]]; [unfold is_node in Hno; lia| |].
    - by rewrite (proj2 (Z.eqb_neq _ _) Hno).
    - rewrite Hno. apply orb_true_r. }
  rewrite Hrej. st_step. unfold mret, ST_ret. by rewrite Hback.
Qed.

(** Only the owner can release a node: for anyone else, for a free node and
    for a node that does not exist, [pgm_release_node] returns -1 and changes
    nothing. *)
Theorem pgm_release_node_refuses s g gr n tid :
  has_graph s g gr -> in_use gr = true -> g_lock gr = false -> graph_wf gr ->
  ~ is_node gr n \/ owner (gnode gr n) <> tid_of s tid \/ owner (gnode gr n) = UNCLAIMED_NODE ->
  pgm_release_node (Node_t g n) tid s = Ok (-1, s).
Proof. apply release_refused. Qed.

(** *** Graphs of condition-variable edges *)

(** Every edge at node [n] is a condition-variable edge. *)
Definition cv_node gr (n : Z) : Prop := forall e,
  e ∈ in_list (gnode gr n) \/ e ∈ out_list (gnode gr n) ->
  e_ops (gedge gr e) = Some pgm_cv_edge_ops.

(** A loop over edges whose operation does nothing. *)
Lemma dummy_loop s g gr size nr (l : gmap Z Z) err
    (op : edge_ops -> pgm_edge -> Z -> ST (pgm_state W) Z) :
  has_graph s g gr -> 0 <= nr <= size ->
  (forall x, x ∈ (cell l <$> upto nr) ->
     0 <= x < PGM_MAX_EDGES /\ e_ops (gedge gr x) = Some pgm_cv_edge_ops) ->
  (forall e x, op pgm_cv_edge_ops e x s = Ok (0, s)) ->
  for_acc (upto nr) err (fun i was_error =>
    x ← lift (aget size l i);
    e ← rd_edge g x;
    o ← lift (deref (e_ops e));
    ret ← op o e x;
    mret (was_error || negb (ret =? 0))) s = Ok (err, s).
Proof.
  intros Hg Hnr Hl Hop. rewrite (for_acc_pure _ _ (fun _ b => b)).
  { f_equal. f_equal. generalize (upto nr). intros idx. by induction idx. }
  intros i b Hi%elem_of_upto. erewrite bind_step by (unfold lift; by rewrite aget_ok by lia).
  destruct (Hl (cell l i)) as [Hx Ho].
  { apply list_elem_of_fmap. exists i. by split; [|apply elem_of_upto]. }
  cbv beta. st_step. fold (gedge gr (cell l i)). rewrite Ho.
  rewrite (bind_step _ _ _ pgm_cv_edge_ops s) by done.
  rewrite (bind_step _ _ _ _ _ (Hop _ _)). simpl. by rewrite orb_false_r.
Qed.

Lemma cv_listed gr n :
  graph_wf gr -> is_node gr n -> cv_node gr n ->
  (forall x, x ∈ in_list (gnode gr n) ->
     0 <= x < PGM_MAX_EDGES /\ e_ops (gedge gr x) = Some pgm_cv_edge_ops) /\
  (forall x, x ∈ out_list (gnode gr n) ->
     0 <= x < PGM_MAX_EDGES /\ e_ops (gedge gr x) = Some pgm_cv_edge_ops).
Proof.
  intros Hwf Hn Hcv. split; intros x Hx; (split; [eapply (listed_in_range gr n); eauto | apply Hcv; auto]).
Qed.

Lemma claim_cv s g gr n :
  has_graph s g gr -> graph_wf gr -> is_node gr n -> cv_node gr n ->
  claim_node g n s = Ok (0, s).
Proof.
  intros Hg Hwf Hn Hcv. pose proof (gw_nodes gr Hwf). destruct (gw_node gr Hwf n Hn) as [Hi Ho].
  destruct (cv_listed gr n Hwf Hn Hcv) as [Hin Hout].
  unfold claim_node. assert (0 <= n < PGM_MAX_NODES) by (unfold is_node in Hn; lia).
  st_step. fold (gnode gr n).
  erewrite bind_step by (apply (dummy_loop s g gr _ _ _ _
    (fun o e x => ops_open_consumer o g (e_producer e) n x)); try done; lia).
  cbv beta. erewrite bind_step by (apply (dummy_loop s g gr _ _ _ _
    (fun o e x => ops_open_producer retries o g n (e_consumer e) x)); try done; lia).
  done.
Qed.

Lemma set_owner_wf n t gr : graph_wf gr -> graph_wf (set_owner n t gr).
Proof. intros. by rewrite <- set_owner_equiv. Qed.

Lemma set_owner_back n t gr :
  owner (gnode gr n) = UNCLAIMED_NODE -> set_owner n UNCLAIMED_NODE (set_owner n t gr) = gr.
Proof.
  intros Ho. unfold gnode, cell in Ho. destruct (nodes gr !! n) as [nd|] eqn:E; [|done]. simpl in Ho.
  unfold set_owner, at_node, set_field. simpl. rewrite cell_insert_eq, insert_insert_eq.
  destruct gr; simpl in *. f_equal. apply insert_id. unfold cell. rewrite E. simpl.
  destruct nd; simpl in *. by subst.
Qed.

Lemma release_cv s g gr n tid t :
  has_graph s g gr -> in_use gr = true -> g_lock gr = false -> graph_wf gr -> is_node gr n ->
  cv_node gr n -> owner (gnode gr n) = tid_of s tid -> tid_of s tid = t -> t <> UNCLAIMED_NODE ->
  pgm_release_node (Node_t g n) tid s =
  Ok (0, put_graph g (set_owner n UNCLAIMED_NODE gr) s).
Proof.
  intros Hg Hu Hl Hwf Hn Hcv Ho Ht Hne. pose proof (gw_nodes gr Hwf).
  destruct (gw_node gr Hwf n Hn) as [Hi Hoo]. destruct (cv_listed gr n Hwf Hn Hcv) as [Hin Hout].
  unfold pgm_release_node. simpl. st_step. rewrite Hu. simpl.
  rewrite (bind_step _ _ _ _ _ (owner_tid_at s tid)). st_step. st_step. simpl.
  unfold is_node in Hn. replace (n <? 0) with false by lia. replace (nr_nodes gr <=? n) with false by lia.
  simpl. st_step. simpl. fold (gnode gr n). rewrite Ho, Ht, Z.eqb_refl.
  rewrite (proj2 (Z.eqb_neq _ _) Hne). simpl.
  erewrite bind_step by (apply (dummy_loop _ g (gr <| g_lock := true |>) _ _ _ _
    (fun o e x => ops_close_producer o g x)); [eauto with pgm_st | lia | done | done]).
  cbv beta. erewrite bind_step by (apply (dummy_loop _ g (gr <| g_lock := true |>) _ _ _ _
    (fun o e x => ops_close_consumer o g x)); [eauto with pgm_st | lia | done | done]).
  cbv beta. st_step. st_step. unfold mret, ST_ret. rewrite !put_put. do 3 f_equal.
  unfold set_owner, at_node, set_field. destruct gr; simpl in *. by subst.
Qed.

(** C34. Claim and release round trip: a free node whose edges are
    condition-variable edges is claimed with result 0; then nobody but the
    claiming thread can release it, and when that thread does, the process state
    is exactly what it was before the claim. *)
Theorem claim_release_roundtrip s g gr n tid :
  has_graph s g gr -> in_use gr = true -> g_lock gr = false -> graph_wf gr -> is_node gr n ->
  cv_node gr n -> owner (gnode gr n) = UNCLAIMED_NODE -> tid_of s tid <> UNCLAIMED_NODE ->
  exists s1, pgm_claim_node (Node_t g n) tid s = Ok (0, s1) /\
    (forall t, tid_of s t <> tid_of s tid -> pgm_release_node (Node_t g n) t s1 = Ok (-1, s1)) /\
    pgm_release_node (Node_t g n) tid s1 = Ok (0, s).
Proof.
  intros Hg Hu Hl Hwf Hn Hcv Ho Ht. rewrite (claim_free s g gr) by done.
  set (gr1 := set_owner n (tid_of s tid) gr). set (s1 := put_graph g gr1 s).
  assert (Hg1 : has_graph s1 g gr1) by (by eapply has_graph_put).
  assert (Hwf1 : graph_wf gr1) by (by apply set_owner_wf).
  assert (Hown : owner (gnode gr1 n) = tid_of s tid) by (unfold gr1; rewrite owner_set_owner; by case_decide).
  assert (Hcv1 : cv_node gr1 n).
  { intros e He. apply Hcv. destruct (equiv_node gr gr1 n (set_owner_equiv _ _ _)) as (-> & -> & _). done. }
  exists s1. split_and!.
  - by apply (claim_cv s1 g gr1).
  - intros t Hne. apply (release_refused s1 g gr1); try done. right. left. rewrite Hown. auto.
  - rewrite (release_cv s1 g gr1 n tid (tid_of s tid)) by done. subst s1.
    rewrite put_put. subst gr1. rewrite set_owner_back by done. by rewrite put_graph_id.
Qed.

End Ownership.

(** ** Concrete runs *)

Lemma claimed_demo_wf : graph_wf (set_owner 1 77 demo_chain).
Proof. apply set_owner_wf, demo_chain_wf. Qed.

Lemma pgm_claim_node_exclusive_witness :
  pgm_claim_node 0 (Node_t 0 1) 5 (demo_state (set_owner 1 77 demo_chain)) =
  Ok (-1, demo_state (set_owner 1 77 demo_chain)).
Proof.
  apply (pgm_claim_node_exclusive 0 _ 0 (set_owner 1 77 demo_chain) 1 5);
    [by apply demo_usable | done | done | apply claimed_demo_wf | done].
Defined.

Lemma pgm_claim_node_takes_witness :
  exists ret s' gr', pgm_claim_node 0 (Node_t 0 1) 0 (demo_state demo_chain) = Ok (ret, s') /\
    has_graph s' 0 gr' /\ owner (gnode gr' 1) = 1234.
Proof.
  destruct (pgm_claim_node 0 (Node_t 0 1) 0 (demo_state demo_chain)) as [[ret s']|f] eqn:E;
    [|by vm_compute in E].
  destruct (pgm_claim_node_takes 0 (demo_state demo_chain) 0 demo_chain 1 0 ret s')
    as (gr' & Hg & _ & _ & _ & Hw); [apply demo_chain_state | done | done | apply demo_chain_wf
    | done | done | done |].
  exists ret, s', gr'. split; [done|]. split; [done|]. exact (Hw 1).
Defined.

Lemma pgm_release_node_refuses_witness :
  pgm_release_node (Node_t 0 1) 5 (demo_state (set_owner 1 77 demo_chain)) =
  Ok (-1, demo_state (set_owner 1 77 demo_chain)).
Proof.
  apply (pgm_release_node_refuses _ 0 (set_owner 1 77 demo_chain) 1 5);
    [by apply demo_usable | done | done | apply claimed_demo_wf | by right; left].
Defined.

Lemma demo_chain_lists :
  in_list (gnode demo_chain 1) = [0] /\ out_list (gnode demo_chain 1) = [] /\
  e_ops (gedge demo_chain 0) = Some pgm_cv_edge_ops.
Proof. vm_compute. done. Qed.

Lemma demo_chain_cv : cv_node demo_chain 1.
Proof.
  destruct demo_chain_lists as (Ei & Eo & Ec). unfold cv_node. rewrite Ei, Eo.
  by intros e [->%list_elem_of_singleton|[]%elem_of_nil].
Qed.

Lemma claim_release_roundtrip_witness :
  exists s1, pgm_claim_node 0 (Node_t 0 1) 0 (demo_state demo_chain) = Ok (0, s1) /\
    pgm_release_node (Node_t 0 1) 0 s1 = Ok (0, demo_state demo_chain).
Proof.
  destruct (claim_release_roundtrip 0 (demo_state demo_chain) 0 demo_chain 1 0)
    as (s1 & E & _ & Er); [apply demo_chain_state | done | done | apply demo_chain_wf
    | done | apply demo_chain_cv | done | done |].
  by exists s1.
Defined.

End Ownership.
