(* ===== verification/Stream.v ===== *)
(** * Passing data over edges (src/pgm.cpp, "Token Transmission Routines":
    [pgm_send_std_data] to [pgm_recv_data])

    Messages on FIFO, message-queue and socket edges are a tag byte followed by
    the data; ring edges carry the data alone and a command next to the ring. *)

From S2P Require Import Prelude Ring Types Sys Structure Memory Ipc.

Module Stream.
Import Types Sys Structure Memory Ipc.
#[local] Open Scope Z_scope.

(** [enum eWaitStatus] *)
Inductive eWaitStatus := WaitSuccess | WaitTimeout | WaitExhaustedAndTerminate | WaitError.

#[global] Instance eWaitStatus_eq_dec : EqDecision eWaitStatus.
Proof. solve_decision. Defined.

Section Stream.
Context {W : Type} `{Syscalls W}.

(** ** Memory

    Bytes nobody wrote since [malloc] have no particular value; they read as
    zero. *)

Definition rd_bytes (a n : Z) : ST (pgm_state W) (list Z) :=
  s ← get; mret ((fun i => default 0 (hbytes (heap s) !! i)) <$> seqZ a n).

Definition wr_bytes (a : Z) (bs : list Z) : ST (pgm_state W) unit :=
  modify (fun s => s <| heap ::= fun h => h <| hbytes ::= fun m => store_bytes m a bs |> |>).

(** ** [e->ops->write] and [e->ops->read] *)

(** The bytes a successful read call delivered. *)
Definition delivered (r : Z * list Z) : Z * list Z := (r.1, take (Z.to_nat r.1) r.2).

Definition dummy_edge_read (g x nbytes : Z) : ST (pgm_state W) (Z * list Z) := mret (0, []).
Definition dummy_edge_write (g x : Z) (bs : list Z) : ST (pgm_state W) Z := mret 0.

Definition fifo_read (g x nbytes : Z) : ST (pgm_state W) (Z * list Z) :=
  e ← rd_edge g x; r ← sys (sys_read (fd_in e) nbytes); mret (delivered r).
Definition fifo_write (g x : Z) (bs : list Z) : ST (pgm_state W) Z :=
  e ← rd_edge g x; sys (sys_write (fd_out e) bs).

Definition mq_read (g x nbytes : Z) : ST (pgm_state W) (Z * list Z) :=
  e ← rd_edge g x; r ← sys (sys_mq_receive (fd_in e) nbytes); mret (delivered r).
Definition mq_write (g x : Z) (bs : list Z) : ST (pgm_state W) Z :=
  e ← rd_edge g x;
  ret ← sys (sys_mq_send (fd_out e) bs);
  mret (if ret =? 0 then Z.of_nat (List.length bs) else ret).

Definition sock_stream_read (g x nbytes : Z) : ST (pgm_state W) (Z * list Z) :=
  e ← rd_edge g x; r ← sys (sys_recv (fd_in e) nbytes); mret (delivered r).
Definition sock_stream_write (g x : Z) (bs : list Z) : ST (pgm_state W) Z :=
  e ← rd_edge g x; sys (sys_send (fd_out e) bs).

(** A ring operation that spins blocks. *)
Definition ring_edge_read (g x nbytes : Z) : ST (pgm_state W) (Z * list Z) :=
  e ← rd_edge g x;
  r ← lift (ring_read e nbytes);
  match r with
  | Some (bs, r) => upd_edge g x (set_ringbuf r) ;; mret (nbytes, bs)
  | None => fail Blocks
  end.

Definition ring_edge_write (g x : Z) (bs : list Z) : ST (pgm_state W) Z :=
  e ← rd_edge g x;
  r ← lift (ring_write e bs);
  match r with
  | Some r => upd_edge g x (set_ringbuf r) ;; mret (Z.of_nat (List.length bs))
  | None => fail Blocks
  end.

Definition ops_read (o : edge_ops) : Z -> Z -> Z -> ST (pgm_state W) (Z * list Z) :=
  match o with
  | pgm_cv_edge_ops => dummy_edge_read
  | pgm_fifo_edge_ops => fifo_read
  | pgm_mq_edge_ops => mq_read
  | pgm_ring_edge_ops => ring_edge_read
  | pgm_sock_stream_edge_ops => sock_stream_read
  end.

Definition ops_write (o : edge_ops) : Z -> Z -> list Z -> ST (pgm_state W) Z :=
  match o with
  | pgm_cv_edge_ops => dummy_edge_write
  | pgm_fifo_edge_ops => fifo_write
  | pgm_mq_edge_ops => mq_write
  | pgm_ring_edge_ops => ring_edge_write
  | pgm_sock_stream_edge_ops => sock_stream_write
  end.

(** [e->ops->read(e, buf, n)] and [e->ops->write(e, buf, n)] *)
Definition edge_read (g x buf n : Z) : ST (pgm_state W) Z :=
  e ← rd_edge g x;
  o ← lift (deref (e_ops e));
  '(ret, bs) ← ops_read o g x n;
  wr_bytes buf bs ;;
  mret ret.

Definition edge_write (g x buf n : Z) : ST (pgm_state W) Z :=
  e ← rd_edge g x;
  o ← lift (deref (e_ops e));
  bs ← rd_bytes buf n;
  ops_write o g x bs.

Definition would_block (ret : Z) : ST (pgm_state W) bool :=
  n ← errno; mret ((ret =? -1) && ((n =? EAGAIN) || (n =? EWOULDBLOCK))).

(** ** Sending *)

(** The [while(1)] loop, at most [fuel] rounds. *)
Fixpoint send_loop (fuel : nat) (g x buf sz : Z) : ST (pgm_state W) Z :=
  match fuel with
  | O => fail OutOfFuel
  | S fuel =>
      bytes ← edge_write g x buf sz;
      if 0 <? bytes then
        if bytes =? sz then mret 0 else send_loop fuel g x (buf + bytes) (sz - bytes)
      else
        again ← would_block bytes;
        if again : bool then send_loop fuel g x buf sz else mret (-1)
  end.

Definition pgm_send_std_data (fuel : nat) (g x tag : Z) : ST (pgm_state W) Z :=
  e ← rd_edge g x;
  let sz := if has_flag tag PGM_TERMINATE then 1 else wrap64 (nr_produce (e_attr e) + 1) in
  let tag_ptr := pgm_get_user_ptr (buf_out e) - 1 in
  wr_byte tag_ptr tag ;;
  send_loop fuel g x tag_ptr sz.

Definition pgm_send_ring_data (g x tag : Z) : ST (pgm_state W) Z :=
  e ← rd_edge g x;
  (if negb (has_flag tag PGM_TERMINATE)
   then _ ← edge_write g x (pgm_get_user_ptr (buf_out e)) (nr_produce (e_attr e)); mret tt
   else upd_edge g x (set_ring_cmd tag)) ;;
  mret 0.

Definition pgm_send_data (fuel : nat) (g x tag : Z) : ST (pgm_state W) Z :=
  e ← rd_edge g x;
  if negb (has_flag (type (e_attr e)) PGM_EDGE_RING)
  then pgm_send_std_data fuel g x tag
  else pgm_send_ring_data g x tag.

(** ** Waiting for data *)

Definition FD_SETSIZE : Z := 1024.

(** Inbound edge [i] of the node. *)
Definition in_edge (g n i : Z) : ST (pgm_state W) (Z * pgm_edge) :=
  nd ← rd_node g n;
  x ← lift (in_of nd i);
  e ← rd_edge g x;
  mret (x, e).

(** The descriptors of the edges in the mask, and their sum. *)
Definition build_set (g n nr to_wait : Z) : ST (pgm_state W) (list Z * Z) :=
  for_acc (upto nr) ([], 0) (fun i acc =>
    let '(fds, sum) := acc in
    if Z.testbit to_wait i then
      '(_, e) ← in_edge g n i;
      if in_range FD_SETSIZE (fd_in e) then mret (fds ++ [fd_in e], sum + fd_in e)
      else fail OutOfBounds
    else mret (fds, sum)).

(** Clear the bits of the edges that [select] reports, until [nr_ready] were
    found. *)
Definition scan_set (g n nr : Z) (ready : list Z) (nr_ready to_wait : Z) : ST (pgm_state W) Z :=
  '(to_wait, _) ← for_acc (upto nr) (to_wait, 0) (fun i acc =>
    let '(to_wait, scanned) := acc in
    if scanned <? nr_ready then
      '(_, e) ← in_edge g n i;
      if is_data_passing e && bool_decide (fd_in e ∈ ready)
      then mret (Z.clearbit to_wait i, scanned + 1)
      else mret (to_wait, scanned)
    else mret (to_wait, scanned));
  mret to_wait.

(** The loop that runs while the mask is not empty, at most [fuel] rounds. *)
Fixpoint wait_for_data (fuel : nat) (g n : Z) (status : eWaitStatus) (to_wait : Z)
    : ST (pgm_state W) (eWaitStatus * Z) :=
  if to_wait =? 0 then mret (status, to_wait)
  else match fuel with
  | O => fail OutOfFuel
  | S fuel =>
      nd ← rd_node g n;
      '(fds, sum) ← build_set g n (nr_in nd) to_wait;
      '(nr_ready, ready) ← sys (sys_select (sum + 1) fds);
      if nr_ready =? 0 then mret (WaitTimeout, to_wait)
      else
        let status := if nr_ready =? -1 then WaitError else status in
        to_wait ← scan_set g n (nr_in nd) ready nr_ready to_wait;
        wait_for_data fuel g n status to_wait
  end.

Definition pgm_wait_for_data (fuel : nat) (g n to_wait : Z)
    : ST (pgm_state W) (eWaitStatus * Z) :=
  wait_for_data fuel g n WaitSuccess to_wait.

(** ** Receiving *)

(** How the work on one edge ended: finished, no data for now, or an error. *)
Inductive edge_status := EdgeDone | EdgeAgain | EdgeError.

Definition add_terminate_msg (g n : Z) : ST (pgm_state W) unit :=
  upd_node g n (fun nd => nd <| nr_terminate_msgs ::= fun k => k + 1 |>).

(** The tests that follow a read that delivered nothing. *)
Definition read_failed (bytes_read : Z) : ST (pgm_state W) edge_status :=
  again ← would_block bytes_read;
  mret (if again : bool then EdgeAgain else if bytes_read =? -1 then EdgeError else EdgeDone).

(** From label [read_more] on: [start] is the consumer's buffer, [dest] how far
    it is filled.  The result carries the new [dest]. *)
Fixpoint read_more (fuel : nat) (g n x start dest : Z) : ST (pgm_state W) (edge_status * Z) :=
  match fuel with
  | O => fail OutOfFuel
  | S fuel =>
      e ← rd_edge g x;
      let a := e_attr e in
      let remaining := nr_consume a - (dest - start) in
      if remaining <=? 0 then fail AssertFailure
      else if (remaining =? nr_consume a) && (next_tag e =? 0) then
        let chunk_size := if nr_consume a <=? nr_produce a then nr_consume a else nr_produce a in
        let tag_ptr := dest - 1 in
        bytes_read ← edge_read g x tag_ptr (chunk_size + 1);
        if 0 <? bytes_read then
          let bytes_read := bytes_read - 1 in
          upd_edge g x (set_next_tag (wrap64 (nr_produce a - bytes_read))) ;;
          tag ← rd_byte tag_ptr;
          if has_flag tag PGM_TERMINATE then add_terminate_msg g n ;; mret (EdgeDone, dest)
          else if negb (has_flag tag PGM_NORMAL) then mret (EdgeError, dest)
          else if negb (bytes_read =? nr_consume a)
          then read_more fuel g n x start (dest + bytes_read)
          else mret (EdgeDone, dest)
        else r ← read_failed bytes_read; mret (r, dest)
      else if negb (next_tag e =? 0) then
        let chunk_size := if remaining <=? next_tag e then remaining else next_tag e in
        bytes_read ← edge_read g x dest chunk_size;
        if 0 <? bytes_read then
          upd_edge g x (fun e => set_next_tag (wrap64 (next_tag e - bytes_read)) e) ;;
          if negb (remaining =? bytes_read)
          then read_more fuel g n x start (dest + bytes_read)
          else mret (EdgeDone, dest)
        else r ← read_failed bytes_read; mret (r, dest)
      else
        o ← lift (deref (e_ops e));
        '(bytes_read, bs) ← ops_read o g x 1;
        if 0 <? bytes_read then
          let tag := List.hd 0 bs in
          upd_edge g x (set_next_tag (nr_produce a)) ;;
          if has_flag tag PGM_TERMINATE then add_terminate_msg g n ;; mret (EdgeDone, dest)
          else if negb (has_flag tag PGM_NORMAL) then mret (EdgeError, dest)
          else read_more fuel g n x start dest
        else r ← read_failed bytes_read; mret (r, dest)
  end.

(** The pass over the inbound edges: [None] when all are handled, otherwise the
    edge it stopped at and why.  [dest_ptrs] is updated as it goes. *)
Fixpoint read_edges (fuel : nat) (g n : Z) (idx : list Z) (dest_ptrs : gmap Z Z)
    : ST (pgm_state W) (option (Z * edge_status) * gmap Z Z) :=
  match idx with
  | [] => mret (None, dest_ptrs)
  | i :: idx =>
      '(x, e) ← in_edge g n i;
      if negb (is_data_passing e) then read_edges fuel g n idx dest_ptrs
      else if 0 <? nr_skips e then read_edges fuel g n idx dest_ptrs
      else
        dest ← lift (deref (dest_ptrs !! i));
        if has_flag (type (e_attr e)) PGM_EDGE_RING then
          (if negb (has_flag (ring_cmd e) PGM_TERMINATE && Ring.is_ring_empty (ringbuf e))
           then _ ← edge_read g x dest (nr_consume (e_attr e)); mret tt
           else add_terminate_msg g n) ;;
          read_edges fuel g n idx dest_ptrs
        else
          '(r, dest) ← read_more fuel g n x (pgm_get_user_ptr (buf_in e)) dest;
          let dest_ptrs := <[i := dest]> dest_ptrs in
          match r with
          | EdgeDone => read_edges fuel g n idx dest_ptrs
          | _ => mret (Some (i, r), dest_ptrs)
          end
  end.

(** [~((pgm_fd_mask_t)0) >> (sizeof(to_wait)*8 - k)], the mask of the first [k]
    edges. *)
Definition first_mask (k : Z) : outcome Z :=
  if in_range 32 (32 - k) then Ok (Z.shiftr (2 ^ 32 - 1) (32 - k)) else Fault BadShift.

(** The [while(to_wait)] loop with its [switch].  Leaves with [inl] to go on to
    read, with [inr] for [goto out]. *)
Fixpoint wait_loop (rounds fuel : nat) (g n to_wait : Z) (status : eWaitStatus)
    : ST (pgm_state W) (eWaitStatus + eWaitStatus) :=
  if to_wait =? 0 then mret (inl status)
  else match rounds with
  | O => fail OutOfFuel
  | S rounds =>
      '(status, to_wait) ← pgm_wait_for_data fuel g n to_wait;
      match status with
      | WaitError => mret (inr status)
      | WaitTimeout | WaitSuccess => wait_loop rounds fuel g n to_wait status
      | WaitExhaustedAndTerminate =>
          if to_wait =? 0 then wait_loop rounds fuel g n to_wait status else fail AssertFailure
      end
  end.

(** From label [wait_for_data] on.  [inl] is a direct [return], [inr] goes to
    [out]. *)
Fixpoint recv_rounds (rounds fuel : nat) (g n to_skip to_wait : Z) (dest_ptrs : gmap Z Z)
    (status : eWaitStatus) : ST (pgm_state W) (eWaitStatus + eWaitStatus) :=
  match rounds with
  | O => fail OutOfFuel
  | S rounds =>
      w ← wait_loop rounds fuel g n to_wait status;
      match w with
      | inr status => mret (inr status)
      | inl status =>
          if negb (bool_decide (status = WaitSuccess)) then mret (inl status)
          else
            nd ← rd_node g n;
            '(stop, dest_ptrs) ← read_edges fuel g n (upto (nr_in nd)) dest_ptrs;
            match stop with
            | None => mret (inr status)
            | Some (i, EdgeAgain) =>
                m ← lift (first_mask (i + 1));
                let to_wait := Z.ldiff m (Z.lor (signal_edge_mask nd) to_skip) in
                let to_wait := Z.lor to_wait (Z.shiftl 1 i) in
                recv_rounds rounds fuel g n to_skip to_wait dest_ptrs status
            | Some _ => mret (inr WaitError)
            end
      end
  end.

(** The edges to skip, and where the data of the others goes. *)
Definition recv_targets (g n nr : Z) : ST (pgm_state W) (Z * gmap Z Z) :=
  for_acc (upto nr) (0, ∅) (fun i acc =>
    let '(to_skip, dest_ptrs) := acc in
    '(_, e) ← in_edge g n i;
    if negb (is_data_passing e) then mret (to_skip, dest_ptrs)
    else if 0 <? nr_skips e then mret (Z.lor to_skip (Z.shiftl 1 i), dest_ptrs)
    else mret (to_skip, <[i := pgm_get_user_ptr (buf_in e)]> dest_ptrs)).

Definition pgm_recv_data (rounds fuel : nat) (g n : Z) : ST (pgm_state W) eWaitStatus :=
  nd ← rd_node g n;
  '(to_skip, dest_ptrs) ← recv_targets g n (nr_in nd);
  to_wait ← lift (first_mask (nr_in nd));
  r ← (if to_wait =? to_skip then mret (inr WaitSuccess)
       else recv_rounds rounds fuel g n to_skip
              (Z.ldiff to_wait (Z.lor (signal_edge_mask nd) to_skip)) dest_ptrs WaitSuccess);
  match r with
  | inl status => mret status
  | inr status =>
      nd ← rd_node g n;
      mret (if negb (nr_terminate_msgs nd =? 0) &&
               (nr_terminate_msgs nd =? nr_in_data nd - nr_in_data_backedges nd)
            then WaitExhaustedAndTerminate else status)
  end.

End Stream.

End Stream.
