(* ===== verification/Transfer.v ===== *)
(** * Messages over byte streams

    What [pgm_send_std_data] puts on a FIFO and what the reading part of
    [pgm_recv_data] makes of it: the tags that separate messages are put in and
    taken out again whatever pieces the bytes arrive in, also when producer and
    consumer use different message sizes. *)

From S2P Require Import Prelude Ring Types Sys Structure Memory Ipc GraphInit GraphWf Stream.

Module Transfer.
Import Types Sys Structure Memory Ipc GraphInit GraphWf Stream.
#[local] Open Scope Z_scope.

(** ** The wire format

    With [p] bytes per message and [k] bytes to come before the next tag,
    [parse] reads a stream: the data in it, and how many bytes of the last
    message are still missing.  [None] if a tag is not the one of a message. *)

Definition normal_tag (b : Z) : bool := has_flag b PGM_NORMAL && negb (has_flag b PGM_TERMINATE).

Fixpoint parse (p k : Z) (st : list Z) : option (list Z * Z) :=
  match st with
  | [] => Some ([], k)
  | b :: st =>
      if k =? 0 then if normal_tag b then parse p p st else None
      else match parse p (k - 1) st with Some (d, k') => Some (b :: d, k') | None => None end
  end.

Lemma parse_app p k a b :
  parse p k (a ++ b) =
  match parse p k a with
  | Some (d, k1) => match parse p k1 b with Some (d', k2) => Some (d ++ d', k2) | None => None end
  | None => None
  end.
Proof.
  revert k. induction a as [|x a IH]; intros k; simpl.
  - by destruct (parse p k b) as [[]|].
  - destruct (k =? 0); [destruct (normal_tag x); [apply IH | done]|].
    rewrite IH. destruct (parse p (k - 1) a) as [[d k1]|]; [|done].
    by destruct (parse p k1 b) as [[]|].
Qed.

Lemma parse_data p k a :
  Z.of_nat (List.length a) <= k -> parse p k a = Some (a, k - Z.of_nat (List.length a)).
Proof.
  revert k. induction a as [|x a IH]; intros k Hk; cbn -[Z.of_nat] in *; [f_equal; f_equal; lia|].
  replace (k =? 0) with false by (symmetry; apply Z.eqb_neq; lia).
  rewrite IH by lia. f_equal. f_equal. lia.
Qed.

(** Data bytes in front of the next tag are the first of the stream's data. *)
Lemma parse_split p k a b d k' :
  Z.of_nat (List.length a) <= k -> parse p k (a ++ b) = Some (d, k') ->
  exists d', d = a ++ d' /\ parse p (k - Z.of_nat (List.length a)) b = Some (d', k').
Proof.
  intros Hk. rewrite parse_app, parse_data by done.
  destruct (parse _ _ b) as [[d' k2]|]; [|done]. intros [= <- <-]. eauto.
Qed.

Lemma parse_tag p t st d k' :
  parse p 0 (t :: st) = Some (d, k') -> normal_tag t = true /\ parse p p st = Some (d, k').
Proof. simpl. by destruct (normal_tag t). Qed.

(** A message at a message boundary adds its data and ends at a boundary. *)
Lemma parse_message p k st d tag bs :
  normal_tag tag = true -> Z.of_nat (List.length bs) = p -> parse p k st = Some (d, 0) ->
  parse p k (st ++ tag :: bs) = Some (d ++ bs, 0).
Proof.
  intros Ht Hl Hs. rewrite parse_app, Hs. simpl. rewrite Ht.
  rewrite parse_data by lia. f_equal. f_equal. lia.
Qed.

(** ** FIFOs

    What POSIX promises of [write] on a non-blocking FIFO: a call transfers a
    non-empty prefix of what it was given behind what went in before, or fails and
    transfers nothing.  [accepted] is what has gone in so far; others may take it out
    at the other end meanwhile. *)
Class WriteEnd (W : Type) `{Syscalls W} := {
  stream_of : Z -> Z;
  accepted : W -> Z -> list Z;
  write_end fd bs w : bs <> [] ->
    let '(n, w') := sys_write fd bs w in
    (0 < n <= Z.of_nat (List.length bs) /\
     accepted w' (stream_of fd) = accepted w (stream_of fd) ++ take (Z.to_nat n) bs) \/
    (n = -1 /\ accepted w' (stream_of fd) = accepted w (stream_of fd))
}.

(** A FIFO with both ends in one hand: [pending] is what is in it.  A read takes a
    non-empty prefix of that, or fails, with [EAGAIN] only when nothing is there. *)
Class Pipes (W : Type) `{Syscalls W} := {
  pipe_of : Z -> Z;
  pending : W -> Z -> list Z;
  write_pipe fd bs w : bs <> [] ->
    let '(n, w') := sys_write fd bs w in
    (0 < n <= Z.of_nat (List.length bs) /\
     pending w' (pipe_of fd) = pending w (pipe_of fd) ++ take (Z.to_nat n) bs) \/
    (n = -1 /\ pending w' (pipe_of fd) = pending w (pipe_of fd));
  read_pipe fd n w : 0 < n ->
    let '((r, bs), w') := sys_read fd n w in
    (0 < r <= n /\ r <= Z.of_nat (List.length (pending w (pipe_of fd))) /\
     take (Z.to_nat r) bs = take (Z.to_nat r) (pending w (pipe_of fd)) /\
     pending w' (pipe_of fd) = drop (Z.to_nat r) (pending w (pipe_of fd))) \/
    (r = -1 /\ (sys_errno w' = EAGAIN -> pending w (pipe_of fd) = []) /\
     pending w' (pipe_of fd) = pending w (pipe_of fd))
}.

(** As long as nobody reads, what has gone in is in it. *)
#[local] Instance pipes_write_end {W} `{Pipes W} : WriteEnd W := {|
  stream_of := pipe_of; accepted := pending; write_end := write_pipe
|}.

(** How many of the writes that send [bs], looking at the first [fuel] of them, find
    the FIFO full. *)
Fixpoint refusals {W} `{Syscalls W} (fuel : nat) (fd : Z) (bs : list Z) (w : W) : nat :=
  match fuel with
  | O => 0
  | S fuel =>
      let '(n, w') := sys_write fd bs w in
      if 0 <? n
      then if n =? Z.of_nat (List.length bs) then 0 else refusals fuel fd (drop (Z.to_nat n) bs) w'
      else if (n =? -1) && (sys_errno w' =? EAGAIN) then S (refusals fuel fd bs w') else 0
  end.

Section Sending.
Context {W : Type} `{WriteEnd W}.
Implicit Types (s : pgm_state W) (gr : pgm_graph).

(** The [n] bytes of memory at [a]. *)
Definition user_bytes s (a n : Z) : list Z := bytes_at (Block 0 (hbytes (heap s))) a n.

Record fifo_edge gr (x : Z) : Prop := {
  fe_range : 0 <= x < PGM_MAX_EDGES;
  fe_ops : e_ops (gedge gr x) = Some pgm_fifo_edge_ops;
  fe_produce : 0 < nr_produce (e_attr (gedge gr x)) < 2 ^ 63;
  fe_consume : 0 < nr_consume (e_attr (gedge gr x)) < 2 ^ 63;
  fe_std : exists o i t, e_ipc (gedge gr x) = IpcStd o i t
}.

Lemma has_graph_outside s g gr w hp :
  has_graph s g gr -> has_graph (s <| world := w |> <| heap := hp |>) g gr.
Proof. done. Qed.

Lemma rd_bytes_at s a n : rd_bytes a n s = Ok (user_bytes s a n, s).
Proof. done. Qed.

Lemma length_user_bytes s a n : List.length (user_bytes s a n) = Z.to_nat n.
Proof. apply length_bytes_at. Qed.

Lemma user_bytes_app s a n m :
  0 <= n -> 0 <= m -> user_bytes s a (n + m) = user_bytes s a n ++ user_bytes s (a + n) m.
Proof. intros. unfold user_bytes, bytes_at. by rewrite seqZ_app, fmap_app by lia. Qed.

Lemma would_block_at r s :
  would_block r s =
  Ok ((r =? -1) && ((sys_errno (world s) =? EAGAIN) || (sys_errno (world s) =? EAGAIN)), s).
Proof. done. Qed.

(** ** Sending *)

Lemma edge_write_fifo s g gr x buf n :
  has_graph s g gr -> fifo_edge gr x ->
  edge_write g x buf n s =
  let '(r, w) := sys_write (fd_out (gedge gr x)) (user_bytes s buf n) (world s) in
  Ok (r, s <| world := w |>).
Proof.
  intros Hg []. unfold edge_write. st_step. fold (gedge gr x). rewrite fe_ops0. st_step.
  erewrite bind_step by apply rd_bytes_at. simpl. unfold fifo_write. st_step. fold (gedge gr x).
  unfold sys. st_step. by destruct (sys_write _ _ _).
Qed.

(** What the bytes of a message are in two parts. *)
Lemma user_bytes_split s buf sz r :
  0 <= r <= sz -> user_bytes s buf sz = take (Z.to_nat r) (user_bytes s buf sz) ++ user_bytes s (buf + r) (sz - r) /\
    drop (Z.to_nat r) (user_bytes s buf sz) = user_bytes s (buf + r) (sz - r).
Proof.
  intros Hr. assert (Hmsg : user_bytes s buf sz = user_bytes s buf r ++ user_bytes s (buf + r) (sz - r)).
  { replace sz with (r + (sz - r)) at 1 by lia. by rewrite user_bytes_app by lia. }
  rewrite Hmsg, take_app_le, drop_app_ge by (rewrite length_user_bytes; lia).
  rewrite take_ge, length_user_bytes, Nat.sub_diag by (rewrite length_user_bytes; lia). done.
Qed.

Lemma world_set s w : world (s <| world := w |>) = w.
Proof. done. Qed.

Lemma user_bytes_set s w a n : user_bytes (s <| world := w |>) a n = user_bytes s a n.
Proof. done. Qed.

(** What the loop has done when it returns. *)
Definition sent_as (old msg now : list Z) (ret : Z) : Prop :=
  (ret = 0 /\ now = old ++ msg) \/
  (ret = -1 /\ exists k, (k < List.length msg)%nat /\ now = old ++ take k msg).

Lemma sent_as_more old msg now r ret :
  (r <= List.length msg)%nat -> sent_as (old ++ take r msg) (drop r msg) now ret -> sent_as old msg now ret.
Proof.
  intros Hr [[-> ->]|[-> (k & Hk & ->)]]; [left|right]; (split; [done|]).
  - by rewrite <- app_assoc, take_drop.
  - rewrite length_drop in Hk. exists (r + k)%nat. split; [lia|].
    by rewrite <- app_assoc, take_take_drop.
Qed.

Lemma send_loop_runs fuel s g gr x buf sz :
  has_graph s g gr -> fifo_edge gr x -> 0 < sz ->
  let fd := fd_out (gedge gr x) in
  let msg := user_bytes s buf sz in
  match send_loop fuel g x buf sz s with
  | Ok (ret, s') => exists w, s' = s <| world := w |> /\
      sent_as (accepted (world s) (stream_of fd)) msg (accepted w (stream_of fd)) ret
  | Fault f => f = OutOfFuel /\ (fuel < List.length msg + refusals fuel fd msg (world s))%nat
  end.
Proof.
  revert s buf sz. induction fuel as [|fuel IH]; intros s buf sz Hg He Hsz; cbv zeta.
  { simpl. split; [done|]. rewrite length_user_bytes. lia. }
  simpl send_loop. simpl refusals.
  pose proof (write_end (fd_out (gedge gr x)) (user_bytes s buf sz) (world s)) as Hw.
  pose proof (length_user_bytes s buf sz) as Hl.
  pose proof (edge_write_fifo s g gr x buf sz Hg He) as Ew.
  destruct (sys_write _ _ _) as [r w]. rewrite (bind_step _ _ _ _ _ Ew).
  destruct Hw as [(Hr & Hp)|(-> & Hp)]; [intros E; rewrite E in Hl; simpl in Hl; lia| |].
  - replace (0 <? r) with true by (symmetry; apply Z.ltb_lt; lia). rewrite Hl, Z2Nat.id by lia.
    destruct (Z.eqb_spec r sz) as [->|Hne].
    + exists w. split; [done|]. left. split; [done|]. rewrite Hp. f_equal. apply take_ge. lia.
    + pose proof (IH (s <| world := w |>) (buf + r) (sz - r)) as IH'. specialize (IH' Hg He ltac:(lia)).
      cbv zeta in IH'. rewrite world_set, !user_bytes_set in IH'.
      destruct (user_bytes_split s buf sz r ltac:(lia)) as [_ Hd]. rewrite <- Hd in IH'. revert IH'.
      destruct (send_loop fuel g x (buf + r) (sz - r) (s <| world := w |>)) as [[ret s']|f].
      * intros (w' & -> & Hres). exists w'. split; [done|]. rewrite Hp in Hres.
        apply (sent_as_more _ _ _ (Z.to_nat r)); [lia|done].
      * intros [-> Hf]. split; [done|]. rewrite length_drop in Hf. lia.
  - change (0 <? -1) with false. change (-1 =? -1) with true. cbv iota. erewrite bind_step by apply would_block_at.
    rewrite world_set, orb_diag. change (-1 =? -1) with true. rewrite !andb_true_l.
    destruct (Z.eqb_spec (sys_errno w) EAGAIN) as [Ea|Ea]; cbv iota.
    + pose proof (IH (s <| world := w |>) buf sz) as IH'. specialize (IH' Hg He Hsz).
      cbv zeta in IH'. rewrite world_set, !user_bytes_set, Hp in IH'. revert IH'.
      destruct (send_loop fuel g x buf sz (s <| world := w |>)) as [[ret s']|f].
      * intros (w' & -> & Hres). by exists w'.
      * intros [-> Hf]. split; [done|]. lia.
    + exists w. split; [done|]. right. split; [done|]. exists 0%nat. split; [lia|]. by rewrite Hp, app_nil_r.
Qed.

(** The bytes of the message that carries [tag]. *)
Definition message s gr (x tag : Z) : list Z :=
  if has_flag tag PGM_TERMINATE then [tag]
  else tag :: user_bytes s (pgm_get_user_ptr (buf_out (gedge gr x)))
                (nr_produce (e_attr (gedge gr x))).

Definition stored s (a v : Z) : pgm_state W :=
  s <| heap ::= fun h => h <| hbytes ::= <[a := v]> |> |>.

Lemma user_bytes_stored s a v n :
  0 <= n -> user_bytes (stored s a v) a (1 + n) = v :: user_bytes s (a + 1) n.
Proof.
  intros Hn. rewrite user_bytes_app by lia.
  change (v :: user_bytes s (a + 1) n) with ([v] ++ user_bytes s (a + 1) n). f_equal.
  - unfold user_bytes, bytes_at, byte_at.
    change (hbytes (heap (stored s a v))) with (<[a := v]> (hbytes (heap s))).
    change (seqZ a 1) with [0 + a]. simpl. by rewrite cell_insert_eq.
  - unfold user_bytes, bytes_at, byte_at. apply list_fmap_ext. intros i k Hk.
    apply lookup_seqZ in Hk as [-> Hi]. apply cell_insert_ne. lia.
Qed.

Lemma send_std_runs fuel s g gr x tag :
  has_graph s g gr -> fifo_edge gr x -> 0 <= tag < 256 ->
  let fd := fd_out (gedge gr x) in
  let msg := message s gr x tag in
  match pgm_send_std_data fuel g x tag s with
  | Ok (ret, s') => has_graph s' g gr /\
      sent_as (accepted (world s) (stream_of fd)) msg (accepted (world s') (stream_of fd)) ret
  | Fault f => f = OutOfFuel /\ (fuel < List.length msg + refusals fuel fd msg (world s))%nat
  end.
Proof.
  intros Hg He Ht. cbv zeta. destruct He as [Hx Ho Hp Hc Hs].
  unfold pgm_send_std_data. st_step. fold (gedge gr x).
  set (e := gedge gr x) in *. set (ptr := pgm_get_user_ptr (buf_out e)).
  unfold wr_byte. rewrite (Z.mod_small tag) by lia.
  erewrite bind_step by reflexivity. cbv beta. fold (stored s (ptr - 1) tag).
  set (sz := if has_flag tag PGM_TERMINATE then 1 else _).
  assert (Hsz : 0 < sz <= nr_produce (e_attr e) + 1).
  { unfold sz. destruct (has_flag tag PGM_TERMINATE); [lia|]. unfold wrap64. rewrite Z.mod_small; lia. }
  assert (Hm : user_bytes (stored s (ptr - 1) tag) (ptr - 1) sz = message s gr x tag).
  { unfold message, sz. fold e ptr. destruct (has_flag tag PGM_TERMINATE).
    - apply (user_bytes_stored s (ptr - 1) tag 0). lia.
    - unfold wrap64. rewrite Z.mod_small by lia. rewrite Z.add_comm, user_bytes_stored by lia.
      do 2 f_equal. lia. }
  pose proof (send_loop_runs fuel (stored s (ptr - 1) tag) g gr x (ptr - 1) sz Hg ltac:(by split) ltac:(lia)) as Hres.
  cbv zeta in Hres. rewrite Hm in Hres. change (world (stored s (ptr - 1) tag)) with (world s) in Hres. fold e in Hres.
  destruct (send_loop _ _ _ _ _ _) as [[ret s']|f]; [|done].
  destruct Hres as (w & -> & Hres). done.
Qed.

End Sending.

Section Transfer.
Context {W : Type} `{Pipes W}.
Implicit Types (s : pgm_state W) (gr : pgm_graph).

(** A message that carries data is its tag and the producer's buffer. *)
Lemma message_normal s gr x tag :
  normal_tag tag = true ->
  message s gr x tag =
  tag :: user_bytes s (pgm_get_user_ptr (buf_out (gedge gr x))) (nr_produce (e_attr (gedge gr x))).
Proof. unfold normal_tag, message. intros [_ Hn%negb_true_iff]%andb_true_iff. by rewrite Hn. Qed.

(** ** Receiving *)

(** A read moved [bs] from the front of the FIFO, or nothing. *)
Definition took (w w' : W) (fd n r : Z) (bs : list Z) : Prop :=
  (0 < r <= n /\ Z.of_nat (List.length bs) = r /\
   pending w (pipe_of fd) = bs ++ pending w' (pipe_of fd)) \/
  (r = -1 /\ bs = [] /\ (sys_errno w' = EAGAIN -> pending w (pipe_of fd) = []) /\
   pending w' (pipe_of fd) = pending w (pipe_of fd)).

Lemma fifo_read_runs s g gr x n :
  has_graph s g gr -> fifo_edge gr x -> 0 < n ->
  exists r bs w, fifo_read g x n s = Ok (r, bs, s <| world := w |>) /\
    took (world s) w (fd_in (gedge gr x)) n r bs.
Proof.
  intros Hg [Hx] Hn. unfold fifo_read. st_step. fold (gedge gr x).
  pose proof (read_pipe (fd_in (gedge gr x)) n (world s) Hn) as Hr.
  unfold sys. destruct (sys_read _ _ _) as [[r bs] w] eqn:Er.
  exists r, (take (Z.to_nat r) bs), w. split.
  - erewrite bind_step; [|erewrite bind_step by reflexivity; cbv beta; rewrite Er; reflexivity]. done.
  - destruct Hr as [(Hr & Hle & Hb & Hp)|(-> & Hp)]; [left|by right].
    rewrite Hb. split_and!; [lia..| |].
    + rewrite length_take. lia.
    + by rewrite Hp, take_drop.
Qed.

Definition got s (w : W) (a : Z) (bs : list Z) : pgm_state W :=
  s <| world := w |> <| heap ::= fun h => h <| hbytes ::= fun m => store_bytes m a bs |> |>.

Lemma got_nil s w a : got s w a [] = s <| world := w |>.
Proof. by destruct s as [? ? ? ? ? [] ?]. Qed.

Lemma edge_read_runs s g gr x a n :
  has_graph s g gr -> fifo_edge gr x -> 0 < n ->
  exists r bs w, edge_read g x a n s = Ok (r, got s w a bs) /\
    took (world s) w (fd_in (gedge gr x)) n r bs.
Proof.
  intros Hg He Hn. destruct (fifo_read_runs s g gr x n Hg He Hn) as (r & bs & w & E & Ht).
  exists r, bs, w. split; [|done]. destruct He as [Hx Ho]. unfold edge_read. st_step.
  fold (gedge gr x). rewrite Ho. st_step. by erewrite bind_step by exact E.
Qed.

Lemma user_bytes_got s w a bs n :
  n = Z.of_nat (List.length bs) -> user_bytes (got s w a bs) a n = bs.
Proof. apply bytes_at_store_same. Qed.

Lemma user_bytes_before s w a bs b n :
  b + n <= a -> user_bytes (got s w a bs) b n = user_bytes s b n.
Proof. intros. by apply bytes_at_store_disjoint; left. Qed.

(** Same graph but for the tag counter of edge [x]. *)
Definition retagged (x t : Z) gr gr' : Prop :=
  gr' <| edges := edges gr |> = gr /\
  forall y, gedge gr' y = if decide (y = x) then set_next_tag t (gedge gr x) else gedge gr y.

Lemma set_next_tag_twice t u e : set_next_tag t (set_next_tag u e) = set_next_tag t e.
Proof. by destruct e as [? ? ? ? ? ? ? ? [] ? ?]. Qed.

Lemma retagged_refl x gr t :
  fifo_edge gr x -> next_tag (gedge gr x) = t -> retagged x t gr gr.
Proof.
  intros [_ _ _ _ (o & i & t' & Hs)] <-. split; [by destruct gr|]. intros y.
  case_decide; [subst|done]. unfold set_next_tag, fd_out, fd_in, next_tag. rewrite Hs.
  destruct (gedge gr x). simpl in *. by subst.
Qed.

Lemma retagged_trans x t u gr gr' gr'' :
  retagged x t gr gr' -> retagged x u gr' gr'' -> retagged x u gr gr''.
Proof.
  intros [E1 H1] [E2 H2]. split.
  - rewrite <- E1. rewrite <- E2. by destruct gr''.
  - intros y. rewrite H2, !H1. case_decide; [|done]. subst.
    rewrite decide_True by done. apply set_next_tag_twice.
Qed.

Lemma retagged_fifo x t gr gr' : retagged x t gr gr' -> fifo_edge gr x -> fifo_edge gr' x.
Proof.
  intros [_ Hy] []. split; rewrite ?(Hy x), ?decide_True by done; simpl; eauto.
Qed.

Lemma retagged_edge x t gr gr' :
  retagged x t gr gr' ->
  e_attr (gedge gr' x) = e_attr (gedge gr x) /\ next_tag (gedge gr' x) = t /\
  fd_in (gedge gr' x) = fd_in (gedge gr x).
Proof. intros [_ Hy]. rewrite (Hy x), decide_True by done. by destruct (gedge gr x). Qed.

Lemma retag_runs s g gr x t f :
  has_graph s g gr -> fifo_edge gr x -> f (gedge gr x) = set_next_tag t (gedge gr x) ->
  exists gr' s', upd_edge g x f s = Ok (tt, s') /\ has_graph s' g gr' /\
    retagged x t gr gr' /\ world s' = world s /\ heap s' = heap s.
Proof.
  intros Hg [Hx] Hf. eexists _, _. split; [by apply (upd_edge_at s g gr x f)|].
  split; [by eapply has_graph_put|]. split; [|done]. split; [by destruct gr|].
  intros y. unfold gedge. simpl. rewrite cell_insert. unfold gedge in Hf.
  destruct (decide (x = y)); case_decide; congruence.
Qed.

(** *** One edge, message by message

    Edge [x] has messages of [p] bytes, its consumer takes [c] bytes into the
    buffer at [start], of which [k] are there already. *)
Section OneEdge.
Context (g x start p c fd : Z).

Record reading s gr (k : Z) (data : list Z) (rest : Z) : Prop := {
  rd_graph_is : has_graph s g gr;
  rd_fifo : fifo_edge gr x;
  rd_p : nr_produce (e_attr (gedge gr x)) = p;
  rd_c : nr_consume (e_attr (gedge gr x)) = c;
  rd_fd : fd_in (gedge gr x) = fd;
  rd_k : 0 <= k <= c;
  rd_tag : 0 <= next_tag (gedge gr x) <= p;
  rd_stream : parse p (next_tag (gedge gr x)) (pending (world s) (pipe_of fd)) = Some (data, rest)
}.

(** From [s] to [s'] the first [m] bytes of the data moved from the FIFO to the
    buffer, and no byte outside the buffer and its tag changed. *)
Record progress s gr (k : Z) (data : list Z) (rest : Z) s' gr' (m : Z) : Prop := {
  pg_reading : reading s' gr' (k + m) (drop (Z.to_nat m) data) rest;
  pg_edge : retagged x (next_tag (gedge gr' x)) gr gr';
  pg_range : 0 <= m <= Z.of_nat (List.length data);
  pg_bytes : user_bytes s' start (k + m) = user_bytes s start k ++ take (Z.to_nat m) data;
  pg_frame : forall a, a < start - 1 \/ start + c <= a ->
    cell (hbytes (heap s')) a = cell (hbytes (heap s)) a
}.

Lemma progress_trans s gr k data rest s1 gr1 m1 s2 gr2 m2 :
  progress s gr k data rest s1 gr1 m1 ->
  progress s1 gr1 (k + m1) (drop (Z.to_nat m1) data) rest s2 gr2 m2 ->
  progress s gr k data rest s2 gr2 (m1 + m2).
Proof.
  intros [R1 E1 H1 B1 F1] [R2 E2 H2 B2 F2]. rewrite length_drop in H2.
  assert (Hd : drop (Z.to_nat m2) (drop (Z.to_nat m1) data) = drop (Z.to_nat (m1 + m2)) data)
    by (rewrite drop_drop; f_equal; lia).
  split; rewrite ?Z.add_assoc.
  - by rewrite <- Hd.
  - by eapply retagged_trans.
  - lia.
  - rewrite B2, B1, <- app_assoc. f_equal.
    rewrite Z2Nat.inj_add by lia. apply take_take_drop.
  - intros a Ha. by rewrite F2, F1.
Qed.

Lemma got_frame s w a bs n :
  start - 1 <= a -> a + Z.of_nat (List.length bs) <= start + c ->
  n < start - 1 \/ start + c <= n ->
  cell (hbytes (heap (got s w a bs))) n = cell (hbytes (heap s)) n.
Proof.
  intros Ha Hb Hn. change (hbytes (heap (got s w a bs))) with (store_bytes (hbytes (heap s)) a bs).
  rewrite cell_store_bytes, decide_False by lia. done.
Qed.

(** A read that delivered nothing. *)
Lemma progress_none s gr k data rest w a :
  reading s gr k data rest -> pending w (pipe_of fd) = pending (world s) (pipe_of fd) ->
  progress s gr k data rest (got s w a []) gr 0.
Proof.
  intros [] Hp. split; rewrite ?Z.add_0_r.
  - split; try done. change (world (got s w a [])) with w. by rewrite Hp.
  - by apply retagged_refl.
  - lia.
  - by rewrite app_nil_r.
  - done.
Qed.

Lemma read_failed_at s w a (dest : Z) :
  (r ← read_failed (-1); mret (r, dest)) (got s w a []) =
  Ok (if sys_errno w =? EAGAIN then EdgeAgain else EdgeError, dest, got s w a []).
Proof.
  unfold read_failed. erewrite bind_step;
    [|by erewrite bind_step by apply would_block_at]. simpl.
  by destruct (sys_errno w =? EAGAIN).
Qed.

(** The three ways bytes arrive: the rest of a message, ... *)
Lemma progress_data s gr k data rest w bs s1 gr1 :
  let r := Z.of_nat (List.length bs) in
  reading s gr k data rest -> r <= next_tag (gedge gr x) -> k + r <= c ->
  pending (world s) (pipe_of fd) = bs ++ pending w (pipe_of fd) ->
  has_graph s1 g gr1 -> world s1 = w -> heap s1 = heap (got s w (start + k) bs) ->
  retagged x (next_tag (gedge gr x) - r) gr gr1 ->
  progress s gr k data rest s1 gr1 r.
Proof.
  intros r [] Hr Hk Hp Hg1 Hw Hh Hre. pose proof (retagged_edge _ _ _ _ Hre) as (Ea & Et & Ef).
  rewrite Hp in rd_stream0. apply parse_split in rd_stream0 as (d & -> & Hd); [|done].
  split.
  - split; [done|by eapply retagged_fifo|congruence..|lia|rewrite Et; lia|].
    rewrite Et, Hw. etransitivity; [exact Hd|]. f_equal. f_equal. unfold r. by rewrite Nat2Z.id, drop_app_length.
  - by rewrite Et.
  - rewrite length_app. lia.
  - rewrite user_bytes_app by lia. unfold user_bytes at 1 2. rewrite Hh.
    fold (user_bytes (got s w (start + k) bs) start k).
    fold (user_bytes (got s w (start + k) bs) (start + k) r).
    rewrite user_bytes_before by lia. rewrite user_bytes_got by done. f_equal.
    unfold r. by rewrite Nat2Z.id, take_app_length.
  - intros a Ha. rewrite Hh. apply got_frame; lia.
Qed.

(** ... a tag on its own, ... *)
Lemma progress_tag s gr k data rest w tag s1 gr1 :
  reading s gr k data rest -> next_tag (gedge gr x) = 0 ->
  pending (world s) (pipe_of fd) = [tag] ++ pending w (pipe_of fd) ->
  has_graph s1 g gr1 -> world s1 = w -> heap s1 = heap s -> retagged x p gr gr1 ->
  progress s gr k data rest s1 gr1 0 /\ normal_tag tag = true.
Proof.
  intros [] Ht0 Hp Hg1 Hw Hh Hre. pose proof (retagged_edge _ _ _ _ Hre) as (Ea & Et & Ef).
  rewrite Ht0, Hp in rd_stream0. apply parse_tag in rd_stream0 as [Hn Hd].
  split; [|done]. split; rewrite ?Z.add_0_r.
  - split; [done|by eapply retagged_fifo|congruence..|lia|rewrite Et; lia|].
    by rewrite Et, Hw, Hd.
  - by rewrite Et.
  - lia.
  - rewrite app_nil_r. unfold user_bytes. by rewrite Hh.
  - intros a Ha. by rewrite Hh.
Qed.

(** ... and a tag with data behind it. *)
Lemma progress_message s gr data rest w tag bs s1 gr1 :
  let r := Z.of_nat (List.length bs) in
  reading s gr 0 data rest -> next_tag (gedge gr x) = 0 -> r <= p -> r <= c ->
  pending (world s) (pipe_of fd) = (tag :: bs) ++ pending w (pipe_of fd) ->
  has_graph s1 g gr1 -> world s1 = w -> heap s1 = heap (got s w (start - 1) (tag :: bs)) ->
  retagged x (p - r) gr gr1 ->
  progress s gr 0 data rest s1 gr1 r /\ normal_tag tag = true.
Proof.
  intros r [] Ht0 Hrp Hrc Hp Hg1 Hw Hh Hre.
  pose proof (retagged_edge _ _ _ _ Hre) as (Ea & Et & Ef).
  rewrite Ht0, Hp in rd_stream0. apply parse_tag in rd_stream0 as [Hn Hd].
  apply parse_split in Hd as (d & -> & Hd); [|done]. split; [|done]. split; rewrite ?Z.add_0_l.
  - split; [done|by eapply retagged_fifo|congruence..|lia|rewrite Et; lia|].
    rewrite Et, Hw. etransitivity; [exact Hd|]. f_equal. f_equal. unfold r. by rewrite Nat2Z.id, drop_app_length.
  - by rewrite Et.
  - rewrite length_app. lia.
  - replace r with (r + 0) by lia.
    assert (Hall : user_bytes s1 (start - 1) (1 + r) = tag :: bs).
    { unfold user_bytes. rewrite Hh. apply user_bytes_got. simpl. lia. }
    rewrite user_bytes_app in Hall by lia. replace (start - 1 + 1) with start in Hall by lia.
    change (user_bytes s start 0) with (@nil Z). rewrite Z.add_0_r. unfold r at 2.
    rewrite Nat2Z.id, take_app_length. simpl.
    change (tag :: bs) with ([tag] ++ bs) in Hall. by apply app_inj_1 in Hall as [_ ->].
  - intros a Ha. rewrite Hh. apply got_frame; simpl List.length; lia.
Qed.

(** How the work on the edge can end: with [c] bytes in the buffer, or short of
    that because the FIFO was empty or the read failed; where it stopped is
    remembered for the next attempt. *)
Definition ended s gr (k : Z) (data : list Z) (rest : Z) (st : edge_status) (dest : Z) s' : Prop :=
  exists gr' m, progress s gr k data rest s' gr' m /\
    match st with
    | EdgeDone => k + m = c
    | EdgeAgain => k + m < c /\ dest = start + (k + m) /\ m = Z.of_nat (List.length data)
    | EdgeError => k + m < c /\ sys_errno (world s') <> EAGAIN
    end.

Lemma ended_after s gr k data rest s1 gr1 m1 st dest s' :
  progress s gr k data rest s1 gr1 m1 ->
  ended s1 gr1 (k + m1) (drop (Z.to_nat m1) data) rest st dest s' ->
  ended s gr k data rest st dest s'.
Proof.
  intros Hp (gr' & m & Hp' & Hst). exists gr', (m1 + m). split; [by eapply progress_trans|].
  rewrite Z.add_assoc. destruct st; [done| |done]. destruct Hst as (? & ? & Hm).
  split_and!; [done..|]. rewrite length_drop in Hm. pose proof (pg_range _ _ _ _ _ _ _ _ Hp). lia.
Qed.

Lemma ended_none s gr k data rest w a :
  reading s gr k data rest -> k < c ->
  (sys_errno w = EAGAIN -> pending (world s) (pipe_of fd) = []) ->
  pending w (pipe_of fd) = pending (world s) (pipe_of fd) ->
  ended s gr k data rest (if sys_errno w =? EAGAIN then EdgeAgain else EdgeError)
    (start + k) (got s w a []).
Proof.
  intros Hr Hk Hea Hp. exists gr, 0. split; [by apply progress_none|]. rewrite Z.add_0_r.
  destruct (Z.eqb_spec (sys_errno w) EAGAIN) as [E|E]; [|done]. split_and!; [done..|].
  pose proof (rd_stream _ _ _ _ _ Hr) as Hs. rewrite (Hea E) in Hs. by injection Hs as <- _.
Qed.

(** Rounds needed: one per data byte at most, and one per tag. *)
Definition rounds_left (k t : Z) : Z := 2 * (c - k) + (if t =? 0 then 1 else 0).

Lemma normal_tag_flags t :
  normal_tag t = true -> has_flag t PGM_TERMINATE = false /\ has_flag t PGM_NORMAL = true.
Proof. unfold normal_tag. intros [? ?%negb_true_iff]%andb_true_iff. done. Qed.

(** One round of the loop: it ends, or goes on with more bytes or a tag read. *)
Definition round fuel n s gr (k : Z) (data : list Z) (rest : Z) : Prop :=
  (exists st dest s', read_more (S fuel) g n x start (start + k) s = Ok (st, dest, s') /\
     ended s gr k data rest st dest s') \/
  (exists s1 gr1 m, progress s gr k data rest s1 gr1 m /\ k + m < c /\
     rounds_left (k + m) (next_tag (gedge gr1 x)) < rounds_left k (next_tag (gedge gr x)) /\
     read_more (S fuel) g n x start (start + k) s = read_more fuel g n x start (start + (k + m)) s1).

(** The tests at the head of a round. *)
Lemma round_head fuel n s gr k data rest :
  reading s gr k data rest -> k < c ->
  read_more (S fuel) g n x start (start + k) s =
  (if (c - k =? c) && (next_tag (gedge gr x) =? 0) then
     bytes_read ← edge_read g x (start + k - 1) (Z.min c p + 1);
     if 0 <? bytes_read then
       upd_edge g x (set_next_tag (wrap64 (p - (bytes_read - 1)))) ;;
       tag ← rd_byte (start + k - 1);
       if has_flag tag PGM_TERMINATE then add_terminate_msg g n ;; mret (EdgeDone, start + k)
       else if negb (has_flag tag PGM_NORMAL) then mret (EdgeError, start + k)
       else if negb (bytes_read - 1 =? c)
       then read_more fuel g n x start (start + k + (bytes_read - 1))
       else mret (EdgeDone, start + k)
     else r ← read_failed bytes_read; mret (r, start + k)
   else if negb (next_tag (gedge gr x) =? 0) then
     bytes_read ← edge_read g x (start + k) (Z.min (c - k) (next_tag (gedge gr x)));
     if 0 <? bytes_read then
       upd_edge g x (fun e => set_next_tag (wrap64 (next_tag e - bytes_read)) e) ;;
       if negb (c - k =? bytes_read)
       then read_more fuel g n x start (start + k + bytes_read)
       else mret (EdgeDone, start + k)
     else r ← read_failed bytes_read; mret (r, start + k)
   else
     '(bytes_read, bs) ← fifo_read g x 1;
     if 0 <? bytes_read then
       upd_edge g x (set_next_tag p) ;;
       if has_flag (List.hd 0 bs) PGM_TERMINATE
       then add_terminate_msg g n ;; mret (EdgeDone, start + k)
       else if negb (has_flag (List.hd 0 bs) PGM_NORMAL) then mret (EdgeError, start + k)
       else read_more fuel g n x start (start + k)
     else r ← read_failed bytes_read; mret (r, start + k)) s.
Proof.
  intros [Hg He Ep Ec _ _ _ _] Hk. destruct He as [Hx Ho _ _ _].
  cbn [read_more]. st_step. fold (gedge gr x). cbv zeta. rewrite Ep, Ec, Ho.
  replace (c - (start + k - start)) with (c - k) by lia.
  replace (c - k <=? 0) with false by (symmetry; apply Z.leb_gt; lia).
  replace (if c <=? p then c else p) with (Z.min c p) by (destruct (Z.leb_spec c p); lia).
  replace (if c - k <=? next_tag (gedge gr x) then c - k else next_tag (gedge gr x))
    with (Z.min (c - k) (next_tag (gedge gr x)))
    by (destruct (Z.leb_spec (c - k) (next_tag (gedge gr x))); lia).
  done.
Qed.

Lemma round_data fuel n s gr k data rest :
  reading s gr k data rest -> k < c -> next_tag (gedge gr x) <> 0 ->
  round fuel n s gr k data rest.
Proof.
  intros Hr Hk Ht0. unfold round. rewrite (round_head fuel n s gr k data rest Hr Hk).
  pose proof Hr as [Hg He Ep Ec Ef Hk0 Ht Hs]. pose proof (fe_produce gr x He) as Hp0.
  rewrite Ep in Hp0. rewrite (proj2 (Z.eqb_neq _ _) Ht0). rewrite andb_false_r. cbn [negb].
  destruct (edge_read_runs s g gr x (start + k) (Z.min (c - k) (next_tag (gedge gr x))) Hg He)
    as (r & bs & w & E & Htook); [lia|]. rewrite Ef in Htook. rewrite (bind_step _ _ _ _ _ E).
  destruct Htook as [(Hr0 & Hl & Hp)|(-> & -> & Hea & Hp)].
  2:{ left. change (0 <? -1) with false. cbv iota. rewrite read_failed_at.
      eexists _, _, _. split; [done|]. by apply ended_none. }
  replace (0 <? r) with true by (symmetry; apply Z.ltb_lt; lia).
  destruct (retag_runs (got s w (start + k) bs) g gr x (next_tag (gedge gr x) - r)
    (fun e => set_next_tag (wrap64 (next_tag e - r)) e)) as (gr1 & s1 & E1 & Hg1 & Hre & Hw & Hh);
    [exact Hg|done|by rewrite wrap64_small by lia|].
  rewrite (bind_step _ _ _ _ _ E1).
  assert (Hpr : progress s gr k data rest s1 gr1 r).
  { rewrite <- Hl in *. by apply (progress_data s gr k data rest w bs); try lia. }
  pose proof (retagged_edge _ _ _ _ Hre) as (_ & Et & _).
  destruct (Z.eqb_spec (c - k) r) as [Hd|Hd]; cbn [negb].
  - left. eexists _, _, _. split; [done|]. exists gr1, r. split; [done|lia].
  - right. exists s1, gr1, r. rewrite Z.add_assoc. split_and!; [done|lia| |done].
    unfold rounds_left. rewrite Et. do 2 destruct (_ =? 0); lia.
Qed.

Lemma round_tag fuel n s gr k data rest :
  reading s gr k data rest -> 0 < k < c -> next_tag (gedge gr x) = 0 ->
  round fuel n s gr k data rest.
Proof.
  intros Hr Hk Ht0. unfold round. rewrite (round_head fuel n s gr k data rest Hr) by lia.
  pose proof Hr as [Hg He Ep Ec Ef Hk0 Ht Hs]. pose proof (fe_produce gr x He) as Hp0.
  rewrite Ep in Hp0. replace (c - k =? c) with false by (symmetry; apply Z.eqb_neq; lia).
  rewrite Ht0. cbn [andb negb Z.eqb].
  destruct (fifo_read_runs s g gr x 1 Hg He) as (r & bs & w & E & Htook); [lia|].
  rewrite Ef in Htook. rewrite (bind_step _ _ _ _ _ E).
  destruct Htook as [(Hr0 & Hl & Hp)|(-> & -> & Hea & Hp)].
  2:{ left. change (0 <? -1) with false. cbv iota.
      rewrite <- (got_nil s w start), read_failed_at.
      eexists _, _, _. split; [done|]. apply ended_none; [done|lia|done|done]. }
  assert (r = 1) as -> by lia. destruct bs as [|tag [|]]; simpl in Hl; [lia| |lia].
  change (0 <? 1) with true. cbv iota.
  destruct (retag_runs (s <| world := w |>) g gr x p (set_next_tag p))
    as (gr1 & s1 & E1 & Hg1 & Hre & Hw & Hh); [exact Hg|done|done|].
  rewrite (bind_step _ _ _ _ _ E1).
  destruct (progress_tag s gr k data rest w tag s1 gr1) as [Hpr Hn]; [done..|].
  apply normal_tag_flags in Hn as [Hn1 Hn2]. cbn [List.hd]. rewrite Hn1, Hn2. cbn [negb].
  pose proof (retagged_edge _ _ _ _ Hre) as (_ & Et & _).
  right. exists s1, gr1, 0. rewrite Z.add_0_r. split_and!; [done|lia| |done].
  unfold rounds_left. rewrite Et. replace (p =? 0) with false by (symmetry; apply Z.eqb_neq; lia).
  simpl. lia.
Qed.

Lemma round_message fuel n s gr data rest :
  reading s gr 0 data rest -> 0 < c -> next_tag (gedge gr x) = 0 ->
  round fuel n s gr 0 data rest.
Proof.
  intros Hr Hc Ht0. unfold round. rewrite (round_head fuel n s gr 0 data rest Hr) by lia.
  pose proof Hr as [Hg He Ep Ec Ef Hk0 Ht Hs]. pose proof (fe_produce gr x He) as Hp0.
  rewrite Ep in Hp0. replace (c - 0 =? c) with true by (symmetry; apply Z.eqb_eq; lia).
  rewrite Ht0. cbn [andb Z.eqb]. rewrite !Z.add_0_r.
  destruct (edge_read_runs s g gr x (start - 1) (Z.min c p + 1) Hg He)
    as (r & bs & w & E & Htook); [lia|]. rewrite Ef in Htook. rewrite (bind_step _ _ _ _ _ E).
  destruct Htook as [(Hr0 & Hl & Hp)|(-> & -> & Hea & Hp)].
  2:{ left. change (0 <? -1) with false. cbv iota. rewrite read_failed_at.
      eexists _, _, _. split; [done|]. 
      pose proof (ended_none s gr 0 data rest w (start - 1) Hr Hc Hea Hp) as Hend.
      by rewrite Z.add_0_r in Hend. }
  replace (0 <? r) with true by (symmetry; apply Z.ltb_lt; lia).
  destruct bs as [|tag bs]; [simpl in Hl; lia|].
  assert (r = Z.of_nat (List.length bs) + 1) as -> by (simpl in Hl; lia).
  rewrite Z.add_simpl_r. set (r := Z.of_nat (List.length bs)) in *.
  destruct (retag_runs (got s w (start - 1) (tag :: bs)) g gr x (p - r)
    (set_next_tag (wrap64 (p - r)))) as (gr1 & s1 & E1 & Hg1 & Hre & Hw & Hh);
    [exact Hg|done|by rewrite wrap64_small by lia|].
  rewrite (bind_step _ _ _ _ _ E1).
  destruct (progress_message s gr data rest w tag bs s1 gr1) as [Hpr Hn]; [done|done|lia|lia|done|done|done|done|done|].
  fold r in Hpr. erewrite bind_step.
  2:{ unfold rd_byte. st_step. rewrite Hh. simpl. by rewrite lookup_insert_eq. }
  apply normal_tag_flags in Hn as [-> ->]. cbn [negb].
  pose proof (retagged_edge _ _ _ _ Hre) as (_ & Et & _).
  destruct (Z.eqb_spec r c) as [Hd|Hd]; cbn [negb].
  - left. eexists _, _, _. split; [done|]. exists gr1, r. split; [done|lia].
  - right. exists s1, gr1, r. rewrite Z.add_0_l. split_and!; [done|lia| |done].
    unfold rounds_left. rewrite Et. destruct (Z.eqb_spec (p - r) 0); simpl; lia.
Qed.

Lemma read_more_runs fuel n s gr k data rest :
  reading s gr k data rest -> k < c -> rounds_left k (next_tag (gedge gr x)) < Z.of_nat fuel ->
  exists st dest s', read_more fuel g n x start (start + k) s = Ok (st, dest, s') /\
    ended s gr k data rest st dest s'.
Proof.
  revert s gr k data. induction fuel as [|fuel IH]; intros s gr k data Hr Hk Hf.
  { unfold rounds_left in Hf. destruct (_ =? 0); lia. }
  assert (Hround : round fuel n s gr k data rest).
  { pose proof (rd_k _ _ _ _ _ Hr).
    destruct (Z.eq_dec (next_tag (gedge gr x)) 0); [|by apply round_data].
    destruct (Z.eq_dec k 0) as [->|]; [by apply round_message | apply round_tag; auto with lia]. }
  destruct Hround as [Hend|(s1 & gr1 & m & Hp & Hm & Hlt & E)]; [done|].
  destruct (IH s1 gr1 (k + m) (drop (Z.to_nat m) data)) as (st & dest & s' & E' & Hend);
    [apply Hp|done|lia|].
  exists st, dest, s'. rewrite E. split; [done|]. by eapply ended_after.
Qed.

End OneEdge.

(** ** The theorems *)

(** C20. The reading loop of [pgm_recv_data] on a FIFO edge takes the tags out
    again: when the stream parses into [data], it always returns within
    [2 * nr_consume + 2] rounds, has moved the next [m] bytes of [data] into the
    consumer's buffer behind the [k] that were there, left the rest of [data] in
    the stream with the right number of bytes to the next tag, and touched no
    byte outside the buffer and its tag.  It ends with the buffer full, or with
    the stream drained and the place to go on at, or with an error of [read];
    sizes of messages and of pieces read do not matter. *)
Theorem read_more_unframes fuel g n x start p c fd s gr k data rest
    (Hr : reading g x p c fd s gr k data rest) (Hk : k < c) (Hf : 2 * c + 2 <= Z.of_nat fuel) :
  exists st dest s' gr' m, read_more fuel g n x start (start + k) s = Ok (st, dest, s') /\
    has_graph s' g gr' /\ retagged x (next_tag (gedge gr' x)) gr gr' /\
    0 <= m <= Z.of_nat (List.length data) /\ k + m <= c /\
    user_bytes s' start (k + m) = user_bytes s start k ++ take (Z.to_nat m) data /\
    parse p (next_tag (gedge gr' x)) (pending (world s') (pipe_of fd)) =
      Some (drop (Z.to_nat m) data, rest) /\
    (forall a, a < start - 1 \/ start + c <= a ->
       cell (hbytes (heap s')) a = cell (hbytes (heap s)) a) /\
    match st with
    | EdgeDone => k + m = c
    | EdgeAgain => k + m < c /\ dest = start + (k + m) /\ m = Z.of_nat (List.length data)
    | EdgeError => k + m < c /\ sys_errno (world s') <> EAGAIN
    end.
Proof.
  destruct (read_more_runs g x start p c fd fuel n s gr k data rest Hr Hk)
    as (st & dest & s' & E & gr' & m & [[] Hre Hm Hb Hfr] & Hst).
  { unfold rounds_left. pose proof (rd_k _ _ _ _ _ _ _ _ _ _ Hr). destruct (_ =? 0); lia. }
  exists st, dest, s', gr', m. split_and!; try done; lia.
Qed.

(** C21. Round trip over a FIFO edge: after [pgm_send_std_data] returned 0, the
    reading loop, started on an empty buffer while at least [nr_consume] bytes
    are on their way, does not wait; unless [read] fails it fills the buffer
    with the oldest [nr_consume] bytes sent, the ones of this message last, and
    the others stay in the stream, in order. *)
Theorem fifo_roundtrip fuel fuel' n s s1 g gr x d
    (e := gedge gr x) (p := nr_produce (e_attr e)) (c := nr_consume (e_attr e))
    (Hg : has_graph s g gr) (He : fifo_edge gr x)
    (Hpipe : pipe_of (fd_in e) = pipe_of (fd_out e)) (Htag : 0 <= next_tag e <= p)
    (Hd : parse p (next_tag e) (pending (world s) (pipe_of (fd_in e))) = Some (d, 0))
    (Henough : c <= Z.of_nat (List.length d) + p)
    (Hf' : 2 * c + 2 <= Z.of_nat fuel')
    (Hsent : pgm_send_std_data fuel g x PGM_NORMAL s = Ok (0, s1)) :
  let start := pgm_get_user_ptr (buf_in e) in
  let sent := d ++ user_bytes s (pgm_get_user_ptr (buf_out e)) p in
  exists st dest s2 gr2, read_more fuel' g n x start start s1 = Ok (st, dest, s2) /\
    has_graph s2 g gr2 /\ st <> EdgeAgain /\
    (st = EdgeDone ->
       user_bytes s2 start c = take (Z.to_nat c) sent /\
       parse p (next_tag (gedge gr2 x)) (pending (world s2) (pipe_of (fd_in e))) =
         Some (drop (Z.to_nat c) sent, 0)).
Proof.
  cbv zeta. pose proof (fe_produce gr x He) as Hp. pose proof (fe_consume gr x He) as Hc.
  fold e p in Hp. fold e c in Hc.
  pose proof (send_std_runs fuel s g gr x PGM_NORMAL Hg He ltac:(done)) as Hres. cbv zeta in Hres.
  rewrite Hsent in Hres. destruct Hres as [Hg' [[_ Hpend]|[? _]]]; [|done]. simpl in Hpend. fold e in Hpend. rewrite <- Hpipe in Hpend.
  set (sent := d ++ user_bytes s (pgm_get_user_ptr (buf_out e)) p).
  assert (Hlen : c <= Z.of_nat (List.length sent))
    by (unfold sent; rewrite length_app, length_user_bytes; lia).
  assert (Hr : reading g x p c (fd_in e) s1 gr 0 sent 0).
  { split; [done|done|done|done|done|lia|done|]. rewrite Hpend, message_normal by done.
    apply parse_message; [done| |done]. rewrite length_user_bytes. unfold p, e in *. lia. }
  destruct (read_more_runs g x (pgm_get_user_ptr (buf_in e)) p c (fd_in e) fuel' n s1 gr 0 sent 0)
    as (st & dest & s2 & E & gr2 & m & [[] Hre Hm Hb Hfr] & Hst); [done|lia| |].
  { unfold rounds_left. destruct (_ =? 0); lia. }
  rewrite Z.add_0_r in E. exists st, dest, s2, gr2. split_and!; [done|done| |].
  - intros ->. lia.
  - intros ->. rewrite Z.add_0_l in *. subst m. done.
Qed.

End Transfer.

Section Delivery.
Context {W : Type} `{WriteEnd W}.
Implicit Types (s : pgm_state W) (gr : pgm_graph).

(** C22. [pgm_send_std_data] on a FIFO edge, whoever empties the FIFO meanwhile: it
    returns as soon as the writes that were not refused with [EAGAIN] have moved the
    message, within as many rounds as the message has bytes and writes were refused (a
    FIFO that stays full is waited for without end).  When it returns 0, exactly the
    tag and the [nr_produce] bytes of the producer's buffer (for a terminate message
    the tag alone) have gone into the FIFO behind what went in before, however many
    writes that took; when it returns -1, a proper prefix has.  So messages follow each
    other without a gap, and the stream parses as before with the new data at its
    end. *)
Theorem pgm_send_std_data_delivers fuel s g gr x tag
    (Hg : has_graph s g gr) (He : fifo_edge gr x) (Ht : 0 <= tag < 256)
    (msg := message s gr x tag) (fd := fd_out (gedge gr x))
    (Hf : (List.length msg + refusals fuel fd msg (world s) <= fuel)%nat) :
  let p := nr_produce (e_attr (gedge gr x)) in
  let old := accepted (world s) (stream_of fd) in
  exists ret s', pgm_send_std_data fuel g x tag s = Ok (ret, s') /\ has_graph s' g gr /\
    ((ret = 0 /\ accepted (world s') (stream_of fd) = old ++ msg /\
      (normal_tag tag = true -> forall k d, parse p k old = Some (d, 0) ->
         parse p k (accepted (world s') (stream_of fd)) = Some (d ++ List.tl msg, 0))) \/
     (ret = -1 /\ exists k, (k < List.length msg)%nat /\
        accepted (world s') (stream_of fd) = old ++ take k msg)).
Proof.
  cbv zeta. pose proof (fe_produce gr x He).
  pose proof (send_std_runs fuel s g gr x tag Hg He Ht) as Hres. cbv zeta in Hres. fold msg fd in Hres.
  destruct (pgm_send_std_data fuel g x tag s) as [[ret s']|f]; [|lia].
  exists ret, s'. destruct Hres as [Hg' [[-> Hp]|Hres]]; (split; [done|]); (split; [done|]); [left|by right].
  split; [done|]. split; [done|]. intros Hn k d Hd. rewrite Hp. unfold msg. rewrite message_normal by done.
  cbn [List.tl]. apply parse_message; [done| |done]. rewrite length_user_bytes. lia.
Qed.

End Delivery.

(** ** A world with FIFOs

    Descriptor [2 k] reads FIFO [k] and [2 k + 1] writes it.  [fw_limits] says
    how many bytes the next writes and reads move at most, none at all for a
    write that finds the FIFO full; [fw_arrivals] what other processes write
    during the next calls of [select]. *)
Record fifo_world := FifoWorld {
  fw_pipes : gmap Z (list Z);
  fw_limits : list Z;
  fw_arrivals : list (Z * list Z);
  fw_errno : Z
}.

#[global] Instance fifo_world_eta : Eta fifo_world := fun w =>
  FifoWorld (fw_pipes w) (fw_limits w) (fw_arrivals w) (fw_errno w).

Definition in_pipe (w : fifo_world) (k : Z) : list Z := default [] (fw_pipes w !! k).

Definition limit (w : fifo_world) (n : Z) : Z :=
  match fw_limits w with [] => n | l :: _ => Z.min l n end.

Definition next_call (w : fifo_world) : fifo_world := w <| fw_limits ::= List.tl |>.

Definition fifo_sys_write (fd : Z) (bs : list Z) (w : fifo_world) : Z * fifo_world :=
  let n := limit w (Z.of_nat (List.length bs)) in
  if 0 <? n
  then (n, next_call w <| fw_pipes ::= <[fd / 2 := in_pipe w (fd / 2) ++ take (Z.to_nat n) bs]> |>)
  else (-1, next_call w <| fw_errno := EAGAIN |>).

Definition fifo_sys_read (fd n : Z) (w : fifo_world) : (Z * list Z) * fifo_world :=
  let k := Z.min (Z.max 1 (limit w n)) (Z.of_nat (List.length (in_pipe w (fd / 2)))) in
  if 0 <? k
  then ((k, take (Z.to_nat k) (in_pipe w (fd / 2))),
        next_call w <| fw_pipes ::= <[fd / 2 := drop (Z.to_nat k) (in_pipe w (fd / 2))]> |>)
  else ((-1, []), next_call w <| fw_errno := EAGAIN |>).

Definition fifo_sys_select (fds : list Z) (w : fifo_world) : (Z * list Z) * fifo_world :=
  ((Z.of_nat (List.length fds), fds),
   match fw_arrivals w with
   | [] => w
   | (k, bs) :: l => w <| fw_arrivals := l |> <| fw_pipes ::= <[k := in_pipe w k ++ bs]> |>
   end).

#[global] Instance fifo_sys : Syscalls fifo_world := {|
  sys_errno := fw_errno;
  sys_gettid _ := 1234;
  sys_malloc n w := (0, w);
  sys_free _ w := w;
  sys_alloc _ := Ring.test_alloc;
  sys_new_graphs w := (true, w);
  sys_shm_remove _ w := w;
  sys_time w := (0, w);
  sys_usleep _ w := w;
  string_hash _ := 0;
  path_append d n := (d +:+ "/" +:+ n)%string;
  fs_remove _ w := (true, w);
  fs_exists _ w := (true, w);
  sys_mkfifo _ w := (0, w);
  sys_open_rdonly _ w := (-1, w);
  sys_open_wronly _ w := (-1, w);
  sys_close _ w := (0, w);
  sys_read := fifo_sys_read;
  sys_write := fifo_sys_write;
  sys_select _ := fifo_sys_select;
  sys_mq_unlink _ w := (0, w);
  sys_mq_open_rdonly _ _ _ w := (-1, w);
  sys_mq_open_wronly _ _ _ w := (-1, w);
  sys_mq_close _ w := (0, w);
  sys_mq_receive _ _ w := ((-1, []), w);
  sys_mq_send _ _ w := (-1, w);
  sys_getaddrinfo _ _ _ w := ((-1, []), w);
  sys_freeaddrinfo _ w := w;
  sys_socket _ w := (-1, w);
  sys_connect _ _ w := (-1, w);
  sys_bind _ _ w := (-1, w);
  sys_listen _ _ w := (-1, w);
  sys_accept _ w := (-1, w);
  sys_recv _ _ w := ((-1, []), w);
  sys_send _ _ w := (-1, w)
|}.

Lemma in_pipe_insert w m k bs : in_pipe (w <| fw_pipes := <[k := bs]> m |>) k = bs.
Proof. unfold in_pipe. simpl. by rewrite lookup_insert_eq. Qed.

#[global] Instance fifo_pipes : Pipes fifo_world.
Proof.
  refine {| pipe_of fd := fd / 2; pending := in_pipe |}.
  - intros fd bs w Hbs. simpl. unfold fifo_sys_write.
    assert (0 < List.length bs)%nat by (destruct bs; [done | simpl; lia]).
    destruct (Z.ltb_spec 0 (limit w (Z.of_nat (List.length bs)))) as [Hn|Hn]; [left|right].
    + split_and!; [done| |apply in_pipe_insert]. unfold limit in *. destruct (fw_limits w); lia.
    + done.
  - intros fd n w Hn. simpl. unfold fifo_sys_read.
    destruct (Z.ltb_spec 0 (Z.min (Z.max 1 (limit w n)) (Z.of_nat (List.length (in_pipe w (fd / 2))))))
      as [Hk|Hk]; [left|right].
    + split_and!; [done| |lia| |apply in_pipe_insert].
      * unfold limit. destruct (fw_limits w); lia.
      * by rewrite take_take, Nat.min_id.
    + split_and!; [done| |done]. intros _. apply length_zero_iff_nil. lia.
Defined.

(** ** Concrete FIFO edges *)

(** An open FIFO edge from node 0 to node 1 over FIFO [k], with messages of [p]
    bytes and a consumer that takes [c]; its buffers start at [out] and [inb]. *)
Definition fifo_link (k p c out inb : Z) (gr : pgm_graph) : pgm_graph :=
  link_edge 0 1 ((fresh_edge (Node_t 0 0) (Node_t 0 1) (lit "e")
    (Attr p c c pgm_fifo_edge 0 0 0) false 0)
    <| e_ops := Some pgm_fifo_edge_ops |> <| e_ipc := IpcStd (2 * k + 1) (2 * k) 0 |>
    <| buf_out := out |> <| buf_in := inb |>) gr.

Definition fifo_state (gr : pgm_graph) (bytes : gmap Z Z) (w : fifo_world) : pgm_state fifo_world :=
  State (Some {[0 := gr]}) false true "/tmp"%string EmptyString (Heap ∅ bytes) w.

Definition one_fifo : pgm_graph := fifo_link 1 3 2 1024 2048 demo_nodes.

(** The producer's buffer, at 1056, holds 7, 8, 9. *)
Definition one_fifo_state (w : fifo_world) : pgm_state fifo_world :=
  fifo_state one_fifo {[1056 := 7; 1057 := 8; 1058 := 9]} w.

Lemma one_fifo_graph w : has_graph (one_fifo_state w) 0 one_fifo.
Proof. split; [done|]. by eexists. Qed.

Lemma one_fifo_edge : fifo_edge one_fifo 0.
Proof. by split; [..|by eexists _, _, _]. Qed.

Lemma pgm_send_std_data_delivers_witness :
  exists ret s', pgm_send_std_data 7 0 0 PGM_NORMAL (one_fifo_state (FifoWorld ∅ [1; 0; 2] [] 0)) =
    Ok (ret, s') /\ (ret = 0 -> in_pipe (world s') 1 = [1; 7; 8; 9]).
Proof.
  destruct (pgm_send_std_data_delivers 7 (one_fifo_state (FifoWorld ∅ [1; 0; 2] [] 0)) 0 one_fifo 0
    PGM_NORMAL (one_fifo_graph _) one_fifo_edge ltac:(done) ltac:(vm_compute; lia))
    as (ret & s' & E & _ & Hres).
  exists ret, s'. split; [exact E|]. intros Hr. destruct Hres as [(_ & Hp & _)|[? _]]; [|lia].
  exact Hp.
Defined.

Lemma read_more_unframes_witness :
  exists st dest s' m, read_more 6 0 1 0 2080 2080
    (one_fifo_state (FifoWorld {[1 := [1; 7; 8; 9; 1; 10]]} [1; 2] [] 0)) = Ok (st, dest, s') /\
    user_bytes s' 2080 m = take (Z.to_nat m) [7; 8; 9; 10].
Proof.
  destruct (read_more_unframes 6 0 1 0 2080 3 2 2
    (one_fifo_state (FifoWorld {[1 := [1; 7; 8; 9; 1; 10]]} [1; 2] [] 0)) one_fifo 0 [7; 8; 9; 10] 2)
    as (st & dest & s' & gr' & m & E & _ & _ & _ & _ & Hb & _); [|lia|lia|].
  - split; [apply one_fifo_graph|apply one_fifo_edge|done..|vm_compute; done].
  - exists st, dest, s', m. split; [exact E | exact Hb].
Defined.

Lemma fifo_roundtrip_witness :
  exists s1 st dest s2, pgm_send_std_data 4 0 0 PGM_NORMAL (one_fifo_state (FifoWorld ∅ [] [] 0)) =
    Ok (0, s1) /\ read_more 6 0 1 0 2080 2080 s1 = Ok (st, dest, s2) /\
    (st = EdgeDone -> user_bytes s2 2080 2 = [7; 8]).
Proof.
  destruct (pgm_send_std_data 4 0 0 PGM_NORMAL (one_fifo_state (FifoWorld ∅ [] [] 0)))
    as [[ret s1]|f] eqn:E; [|by vm_compute in E].
  assert (ret = 0) as -> by (vm_compute in E; congruence).
  destruct (fifo_roundtrip 4 6 1 (one_fifo_state (FifoWorld ∅ [] [] 0)) s1 0 one_fifo 0 [])
    as (st & dest & s2 & gr2 & E2 & _ & _ & Hd);
    [apply one_fifo_graph|apply one_fifo_edge|done..|exact E|].
  exists s1, st, dest, s2. split; [done|]. split; [exact E2|]. intros Hst.
  destruct (Hd Hst) as [Hb _]. exact Hb.
Defined.

(** Two FIFO edges into node 1, with messages of two bytes.  Two messages wait
    on the first edge and half a message on the second; its other half arrives
    while the consumer waits. *)
Definition two_fifos : pgm_state fifo_world :=
  fifo_state (fifo_link 2 2 2 3072 4096 (fifo_link 1 2 2 1024 2048 demo_nodes)) ∅
    (FifoWorld {[1 := [1; 10; 11; 1; 20; 21]; 2 := [1; 30]]} []
       [(2, []); (2, [31])] 0).

(** A message can get lost: when one edge has to be waited for in the middle
    of a message, [pgm_recv_data] starts over with the first edge, although that
    one is complete, and reads its next message over the one it already holds.
    One call consumes both messages of the first edge, the second is in the
    buffer, and the call reports success. *)
Example recv_restart_loses_message :
  exists s', pgm_recv_data 10 10 0 1 two_fifos = Ok (WaitSuccess, s') /\
    user_bytes s' (pgm_get_user_ptr 2048) 2 = [20; 21] /\
    user_bytes s' (pgm_get_user_ptr 4096) 2 = [30; 31] /\
    in_pipe (world s') 1 = [] /\ in_pipe (world s') 2 = [].
Proof. eexists. split; [vm_compute; reflexivity|]. by vm_compute. Qed.

End Transfer.
