(* ===== verification/Tokens.v ===== *)
(** * Tokens, waiting and completing (src/pgm.cpp, "Token Transmission
    Routines": [pgm_nr_ready_edges] to [pgm_send_tokens], [pgm_wait],
    [pgm_produce], [pgm_complete], [pgm_terminate]) *)

From S2P Require Import Prelude Ring Types Sys Structure Memory Ipc Stream.

Module Tokens.
Import Types Sys Structure Memory Ipc Stream.
#[local] Open Scope Z_scope.

(** [is_signal_driven(e) && ((e->nr_pending >= e->attr.nr_threshold) || (e->nr_skips > 0))] *)
Definition edge_ready (e : pgm_edge) : bool :=
  is_signal_driven e && ((nr_threshold (e_attr e) <=? nr_pending e) || (0 <? nr_skips e)).

Section Tokens.
Context {W : Type} `{Syscalls W}.
(** Bounds for the loops of the data-passing routines. *)
Context (rounds fuel : nat).

(** ** Counting ready edges *)

Definition pgm_nr_ready_edges (g n : Z) : ST (pgm_state W) Z :=
  nd ← rd_node g n;
  for_acc (upto (nr_in nd)) 0 (fun i nr_ready =>
    '(_, e) ← in_edge g n i;
    mret (if edge_ready e then nr_ready + 1 else nr_ready)).

(** The overload that also counts the edges that are not back edges. *)
Definition pgm_nr_ready_edges_normal (g n : Z) : ST (pgm_state W) (Z * Z) :=
  nd ← rd_node g n;
  for_acc (upto (nr_in nd)) (0, 0) (fun i acc =>
    let '(nr_ready, nr_ready_normal) := acc in
    '(_, e) ← in_edge g n i;
    if edge_ready e
    then mret (nr_ready + 1, if negb (is_backedge e) then nr_ready_normal + 1 else nr_ready_normal)
    else mret (nr_ready, nr_ready_normal)).

(** The node's lock. *)
Definition pgm_lock (g n : Z) : ST (pgm_state W) unit :=
  nd ← rd_node g n;
  if n_lock nd then fail Deadlock else upd_node g n (fun nd => nd <| n_lock := true |>).

Definition pgm_unlock (g n : Z) : ST (pgm_state W) unit :=
  upd_node g n (fun nd => nd <| n_lock := false |>).

Definition pgm_cv_signal (g n : Z) : ST (pgm_state W) unit :=
  upd_node g n (fun nd => nd <| n_wait ::= fun k => k + 1 |>).

(** What the waiting thread finds: enough tokens everywhere, the end of the
    stream, or neither. *)
Definition check_tokens (g n : Z) : ST (pgm_state W) (option eWaitStatus) :=
  '(nr_ready, nr_ready_normal) ← pgm_nr_ready_edges_normal g n;
  nd ← rd_node g n;
  mret (if nr_ready =? nr_in_signaled nd then Some WaitSuccess
        else if (nr_ready_normal =? 0) && negb (nr_terminate_signals nd =? 0) &&
                (nr_terminate_signals nd =? nr_in_signaled nd - nr_in_signaled_backedges nd)
        then Some WaitExhaustedAndTerminate else None).

(** [pgm_cv_wait] releases the lock and sleeps: a call that gets there blocks. *)
Definition pgm_wait_for_tokens (g n : Z) : ST (pgm_state W) eWaitStatus :=
  quick ← check_tokens g n;
  match quick with
  | Some status => mret status
  | None =>
      pgm_lock g n ;;
      again ← check_tokens g n;
      match again with
      | Some status => pgm_unlock g n ;; mret status
      | None => fail Blocks
      end
  end.

(** ** Consuming and producing *)

Definition pgm_consume_skips (g n : Z) : ST (pgm_state W) unit :=
  nd ← rd_node g n;
  for_each (upto (nr_in nd)) (fun i =>
    '(x, e) ← in_edge g n i;
    if 0 <? nr_skips e then upd_edge g x (fun e => e <| nr_skips ::= fun k => k - 1 |>)
    else mret tt).

Definition pgm_consume_tokens (g n : Z) : ST (pgm_state W) unit :=
  nd ← rd_node g n;
  for_each (upto (nr_in nd)) (fun i =>
    '(x, e) ← in_edge g n i;
    if is_signal_driven e && (nr_skips e =? 0)
    then upd_edge g x (fun e =>
      e <| nr_pending ::= fun k => wrap64 (k - nr_consume (e_attr e)) |>)
    else mret tt).

Definition pgm_send_tokens (g x : Z) : ST (pgm_state W) bool :=
  e ← rd_edge g x;
  let old_nr_tokens := nr_pending e in
  let a := e_attr e in
  upd_edge g x (fun e => e <| nr_pending ::= fun k => wrap64 (k + nr_produce (e_attr e)) |>) ;;
  mret ((old_nr_tokens <? nr_threshold a) &&
        (nr_threshold a <=? wrap64 (old_nr_tokens + nr_produce a))).

(** One outbound edge of [pgm_produce]; the list collects the nodes to wake. *)
Definition produce_edge (g n command : Z) (i : Z) (acc : bool * list Z)
    : ST (pgm_state W) (bool * list Z) :=
  let '(was_error, to_wake) := acc in
  nd ← rd_node g n;
  x ← lift (out_of nd i);
  e ← rd_edge g x;
  if has_flag command PGM_TERMINATE && is_backedge e then mret (was_error, to_wake)
  else
    err ← (if is_data_passing e
           then ret ← pgm_send_data fuel g x command; mret (was_error || negb (ret =? 0))
           else mret was_error);
    if negb (is_signal_driven e) then mret (err, to_wake)
    else if negb (has_flag command PGM_TERMINATE) then
      wake ← pgm_send_tokens g x;
      mret (err, if wake : bool then to_wake ++ [e_consumer e] else to_wake)
    else
      upd_node g (e_consumer e) (fun c => c <| nr_terminate_signals ::= fun k => k + 1 |>) ;;
      mret (err, to_wake ++ [e_consumer e]).

Definition wake_node (g command c : Z) : ST (pgm_state W) unit :=
  pgm_lock g c ;;
  nr_ready ← pgm_nr_ready_edges g c;
  nd ← rd_node g c;
  (if has_flag command PGM_TERMINATE || (nr_ready =? nr_in_signaled nd)
   then pgm_cv_signal g c else mret tt) ;;
  pgm_unlock g c.

Definition pgm_produce (node : node_t) (command : Z) : ST (pgm_state W) Z :=
  let g := nd_graph node in
  let n := nd_node node in
  nd ← rd_node g n;
  '(was_error, to_wake) ← for_acc (upto (nr_out nd)) (false, []) (produce_edge g n command);
  for_each to_wake (wake_node g command) ;;
  mret (if was_error : bool then -1 else 0).

Definition pgm_complete (node : node_t) : ST (pgm_state W) Z := pgm_produce node PGM_NORMAL.
Definition pgm_terminate (node : node_t) : ST (pgm_state W) Z := pgm_produce node PGM_TERMINATE.

(** ** Waiting *)

Definition bad_status (st : eWaitStatus) : bool :=
  match st with WaitTimeout | WaitError => true | _ => false end.

Definition pgm_wait (node : node_t) : ST (pgm_state W) Z :=
  let g := nd_graph node in
  let n := nd_node node in
  nd ← rd_node g n;
  token_status ← (if negb (nr_in_signaled nd =? 0) then pgm_wait_for_tokens g n
                  else mret WaitExhaustedAndTerminate);
  nd ← rd_node g n;
  data_status ← (if negb (nr_in_data nd =? 0) then pgm_recv_data rounds fuel g n
                 else mret WaitExhaustedAndTerminate);
  let ret :=
    if bool_decide (token_status = WaitExhaustedAndTerminate) &&
       bool_decide (data_status = WaitExhaustedAndTerminate) then PGM_TERMINATE
    else if bad_status token_status || bad_status data_status then -1 else 0 in
  nd ← rd_node g n;
  (if negb (nr_in_signaled nd =? 0) && negb (ret =? PGM_TERMINATE)
   then pgm_consume_tokens g n else mret tt) ;;
  pgm_consume_skips g n ;;
  (if ret =? PGM_TERMINATE then _ ← pgm_terminate node; mret tt else mret tt) ;;
  mret ret.

End Tokens.

End Tokens.
