(* ===== verification/Firing.v ===== *)
(** * What waiting and completing do to tokens

    For nodes fed by signalled edges, [pgm_wait] fires exactly when every
    inbound edge has its threshold of tokens (or skips left), consumes from each
    without ever going below zero, and otherwise blocks; [pgm_complete] adds the
    produced tokens to every outbound edge and signals the consumers that became
    ready. *)

From S2P Require Import Prelude Ring Types Sys Structure Memory Ipc GraphInit GraphWf Teardown Query Search Lookup Ownership Stream Tokens.
From Stdlib Require Import Ascii.

Module Firing.
Import Types Sys Structure GraphInit GraphWf Query Search Lookup Ownership Stream Tokens.
#[local] Open Scope Z_scope.

(** ** Counting *)

Lemma count_edges_snoc gr P l e :
  count_edges gr P (l ++ [e]) = count_edges gr P l + one_if (P (gedge gr e)).
Proof.
  unfold count_edges. rewrite filter_app, length_app, Nat2Z.inj_add. f_equal.
  rewrite filter_cons. by destruct (P (gedge gr e)).
Qed.

Lemma count_edges_cons gr P l e :
  count_edges gr P (e :: l) = one_if (P (gedge gr e)) + count_edges gr P l.
Proof.
  unfold count_edges. rewrite filter_cons. destruct (P (gedge gr e)) eqn:E; simpl; lia.
Qed.

(** A count over a stronger test is smaller, and equal only if the tests agree. *)
Lemma count_edges_eq gr (P Q : pgm_edge -> bool) l :
  (forall e, P e = true -> Q e = true) ->
  count_edges gr P l <= count_edges gr Q l /\
  (count_edges gr P l = count_edges gr Q l <->
   forall e, e ∈ l -> Q (gedge gr e) = true -> P (gedge gr e) = true).
Proof.
  intros HPQ. induction l as [|x l [IHle IH]].
  { split; [done|]. split; [intros _ e He; by apply elem_of_nil in He | done]. }
  rewrite !count_edges_cons.
  assert (Hx : one_if (P (gedge gr x)) <= one_if (Q (gedge gr x)) /\
    (one_if (P (gedge gr x)) = one_if (Q (gedge gr x)) <->
     (Q (gedge gr x) = true -> P (gedge gr x) = true))).
  { specialize (HPQ (gedge gr x)). destruct (P (gedge gr x)), (Q (gedge gr x)); simpl; naive_solver lia. }
  split; [lia|]. split.
  - intros E e [->|He]%elem_of_cons; [apply Hx; lia | apply IH; [lia | done]].
  - intros Hl. rewrite (proj2 (proj2 Hx)), (proj2 IH); [done| |].
    + intros e He. apply Hl. by constructor.
    + apply Hl. constructor.
Qed.

Lemma count_edges_zero gr P l :
  count_edges gr P l = 0 <-> forall e, e ∈ l -> P (gedge gr e) = false.
Proof.
  induction l as [|x l IH].
  - split; [intros _ e He; by apply elem_of_nil in He | done].
  - assert (0 <= count_edges gr P l) by apply Nat2Z.is_nonneg.
    rewrite count_edges_cons. split.
    + intros E e [->|He]%elem_of_cons.
      * destruct (P (gedge gr x)); [simpl in E; lia | done].
      * apply IH; [|done]. destruct (P (gedge gr x)); simpl in E; lia.
    + intros Hl. rewrite (Hl x) by constructor. simpl. rewrite (proj2 IH); [done|].
      intros e He. apply Hl. by constructor.
Qed.

(** Every signalled inbound edge has enough tokens, or skips left. *)
Definition all_ready (gr : pgm_graph) (n : Z) : Prop := forall e,
  e ∈ in_list (gnode gr n) -> is_signal_driven (gedge gr e) = true -> edge_ready (gedge gr e) = true.

Lemma ready_signaled e : edge_ready e = true -> is_signal_driven e = true.
Proof. unfold edge_ready. by intros [? _]%andb_true_iff. Qed.

Lemma count_ready gr n :
  graph_wf gr -> is_node gr n ->
  count_edges gr edge_ready (in_list (gnode gr n)) = nr_in_signaled (gnode gr n) <->
  all_ready gr n.
Proof.
  intros Hwf Hn. rewrite (nw_signaled _ _ (gw_node gr Hwf n Hn)).
  by apply count_edges_eq, ready_signaled.
Qed.

Section Firing.
Context {W : Type} `{Syscalls W} (rounds fuel : nat).
Implicit Types (s : pgm_state W) (gr : pgm_graph).

Lemma in_edge_ok s g gr n i :
  has_graph s g gr -> graph_wf gr -> is_node gr n -> 0 <= i < nr_in (gnode gr n) ->
  in_edge g n i s = Ok (cell (n_in (gnode gr n)) i, gedge gr (cell (n_in (gnode gr n)) i), s).
Proof.
  intros Hg Hwf Hn Hi. pose proof (gw_nodes gr Hwf). destruct (gw_node gr Hwf n Hn) as [Hni].
  assert (0 <= n < PGM_MAX_NODES) by (unfold is_node in Hn; lia).
  assert (0 <= cell (n_in (gnode gr n)) i < PGM_MAX_EDGES).
  { eapply (listed_in_range gr n); [done..|]. left. apply list_elem_of_fmap. exists i.
    split; [done|]. by apply elem_of_upto. }
  unfold in_edge. st_step. fold (gnode gr n).
  erewrite bind_step by (unfold lift, in_of; by rewrite aget_ok by lia). cbv beta. by st_step.
Qed.

(** A fold that counts. *)
Lemma fold_count gr P (m : gmap Z Z) (idx : list Z) k :
  fold_left (fun k i => if P (gedge gr (cell m i)) : bool then k + 1 else k) idx k =
  k + count_edges gr P (cell m <$> idx).
Proof.
  revert k. induction idx as [|i idx IH]; intros k; simpl; [unfold count_edges; simpl; lia|].
  rewrite IH. change (list_fmap Z Z (cell m) idx) with (cell m <$> idx).
  rewrite count_edges_cons. destruct (P _); simpl; lia.
Qed.

Lemma nr_ready_runs s g gr n :
  has_graph s g gr -> graph_wf gr -> is_node gr n ->
  pgm_nr_ready_edges g n s = Ok (count_edges gr edge_ready (in_list (gnode gr n)), s).
Proof.
  intros Hg Hwf Hn. pose proof (gw_nodes gr Hwf).
  assert (0 <= n < PGM_MAX_NODES) by (unfold is_node in Hn; lia).
  unfold pgm_nr_ready_edges. st_step. fold (gnode gr n).
  rewrite (for_acc_pure _ _ (fun i k =>
    if edge_ready (gedge gr (cell (n_in (gnode gr n)) i)) then k + 1 else k)).
  - by rewrite fold_count.
  - intros i b Hi%elem_of_upto. rewrite (bind_step _ _ _ _ _ (in_edge_ok s g gr n i Hg Hwf Hn Hi)). done.
Qed.

Definition ready_normal (e : pgm_edge) : bool := edge_ready e && negb (is_backedge e).

Lemma nr_ready_normal_runs s g gr n :
  has_graph s g gr -> graph_wf gr -> is_node gr n ->
  pgm_nr_ready_edges_normal g n s =
  Ok (count_edges gr edge_ready (in_list (gnode gr n)),
      count_edges gr ready_normal (in_list (gnode gr n)), s).
Proof.
  intros Hg Hwf Hn. pose proof (gw_nodes gr Hwf).
  assert (0 <= n < PGM_MAX_NODES) by (unfold is_node in Hn; lia).
  unfold pgm_nr_ready_edges_normal. st_step. fold (gnode gr n).
  rewrite (for_acc_pure _ _ (fun i acc =>
    (if edge_ready (gedge gr (cell (n_in (gnode gr n)) i)) then acc.1 + 1 else acc.1,
     if ready_normal (gedge gr (cell (n_in (gnode gr n)) i)) then acc.2 + 1 else acc.2))).
  - assert (Hf : forall idx a b, fold_left (fun acc i =>
      (if edge_ready (gedge gr (cell (n_in (gnode gr n)) i)) then acc.1 + 1 else acc.1,
       if ready_normal (gedge gr (cell (n_in (gnode gr n)) i)) then acc.2 + 1 else acc.2)) idx (a, b) =
      (a + count_edges gr edge_ready (cell (n_in (gnode gr n)) <$> idx),
       b + count_edges gr ready_normal (cell (n_in (gnode gr n)) <$> idx))).
    { intros idx a b. rewrite <- !fold_count. revert a b.
      induction idx as [|i idx IH]; intros a b; simpl; [done|]. by rewrite IH. }
    by rewrite Hf.
  - intros i [a b] Hi%elem_of_upto.
    rewrite (bind_step _ _ _ _ _ (in_edge_ok s g gr n i Hg Hwf Hn Hi)).
    unfold ready_normal. simpl. by destruct (edge_ready _), (is_backedge _).
Qed.

(** All forward producers have said they are done, and no forward edge has
    enough tokens left. *)
Definition exhausted gr (n : Z) : Prop :=
  count_edges gr ready_normal (in_list (gnode gr n)) = 0 /\
  nr_terminate_signals (gnode gr n) <> 0 /\
  nr_terminate_signals (gnode gr n) =
    nr_in_signaled (gnode gr n) - nr_in_signaled_backedges (gnode gr n).

Lemma check_tokens_runs s g gr n :
  has_graph s g gr -> graph_wf gr -> is_node gr n ->
  exists r, check_tokens g n s = Ok (r, s) /\
    ((all_ready gr n /\ r = Some WaitSuccess) \/
     (~ all_ready gr n /\ exhausted gr n /\ r = Some WaitExhaustedAndTerminate) \/
     (~ all_ready gr n /\ ~ exhausted gr n /\ r = None)).
Proof.
  intros Hg Hwf Hn. pose proof (gw_nodes gr Hwf).
  assert (0 <= n < PGM_MAX_NODES) by (unfold is_node in Hn; lia). unfold check_tokens.
  rewrite (bind_step _ _ _ _ _ (nr_ready_normal_runs s g gr n Hg Hwf Hn)). st_step.
  fold (gnode gr n). eexists. split; [done|].
  pose proof (count_ready gr n Hwf Hn) as Hr. unfold exhausted.
  destruct (Z.eqb_spec (count_edges gr edge_ready (in_list (gnode gr n)))
    (nr_in_signaled (gnode gr n))) as [E|E]; [left; tauto|]. right.
  destruct (Z.eqb_spec (count_edges gr ready_normal (in_list (gnode gr n))) 0);
    destruct (Z.eqb_spec (nr_terminate_signals (gnode gr n)) 0);
    destruct (Z.eqb_spec (nr_terminate_signals (gnode gr n))
      (nr_in_signaled (gnode gr n) - nr_in_signaled_backedges (gnode gr n))); simpl; tauto.
Qed.

Lemma wait_tokens_ready s g gr n :
  has_graph s g gr -> graph_wf gr -> is_node gr n -> all_ready gr n ->
  pgm_wait_for_tokens g n s = Ok (WaitSuccess, s).
Proof.
  intros Hg Hwf Hn Hr. unfold pgm_wait_for_tokens.
  destruct (check_tokens_runs s g gr n Hg Hwf Hn) as (r & E & Hcase).
  rewrite (bind_step _ _ _ _ _ E). destruct Hcase as [[_ ->]|[[? _]|[? _]]]; done.
Qed.

Lemma wait_tokens_exhausted s g gr n :
  has_graph s g gr -> graph_wf gr -> is_node gr n -> ~ all_ready gr n -> exhausted gr n ->
  pgm_wait_for_tokens g n s = Ok (WaitExhaustedAndTerminate, s).
Proof.
  intros Hg Hwf Hn Hr Hx. unfold pgm_wait_for_tokens.
  destruct (check_tokens_runs s g gr n Hg Hwf Hn) as (r & E & Hcase).
  rewrite (bind_step _ _ _ _ _ E). destruct Hcase as [[? _]|[(_ & _ & ->)|(_ & ? & _)]]; done.
Qed.

(** The graph with the lock of node [n] held. *)
Definition hold_lock (n : Z) (b : bool) gr : pgm_graph :=
  gr <| nodes ::= at_node n (fun nd => nd <| n_lock := b |>) |>.

Lemma hold_lock_equiv n b gr : gr ≡ hold_lock n b gr.
Proof.
  split; [done|]. split; [|done]. intros i. simpl. unfold at_node. rewrite cell_insert.
  by case_decide; subst.
Qed.

Lemma gnode_hold_lock n b gr i :
  gnode (hold_lock n b gr) i =
  if decide (n = i) then (gnode gr i) <| n_lock := b |> else gnode gr i.
Proof. unfold gnode. simpl. unfold at_node. rewrite cell_insert. by case_decide; subst. Qed.

Lemma hold_lock_ready n b gr c : all_ready (hold_lock n b gr) c <-> all_ready gr c.
Proof.
  unfold all_ready. destruct (equiv_node gr (hold_lock n b gr) c (hold_lock_equiv _ _ _)) as (-> & _).
  done.
Qed.

Lemma hold_lock_exhausted n b gr : exhausted (hold_lock n b gr) n <-> exhausted gr n.
Proof.
  unfold exhausted. rewrite gnode_hold_lock, decide_True by done. done.
Qed.

Lemma wait_tokens_blocks s g gr n :
  has_graph s g gr -> graph_wf gr -> is_node gr n -> n_lock (gnode gr n) = false ->
  ~ all_ready gr n -> ~ exhausted gr n -> pgm_wait_for_tokens g n s = Fault Blocks.
Proof.
  intros Hg Hwf Hn Hl Hr Hx. unfold pgm_wait_for_tokens. pose proof (gw_nodes gr Hwf).
  assert (0 <= n < PGM_MAX_NODES) by (unfold is_node in Hn; lia).
  destruct (check_tokens_runs s g gr n Hg Hwf Hn) as (r & E & Hcase).
  rewrite (bind_step _ _ _ _ _ E). destruct Hcase as [[? _]|[(_ & ? & _)|(_ & _ & ->)]]; [done..|].
  erewrite bind_step.
  2:{ unfold pgm_lock. st_step. fold (gnode gr n). rewrite Hl. by apply (upd_node_at s g gr). }
  cbv beta.
  destruct (check_tokens_runs (put_graph g (hold_lock n true gr) s) g (hold_lock n true gr) n)
    as (r & E1 & Hcase); [by eapply has_graph_put | by rewrite <- hold_lock_equiv | done |].
  rewrite (bind_step _ _ _ _ _ E1). rewrite hold_lock_ready, hold_lock_exhausted in Hcase.
  destruct Hcase as [[? _]|[(_ & ? & _)|(_ & _ & ->)]]; done.
Qed.

(** ** Loops over inbound edges *)

(** [gr'] is [gr] with [f] applied to the edges of [l]. *)
Record edges_mapped (f : pgm_edge -> pgm_edge) (l : list Z) gr gr' : Prop := {
  em_rest : gr' = gr <| edges := edges gr' |>;
  em_edge : forall e, gedge gr' e = if decide (e ∈ l) then f (gedge gr e) else gedge gr e
}.

Lemma edges_mapped_node f l gr gr' i : edges_mapped f l gr gr' -> gnode gr' i = gnode gr i.
Proof. intros [E _]. by rewrite E. Qed.

Lemma edges_mapped_trans f g' l gr gr1 gr2 :
  edges_mapped f l gr gr1 -> edges_mapped g' l gr1 gr2 ->
  edges_mapped (fun e => g' (f e)) l gr gr2.
Proof.
  intros [R1 E1] [R2 E2]. split.
  - rewrite R2 at 1. by rewrite R1.
  - intros e. rewrite E2, !E1. by case_decide.
Qed.

(** Mapping a function that keeps skeletons keeps the graph well formed. *)
Lemma edges_mapped_equiv f l gr gr' :
  (forall e, edge_skel (f e) = edge_skel e) -> edges_mapped f l gr gr' -> gr ≡ gr'.
Proof.
  intros Hf [R E]. split; [by rewrite R|]. split.
  - intros i. by rewrite R.
  - intros i. fold (gedge gr i) (gedge gr' i). rewrite E. case_decide; [by rewrite Hf | done].
Qed.

Lemma edge_loop s g gr n (P : pgm_edge -> bool) (f : pgm_edge -> pgm_edge) idx :
  has_graph s g gr -> in_use gr = true -> graph_wf gr -> is_node gr n ->
  (forall e, edge_skel (f e) = edge_skel e) -> NoDup (cell (n_in (gnode gr n)) <$> idx) ->
  (forall i, i ∈ idx -> 0 <= i < nr_in (gnode gr n)) ->
  exists gr', for_each idx (fun i =>
      '(x, e) ← in_edge g n i;
      if P e : bool then upd_edge g x f else mret tt) s = Ok (tt, put_graph g gr' s) /\
    edges_mapped (fun e => if P e then f e else e) (cell (n_in (gnode gr n)) <$> idx) gr gr'.
Proof.
  intros Hg Hu Hwf Hn Hf. revert s gr Hg Hu Hwf Hn.
  induction idx as [|i idx IH]; intros s gr Hg Hu Hwf Hn Hnd Hidx.
  { exists gr. split; [simpl; unfold mret, ST_ret; by rewrite put_graph_id|].
    split; [by destruct gr|]. intros e. by rewrite decide_False by apply not_elem_of_nil. }
  rewrite fmap_cons in Hnd. apply NoDup_cons in Hnd as [Hni Hnd].
  set (x := cell (n_in (gnode gr n)) i) in *. simpl.
  assert (Hi : 0 <= i < nr_in (gnode gr n)) by (apply Hidx; by constructor).
  assert (Hx : 0 <= x < PGM_MAX_EDGES).
  { eapply (listed_in_range gr n); [done..|]. left. apply list_elem_of_fmap. exists i.
    split; [done|]. by apply elem_of_upto. }
  set (gr1 := if P (gedge gr x) then gr <| edges ::= <[x := f (gedge gr x)]> |> else gr).
  assert (E1 : ('(x, e) ← in_edge g n i; if P e : bool then upd_edge g x f else mret tt) s =
    Ok (tt, put_graph g gr1 s)).
  { rewrite (bind_step _ _ _ _ _ (in_edge_ok s g gr n i Hg Hwf Hn Hi)). fold x. subst gr1.
    destruct (P _); [by apply upd_edge_at|]. unfold mret, ST_ret. by rewrite put_graph_id. }
  rewrite (bind_step _ _ _ _ _ E1).
  assert (Hmap : edges_mapped (fun e => if P e then f e else e) [x] gr gr1).
  { subst gr1. split; [by destruct gr, (P _)|]. intros e.
    destruct (decide (e ∈ [x])) as [->%list_elem_of_singleton|Hne].
    - destruct (P (gedge gr x)); [apply cell_insert_eq | done].
    - destruct (P (gedge gr x)); [|done]. apply cell_insert_ne. intros <-. apply Hne. by constructor. }
  assert (Heq : gr ≡ gr1).
  { eapply edges_mapped_equiv; [|exact Hmap]. intros e. simpl. by destruct (P e). }
  assert (En : gnode gr1 n = gnode gr n) by (by eapply edges_mapped_node).
  destruct (IH (put_graph g gr1 s) gr1) as (gr' & -> & [R' E']).
  - by eapply has_graph_put.
  - destruct Heq as (Ef & _). injection Ef. congruence.
  - by rewrite <- Heq.
  - unfold is_node in *. destruct (equiv_sizes gr gr1 Heq) as [<- _]. done.
  - by rewrite En.
  - intros j Hj. rewrite En. apply Hidx. by constructor.
  - exists gr'. rewrite put_put. split; [done|]. rewrite En in *. split.
    + rewrite R' at 1. destruct Hmap as [R _]. by rewrite R.
    + intros e. rewrite E'. destruct Hmap as [_ Em]. rewrite Em. fold x.
      destruct (decide (e = x)) as [->|Hne].
      * rewrite (decide_False (P := x ∈ _ <$> idx)), !decide_True by (done || constructor). done.
      * rewrite (decide_False (P := e ∈ [x])) by (by rewrite list_elem_of_singleton).
        apply decide_ext. rewrite elem_of_cons. tauto.
Qed.

(** ** Firing *)

Definition take_tokens (e : pgm_edge) : pgm_edge :=
  if is_signal_driven e && (nr_skips e =? 0)
  then e <| nr_pending ::= fun k => wrap64 (k - nr_consume (e_attr e)) |> else e.

Definition take_skip (e : pgm_edge) : pgm_edge :=
  if 0 <? nr_skips e then e <| nr_skips ::= fun k => k - 1 |> else e.

Lemma take_tokens_skel e : edge_skel (take_tokens e) = edge_skel e.
Proof. unfold take_tokens. by destruct (_ && _). Qed.

Lemma take_skip_skel e : edge_skel (take_skip e) = edge_skel e.
Proof. unfold take_skip. by destruct (_ <? _). Qed.

Lemma consume_tokens_runs s g gr n :
  has_graph s g gr -> in_use gr = true -> graph_wf gr -> is_node gr n ->
  exists gr', pgm_consume_tokens g n s = Ok (tt, put_graph g gr' s) /\
    edges_mapped take_tokens (in_list (gnode gr n)) gr gr'.
Proof.
  intros Hg Hu Hwf Hn. pose proof (gw_nodes gr Hwf). destruct (gw_node gr Hwf n Hn).
  assert (0 <= n < PGM_MAX_NODES) by (unfold is_node in Hn; lia).
  unfold pgm_consume_tokens. st_step. fold (gnode gr n).
  apply (edge_loop s g gr n (fun e => is_signal_driven e && (nr_skips e =? 0))
    (fun e => e <| nr_pending ::= fun k => wrap64 (k - nr_consume (e_attr e)) |>)); try done.
  intros i. apply elem_of_upto.
Qed.

Lemma consume_skips_runs s g gr n :
  has_graph s g gr -> in_use gr = true -> graph_wf gr -> is_node gr n ->
  exists gr', pgm_consume_skips g n s = Ok (tt, put_graph g gr' s) /\
    edges_mapped take_skip (in_list (gnode gr n)) gr gr'.
Proof.
  intros Hg Hu Hwf Hn. pose proof (gw_nodes gr Hwf). destruct (gw_node gr Hwf n Hn).
  assert (0 <= n < PGM_MAX_NODES) by (unfold is_node in Hn; lia).
  unfold pgm_consume_skips. st_step. fold (gnode gr n).
  apply (edge_loop s g gr n (fun e => 0 <? nr_skips e)
    (fun e => e <| nr_skips ::= fun k => k - 1 |>)); try done.
  intros i. apply elem_of_upto.
Qed.

(** Counters of an edge inside their machine type. *)
Definition counters_ok (e : pgm_edge) : Prop := 0 <= nr_pending e < 2 ^ 64 /\ 0 <= nr_skips e.

(** A signalled edge from which one firing was taken. *)
Lemma take_one e :
  edge_ready e = true -> attr_wf (e_attr e) -> counters_ok e ->
  let e' := take_skip (take_tokens e) in
  counters_ok e' /\
  if nr_skips e =? 0
  then nr_pending e' = nr_pending e - nr_consume (e_attr e) /\ nr_skips e' = 0
  else nr_pending e' = nr_pending e /\ nr_skips e' = nr_skips e - 1.
Proof.
  intros Hr [_ [Hc Hct]] [Hp Hs]. unfold edge_ready in Hr. apply andb_true_iff in Hr as [Hsig Hr].
  unfold take_tokens, take_skip, counters_ok. rewrite Hsig.
  destruct (Z.eqb_spec (nr_skips e) 0) as [E|E]; simpl.
  - rewrite E in *. simpl in *. rewrite orb_false_r in Hr. bool_to_prop.
    unfold wrap64. rewrite Z.mod_small by lia. lia.
  - replace (0 <? nr_skips e) with true by lia. simpl. lia.
Qed.

(** [pgm_wait] on a ready node: tokens and skips are taken from every inbound
    edge. *)
Lemma wait_runs s g gr n :
  has_graph s g gr -> in_use gr = true -> graph_wf gr -> is_node gr n ->
  nr_in_data (gnode gr n) = 0 -> nr_in_signaled (gnode gr n) <> 0 -> all_ready gr n ->
  exists gr', pgm_wait rounds fuel (Node_t g n) s = Ok (0, put_graph g gr' s) /\
    edges_mapped (fun e => take_skip (take_tokens e)) (in_list (gnode gr n)) gr gr'.
Proof.
  intros Hg Hu Hwf Hn Hdata Hsig Hready. pose proof (gw_nodes gr Hwf).
  assert (Hr : 0 <= n < PGM_MAX_NODES) by (unfold is_node in Hn; lia).
  unfold pgm_wait. simpl. st_step. fold (gnode gr n). rewrite (proj2 (Z.eqb_neq _ _) Hsig).
  rewrite (bind_step _ _ _ _ _ (wait_tokens_ready s g gr n Hg Hwf Hn Hready)).
  st_step. fold (gnode gr n). rewrite Hdata. erewrite bind_step by done. cbv beta. st_step.
  fold (gnode gr n). rewrite (proj2 (Z.eqb_neq _ _) Hsig). simpl.
  destruct (consume_tokens_runs s g gr n Hg Hu Hwf Hn) as (gr1 & E1 & M1).
  pose proof (edges_mapped_equiv _ _ _ _ take_tokens_skel M1) as Eq1.
  rewrite (bind_step _ _ _ _ _ E1).
  destruct (consume_skips_runs (put_graph g gr1 s) g gr1 n) as (gr2 & E2 & M2).
  { by eapply has_graph_put. }
  { destruct Eq1 as (Ef & _). injection Ef. congruence. }
  { by rewrite <- Eq1. }
  { unfold is_node. by destruct (equiv_sizes gr gr1 Eq1) as [<- _]. }
  rewrite (bind_step _ _ _ _ _ E2), put_put. rewrite (edges_mapped_node _ _ _ _ n M1) in M2.
  exists gr2. split; [done|]. exact (edges_mapped_trans _ _ _ _ _ _ M1 M2).
Qed.

(** C13. [pgm_wait] on a node with at least one inbound edge, all of whose inbound
    edges carry tokens only (condition-variable edges: none that also passes data, as
    rings, FIFOs and message queues do), with the threshold reached or skips left on
    each, returns 0 and fires once: from every inbound edge [nr_consume] tokens are
    taken, and none is taken below zero, or, where skips are left, one skip instead;
    no other field of any node and no other edge's tokens change. *)
Theorem pgm_wait_fires s g gr n :
  has_graph s g gr -> in_use gr = true -> graph_wf gr -> is_node gr n ->
  nr_in_data (gnode gr n) = 0 -> nr_in_signaled (gnode gr n) <> 0 -> all_ready gr n ->
  (forall e, e ∈ in_list (gnode gr n) ->
     is_signal_driven (gedge gr e) = true /\ counters_ok (gedge gr e)) ->
  exists gr', pgm_wait rounds fuel (Node_t g n) s = Ok (0, put_graph g gr' s) /\ graph_wf gr' /\
    (forall i, gnode gr' i = gnode gr i) /\
    (forall e, e ∉ in_list (gnode gr n) -> gedge gr' e = gedge gr e) /\
    forall e, e ∈ in_list (gnode gr n) ->
      counters_ok (gedge gr' e) /\
      if nr_skips (gedge gr e) =? 0
      then nr_pending (gedge gr' e) = nr_pending (gedge gr e) - nr_consume (e_attr (gedge gr e)) /\
           nr_skips (gedge gr' e) = 0
      else nr_pending (gedge gr' e) = nr_pending (gedge gr e) /\
           nr_skips (gedge gr' e) = nr_skips (gedge gr e) - 1.
Proof.
  intros Hg Hu Hwf Hn Hdata Hsig Hready Hedges.
  destruct (wait_runs s g gr n) as (gr' & E & M); [done..|]. exists gr'. split; [done|]. split_and!.
  - rewrite <- (edges_mapped_equiv _ _ _ _ (fun e => eq_trans (take_skip_skel _) (take_tokens_skel e)) M). done.
  - intros i. by rewrite (edges_mapped_node _ _ _ _ i M).
  - intros e He. rewrite (em_edge _ _ _ _ M). by rewrite decide_False.
  - intros e He. rewrite (em_edge _ _ _ _ M), decide_True by done.
    destruct (Hedges e He) as [Hs Hc]. apply take_one; [by apply Hready | | done].
    by apply (gw_attr gr Hwf n).
Qed.

(** [pgm_wait] on a node with signalled edges only, of which one has neither
    its threshold of tokens nor skips left, goes to sleep, unless every forward
    producer has terminated and no forward edge is ready. *)
Theorem pgm_wait_blocks s g gr n :
  has_graph s g gr -> graph_wf gr -> is_node gr n -> n_lock (gnode gr n) = false ->
  nr_in_signaled (gnode gr n) <> 0 -> ~ all_ready gr n -> ~ exhausted gr n ->
  pgm_wait rounds fuel (Node_t g n) s = Fault Blocks.
Proof.
  intros Hg Hwf Hn Hl Hsig Hr Hx. pose proof (gw_nodes gr Hwf).
  assert (0 <= n < PGM_MAX_NODES) by (unfold is_node in Hn; lia).
  unfold pgm_wait. simpl. st_step. fold (gnode gr n). rewrite (proj2 (Z.eqb_neq _ _) Hsig).
  apply bind_fault. by apply (wait_tokens_blocks s g gr).
Qed.

(** ** Completing *)

Definition add_tokens (e : pgm_edge) : pgm_edge :=
  e <| nr_pending ::= fun k => wrap64 (k + nr_produce (e_attr e)) |>.

(** The production that reaches the threshold. *)
Definition crosses (e : pgm_edge) : bool :=
  (nr_pending e <? nr_threshold (e_attr e)) &&
  (nr_threshold (e_attr e) <=? wrap64 (nr_pending e + nr_produce (e_attr e))).

Definition tokens_only (e : pgm_edge) : Prop :=
  is_signal_driven e = true /\ is_data_passing e = false.

(** The nodes that [pgm_complete] decides to wake. *)
Definition woken gr (l : list Z) : list Z :=
  (fun e => e_consumer (gedge gr e)) <$> filter (fun e => crosses (gedge gr e) = true) l.

Lemma woken_cons gr x l :
  woken gr (x :: l) =
  (if crosses (gedge gr x) then [e_consumer (gedge gr x)] else []) ++ woken gr l.
Proof. unfold woken. rewrite filter_cons. by destruct (crosses _). Qed.

Lemma woken_ext gr gr' l :
  (forall e, e ∈ l -> gedge gr e = gedge gr' e) -> woken gr l = woken gr' l.
Proof.
  induction l as [|x l IH]; intros Hl; [done|]. rewrite !woken_cons, (Hl x) by constructor.
  f_equal. apply IH. intros e He. apply Hl. by constructor.
Qed.

Lemma elem_of_woken gr l c :
  c ∈ woken gr l <-> exists e, e ∈ l /\ crosses (gedge gr e) = true /\ e_consumer (gedge gr e) = c.
Proof.
  unfold woken. rewrite list_elem_of_fmap. split.
  - intros (e & -> & [Hc He]%list_elem_of_filter). eauto.
  - intros (e & He & Hc & <-). exists e. by rewrite list_elem_of_filter.
Qed.

Lemma edges_mapped_cons f x l gr gr1 gr' :
  x ∉ l -> edges_mapped f [x] gr gr1 -> edges_mapped f l gr1 gr' -> edges_mapped f (x :: l) gr gr'.
Proof.
  intros Hx [R1 E1] [R2 E2]. split.
  - rewrite R2 at 1. by rewrite R1.
  - intros e. rewrite E2, E1. destruct (decide (e = x)) as [->|Hne].
    + rewrite (decide_False (P := x ∈ l)), !decide_True by (done || constructor). done.
    + rewrite (decide_False (P := e ∈ [x])) by (by rewrite list_elem_of_singleton).
      apply decide_ext. rewrite elem_of_cons. tauto.
Qed.

Lemma edges_mapped_one f x gr : edges_mapped f [x] gr (gr <| edges ::= <[x := f (gedge gr x)]> |>).
Proof.
  split; [by destruct gr|]. intros e. unfold gedge at 1. simpl. rewrite cell_insert.
  destruct (decide (e ∈ [x])) as [->%list_elem_of_singleton|Hne]; [by rewrite decide_True|].
  rewrite decide_False; [done|]. intros <-. apply Hne. by constructor.
Qed.

Lemma out_edge_ok s g gr n i :
  has_graph s g gr -> graph_wf gr -> is_node gr n -> 0 <= i < nr_out (gnode gr n) ->
  out_of (gnode gr n) i = Ok (cell (n_out (gnode gr n)) i) /\
  0 <= cell (n_out (gnode gr n)) i < PGM_MAX_EDGES.
Proof.
  intros Hg Hwf Hn Hi. destruct (out_edge_at gr Hwf n i Hn Hi) as (E & Hin & _). split; [done|].
  eapply (listed_in_range gr n); [done..|]. by right.
Qed.

Lemma produce_edge_runs s g gr n i err wake :
  has_graph s g gr -> graph_wf gr -> is_node gr n -> 0 <= i < nr_out (gnode gr n) ->
  let x := cell (n_out (gnode gr n)) i in
  tokens_only (gedge gr x) ->
  produce_edge fuel g n PGM_NORMAL i (err, wake) s =
  Ok (err, if crosses (gedge gr x) then wake ++ [e_consumer (gedge gr x)] else wake,
      put_graph g (gr <| edges ::= <[x := add_tokens (gedge gr x)]> |>) s).
Proof.
  intros Hg Hwf Hn Hi x [Hs Hd]. pose proof (gw_nodes gr Hwf).
  assert (0 <= n < PGM_MAX_NODES) by (unfold is_node in Hn; lia).
  destruct (out_edge_ok s g gr n i Hg Hwf Hn Hi) as [Ex Hx]. fold x in Ex, Hx.
  unfold produce_edge. st_step. fold (gnode gr n). rewrite Ex.
  rewrite (bind_step _ _ _ x s) by done. st_step. fold (gedge gr x).
  change (has_flag PGM_NORMAL PGM_TERMINATE) with false. simpl. rewrite Hd.
  rewrite (bind_step _ _ _ err s) by done. rewrite Hs. simpl.
  erewrite bind_step.
  2:{ unfold pgm_send_tokens. st_step. fold (gedge gr x). cbv zeta. st_step. done. }
  done.
Qed.

(** The outbound loop of [pgm_complete]. *)
Lemma produce_loop s g gr n idx err wake :
  has_graph s g gr -> in_use gr = true -> graph_wf gr -> is_node gr n ->
  NoDup (cell (n_out (gnode gr n)) <$> idx) ->
  (forall i, i ∈ idx -> 0 <= i < nr_out (gnode gr n)) ->
  (forall e, e ∈ (cell (n_out (gnode gr n)) <$> idx) -> tokens_only (gedge gr e)) ->
  exists gr', for_acc idx (err, wake) (produce_edge fuel g n PGM_NORMAL) s =
    Ok (err, wake ++ woken gr (cell (n_out (gnode gr n)) <$> idx), put_graph g gr' s) /\
    edges_mapped add_tokens (cell (n_out (gnode gr n)) <$> idx) gr gr'.
Proof.
  revert s gr wake. induction idx as [|i idx IH]; intros s gr wake Hg Hu Hwf Hn Hnd Hidx Htok.
  { exists gr. split; [simpl; unfold mret, ST_ret; by rewrite app_nil_r, put_graph_id|].
    split; [by destruct gr|]. intros e. by rewrite decide_False by apply not_elem_of_nil. }
  rewrite fmap_cons in *. set (x := cell (n_out (gnode gr n)) i) in *.
  apply NoDup_cons in Hnd as [Hni Hnd].
  simpl. erewrite bind_step; [|apply (produce_edge_runs s g gr); [done..| |]].
  2:{ apply Hidx. constructor. }
  2:{ apply Htok. constructor. }
  fold x. cbv beta. set (gr1 := set_field edges _ gr).
  pose proof (edges_mapped_one add_tokens x gr : edges_mapped add_tokens [x] gr gr1) as M1.
  assert (Heq : gr ≡ gr1) by (by eapply edges_mapped_equiv; [|exact M1]).
  assert (En : gnode gr1 n = gnode gr n) by done.
  assert (Eold : forall e, e ∈ (cell (n_out (gnode gr n)) <$> idx) -> gedge gr1 e = gedge gr e).
  { intros e He. rewrite (em_edge _ _ _ _ M1). rewrite decide_False; [done|].
    by intros ->%list_elem_of_singleton. }
  destruct (IH (put_graph g gr1 s) gr1
    (if crosses (gedge gr x) then wake ++ [e_consumer (gedge gr x)] else wake))
    as (gr' & -> & M2); try done.
  - by eapply has_graph_put.
  - by rewrite <- Heq.
  - intros j Hj. apply Hidx. by constructor.
  - intros e He. rewrite Eold by done. apply Htok. by constructor.
  - exists gr'. rewrite put_put, En in *. split; [|by eapply edges_mapped_cons].
    do 3 f_equal. rewrite (woken_ext gr1 gr) by done.
    change (cell (n_out (gnode gr n)) <$> i :: idx) with (x :: (cell (n_out (gnode gr n)) <$> idx)).
    rewrite woken_cons. destruct (crosses _); [by rewrite <- app_assoc | done].
Qed.

(** *** Waking the consumers *)

Definition ready_b gr (c : Z) : bool :=
  count_edges gr edge_ready (in_list (gnode gr c)) =? nr_in_signaled (gnode gr c).

(** How often node [i] is signalled for the list [wake]. *)
Definition bells gr (wake : list Z) (i : Z) : Z :=
  if ready_b gr i then Z.of_nat (List.length (filter (fun c => c = i) wake)) else 0.

(** [gr'] is [gr] with these signals sent. *)
Record signalled (wake : list Z) gr gr' : Prop := {
  sg_rest : gr' = gr <| nodes := nodes gr' |>;
  sg_node : forall i, gnode gr' i = (gnode gr i) <| n_wait ::= fun k => k + bells gr wake i |>
}.

Lemma bells_nil gr i : bells gr [] i = 0.
Proof. unfold bells. by destruct (ready_b gr i). Qed.

Lemma bells_cons gr c wake i :
  bells gr (c :: wake) i = (if bool_decide (c = i) && ready_b gr c then 1 else 0) + bells gr wake i.
Proof.
  unfold bells. rewrite filter_cons. destruct (decide (c = i)) as [->|Hne].
  - rewrite bool_decide_eq_true_2 by done. destruct (ready_b gr i); [|done].
    rewrite length_cons, Nat2Z.inj_succ. simpl. lia.
  - by rewrite bool_decide_eq_false_2.
Qed.

Lemma bells_pos gr wake i : i ∈ wake -> ready_b gr i = true -> 0 < bells gr wake i.
Proof.
  intros Hi Hr. unfold bells. rewrite Hr. apply list_elem_of_split in Hi as (l1 & l2 & ->).
  rewrite filter_app, filter_cons, decide_True, length_app, length_cons by done. lia.
Qed.

Lemma same_node (nd : pgm_node) : nd <| n_wait ::= fun k => k + 0 |> = nd.
Proof. destruct nd. unfold set_field. simpl. f_equal. lia. Qed.

Lemma signalled_equiv wake gr gr' : signalled wake gr gr' -> gr ≡ gr'.
Proof.
  intros [R E]. split; [by rewrite R|]. split.
  - intros i. fold (gnode gr i) (gnode gr' i). by rewrite E.
  - intros i. by rewrite R.
Qed.

Lemma signalled_ready wake gr gr' i : signalled wake gr gr' -> ready_b gr' i = ready_b gr i.
Proof.
  intros [R E]. unfold ready_b. rewrite E. unfold in_list. simpl. f_equal.
  apply count_edges_ext. intros e _. by rewrite R.
Qed.

Lemma bells_after l gr gr1 wake i : signalled l gr gr1 -> bells gr1 wake i = bells gr wake i.
Proof. intros Hs. unfold bells. by rewrite (signalled_ready l gr gr1 i Hs). Qed.

Lemma gnode_set gr c v i :
  gnode (gr <| nodes ::= <[c := v]> |>) i = if decide (c = i) then v else gnode gr i.
Proof. apply cell_insert. Qed.

Lemma signalled_cons c wake gr gr1 gr' :
  signalled [c] gr gr1 -> signalled wake gr1 gr' -> signalled (c :: wake) gr gr'.
Proof.
  intros S1 S2. pose proof S1 as [R1 E1]. pose proof S2 as [R2 E2]. split.
  - rewrite R2 at 1. by rewrite R1.
  - intros i. rewrite E2, E1, (bells_after [c] gr gr1) by done. rewrite !bells_cons, bells_nil.
    destruct (gnode gr i). unfold set_field. simpl. f_equal. lia.
Qed.

Lemma pgm_lock_at s g gr n :
  has_graph s g gr -> 0 <= n < PGM_MAX_NODES -> n_lock (gnode gr n) = false ->
  pgm_lock g n s = Ok (tt, put_graph g (hold_lock n true gr) s).
Proof.
  intros Hg Hn Hl. unfold pgm_lock. st_step. fold (gnode gr n). rewrite Hl.
  by apply (upd_node_at s g gr).
Qed.

Lemma wake_node_runs s g gr c :
  has_graph s g gr -> graph_wf gr -> is_node gr c -> n_lock (gnode gr c) = false ->
  exists gr', wake_node g PGM_NORMAL c s = Ok (tt, put_graph g gr' s) /\ signalled [c] gr gr'.
Proof.
  intros Hg Hwf Hc Hl. pose proof (gw_nodes gr Hwf).
  assert (Hr : 0 <= c < PGM_MAX_NODES) by (unfold is_node in Hc; lia).
  unfold wake_node. rewrite (bind_step _ _ _ _ _ (pgm_lock_at s g gr c Hg Hr Hl)).
  set (grl := hold_lock c true gr). set (s1 := put_graph g grl s).
  assert (Hg1 : has_graph s1 g grl) by (by eapply has_graph_put).
  assert (Hwf1 : graph_wf grl) by (unfold grl; by rewrite <- hold_lock_equiv).
  assert (En : gnode grl c = (gnode gr c) <| n_lock := true |>)
    by (unfold grl; rewrite gnode_hold_lock; by case_decide).
  assert (Eo : forall i, c <> i -> gnode grl i = gnode gr i)
    by (intros; unfold grl; rewrite gnode_hold_lock; by case_decide).
  assert (Rl : grl = gr <| nodes := nodes grl |>) by (by destruct gr).
  assert (Hec : edges grl = edges gr) by done.
  assert (Hc1 : is_node grl c) by done. clearbody grl.
  rewrite (bind_step _ _ _ _ _ (nr_ready_runs s1 g grl c Hg1 Hwf1 Hc1)). st_step.
  fold (gnode grl c). change (has_flag PGM_NORMAL PGM_TERMINATE) with false. rewrite orb_false_l, En.
  replace (count_edges grl edge_ready _ =? _) with (ready_b gr c)
    by (unfold ready_b, count_edges, gedge; by rewrite Hec).
  unfold pgm_cv_signal, pgm_unlock. destruct (ready_b gr c) eqn:Er.
  - erewrite bind_step; [|by apply (upd_node_at _ g grl)]. cbv beta.
    erewrite upd_node_at; [|eauto with pgm_st|done]. unfold s1. rewrite !put_put.
    eexists. split; [done|]. split; [by rewrite Rl|]. intros i.
    rewrite bells_cons, bells_nil, Er, andb_true_r, !gnode_set. fold (gnode grl c).
    destruct (decide (c = i)) as [<-|Hne].
    + rewrite bool_decide_eq_true_2 by done. cbn [nodes set_field].
      rewrite cell_insert_eq, En. destruct (gnode gr c). simpl in *. by subst.
    + rewrite bool_decide_eq_false_2 by done. simpl. rewrite same_node. auto.
  - erewrite bind_step by done. cbv beta. erewrite upd_node_at; [|done|done].
    unfold s1. rewrite !put_put. eexists. split; [done|]. split; [by rewrite Rl|]. intros i.
    rewrite bells_cons, bells_nil, Er, andb_false_r, gnode_set. simpl. rewrite same_node.
    fold (gnode grl c). rewrite En.
    destruct (decide (c = i)) as [<-|]; [|auto]. destruct (gnode gr c). simpl in *. by subst.
Qed.

Lemma wake_loop s g gr wake :
  has_graph s g gr -> in_use gr = true -> graph_wf gr ->
  (forall c, c ∈ wake -> is_node gr c /\ n_lock (gnode gr c) = false) ->
  exists gr', for_each wake (wake_node g PGM_NORMAL) s = Ok (tt, put_graph g gr' s) /\
    signalled wake gr gr'.
Proof.
  revert s gr. induction wake as [|c wake IH]; intros s gr Hg Hu Hwf Hwake; simpl.
  { exists gr. split; [unfold mret, ST_ret; by rewrite put_graph_id|].
    split; [by destruct gr|]. intros i. by rewrite bells_nil, same_node. }
  destruct (Hwake c) as [Hc Hl]; [constructor|].
  destruct (wake_node_runs s g gr c Hg Hwf Hc Hl) as (gr1 & E1 & S1).
  rewrite (bind_step _ _ _ _ _ E1). pose proof (signalled_equiv _ _ _ S1) as Eq1.
  destruct (IH (put_graph g gr1 s) gr1) as (gr' & -> & S2).
  - by eapply has_graph_put.
  - destruct Eq1 as (Ef & _). injection Ef. congruence.
  - by rewrite <- Eq1.
  - intros d Hd. destruct (Hwake d) as [Hn Hld]; [by constructor|].
    unfold is_node. destruct (equiv_sizes gr gr1 Eq1) as [<- _]. split; [done|].
    by rewrite (sg_node _ _ _ S1).
  - exists gr'. rewrite put_put. split; [done|]. by eapply signalled_cons.
Qed.

(** The two passes of [pgm_complete]: tokens on every outbound edge, then a signal
    to every consumer that a token was missing from. *)
Lemma complete_runs s g gr n :
  has_graph s g gr -> in_use gr = true -> graph_wf gr -> is_node gr n ->
  (forall c, is_node gr c -> n_lock (gnode gr c) = false) ->
  (forall e, e ∈ out_list (gnode gr n) -> tokens_only (gedge gr e)) ->
  exists gr1 gr2, pgm_complete fuel (Node_t g n) s = Ok (0, put_graph g gr2 s) /\
    edges_mapped add_tokens (out_list (gnode gr n)) gr gr1 /\
    signalled (woken gr (out_list (gnode gr n))) gr1 gr2.
Proof.
  intros Hg Hu Hwf Hn Hlock Hout. pose proof (gw_nodes gr Hwf).
  destruct (gw_node gr Hwf n Hn) as [_ _ _ Hnd _ Hoe _ _ _ _ _].
  assert (Hr : 0 <= n < PGM_MAX_NODES) by (unfold is_node in Hn; lia).
  unfold pgm_complete, pgm_produce. simpl. st_step. fold (gnode gr n).
  destruct (produce_loop s g gr n (upto (nr_out (gnode gr n))) false [] Hg Hu Hwf Hn Hnd)
    as (gr1 & E1 & M1); [intros i; apply elem_of_upto | intros e He; by apply Hout |].
  rewrite (bind_step _ _ _ _ _ E1). fold (out_list (gnode gr n)) in *. simpl.
  assert (Eq1 : gr ≡ gr1) by (by eapply edges_mapped_equiv; [|exact M1]).
  destruct (wake_loop (put_graph g gr1 s) g gr1 (woken gr (out_list (gnode gr n))))
    as (gr2 & E2 & S2).
  { by eapply has_graph_put. }
  { destruct Eq1 as (Ef & _). injection Ef. congruence. }
  { by rewrite <- Eq1. }
  { intros c (e & He & _ & <-)%elem_of_woken. destruct (Hoe e He) as (_ & _ & Hc & _).
    unfold is_node. destruct (equiv_sizes gr gr1 Eq1) as [<- _].
    rewrite (edges_mapped_node _ _ _ _ _ M1). auto. }
  rewrite (bind_step _ _ _ _ _ E2), put_put. by exists gr1, gr2.
Qed.

(** C16. [pgm_complete] on a node all of whose outbound edges are signalled token
    edges returns 0: every outbound edge has [nr_produce] tokens more, no other
    edge changed, and every consumer whose last missing token this was is
    signalled at least once; nodes are otherwise untouched. *)
Theorem pgm_complete_produces s g gr n :
  has_graph s g gr -> in_use gr = true -> graph_wf gr -> is_node gr n ->
  (forall c, is_node gr c -> n_lock (gnode gr c) = false) ->
  (forall e, e ∈ out_list (gnode gr n) -> tokens_only (gedge gr e) /\
     0 <= nr_pending (gedge gr e) /\ nr_pending (gedge gr e) + nr_produce (e_attr (gedge gr e)) < 2 ^ 64) ->
  exists gr', pgm_complete fuel (Node_t g n) s = Ok (0, put_graph g gr' s) /\ graph_wf gr' /\
    (forall e, gedge gr' e =
       if decide (e ∈ out_list (gnode gr n))
       then (gedge gr e) <| nr_pending ::= fun k => k + nr_produce (e_attr (gedge gr e)) |>
       else gedge gr e) /\
    (forall i, exists k, 0 <= k /\ gnode gr' i = (gnode gr i) <| n_wait ::= fun w => w + k |>) /\
    (forall e, e ∈ out_list (gnode gr n) ->
       nr_pending (gedge gr e) < nr_threshold (e_attr (gedge gr e)) ->
       nr_threshold (e_attr (gedge gr e)) <= nr_pending (gedge gr' e) ->
       let c := e_consumer (gedge gr e) in
       all_ready gr' c -> n_wait (gnode gr c) < n_wait (gnode gr' c)).
Proof.
  intros Hg Hu Hwf Hn Hlock Hout. destruct (gw_node gr Hwf n Hn) as [_ _ _ Hnd _ Hoe _ _ _ _ _].
  destruct (complete_runs s g gr n) as (gr1 & gr2 & E & M1 & S2); [done..|intros e He; by apply Hout|].
  assert (Eq1 : gr ≡ gr1) by (by eapply edges_mapped_equiv; [|exact M1]).
  pose proof (signalled_equiv _ _ _ S2) as Eq2. pose proof S2 as [R2 N2].
  assert (Ee : forall e, gedge gr2 e = gedge gr1 e) by (intros e; by rewrite R2).
  exists gr2. split; [done|]. split_and!.
  - rewrite <- Eq2. by rewrite <- Eq1.
  - intros e. rewrite Ee, (em_edge _ _ _ _ M1). case_decide as He; [|done].
    destruct (Hout e He) as (_ & Hp0 & Hp1). unfold add_tokens, set_field. f_equal.
    unfold wrap64. apply Z.mod_small.
    destruct (nw_out_edges gr n (gw_node gr Hwf n Hn) e He) as (_ & _ & Hc & Hin).
    destruct (gw_attr gr Hwf _ e Hc Hin) as [? _]. lia.
  - intros i. exists (bells gr1 (woken gr (out_list (gnode gr n))) i). split.
    + unfold bells. destruct (ready_b gr1 i); lia.
    + by rewrite N2, (edges_mapped_node _ _ _ _ _ M1).
  - intros e He Hlt Hge c Hready.
    rewrite N2, (edges_mapped_node _ _ _ _ _ M1). simpl.
    enough (0 < bells gr1 (woken gr (out_list (gnode gr n))) c) by lia.
    apply bells_pos.
    + apply elem_of_woken. exists e. split; [done|]. split; [|done].
      rewrite Ee, (em_edge _ _ _ _ M1), decide_True in Hge by done.
      unfold crosses. apply andb_true_iff. split; [by apply Z.ltb_lt | by apply Z.leb_le].
    + apply Z.eqb_eq, count_ready; [by rewrite <- Eq1| |].
      * destruct (Hoe e He) as (_ & _ & Hc & _). unfold is_node.
        by destruct (equiv_sizes gr gr1 Eq1) as [<- _].
      * intros x Hx. rewrite <- Ee. apply Hready. by destruct (equiv_node gr1 gr2 c Eq2) as (<- & _).
Qed.

End Firing.

(** ** Concrete runs *)

(** Nodes "a", "b" and "c" in a new graph, and an edge of type [t] from [p] to
    "c". *)
Definition three_nodes `{Syscalls Z} : ST (pgm_state Z) unit :=
  _ ← pgm_init_process_local;
  _ ← pgm_init_graph 0 (lit "g");
  _ ← pgm_init_node (Some (Node_t 0 0)) 0 (lit "a");
  _ ← pgm_init_node (Some (Node_t 0 0)) 0 (lit "b");
  _ ← pgm_init_node (Some (Node_t 0 0)) 0 (lit "c");
  mret tt.

Definition edge_to_c `{Syscalls Z} (p t : Z) : ST (pgm_state Z) unit :=
  _ ← pgm_init_edge_num (Some (Edge_t 0 0)) (Node_t 0 p) (Node_t 0 2) p
        (default_edge <| type := t |>);
  mret tt.

(** What a run returns, and the tokens on edge 0 afterwards. *)
Definition result_and_tokens (m : ST (pgm_state Z) Z) : outcome (Z * Z) :=
  (r ← m; e ← rd_edge 0 0; mret (r, nr_pending e)) demo_start ≫= fun '(r, _) => mret r.

(** Two producers "a" and "b" of "c" over token edges: "a" completes once and
    both terminate.  The token of "a" that "b" never matched keeps "c" from
    ending: its [pgm_wait] sleeps, although no producer is left to wake it. *)
Theorem leftover_token_prevents_exit :
  (three_nodes ;; edge_to_c 0 pgm_cv_edge ;; edge_to_c 1 pgm_cv_edge ;;
   _ ← pgm_complete 9 (Node_t 0 0);
   _ ← pgm_terminate 9 (Node_t 0 0);
   _ ← pgm_terminate 9 (Node_t 0 1);
   pgm_wait 9 9 (Node_t 0 2)) demo_start = Fault Blocks /\
  result_and_tokens (three_nodes ;; edge_to_c 0 pgm_cv_edge ;; edge_to_c 1 pgm_cv_edge ;;
   _ ← pgm_terminate 9 (Node_t 0 0);
   _ ← pgm_terminate 9 (Node_t 0 1);
   pgm_wait 9 9 (Node_t 0 2)) = Ok (PGM_TERMINATE, 0).
Proof. vm_compute. done. Qed.

Definition mixed_run (S : Syscalls Z) : ST (pgm_state Z) Z :=
  three_nodes ;; edge_to_c 0 pgm_cv_edge ;; edge_to_c 1 pgm_sock_stream_edge ;;
  _ ← pgm_claim_node 9 (Node_t 0 2) 0;
  _ ← pgm_terminate 9 (Node_t 0 0);
  pgm_wait 9 9 (Node_t 0 2).

(** A node fed by a token edge and a data edge, whose token producer has
    terminated with no token left: the next data message makes [pgm_wait] return
    0, and it takes a token from the empty edge.  The counter wraps to the largest
    value of its type, after which the edge is ready for ever. *)
Theorem mixed_node_tokens_wrap :
  result_and_tokens (mixed_run (demo_sys_recv (fun n => 1 :: replicate (Z.to_nat n - 1) 0))) =
  Ok (0, 2 ^ 64 - 1).
Proof. vm_compute. reflexivity. Qed.

(** The chain with [k] tokens on its edge. *)
Definition loaded_chain (k : Z) : pgm_graph :=
  demo_chain <| edges ::= <[0 := (gedge demo_chain 0) <| nr_pending := k |>]> |>.

Lemma loaded_chain_wf k : graph_wf (loaded_chain k).
Proof.
  apply (graph_wf_proper demo_chain); [|apply demo_chain_wf].
  eapply (edges_mapped_equiv (fun e => e <| nr_pending := k |>)); [done|].
  apply (edges_mapped_one (fun e => e <| nr_pending := k |>)).
Qed.

Lemma loaded_chain_lists k :
  in_list (gnode (loaded_chain k) 1) = [0] /\ out_list (gnode (loaded_chain k) 0) = [0] /\
  gedge (loaded_chain k) 0 = (gedge demo_chain 0) <| nr_pending := k |>.
Proof.
  change (gnode (loaded_chain k)) with (gnode demo_chain).
  split_and!; [vm_compute; reflexivity | vm_compute; reflexivity | apply cell_insert_eq].
Qed.

Lemma loaded_chain_ready : all_ready (loaded_chain 1) 1.
Proof.
  destruct (loaded_chain_lists 1) as (Ei & _ & Ee). unfold all_ready. rewrite Ei.
  intros e ->%list_elem_of_singleton _. rewrite Ee. vm_compute. reflexivity.
Qed.

Lemma pgm_wait_fires_witness :
  exists gr', pgm_wait 0 0 (Node_t 0 1) (demo_state (loaded_chain 1)) =
    Ok (0, put_graph 0 gr' (demo_state (loaded_chain 1))) /\ nr_pending (gedge gr' 0) = 0.
Proof.
  destruct (loaded_chain_lists 1) as (Ei & _ & Ee).
  destruct (pgm_wait_fires 0 0 (demo_state (loaded_chain 1)) 0 (loaded_chain 1) 1)
    as (gr' & E & _ & _ & _ & He).
  - by apply demo_usable.
  - done.
  - apply loaded_chain_wf.
  - done.
  - vm_compute. reflexivity.
  - vm_compute. discriminate.
  - apply loaded_chain_ready.
  - rewrite Ei. intros e ->%list_elem_of_singleton. rewrite Ee. unfold counters_ok. vm_compute.
    split_and!; congruence.
  - exists gr'. split; [done|]. rewrite Ei in He. specialize (He 0). rewrite Ee in He.
    by destruct He as (_ & Hp & _); [constructor|].
Defined.

Lemma pgm_wait_blocks_witness :
  pgm_wait 0 0 (Node_t 0 1) (demo_state (loaded_chain 0)) = Fault Blocks.
Proof.
  destruct (loaded_chain_lists 0) as (Ei & _ & Ee).
  apply (pgm_wait_blocks 0 0 _ 0 (loaded_chain 0) 1).
  - by apply demo_usable.
  - apply loaded_chain_wf.
  - done.
  - vm_compute. reflexivity.
  - vm_compute. discriminate.
  - intros Hr. specialize (Hr 0). rewrite Ei, Ee in Hr.
    specialize (Hr ltac:(constructor) ltac:(vm_compute; reflexivity)). vm_compute in Hr. discriminate.
  - intros (_ & Ht & _). apply Ht. vm_compute. reflexivity.
Defined.

Lemma pgm_complete_produces_witness :
  exists gr', pgm_complete 0 (Node_t 0 0) (demo_state (loaded_chain 0)) =
    Ok (0, put_graph 0 gr' (demo_state (loaded_chain 0))) /\ nr_pending (gedge gr' 0) = 1.
Proof.
  destruct (loaded_chain_lists 0) as (_ & Eo & Ee).
  destruct (pgm_complete_produces 0 (demo_state (loaded_chain 0)) 0 (loaded_chain 0) 0)
    as (gr' & E & _ & He & _).
  - by apply demo_usable.
  - done.
  - apply loaded_chain_wf.
  - done.
  - intros c [Hc Hc']. change (nr_nodes (loaded_chain 0)) with 2 in Hc'.
    assert (c = 0 \/ c = 1) as [->| ->] by lia; vm_compute; reflexivity.
  - rewrite Eo. intros e ->%list_elem_of_singleton. rewrite Ee. unfold tokens_only. vm_compute.
    split_and!; congruence.
  - exists gr'. split; [done|]. rewrite He, Eo, Ee. rewrite decide_True by constructor. done.
Defined.

End Firing.
