(* ===== verification/Ending.v ===== *)
(** * What terminating does

    [pgm_terminate] on a node all of whose outbound edges are signalled token
    edges tells the consumer of every forward edge, once per edge, that nothing
    more will come, and wakes it. *)

From S2P Require Import Prelude Ring Types Sys Structure Memory Ipc GraphInit GraphWf Teardown Query Search Lookup Ownership Stream Tokens Firing.
From Stdlib Require Import Ascii.

Module Ending.
Import Types Sys Structure GraphInit GraphWf Query Search Lookup Ownership Stream Tokens Firing.
#[local] Open Scope Z_scope.

(** ** Graphs that differ in their nodes *)

(** How often [i] is in [l]. *)
Definition occ (l : list Z) (i : Z) : Z := Z.of_nat (List.length (filter (fun c => c = i) l)).

Lemma occ_cons c l i : occ (c :: l) i = one_if (bool_decide (c = i)) + occ l i.
Proof.
  unfold occ. rewrite filter_cons. destruct (decide (c = i)) as [->|Hne].
  - rewrite bool_decide_eq_true_2 by done. simpl. lia.
  - by rewrite bool_decide_eq_false_2.
Qed.

Lemma occ_app l l' i : occ (l ++ l') i = occ l i + occ l' i.
Proof. unfold occ. rewrite filter_app, length_app. lia. Qed.

(** [f k] changes a node [k] times in a row. *)
Class Repeats (f : Z -> pgm_node -> pgm_node) : Prop := {
  rep_zero nd : f 0 nd = nd;
  rep_add j k nd : f j (f k nd) = f (k + j) nd;
  rep_skel k nd : node_skel (f k nd) = node_skel nd
}.

(** [gr'] is [gr] with every node [i] changed as often as it is in [l]. *)
Record nodes_mapped (f : Z -> pgm_node -> pgm_node) (l : list Z) (gr gr' : pgm_graph) : Prop := {
  nm_rest : gr' = gr <| nodes := nodes gr' |>;
  nm_node i : gnode gr' i = f (occ l i) (gnode gr i)
}.

Section Mapped.
Context (f : Z -> pgm_node -> pgm_node) `{!Repeats f}.

Lemma nodes_mapped_nil gr : nodes_mapped f [] gr gr.
Proof. split; [by destruct gr|]. intros i. by rewrite (rep_zero (f := f)). Qed.

Lemma nodes_mapped_one c gr : nodes_mapped f [c] gr (gr <| nodes ::= <[c := f 1 (gnode gr c)]> |>).
Proof.
  split; [by destruct gr|]. intros i. rewrite gnode_set, occ_cons. destruct (decide (c = i)) as [->|Hne].
  - by rewrite bool_decide_eq_true_2.
  - rewrite bool_decide_eq_false_2 by done. by rewrite (rep_zero (f := f)).
Qed.

Lemma nodes_mapped_app l l' gr gr1 gr' :
  nodes_mapped f l gr gr1 -> nodes_mapped f l' gr1 gr' -> nodes_mapped f (l ++ l') gr gr'.
Proof.
  intros [R1 E1] [R2 E2]. split; [rewrite R2 at 1; by rewrite R1|].
  intros i. by rewrite E2, E1, (rep_add (f := f)), occ_app.
Qed.

Lemma nodes_mapped_equiv l gr gr' : nodes_mapped f l gr gr' -> gr ≡ gr'.
Proof.
  intros [R E]. split; [by rewrite R|]. split.
  - intros i. fold (gnode gr i) (gnode gr' i). by rewrite E, (rep_skel (f := f)).
  - intros i. by rewrite R.
Qed.

Lemma nodes_mapped_edge l gr gr' e : nodes_mapped f l gr gr' -> gedge gr' e = gedge gr e.
Proof. intros [R _]. by rewrite R. Qed.

End Mapped.

Definition tell (k : Z) (nd : pgm_node) : pgm_node := nd <| nr_terminate_signals ::= fun j => j + k |>.
Definition ring_up (k : Z) (nd : pgm_node) : pgm_node := nd <| n_wait ::= fun j => j + k |>.

#[global] Instance tell_repeats : Repeats tell.
Proof. split; [intros []..|by intros k []]; intros; unfold tell, set_field; simpl; f_equal; lia. Qed.

#[global] Instance ring_up_repeats : Repeats ring_up.
Proof. split; [intros []..|by intros k []]; intros; unfold ring_up, set_field; simpl; f_equal; lia. Qed.

(** The consumers of the forward edges among [l]. *)
Definition followers (gr : pgm_graph) (l : list Z) : list Z :=
  (fun e => e_consumer (gedge gr e)) <$> filter (fun e => is_backedge (gedge gr e) = false) l.

Lemma followers_cons gr x l :
  followers gr (x :: l) = (if is_backedge (gedge gr x) then [] else [e_consumer (gedge gr x)]) ++ followers gr l.
Proof. unfold followers. rewrite filter_cons. by destruct (is_backedge _). Qed.

Lemma followers_app gr l l' : followers gr (l ++ l') = followers gr l ++ followers gr l'.
Proof. unfold followers. by rewrite filter_app, fmap_app. Qed.

Lemma followers_equiv gr gr' l : gr ≡ gr' -> followers gr' l = followers gr l.
Proof.
  intros Heq. induction l as [|x l IH]; [done|]. rewrite !followers_cons, IH.
  pose proof (equiv_edge gr gr' x Heq) as E. injection E as _ _ -> -> _ _. done.
Qed.

Lemma elem_of_followers gr l c :
  c ∈ followers gr l -> exists e, e ∈ l /\ e_consumer (gedge gr e) = c.
Proof. intros (e & -> & [_ He]%list_elem_of_filter)%list_elem_of_fmap. eauto. Qed.

Section Ending.
Context {W : Type} `{Syscalls W} (fuel : nat).
Implicit Types (s : pgm_state W) (gr : pgm_graph).

(** ** The first pass: the end is announced *)

Lemma tell_edge_runs s g gr n i err wake :
  has_graph s g gr -> in_use gr = true -> graph_wf gr -> is_node gr n -> 0 <= i < nr_out (gnode gr n) ->
  let x := cell (n_out (gnode gr n)) i in
  tokens_only (gedge gr x) ->
  exists gr', produce_edge fuel g n PGM_TERMINATE i (err, wake) s =
    Ok (err, wake ++ followers gr [x], put_graph g gr' s) /\ nodes_mapped tell (followers gr [x]) gr gr'.
Proof.
  intros Hg Hu Hwf Hn Hi x [Hs Hd]. pose proof (gw_nodes gr Hwf).
  assert (0 <= n < PGM_MAX_NODES) by (unfold is_node in Hn; lia).
  destruct (out_edge_at gr Hwf n i Hn Hi) as (_ & Hin & _).
  destruct (nw_out_edges _ _ (gw_node gr Hwf n Hn) _ Hin) as (_ & _ & Hc & _). fold x in Hc.
  destruct (out_edge_ok s g gr n i Hg Hwf Hn Hi) as [Ex Hx]. fold x in Ex, Hx.
  unfold produce_edge. st_step. fold (gnode gr n). rewrite Ex.
  rewrite (bind_step _ _ _ x s) by done. st_step. fold (gedge gr x).
  change (has_flag PGM_TERMINATE PGM_TERMINATE) with true. rewrite followers_cons. change (followers gr []) with (@nil Z). rewrite app_nil_r. simpl.
  destruct (is_backedge (gedge gr x)) eqn:Eb.
  { exists gr. rewrite app_nil_r, put_graph_id by done. split; [done|]. apply nodes_mapped_nil, _. }
  rewrite Hd. rewrite (bind_step _ _ _ err s) by done. rewrite Hs. simpl. st_step.
  eexists. split; [done|]. apply (nodes_mapped_one tell).
Qed.

Lemma tell_loop s g gr n idx err wake :
  has_graph s g gr -> in_use gr = true -> graph_wf gr -> is_node gr n ->
  (forall i, i ∈ idx -> 0 <= i < nr_out (gnode gr n)) ->
  (forall e, e ∈ (cell (n_out (gnode gr n)) <$> idx) -> tokens_only (gedge gr e)) ->
  exists gr', for_acc idx (err, wake) (produce_edge fuel g n PGM_TERMINATE) s =
    Ok (err, wake ++ followers gr (cell (n_out (gnode gr n)) <$> idx), put_graph g gr' s) /\
    nodes_mapped tell (followers gr (cell (n_out (gnode gr n)) <$> idx)) gr gr'.
Proof.
  revert s gr wake. induction idx as [|i idx IH]; intros s gr wake Hg Hu Hwf Hn Hidx Htok.
  { exists gr. split; [|apply nodes_mapped_nil, _].
    simpl. unfold mret, ST_ret, followers. simpl. by rewrite app_nil_r, put_graph_id. }
  rewrite fmap_cons in *. set (x := cell (n_out (gnode gr n)) i) in *.
  destruct (tell_edge_runs s g gr n i err wake) as (gr1 & E1 & M1); [done..|apply Hidx; constructor|apply Htok; constructor|].
  simpl. rewrite (bind_step _ _ _ _ _ E1). fold x in M1 |- *. cbv beta.
  assert (Heq : gr ≡ gr1) by exact (nodes_mapped_equiv tell _ _ _ M1).
  destruct (equiv_node gr gr1 n Heq) as (_ & _ & Esk). injection Esk as _ _ Eout _ Enr _ _ _ _ _.
  destruct (IH (put_graph g gr1 s) gr1 (wake ++ followers gr [x])) as (gr' & E2 & M2).
  - by eapply has_graph_put.
  - destruct Heq as (Ef & _). injection Ef. congruence.
  - by rewrite <- Heq.
  - unfold is_node. by destruct (equiv_sizes gr gr1 Heq) as [<- _].
  - intros j Hj. rewrite <- Enr. apply Hidx. by constructor.
  - intros e He. rewrite (nodes_mapped_edge tell _ gr gr1) by done. apply Htok. rewrite Eout. by constructor.
  - exists gr'. rewrite put_put, <- Eout in *. rewrite (followers_equiv gr gr1) in * by done.
    rewrite E2. change (x :: (cell (n_out (gnode gr n)) <$> idx)) with ([x] ++ (cell (n_out (gnode gr n)) <$> idx)).
    rewrite followers_app, app_assoc. split; [done|]. by eapply (nodes_mapped_app tell).
Qed.

(** ** The second pass: everybody is woken *)

Lemma ring_node_runs s g gr c :
  has_graph s g gr -> in_use gr = true -> graph_wf gr -> is_node gr c -> n_lock (gnode gr c) = false ->
  exists gr', wake_node g PGM_TERMINATE c s = Ok (tt, put_graph g gr' s) /\ nodes_mapped ring_up [c] gr gr'.
Proof.
  intros Hg Hu Hwf Hc Hl. pose proof (gw_nodes gr Hwf).
  assert (Hr : 0 <= c < PGM_MAX_NODES) by (unfold is_node in Hc; lia).
  unfold wake_node. rewrite (bind_step _ _ _ _ _ (pgm_lock_at s g gr c Hg Hr Hl)).
  set (grl := hold_lock c true gr). set (s1 := put_graph g grl s).
  assert (Hg1 : has_graph s1 g grl) by (by eapply has_graph_put).
  assert (Hwf1 : graph_wf grl) by (unfold grl; by rewrite <- hold_lock_equiv).
  assert (En : gnode grl c = (gnode gr c) <| n_lock := true |>)
    by (unfold grl; rewrite gnode_hold_lock; by case_decide).
  assert (Eo : forall i, c <> i -> gnode grl i = gnode gr i)
    by (intros; unfold grl; rewrite gnode_hold_lock; by case_decide).
  assert (Rl : grl = gr <| nodes := nodes grl |>) by (by destruct gr).
  assert (Hc1 : is_node grl c) by done. clearbody grl.
  rewrite (bind_step _ _ _ _ _ (nr_ready_runs s1 g grl c Hg1 Hwf1 Hc1)). st_step.
  change (has_flag PGM_TERMINATE PGM_TERMINATE) with true. rewrite orb_true_l.
  unfold pgm_cv_signal, pgm_unlock. erewrite bind_step; [|by apply (upd_node_at _ g grl)]. cbv beta.
  erewrite upd_node_at; [|eauto with pgm_st|done]. unfold s1. rewrite !put_put.
  eexists. split; [done|]. split; [by rewrite Rl|]. intros i.
  rewrite occ_cons, !gnode_set. fold (gnode grl c). destruct (decide (c = i)) as [<-|Hne].
  - rewrite bool_decide_eq_true_2 by done. cbn [nodes set_field].
    rewrite cell_insert_eq, En. destruct (gnode gr c). simpl in *. by subst.
  - rewrite bool_decide_eq_false_2 by done. rewrite Eo by done. by rewrite (rep_zero (f := ring_up)).
Qed.

Lemma ring_loop s g gr wake :
  has_graph s g gr -> in_use gr = true -> graph_wf gr ->
  (forall c, c ∈ wake -> is_node gr c /\ n_lock (gnode gr c) = false) ->
  exists gr', for_each wake (wake_node g PGM_TERMINATE) s = Ok (tt, put_graph g gr' s) /\
    nodes_mapped ring_up wake gr gr'.
Proof.
  revert s gr. induction wake as [|c wake IH]; intros s gr Hg Hu Hwf Hwake; simpl.
  { exists gr. split; [unfold mret, ST_ret; by rewrite put_graph_id|]. apply nodes_mapped_nil, _. }
  destruct (Hwake c) as [Hc Hl]; [constructor|].
  destruct (ring_node_runs s g gr c Hg Hu Hwf Hc Hl) as (gr1 & E1 & S1).
  rewrite (bind_step _ _ _ _ _ E1). assert (Heq : gr ≡ gr1) by exact (nodes_mapped_equiv ring_up _ _ _ S1).
  destruct (IH (put_graph g gr1 s) gr1) as (gr' & -> & S2).
  - by eapply has_graph_put.
  - destruct Heq as (Ef & _). injection Ef. congruence.
  - by rewrite <- Heq.
  - intros d Hd. destruct (Hwake d) as [Hn Hld]; [by constructor|].
    unfold is_node. destruct (equiv_sizes gr gr1 Heq) as [<- _]. split; [done|].
    by rewrite (nm_node _ _ _ _ S1).
  - exists gr'. rewrite put_put. split; [done|]. by apply (nodes_mapped_app ring_up [c] wake gr gr1).
Qed.

(** [pgm_terminate] as the two passes. *)
Lemma terminate_runs s g gr n :
  has_graph s g gr -> in_use gr = true -> graph_wf gr -> is_node gr n ->
  (forall c, is_node gr c -> n_lock (gnode gr c) = false) ->
  (forall e, e ∈ out_list (gnode gr n) -> tokens_only (gedge gr e)) ->
  exists gr1 gr2, pgm_terminate fuel (Node_t g n) s = Ok (0, put_graph g gr2 s) /\
    nodes_mapped tell (followers gr (out_list (gnode gr n))) gr gr1 /\
    nodes_mapped ring_up (followers gr (out_list (gnode gr n))) gr1 gr2.
Proof.
  intros Hg Hu Hwf Hn Hlock Hout. pose proof (gw_nodes gr Hwf).
  assert (Hr : 0 <= n < PGM_MAX_NODES) by (unfold is_node in Hn; lia).
  unfold pgm_terminate, pgm_produce. simpl. st_step. fold (gnode gr n).
  destruct (tell_loop s g gr n (upto (nr_out (gnode gr n))) false [] Hg Hu Hwf Hn)
    as (gr1 & E1 & M1); [intros i; apply elem_of_upto | intros e He; by apply Hout |].
  rewrite (bind_step _ _ _ _ _ E1). fold (out_list (gnode gr n)) in *. simpl.
  assert (Heq : gr ≡ gr1) by exact (nodes_mapped_equiv tell _ _ _ M1).
  destruct (ring_loop (put_graph g gr1 s) g gr1 (followers gr (out_list (gnode gr n)))) as (gr2 & E2 & S2).
  - by eapply has_graph_put.
  - destruct Heq as (Ef & _). injection Ef. congruence.
  - by rewrite <- Heq.
  - intros c (e & He & <-)%elem_of_followers. destruct (nw_out_edges _ _ (gw_node gr Hwf n Hn) e He) as (_ & _ & Hc & _).
    unfold is_node. destruct (equiv_sizes gr gr1 Heq) as [<- _]. split; [done|].
    rewrite (nm_node _ _ _ _ M1). by apply Hlock.
  - rewrite (bind_step _ _ _ _ _ E2), put_put. by exists gr1, gr2.
Qed.

(** [pgm_wait] on a node whose producers have all ended and that has no token
    left: skips are counted down, and the node ends as [pgm_terminate] ends it. *)
Lemma wait_ends rounds s g gr n :
  has_graph s g gr -> in_use gr = true -> graph_wf gr -> is_node gr n ->
  (forall c, is_node gr c -> n_lock (gnode gr c) = false) ->
  (forall e, e ∈ out_list (gnode gr n) -> tokens_only (gedge gr e)) ->
  nr_in_data (gnode gr n) = 0 -> nr_in_signaled (gnode gr n) <> 0 -> ~ all_ready gr n -> exhausted gr n ->
  exists gr0 gr1 gr2, pgm_wait rounds fuel (Node_t g n) s = Ok (PGM_TERMINATE, put_graph g gr2 s) /\
    edges_mapped take_skip (in_list (gnode gr n)) gr gr0 /\
    nodes_mapped tell (followers gr (out_list (gnode gr n))) gr0 gr1 /\
    nodes_mapped ring_up (followers gr (out_list (gnode gr n))) gr1 gr2.
Proof.
  intros Hg Hu Hwf Hn Hlock Hout Hdata Hsig Hready Hex. pose proof (gw_nodes gr Hwf).
  assert (Hr : 0 <= n < PGM_MAX_NODES) by (unfold is_node in Hn; lia).
  unfold pgm_wait. simpl. st_step. fold (gnode gr n). rewrite (proj2 (Z.eqb_neq _ _) Hsig).
  rewrite (bind_step _ _ _ _ _ (wait_tokens_exhausted s g gr n Hg Hwf Hn Hready Hex)).
  st_step. fold (gnode gr n). rewrite Hdata. erewrite bind_step by done. cbv beta. st_step.
  fold (gnode gr n). rewrite (proj2 (Z.eqb_neq _ _) Hsig). simpl. erewrite bind_step by done. cbv beta.
  destruct (consume_skips_runs s g gr n Hg Hu Hwf Hn) as (gr0 & E0 & M0).
  rewrite (bind_step _ _ _ _ _ E0). pose proof (edges_mapped_equiv _ _ _ _ take_skip_skel M0) as Eq0.
  destruct (terminate_runs (put_graph g gr0 s) g gr0 n) as (gr1 & gr2 & E2 & M1 & M2).
  - by eapply has_graph_put.
  - destruct Eq0 as (Ef & _). injection Ef. congruence.
  - by rewrite <- Eq0.
  - unfold is_node. by destruct (equiv_sizes gr gr0 Eq0) as [<- _].
  - intros c Hc. rewrite (edges_mapped_node _ _ _ _ c M0). apply Hlock.
    unfold is_node. by destruct (equiv_sizes gr gr0 Eq0) as [-> _].
  - rewrite (edges_mapped_node _ _ _ _ n M0). intros e He. rewrite (em_edge _ _ _ _ M0).
    case_decide; [|by apply Hout]. unfold take_skip. destruct (_ <? _); by apply Hout.
  - rewrite (edges_mapped_node _ _ _ _ n M0), (followers_equiv gr gr0) in M1, M2 by done.
    erewrite bind_step by (erewrite bind_step by exact E2; done). rewrite put_put. by exists gr0, gr1, gr2.
Qed.

End Ending.

End Ending.
