(* ===== verification/RingData.v ===== *)
(** * Data over ring edges

    What [pgm_complete], [pgm_terminate] and [pgm_wait] do when the edge between
    two nodes is a ring edge: a completed job leaves the producer's buffer at the
    end of the ring together with its tokens, a wait puts the oldest element into
    the consumer's buffer and takes the tokens, and the end of the producer
    reaches the consumer once the ring is empty. *)

From S2P Require Import Prelude Ring Types Sys Structure Memory Ipc GraphInit GraphWf Teardown Query Search Lookup Ownership Stream Transfer Tokens Firing Ending.
From Stdlib Require Import Ascii.

Module RingData.
Import Types Sys Structure Memory Ipc GraphInit GraphWf Query Search Lookup Ownership Stream Transfer Tokens Firing Ending.
#[local] Open Scope Z_scope.

(** A forward ring edge that passes elements of [sz] bytes. *)
Record ring_edge (e : pgm_edge) (sz : Z) : Prop := {
  ri_forward : is_backedge e = false;
  ri_ops : e_ops e = Some pgm_ring_edge_ops;
  ri_type : type (e_attr e) = pgm_ring_edge;
  ri_produce : nr_produce (e_attr e) = sz;
  ri_consume : nr_consume (e_attr e) = sz;
  ri_threshold : nr_threshold (e_attr e) = sz;
  ri_skips : nr_skips e = 0;
  ri_size : 0 < sz
}.

(** The elements in the ring of an edge. *)
Record carries (e : pgm_edge) (sz : Z) (q : list (list Z)) : Prop := {
  ca_queue : Ring.queue (ringbuf e) q;
  ca_size : Ring.memb_sz (ringbuf e) = sz
}.

Lemma ring_flags e sz : ring_edge e sz ->
  is_signal_driven e = true /\ is_data_passing e = true /\ has_flag (type (e_attr e)) PGM_EDGE_RING = true.
Proof.
  intros [_ _ Ht _ _ _ _ _]. unfold is_signal_driven, is_data_passing, is_signal_driven_attr, is_data_passing_attr.
  by rewrite Ht.
Qed.

Section RingData.
Context {W : Type} `{Syscalls W} (fuel : nat).
Implicit Types (s : pgm_state W) (gr : pgm_graph) (e : pgm_edge).

Lemma one_edge_equiv gr (v : pgm_edge) y :
  edge_skel v = edge_skel (gedge gr y) -> gr ≡ gr <| edges ::= <[y := v]> |>.
Proof.
  intros Ev. split; [done|]. split; [done|]. intros i. simpl. rewrite cell_insert. by case_decide; subst.
Qed.

(** ** Reading and writing the ring *)

Lemma ring_write_appends e sz q m :
  ring_edge e sz -> carries e sz q -> 0 < Ring.nfree (ringbuf e) -> Z.of_nat (List.length m) = sz ->
  exists r, ring_write e m = Ok (Some r) /\ Ring.queue r (q ++ [m]) /\ Ring.memb_sz r = sz /\
    Ring.nmemb r = Ring.nmemb (ringbuf e).
Proof.
  intros [_ _ _ Hp Hc _ _ _] [Hq Hs] Hf Hm.
  destruct (Ring.write_appends (ringbuf e) q m Hq Hf) as (r & E & Hr & En & Es); [lia|].
  exists r. split; [|by rewrite Es]. unfold ring_write. rewrite Hm, Hp, Hc, Z.eqb_refl. simpl.
  destruct (_ || _); exact E.
Qed.

Lemma ring_write_blocks e sz q m :
  ring_edge e sz -> carries e sz q -> Ring.nfree (ringbuf e) = 0 -> Z.of_nat (List.length m) = sz ->
  ring_write e m = Ok None.
Proof.
  intros [_ _ _ Hp Hc _ _ _] [Hq Hs] Hf Hm. unfold ring_write. rewrite Hm, Hp, Hc, Z.eqb_refl. simpl.
  destruct (_ || _); by apply (Ring.write_full_spins _ q).
Qed.

Lemma ring_read_takes e sz q m :
  ring_edge e sz -> carries e sz (m :: q) ->
  exists r, ring_read e sz = Ok (Some (m, r)) /\ Ring.queue r q /\ Ring.memb_sz r = sz /\
    Ring.nmemb r = Ring.nmemb (ringbuf e).
Proof.
  intros [_ _ _ Hp Hc _ _ _] [Hq Hs].
  destruct (Ring.read_takes_head (ringbuf e) q m Hq) as (r & E & Hr & En & Es). rewrite Hs in E.
  exists r. split; [|by rewrite Es]. unfold ring_read. rewrite Hp, Hc, Z.eqb_refl. simpl.
  destruct (_ || _); exact E.
Qed.

(** ** Sending *)

Definition own_bytes s e (sz : Z) : list Z := user_bytes s (pgm_get_user_ptr (buf_out e)) sz.

(** The edge after a message was put into its ring, tokens included. *)
Definition sent_edge (r : Ring.ring) (sz : Z) e : pgm_edge :=
  (set_ringbuf r e) <| nr_pending ::= fun k => wrap64 (k + sz) |>.

Section Send.
Context (s : pgm_state W) (g : Z) (gr : pgm_graph) (n x sz : Z) (q : list (list Z)).
Context (Hg : has_graph s g gr) (Hwf : graph_wf gr) (Hn : is_node gr n).
Context (Hout : out_list (gnode gr n) = [x]) (Hx : ring_edge (gedge gr x) sz) (Hq : carries (gedge gr x) sz q).

Lemma one_out : nr_out (gnode gr n) = 1 /\ upto (nr_out (gnode gr n)) = [0] /\
  cell (n_out (gnode gr n)) 0 = x /\ 0 <= x < PGM_MAX_EDGES.
Proof.
  assert (Hr : 0 <= x < PGM_MAX_EDGES).
  { eapply (listed_in_range gr n); [done..|]. right. rewrite Hout. constructor. }
  pose proof (nw_out _ _ (gw_node gr Hwf n Hn)) as Ho. unfold out_list in Hout.
  assert (E : nr_out (gnode gr n) = 1).
  { apply (f_equal List.length) in Hout. rewrite length_fmap, length_upto in Hout. simpl in Hout. lia. }
  rewrite E in *. change (upto 1) with [0] in Hout. by injection Hout as ->.
Qed.

Lemma write_ring_runs r :
  ring_write (gedge gr x) (own_bytes s (gedge gr x) sz) = Ok (Some r) ->
  pgm_send_data fuel g x PGM_NORMAL s =
  Ok (0, put_graph g (gr <| edges ::= <[x := set_ringbuf r (gedge gr x)]> |>) s).
Proof.
  intros E. destruct one_out as (_ & _ & _ & Hr). destruct (ring_flags _ _ Hx) as (_ & _ & Fr).
  pose proof Hx as [_ Ho _ Hp _ _ _ _].
  unfold pgm_send_data. st_step. fold (gedge gr x). rewrite Fr. simpl. unfold pgm_send_ring_data. st_step.
  fold (gedge gr x). change (has_flag PGM_NORMAL PGM_TERMINATE) with false. simpl.
  assert (Ew : edge_write g x (pgm_get_user_ptr (buf_out (gedge gr x))) (nr_produce (e_attr (gedge gr x))) s =
    Ok (Z.of_nat (List.length (own_bytes s (gedge gr x) sz)),
        put_graph g (gr <| edges ::= <[x := set_ringbuf r (gedge gr x)]> |>) s)).
  { unfold edge_write. st_step. fold (gedge gr x). rewrite Ho. st_step.
    erewrite bind_step by apply rd_bytes_at. cbv beta. unfold ops_write, ring_edge_write. st_step.
    fold (gedge gr x). rewrite Hp. unfold own_bytes in E. rewrite E. st_step. cbv iota. by st_step. }
  erewrite bind_step by (rewrite (bind_step _ _ _ _ _ Ew); done). done.
Qed.

Lemma write_ring_sleeps :
  ring_write (gedge gr x) (own_bytes s (gedge gr x) sz) = Ok None ->
  pgm_send_data fuel g x PGM_NORMAL s = Fault Blocks.
Proof.
  intros E. destruct one_out as (_ & _ & _ & Hr). destruct (ring_flags _ _ Hx) as (_ & _ & Fr).
  pose proof Hx as [_ Ho _ Hp _ _ _ _].
  unfold pgm_send_data. st_step. fold (gedge gr x). rewrite Fr. simpl. unfold pgm_send_ring_data. st_step.
  fold (gedge gr x). change (has_flag PGM_NORMAL PGM_TERMINATE) with false. simpl.
  apply bind_fault, bind_fault. unfold edge_write. st_step. fold (gedge gr x). rewrite Ho. st_step.
  erewrite bind_step by apply rd_bytes_at. cbv beta. unfold ops_write, ring_edge_write. st_step.
  fold (gedge gr x). rewrite Hp. unfold own_bytes in E. rewrite E. by st_step.
Qed.

(** A message fits: it goes into the ring, then its tokens are counted. *)
Lemma produce_ring r err wake :
  ring_write (gedge gr x) (own_bytes s (gedge gr x) sz) = Ok (Some r) ->
  produce_edge fuel g n PGM_NORMAL 0 (err, wake) s =
  Ok (err, if crosses (gedge gr x) then wake ++ [e_consumer (gedge gr x)] else wake,
      put_graph g (gr <| edges ::= <[x := sent_edge r sz (gedge gr x)]> |>) s).
Proof.
  intros E. destruct one_out as (En & _ & Ex & Hr). destruct (ring_flags _ _ Hx) as (Fs & Fd & Fr).
  pose proof (gw_nodes gr Hwf). assert (0 <= n < PGM_MAX_NODES) by (unfold is_node in Hn; lia).
  destruct (out_edge_ok s g gr n 0 Hg Hwf Hn) as [Eo _]; [lia|]. rewrite Ex in Eo.
  unfold produce_edge. st_step. fold (gnode gr n). rewrite Eo.
  rewrite (bind_step _ _ _ x s) by done. st_step. fold (gedge gr x).
  change (has_flag PGM_NORMAL PGM_TERMINATE) with false. simpl. rewrite Fd.
  erewrite bind_step by (rewrite (bind_step _ _ _ _ _ (write_ring_runs r E)); done). cbv beta.
  rewrite Fs, orb_false_r. simpl. set (gr1 := gr <| edges ::= _ |>).
  assert (Hg1 : has_graph (put_graph g gr1 s) g gr1) by (by eapply has_graph_put).
  assert (Ee : gedge gr1 x = set_ringbuf r (gedge gr x)) by apply cell_insert_eq.
  erewrite bind_step.
  2:{ unfold pgm_send_tokens. st_step. fold (gedge gr1 x). cbv zeta. st_step. done. }
  cbv beta. fold (gedge gr1 x). rewrite put_put, Ee. unfold crosses, mret, ST_ret, sent_edge.
  simpl. rewrite (ri_produce _ _ Hx). do 3 f_equal. unfold gr1, set_field. simpl. f_equal.
  apply insert_insert_eq.
Qed.

Lemma sent_skel r e : edge_skel (sent_edge r sz e) = edge_skel e.
Proof. done. Qed.

Context (Hu : in_use gr = true) (Hlocks : forall c, is_node gr c -> n_lock (gnode gr c) = false).

(** [pgm_complete] with room in the ring. *)
Lemma complete_ring :
  0 < Ring.nfree (ringbuf (gedge gr x)) ->
  exists r gr', pgm_complete fuel (Node_t g n) s = Ok (0, put_graph g gr' s) /\
    Ring.queue r (q ++ [own_bytes s (gedge gr x) sz]) /\ Ring.memb_sz r = sz /\
    Ring.nmemb r = Ring.nmemb (ringbuf (gedge gr x)) /\
    signalled (if crosses (gedge gr x) then [e_consumer (gedge gr x)] else [])
      (gr <| edges ::= <[x := sent_edge r sz (gedge gr x)]> |>) gr'.
Proof.
  intros Hf. destruct one_out as (_ & En & _ & Hr).
  destruct (ring_write_appends (gedge gr x) sz q (own_bytes s (gedge gr x) sz) Hx Hq Hf) as (r & E & Hq' & Es & Em).
  { unfold own_bytes. rewrite length_user_bytes. pose proof (ri_size _ _ Hx). lia. }
  set (gr1 := gr <| edges ::= <[x := sent_edge r sz (gedge gr x)]> |>).
  assert (Eq : gr ≡ gr1) by (apply one_edge_equiv; done).
  pose proof (gw_nodes gr Hwf). assert (0 <= n < PGM_MAX_NODES) by (unfold is_node in Hn; lia).
  set (wake := if crosses (gedge gr x) then [e_consumer (gedge gr x)] else []).
  assert (Hc : is_node gr (e_consumer (gedge gr x))).
  { destruct (nw_out_edges _ _ (gw_node gr Hwf n Hn) x) as (_ & _ & ? & _); [rewrite Hout; constructor|done]. }
  destruct (wake_loop (put_graph g gr1 s) g gr1 wake) as (gr2 & E2 & S2).
  { by eapply has_graph_put. }
  { done. }
  { by rewrite <- Eq. }
  { intros c Hin. assert (c = e_consumer (gedge gr x)) as ->.
    { unfold wake in Hin. destruct (crosses _); [by apply list_elem_of_singleton in Hin|by apply elem_of_nil in Hin]. }
    split; [done|]. by apply Hlocks. }
  exists r, gr2. split_and!; try done. unfold pgm_complete, pgm_produce. simpl. st_step. fold (gnode gr n). rewrite En.
  erewrite bind_step.
  2:{ simpl. rewrite (bind_step _ _ _ _ _ (produce_ring r false [] E)). done. }
  simpl. fold gr1 wake. rewrite (bind_step _ _ _ _ _ E2), put_put. done.
Qed.

(** Without room the call spins. *)
Lemma complete_ring_blocks :
  Ring.nfree (ringbuf (gedge gr x)) = 0 -> pgm_complete fuel (Node_t g n) s = Fault Blocks.
Proof.
  intros Hf. destruct one_out as (En & En' & Ex & Hr). destruct (ring_flags _ _ Hx) as (_ & Fd & _).
  assert (E : ring_write (gedge gr x) (own_bytes s (gedge gr x) sz) = Ok None).
  { apply (ring_write_blocks _ sz q); try done. unfold own_bytes. rewrite length_user_bytes.
    pose proof (ri_size _ _ Hx). lia. }
  pose proof (gw_nodes gr Hwf). assert (0 <= n < PGM_MAX_NODES) by (unfold is_node in Hn; lia).
  destruct (out_edge_ok s g gr n 0 Hg Hwf Hn) as [Eo _]; [lia|]. rewrite Ex in Eo.
  unfold pgm_complete, pgm_produce. simpl. st_step. fold (gnode gr n). rewrite En'. apply bind_fault. simpl.
  apply bind_fault. unfold produce_edge. st_step. fold (gnode gr n). rewrite Eo.
  rewrite (bind_step _ _ _ x s) by done. st_step. fold (gedge gr x).
  change (has_flag PGM_NORMAL PGM_TERMINATE) with false. simpl. rewrite Fd.
  apply bind_fault, bind_fault. by apply write_ring_sleeps.
Qed.

(** [pgm_terminate]: the command is left next to the ring, the consumer counts
    the end and is woken. *)
Lemma terminate_ring :
  exists gr', pgm_terminate fuel (Node_t g n) s = Ok (0, put_graph g gr' s) /\
    exists gr1, gr1 = gr <| edges ::= <[x := set_ring_cmd PGM_TERMINATE (gedge gr x)]> |>
        <| nodes ::= <[e_consumer (gedge gr x) := tell 1 (gnode gr (e_consumer (gedge gr x)))]> |> /\
      nodes_mapped ring_up [e_consumer (gedge gr x)] gr1 gr'.
Proof.
  destruct one_out as (En & En' & Ex & Hr). destruct (ring_flags _ _ Hx) as (Fs & Fd & Fr).
  pose proof (gw_nodes gr Hwf). assert (0 <= n < PGM_MAX_NODES) by (unfold is_node in Hn; lia).
  assert (Hc : is_node gr (e_consumer (gedge gr x))).
  { destruct (nw_out_edges _ _ (gw_node gr Hwf n Hn) x) as (_ & _ & ? & _); [rewrite Hout; constructor|done]. }
  assert (Hcr : 0 <= e_consumer (gedge gr x) < PGM_MAX_NODES) by (unfold is_node in Hc; lia).
  set (c := e_consumer (gedge gr x)) in *.
  set (gr1 := gr <| edges ::= <[x := set_ring_cmd PGM_TERMINATE (gedge gr x)]> |>).
  assert (Eq1 : gr ≡ gr1) by (apply one_edge_equiv; done).
  set (gr2 := gr1 <| nodes ::= <[c := tell 1 (gnode gr c)]> |>).
  assert (Eq2 : gr1 ≡ gr2) by exact (nodes_mapped_equiv tell _ _ _ (nodes_mapped_one tell c gr1)).
  assert (Ep : produce_edge fuel g n PGM_TERMINATE 0 (false, []) s = Ok (false, [c], put_graph g gr2 s)).
  { destruct (out_edge_ok s g gr n 0 Hg Hwf Hn) as [Eo _]; [lia|]. rewrite Ex in Eo.
    unfold produce_edge. st_step. fold (gnode gr n). rewrite Eo.
    rewrite (bind_step _ _ _ x s) by done. st_step. fold (gedge gr x).
    change (has_flag PGM_TERMINATE PGM_TERMINATE) with true. rewrite (ri_forward _ _ Hx). simpl. rewrite Fd.
    erewrite bind_step.
    2:{ erewrite bind_step; [done|]. unfold pgm_send_data. st_step. fold (gedge gr x). rewrite Fr. simpl.
        unfold pgm_send_ring_data. st_step. fold (gedge gr x). change (has_flag PGM_TERMINATE PGM_TERMINATE) with true.
        simpl. st_step. done. }
    cbv beta. rewrite Fs. simpl. fold gr1 c. erewrite bind_step; [|eapply upd_node_at; [by eapply has_graph_put|done]].
    cbv beta. by rewrite put_put. }
  destruct (ring_loop (put_graph g gr2 s) g gr2 [c]) as (gr3 & E3 & M3).
  { by eapply has_graph_put. }
  { done. }
  { rewrite <- Eq2. by rewrite <- Eq1. }
  { intros i ->%list_elem_of_singleton. split; [done|]. unfold gr2. rewrite gnode_set, decide_True by done.
    by apply Hlocks. }
  exists gr3. split; [|by exists gr2]. unfold pgm_terminate, pgm_produce. simpl. st_step. fold (gnode gr n). rewrite En'.
  erewrite bind_step.
  2:{ simpl. rewrite (bind_step _ _ _ _ _ Ep). done. }
  simpl. rewrite (bind_step _ _ _ _ _ E3), put_put. done.
Qed.

End Send.

(** ** Receiving *)

Section Receive.
Context (s : pgm_state W) (g : Z) (gr : pgm_graph) (c x sz : Z) (rounds : nat).
Context (Hg : has_graph s g gr) (Hu : in_use gr = true) (Hwf : graph_wf gr) (Hc : is_node gr c).
Context (Hin : in_list (gnode gr c) = [x]) (Hx : ring_edge (gedge gr x) sz).

Lemma one_in : nr_in (gnode gr c) = 1 /\ cell (n_in (gnode gr c)) 0 = x /\ 0 <= x < PGM_MAX_EDGES.
Proof.
  assert (Hr : 0 <= x < PGM_MAX_EDGES).
  { eapply (listed_in_range gr c); [done..|]. left. rewrite Hin. constructor. }
  pose proof (nw_in _ _ (gw_node gr Hwf c Hc)) as Ho. unfold in_list in Hin.
  assert (E : nr_in (gnode gr c) = 1).
  { apply (f_equal List.length) in Hin. rewrite length_fmap, length_upto in Hin. simpl in Hin. lia. }
  rewrite E in *. change (upto 1) with [0] in Hin. by injection Hin as ->.
Qed.

Lemma one_in_counts : nr_in_signaled (gnode gr c) = 1 /\ nr_in_data (gnode gr c) = 1 /\
  nr_in_data_backedges (gnode gr c) = 0 /\ nr_in_signaled_backedges (gnode gr c) = 0 /\
  Z.testbit (signal_edge_mask (gnode gr c)) 0 = true.
Proof.
  destruct one_in as (En & Ex & _). destruct (ring_flags _ _ Hx) as (Fs & Fd & _).
  destruct (gw_node gr Hwf c Hc) as [_ _ _ _ _ _ -> -> -> -> Hm]. rewrite Hm, En, Ex, Fs, Hin by lia.
  unfold count_edges. rewrite !filter_cons, (ri_forward _ _ Hx), Fs, Fd. done.
Qed.

(** What is left to wait for is nothing: the only edge is signalled. *)
Lemma nothing_to_wait : Z.ldiff 1 (Z.lor (signal_edge_mask (gnode gr c)) 0) = 0.
Proof.
  destruct one_in_counts as (_ & _ & _ & _ & Hb). rewrite Z.lor_0_r. apply Z.bits_inj. intros i.
  rewrite Z.ldiff_spec, Z.bits_0. destruct (Z.eq_dec i 0) as [->|Hne]; [by rewrite Hb|].
  change 1 with (2 ^ 0). by rewrite Z.pow2_bits_false.
Qed.

Definition in_ptr : Z := pgm_get_user_ptr (buf_in (gedge gr x)).

(** Where the data of the edge goes. *)
Lemma recv_targets_one : recv_targets g c (nr_in (gnode gr c)) s = Ok (0, {[0 := in_ptr]}, s).
Proof.
  destruct one_in as (En & Ex & Hr). destruct (ring_flags _ _ Hx) as (_ & Fd & _).
  unfold recv_targets. rewrite En. change (upto 1) with [0]. simpl.
  erewrite bind_step; [done|]. rewrite (bind_step _ _ _ _ _ (in_edge_ok s g gr c 0 Hg Hwf Hc ltac:(lia))).
  rewrite Ex, Fd, (ri_skips _ _ Hx). done.
Qed.

(** The pass over the edges decides everything. *)
Lemma recv_reads stop s' :
  read_edges fuel g c [0] {[0 := in_ptr]} s = Ok ((None, stop), s') ->
  pgm_recv_data (S rounds) fuel g c s =
  (nd ← rd_node g c;
   mret (if negb (nr_terminate_msgs nd =? 0) &&
            (nr_terminate_msgs nd =? nr_in_data nd - nr_in_data_backedges nd)
         then WaitExhaustedAndTerminate else WaitSuccess)) s'.
Proof.
  intros E. destruct one_in as (En & Ex & Hr). pose proof (gw_nodes gr Hwf).
  assert (0 <= c < PGM_MAX_NODES) by (unfold is_node in Hc; lia).
  unfold pgm_recv_data. st_step. fold (gnode gr c). rewrite (bind_step _ _ _ _ _ recv_targets_one). cbv beta iota.
  rewrite En. change (first_mask 1) with (@Ok Z 1). st_step. change (1 =? 0) with false. cbv iota.
  rewrite nothing_to_wait. erewrite bind_step.
  2:{ cbn [recv_rounds]. erewrite bind_step; [|destruct rounds; reflexivity]. cbv iota beta.
      rewrite bool_decide_eq_true_2 by done. change (negb true) with false. cbv iota. st_step. fold (gnode gr c). rewrite En.
      change (upto 1) with [0]. rewrite (bind_step _ _ _ _ _ E). done. }
  cbv beta iota. done.
Qed.

(** The oldest element goes into the consumer's buffer. *)
Lemma read_one_edge q m :
  carries (gedge gr x) sz (m :: q) ->
  exists r, Ring.queue r q /\ Ring.memb_sz r = sz /\ Ring.nmemb r = Ring.nmemb (ringbuf (gedge gr x)) /\
    read_edges fuel g c [0] {[0 := in_ptr]} s =
    Ok ((None, {[0 := in_ptr]}),
        (put_graph g (gr <| edges ::= <[x := set_ringbuf r (gedge gr x)]> |>) s)
          <| heap ::= fun h => h <| hbytes ::= fun b => store_bytes b in_ptr m |> |>).
Proof.
  intros Hq. destruct one_in as (En & Ex & Hr). destruct (ring_flags _ _ Hx) as (Fs & Fd & Fr).
  pose proof (gw_nodes gr Hwf). assert (0 <= c < PGM_MAX_NODES) by (unfold is_node in Hc; lia).
  destruct (ring_read_takes _ _ _ _ Hx Hq) as (r & E & Hq' & Es & Em). exists r. split_and!; try done.
  cbn [read_edges]. rewrite (bind_step _ _ _ _ _ (in_edge_ok s g gr c 0 Hg Hwf Hc ltac:(lia))).
  rewrite Ex. cbv beta iota. rewrite Fd, (ri_skips _ _ Hx). change (negb true) with false. change (0 <? 0) with false. cbv iota.
  erewrite bind_step; [|by rewrite lookup_singleton_eq]. cbv beta. rewrite Fr. cbv iota.
  assert (He : Ring.is_ring_empty (ringbuf (gedge gr x)) = false).
  { unfold Ring.is_ring_empty. destruct Hq as [Hq _]. pose proof (Ring.q_length _ _ Hq) as Hl. simpl in Hl.
    apply Z.eqb_neq. lia. }
  rewrite He, andb_false_r. change (negb false) with true. cbv iota.
  assert (Er : edge_read g x in_ptr (nr_consume (e_attr (gedge gr x))) s = Ok (sz,
    (put_graph g (gr <| edges ::= <[x := set_ringbuf r (gedge gr x)]> |>) s)
      <| heap ::= fun h => h <| hbytes ::= fun b => store_bytes b in_ptr m |> |>)).
  { unfold edge_read. st_step. fold (gedge gr x). rewrite (ri_ops _ _ Hx). st_step. unfold ops_read.
    erewrite bind_step.
    2:{ unfold ring_edge_read. st_step. fold (gedge gr x). rewrite (ri_consume _ _ Hx), E. st_step. cbv iota. by st_step. }
    cbv beta iota. erewrite bind_step by done. done. }
  erewrite bind_step by (rewrite (bind_step _ _ _ _ _ Er); done). done.
Qed.

(** The producer has ended and the ring is empty: the end is counted. *)
Lemma read_end :
  carries (gedge gr x) sz [] -> has_flag (ring_cmd (gedge gr x)) PGM_TERMINATE = true ->
  read_edges fuel g c [0] {[0 := in_ptr]} s =
  Ok ((None, {[0 := in_ptr]}),
      put_graph g (gr <| nodes ::= <[c := (gnode gr c) <| nr_terminate_msgs ::= fun k => k + 1 |>]> |>) s).
Proof.
  intros Hq Hcmd. destruct one_in as (En & Ex & Hr). destruct (ring_flags _ _ Hx) as (Fs & Fd & Fr).
  pose proof (gw_nodes gr Hwf). assert (0 <= c < PGM_MAX_NODES) by (unfold is_node in Hc; lia).
  cbn [read_edges]. rewrite (bind_step _ _ _ _ _ (in_edge_ok s g gr c 0 Hg Hwf Hc ltac:(lia))).
  rewrite Ex. cbv beta iota. rewrite Fd, (ri_skips _ _ Hx). change (negb true) with false. change (0 <? 0) with false. cbv iota.
  erewrite bind_step; [|by rewrite lookup_singleton_eq]. cbv beta. rewrite Fr. cbv iota.
  assert (He : Ring.is_ring_empty (ringbuf (gedge gr x)) = true).
  { unfold Ring.is_ring_empty. destruct Hq as [Hq _]. pose proof (Ring.q_length _ _ Hq) as Hl. simpl in Hl.
    apply Z.eqb_eq. lia. }
  rewrite He, Hcmd. change (negb (true && true)) with false. cbv iota. unfold add_terminate_msg. by st_step.
Qed.

(** ** Waiting *)

Lemma ring_ready : all_ready gr c <-> sz <= nr_pending (gedge gr x).
Proof.
  unfold all_ready. rewrite Hin. destruct (ring_flags _ _ Hx) as (Fs & _ & _).
  assert (Er : edge_ready (gedge gr x) = (sz <=? nr_pending (gedge gr x))).
  { unfold edge_ready. rewrite Fs, (ri_threshold _ _ Hx), (ri_skips _ _ Hx). by rewrite orb_false_r. }
  split.
  - intros Ha. apply Z.leb_le. rewrite <- Er. apply Ha; [constructor|done].
  - intros Ha e ->%list_elem_of_singleton _. rewrite Er. by apply Z.leb_le.
Qed.

(** The edge after a firing. *)
Definition taken_edge (r : Ring.ring) e : pgm_edge := (set_ringbuf r e) <| nr_pending ::= fun k => k - sz |>.

Lemma take_from_ring r :
  sz <= nr_pending (gedge gr x) < 2 ^ 64 ->
  take_skip (take_tokens (set_ringbuf r (gedge gr x))) = taken_edge r (gedge gr x).
Proof.
  intros Hp. destruct (ring_flags _ _ Hx) as (Fs & _ & _). pose proof (ri_size _ _ Hx).
  unfold take_tokens, take_skip. change (is_signal_driven (set_ringbuf r (gedge gr x))) with (is_signal_driven (gedge gr x)).
  rewrite Fs. simpl. rewrite (ri_skips _ _ Hx). simpl. rewrite (ri_skips _ _ Hx), (ri_consume _ _ Hx). simpl.
  unfold taken_edge, set_field. simpl. f_equal. unfold wrap64. apply Z.mod_small. lia.
Qed.

(** [pgm_wait] with tokens there: the oldest element arrives. *)
Lemma wait_ring q m :
  carries (gedge gr x) sz (m :: q) -> sz <= nr_pending (gedge gr x) < 2 ^ 64 -> nr_terminate_msgs (gnode gr c) = 0 ->
  exists r gr', Ring.queue r q /\ Ring.memb_sz r = sz /\ Ring.nmemb r = Ring.nmemb (ringbuf (gedge gr x)) /\
    pgm_wait (S rounds) fuel (Node_t g c) s =
    Ok (0, (put_graph g gr' s) <| heap ::= fun h => h <| hbytes ::= fun b => store_bytes b in_ptr m |> |>) /\
    edges_mapped (taken_edge r) [x] gr gr'.
Proof.
  intros Hq Hp Hmsgs. destruct one_in as (En & Ex & Hr). destruct one_in_counts as (Cs & Cd & Cb & _ & _).
  pose proof (gw_nodes gr Hwf). assert (Hcr : 0 <= c < PGM_MAX_NODES) by (unfold is_node in Hc; lia).
  destruct (read_one_edge q m Hq) as (r & Hq' & Es & Em & E).
  set (gr1 := gr <| edges ::= <[x := set_ringbuf r (gedge gr x)]> |>) in *.
  set (st := fun gr' : pgm_graph => (put_graph g gr' s) <| heap ::= fun h => h <| hbytes ::= fun b => store_bytes b in_ptr m |> |>).
  assert (Hst : forall gr', has_graph (st gr') g gr') by (intros gr'; by apply (has_graph_put s g gr)).
  assert (Hput : forall gr' gr'', put_graph g gr' (st gr'') = st gr') by (intros; unfold st; by rewrite <- (put_put s g gr' gr'')).
  assert (Eq1 : gr ≡ gr1) by (by apply one_edge_equiv).
  destruct (consume_tokens_runs (st gr1) g gr1 c) as (gr2 & E2 & M2); [done|done|by rewrite <- Eq1|done|].
  pose proof (edges_mapped_equiv _ _ _ _ take_tokens_skel M2) as Eq2.
  destruct (consume_skips_runs (st gr2) g gr2 c) as (gr3 & E3 & M3); [done| | |  |].
  { destruct Eq2 as (Ef & _). injection Ef. intros. simpl in *. congruence. }
  { rewrite <- Eq2. by rewrite <- Eq1. }
  { unfold is_node. by destruct (equiv_sizes gr1 gr2 Eq2) as [<- _]. }
  rewrite (edges_mapped_node _ _ _ _ c M2) in M3. change (gnode gr1 c) with (gnode gr c) in M2, M3. rewrite Hin in M2, M3.
  exists r, gr3. split_and!; try done.
  - unfold pgm_wait. simpl nd_graph. simpl nd_node. st_step. fold (gnode gr c). rewrite Cs.
    change (negb (1 =? 0)) with true. cbv iota.
    rewrite (bind_step _ _ _ _ _ (wait_tokens_ready s g gr c Hg Hwf Hc (proj2 ring_ready (proj1 Hp)))). cbv beta.
    st_step. fold (gnode gr c). rewrite Cd. change (negb (1 =? 0)) with true. cbv iota.
    erewrite bind_step.
    2:{ rewrite (recv_reads _ _ E). fold (st gr1). st_step. change (cell (nodes gr1) c) with (gnode gr c).
        rewrite Hmsgs. done. }
    cbv beta. simpl. st_step. change (cell (nodes gr1) c) with (gnode gr c). rewrite Cs. simpl.
    rewrite (bind_step _ _ _ _ _ E2), Hput. rewrite (bind_step _ _ _ _ _ E3), Hput. done.
  - pose proof (edges_mapped_trans _ _ _ _ _ _ M2 M3) as [R E']. split.
    + rewrite R. done.
    + intros e. rewrite E'. destruct (decide (e ∈ [x])) as [->%list_elem_of_singleton|Hne].
      * unfold gr1, gedge. simpl. rewrite cell_insert_eq. by apply take_from_ring.
      * unfold gr1, gedge. simpl. apply cell_insert_ne. intros ->. apply Hne. constructor.
Qed.

Lemma ring_exhausted :
  exhausted gr c <-> nr_pending (gedge gr x) < sz /\ nr_terminate_signals (gnode gr c) = 1.
Proof.
  destruct one_in_counts as (Cs & _ & _ & Cb & _). destruct (ring_flags _ _ Hx) as (Fs & _ & _).
  unfold exhausted. rewrite Hin, Cs, Cb. rewrite count_edges_zero.
  assert (Er : ready_normal (gedge gr x) = (sz <=? nr_pending (gedge gr x))).
  { unfold ready_normal, edge_ready. rewrite Fs, (ri_threshold _ _ Hx), (ri_skips _ _ Hx), (ri_forward _ _ Hx).
    simpl. by rewrite orb_false_r, andb_true_r. }
  split.
  - intros (Hr & _ & Ht). specialize (Hr x ltac:(constructor)). rewrite Er in Hr. apply Z.leb_gt in Hr. lia.
  - intros [Hp Ht]. split_and!; [|lia..]. intros e ->%list_elem_of_singleton. rewrite Er. by apply Z.leb_gt.
Qed.

(** The graph in which the consumer [c] has seen the end of its producer. *)
Definition end_seen : pgm_graph :=
  gr <| nodes ::= <[c := (gnode gr c) <| nr_terminate_msgs ::= fun k => k + 1 |>]> |>.

(** [pgm_wait] of a node without successors, after the end of its producer. *)
Lemma wait_ring_ends :
  carries (gedge gr x) sz [] -> has_flag (ring_cmd (gedge gr x)) PGM_TERMINATE = true ->
  nr_pending (gedge gr x) < sz -> nr_terminate_signals (gnode gr c) = 1 -> nr_terminate_msgs (gnode gr c) = 0 ->
  out_list (gnode gr c) = [] ->
  exists gr', pgm_wait (S rounds) fuel (Node_t g c) s = Ok (PGM_TERMINATE, put_graph g gr' s) /\
    edges_mapped take_skip [x] end_seen gr'.
Proof.
  intros Hq Hcmd Hp Hsig Hmsgs Hout. destruct one_in as (En & Ex & Hr). destruct one_in_counts as (Cs & Cd & Cb & _ & _).
  pose proof (gw_nodes gr Hwf). assert (Hcr : 0 <= c < PGM_MAX_NODES) by (unfold is_node in Hc; lia).
  assert (Hno : nr_out (gnode gr c) = 0).
  { pose proof (nw_out _ _ (gw_node gr Hwf c Hc)). apply (f_equal List.length) in Hout. unfold out_list in Hout.
    rewrite length_fmap, length_upto in Hout. simpl in Hout. lia. }
  pose proof (read_end Hq Hcmd) as E. fold end_seen in E.
  assert (En1 : gnode end_seen c = (gnode gr c) <| nr_terminate_msgs ::= fun k => k + 1 |>) by apply cell_insert_eq.
  assert (Eq1 : gr ≡ end_seen).
  { split; [done|]. split; [|done]. intros i. fold (gnode end_seen i) (gnode gr i). unfold end_seen. rewrite gnode_set.
    by case_decide; subst. }
  assert (Hg1 : has_graph (put_graph g end_seen s) g end_seen) by (by eapply has_graph_put).
  destruct (consume_skips_runs (put_graph g end_seen s) g end_seen c) as (gr2 & E2 & M2); [done|done|by rewrite <- Eq1|done|].
  assert (Hg2 : has_graph (put_graph g gr2 s) g gr2) by (by eapply has_graph_put).
  assert (En2 : gnode gr2 c = gnode end_seen c) by (by eapply edges_mapped_node).
  assert (Eil : in_list (gnode end_seen c) = [x]) by (rewrite En1; exact Hin). rewrite Eil in M2.
  exists gr2. split; [|done]. unfold pgm_wait. simpl nd_graph. simpl nd_node. st_step. fold (gnode gr c). rewrite Cs.
  change (negb (1 =? 0)) with true. cbv iota.
  rewrite (bind_step _ _ _ _ _ (wait_tokens_exhausted s g gr c Hg Hwf Hc
    (fun Ha => Z.lt_irrefl _ (Z.lt_le_trans _ _ _ Hp (proj1 ring_ready Ha))) (proj2 ring_exhausted (conj Hp Hsig)))). cbv beta.
  st_step. fold (gnode gr c). rewrite Cd. change (negb (1 =? 0)) with true. cbv iota.
  erewrite bind_step.
  2:{ rewrite (recv_reads _ _ E). st_step. fold (gnode end_seen c). rewrite En1. simpl. rewrite Hmsgs, Cd, Cb. done. }
  cbv beta. simpl. st_step. fold (gnode end_seen c). rewrite En1. simpl. rewrite andb_false_r.
  erewrite bind_step by done. cbv beta. rewrite (bind_step _ _ _ _ _ E2), put_put.
  erewrite bind_step; [done|]. erewrite bind_step; [done|].
  unfold pgm_terminate, pgm_produce. simpl. st_step. fold (gnode gr2 c). rewrite En2, En1. simpl. rewrite Hno. done.
Qed.

End Receive.

End RingData.

End RingData.
