(* ===== verification/Board.v ===== *)
(** * What threads see of a graph of token edges

    For a graph whose edges are all condition-variable edges that carry one
    token at a time, everything the calls of the library change is on a [board]:
    the tokens of every edge, the ended producers and the owner of every node.
    Each call, made on any state that shows a board, returns what the board says
    and leaves a state that shows the board after it. *)

From S2P Require Import Prelude Ring Types Sys Structure Memory Ipc GraphInit GraphWf Teardown Query Search Lookup Depth Ownership Stream Tokens Firing Ending.
From Stdlib Require Import Ascii.

Module Board.
Import Types Sys Structure GraphInit GraphWf Query Search Lookup Depth Ownership Stream Tokens Firing Ending.
#[local] Open Scope Z_scope.

(** ** Boards *)

Record board := Brd {
  pend : Z -> Z;
  ended : Z -> Z;
  holder : Z -> Z
}.

(** A forward edge that passes single tokens. *)
Record relay_edge (e : pgm_edge) : Prop := {
  re_forward : is_backedge e = false;
  re_ops : e_ops e = Some pgm_cv_edge_ops;
  re_tokens : tokens_only e;
  re_produce : nr_produce (e_attr e) = 1;
  re_consume : nr_consume (e_attr e) = 1;
  re_threshold : nr_threshold (e_attr e) = 1;
  re_skips : nr_skips e = 0
}.

(** A graph of such edges, at rest. *)
Record relay (gr : pgm_graph) : Prop := {
  rl_use : in_use gr = true;
  rl_lock : g_lock gr = false;
  rl_wf : graph_wf gr;
  rl_locks : forall c, is_node gr c -> n_lock (gnode gr c) = false;
  rl_edge : forall n e, is_node gr n -> e ∈ in_list (gnode gr n) -> relay_edge (gedge gr e)
}.

(** The graph [gr0] with what the board says on it. *)
Record shows (gr0 : pgm_graph) (b : board) (gr : pgm_graph) : Prop := {
  sh_rest : gr = gr0 <| nodes := nodes gr |> <| edges := edges gr |>;
  sh_edge e : gedge gr e = (gedge gr0 e) <| nr_pending := pend b e |>;
  sh_node i : gnode gr i = (gnode gr0 i) <| owner := holder b i |>
    <| nr_terminate_signals := ended b i |> <| n_wait := n_wait (gnode gr i) |>
}.

Section Board.
Context (gr0 : pgm_graph) (Hrelay : relay gr0).

(** ** Changes of a board *)

Definition give (n : Z) (b : board) : board :=
  Brd (fun e => if decide (e ∈ out_list (gnode gr0 n)) then pend b e + 1 else pend b e) (ended b) (holder b).

Definition eat (n : Z) (b : board) : board :=
  Brd (fun e => if decide (e ∈ in_list (gnode gr0 n)) then pend b e - 1 else pend b e) (ended b) (holder b).

Definition announce (n : Z) (b : board) : board :=
  Brd (pend b) (fun i => ended b i + occ (followers gr0 (out_list (gnode gr0 n))) i) (holder b).

Definition own (n t : Z) (b : board) : board :=
  Brd (pend b) (ended b) (fun i => if decide (n = i) then t else holder b i).

(** Every inbound edge has a token. *)
Definition served (b : board) (n : Z) : Prop := forall e, e ∈ in_list (gnode gr0 n) -> 1 <= pend b e.

(** No inbound edge has one, and none will come. *)
Definition over (b : board) (n : Z) : Prop :=
  (forall e, e ∈ in_list (gnode gr0 n) -> pend b e = 0) /\ ended b n = nr_in (gnode gr0 n).

(** Token counters are far from wrapping. *)
Definition roomy (b : board) : Prop := forall n e,
  is_node gr0 n -> e ∈ in_list (gnode gr0 n) -> 0 <= pend b e < 2 ^ 64 - 1.

(** ** Graphs that show a board *)

Lemma shows_equiv b gr : shows gr0 b gr -> gr0 ≡ gr.
Proof.
  intros [R E N]. split; [by rewrite R|]. split.
  - intros i. fold (gnode gr0 i) (gnode gr i). by rewrite N.
  - intros e. fold (gedge gr0 e) (gedge gr e). by rewrite E.
Qed.

Lemma shows_node b gr i : shows gr0 b gr -> is_node gr i <-> is_node gr0 i.
Proof. intros Hs. unfold is_node. by destruct (equiv_sizes _ _ (shows_equiv b gr Hs)) as [<- _]. Qed.

Lemma shows_lists b gr i :
  shows gr0 b gr -> in_list (gnode gr i) = in_list (gnode gr0 i) /\ out_list (gnode gr i) = out_list (gnode gr0 i).
Proof. intros Hs. by rewrite (sh_node _ _ _ Hs i). Qed.

Lemma in_relay n e : is_node gr0 n -> e ∈ in_list (gnode gr0 n) -> relay_edge (gedge gr0 e).
Proof. apply (rl_edge _ Hrelay). Qed.

Lemma out_relay n e :
  is_node gr0 n -> e ∈ out_list (gnode gr0 n) ->
  relay_edge (gedge gr0 e) /\ is_node gr0 (e_consumer (gedge gr0 e)) /\ e ∈ in_list (gnode gr0 (e_consumer (gedge gr0 e))).
Proof.
  intros Hn He. destruct (nw_out_edges _ _ (gw_node _ (rl_wf _ Hrelay) n Hn) e He) as (_ & _ & Hc & Hin).
  split; [by apply (in_relay _ e Hc)|done].
Qed.

(** A graph that shows a board is itself at rest. *)
Lemma shows_relay b gr : shows gr0 b gr -> relay gr.
Proof.
  intros Hs. pose proof Hs as [R E N]. split.
  - rewrite R. apply (rl_use _ Hrelay).
  - rewrite R. apply (rl_lock _ Hrelay).
  - rewrite <- (shows_equiv b gr Hs). apply (rl_wf _ Hrelay).
  - intros c Hc. rewrite N. apply (rl_locks _ Hrelay). by apply (shows_node b gr).
  - intros n e Hn He. rewrite N in He. rewrite E.
    apply (shows_node b gr) in Hn; [|done]. destruct (in_relay n e Hn He). by split.
Qed.

Lemma shows_cv b gr n : shows gr0 b gr -> is_node gr0 n -> cv_node gr n.
Proof.
  intros Hs Hn e He. rewrite (sh_edge _ _ _ Hs). destruct (shows_lists b gr n Hs) as [Ei Eo].
  rewrite Ei, Eo in He. destruct He as [He|He]; [apply (re_ops _ (in_relay n e Hn He))|].
  destruct (out_relay n e Hn He) as [He' _]. apply (re_ops _ He').
Qed.

(** ** Counters *)

Lemma count_all gr (P : pgm_edge -> bool) l :
  (forall e, e ∈ l -> P (gedge gr e) = true) -> count_edges gr P l = Z.of_nat (List.length l).
Proof.
  intros HP. induction l as [|e l IH]; [done|]. rewrite count_edges_cons, HP by constructor.
  rewrite IH by (intros; apply HP; by constructor). simpl. lia.
Qed.

Lemma length_in n : is_node gr0 n -> Z.of_nat (List.length (in_list (gnode gr0 n))) = nr_in (gnode gr0 n).
Proof.
  intros Hn. pose proof (nw_in _ _ (gw_node _ (rl_wf _ Hrelay) n Hn)).
  unfold in_list. rewrite length_fmap, length_upto. lia.
Qed.

Lemma some_inbound n : is_node gr0 n -> nr_in (gnode gr0 n) <> 0 -> exists e, e ∈ in_list (gnode gr0 n).
Proof.
  intros Hn Hne. pose proof (length_in n Hn) as Hl.
  destruct (in_list (gnode gr0 n)) as [|e l]; [simpl in Hl; lia|]. exists e. constructor.
Qed.

(** All inbound edges are signalled forward edges. *)
Lemma relay_counts n :
  is_node gr0 n -> nr_in_signaled (gnode gr0 n) = nr_in (gnode gr0 n) /\
  nr_in_signaled_backedges (gnode gr0 n) = 0 /\ nr_in_data (gnode gr0 n) = 0.
Proof.
  intros Hn. destruct (gw_node _ (rl_wf _ Hrelay) n Hn) as [_ _ _ _ _ _ Es Ed Eb _ _].
  rewrite Es, Eb, Ed, <- length_in by done. split_and!.
  - apply count_all. intros e He. apply (re_tokens _ (in_relay n e Hn He)).
  - apply count_edges_zero. intros e He. rewrite (re_forward _ (in_relay n e Hn He)). apply andb_false_r.
  - apply count_edges_zero. intros e He. apply (re_tokens _ (in_relay n e Hn He)).
Qed.

Lemma ready_pend b gr n e :
  shows gr0 b gr -> is_node gr0 n -> e ∈ in_list (gnode gr0 n) -> edge_ready (gedge gr e) = (1 <=? pend b e).
Proof.
  intros Hs Hn He. destruct (in_relay n e Hn He) as [_ _ [Hsig _] _ _ Ht Hk].
  rewrite (sh_edge _ _ _ Hs). unfold edge_ready, is_signal_driven in *. simpl. rewrite Hsig, Ht, Hk. simpl.
  by rewrite orb_false_r.
Qed.

Lemma served_ready b gr n : shows gr0 b gr -> is_node gr0 n -> all_ready gr n <-> served b n.
Proof.
  intros Hs Hn. unfold all_ready, served. destruct (shows_lists b gr n Hs) as [-> _]. split.
  - intros Ha e He. specialize (Ha e He). rewrite (ready_pend b gr n e) in Ha by done.
    apply Z.leb_le, Ha. rewrite (sh_edge _ _ _ Hs). apply (re_tokens _ (in_relay n e Hn He)).
  - intros Ha e He _. rewrite (ready_pend b gr n e) by done. by apply Z.leb_le, Ha.
Qed.

Lemma over_exhausted b gr n :
  shows gr0 b gr -> roomy b -> is_node gr0 n -> nr_in (gnode gr0 n) <> 0 -> exhausted gr n <-> over b n.
Proof.
  intros Hs Hb Hn Hne. unfold exhausted, over. destruct (shows_lists b gr n Hs) as [-> _].
  destruct (relay_counts n Hn) as (Es & Eb & _).
  rewrite (sh_node _ _ _ Hs n). simpl. rewrite Es, Eb, Z.sub_0_r.
  assert (Hz : count_edges gr ready_normal (in_list (gnode gr0 n)) = 0 <->
    forall e, e ∈ in_list (gnode gr0 n) -> pend b e = 0); [|split; [tauto|intros [? ->]; tauto]].
  split.
  - intros Hc e He. specialize (Hb n e Hn He). pose proof (proj1 (count_edges_zero _ _ _) Hc e He) as H0. unfold ready_normal in H0. rewrite (ready_pend b gr n e) in H0 by done.
    rewrite (sh_edge _ _ _ Hs e) in H0. simpl in H0. rewrite (re_forward _ (in_relay n e Hn He)), andb_true_r in H0.
    apply Z.leb_gt in H0. lia.
  - intros Hp. apply count_edges_zero. intros e He. unfold ready_normal. rewrite (ready_pend b gr n e), Hp by done. done.
Qed.

(** ** How the graph's changes show *)

Lemma shows_edges b b' f l gr gr' :
  shows gr0 b gr -> edges_mapped f l gr gr' -> ended b' = ended b -> holder b' = holder b ->
  (forall e, (if decide (e ∈ l) then f (gedge gr e) else gedge gr e) = (gedge gr0 e) <| nr_pending := pend b' e |>) ->
  shows gr0 b' gr'.
Proof.
  intros [R E N] [R' E'] Hend Hown Hf. split.
  - rewrite R'. rewrite R at 1. done.
  - intros e. by rewrite E', Hf.
  - intros i. rewrite Hend, Hown. rewrite R'. apply N.
Qed.

Lemma shows_signalled b w gr gr' : shows gr0 b gr -> signalled w gr gr' -> shows gr0 b gr'.
Proof.
  intros [R E N] [R' N']. split.
  - rewrite R'. rewrite R at 1. done.
  - intros e. rewrite R'. apply E.
  - intros i. rewrite N', N. done.
Qed.

Lemma shows_rung b w gr gr' : shows gr0 b gr -> nodes_mapped ring_up w gr gr' -> shows gr0 b gr'.
Proof.
  intros [R E N] [R' N']. split.
  - rewrite R'. rewrite R at 1. done.
  - intros e. rewrite R'. apply E.
  - intros i. rewrite N', N. done.
Qed.

Lemma shows_told b n gr gr' :
  shows gr0 b gr -> nodes_mapped tell (followers gr0 (out_list (gnode gr0 n))) gr gr' ->
  shows gr0 (announce n b) gr'.
Proof.
  intros [R E N] [R' N']. split.
  - rewrite R'. rewrite R at 1. done.
  - intros e. rewrite R'. apply E.
  - intros i. rewrite N', N. done.
Qed.

Lemma shows_owner b n t gr : shows gr0 b gr -> shows gr0 (own n t b) (set_owner n t gr).
Proof.
  intros [R E N]. split.
  - rewrite R at 1. done.
  - intros e. apply E.
  - intros i. unfold set_owner, gnode. simpl. unfold at_node. rewrite cell_insert.
    fold (gnode gr n) (gnode gr i) (gnode gr0 i). case_decide; [subst|apply N]. by rewrite N.
Qed.

(** ** The calls *)

Section Calls.
Context {W : Type} `{Syscalls W} (retries rounds fuel : nat) (g : Z).
Implicit Types (s : pgm_state W) (b : board).

Definition showing s b : Prop := exists gr, has_graph s g gr /\ shows gr0 b gr.

Lemma showing_put s b gr gr' : has_graph s g gr -> shows gr0 b gr' -> showing (put_graph g gr' s) b.
Proof. intros Hg Hs. exists gr'. split; [by eapply has_graph_put|done]. Qed.

Lemma claim_shown s b n t :
  showing s b -> is_node gr0 n -> holder b n = UNCLAIMED_NODE -> t <> 0 ->
  exists s', pgm_claim_node retries (Node_t g n) t s = Ok (0, s') /\ showing s' (own n t b).
Proof.
  intros (gr & Hg & Hs) Hn Hfree Ht. destruct (shows_relay b gr Hs) as [Hu Hl Hwf _ _].
  apply (shows_node b gr) in Hn as Hn'; [|done].
  rewrite (claim_free retries s g gr n) by (done || by rewrite (sh_node _ _ _ Hs)).
  assert (Et : tid_of s t = t) by (unfold tid_of; by rewrite (proj2 (Z.eqb_neq _ _) Ht)). rewrite Et.
  pose proof (shows_owner b n t gr Hs) as Hs1.
  eexists. split; [|by eapply showing_put].
  apply (claim_cv retries _ g (set_owner n t gr)); [by eapply has_graph_put|by apply set_owner_wf| |].
  - by apply (shows_node _ _ n Hs1).
  - by apply (shows_cv _ _ n Hs1).
Qed.

Lemma release_shown s b n t :
  showing s b -> is_node gr0 n -> holder b n = t -> t <> 0 -> t <> UNCLAIMED_NODE ->
  exists s', pgm_release_node (Node_t g n) t s = Ok (0, s') /\ showing s' (own n UNCLAIMED_NODE b).
Proof.
  intros (gr & Hg & Hs) Hn Hh Ht Hne. destruct (shows_relay b gr Hs) as [Hu Hl Hwf _ _].
  assert (Et : tid_of s t = t) by (unfold tid_of; by rewrite (proj2 (Z.eqb_neq _ _) Ht)).
  rewrite (release_cv s g gr n t t); try done.
  - eexists. split; [done|]. eapply showing_put; [done|by apply shows_owner].
  - by apply (shows_node b gr).
  - by apply (shows_cv b).
  - by rewrite (sh_node _ _ _ Hs), Et.
Qed.

(** Reading changes nothing. *)
Lemma degree_shown s b n :
  showing s b -> is_node gr0 n -> pgm_get_degree_in (Node_t g n) true s = Ok (nr_in (gnode gr0 n), s).
Proof.
  intros (gr & Hg & Hs) Hn. destruct (shows_relay b gr Hs) as [Hu Hl Hwf _ He].
  unfold pgm_get_degree_in. simpl. st_step. rewrite Hu. simpl.
  apply (locked_reads s g gr); [done..|]. intros s1 Hs1. pose proof (gw_nodes gr Hwf).
  apply (shows_node b gr) in Hn as Hn'; [|done]. pose proof Hn' as Hr. unfold is_node in Hr.
  st_step. simpl. etransitivity; [apply (count_forward_runs s1 g (gr <| g_lock := true |>) n Hs1)|].
  - by apply graph_wf_lock.
  - done.
  - do 2 f_equal. rewrite <- length_in, <- (count_all gr (fun e => negb (is_backedge e))) by
      (done || intros e Hin; rewrite <- (proj1 (shows_lists b gr n Hs)) in Hin; by rewrite (re_forward _ (He n e Hn' Hin))).
    unfold in_degree, count_edges. change (gnode (gr <| g_lock := true |>) n) with (gnode gr n).
    rewrite (proj1 (shows_lists b gr n Hs)). do 2 f_equal. apply list_filter_iff.
    intros e. unfold forward. change (gedge (gr <| g_lock := true |>) e) with (gedge gr e).
    by destruct (is_backedge _).
Qed.

Lemma out_shown b gr n :
  shows gr0 b gr -> is_node gr0 n -> forall e, e ∈ out_list (gnode gr n) -> tokens_only (gedge gr e).
Proof.
  intros Hs Hn e He. rewrite (proj2 (shows_lists b gr n Hs)) in He. rewrite (sh_edge _ _ _ Hs).
  destruct (out_relay n e Hn He) as [[_ _ Ht _ _ _ _] _]. exact Ht.
Qed.

Lemma complete_shown s b n :
  showing s b -> roomy b -> is_node gr0 n ->
  exists s', pgm_complete fuel (Node_t g n) s = Ok (0, s') /\ showing s' (give n b).
Proof.
  intros (gr & Hg & Hs) Hb Hn. destruct (shows_relay b gr Hs) as [Hu Hl Hwf Hlk He].
  destruct (complete_runs fuel s g gr n) as (gr1 & gr2 & E & M & S); try done.
  - by apply (shows_node b gr).
  - by apply (out_shown b).
  - eexists. split; [exact E|]. eapply showing_put; [done|].
    eapply (shows_signalled _ _ gr1); [|done]. eapply (shows_edges b); [done|exact M|done|done|].
    intros e. rewrite (proj2 (shows_lists b gr n Hs)), (sh_edge _ _ _ Hs). simpl. case_decide as Ho; [|done].
    destruct (out_relay n e Hn Ho) as (Hr & Hc & Hi). specialize (Hb _ e Hc Hi).
    unfold add_tokens, set_field. simpl. rewrite (re_produce _ Hr). f_equal. unfold wrap64. apply Z.mod_small. lia.
Qed.

Lemma followers_shown b gr n :
  shows gr0 b gr -> followers gr (out_list (gnode gr n)) = followers gr0 (out_list (gnode gr0 n)).
Proof.
  intros Hs. rewrite (proj2 (shows_lists b gr n Hs)). apply followers_equiv. by apply (shows_equiv b).
Qed.

Lemma terminate_shown s b n :
  showing s b -> is_node gr0 n ->
  exists s', pgm_terminate fuel (Node_t g n) s = Ok (0, s') /\ showing s' (announce n b).
Proof.
  intros (gr & Hg & Hs) Hn. destruct (shows_relay b gr Hs) as [Hu Hl Hwf Hlk He].
  destruct (terminate_runs fuel s g gr n) as (gr1 & gr2 & E & M1 & M2); try done.
  - by apply (shows_node b gr).
  - by apply (out_shown b).
  - rewrite (followers_shown b gr n Hs) in M1, M2.
    eexists. split; [exact E|]. eapply showing_put; [done|]. eapply shows_rung; [by eapply shows_told|done].
Qed.

Lemma wait_fires_shown s b n :
  showing s b -> roomy b -> is_node gr0 n -> nr_in (gnode gr0 n) <> 0 -> served b n ->
  exists s', pgm_wait rounds fuel (Node_t g n) s = Ok (0, s') /\ showing s' (eat n b).
Proof.
  intros (gr & Hg & Hs) Hb Hn Hne Hserved. destruct (shows_relay b gr Hs) as [Hu Hl Hwf Hlk He].
  destruct (relay_counts n Hn) as (Es & _ & Ed).
  destruct (wait_runs rounds fuel s g gr n) as (gr' & E & M); try done.
  - by apply (shows_node b gr).
  - by rewrite (sh_node _ _ _ Hs).
  - rewrite (sh_node _ _ _ Hs). simpl. lia.
  - by apply (served_ready b).
  - eexists. split; [exact E|]. eapply showing_put; [done|]. eapply (shows_edges b); [done|exact M|done|done|].
    intros e. rewrite (proj1 (shows_lists b gr n Hs)), (sh_edge _ _ _ Hs). simpl. case_decide as Hi; [|done].
    destruct (in_relay n e Hn Hi) as [_ _ [Hsig _] _ Hc _ Hk]. specialize (Hb n e Hn Hi). specialize (Hserved e Hi).
    unfold take_tokens, take_skip, is_signal_driven in *. simpl. rewrite Hsig, Hk. simpl. rewrite Hk. simpl.
    unfold set_field. simpl. rewrite Hc. f_equal. unfold wrap64. apply Z.mod_small. lia.
Qed.

Lemma wait_ends_shown s b n :
  showing s b -> roomy b -> is_node gr0 n -> nr_in (gnode gr0 n) <> 0 -> over b n ->
  exists s', pgm_wait rounds fuel (Node_t g n) s = Ok (PGM_TERMINATE, s') /\ showing s' (announce n b).
Proof.
  intros (gr & Hg & Hs) Hb Hn Hne Hov. destruct (shows_relay b gr Hs) as [Hu Hl Hwf Hlk He].
  destruct (relay_counts n Hn) as (Es & _ & Ed).
  destruct (wait_ends fuel rounds s g gr n) as (gr1 & gr2 & gr3 & E & M1 & M2 & M3); try done.
  - by apply (shows_node b gr).
  - by apply (out_shown b).
  - by rewrite (sh_node _ _ _ Hs).
  - rewrite (sh_node _ _ _ Hs). simpl. lia.
  - rewrite (served_ready b gr n) by done. intros Hserved. destruct Hov as [Hz _].
    destruct (some_inbound n Hn Hne) as [e Hin]. specialize (Hserved e Hin). specialize (Hz e Hin). lia.
  - by apply (over_exhausted b).
  - rewrite (followers_shown b gr n Hs) in M2, M3. eexists. split; [exact E|]. eapply showing_put; [done|].
    eapply shows_rung; [|done]. eapply shows_told; [|done]. eapply (shows_edges b b); [done|exact M1|done|done|].
    intros e. rewrite (proj1 (shows_lists b gr n Hs)), (sh_edge _ _ _ Hs). case_decide as Hi; [|done].
    unfold take_skip. simpl. by rewrite (re_skips _ (in_relay n e Hn Hi)).
Qed.

Lemma wait_sleeps_shown s b n :
  showing s b -> roomy b -> is_node gr0 n -> nr_in (gnode gr0 n) <> 0 -> ~ served b n -> ~ over b n ->
  pgm_wait rounds fuel (Node_t g n) s = Fault Blocks.
Proof.
  intros (gr & Hg & Hs) Hb Hn Hne Hserved Hov. destruct (shows_relay b gr Hs) as [Hu Hl Hwf Hlk He].
  destruct (relay_counts n Hn) as (Es & _ & Ed). apply (shows_node b gr) in Hn as Hn'; [|done].
  apply (pgm_wait_blocks rounds fuel s g gr n); try done.
  - by apply Hlk.
  - rewrite (sh_node _ _ _ Hs). simpl. lia.
  - by rewrite (served_ready b).
  - by rewrite (over_exhausted b).
Qed.

End Calls.

End Board.

End Board.
