(* ===== verification/Wakeup.v ===== *)
(** * Waiting and completing at the same time

    Every node is run by a thread that calls [pgm_wait], [pgm_complete] and
    [pgm_terminate].  Here these calls are taken apart into their single
    accesses to shared memory (one edge counter, one lock operation, one wait or
    signal at a time), which the threads interleave freely.  Data does not take part
    in the synchronisation, and of the transfer of data only its result is kept:
    [over] tells whether a node that is out of tokens is out of data as well.  Shown
    is that no wake-up is lost: the test under the node's lock, the wait that releases
    it, and the producers' signal under the same lock fit together. *)

From S2P Require Import Prelude Ring Types Sys Structure Memory Ipc GraphInit GraphWf Teardown Query Search Lookup Ownership Stream Tokens Firing.

Module Wakeup.
Import Types Structure GraphInit GraphWf Query Search Lookup Stream Tokens Firing.
#[local] Open Scope Z_scope.

(** ** Threads *)

(** Where a thread is.  [Scan], [Test] and [Sleep] are in
    [pgm_wait_for_tokens], with [locked] telling the quick path from the loop;
    [Asleep] is inside [pgm_cv_wait]; [Eat] and [Skip] are in
    [pgm_consume_tokens] and [pgm_consume_skips], [ending] if [pgm_terminate] comes
    next; the rest is [pgm_produce], with the nodes still to wake. *)
Inductive tpc :=
| Idle
| Scan (locked : bool) (l : list Z) (nr_ready nr_ready_normal : Z)
| Test (locked : bool) (nr_ready nr_ready_normal : Z)
| Lock
| Sleep
| Asleep
| Woken
| Unlock (success : bool)
| Eat (l : list Z)
| Skip (ending : bool) (l : list Z)
| Send (command : Z) (l to_wake : list Z)
| Wake (command : Z) (to_wake : list Z)
| WakeScan (command c : Z) (l : list Z) (nr_ready : Z) (to_wake : list Z)
| WakeTest (command c nr_ready : Z) (to_wake : list Z)
| WakeUnlock (command c : Z) (to_wake : list Z)
| Done.

#[global] Instance Zeroed_tpc : Zeroed tpc := Idle.

Definition at_edge (e : Z) (f : pgm_edge -> pgm_edge) (gr : pgm_graph) : pgm_graph :=
  gr <| edges ::= <[e := f (gedge gr e)]> |>.

Definition add_signal (nd : pgm_node) : pgm_node :=
  nd <| nr_terminate_signals ::= fun k => k + 1 |>.

(** The next access of the thread of node [n]: the graph and where the thread is
    afterwards, and the node whose condition variable it signalled.  [None] if
    the thread is between calls, asleep, or waits for a lock. *)
Definition tstep (over : bool) (n : Z) (gr : pgm_graph) (p : tpc) : option (pgm_graph * tpc * option Z) :=
  let nd := gnode gr n in
  (* out of tokens: with data left, the tokens are consumed all the same *)
  let ending := if over then Skip true (in_list nd) else Eat (in_list nd) in
  match p with
  | Idle | Asleep | Done => None
  | Scan b [] k kn => Some (gr, Test b k kn, None)
  | Scan b (e :: l) k kn =>
      let x := gedge gr e in
      Some (gr, Scan b l (k + one_if (edge_ready x)) (kn + one_if (ready_normal x)), None)
  | Test b k kn =>
      Some (gr,
        if k =? nr_in_signaled nd then if b then Unlock true else Eat (in_list nd)
        else if (kn =? 0) && negb (nr_terminate_signals nd =? 0) &&
                (nr_terminate_signals nd =? nr_in_signaled nd - nr_in_signaled_backedges nd)
        then if b then Unlock false else ending
        else if b then Sleep else Lock, None)
  | Lock | Woken =>
      if n_lock nd then None else Some (hold_lock n true gr, Scan true (in_list nd) 0 0, None)
  | Sleep => Some (hold_lock n false gr, Asleep, None)
  | Unlock success =>
      Some (hold_lock n false gr,
        if success then Eat (in_list nd) else ending, None)
  | Eat [] => Some (gr, Skip false (in_list nd), None)
  | Eat (e :: l) => Some (at_edge e take_tokens gr, Eat l, None)
  | Skip last [] => Some (gr, if last then Send PGM_TERMINATE (out_list nd) [] else Idle, None)
  | Skip last (e :: l) => Some (at_edge e take_skip gr, Skip last l, None)
  | Send cmd [] w => Some (gr, Wake cmd w, None)
  | Send cmd (e :: l) w =>
      let x := gedge gr e in
      if has_flag cmd PGM_TERMINATE && is_backedge x then Some (gr, Send cmd l w, None)
      else if negb (is_signal_driven x) then Some (gr, Send cmd l w, None)
      else if negb (has_flag cmd PGM_TERMINATE)
      then Some (at_edge e add_tokens gr,
                 Send cmd l (if crosses x then w ++ [e_consumer x] else w), None)
      else Some (gr <| nodes ::= at_node (e_consumer x) add_signal |>,
                 Send cmd l (w ++ [e_consumer x]), None)
  | Wake cmd [] => Some (gr, if has_flag cmd PGM_TERMINATE then Done else Idle, None)
  | Wake cmd (c :: w) =>
      if n_lock (gnode gr c) then None
      else Some (hold_lock c true gr,
                 if has_flag cmd PGM_TERMINATE then WakeTest cmd c 0 w
                 else WakeScan cmd c (in_list (gnode gr c)) 0 w, None)
  | WakeScan cmd c [] k w => Some (gr, WakeTest cmd c k w, None)
  | WakeScan cmd c (e :: l) k w =>
      Some (gr, WakeScan cmd c l (k + one_if (edge_ready (gedge gr e))) w, None)
  | WakeTest cmd c k w =>
      Some (gr, WakeUnlock cmd c w,
        if has_flag cmd PGM_TERMINATE || (k =? nr_in_signaled (gnode gr c)) then Some c else None)
  | WakeUnlock cmd c w => Some (hold_lock c false gr, Wake cmd w, None)
  end.

(** ** The system *)

Record conf := Conf { c_gr : pgm_graph; c_pcs : gmap Z tpc }.

Definition pc (c : conf) (t : Z) : tpc := cell (c_pcs c) t.

(** [pgm_cv_signal]: the thread that waits there, if it does, goes on. *)
Definition ring_bell (sig : option Z) (pcs : gmap Z tpc) : gmap Z tpc :=
  match sig with
  | Some m => match cell pcs m with Asleep => <[m := Woken]> pcs | _ => pcs end
  | None => pcs
  end.

(** The counter of the edge about to be produced on has room. *)
Definition has_room (gr : pgm_graph) (p : tpc) : Prop :=
  match p with
  | Send _ (e :: _) _ => 0 <= nr_pending (gedge gr e) /\
      0 <= nr_produce (e_attr (gedge gr e)) /\
      nr_pending (gedge gr e) + nr_produce (e_attr (gedge gr e)) < 2 ^ 64
  | _ => True
  end.

(** The calls a thread can make: [pgm_wait] looks for tokens if there are
    signalled inbound edges; [pgm_complete]; [pgm_terminate]. *)
Definition starts (gr : pgm_graph) (n : Z) (p : tpc) : Prop :=
  (nr_in_signaled (gnode gr n) <> 0 /\ p = Scan false (in_list (gnode gr n)) 0 0) \/
  p = Send PGM_NORMAL (out_list (gnode gr n)) [] \/
  p = Send PGM_TERMINATE (out_list (gnode gr n)) [].

Inductive step : conf -> conf -> Prop :=
| step_access c n over gr' p' sig :
    is_node (c_gr c) n -> has_room (c_gr c) (pc c n) ->
    (nr_in_data (gnode (c_gr c) n) = 0 -> over = true) ->
    tstep over n (c_gr c) (pc c n) = Some (gr', p', sig) ->
    step c (Conf gr' (ring_bell sig (<[n := p']> (c_pcs c))))
| step_call c n p :
    is_node (c_gr c) n -> pc c n = Idle -> starts (c_gr c) n p ->
    step c (Conf (c_gr c) (<[n := p]> (c_pcs c)))
| step_spurious c n :
    pc c n = Asleep -> step c (Conf (c_gr c) (<[n := Woken]> (c_pcs c))).

(** All threads between calls, all locks free. *)
Record initial (c : conf) : Prop := {
  in_wf : graph_wf (c_gr c);
  in_idle : forall t, pc c t = Idle;
  in_locks : forall m, is_node (c_gr c) m -> n_lock (gnode (c_gr c) m) = false
}.

(** ** Graphs between accesses *)

Lemma gedge_at e f gr y :
  gedge (at_edge e f gr) y = if decide (e = y) then f (gedge gr e) else gedge gr y.
Proof. unfold gedge, at_edge. simpl. by rewrite cell_insert. Qed.

Lemma gnode_at m f gr i :
  gnode (gr <| nodes ::= at_node m f |>) i = if decide (m = i) then f (gnode gr m) else gnode gr i.
Proof. unfold gnode, at_node. simpl. by rewrite cell_insert. Qed.

Lemma at_edge_equiv e f gr : (forall x, edge_skel (f x) = edge_skel x) -> gr ≡ at_edge e f gr.
Proof.
  intros Hf. split; [done|]. split; [done|]. intros i.
  change (edge_skel (gedge gr i) = edge_skel (gedge (at_edge e f gr) i)).
  rewrite gedge_at. case_decide; [subst; by rewrite Hf | done].
Qed.

Lemma at_node_equiv m f gr :
  (forall x, node_skel (f x) = node_skel x) -> gr ≡ gr <| nodes ::= at_node m f |>.
Proof.
  intros Hf. split; [done|]. split; [|done]. intros i.
  change (node_skel (gnode gr i) = node_skel (gnode (gr <| nodes ::= at_node m f |>) i)).
  rewrite gnode_at. case_decide; [subst; by rewrite Hf | done].
Qed.

(** No access changes which nodes and edges there are. *)
Lemma tstep_equiv over n gr p gr' p' sig : tstep over n gr p = Some (gr', p', sig) -> gr ≡ gr'.
Proof.
  intros E. destruct p; simpl in E; repeat case_match; simplify_eq; try done;
    first [ apply at_edge_equiv; first [apply take_tokens_skel | apply take_skip_skel | done]
          | by apply at_node_equiv ].
Qed.

(** What equivalent graphs agree on, for a node. *)
Lemma equiv_counts gr gr' m :
  gr ≡ gr' -> nr_in_signaled (gnode gr' m) = nr_in_signaled (gnode gr m) /\
    nr_in_signaled_backedges (gnode gr' m) = nr_in_signaled_backedges (gnode gr m) /\
    in_list (gnode gr' m) = in_list (gnode gr m).
Proof.
  intros Hg. destruct (equiv_node gr gr' m Hg) as (Ei & _ & Es).
  injection Es as _ _ _ _ _ _ Es _ Eb _. by rewrite Es, Eb, Ei.
Qed.

(** ** Mutual exclusion *)

(** Thread [t], being at [p], holds the lock of node [m]. *)
Definition holds (p : tpc) (t m : Z) : Prop :=
  match p with
  | Scan true _ _ _ | Test true _ _ | Sleep | Unlock _ => t = m
  | WakeScan _ c _ _ _ | WakeTest _ c _ _ | WakeUnlock _ c _ => c = m
  | _ => False
  end.

Record mutex (c : conf) : Prop := {
  mx_lock : forall t m, holds (pc c t) t m -> n_lock (gnode (c_gr c) m) = true;
  mx_one : forall t t' m, holds (pc c t) t m -> holds (pc c t') t' m -> t = t'
}.

Lemma lock_at m b gr i :
  n_lock (gnode (hold_lock m b gr) i) = if decide (m = i) then b else n_lock (gnode gr i).
Proof. unfold hold_lock. rewrite gnode_at. by case_decide. Qed.

(** An access takes a free lock, gives back the one the thread holds, or leaves
    locks alone. *)
Lemma tstep_locks over n gr p gr' p' sig :
  tstep over n gr p = Some (gr', p', sig) ->
  ((forall m, n_lock (gnode gr' m) = n_lock (gnode gr m)) /\
   (forall m, holds p' n m -> holds p n m)) \/
  (exists l, n_lock (gnode gr l) = false /\
     (forall m, n_lock (gnode gr' m) = if decide (l = m) then true else n_lock (gnode gr m)) /\
     (forall m, holds p' n m -> l = m)) \/
  (exists l, holds p n l /\
     (forall m, n_lock (gnode gr' m) = if decide (l = m) then false else n_lock (gnode gr m)) /\
     (forall m, ~ holds p' n m)).
Proof.
  intros E. destruct p; simpl in E; repeat case_match; simplify_eq;
    first
      [ by left
      | right; left; eexists; split; [eassumption|]; split; [intros; apply lock_at | done]
      | right; right; eexists; split; [reflexivity|]; split; [intros; apply lock_at | by intros ? []]
      | left; split; [intros m; rewrite gnode_at; by case_decide; subst | done] ].
Qed.

(** Signalling changes nobody's locks. *)
Lemma ring_bell_pc sig pcs t :
  cell (ring_bell sig pcs) t = cell pcs t \/
  (sig = Some t /\ cell pcs t = Asleep /\ cell (ring_bell sig pcs) t = Woken).
Proof.
  destruct sig as [m|]; [|by left]. unfold ring_bell.
  destruct (decide (m = t)) as [->|Hne].
  - destruct (cell pcs t) eqn:E; try by left. right. by rewrite cell_insert_eq.
  - destruct (cell pcs m); try by left. left. by apply cell_insert_ne.
Qed.

(** Where threads are after an access of [n]. *)
Lemma access_pc c n gr' p' sig t :
  let c' := Conf gr' (ring_bell sig (<[n := p']> (c_pcs c))) in
  pc c' t = (if decide (n = t) then p' else pc c t) \/
  (sig = Some t /\ (if decide (n = t) then p' else pc c t) = Asleep /\ pc c' t = Woken).
Proof.
  cbv zeta. pose proof (ring_bell_pc sig (<[n := p']> (c_pcs c)) t) as H.
  by rewrite !(cell_insert (c_pcs c)) in H.
Qed.

Lemma access_holds c n gr' p' sig t m :
  holds (pc (Conf gr' (ring_bell sig (<[n := p']> (c_pcs c)))) t) t m ->
  holds (if decide (n = t) then p' else pc c t) t m.
Proof. destruct (access_pc c n gr' p' sig t) as [->|(_ & _ & ->)]; [done|]. by intros []. Qed.

Lemma step_mutex c c' : mutex c -> step c c' -> mutex c'.
Proof.
  intros Hm Hst. destruct Hst as [c0 n over gr' p' sig Hn _ _ E | c0 n p Hn Hi Hst | c0 n Ha];
    destruct Hm as [Hl H1].
  - destruct (tstep_locks _ _ _ _ _ _ _ E) as [[El Hh]|[(l & Ef & El & Hh)|(l & Hpl & El & Hh)]].
    + split.
      * intros t m Ht%access_holds. simpl. rewrite El. apply (Hl t).
        case_decide; subst; auto.
      * intros t t' m Ht%access_holds Ht'%access_holds. apply (H1 t t' m);
          case_decide; subst; auto; case_decide; subst; auto.
    + assert (Hnew : forall t m, holds (if decide (n = t) then p' else pc c0 t) t m ->
        (t = n /\ l = m) \/ (t <> n /\ l <> m /\ holds (pc c0 t) t m)).
      { intros t m Ht. case_decide; [subst; left; auto|]. right. split_and!; [done| |done].
        intros ->. apply Hl in Ht. congruence. }
      split.
      * intros t m Ht%access_holds. simpl. rewrite El.
        destruct (Hnew t m Ht) as [[-> ->]|(? & ? & Ht')]; [by rewrite decide_True|].
        rewrite decide_False by done. by apply (Hl t).
      * intros t t' m Ht%access_holds Ht'%access_holds.
        destruct (Hnew t m Ht) as [[-> ->]|(? & ? & ?)], (Hnew t' m Ht') as [[-> ?]|(? & ? & ?)];
          [done|done|done|]. by apply (H1 t t' m).
    + assert (Hold : forall t m, holds (if decide (n = t) then p' else pc c0 t) t m ->
        t <> n /\ l <> m /\ holds (pc c0 t) t m).
      { intros t m Ht. case_decide; [subst; by apply Hh in Ht|]. split_and!; [done| |done].
        intros ->. by apply (H1 n t m) in Ht. }
      split.
      * intros t m Ht%access_holds. simpl. rewrite El. apply Hold in Ht as (_ & ? & Ht).
        rewrite decide_False by done. by apply (Hl t).
      * intros t t' m Ht%access_holds Ht'%access_holds.
        apply Hold in Ht as (_ & _ & Ht). apply Hold in Ht' as (_ & _ & Ht'). by apply (H1 t t' m).
  - assert (Hp : forall t m, holds (pc (Conf (c_gr c0) (<[n := p]> (c_pcs c0))) t) t m ->
      holds (pc c0 t) t m).
    { intros t m. unfold pc. simpl. rewrite cell_insert. case_decide; [|done].
      destruct Hst as [[_ ->]|[->| ->]]; by intros []. }
    split; intros; eauto.
  - assert (Hp : forall t m, holds (pc (Conf (c_gr c0) (<[n := Woken]> (c_pcs c0))) t) t m ->
      holds (pc c0 t) t m).
    { intros t m. unfold pc. simpl. rewrite cell_insert. case_decide; [by intros []|done]. }
    split; intros; eauto.
Qed.

(** ** Wake-ups that are still to come *)

Definition signaled_in (gr : pgm_graph) (l : list Z) : Z := count_edges gr is_signal_driven l.

(** A thread at [p] is going to signal node [m], provided [m] is ready... *)
Definition will_signal (gr : pgm_graph) (p : tpc) (m : Z) : Prop :=
  match p with
  | Send _ _ w | Wake _ w | WakeUnlock _ _ w => m ∈ w
  | WakeScan _ c l k w =>
      (c = m /\ k + signaled_in gr l = nr_in_signaled (gnode gr m)) \/ m ∈ w
  | WakeTest cmd c k w =>
      (c = m /\ (has_flag cmd PGM_TERMINATE = true \/ k = nr_in_signaled (gnode gr m))) \/ m ∈ w
  | _ => False
  end.

(** ... or in any case, because its producer has ended. *)
Definition will_end (p : tpc) (m : Z) : Prop :=
  match p with
  | Send cmd _ w | Wake cmd w | WakeUnlock cmd _ w => has_flag cmd PGM_TERMINATE = true /\ m ∈ w
  | WakeTest cmd c _ w => has_flag cmd PGM_TERMINATE = true /\ (c = m \/ m ∈ w)
  | WakeScan cmd _ _ _ w => has_flag cmd PGM_TERMINATE = true /\ m ∈ w
  | _ => False
  end.

(** No forward inbound edge of [m] is ready. *)
Definition quiet (gr : pgm_graph) (m : Z) : Prop :=
  forall e, e ∈ in_list (gnode gr m) -> ready_normal (gedge gr e) = false.

Lemma exhausted_quiet gr m : exhausted gr m -> quiet gr m.
Proof. intros [E _]. exact (proj1 (count_edges_zero gr _ _) E). Qed.

(** ** What an access does to another node's readiness *)

(** An inbound edge of [m] after an access to edge [e]. *)
Lemma other_edge gr n m e x f :
  graph_wf gr -> is_node gr m -> n <> m -> e_consumer (gedge gr e) = n ->
  x ∈ in_list (gnode gr m) -> gedge (at_edge e f gr) x = gedge gr x.
Proof.
  intros Hwf Hm Hne He Hx. rewrite gedge_at. case_decide; [|done]. subst x.
  apply (nw_in_edges gr m (gw_node gr Hwf m Hm)) in Hx as (_ & Ec & _). congruence.
Qed.

(** The lists a thread works through. *)
Definition lists_ok (gr : pgm_graph) (n : Z) (p : tpc) : Prop :=
  match p with
  | Scan _ l _ _ | Eat l | Skip _ l => forall e, e ∈ l -> e ∈ in_list (gnode gr n)
  | WakeScan _ c l _ _ => forall e, e ∈ l -> e ∈ in_list (gnode gr c)
  | _ => True
  end.

Lemma eat_consumer gr n e l :
  graph_wf gr -> is_node gr n -> (forall x, x ∈ e :: l -> x ∈ in_list (gnode gr n)) ->
  e_consumer (gedge gr e) = n.
Proof.
  intros Hwf Hn Hl. specialize (Hl e ltac:(constructor)).
  by apply (nw_in_edges gr n (gw_node gr Hwf n Hn)) in Hl as (_ & Ec & _).
Qed.

(** A production that makes an edge ready crosses its threshold; one that does
    not overflow never makes it unready. *)
Lemma add_tokens_ready x :
  edge_ready (add_tokens x) = true -> edge_ready x = true \/ crosses x = true.
Proof.
  unfold edge_ready, crosses, add_tokens. simpl.
  change (is_signal_driven (_ <| nr_pending ::= _ |>)) with (is_signal_driven x).
  destruct (is_signal_driven x); [|done]. simpl.
  destruct (Z.leb_spec (nr_threshold (e_attr x)) (nr_pending x)) as [|Hlt]; [by left|].
  destruct (0 <? nr_skips x); [by left|]. rewrite orb_false_r. intros ->.
  right. apply Z.ltb_lt in Hlt. by rewrite Hlt.
Qed.

Lemma add_tokens_keeps x :
  0 <= nr_pending x -> 0 <= nr_produce (e_attr x) ->
  nr_pending x + nr_produce (e_attr x) < 2 ^ 64 ->
  ready_normal x = true -> ready_normal (add_tokens x) = true.
Proof.
  intros H0 H1 Hlt. unfold ready_normal, edge_ready, add_tokens, wrap64. simpl.
  rewrite Z.mod_small by lia.
  change (is_signal_driven (_ <| nr_pending ::= _ |>)) with (is_signal_driven x).
  destruct (is_signal_driven x), (0 <? nr_skips x), (is_backedge x); simpl;
    rewrite ?orb_true_r, ?orb_false_r, ?andb_false_r, ?andb_true_r; simpl; try done.
  rewrite !Z.leb_le. lia.
Qed.

(** Which edges an access changes... *)
Lemma tstep_edges over n gr p gr' p' sig :
  tstep over n gr p = Some (gr', p', sig) ->
  (forall e, gedge gr' e = gedge gr e) \/
  (exists e l f, (p = Eat (e :: l) \/ exists ending, p = Skip ending (e :: l)) /\ gr' = at_edge e f gr) \/
  (exists cmd e l w, p = Send cmd (e :: l) w /\ gr' = at_edge e add_tokens gr /\
     p' = Send cmd l (if crosses (gedge gr e) then w ++ [e_consumer (gedge gr e)] else w)).
Proof.
  intros E. destruct p; simpl in E; repeat case_match; simplify_eq; try (by left);
    right; [left; eexists _, _, _; eauto.. | right | right];
    eexists _, _, _, _; (split; [done|]); split; [done| |done|];
    match goal with H : crosses _ = _ |- _ => by rewrite H end.
Qed.

(** ... and which nodes' count of ended producers. *)
Lemma tstep_ended over n gr p gr' p' sig m :
  tstep over n gr p = Some (gr', p', sig) ->
  nr_terminate_signals (gnode gr' m) = nr_terminate_signals (gnode gr m) \/ will_end p' m.
Proof.
  intros E. destruct p; simpl in E; repeat case_match; simplify_eq; try (by left);
    try (left; unfold hold_lock; rewrite gnode_at; by case_decide; subst).
  rewrite gnode_at. case_decide as Hc; [|by left]. right. subst m. simpl.
  split; [by apply negb_false_iff|]. apply elem_of_app. right. by constructor.
Qed.

Section Other.
Context (over : bool) (n m : Z) (gr gr' : pgm_graph) (p p' : tpc) (sig : option Z).
Context (Hwf : graph_wf gr) (Hn : is_node gr n) (Hm : is_node gr m) (Hne : n <> m).
Context (Hl : lists_ok gr n p) (E : tstep over n gr p = Some (gr', p', sig)).

(** Another node's edges only change by a production on one of them. *)
Lemma other_change x :
  x ∈ in_list (gnode gr m) -> gedge gr' x = gedge gr x \/
  (exists cmd l w, p = Send cmd (x :: l) w /\ gedge gr' x = add_tokens (gedge gr x) /\
     p' = Send cmd l (if crosses (gedge gr x) then w ++ [m] else w)).
Proof.
  intros Hx. destruct (tstep_edges _ _ _ _ _ _ _ E)
    as [He|[(e & l & f & Hp & ->)|(cmd & e & l & w & -> & -> & Ep)]]; [by left| |].
  - left. apply (other_edge gr n m); try done.
    by destruct Hp as [->|[ending ->]]; apply (eat_consumer gr n e l).
  - destruct (decide (e = x)) as [->|Hex]; [right|left; by rewrite gedge_at, decide_False].
    exists cmd, l, w. split; [done|]. split; [by rewrite gedge_at, decide_True|]. rewrite Ep.
    by apply (nw_in_edges gr m (gw_node gr Hwf m Hm)) in Hx as (_ & -> & _).
Qed.

Lemma send_to_wake :
  will_signal gr' p' m \/ forall cmd l w, p' = Send cmd l w -> m ∉ w.
Proof.
  destruct p'; try (right; by intros ? ? ? [=]).
  destruct (decide (m ∈ to_wake)); [by left|]. right. by intros ? ? ? [= _ _ <-].
Qed.

Lemma flip_ready : all_ready gr' m -> all_ready gr m \/ will_signal gr' p' m.
Proof.
  intros Hr. destruct (equiv_counts gr gr' m (tstep_equiv _ _ _ _ _ _ _ E)) as (_ & _ & Ein).
  destruct send_to_wake as [?|Hnw]; [by right|left]. intros x Hx Hs.
  specialize (Hr x). rewrite Ein in Hr. specialize (Hr Hx).
  destruct (other_change x Hx) as [Ex|(cmd & l & w & _ & Ex & Ep)]; rewrite Ex in Hr; [by apply Hr|].
  destruct (add_tokens_ready _ (Hr Hs)) as [?|Hc]; [done|]. rewrite Hc in Ep.
  by destruct (Hnw _ _ _ Ep); apply elem_of_app; right; constructor.
Qed.

Lemma flip_quiet : has_room gr p -> quiet gr' m -> quiet gr m.
Proof.
  intros Hroom Hq x Hx. destruct (equiv_counts gr gr' m (tstep_equiv _ _ _ _ _ _ _ E)) as (_ & _ & Ein).
  specialize (Hq x). rewrite Ein in Hq. specialize (Hq Hx).
  destruct (other_change x Hx) as [Ex|(cmd & l & w & Hp & Ex & _)]; rewrite Ex in Hq; [done|].
  rewrite Hp in Hroom. destruct Hroom as (? & ? & ?).
  destruct (ready_normal (gedge gr x)) eqn:Er; [|done].
  by rewrite add_tokens_keeps in Hq.
Qed.

Lemma flip_exhausted : has_room gr p -> exhausted gr' m -> exhausted gr m \/ will_end p' m.
Proof.
  intros Hroom Hx. pose proof (flip_quiet Hroom (exhausted_quiet _ _ Hx)) as Hq.
  destruct (equiv_counts gr gr' m (tstep_equiv _ _ _ _ _ _ _ E)) as (Es & Eb & _).
  destruct (tstep_ended _ _ _ _ _ _ _ m E) as [Et|?]; [left|by right].
  destruct Hx as (_ & Ht & Htot). rewrite Et, Es, Eb in *.
  split; [by apply count_edges_zero|]. done.
Qed.

End Other.

(** ** What an access does to a wake-up that was due *)

Lemma will_signal_equiv gr gr' p m : gr ≡ gr' -> will_signal gr p m -> will_signal gr' p m.
Proof.
  intros Hg. destruct (equiv_counts gr gr' m Hg) as (Es & _ & _). destruct p; simpl; try done.
  - unfold signaled_in. by rewrite Es, (count_edges_equiv gr gr' _ _ Hg).
  - by rewrite Es.
Qed.

Lemma signaled_in_all gr m :
  graph_wf gr -> is_node gr m ->
  signaled_in gr (in_list (gnode gr m)) = nr_in_signaled (gnode gr m).
Proof. intros Hwf Hm. symmetry. apply (nw_signaled gr m (gw_node gr Hwf m Hm)). Qed.

(** Scanning one more edge of a ready node finds it ready. *)
Lemma scan_ready gr m e l k :
  all_ready gr m -> e ∈ in_list (gnode gr m) ->
  k + one_if (edge_ready (gedge gr e)) + signaled_in gr l = k + signaled_in gr (e :: l).
Proof.
  intros Hr He. unfold signaled_in. rewrite count_edges_cons.
  destruct (is_signal_driven (gedge gr e)) eqn:Es.
  - rewrite (Hr e He Es). simpl. lia.
  - destruct (edge_ready (gedge gr e)) eqn:Er; [by rewrite (ready_signaled _ Er) in Es|]. simpl. lia.
Qed.

Lemma keep_signal over n gr p gr' p' sig m :
  graph_wf gr -> is_node gr m -> lists_ok gr n p ->
  tstep over n gr p = Some (gr', p', sig) -> all_ready gr' m -> will_signal gr p m ->
  will_signal gr' p' m \/ (sig = Some m /\ holds p n m).
Proof.
  intros Hwf Hm Hl E Hr Hw. pose proof (tstep_equiv _ _ _ _ _ _ _ E) as Hg.
  destruct p; simpl in Hw; try done; simpl in E; repeat case_match; simplify_eq; simpl;
    rewrite ?elem_of_app; try (left; tauto); try (by apply elem_of_nil in Hw).
  - left. apply elem_of_cons in Hw as [->|Hw]; auto.
  - left. apply elem_of_cons in Hw as [->|Hw]; [left|by right]. split; [done|].
    destruct (equiv_counts _ _ z Hg) as (_ & _ & <-). apply signaled_in_all; [by rewrite <- Hg|done].
  - left. destruct Hw as [[-> Hk]|?]; [left|by right]. split; [done|]. right.
    unfold signaled_in, count_edges in Hk. simpl in Hk. lia.
  - left. destruct Hw as [[-> Hk]|?]; [left|by right]. split; [done|].
    rewrite (scan_ready gr' m); [done|done|]. apply Hl. constructor.
  - destruct Hw as [[-> Hk]|?]; [right|by left]. done.
  - destruct Hw as [[-> Hk]|?]; [|by left]. exfalso.
    match goal with H : _ || _ = false |- _ => apply orb_false_iff in H as [Ht Hs] end.
    apply Z.eqb_neq in Hs. destruct Hk; congruence.
Qed.

Lemma keep_end over n gr p gr' p' sig m :
  tstep over n gr p = Some (gr', p', sig) -> will_end p m ->
  will_end p' m \/ (sig = Some m /\ holds p n m).
Proof.
  intros E Hw. destruct p; simpl in Hw; try done; simpl in E; repeat case_match; simplify_eq; simpl;
    rewrite ?elem_of_app; destruct Hw as [Ht Hw]; try (left; tauto);
    try (by apply elem_of_nil in Hw).
  - left. apply elem_of_cons in Hw as [->|Hw]; auto.
  - congruence.
  - destruct Hw as [->|?]; [by right | by left].
  - match goal with H : _ || _ = false |- _ => rewrite Ht in H; done end.
Qed.

(** ** The invariant *)

(** Some thread is going to signal [m]. *)
Definition signal_due (c : conf) (m : Z) : Prop := exists t, will_signal (c_gr c) (pc c t) m.
Definition end_due (c : conf) (m : Z) : Prop := exists t, will_end (pc c t) m.

(** A thread that is about to wait, or waits, although its node is ready or
    exhausted, will be signalled; one still looking that has seen every edge
    ready so far will notice itself. *)
Definition good (c : conf) (m : Z) (p : tpc) : Prop :=
  let gr := c_gr c in
  match p with
  | Scan true l k kn =>
      (all_ready gr m ->
         k + signaled_in gr l = nr_in_signaled (gnode gr m) \/ signal_due c m) /\
      (quiet gr m -> kn = 0)
  | Test true k kn =>
      (all_ready gr m -> k = nr_in_signaled (gnode gr m) \/ signal_due c m) /\
      (quiet gr m -> kn = 0)
  | Sleep | Asleep => (all_ready gr m -> signal_due c m) /\ (exhausted gr m -> end_due c m)
  | _ => True
  end.

Record inv (c : conf) : Prop := {
  iv_wf : graph_wf (c_gr c);
  iv_mutex : mutex c;
  iv_lists : forall t, lists_ok (c_gr c) t (pc c t);
  iv_good : forall m, is_node (c_gr c) m -> good c m (pc c m)
}.

Lemma wakeup_initial c : initial c -> inv c.
Proof.
  intros []. split; [done| |intros t; by rewrite in_idle0|intros m _; by rewrite in_idle0].
  split; intros t; rewrite in_idle0; by intros ? []; intros.
Qed.

Lemma lists_ok_equiv gr gr' n p : gr ≡ gr' -> lists_ok gr n p -> lists_ok gr' n p.
Proof.
  intros Hg. destruct (equiv_counts gr gr' n Hg) as (_ & _ & En). destruct p; simpl; rewrite ?En; try done.
  by destruct (equiv_counts gr gr' c Hg) as (_ & _ & ->).
Qed.

Lemma tstep_lists over n gr p gr' p' sig :
  tstep over n gr p = Some (gr', p', sig) -> lists_ok gr n p -> lists_ok gr n p'.
Proof.
  intros E Hl. destruct p; simpl in E, Hl; repeat case_match; simplify_eq; simpl; try done;
    intros x Hx; apply Hl; by constructor.
Qed.

(** *** An access of the thread itself *)

Section Own.
Context (c : conf) (over : bool) (n : Z) (gr' : pgm_graph) (p' : tpc) (sig : option Z).
Context (Hi : inv c) (Hn : is_node (c_gr c) n) (Hroom : has_room (c_gr c) (pc c n)).
Context (E : tstep over n (c_gr c) (pc c n) = Some (gr', p', sig)).
#[local] Abbreviation c' := (Conf gr' (ring_bell sig (<[n := p']> (c_pcs c)))).

Lemma others_due m t :
  t <> n -> will_signal (c_gr c) (pc c t) m -> will_signal (c_gr c') (pc c' t) m.
Proof.
  intros Ht Hw. destruct (access_pc c n gr' p' sig t) as [->|(_ & Ha & _)];
    rewrite decide_False in * by done.
  - by apply (will_signal_equiv (c_gr c)); [apply (tstep_equiv _ _ _ _ _ _ _ E)|].
  - by rewrite Ha in Hw.
Qed.

Lemma others_end m t : t <> n -> will_end (pc c t) m -> will_end (pc c' t) m.
Proof.
  intros Ht Hw. destruct (access_pc c n gr' p' sig t) as [->|(_ & Ha & _)];
    rewrite decide_False in * by done; [done|]. by rewrite Ha in Hw.
Qed.

(** A thread that signals nobody does not matter to what is due. *)
Lemma own_due m : (forall gr, ~ will_signal gr (pc c n) m) -> signal_due c m -> signal_due c' m.
Proof.
  intros Hno [t Ht]. exists t. apply others_due; [|done]. intros ->. by apply Hno in Ht.
Qed.

Lemma own_end m : ~ will_end (pc c n) m -> end_due c m -> end_due c' m.
Proof. intros Hno [t Ht]. exists t. apply others_end; [|done]. by intros ->. Qed.

End Own.

(** A scan that begins has everything before it. *)
Lemma good_locked gr pcs n :
  graph_wf gr -> is_node gr n ->
  good (Conf (hold_lock n true gr) pcs) n (Scan true (in_list (gnode gr n)) 0 0).
Proof.
  intros Hwf Hn. split; [|done]. intros _. left. simpl.
  destruct (equiv_counts _ _ n (hold_lock_equiv n true gr)) as (_ & _ & <-).
  apply signaled_in_all; [by rewrite <- hold_lock_equiv|done].
Qed.

Lemma good_own c over n gr' p' sig :
  inv c -> is_node (c_gr c) n -> tstep over n (c_gr c) (pc c n) = Some (gr', p', sig) ->
  good (Conf gr' (ring_bell sig (<[n := p']> (c_pcs c)))) n p'.
Proof.
  intros Hi Hn E. pose proof (iv_good c Hi n Hn) as Hg. pose proof (iv_lists c Hi n) as Hl.
  pose proof (own_due c over n gr' p' sig E n) as Hdue. pose proof (own_end c n gr' p' sig n) as Hend.
  destruct (pc c n) as [|[] [|e l] k kn|[] k kn| | | | |[]|[]|? []|? []|? []|? ? []| | |] eqn:Ep;
    simpl in E; try (repeat case_match; simplify_eq; done);
    try (specialize (Hdue ltac:(by intros ? []))); try (specialize (Hend ltac:(by intros []))).
  - (* the scan is over *)
    injection E as <- <- <-. simpl in *. destruct Hg as [Hr Hq]. split; [|done].
    intros Ha. destruct (Hr Ha) as [Hk|?]; [left|right; by apply Hdue].
    unfold signaled_in, count_edges in Hk. simpl in Hk. lia.
  - (* one more edge *)
    injection E as <- <- <-. simpl in *. destruct Hg as [Hr Hq].
    assert (He : e ∈ in_list (gnode (c_gr c) n)) by (apply Hl; constructor). split.
    + intros Ha. rewrite (scan_ready _ n) by done.
      destruct (Hr Ha) as [?|?]; [by left|right; by apply Hdue].
    + intros Hqn. rewrite (Hqn e He), (Hq Hqn). done.
  - (* the tests *)
    destruct Hg as [Hr Hq]. simpl in *.
    destruct (Z.eqb_spec k (nr_in_signaled (gnode (c_gr c) n))) as [|Hk]; [by simplify_eq|].
    destruct (_ && _) eqn:Et; [by simplify_eq|]. injection E as <- <- <-. split.
    + intros Ha. destruct (Hr Ha) as [?|?]; [done|by apply Hdue].
    + intros Hx. exfalso. pose proof (Hq (exhausted_quiet _ _ Hx)) as ->.
      destruct Hx as (_ & Ht & Htot). simpl in *.
      apply andb_false_iff in Et as [Et%negb_false_iff%Z.eqb_eq|Et%Z.eqb_neq]; done.
  - (* a lock taken *)
    destruct (n_lock _); [done|]. injection E as <- <- <-. by apply good_locked; [apply iv_wf|].
  - (* the wait *)
    injection E as <- <- <-. simpl in *. rewrite hold_lock_ready, hold_lock_exhausted.
    destruct Hg. split; auto.
  - destruct (n_lock _); [done|]. injection E as <- <- <-. by apply good_locked; [apply iv_wf|].
Qed.

(** *** An access of another thread *)

Section OtherThread.
Context (c : conf) (over : bool) (n m : Z) (gr' : pgm_graph) (p' : tpc) (sig : option Z).
Context (Hi : inv c) (Hn : is_node (c_gr c) n) (Hm : is_node (c_gr c) m) (Hne : n <> m).
Context (Hroom : has_room (c_gr c) (pc c n)).
Context (E : tstep over n (c_gr c) (pc c n) = Some (gr', p', sig)).
#[local] Abbreviation c' := (Conf gr' (ring_bell sig (<[n := p']> (c_pcs c)))).

(** The mover's own place, as far as wake-ups it owes are concerned. *)
Lemma mover_due : will_signal gr' p' m -> signal_due c' m.
Proof.
  intros Hw. exists n. destruct (access_pc c n gr' p' sig n) as [->|(_ & Ha & _)];
    rewrite decide_True in * by done; [done|]. by rewrite Ha in Hw.
Qed.

Lemma mover_end : will_end p' m -> end_due c' m.
Proof.
  intros Hw. exists n. destruct (access_pc c n gr' p' sig n) as [->|(_ & Ha & _)];
    rewrite decide_True in * by done; [done|]. by rewrite Ha in Hw.
Qed.

(** The signal reaches a thread that sleeps, and nobody can send it while that
    thread holds the lock. *)
Lemma signal_arrives :
  (holds (pc c m) m m \/ pc c m = Asleep) -> sig = Some m -> holds (pc c n) n m ->
  pc c' m = Woken.
Proof.
  intros [Hh|Ha] Hs Hhn.
  - by destruct (Hne (mx_one c (iv_mutex c Hi) n m m Hhn Hh)).
  - unfold pc. simpl. rewrite Hs. simpl. rewrite cell_insert_ne by done.
    change (cell (c_pcs c) m) with (pc c m). rewrite Ha. by rewrite cell_insert_eq.
Qed.

Lemma due_kept :
  (holds (pc c m) m m \/ pc c m = Asleep) -> all_ready gr' m -> signal_due c m ->
  signal_due c' m \/ pc c' m = Woken.
Proof.
  intros Hh Hr [t Ht]. destruct (decide (t = n)) as [->|Htn].
  - destruct (keep_signal _ _ _ _ _ _ _ m (iv_wf c Hi) Hm (iv_lists c Hi n) E Hr Ht) as [?|[? ?]].
    + left. by apply mover_due.
    + right. by apply signal_arrives.
  - left. exists t. by apply (others_due c over).
Qed.

Lemma end_kept :
  (holds (pc c m) m m \/ pc c m = Asleep) -> end_due c m -> end_due c' m \/ pc c' m = Woken.
Proof.
  intros Hh [t Ht]. destruct (decide (t = n)) as [->|Htn].
  - destruct (keep_end _ _ _ _ _ _ _ m E Ht) as [?|[? ?]]; [left; by apply mover_end|].
    right. by apply signal_arrives.
  - left. exists t. by apply others_end.
Qed.

Lemma good_other : good c' m (pc c' m).
Proof.
  destruct (access_pc c n gr' p' sig m) as [Epc|(_ & _ & ->)]; [|done].
  rewrite decide_False in Epc by done. rewrite Epc.
  pose proof (iv_good c Hi m Hm) as Hg. pose proof (iv_lists c Hi n) as Hl.
  pose proof (iv_wf c Hi) as Hwf. pose proof (tstep_equiv _ _ _ _ _ _ _ E) as Heq.
  destruct (equiv_counts (c_gr c) gr' m Heq) as (Es & _ & _).
  assert (Hready : (holds (pc c m) m m \/ pc c m = Asleep) -> pc c m <> Woken ->
    all_ready gr' m -> signal_due c' m \/ (all_ready (c_gr c) m /\ (signal_due c m -> signal_due c' m))).
  { intros Hh Hw Hr.
    destruct (flip_ready over n m (c_gr c) gr' (pc c n) p' sig Hwf Hn Hm Hne Hl E Hr) as [?|?];
      [right|left; by apply mover_due]. split; [done|]. intros Hd.
    destruct (due_kept Hh Hr Hd) as [?|Hwk]; [done|]. congruence. }
  assert (Hexh : (holds (pc c m) m m \/ pc c m = Asleep) -> pc c m <> Woken ->
    exhausted gr' m -> end_due c' m \/ (exhausted (c_gr c) m /\ (end_due c m -> end_due c' m))).
  { intros Hh Hw Hx.
    destruct (flip_exhausted over n m (c_gr c) gr' (pc c n) p' sig Hwf Hn Hm Hne Hl E Hroom Hx) as [?|?];
      [right|left; by apply mover_end]. split; [done|]. intros Hd.
    destruct (end_kept Hh Hd) as [?|Hwk]; [done|]. congruence. }
  pose proof (flip_quiet over n m (c_gr c) gr' (pc c n) p' sig Hwf Hn Hm Hne Hl E Hroom) as Hquiet.
  destruct (pc c m) as [|[] l k kn|[] k kn| | | | | | | | | | | | |]; try done;
    specialize (Hready ltac:(first [by left | by right]) ltac:(done));
    specialize (Hexh ltac:(first [by left | by right]) ltac:(done));
    simpl in Hg |- *; destruct Hg as [Hr Hq]; split; try (by intros ?; apply Hq, Hquiet);
    intros Ha.
  - destruct (Hready Ha) as [?|[Ha' Hd]]; [by right|].
    destruct (Hr Ha') as [Hk|?]; [left|right; auto]. rewrite Es, <- Hk. unfold signaled_in.
    by rewrite (count_edges_equiv (c_gr c) gr' _ _ Heq).
  - destruct (Hready Ha) as [?|[Ha' Hd]]; [by right|]. rewrite Es.
    destruct (Hr Ha') as [?|?]; [by left|right; auto].
  - destruct (Hready Ha) as [?|[Ha' Hd]]; auto.
  - destruct (Hexh Ha) as [?|[Ha' Hd]]; auto.
  - destruct (Hready Ha) as [?|[Ha' Hd]]; auto.
  - destruct (Hexh Ha) as [?|[Ha' Hd]]; auto.
Qed.

End OtherThread.

(** *** Every step *)

Lemma wakeup_step_equiv c c' : step c c' -> c_gr c ≡ c_gr c'.
Proof. intros []; [by eapply tstep_equiv|done|done]. Qed.

(** A step of [n] that touches no graph and owes no wake-up. *)
Lemma good_idle c n p m :
  inv c -> is_node (c_gr c) m -> n <> m -> (forall m, ~ will_signal (c_gr c) (pc c n) m) ->
  (forall m, ~ will_end (pc c n) m) ->
  good (Conf (c_gr c) (<[n := p]> (c_pcs c))) m (pc c m).
Proof.
  intros Hi Hm Hne Hs He. pose proof (iv_good c Hi m Hm) as Hg.
  set (c' := Conf (c_gr c) (<[n := p]> (c_pcs c))).
  assert (Hpc : forall t, t <> n -> pc c' t = pc c t)
    by (intros t Ht; unfold pc, c'; simpl; by rewrite cell_insert_ne).
  assert (Hd : signal_due c m -> signal_due c' m).
  { intros [t Ht]. exists t. rewrite Hpc; [done|]. intros ->. by apply Hs in Ht. }
  assert (Hd' : end_due c m -> end_due c' m).
  { intros [t Ht]. exists t. rewrite Hpc; [done|]. intros ->. by apply He in Ht. }
  destruct (pc c m) as [|[] ? ? ?|[] ? ?| | | | | | | | | | | | |]; try done;
    simpl in *; naive_solver.
Qed.

Lemma wakeup_step c c' : inv c -> step c c' -> inv c'.
Proof.
  intros Hi Hs. pose proof (wakeup_step_equiv c c' Hs) as Heq. pose proof (step_mutex _ _ (iv_mutex c Hi) Hs) as Hmx.
  assert (Hwf : graph_wf (c_gr c')) by (rewrite <- Heq; apply Hi).
  destruct (equiv_sizes _ _ Heq) as [En _].
  destruct Hs as [c n over gr' p' sig Hn Hroom Hov E | c n p Hn Hid Hst | c n Ha]; simpl in *.
  - split; [done|done| |].
    + intros t. apply (lists_ok_equiv (c_gr c)); [done|].
      destruct (access_pc c n gr' p' sig t) as [->|(_ & _ & ->)]; [|done].
      case_decide; [subst|apply Hi]. eapply tstep_lists; [done|apply Hi].
    + intros m Hm. assert (Hm' : is_node (c_gr c) m) by (unfold is_node in *; by rewrite En).
      destruct (decide (n = m)) as [<-|Hne]; [|by apply (good_other c over)].
      destruct (access_pc c n gr' p' sig n) as [->|(_ & _ & ->)]; [|done].
      rewrite decide_True by done. by apply (good_own c over).
  - assert (Hp : pc (Conf (c_gr c) (<[n := p]> (c_pcs c))) n = p)
      by (unfold pc; simpl; apply cell_insert_eq).
    split; [done|done| |]; simpl.
    + intros t. destruct (decide (t = n)) as [->|Ht].
      * rewrite Hp. destruct Hst as [[_ ->]|[->| ->]]; simpl; auto.
      * unfold pc. simpl. rewrite cell_insert_ne by done. apply Hi.
    + intros m Hm. destruct (decide (n = m)) as [<-|Hne].
      * rewrite Hp. destruct Hst as [[_ ->]|[->| ->]]; done.
      * unfold pc at 1. simpl. rewrite cell_insert_ne by done. apply good_idle; try done;
          intros; rewrite Hid; by intros [].
  - assert (Hp : pc (Conf (c_gr c) (<[n := Woken]> (c_pcs c))) n = Woken)
      by (unfold pc; simpl; apply cell_insert_eq).
    split; [done|done| |]; simpl.
    + intros t. destruct (decide (t = n)) as [->|Ht]; [by rewrite Hp|].
      unfold pc. simpl. rewrite cell_insert_ne by done. apply Hi.
    + intros m Hm. destruct (decide (n = m)) as [<-|Hne]; [by rewrite Hp|].
      unfold pc at 1. simpl. rewrite cell_insert_ne by done. apply good_idle; try done;
        intros; rewrite Ha; by intros [].
Qed.

Lemma wakeup_reachable c0 c : initial c0 -> rtc step c0 c -> inv c.
Proof.
  intros H0 Hs. apply wakeup_initial in H0. induction Hs as [|c c1 c2 H1 _ IH]; [done|].
  apply IH. by eapply wakeup_step.
Qed.

(** What it means that a node is not ready, and not at its end. *)
Lemma not_ready_edge gr n :
  ~ all_ready gr n -> exists e, e ∈ in_list (gnode gr n) /\ is_signal_driven (gedge gr e) = true /\
    edge_ready (gedge gr e) = false.
Proof.
  intros Hr. destruct (decide (Exists (fun e => is_signal_driven (gedge gr e) && negb (edge_ready (gedge gr e)) = true)
    (in_list (gnode gr n)))) as [(e & He & Hb)%Exists_exists|Hno].
  - apply andb_true_iff in Hb as [Hs Hb%negb_true_iff]. eauto.
  - destruct Hr. intros e He Hs. destruct (edge_ready (gedge gr e)) eqn:E; [done|].
    destruct Hno. apply Exists_exists. exists e. by rewrite Hs, E.
Qed.

Lemma not_exhausted_node gr n :
  ~ exhausted gr n -> (exists e, e ∈ in_list (gnode gr n) /\ ready_normal (gedge gr e) = true) \/
    nr_terminate_signals (gnode gr n) = 0 \/
    nr_terminate_signals (gnode gr n) <> nr_in_signaled (gnode gr n) - nr_in_signaled_backedges (gnode gr n).
Proof.
  intros Hx. destruct (decide (Exists (fun e => ready_normal (gedge gr e) = true) (in_list (gnode gr n))))
    as [(e & He & Hb)%Exists_exists|Hno]; [left; eauto|right].
  destruct (decide (nr_terminate_signals (gnode gr n) = 0)) as [|Ht]; [by left|right].
  intros E. apply Hx. split; [|done]. apply count_edges_zero. intros e He.
  destruct (ready_normal (gedge gr e)) eqn:Er; [|done]. destruct Hno. apply Exists_exists. eauto.
Qed.


(** ** A run *)

(** The threads, in the order given, make one access each; a thread between
    calls enters [pgm_wait] if its node has signalled inbound edges, and
    [pgm_complete] otherwise. *)
Definition room_b (gr : pgm_graph) (p : tpc) : bool :=
  match p with
  | Send _ (e :: _) _ =>
      (0 <=? nr_pending (gedge gr e)) && (0 <=? nr_produce (e_attr (gedge gr e))) &&
      (nr_pending (gedge gr e) + nr_produce (e_attr (gedge gr e)) <? 2 ^ 64)
  | _ => true
  end.

Definition next_conf (n : Z) (c : conf) : option conf :=
  let gr := c_gr c in
  if negb (in_range (nr_nodes gr) n && room_b gr (pc c n)) then None
  else match tstep true n gr (pc c n), pc c n with
  | Some (gr', p', sig), _ => Some (Conf gr' (ring_bell sig (<[n := p']> (c_pcs c))))
  | None, Idle =>
      Some (Conf gr (<[n := if nr_in_signaled (gnode gr n) =? 0
                            then Send PGM_NORMAL (out_list (gnode gr n)) []
                            else Scan false (in_list (gnode gr n)) 0 0]> (c_pcs c)))
  | None, _ => None
  end.

Fixpoint run (sched : list Z) (c : conf) : option conf :=
  match sched with
  | [] => Some c
  | n :: sched => match next_conf n c with Some c' => run sched c' | None => None end
  end.

Lemma next_conf_step n c c' : next_conf n c = Some c' -> step c c'.
Proof.
  unfold next_conf. cbv zeta. destruct (_ && _) eqn:Eb; [|done]. cbn [negb].
  apply andb_true_iff in Eb as [Hn%in_range_spec Hroom].
  destruct (tstep _ _ _) as [[[gr' p'] sig]|] eqn:E.
  - intros [= <-]. apply (step_access c n true); [done| |done|done]. unfold has_room, room_b in *.
    destruct (pc c n); try done. destruct l; [done|]. bool_to_prop. lia.
  - destruct (pc c n) eqn:Ep; try done. intros [= <-]. apply step_call; [done|done|]. unfold starts.
    destruct (Z.eqb_spec (nr_in_signaled (gnode (c_gr c) n)) 0); auto.
Qed.

Lemma run_steps sched c c' : run sched c = Some c' -> rtc step c c'.
Proof.
  revert c. induction sched as [|n sched IH]; intros c; simpl; [by intros [= ->]|].
  destruct (next_conf n c) as [c1|] eqn:E; [|done]. intros Hr.
  eapply rtc_l; [by eapply next_conf_step | by apply IH].
Qed.

Definition demo_conf : conf := Conf demo_chain ∅.

Lemma demo_conf_initial : initial demo_conf.
Proof.
  split; [apply demo_chain_wf|done|]. intros m [Hm0 Hm1].
  change (nr_nodes (c_gr demo_conf)) with 2 in Hm1.
  assert (m = 0 \/ m = 1) as [->| ->] by lia; by vm_compute.
Qed.

(** "b" looks for tokens and goes to sleep; "a" enters [pgm_complete] and has
    produced its token. *)
Definition demo_sched : list Z := replicate 9 1 ++ [0; 0].

Lemma demo_run :
  (fun c => (pc c 1, in_list (gnode (c_gr c) 1), edge_ready (gedge (c_gr c) 0), nr_nodes (c_gr c)))
    <$> run demo_sched demo_conf = Some (Asleep, [0], true, 2).
Proof. by vm_compute. Qed.


End Wakeup.
