(* ===== verification/Alone.v ===== *)
(** * The threads of Wakeup and the calls of Tokens

    The accesses into which [Wakeup] takes the calls apart, made by one thread
    while the others do nothing, have the effect of the calls as [Tokens] has
    them: the same outcome, the same tokens, the same signals.  So the two models of
    these calls, by whole calls and by single accesses, agree. *)

From S2P Require Import Prelude Ring Types Sys Structure Memory Ipc GraphInit GraphWf Teardown Query Search Lookup Ownership Stream Tokens Firing Wakeup.

Module Alone.
Import Types Sys Structure GraphInit GraphWf Query Search Lookup Ownership Stream Tokens Firing Wakeup.
#[local] Open Scope Z_scope.

(** The thread of node [n] on its own; the list records whom it signals. *)
Inductive tmoves (n : Z) : pgm_graph -> tpc -> list Z -> pgm_graph -> tpc -> Prop :=
| tm_done gr p : tmoves n gr p [] gr p
| tm_access gr p gr1 p1 sig l gr' p' :
    tstep true n gr p = Some (gr1, p1, sig) -> tmoves n gr1 p1 l gr' p' ->
    tmoves n gr p (option_list sig ++ l) gr' p'.

Lemma tm_quiet n gr p gr1 p1 l gr' p' :
  tstep true n gr p = Some (gr1, p1, None) -> tmoves n gr1 p1 l gr' p' -> tmoves n gr p l gr' p'.
Proof. intros E Hm. exact (tm_access n gr p gr1 p1 None l gr' p' E Hm). Qed.

Lemma tm_app n gr p l gr1 p1 l' gr' p' :
  tmoves n gr p l gr1 p1 -> tmoves n gr1 p1 l' gr' p' -> tmoves n gr p (l ++ l') gr' p'.
Proof.
  induction 1 as [|gr p gr2 p2 sig l gr1 p1 E _ IH]; intros Hm; [done|].
  rewrite <- app_assoc. eapply tm_access; eauto.
Qed.

(** Graphs that differ in nothing a thread can see. *)
Definition same_graph (gr gr' : pgm_graph) : Prop :=
  (forall e, gedge gr' e = gedge gr e) /\ (forall i, gnode gr' i = gnode gr i).

(** ** The loops *)

Lemma scan_moves n gr b l k kn :
  tmoves n gr (Scan b l k kn) [] gr
    (Test b (k + count_edges gr edge_ready l) (kn + count_edges gr ready_normal l)).
Proof.
  revert k kn. induction l as [|e l IH]; intros k kn.
  - eapply tm_quiet; [done|]. unfold count_edges. simpl. rewrite !Z.add_0_r. constructor.
  - eapply tm_quiet; [done|]. rewrite !count_edges_cons, !Z.add_assoc. apply IH.
Qed.

Lemma wake_scan_moves n gr cmd c l k w :
  tmoves n gr (WakeScan cmd c l k w) [] gr (WakeTest cmd c (k + count_edges gr edge_ready l) w).
Proof.
  revert k. induction l as [|e l IH]; intros k.
  - eapply tm_quiet; [done|]. unfold count_edges. simpl. rewrite Z.add_0_r. constructor.
  - eapply tm_quiet; [done|]. rewrite count_edges_cons, Z.add_assoc. apply IH.
Qed.

Lemma edges_mapped_nil f gr : edges_mapped f [] gr gr.
Proof. split; [by destruct gr|]. intros e. by rewrite decide_False by apply not_elem_of_nil. Qed.

Lemma eat_moves n gr l :
  NoDup l -> exists gr', tmoves n gr (Eat l) [] gr' (Skip false (in_list (gnode gr n))) /\
    edges_mapped take_tokens l gr gr'.
Proof.
  revert gr. induction l as [|e l IH]; intros gr Hnd.
  { exists gr. split; [eapply tm_quiet; [done|constructor]|apply edges_mapped_nil]. }
  apply NoDup_cons in Hnd as [He Hnd]. destruct (IH (at_edge e take_tokens gr) Hnd) as (gr' & Hm & Hmap).
  exists gr'. split; [by eapply tm_quiet|].
  eapply edges_mapped_cons; [done|apply edges_mapped_one|done].
Qed.

Lemma skip_moves n gr last l :
  NoDup l -> exists gr', tmoves n gr (Skip last l) [] gr'
    (if last then Send PGM_TERMINATE (out_list (gnode gr n)) [] else Idle) /\ edges_mapped take_skip l gr gr'.
Proof.
  revert gr. induction l as [|e l IH]; intros gr Hnd.
  { exists gr. split; [eapply tm_quiet; [done|constructor]|apply edges_mapped_nil]. }
  apply NoDup_cons in Hnd as [He Hnd]. destruct (IH (at_edge e take_skip gr) Hnd) as (gr' & Hm & Hmap).
  exists gr'. split; [by eapply tm_quiet|].
  eapply edges_mapped_cons; [done|apply edges_mapped_one|done].
Qed.

Lemma send_moves n gr l w :
  NoDup l -> (forall e, e ∈ l -> is_signal_driven (gedge gr e) = true) ->
  exists gr', tmoves n gr (Send PGM_NORMAL l w) [] gr' (Wake PGM_NORMAL (w ++ woken gr l)) /\
    edges_mapped add_tokens l gr gr'.
Proof.
  revert gr w. induction l as [|e l IH]; intros gr w Hnd Hs.
  { exists gr. rewrite app_nil_r.
    split; [eapply tm_quiet; [done|constructor]|apply edges_mapped_nil]. }
  apply NoDup_cons in Hnd as [He Hnd]. set (gr1 := at_edge e add_tokens gr).
  assert (Hold : forall x, x ∈ l -> gedge gr1 x = gedge gr x).
  { intros x Hx. unfold gr1. rewrite gedge_at. rewrite decide_False; [done|]. by intros ->. }
  destruct (IH gr1 (if crosses (gedge gr e) then w ++ [e_consumer (gedge gr e)] else w) Hnd)
    as (gr' & Hm & Hmap).
  { intros x Hx. rewrite Hold by done. apply Hs. by constructor. }
  exists gr'. split; [|eapply edges_mapped_cons; [done|apply edges_mapped_one|done]].
  eapply tm_quiet; [simpl; by rewrite Hs by constructor|]. fold gr1.
  rewrite woken_cons, <- (woken_ext gr1 gr) by done.
  destruct (crosses (gedge gr e)); [|done]. by rewrite <- app_assoc in Hm.
Qed.

(** *** Waking *)

Lemma same_graph_refl gr : same_graph gr gr.
Proof. done. Qed.

Lemma same_graph_trans gr gr1 gr2 : same_graph gr gr1 -> same_graph gr1 gr2 -> same_graph gr gr2.
Proof. intros [E1 N1] [E2 N2]. split; intros; [by rewrite E2, E1 | by rewrite N2, N1]. Qed.

Lemma relock_same c gr :
  n_lock (gnode gr c) = false -> same_graph gr (hold_lock c false (hold_lock c true gr)).
Proof.
  intros Hl. split; [done|]. intros i. rewrite !gnode_hold_lock. case_decide; [subst|done].
  destruct (gnode gr i). simpl in *. by subst.
Qed.

Lemma same_graph_ready gr gr' c : same_graph gr gr' -> ready_b gr' c = ready_b gr c.
Proof.
  intros [He Hn]. unfold ready_b. rewrite Hn. f_equal. apply count_edges_ext. intros e _. by rewrite He.
Qed.

Lemma wake_moves n gr w :
  (forall c, c ∈ w -> n_lock (gnode gr c) = false) ->
  exists gr', tmoves n gr (Wake PGM_NORMAL w) (filter (fun c => ready_b gr c = true) w) gr' Idle /\
    same_graph gr gr'.
Proof.
  revert gr. induction w as [|c w IH]; intros gr Hw.
  { exists gr. split; [|done]. eapply tm_quiet; [done|constructor]. }
  assert (Hl : n_lock (gnode gr c) = false) by (apply Hw; constructor).
  set (gr1 := hold_lock c false (hold_lock c true gr)).
  assert (S1 : same_graph gr gr1) by (by apply relock_same).
  destruct (IH gr1) as (gr' & Hm & S2).
  { intros d Hd. rewrite (proj2 S1). apply Hw. by constructor. }
  exists gr'. split; [|by eapply same_graph_trans].
  eapply tm_quiet; [simpl; by rewrite Hl|].
  change (filter (fun c => ready_b gr c = true) (c :: w)) with
    ([] ++ filter (fun c => ready_b gr c = true) (c :: w)).
  eapply tm_app; [apply wake_scan_moves|]. rewrite Z.add_0_l.
  replace (filter (fun c => ready_b gr c = true) (c :: w)) with
    (option_list (if ready_b gr c then Some c else None) ++ filter (fun c => ready_b gr1 c = true) w).
  - assert (Et : forall k, k = count_edges gr edge_ready (in_list (gnode gr c)) ->
      tstep true n (hold_lock c true gr) (WakeTest PGM_NORMAL c k w) =
      Some (hold_lock c true gr, WakeUnlock PGM_NORMAL c w, if ready_b gr c then Some c else None)).
    { intros k ->. unfold tstep. rewrite gnode_hold_lock, decide_True by done. done. }
    eapply tm_access; [by apply Et|]. eapply tm_quiet; [reflexivity|exact Hm].
  - rewrite filter_cons. rewrite (list_filter_iff _ (fun c => ready_b gr c = true))
      by (intros d; by rewrite (same_graph_ready gr gr1)).
    by destruct (ready_b gr c).
Qed.

(** *** Testing *)

(** Where the tests lead after a complete scan. *)
Definition verdict gr (n : Z) (b : bool) : tpc :=
  if ready_b gr n then if b then Unlock true else Eat (in_list (gnode gr n))
  else if bool_decide (exhausted gr n)
  then if b then Unlock false else Skip true (in_list (gnode gr n))
  else if b then Sleep else Lock.

Lemma look_moves n gr b :
  tmoves n gr (Scan b (in_list (gnode gr n)) 0 0) [] gr (verdict gr n b).
Proof.
  change (@nil Z) with (@nil Z ++ []). eapply tm_app; [apply scan_moves|].
  eapply tm_quiet; [reflexivity|]. cbv iota zeta.
  match goal with |- tmoves _ _ ?p _ _ _ => replace p with (verdict gr n b) end; [constructor|].
  rewrite !Z.add_0_l. unfold verdict, ready_b. destruct (_ =? nr_in_signaled _); [done|].
  assert (Ex : bool_decide (exhausted gr n) =
    (count_edges gr ready_normal (in_list (gnode gr n)) =? 0) &&
    negb (nr_terminate_signals (gnode gr n) =? 0) &&
    (nr_terminate_signals (gnode gr n) =?
       nr_in_signaled (gnode gr n) - nr_in_signaled_backedges (gnode gr n))); [|by rewrite Ex].
  apply eq_iff_eq_true. rewrite bool_decide_eq_true. unfold exhausted.
  rewrite !andb_true_iff, negb_true_iff, !Z.eqb_eq, Z.eqb_neq. tauto.
Qed.

Lemma ready_b_spec gr n :
  graph_wf gr -> is_node gr n -> ready_b gr n = true <-> all_ready gr n.
Proof. intros Hwf Hn. unfold ready_b. rewrite Z.eqb_eq. by apply count_ready. Qed.

(** A thread that finds nothing goes to sleep and leaves everything as it was. *)
Lemma sleep_moves n gr :
  n_lock (gnode gr n) = false -> ready_b gr n = false -> ~ exhausted gr n ->
  exists gr', tmoves n gr (Scan false (in_list (gnode gr n)) 0 0) [] gr' Asleep /\ same_graph gr gr'.
Proof.
  intros Hl Hr Hx. set (gr1 := hold_lock n true gr).
  assert (Hr1 : ready_b gr1 n = false).
  { rewrite <- Hr. unfold ready_b, gr1. by rewrite gnode_hold_lock, decide_True. }
  assert (Hx1 : ~ exhausted gr1 n) by (unfold gr1; by rewrite hold_lock_exhausted).
  exists (hold_lock n false gr1). split; [|by apply relock_same].
  change (@nil Z) with (@nil Z ++ []). eapply tm_app; [apply look_moves|]. unfold verdict.
  rewrite Hr, bool_decide_eq_false_2 by done.
  eapply tm_quiet; [simpl; rewrite Hl; reflexivity|]. fold gr1.
  replace (in_list (gnode gr n)) with (in_list (gnode gr1 n))
    by (unfold gr1; by rewrite gnode_hold_lock, decide_True).
  change (@nil Z) with (@nil Z ++ []). eapply tm_app; [apply look_moves|]. unfold verdict.
  rewrite Hr1, bool_decide_eq_false_2 by done.
  eapply tm_quiet; [reflexivity|constructor].
Qed.

(** Two graphs made by applying the same function to the same edges. *)
Lemma mapped_same f l gr gr1 gr2 :
  edges_mapped f l gr gr1 -> edges_mapped f l gr gr2 -> same_graph gr1 gr2.
Proof.
  intros M1 M2. split.
  - intros e. by rewrite (em_edge _ _ _ _ M1), (em_edge _ _ _ _ M2).
  - intros i. by rewrite (edges_mapped_node _ _ _ _ _ M1), (edges_mapped_node _ _ _ _ _ M2).
Qed.

(** How often [i] is in a list of signals. *)
Definition times (i : Z) (l : list Z) : Z := Z.of_nat (List.length (filter (fun c => c = i) l)).

Lemma times_ready gr w i : times i (filter (fun c => ready_b gr c = true) w) = bells gr w i.
Proof.
  unfold times, bells. rewrite list_filter_filter. destruct (ready_b gr i) eqn:Er.
  - do 2 f_equal. apply list_filter_iff. naive_solver.
  - rewrite (list_filter_iff _ (fun _ => False)); [|intros x; split; [intros [-> Hx]; congruence|done]].
    by induction w.
Qed.

Lemma same_bells gr gr' w i : same_graph gr gr' -> bells gr' w i = bells gr w i.
Proof. intros Hs. unfold bells. by rewrite (same_graph_ready gr gr'). Qed.

Section Calls.
Context {W : Type} `{Syscalls W} (rounds fuel : nat).
Context (s : pgm_state W) (g : Z) (gr : pgm_graph) (n : Z).
Context (Hg : has_graph s g gr) (Hu : in_use gr = true) (Hwf : graph_wf gr) (Hn : is_node gr n).

Lemma eat_skip_runs :
  exists gr1 gr2, tmoves n gr (Eat (in_list (gnode gr n))) [] gr1 Idle /\
    (pgm_consume_tokens g n ;; pgm_consume_skips g n) s = Ok (tt, put_graph g gr2 s) /\
    same_graph gr1 gr2.
Proof.
  pose proof (nw_in_nodup gr n (gw_node gr Hwf n Hn)) as Hnd.
  destruct (eat_moves n gr _ Hnd) as (ga & Ma & Ea).
  destruct (skip_moves n ga false _ Hnd) as (gb & Mb & Eb).
  destruct (consume_tokens_runs s g gr n Hg Hu Hwf Hn) as (gc & Rc & Ec).
  pose proof (edges_mapped_equiv _ _ _ _ take_tokens_skel Ec) as Heq.
  destruct (consume_skips_runs (put_graph g gc s) g gc n) as (gd & Rd & Ed).
  { by eapply has_graph_put. }
  { rewrite <- Hu. by rewrite (em_rest _ _ _ _ Ec). }
  { by rewrite <- Heq. }
  { unfold is_node. by destruct (equiv_sizes _ _ Heq) as [<- _]. }
  exists gb, gd. split; [|split].
  - change (@nil Z) with (@nil Z ++ []). by eapply tm_app.
  - rewrite (bind_step _ _ _ _ _ Rc), Rd. by rewrite put_put.
  - rewrite (edges_mapped_node _ _ _ _ n Ec) in Ed.
    apply (mapped_same (fun e => take_skip (take_tokens e)) (in_list (gnode gr n)) gr);
      [eapply edges_mapped_trans; [exact Ea|exact Eb]|eapply edges_mapped_trans; [exact Ec|exact Ed]].
Qed.

(** The accesses that the thread of a node makes for [pgm_wait] in the
    interleaved model are the call: alone, the thread ends with the tokens and
    skips of [pgm_consume_tokens] and [pgm_consume_skips] taken exactly if
    [pgm_wait_for_tokens] returns success, has taken the skips and goes on to
    terminate exactly if that reports the end, and is asleep, with nothing changed,
    exactly if the call blocks. *)
Theorem thread_waits_like_the_call (Hl : n_lock (gnode gr n) = false) :
  let start := Scan false (in_list (gnode gr n)) 0 0 in
  (pgm_wait_for_tokens g n s = Ok (WaitSuccess, s) /\
     exists gr1 gr2, tmoves n gr start [] gr1 Idle /\
       (pgm_consume_tokens g n ;; pgm_consume_skips g n) s = Ok (tt, put_graph g gr2 s) /\
       same_graph gr1 gr2) \/
  (pgm_wait_for_tokens g n s = Ok (WaitExhaustedAndTerminate, s) /\
     exists gr1 gr2, tmoves n gr start [] gr1 (Send PGM_TERMINATE (out_list (gnode gr n)) []) /\
       pgm_consume_skips g n s = Ok (tt, put_graph g gr2 s) /\ same_graph gr1 gr2) \/
  (pgm_wait_for_tokens g n s = Fault Blocks /\
     exists gr', tmoves n gr start [] gr' Asleep /\ same_graph gr gr').
Proof.
  cbv zeta. pose proof (look_moves n gr false) as Hlook. unfold verdict in Hlook.
  pose proof (ready_b_spec gr n Hwf Hn) as Hspec. destruct (ready_b gr n) eqn:Er.
  - left. split; [apply (wait_tokens_ready s g gr); tauto|].
    destruct eat_skip_runs as (gr1 & gr2 & Hm & Hrun & Hsame). exists gr1, gr2.
    split; [|done]. change (@nil Z) with (@nil Z ++ []). by eapply tm_app.
  - assert (Hr : ~ all_ready gr n) by (rewrite <- Hspec; done). right.
    destruct (decide (exhausted gr n)) as [Hx|Hx]; [left|right].
    + split; [by apply (wait_tokens_exhausted s g gr)|].
      rewrite bool_decide_eq_true_2 in Hlook by done.
      pose proof (nw_in_nodup gr n (gw_node gr Hwf n Hn)) as Hnd.
      destruct (skip_moves n gr true _ Hnd) as (ga & Ma & Ea).
      destruct (consume_skips_runs s g gr n Hg Hu Hwf Hn) as (gb & Rb & Eb).
      exists ga, gb. split; [|split; [done|by eapply mapped_same]].
      change (@nil Z) with (@nil Z ++ []). by eapply tm_app.
    + split; [by apply (wait_tokens_blocks s g gr)|]. by apply sleep_moves.
Qed.

(** And its accesses for [pgm_complete] are that call, where the outbound edges pass
    tokens only and no node is locked: alone, the thread adds the same tokens to the
    same edges, leaves locks as they were, and signals every node exactly as often as
    [pgm_complete] does. *)
Theorem thread_completes_like_the_call
    (Hlocks : forall c, is_node gr c -> n_lock (gnode gr c) = false)
    (Htok : forall e, e ∈ out_list (gnode gr n) -> tokens_only (gedge gr e)) :
  exists gr1 sigs gr2,
    tmoves n gr (Send PGM_NORMAL (out_list (gnode gr n)) []) sigs gr1 Idle /\
    pgm_complete fuel (Node_t g n) s = Ok (0, put_graph g gr2 s) /\
    (forall e, gedge gr2 e = gedge gr1 e) /\
    (forall i, gnode gr2 i = (gnode gr1 i) <| n_wait ::= fun k => k + times i sigs |>).
Proof.
  pose proof (gw_nodes gr Hwf). destruct (gw_node gr Hwf n Hn) as [_ _ _ Hnd _ Hoe _ _ _ _ _].
  assert (Hr : 0 <= n < PGM_MAX_NODES) by (unfold is_node in Hn; lia).
  destruct (send_moves n gr _ [] Hnd) as (ga & Ma & Ea); [intros e He; by apply Htok|].
  destruct (produce_loop fuel s g gr n (upto (nr_out (gnode gr n))) false [] Hg Hu Hwf Hn)
    as (gb & Rb & Eb); [done|intros i; apply elem_of_upto|done|].
  fold (out_list (gnode gr n)) in Rb, Eb.
  pose proof (edges_mapped_equiv add_tokens _ _ _ ltac:(done) Eb) as Heq.
  assert (Hw : forall c, c ∈ woken gr (out_list (gnode gr n)) -> is_node gr c).
  { intros c (e & He & _ & <-)%elem_of_woken. by apply Hoe in He as (_ & _ & ? & _). }
  assert (Same : same_graph ga gb) by (by eapply mapped_same).
  destruct (wake_moves n ga (woken gr (out_list (gnode gr n)))) as (gc & Mc & Sc).
  { intros c Hc. rewrite (edges_mapped_node _ _ _ _ c Ea). auto. }
  destruct (wake_loop (put_graph g gb s) g gb (woken gr (out_list (gnode gr n))))
    as (gd & Rd & Sd).
  { by eapply has_graph_put. }
  { rewrite <- Hu. by rewrite (em_rest _ _ _ _ Eb). }
  { by rewrite <- Heq. }
  { intros c Hc. unfold is_node. destruct (equiv_sizes _ _ Heq) as [<- _].
    rewrite (edges_mapped_node _ _ _ _ c Eb). split; [by apply Hw|]. by apply Hlocks, Hw. }
  exists gc, (filter (fun c => ready_b ga c = true) (woken gr (out_list (gnode gr n)))), gd.
  split_and!.
  - change (filter _ _) with ([] ++ filter (fun c => ready_b ga c = true) (woken gr (out_list (gnode gr n)))).
    by eapply tm_app.
  - unfold pgm_complete, pgm_produce. simpl. st_step. fold (gnode gr n).
    rewrite (bind_step _ _ _ _ _ Rb). simpl. rewrite (bind_step _ _ _ _ _ Rd). by rewrite put_put.
  - intros e. destruct Sd as [-> _]. rewrite (proj1 Sc). apply (proj1 Same).
  - intros i. rewrite times_ready, <- (same_bells ga gb) by done.
    rewrite (sg_node _ _ _ Sd), (proj2 Sc). by rewrite (proj2 Same).
Qed.

End Calls.

(** ** On a concrete graph *)

Lemma thread_waits_alone :
  pgm_wait_for_tokens 0 1 (demo_state demo_chain) = Fault Blocks /\
  exists gr', tmoves 1 demo_chain (Scan false [0] 0 0) [] gr' Asleep.
Proof.
  destruct (thread_waits_like_the_call (demo_state demo_chain) 0 demo_chain 1
    demo_chain_state eq_refl demo_chain_wf ltac:(done) ltac:(by vm_compute))
    as [[E _]|[[E _]|[E (gr' & Hm & _)]]]; [by vm_compute in E|by vm_compute in E|].
  split; [exact E|]. exists gr'. exact Hm.
Defined.

Lemma thread_completes_alone :
  exists gr1 sigs gr2,
    tmoves 0 demo_chain (Send PGM_NORMAL [0] []) sigs gr1 Idle /\
    pgm_complete 0 (Node_t 0 0) (demo_state demo_chain) =
      Ok (0, put_graph 0 gr2 (demo_state demo_chain)).
Proof.
  destruct (thread_completes_like_the_call 0 (demo_state demo_chain) 0 demo_chain 0
    demo_chain_state eq_refl demo_chain_wf ltac:(done)) as (gr1 & sigs & gr2 & Hm & E & _).
  - intros c [Hc0 Hc1]. change (nr_nodes demo_chain) with 2 in Hc1.
    assert (c = 0 \/ c = 1) as [->| ->] by lia; by vm_compute.
  - intros e He. change (out_list _) with [0] in He. apply list_elem_of_singleton in He as ->. done.
  - exists gr1, sigs, gr2. split; [exact Hm|exact E].
Defined.

End Alone.
