(* ===== verification/Api.v ===== *)
(** * Any sequence of calls

    The calls of pgm.h that create, change or use graphs, as one type, and the
    invariant they all keep: every graph slot of the process is well formed.
    The theorems about single calls assume a well-formed graph; this one shows
    that no sequence of calls leaves that set of states. *)

From S2P Require Import Prelude Ring Types Sys Structure Memory Ipc GraphInit GraphWf Teardown Query Search Lookup Ownership Stream Tokens Startup Double Depth Print.
From Stdlib Require Import Ascii.

Module Api.
Import Types Sys Structure Memory Ipc GraphInit GraphWf Query Search Lookup Ownership Stream Tokens Startup Double Depth Print.
#[local] Open Scope Z_scope.

(** ** The interface

    The declarations of pgm.h: the parameters of each call and what it gives
    back.  An output parameter is an argument, its value on entry or whether a
    pointer was passed, and part of the result.  The depth queries are the calls
    without a weight function of the caller's. *)
Inductive api : Type -> Type :=
| Init_process_local : api Z
| Init (dir : string) (create use_shared_mem : bool) : api Z
| Destroy : api Z
| Init_graph (graph : Z) (graph_name : list ascii) : api (Z * Z)
| Init_graph_num (graph numerical_name : Z) : api (Z * Z)
| Print_graph (graph : Z) : api (Z * list ascii)
| Destroy_graph (graph : Z) : api Z
| Init_node (node : option node_t) (graph : Z) (name : list ascii) : api (Z * option node_t)
| Init_node_num (node : option node_t) (graph numerical_name : Z) : api (Z * option node_t)
| Init_edge (edge : option edge_t) (producer consumer : node_t) (name : list ascii)
    (attrs : edge_attr_t) : api (Z * option edge_t)
| Init_edge_num (edge : option edge_t) (producer consumer : node_t) (numerical_name : Z)
    (attrs : edge_attr_t) : api (Z * option edge_t)
| Init_backedge (edge : option edge_t) (nr_skips : Z) (producer consumer : node_t)
    (name : list ascii) (attrs : edge_attr_t) : api (Z * option edge_t)
| Init_backedge_num (edge : option edge_t) (nskips : Z) (producer consumer : node_t)
    (numerical_name : Z) (attrs : edge_attr_t) : api (Z * option edge_t)
| Find_graph (graph : Z) (name : list ascii) : api (Z * Z)
| Find_graph_num (graph numerical_name : Z) : api (Z * Z)
| Find_node (node : option node_t) (graph : Z) (name : list ascii) : api (Z * option node_t)
| Find_node_num (node : option node_t) (graph numerical_name : Z) : api (Z * option node_t)
| Find_edge (edge : option edge_t) (producer consumer : node_t) (name : option (list ascii))
    (want_attrs : bool) : api (Z * option edge_t * option edge_attr_t)
| Find_edge_num (edge : option edge_t) (producer consumer : node_t) (numerical_name : Z)
    (want_attrs : bool) : api (Z * option edge_t * option edge_attr_t)
| Find_first_edge (edge : option edge_t) (producer consumer : node_t) (want_attrs : bool)
    : api (Z * option edge_t * option edge_attr_t)
| Set_user_data (node : node_t) (udata : Z) : api Z
| Get_user_data (node : node_t) : api Z
| Get_successors (n : node_t) (successors : bool) (len : Z) (ignore_backedges : bool)
    : api (Z * list node_t)
| Get_edges_out (n : node_t) (edges : bool) (len : Z) (ignore_backedges : bool)
    : api (Z * list edge_t)
| Get_predecessors (n : node_t) (predecessors : bool) (len : Z) (ignore_backedges : bool)
    : api (Z * list node_t)
| Get_edges_in (n : node_t) (edges : bool) (len : Z) (ignore_backedges : bool)
    : api (Z * list edge_t)
| Get_degree (node : node_t) (ignore_backedges : bool) : api Z
| Get_degree_in (node : node_t) (ignore_backedges : bool) : api Z
| Get_degree_out (node : node_t) (ignore_backedges : bool) : api Z
| Get_name (node : node_t) : api (option (list ascii))
| Get_producer (edge : edge_t) : api node_t
| Get_consumer (edge : edge_t) : api node_t
| Get_edge_attrs (edge : edge_t) (want_attrs : bool) : api (Z * option edge_attr_t)
| Is_backedge (backedge : edge_t) : api Z
| Get_nr_skips_remaining (backedge : edge_t) : api Z
| Get_nr_produce (edge : edge_t) : api Z
| Get_nr_consume (edge : edge_t) : api Z
| Get_nr_threshold (edge : edge_t) : api Z
| Is_child (node query : node_t) : api Z
| Is_parent (node query : node_t) : api Z
| Is_ancestor (node query : node_t) : api Z
| Is_descendant (node query : node_t) : api Z
| Is_dag (graph : Z) (ignore_explicit_backedges : bool) : api Z
| Get_min_depth (node : node_t) : api double
| Get_max_depth (node : node_t) : api double
| Claim_node (node : node_t) (tid : Z) : api Z
| Claim_any_node (graph : Z) (node : option node_t) (tid : Z) : api (Z * option node_t)
| Release_node (node : node_t) (tid : Z) : api Z
| Wait (node : node_t) : api Z
| Complete (node : node_t) : api Z
| Terminate (node : node_t) : api Z
| Malloc_edge_buf_p (edge : edge_t) : api Z
| Malloc_edge_buf_c (edge : edge_t) : api Z
| Free (buf : Z) : api unit
| Get_edge_buf_p (edge : edge_t) : api Z
| Get_edge_buf_c (edge : edge_t) : api Z
| Get_edge_from_buf (buf : Z) : api edge_t
| Is_buf_in_use (buf : Z) : api Z
| Swap_edge_buf_p (edge : edge_t) (buf : Z) : api Z
| Swap_edge_buf_c (edge : edge_t) (buf : Z) : api Z
| Swap_edge_bufs (a b : Z) : api Z.

(** A program that uses the library: it may choose each call by what the calls
    before it returned. *)
Inductive client : Type :=
| Done
| Call {A} (c : api A) (k : A -> client).

Section Api.
Context {W : Type} `{Syscalls W} `{Filesystem W} `{Boost}.
(** Bounds on how often the loops run: retries to open a FIFO, rounds of
    waiting for data, transfers on one edge. *)
Context (max_tries max_rounds max_moves : nat).
Implicit Types (s : pgm_state W).

Definition exec {A} (c : api A) : ST (pgm_state W) A :=
  match c with
  | Init_process_local => pgm_init_process_local
  | Init dir create use_shared_mem => pgm_init max_moves dir create use_shared_mem
  | Destroy => pgm_destroy
  | Init_graph graph name => pgm_init_graph graph name
  | Init_graph_num graph n => pgm_init_graph_num graph n
  | Print_graph graph => pgm_print_graph graph
  | Destroy_graph graph => pgm_destroy_graph graph
  | Init_node node graph name => pgm_init_node node graph name
  | Init_node_num node graph n => pgm_init_node_num node graph n
  | Init_edge edge p c name a => pgm_init_edge edge p c name a
  | Init_edge_num edge p c n a => pgm_init_edge_num edge p c n a
  | Init_backedge edge skips p c name a => pgm_init_backedge edge skips p c name a
  | Init_backedge_num edge skips p c n a => pgm_init_backedge_num edge skips p c n a
  | Find_graph graph name => pgm_find_graph graph name
  | Find_graph_num graph n => pgm_find_graph_num graph n
  | Find_node node graph name => pgm_find_node node graph name
  | Find_node_num node graph n => pgm_find_node_num node graph n
  | Find_edge edge p c name w => pgm_find_edge edge p c name w
  | Find_edge_num edge p c n w => pgm_find_edge_num edge p c n w
  | Find_first_edge edge p c w => pgm_find_first_edge edge p c w
  | Set_user_data node u => pgm_set_user_data node u
  | Get_user_data node => pgm_get_user_data node
  | Get_successors n l len ign => pgm_get_successors n l len ign
  | Get_edges_out n l len ign => pgm_get_edges_out n l len ign
  | Get_predecessors n l len ign => pgm_get_predecessors n l len ign
  | Get_edges_in n l len ign => pgm_get_edges_in n l len ign
  | Get_degree n ign => pgm_get_degree n ign
  | Get_degree_in n ign => pgm_get_degree_in n ign
  | Get_degree_out n ign => pgm_get_degree_out n ign
  | Get_name n => pgm_get_name n
  | Get_producer e => pgm_get_producer e
  | Get_consumer e => pgm_get_consumer e
  | Get_edge_attrs e w => pgm_get_edge_attrs e w
  | Is_backedge e => pgm_is_backedge e
  | Get_nr_skips_remaining e => pgn_get_nr_skips_remaining e
  | Get_nr_produce e => pgm_get_nr_produce e
  | Get_nr_consume e => pgm_get_nr_consume e
  | Get_nr_threshold e => pgm_get_nr_threshold e
  | Is_child n q => pgm_is_child n q
  | Is_parent n q => pgm_is_parent n q
  | Is_ancestor n q => pgm_is_ancestor n q
  | Is_descendant n q => pgm_is_descendant n q
  | Is_dag graph ign => pgm_is_dag graph ign
  | Get_min_depth node => pgm_get_min_depth node None
  | Get_max_depth node => pgm_get_max_depth node None
  | Claim_node node tid => pgm_claim_node max_tries node tid
  | Claim_any_node graph node tid => pgm_claim_any_node max_tries graph node tid
  | Release_node node tid => pgm_release_node node tid
  | Wait node => pgm_wait max_rounds max_moves node
  | Complete node => pgm_complete max_moves node
  | Terminate node => pgm_terminate max_moves node
  | Malloc_edge_buf_p e => pgm_malloc_edge_buf_p e
  | Malloc_edge_buf_c e => pgm_malloc_edge_buf_c e
  | Free b => pgm_free b
  | Get_edge_buf_p e => pgm_get_edge_buf_p e
  | Get_edge_buf_c e => pgm_get_edge_buf_c e
  | Get_edge_from_buf b => pgm_get_edge_from_buf b
  | Is_buf_in_use b => pgm_is_buf_in_use b
  | Swap_edge_buf_p e b => pgm_swap_edge_buf_p e b
  | Swap_edge_buf_c e b => pgm_swap_edge_buf_c e b
  | Swap_edge_bufs a b => pgm_swap_edge_bufs a b
  end.

Fixpoint run (p : client) : ST (pgm_state W) unit :=
  match p with
  | Done => mret tt
  | Call c k => a ← exec c; run (k a)
  end.

(** ** The invariant *)

Definition all_wf s : Prop :=
  forall m g, gGraphs s = Some m -> 0 <= g < PGM_MAX_GRAPHS -> graph_wf (cell m g).

(** Whatever the call returns, the invariant holds afterwards. *)
Definition keeps_wf {A} (m : ST (pgm_state W) A) : Prop :=
  forall s a s', all_wf s -> m s = Ok (a, s') -> all_wf s'.

Lemma kw_pure {A} (m : ST (pgm_state W) A) :
  (forall s a s', m s = Ok (a, s') -> gGraphs s' = gGraphs s) -> keeps_wf m.
Proof. intros Hm s a s' Hs E k g. rewrite (Hm _ _ _ E). apply Hs. Qed.

Lemma kw_ret {A} (a : A) : keeps_wf (mret a).
Proof. apply kw_pure. by intros s b s' [= _ <-]. Qed.
Lemma kw_fail {A} f : keeps_wf (A := A) (fail f).
Proof. by intros s a s'. Qed.
Lemma kw_get : keeps_wf get.
Proof. apply kw_pure. by intros s a s' [= _ <-]. Qed.
Lemma kw_lift {A} (o : outcome A) : keeps_wf (lift o).
Proof. apply kw_pure. intros s a s' E. unfold lift in E. destruct o; by simplify_eq. Qed.
Lemma kw_modify f : (forall s, gGraphs (f s) = gGraphs s) -> keeps_wf (modify f).
Proof. intros Hf. apply kw_pure. by intros s a s' [= _ <-]. Qed.
Lemma kw_sys {A} (call : W -> A * W) : keeps_wf (sys call).
Proof.
  apply kw_pure. intros s a s' E. unfold sys, mbind, ST_bind, get, put, mret, ST_ret in E.
  destruct (call (world s)). by simplify_eq.
Qed.

Lemma kw_bind {A B} (m : ST (pgm_state W) A) (k : A -> ST (pgm_state W) B) :
  keeps_wf m -> (forall a, keeps_wf (k a)) -> keeps_wf (m ≫= k).
Proof. intros Hm Hk s b s' Hs (a & s1 & E1 & E2)%st_bind_ok. eapply Hk, E2. by eapply Hm. Qed.

Lemma rd_graph_ok g s v s' :
  rd_graph g s = Ok (v, s') ->
  s' = s /\ exists m, gGraphs s = Some m /\ 0 <= g < PGM_MAX_GRAPHS /\ v = cell m g.
Proof.
  unfold rd_graph. unfold mbind, ST_bind, get, lift, deref. destruct (gGraphs s) as [m|] eqn:Em; [|done].
  destruct (aget _ _ _) eqn:Ea; [|done]. intros [= -> <-]. apply aget_inv in Ea as [Hr ->]. eauto.
Qed.

Lemma kw_rd_graph g : keeps_wf (rd_graph g).
Proof. apply kw_pure. by intros s a s' [-> _]%rd_graph_ok. Qed.
Lemma kw_rd_node g n : keeps_wf (rd_node g n).
Proof. apply kw_bind; [apply kw_rd_graph|]. intros v. apply kw_lift. Qed.
Lemma kw_rd_edge g e : keeps_wf (rd_edge g e).
Proof. apply kw_bind; [apply kw_rd_graph|]. intros v. apply kw_lift. Qed.

Lemma wr_graph_wf g v s u s' : all_wf s -> graph_wf v -> wr_graph g v s = Ok (u, s') -> all_wf s'.
Proof.
  intros Hs Hv. unfold wr_graph. unfold mbind, ST_bind, get, lift, deref, put.
  destruct (gGraphs s) as [m|] eqn:Em; [|done]. unfold aset.
  destruct (in_range _ _) eqn:Er; [|done]. intros [= <- <-] m' h. simpl. intros [= <-] Hh.
  rewrite cell_insert. case_decide; [done|]. by eapply Hs.
Qed.

(** Changing a graph after reading it. *)
Lemma kw_change {A} g (k : pgm_graph -> ST (pgm_state W) A) :
  (forall v s a s', graph_wf v -> all_wf s -> k v s = Ok (a, s') -> all_wf s') ->
  keeps_wf (rd_graph g ≫= k).
Proof.
  intros Hk s a s' Hs (v & s1 & E1 & E2)%st_bind_ok.
  apply rd_graph_ok in E1 as (-> & m & Em & Hg & ->). eapply Hk, E2; [by eapply Hs|done].
Qed.

Lemma graph_wf_name gr f : graph_wf gr -> graph_wf (gr <| g_name ::= f |>).
Proof. intros []. split; [done..| |done]. intros i Hi. destruct (gw_node0 i Hi). by split. Qed.

Lemma kw_upd_graph g f : (forall v, graph_wf v -> graph_wf (f v)) -> keeps_wf (upd_graph g f).
Proof. intros Hf. apply kw_change. intros v s a s' Hv Hs. apply wr_graph_wf; auto. Qed.

Lemma kw_mutex_lock g : keeps_wf (mutex_lock g).
Proof.
  apply kw_change. intros v s a s' Hv Hs. destruct (g_lock v); [done|].
  apply wr_graph_wf; [done|]. by apply graph_wf_lock.
Qed.
Lemma kw_mutex_unlock g : keeps_wf (mutex_unlock g).
Proof. apply kw_upd_graph. intros v. apply graph_wf_lock. Qed.

Lemma kw_upd_node g n f : (forall x, node_skel (f x) = node_skel x) -> keeps_wf (upd_node g n f).
Proof.
  intros Hf. apply kw_change. intros v s a s' Hv Hs (x & s1 & E1 & E2)%st_bind_ok.
  unfold lift, node_of in E1. destruct (aget _ _ _) as [y|] eqn:Ea; [|done].
  apply aget_inv in Ea as [Hr ->]. injection E1 as <- <-. eapply wr_graph_wf, E2; [done|].
  eapply graph_wf_proper, Hv. split; [done|]. split; [|done]. intros i. simpl.
  rewrite cell_insert. case_decide; [by subst|done].
Qed.

Lemma kw_upd_edge g e f : (forall x, edge_skel (f x) = edge_skel x) -> keeps_wf (upd_edge g e f).
Proof.
  intros Hf. apply kw_change. intros v s a s' Hv Hs (x & s1 & E1 & E2)%st_bind_ok.
  unfold lift, edge_of in E1. destruct (aget _ _ _) as [y|] eqn:Ea; [|done].
  apply aget_inv in Ea as [Hr ->]. injection E1 as <- <-. eapply wr_graph_wf, E2; [done|].
  eapply graph_wf_proper, Hv. split; [done|]. split; [done|]. intros i. simpl.
  rewrite cell_insert. case_decide; [by subst|done].
Qed.

Lemma kw_for_each {A} (l : list A) body : (forall x, keeps_wf (body x)) -> keeps_wf (for_each l body).
Proof. intros Hb. induction l as [|x l IH]; [apply kw_ret|]. apply kw_bind; auto. Qed.
Lemma kw_for_acc {A B} (l : list A) (acc : B) body :
  (forall x b, keeps_wf (body x b)) -> keeps_wf (for_acc l acc body).
Proof. intros Hb. revert acc. induction l as [|x l IH]; intros acc; [apply kw_ret|]. apply kw_bind; auto. Qed.
Lemma kw_for_break {A B} (l : list A) (body : A -> ST (pgm_state W) (option B)) :
  (forall x, keeps_wf (body x)) -> keeps_wf (for_break l body).
Proof.
  intros Hb. induction l as [|x l IH]; [apply kw_ret|]. apply kw_bind; [auto|].
  intros []; [apply kw_ret|done].
Qed.

(** ** Every call keeps it

    [kwf] splits a call into its parts: the accesses above, branches, and the
    functions it calls, which it unfolds. *)

Create HintDb api_wf.
#[local] Hint Resolve kw_ret kw_fail kw_get kw_lift kw_sys kw_rd_graph kw_rd_node kw_rd_edge
  kw_mutex_lock kw_mutex_unlock : api_wf.

#[local] Ltac unfold_call m :=
  match m with ?f _ => unfold_call f | _ => unfold m end.

#[local] Ltac kwf :=
  repeat first
    [ solve [eauto 1 with api_wf nocore]
    | match goal with
      | |- keeps_wf (modify _) => apply kw_modify; intros ?; reflexivity
      | |- keeps_wf (upd_node _ _ _) => apply kw_upd_node; intros ?; reflexivity
      | |- keeps_wf (upd_edge _ _ _) => apply kw_upd_edge; intros ?; repeat case_match; reflexivity
      | |- keeps_wf (upd_graph _ _) => apply kw_upd_graph; intros ? ?
      | |- keeps_wf (_ ≫= _) => apply kw_bind; [|intros ?]
      | |- keeps_wf (for_each _ _) => apply kw_for_each; intros ?
      | |- keeps_wf (for_acc _ _ _) => apply kw_for_acc; intros ? ?
      | |- keeps_wf (for_break _ _) => apply kw_for_break; intros ?
      | |- keeps_wf (match ?x with _ => _ end) => destruct x
      | |- keeps_wf (let _ := _ in _) => cbv zeta
      | |- keeps_wf ?m => progress unfold_call m
      end ].

Lemma kw_fifo_open_loop fuel path t g e : keeps_wf (fifo_open_loop fuel path t g e).
Proof. induction fuel; simpl; kwf. Qed.
Lemma kw_connect_loop l : keeps_wf (connect_loop l).
Proof. induction l; simpl; kwf. Qed.
Lemma kw_bind_loop l : keeps_wf (bind_loop l).
Proof. induction l; simpl; kwf. Qed.
#[local] Hint Resolve kw_fifo_open_loop kw_connect_loop kw_bind_loop : api_wf.

Lemma kw_ops_init o g p c e : keeps_wf (ops_init o g p c e).
Proof. destruct o; simpl; kwf. Qed.

Lemma kw_ops_open_consumer o g p c e : keeps_wf (ops_open_consumer o g p c e).
Proof. destruct o; simpl; kwf. Qed.
Lemma kw_ops_open_producer fuel o g p c e : keeps_wf (ops_open_producer fuel o g p c e).
Proof. destruct o; simpl; kwf. Qed.
Lemma kw_ops_close_consumer o g e : keeps_wf (ops_close_consumer o g e).
Proof. destruct o; simpl; kwf. Qed.
Lemma kw_ops_close_producer o g e : keeps_wf (ops_close_producer o g e).
Proof. destruct o; simpl; kwf. Qed.
Lemma kw_ops_destroy o g p c e : keeps_wf (ops_destroy o g p c e).
Proof. destruct o; simpl; kwf. Qed.
#[local] Hint Resolve kw_ops_init kw_ops_open_consumer kw_ops_open_producer kw_ops_close_consumer
  kw_ops_close_producer kw_ops_destroy : api_wf.

Lemma kw_ops_read o g x n : keeps_wf (ops_read o g x n).
Proof. destruct o; simpl; kwf. Qed.
Lemma kw_ops_write o g x bs : keeps_wf (ops_write o g x bs).
Proof. destruct o; simpl; kwf. Qed.
#[local] Hint Resolve kw_ops_read kw_ops_write : api_wf.

Lemma kw_send_loop fuel g x buf sz : keeps_wf (send_loop fuel g x buf sz).
Proof. revert buf sz. induction fuel; intros; simpl; kwf. Qed.
Lemma kw_wait_for_data fuel g n st w : keeps_wf (wait_for_data fuel g n st w).
Proof. revert st w. induction fuel; intros; simpl; kwf. Qed.
Lemma kw_read_more fuel g n x a d : keeps_wf (read_more fuel g n x a d).
Proof. revert a d. induction fuel; intros; simpl; kwf. Qed.
#[local] Hint Resolve kw_send_loop kw_wait_for_data kw_read_more : api_wf.

Lemma kw_read_edges fuel g n idx d : keeps_wf (read_edges fuel g n idx d).
Proof. revert d. induction idx; intros; simpl; kwf. Qed.
Lemma kw_wait_loop rounds fuel g n w st : keeps_wf (wait_loop rounds fuel g n w st).
Proof. revert w st. induction rounds; intros; simpl; kwf. Qed.
#[local] Hint Resolve kw_read_edges kw_wait_loop : api_wf.
Lemma kw_recv_rounds rounds fuel g n k w d st : keeps_wf (recv_rounds rounds fuel g n k w d st).
Proof. revert w d st. induction rounds; intros; simpl; kwf. Qed.
#[local] Hint Resolve kw_recv_rounds : api_wf.

(** ** The calls that create and destroy *)

Lemma all_wf_lookup s g gr : all_wf s -> has_graph s g gr -> graph_wf gr.
Proof. intros Hs (Hg & m & Em & <-). by eapply Hs. Qed.

Lemma all_wf_one s s' g gr gr' :
  all_wf s -> has_graph s g gr -> graph_wf gr' -> has_graph s' g gr' ->
  (forall k x, k <> g -> has_graph s k x -> has_graph s' k x) -> all_wf s'.
Proof.
  intros Hs (_ & m0 & Em0 & _) Hwf Hg Ho m k Em Hk. destruct (decide (k = g)) as [->|Hne].
  - destruct Hg as (_ & m' & Em' & <-). by simplify_eq.
  - assert (Hk0 : has_graph s k (cell m0 k)) by (split; eauto).
    destruct (Ho k _ Hne Hk0) as (_ & m' & Em' & E'). simplify_eq. rewrite E'. by eapply Hs.
Qed.

Lemma kw_init_process_local : keeps_wf pgm_init_process_local.
Proof.
  intros s a s' Hs (x & s1 & [= <- <-] & E)%st_bind_ok. revert E.
  destruct (gGraphs s) as [m|]; [by intros [= _ <-]|].
  intros (ok & s1 & E1 & E2)%st_bind_ok. apply kw_sys in E1; [|done].
  destruct ok; [|injection E2 as _ <-; done].
  injection E2 as _ <-. intros m k. simpl. intros [= <-] Hg. apply zeroed_graph_wf.
Qed.

Lemma kw_destroy : keeps_wf pgm_destroy.
Proof.
  intros s a s' Hs (x & s1 & [= <- <-] & E)%st_bind_ok. revert E.
  destruct (gGraphSharedMem s), (gIsGraphMaster s), (gGraphs s); intros E;
    injection E as _ <-; (exact Hs || by intros ? ?).
Qed.

Lemma kw_init_graph h name : keeps_wf (pgm_init_graph h name).
Proof.
  kwf; [by apply empty_graph_wf.. | by apply graph_wf_name].
Qed.

Lemma kw_destroy_graph g : keeps_wf (pgm_destroy_graph g).
Proof.
  kwf. match goal with Hv : graph_wf _ |- _ => destruct Hv end.
  split; simpl; intros; try done; lia.
Qed.

Lemma is_valid_graph_ok g s b s' :
  is_valid_graph g s = Ok (b, s') ->
  s' = s /\ (b = true -> exists gr, has_graph s g gr /\ in_use gr = true).
Proof.
  unfold is_valid_graph. intros (x & s1 & [= <- <-] & E)%st_bind_ok. revert E.
  destruct (gGraphs s) as [m|] eqn:Em; [|by intros [= <- <-]].
  destruct (is_valid_handle g); [|by intros [= <- <-]].
  intros (v & s1 & (-> & m' & Em' & Hg & ->)%rd_graph_ok & [= <- <-])%st_bind_ok.
  split; [done|]. intros Hu. exists (cell m' g). split; [|done]. split; [done|]. eauto.
Qed.

Lemma mutex_lock_ok g s u s' gr :
  has_graph s g gr -> mutex_lock g s = Ok (u, s') -> g_lock gr = false.
Proof.
  intros Hg (v & s1 & E & E2)%st_bind_ok. rewrite (rd_graph_at s g gr) in E by done.
  injection E as <- <-. by destruct (g_lock gr).
Qed.

Lemma kw_init_node o g name : keeps_wf (pgm_init_node o g name).
Proof.
  intros s r s' Hs E. destruct o as [h|]; [|by injection E as _ <-].
  pose proof E as (ok & s1 & [-> Hok]%is_valid_graph_ok & (x & s1' & [= <- <-] & E1)%st_bind_ok)%st_bind_ok.
  destruct ok; [|by injection E1 as _ <-]. destruct (Hok eq_refl) as (gr & Hg & Hu). simpl in E1.
  destruct (gIsGraphMaster s) eqn:Hm; [|by injection E1 as _ <-]. simpl in E1.
  destruct (bad_name_len _ _); [by injection E1 as _ <-|].
  apply st_bind_ok in E1 as (u & s1 & El & _). apply (mutex_lock_ok _ _ _ _ gr) in El; [|done].
  pose proof (all_wf_lookup s g gr Hs Hg) as Hwf.
  rewrite (pgm_init_node_runs s g gr) in E by (done || apply (gw_nodes gr Hwf)).
  destruct (_ || _) eqn:Eb; injection E as _ <-; [done|]. bool_to_prop.
  apply (all_wf_one s _ g gr (add_node name gr)); [done | done | by apply add_node_wf | by eapply has_graph_put |].
  intros k x Hne. by apply has_graph_put_ne.
Qed.

Lemma rd_node_negative s g gr n :
  has_graph s g gr -> n < 0 -> rd_node g n s = Fault OutOfBounds.
Proof.
  intros Hg Hn. unfold rd_node. rewrite (bind_step _ _ _ _ _ (rd_graph_at s g gr Hg)).
  unfold lift, node_of, aget, in_range.
  replace (0 <=? n) with false by (symmetry; apply Z.leb_gt; lia). done.
Qed.

(** A handle with a negative index: the call gives up or stops at the fault. *)
Lemma init_edge_negative s g gr h p c name attr backedge skips r s' :
  usable s g gr -> graph_wf gr -> p < 0 \/ c < 0 ->
  init_edge (Some h) (Node_t g p) (Node_t g c) name attr backedge skips s = Ok (r, s') ->
  s' = s \/ nr_edges gr + 1 <> PGM_MAX_EDGES /\ s' = put_graph g (count_edge_slot gr) s.
Proof.
  intros Hs Hwf Hneg. pose proof Hs as [Hg Hu Hl Hma]. unfold init_edge. simpl.
  rewrite Z.eqb_refl. simpl. st_step. rewrite Hu. st_step. rewrite Hma. simpl.
  destruct (bad_name_len _ _); [intros [= _ <-]; by left|].
  destruct (attr_rejected _); [intros [= _ <-]; by left|].
  st_step. st_step. simpl. destruct (Z.eqb_spec (nr_edges gr + 1) PGM_MAX_EDGES).
  { st_step. intros [= _ <-]. left. by rewrite put_unlock. }
  destruct (_ || _) eqn:Eb.
  { st_step. intros [= _ <-]. left. by rewrite put_unlock. }
  st_step. bool_to_prop. pose proof (gw_nodes gr Hwf).
  destruct (decide (0 <= p)).
  - st_step. destruct (_ =? _); [|].
    { st_step. intros [= _ <-]. right. split; [done|]. rewrite !put_put. f_equal. destruct gr; simpl in *; by subst. }
    erewrite bind_fault; [done|]. eapply rd_node_negative; [eauto with pgm_st | lia].
  - erewrite bind_fault; [done|]. eapply rd_node_negative; [eauto with pgm_st | lia].
Qed.

Lemma kw_init_edge o p c name attr backedge skips :
  keeps_wf (init_edge o p c name attr backedge skips).
Proof.
  intros s r s' Hs E. destruct o as [h|]; [|by injection E as _ <-].
  destruct p as [g p], c as [g' c]. pose proof E as E0. unfold init_edge in E0. simpl in E0.
  destruct (Z.eqb_spec g g') as [<-|]; [simpl in E0|by injection E0 as _ <-].
  apply st_bind_ok in E0 as (ok & s1 & [-> Hok]%is_valid_graph_ok & E1).
  apply st_bind_ok in E1 as (x & s1 & [= <- <-] & E1).
  destruct ok; [|by injection E1 as _ <-]. destruct (Hok eq_refl) as (gr & Hg & Hu). simpl in E1.
  destruct (gIsGraphMaster s) eqn:Hm; [|by injection E1 as _ <-]. simpl in E1.
  destruct (bad_name_len _ _); [by injection E1 as _ <-|].
  destruct (attr_rejected _); [by injection E1 as _ <-|].
  apply st_bind_ok in E1 as (u & s1 & El & _). apply (mutex_lock_ok _ _ _ _ gr) in El; [|done].
  pose proof (all_wf_lookup s g gr Hs Hg) as Hwf. assert (Hus : usable s g gr) by done.
  destruct (decide (0 <= p /\ 0 <= c)) as [[]|Hn].
  - destruct (init_edge_preserves_wf s g gr h p c name attr backedge skips r s') as (gr' & [Hg' _ _ _] & Hwf' & Ho);
      [done..|]. by apply (all_wf_one s _ g gr gr').
  - destruct (init_edge_negative s g gr h p c name attr backedge skips r s') as [->|[Hf ->]];
      [done | done | lia | done | done |].
    apply (all_wf_one s _ g gr (count_edge_slot gr)); [done..| | |].
    + by apply count_edge_slot_wf.
    + by eapply has_graph_put.
    + intros k x Hne. by apply has_graph_put_ne.
Qed.

#[local] Hint Resolve kw_init_process_local kw_destroy kw_init_graph kw_destroy_graph kw_init_node
  kw_init_edge : api_wf.

Lemma kw_throwing {A} (o : option A) : keeps_wf (throwing (W := W) o).
Proof. destruct o; simpl; kwf. Qed.
#[local] Hint Resolve kw_throwing : api_wf.

Lemma kw_looks {A} (f : W -> option A) : keeps_wf (looks f).
Proof. unfold looks. kwf. Qed.

Lemma kw_changes {A} (f : W -> option A * W) : keeps_wf (changes f).
Proof. unfold changes. kwf. Qed.
#[local] Hint Resolve kw_looks kw_changes : api_wf.

Lemma kw_create_dir n dir : keeps_wf (create_dir n dir).
Proof. induction n; simpl; kwf. Qed.
#[local] Hint Resolve kw_create_dir : api_wf.

Lemma kw_exec {A} (c : api A) : keeps_wf (exec c).
Proof. destruct c; simpl; kwf. Qed.

Lemma kw_run p : keeps_wf (run p).
Proof. induction p; [apply kw_ret|]. apply kw_bind; [apply kw_exec | done]. Qed.

(** C7. Whatever calls of the library a program makes from a fresh start, with
    arguments right or wrong, each chosen by what the ones before returned, and
    whatever the operating system answers: as long as its calls return (none does
    anything undefined, sleeps for ever, or retries more often than the given bounds),
    every graph is well formed.  Every node lists exactly the linked edges that it
    produces and consumes, both ends of an edge agree on it, the counters and the mask
    of every node describe its inbound edges, degrees and counts are in bounds, and a
    linked edge consumes no more than its threshold.  (Not that a failing call changes
    nothing: [pgm_init_edge] can leave a counted, unlinked edge slot behind.) *)
Theorem client_keeps_graphs_wf p s s' :
  gGraphs s = None -> run p s = Ok (tt, s') -> forall g gr, has_graph s' g gr -> graph_wf gr.
Proof.
  intros Hs E g gr. apply all_wf_lookup. eapply kw_run, E. intros m k Em. congruence.
Qed.

End Api.

(** ** A program *)

(** Two nodes and an edge, on which one token is sent and consumed, an edge to a
    node that does not exist, and the graph printed. *)
Definition demo_client : client :=
  Call Init_process_local (fun _ =>
  Call (Init_graph (-1) (lit "g")) (fun '(_, g) =>
  Call (Init_node (Some (Node_t 0 0)) g (lit "a")) (fun '(_, a) =>
  Call (Init_node (Some (Node_t 0 0)) g (lit "b")) (fun '(_, b) =>
  let a := default (Node_t 0 7) a in
  let b := default (Node_t 0 7) b in
  Call (Init_edge (Some (Edge_t 0 0)) a b (lit "e") default_edge) (fun _ =>
  Call (Init_edge (Some (Edge_t 0 0)) a (Node_t g 7) (lit "f") default_edge) (fun '(ret, _) =>
  if ret =? 0 then Done else
  Call (Claim_node a 1) (fun _ =>
  Call (Claim_node b 2) (fun _ =>
  Call (Complete a) (fun _ =>
  Call (Wait b) (fun _ =>
  Call (Print_graph g) (fun _ => Done))))))))))).

#[local] Existing Instance demo_fs.
#[local] Existing Instance slow_boost.

Lemma client_keeps_graphs_wf_witness :
  exists s' gr, run 9 9 9 demo_client demo_start = Ok (tt, s') /\ has_graph s' 0 gr /\
    nr_nodes gr = 2 /\ nr_edges gr = 1 /\ graph_wf gr.
Proof.
  destruct (run 9 9 9 demo_client demo_start) as [[[] s']|] eqn:E; [|vm_compute in E; discriminate].
  assert (Hs : exists m, gGraphs s' = Some m /\ nr_nodes (cell m 0) = 2 /\ nr_edges (cell m 0) = 1).
  { vm_compute in E. injection E as <-. eexists. split; [reflexivity|]. by vm_compute. }
  destruct Hs as (m & Em & Hn & He). exists s', (cell m 0).
  assert (Hg : has_graph s' 0 (cell m 0)).
  { clear -Em. split; [unfold PGM_MAX_GRAPHS; lia|]. exists m. by split. }
  split; [reflexivity|]. split; [exact Hg|]. split; [exact Hn|]. split; [exact He|].
  exact (client_keeps_graphs_wf 9 9 9 demo_client demo_start s' eq_refl E 0 (cell m 0) Hg).
Defined.

End Api.
