(* ===== verification/Driver.v ===== *)
(** * The driver's graph descriptions (tools/pgmrt.cpp)

    pgmrt builds a graph from its command line: a list of edges such as
    "a:b,b.2:c.1.3", arrival rates of the sources from which it works out the
    period of every node, and times, sizes and processors per node or edge.
    Strings are taken apart by Boost, which is a parameter here, as are its
    [gcd] and [lcm].  Exceptions are values; [CheckError] counts in the global
    [errors] and goes on, with whatever an uninitialised handle holds. *)

From S2P Require Import Prelude Ring Types Sys Structure GraphInit Query Double.
From Stdlib Require Import Ascii String SpecFloat.

Module Driver.
Import Types Sys Structure GraphInit Query Double.
#[local] Open Scope Z_scope.

(** ** The driver's state *)

Inductive exn :=
| Runtime_error (what : string)
| Bad_lexical_cast.

Record driver (W : Type) := Driver { lib : pgm_state W; errors : Z }.
Arguments Driver {W}.
Arguments lib {W}.
Arguments errors {W}.

#[global] Instance driver_eta {W} : Eta (driver W) := fun d => Driver (lib d) (errors d).

(** Code that may throw. *)
Definition DM (W A : Type) : Type := driver W -> outcome ((exn + A) * driver W).

#[global] Instance DM_ret {W} : MRet (DM W) := fun A a d => Ok (inr a, d).
#[global] Instance DM_bind {W} : MBind (DM W) := fun A B k m d =>
  match m d with
  | Ok (inr a, d') => k a d'
  | Ok (inl e, d') => Ok (inl e, d')
  | Fault f => Fault f
  end.

Definition throw {W A} (e : exn) : DM W A := fun d => Ok (inl e, d).
Definition dlift {W A} (o : outcome A) : DM W A := fun d =>
  match o with Ok a => Ok (inr a, d) | Fault f => Fault f end.

(** A call of the library. *)
Definition call {W A} (m : ST (pgm_state W) A) : DM W A := fun d =>
  match m (lib d) with Ok (a, s) => Ok (inr a, d <| lib := s |>) | Fault f => Fault f end.

Definition CheckError {W} (ret : Z) : DM W unit := fun d =>
  Ok (inr tt, if ret <? 0 then d <| errors ::= fun k => k + 1 |> else d).

Fixpoint loop {W A B} (l : list A) (acc : B) (body : A -> B -> DM W B) : DM W B :=
  match l with
  | [] => mret acc
  | x :: l => b ← body x acc; loop l b body
  end.

(** ** Boost *)

Class BoostText := {
  split : (ascii -> bool) -> string -> list string;
  lexical_cast_int : string -> option Z;
  lexical_cast_u64 : string -> option Z;
  lexical_cast_double : string -> option double;
  math_gcd : Z -> Z -> Z;
  math_lcm : Z -> Z -> Z
}.

Definition is_any_of (s : string) (c : ascii) : bool := bool_decide (c ∈ list_ascii_of_string s).

(** ** The ordered containers *)

(** [std::set<std::string>] in iteration order. *)
Fixpoint set_insert (x : string) (l : list string) : list string :=
  match l with
  | [] => [x]
  | y :: l' =>
      match String.compare x y with
      | Lt => x :: l
      | Eq => l
      | Gt => y :: set_insert x l'
      end
  end.

(** [std::map<node_t, A, node_compare>]: comparing nodes of two graphs fails an
    assertion. *)
Fixpoint node_map_set {A} (n : node_t) (v : A) (m : list (node_t * A))
    : outcome (list (node_t * A)) :=
  match m with
  | [] => Ok [(n, v)]
  | (k, w) :: m' =>
      if negb (nd_graph k =? nd_graph n) then Fault AssertFailure
      else if nd_node n <? nd_node k then Ok ((n, v) :: m)
      else if nd_node k <? nd_node n then m'' ← node_map_set n v m'; mret ((k, w) :: m'')
      else Ok ((k, v) :: m')
  end.

Fixpoint edge_map_set {A} (e : edge_t) (v : A) (m : list (edge_t * A))
    : outcome (list (edge_t * A)) :=
  match m with
  | [] => Ok [(e, v)]
  | (k, w) :: m' =>
      if negb (ed_graph k =? ed_graph e) then Fault AssertFailure
      else if ed_edge e <? ed_edge k then Ok ((e, v) :: m)
      else if ed_edge k <? ed_edge e then m'' ← edge_map_set e v m'; mret ((k, w) :: m'')
      else Ok ((k, v) :: m')
  end.

(** [v[i]] of a vector. *)
Definition at_index {A} (l : list A) (i : nat) : outcome A :=
  match l !! i with Some x => Ok x | None => Fault OutOfBounds end.

Definition make_edge_name (a b : string) : string := ("edge_" +:+ a +:+ "_" +:+ b)%string.

Section Code.
Context {W : Type} `{Syscalls W} `{BoostText}.
(** What an uninitialised [node_t] or [edge_t] holds. *)
Context (junk_node : node_t) (junk_edge : edge_t).

Definition cast_int (s : string) : DM W Z :=
  match lexical_cast_int s with Some z => mret z | None => throw Bad_lexical_cast end.
Definition cast_u64 (s : string) : DM W Z :=
  match lexical_cast_u64 s with Some z => mret z | None => throw Bad_lexical_cast end.
Definition cast_double (s : string) : DM W double :=
  match lexical_cast_double s with Some x => mret x | None => throw Bad_lexical_cast end.

(** [node_t n; CheckError(pgm_find_node(&n, g, name)); ... n ...] *)
Definition find_node (g : Z) (name : string) : DM W node_t :=
  '(ret, n) ← call (pgm_find_node (Some junk_node) g (lit name));
  CheckError ret ;;
  mret (default junk_node n).

Definition find_edge (p c : node_t) (name : string) : DM W edge_t :=
  '(ret, e, _) ← call (pgm_find_edge (Some junk_edge) p c (Some (lit name)) false);
  CheckError ret ;;
  mret (default junk_edge e).

(** [std::string(pgm_get_name(n))] *)
Definition name_string (n : node_t) : DM W string :=
  name ← call (pgm_get_name n);
  match name with
  | Some buf => dlift (std_string buf)
  | None => dlift (Fault NullDeref)
  end.

(** ** [parse_graph_description] *)

Definition node_names (desc : string) : DM W (list string) :=
  loop (split (fun c => is_any_of "," c || is_any_of ":" c) desc) [] (fun nStr nodeNames =>
    name ← dlift (at_index (split (is_any_of ".") nStr) 0);
    mret (set_insert name nodeNames)).

Definition add_named (g : Z) (nStr : string) (acc : gmap string node_t * list node_t)
    : DM W (gmap string node_t * list node_t) :=
  let '(nodeMap, nodes) := acc in
  '(ret, n) ← call (pgm_init_node (Some junk_node) g (lit nStr));
  CheckError ret ;;
  let n := default junk_node n in
  mret (match nodeMap !! nStr with Some _ => nodeMap | None => <[nStr := n]> nodeMap end,
        nodes ++ [n]).

Definition add_nodes (g : Z) (nodeNames : list string) (nodes : list node_t)
    : DM W (gmap string node_t * list node_t) :=
  loop nodeNames (∅, nodes) (add_named g).

(** [nodeMap[name]], which makes an entry of zeroes when there is none *)
Definition nodeMap_at (nodeMap : gmap string node_t) (name : string) : node_t :=
  default (Node_t 0 0) (nodeMap !! name).

(** The producer's half of an edge: its name and what it produces. *)
Definition parse_producer (s : string) : DM W (string * Z) :=
  let tokenDesc := split (is_any_of ".") s in
  if (1 <? List.length tokenDesc)%nat then
    if negb (List.length tokenDesc =? 2)%nat
    then throw (Runtime_error ("Invalid produce description: " +:+ s))
    else
      t ← dlift (at_index tokenDesc 1);
      nr_produce ← cast_int t;
      name ← dlift (at_index tokenDesc 0);
      mret (name, nr_produce)
  else mret (s, 1).

(** The consumer's half: its name, what it consumes, and its threshold. *)
Definition parse_consumer (s : string) : DM W (string * Z * Z) :=
  let tokenDesc := split (is_any_of ".") s in
  if (1 <? List.length tokenDesc)%nat then
    if (4 <? List.length tokenDesc)%nat
    then throw (Runtime_error ("Invalid consume description: " +:+ s))
    else
      t ← dlift (at_index tokenDesc 1);
      nr_consume ← cast_int t;
      nr_threshold ← (if (List.length tokenDesc =? 3)%nat
                      then t ← dlift (at_index tokenDesc 2); cast_int t
                      else mret 1);
      name ← dlift (at_index tokenDesc 0);
      mret (name, nr_consume, nr_threshold)
  else mret (s, 1, 1).

Definition add_edge (nodeMap : gmap string node_t) (eStr : string) (edges : list edge_t)
    : DM W (list edge_t) :=
  let nodePair := split (is_any_of ":") eStr in
  if (2 <? List.length nodePair)%nat
  then throw (Runtime_error ("Invalid edge description: " +:+ eStr))
  else if (List.length nodePair =? 1)%nat then mret edges
  else
    s ← dlift (at_index nodePair 0);
    '(p, nr_produce) ← parse_producer s;
    s ← dlift (at_index nodePair 1);
    '(c, nr_consume, nr_threshold) ← parse_consumer s;
    let cv_attr := Attr (wrap64 nr_produce) (wrap64 nr_consume) (wrap64 nr_threshold)
                        pgm_cv_edge 0 0 0 in
    '(ret, e) ← call (pgm_init_edge (Some junk_edge) (nodeMap_at nodeMap p) (nodeMap_at nodeMap c)
                        (lit (make_edge_name p c)) cv_attr);
    CheckError ret ;;
    mret (edges ++ [default junk_edge e]).

Definition parse_graph_description (desc : string) (g : Z) (nodes : list node_t)
    (edges : list edge_t) : DM W (list node_t * list edge_t) :=
  nodeNames ← node_names desc;
  '(nodeMap, nodes) ← add_nodes g nodeNames nodes;
  edges ← loop (split (is_any_of ",") desc) edges (add_edge nodeMap);
  dag ← call (pgm_is_dag g true);
  if dag =? 0 then throw (Runtime_error "graph is not acyclic")
  else mret (nodes, edges).

(** ** [parse_graph_rates] *)

(** [x] arrivals in every interval of [y] microseconds *)
Record rate := Rate { r_y : Z; r_x : Z }.

Definition rate_eqb (a b : rate) : bool := wrap64 (r_x a * r_y b) =? wrap64 (r_x b * r_y a).

(** [(uint64_t)round(x)]: the nearest integer, halves away from zero *)
Definition round_uint64 (x : double) : outcome Z :=
  match x with
  | S754_zero _ => Ok 0
  | S754_finite s m e =>
      let z := if e <? 0 then Z.shiftr (Zpos m + Z.shiftl 1 (- e - 1)) (- e)
               else Z.shiftl (Zpos m) e in
      if s then if z =? 0 then Ok 0 else Fault OutOfBounds
      else if z <? 2 ^ 64 then Ok z else Fault OutOfBounds
  | _ => Fault OutOfBounds
  end.

(** The predecessors whose rate is known, and the product of their intervals. *)
Definition known_preds (preds : list node_t) (rates : gmap string rate)
    : DM W (Z * list (node_t * rate)) :=
  loop preds (1, []) (fun p acc =>
    let '(scale, known) := acc in
    name ← name_string p;
    match rates !! name with
    | Some r => mret (wrap64 (scale * r_y r), known ++ [(p, r)])
    | None => mret (scale, known)
    end).

(** Two neighbours in that list: are their rates at [n] the same?  The numbers
    that are printed otherwise are computed in any case. *)
Definition compatible (n : node_t) (scale : Z) (prev cur : node_t * rate) : DM W bool :=
  nname ← name_string n;
  pname ← name_string prev.1;
  e_prev ← find_edge prev.1 n (make_edge_name pname nname);
  cname ← name_string cur.1;
  e_cur ← find_edge cur.1 n (make_edge_name cname nname);
  pp ← call (pgm_get_nr_produce e_prev);
  pc ← call (pgm_get_nr_consume e_prev);
  cp ← call (pgm_get_nr_produce e_cur);
  cc ← call (pgm_get_nr_consume e_cur);
  let a := Rate (wrap64 (pp * r_x prev.2 * scale)) (wrap64 (r_y prev.2 * pc)) in
  let b := Rate (wrap64 (cp * r_x cur.2 * scale)) (wrap64 (r_y cur.2 * cc)) in
  q ← dlift (udiv scale (r_y prev.2));
  _ ← dlift (udiv (wrap64 (pp * r_x prev.2 * q)) (wrap64 pc));
  q ← dlift (udiv scale (r_y cur.2));
  _ ← dlift (udiv (wrap64 (cp * r_x cur.2 * q)) (wrap64 cc));
  mret (rate_eqb a b).

(** [calloc] of so many entries: null when the count is negative, otherwise
    zeroes in front of which the library writes. *)
Definition zero_filled (n : Z) (written : list node_t) : list node_t :=
  written ++ replicate (Z.to_nat n - List.length written) (Node_t 0 0).

(** What it prints does not matter to anyone; the result is [valid]. *)
Definition validate_rate (n : node_t) (rates : gmap string rate) : DM W bool :=
  nr_preds ← call (pgm_get_degree_in n true);
  '(ret, preds) ← call (pgm_get_predecessors n (0 <=? nr_preds) nr_preds true);
  CheckError ret ;;
  '(scale, known) ← known_preds (take (Z.to_nat nr_preds) (zero_filled nr_preds preds)) rates;
  loop (zip known (List.tl known)) true (fun pc valid =>
    ok ← compatible n scale pc.1 pc.2;
    mret (if ok : bool then valid else false)).

(** One root of the rate string. *)
Definition root_rate (token : string) (acc : gmap string rate * list string)
    : DM W (gmap string rate * list string) :=
  let '(rateMap, tovisit) := acc in
  let rateTokens := split (is_any_of ":") token in
  if negb (List.length rateTokens =? 3)%nat
  then throw (Runtime_error ("Invalid rate: " +:+ token))
  else
    name ← dlift (at_index rateTokens 0);
    interval ← dlift (at_index rateTokens 2);
    ms ← cast_double interval;
    y ← dlift (round_uint64 (dmul ms (dofZ 1000)));
    count ← dlift (at_index rateTokens 1);
    x ← cast_u64 count;
    mret (match rateMap !! name with Some _ => rateMap | None => <[name := Rate y x]> rateMap end,
          set_insert name tovisit).

(** The rate [x] that belongs to the interval [y] of a successor. *)
Definition arrivals (y produce consume : Z) (r : rate) : outcome Z :=
  udiv (wrap64 (y * produce * r_x r)) (wrap64 (consume * r_y r)).

(** One successor of node [n] that runs at rate [r]. *)
Definition visit_successor (n : node_t) (r : rate) (succ : node_t)
    (acc : gmap string rate * list string) : DM W (gmap string rate * list string) :=
  let '(rateMap, tovisit) := acc in
  sname ← name_string succ;
  if bool_decide (sname = EmptyString) then dlift (Fault AssertFailure)
  else
    nname ← name_string n;
    e ← find_edge n succ (make_edge_name nname sname);
    produce ← call (pgm_get_nr_produce e);
    CheckError (if produce <? 1 then -1 else 0) ;;
    consume ← call (pgm_get_nr_consume e);
    CheckError (if consume <? 1 then -1 else 0) ;;
    y ← dlift (udiv (wrap64 (wrap64 consume * r_y r))
                    (math_gcd (wrap64 (produce * r_x r)) (wrap64 consume)));
    match rateMap !! sname with
    | Some oldRate =>
        _ ← validate_rate succ rateMap;
        let y := math_lcm y (r_y oldRate) in
        if y =? r_y oldRate then mret (rateMap, tovisit)
        else
          x ← dlift (arrivals y produce consume r);
          mret (<[sname := Rate y x]> rateMap, set_insert sname tovisit)
    | None =>
        x ← dlift (arrivals y produce consume r);
        mret (<[sname := Rate y x]> rateMap, set_insert sname tovisit)
    end.

(** The node at the front of [tovisit] is taken out and its successors' rates
    are updated. *)
Definition visit_node (g : Z) (thisNode : string) (acc : gmap string rate * list string)
    : DM W (gmap string rate * list string) :=
  let '(rateMap, tovisit) := acc in
  let thisNodeRate := default (Rate 0 0) (rateMap !! thisNode) in
  n ← find_node g thisNode;
  numSuccessors ← call (pgm_get_degree_out n true);
  '(ret, successors) ← call (pgm_get_successors n (0 <=? numSuccessors) numSuccessors true);
  CheckError ret ;;
  if numSuccessors =? 0 then mret (rateMap, tovisit)
  else loop (take (Z.to_nat numSuccessors) (zero_filled numSuccessors successors)) (rateMap, tovisit)
         (visit_successor n thisNodeRate).

(** [while(!tovisit.empty())], at most [fuel] rounds *)
Fixpoint visit_all (fuel : nat) (g : Z) (rateMap : gmap string rate) (tovisit : list string)
    : DM W (gmap string rate) :=
  match tovisit with
  | [] => mret rateMap
  | thisNode :: tovisit =>
      match fuel with
      | O => dlift (Fault OutOfFuel)
      | S fuel =>
          '(rateMap, tovisit) ← visit_node g thisNode (rateMap, tovisit);
          visit_all fuel g rateMap tovisit
      end
  end.

(** The names in [rateMap], in the order of the [std::map]. *)
Definition map_names (rateMap : gmap string rate) : list string :=
  fold_right set_insert [] (map_to_list rateMap).*1.

Definition parse_graph_rates (fuel : nat) (rateString : string) (g : Z)
    (periods_ms : list (node_t * double)) : DM W (list (node_t * double)) :=
  '(rateMap, tovisit) ← loop (split (is_any_of ",") rateString) (∅, []) root_rate;
  rateMap ← visit_all fuel g rateMap tovisit;
  loop (map_names rateMap) periods_ms (fun name periods_ms =>
    n ← find_node g name;
    let r := default (Rate 0 0) (rateMap !! name) in
    dlift (node_map_set n (ddiv (ddiv (dofZ (r_y r)) (dofZ (r_x r))) (dofZ 1000)) periods_ms)).

(** ** The other options *)

(** [<name>:<value>,...]: the lists of execution times, split factors and
    clusters have the same form; [what] starts the error message. *)
Definition parse_pairs {A} (what : string) (read : string -> string -> DM W A) (g : Z) (text : string)
    (m : list (node_t * A)) : DM W (list (node_t * A)) :=
  if bool_decide (text = EmptyString) then mret m
  else loop (split (is_any_of ",") text) m (fun nStr m =>
    let pair := split (is_any_of ":") nStr in
    if negb (List.length pair =? 2)%nat then throw (Runtime_error (what +:+ nStr))
    else
      name ← dlift (at_index pair 0);
      n ← find_node g name;
      value ← dlift (at_index pair 1);
      v ← read nStr value;
      dlift (node_map_set n v m)).

Definition parse_graph_exec (execs : string) (g : Z) (exec_ms : list (node_t * double))
    : DM W (list (node_t * double)) :=
  parse_pairs "Invalid execution time: " (fun _ => cast_double) g execs exec_ms.

Definition parse_graph_split_factor (splits : string) (g : Z) (split_factors : list (node_t * Z))
    : DM W (list (node_t * Z)) :=
  parse_pairs "Invalid split factor: " (fun nStr value =>
    sf ← cast_int value;
    if sf <? 0 then throw (Runtime_error ("Invalid split factor: " +:+ nStr)) else mret sf)
    g splits split_factors.

Definition parse_graph_cluster (cluster : string) (g : Z) (cluster_id : list (node_t * double))
    : DM W (list (node_t * double)) :=
  parse_pairs "Invalid cluster ID: " (fun _ => cast_double) g cluster cluster_id.

Definition parse_graph_wss (wss : string) (g : Z) (wss_kb : list (edge_t * double))
    : DM W (list (edge_t * double)) :=
  if bool_decide (wss = EmptyString) then mret wss_kb
  else loop (split (is_any_of ",") wss) wss_kb (fun nStr wss_kb =>
    let edgeWssDesc := split (is_any_of ":") nStr in
    if negb (List.length edgeWssDesc =? 3)%nat
    then throw (Runtime_error ("Invalid working set size: " +:+ nStr))
    else
      pname ← dlift (at_index edgeWssDesc 0);
      p ← find_node g pname;
      cname ← dlift (at_index edgeWssDesc 1);
      c ← find_node g cname;
      e ← find_edge p c (make_edge_name pname cname);
      size ← dlift (at_index edgeWssDesc 2);
      kb ← cast_double size;
      dlift (edge_map_set e (dmul kb (dofZ 1024)) wss_kb)).

Definition parse_graph_file (filename : string) : DM W (list node_t * list edge_t) :=
  throw (Runtime_error "Graph files not yet implemented.").

(** The weight of an edge for [pgm_get_max_depth]: how long its producer takes
    to reach the threshold. *)
Fixpoint find_period (periods : list (node_t * double)) (n : node_t) : outcome double :=
  match periods with
  | [] => Fault AssertFailure
  | (k, v) :: periods =>
      if negb (nd_graph k =? nd_graph n) then Fault AssertFailure
      else if nd_node k =? nd_node n then Ok v
      else find_period periods n
  end.

Definition producer_period (periods : list (node_t * double)) (edge : edge_t)
    : ST (pgm_state W) double :=
  producer ← pgm_get_producer edge;
  nr_thresh ← pgm_get_nr_threshold edge;
  nr_produce ← pgm_get_nr_produce edge;
  if nr_produce =? 0 then fail DivByZero
  else
    let jobs_to_thresh := Z.quot nr_thresh nr_produce
      + (if negb (Z.rem nr_thresh nr_produce =? 0) then 1 else 0) in
    p ← lift (find_period periods producer);
    mret (dmul p (dofZ jobs_to_thresh)).

End Code.

End Driver.
