(* ===== verification/Describe.v ===== *)
(** * What a graph description builds (tools/pgmrt.cpp,
    [parse_graph_description])

    A description is written down as a list of edges with the names of their
    ends and optional numbers; its text is what the option [--graph] expects.
    Reading the text builds the graph with these nodes, in alphabetical order,
    and these edges, in the order of the text. *)

From S2P Require Import Prelude Ring Types Sys Structure Memory Ipc GraphInit GraphWf Teardown Query Search Lookup Double Driver.
From Stdlib Require Import Ascii String Sorted.

Module Describe.
Import Types Sys Structure GraphInit GraphWf Query Search Lookup Double Driver.
#[local] Open Scope Z_scope.

(** ** Boost's documented behaviour *)

(** No character of [s] separates. *)
Definition free (p : ascii -> bool) (s : string) : Prop := Forall (fun c => p c = false) (lit s).

(** Parts, each with the separator in front of it. *)
Definition glue (rest : list (ascii * string)) : string :=
  fold_right (fun cs t => String cs.1 (cs.2 +:+ t)) EmptyString rest.

(** [split] cuts at every separator. *)
Class BoostTextLaws `(BoostText) : Prop :=
  split_law p first rest : free p first -> Forall (fun cs => p cs.1 = true /\ free p cs.2) rest ->
    split p (first +:+ glue rest) = first :: rest.*2.

(** ** Descriptions *)

(** A number with the token it is written as. *)
Record num := Num { token : string; val : Z }.

Record edesc := Edesc {
  d_p : string;
  d_produce : option num;
  d_c : string;
  d_consume : option (num * option num)
}.

(** [<name>[.produce]:<name>[.consume[.threshold]]] *)
Definition p_parts (d : edesc) : list (ascii * string) :=
  match d_produce d with Some n => [("."%char, token n)] | None => [] end.
Definition c_parts (d : edesc) : list (ascii * string) :=
  match d_consume d with
  | Some (n, Some k) => [("."%char, token n); ("."%char, token k)]
  | Some (n, None) => [("."%char, token n)]
  | None => []
  end.
Definition p_text (d : edesc) : string := d_p d +:+ glue (p_parts d).
Definition c_text (d : edesc) : string := d_c d +:+ glue (c_parts d).
Definition e_text (d : edesc) : string := p_text d +:+ glue [(":"%char, c_text d)].
Definition text (d : edesc) (ds : list edesc) : string :=
  e_text d +:+ glue ((fun d => (","%char, e_text d)) <$> ds).

Definition produce (d : edesc) : Z := match d_produce d with Some n => val n | None => 1 end.
Definition consume (d : edesc) : Z := match d_consume d with Some (n, _) => val n | None => 1 end.
Definition threshold (d : edesc) : Z :=
  match d_consume d with Some (_, Some n) => val n | _ => 1 end.

Definition seps : ascii -> bool := is_any_of ",:.".

Section Text.
Context `{L : BoostTextLaws}.

(** The descriptions the theorem below is about: tokens without separators, numbers
    that [lexical_cast] reads as what they stand for, and no edge that consumes more
    than its threshold. *)
Definition num_ok (n : num) : Prop :=
  free seps (token n) /\ lexical_cast_int (token n) = Some (val n) /\ 0 < val n < 2 ^ 31.

Record edesc_ok (d : edesc) : Prop := {
  eo_p : free seps (d_p d);
  eo_c : free seps (d_c d);
  eo_produce : forall n, d_produce d = Some n -> num_ok n;
  eo_consume : forall n k, d_consume d = Some (n, k) -> num_ok n;
  eo_threshold : forall n k, d_consume d = Some (n, Some k) -> num_ok k;
  eo_enough : consume d <= threshold d
}.

Lemma append_assoc (a b c : string) : (a +:+ b) +:+ c = a +:+ (b +:+ c).
Proof. induction a as [|x a IH]; [done|]. change (String x ((a +:+ b) +:+ c) = String x (a +:+ (b +:+ c))). by rewrite IH. Qed.

Lemma lit_app a b : lit (a +:+ b) = (lit a ++ lit b)%list.
Proof. induction a as [|x a IH]; simpl; [done|]. by f_equal. Qed.

Lemma free_app p a b : free p (a +:+ b) <-> free p a /\ free p b.
Proof. unfold free. rewrite lit_app. apply Forall_app. Qed.

Lemma free_glue p rest :
  free p (glue rest) <-> Forall (fun cs => p cs.1 = false /\ free p cs.2) rest.
Proof.
  induction rest as [|[c s] rest IH]; simpl; [by split; constructor|].
  unfold free in *. simpl. rewrite Forall_cons, Forall_cons. fold (lit (s +:+ glue rest)).
  rewrite lit_app, Forall_app, IH. simpl. tauto.
Qed.

Lemma free_weaken p q s : (forall c, q c = true -> p c = true) -> free p s -> free q s.
Proof.
  intros Hpq Hs. apply (Forall_impl _ _ _ Hs). intros c Hc. specialize (Hpq c).
  destruct (q c); [|done]. rewrite Hpq in Hc; done.
Qed.

Lemma sep_cases p s :
  free seps s -> (forall c, p c = true -> c = ","%char \/ c = ":"%char \/ c = "."%char) -> free p s.
Proof. intros Hs Hp. eapply free_weaken, Hs. intros c Hc. by destruct (Hp c Hc) as [->|[->| ->]]. Qed.

Lemma any_of_cases s c : is_any_of s c = true -> c ∈ lit s.
Proof. apply bool_decide_eq_true. Qed.

(** Each of the four separator tests only accepts separators. *)
#[local] Ltac seps :=
  let c := fresh "c" in let Hc := fresh "Hc" in intros c Hc;
  repeat (apply orb_true_iff in Hc as [Hc|Hc]);
  apply any_of_cases in Hc; cbn in Hc; set_solver.

Lemma free_parts d :
  edesc_ok d ->
  Forall (fun cs => is_any_of "." cs.1 = true /\ free (is_any_of ".") cs.2) (p_parts d) /\
  Forall (fun cs => is_any_of "." cs.1 = true /\ free (is_any_of ".") cs.2) (c_parts d).
Proof.
  intros [_ _ Hp Hc Ht _]. unfold p_parts, c_parts.
  split.
  - destruct (d_produce d) as [n|]; [|constructor]. destruct (Hp n eq_refl) as [Hn _].
    rewrite Forall_singleton. split; [done|]. apply (sep_cases _ _ Hn). seps.
  - destruct (d_consume d) as [[n [k|]]|]; [| |constructor].
    + destruct (Hc n _ eq_refl) as [Hn _], (Ht n k eq_refl) as [Hk _].
      rewrite Forall_cons, Forall_singleton. split_and!; [done| |done|].
      * apply (sep_cases _ _ Hn). seps.
      * apply (sep_cases _ _ Hk). seps.
    + destruct (Hc n _ eq_refl) as [Hn _]. rewrite Forall_singleton. split; [done|].
      apply (sep_cases _ _ Hn). seps.
Qed.

Lemma split_p d : edesc_ok d -> split (is_any_of ".") (p_text d) = d_p d :: (p_parts d).*2.
Proof.
  intros Hd. apply split_law; [|by apply free_parts]. apply (sep_cases _ _ (eo_p d Hd)). seps.
Qed.
Lemma split_c d : edesc_ok d -> split (is_any_of ".") (c_text d) = d_c d :: (c_parts d).*2.
Proof.
  intros Hd. apply split_law; [|by apply free_parts]. apply (sep_cases _ _ (eo_c d Hd)). seps.
Qed.

(** The halves have no colons and no commas. *)
Lemma free_halves p d :
  edesc_ok d -> (forall c, p c = true -> c = ","%char \/ c = ":"%char) ->
  free p (p_text d) /\ free p (c_text d).
Proof.
  intros Hd Hp. destruct (free_parts d Hd) as [H1 H2]. pose proof Hd as [Hdp Hdc Hdo Hds Hdt _].
  assert (Hdot : p "."%char = false) by (destruct (p _) eqn:E; [destruct (Hp _ E); done|done]).
  assert (Hs : forall s, free seps s -> free p s).
  { intros s Hs. apply (sep_cases _ _ Hs). intros c Hc. destruct (Hp c Hc); auto. }
  unfold p_text, c_text. rewrite !free_app, !free_glue. split_and!; [by apply Hs | | by apply Hs|].
  - unfold p_parts. destruct (d_produce d) as [n|]; [|constructor].
    destruct (Hdo n eq_refl) as [Hn _]. rewrite Forall_singleton. split; [done|]. by apply Hs.
  - unfold c_parts. destruct (d_consume d) as [[n [k|]]|]; [| |constructor].
    + destruct (Hds n _ eq_refl) as [Hn _], (Hdt n k eq_refl) as [Hk _].
      rewrite Forall_cons, Forall_singleton. split_and!; [done|by apply Hs|done|by apply Hs].
    + destruct (Hds n _ eq_refl) as [Hn _]. rewrite Forall_singleton. split; [done|]. by apply Hs.
Qed.

Lemma split_e d : edesc_ok d -> split (is_any_of ":") (e_text d) = [p_text d; c_text d].
Proof.
  intros Hd. destruct (free_halves (is_any_of ":") d Hd) as [Hp Hc]; [seps|].
  apply split_law; [done|]. by rewrite Forall_singleton.
Qed.

Lemma free_e d : edesc_ok d -> free (is_any_of ",") (e_text d).
Proof.
  intros Hd. destruct (free_halves (is_any_of ",") d Hd) as [Hp Hc]; [seps|].
  unfold e_text. rewrite free_app, free_glue. split; [done|]. by rewrite Forall_singleton.
Qed.

Lemma split_edges d ds :
  Forall edesc_ok (d :: ds) -> split (is_any_of ",") (text d ds) = e_text <$> d :: ds.
Proof.
  intros [Hd Hds]%Forall_cons. unfold text. rewrite split_law.
  - rewrite fmap_cons. f_equal. rewrite <- list_fmap_compose. done.
  - by apply free_e.
  - apply Forall_fmap. apply (Forall_impl _ _ _ Hds). intros e He. split; [done|]. by apply free_e.
Qed.

Definition halves (d : edesc) : list string := [p_text d; c_text d].

Lemma append_nil_r (a : string) : a +:+ EmptyString = a.
Proof. induction a as [|x a IH]; [done|]. change (String x (a +:+ EmptyString) = String x a). by rewrite IH. Qed.

Lemma e_text_app d t : e_text d +:+ t = p_text d +:+ String ":" (c_text d +:+ t).
Proof.
  unfold e_text. rewrite append_assoc. f_equal.
  change (String ":" ((c_text d +:+ EmptyString) +:+ t) = String ":" (c_text d +:+ t)).
  by rewrite append_nil_r.
Qed.

Definition half_parts (d : edesc) : list (ascii * string) :=
  [(","%char, p_text d); (":"%char, c_text d)].

Lemma glue_edges ds :
  glue ((fun d => (","%char, e_text d)) <$> ds) = glue (List.concat (half_parts <$> ds)).
Proof.
  induction ds as [|d ds IH]; [done|].
  change (String "," (e_text d +:+ glue ((fun d => (","%char, e_text d)) <$> ds)) =
    String "," (p_text d +:+ String ":" (c_text d +:+ glue (List.concat (half_parts <$> ds))))).
  by rewrite IH, e_text_app.
Qed.

Lemma split_halves d ds :
  Forall edesc_ok (d :: ds) ->
  split (fun c => is_any_of "," c || is_any_of ":" c) (text d ds) =
  List.concat (halves <$> d :: ds).
Proof.
  set (p := fun c => is_any_of "," c || is_any_of ":" c). intros [Hd Hds]%Forall_cons.
  assert (Hfree : forall d, edesc_ok d -> free p (p_text d) /\ free p (c_text d)).
  { intros e He. apply free_halves; [done|]. unfold p. seps. }
  unfold text. rewrite glue_edges, e_text_app.
  change (String ":" (c_text d +:+ glue (List.concat (half_parts <$> ds))))
    with (glue ((":"%char, c_text d) :: List.concat (half_parts <$> ds))).
  rewrite split_law; [| by apply Hfree|].
  - rewrite !fmap_cons. cbn [List.concat halves app]. do 2 f_equal.
    clear. induction ds as [|d ds IH]; [done|]. rewrite !fmap_cons. cbn [List.concat half_parts halves app].
    rewrite !fmap_cons. cbn [snd]. by rewrite IH.
  - apply Forall_cons. split; [split; [done|by apply Hfree]|].
    induction Hds as [|e ds He Hds IH]; [constructor|].
    rewrite fmap_cons. cbn [List.concat half_parts app]. rewrite !Forall_cons.
    destruct (Hfree e He). split_and!; done.
Qed.

(** ** Names *)

Definition ends (d : edesc) : list string := [d_p d; d_c d].

(** The names of a description, sorted. *)
Definition names (ds : list edesc) : list string :=
  fold_left (fun l x => set_insert x l) (List.concat (ends <$> ds)) [].

Lemma elem_of_set_insert x y l : y ∈ set_insert x l <-> y = x \/ y ∈ l.
Proof.
  induction l as [|z l IH]; simpl; [set_solver|].
  destruct (String.compare x z) eqn:E; [apply String.compare_eq_iff in E| |]; set_solver.
Qed.

Lemma elem_of_names_from l0 l y :
  y ∈ fold_left (fun l x => set_insert x l) l l0 <-> y ∈ l \/ y ∈ l0.
Proof.
  revert l0. induction l as [|x l IH]; intros l0; simpl; [set_solver|].
  rewrite IH, elem_of_set_insert. set_solver.
Qed.

Lemma elem_of_names ds y : y ∈ names ds <-> exists d, d ∈ ds /\ (y = d_p d \/ y = d_c d).
Proof.
  unfold names. rewrite elem_of_names_from, list_elem_of_In, in_concat. split.
  - intros [(l & Hl & Hy)|Hy]; [|set_solver]. apply list_elem_of_In, list_elem_of_fmap in Hl as (d & -> & Hd).
    exists d. split; [done|]. destruct Hy as [<-|[<-|[]]]; auto.
  - intros (d & Hd & Hy). left. exists (ends d). split.
    + apply list_elem_of_In, list_elem_of_fmap. eauto.
    + destruct Hy as [->| ->]; simpl; auto.
Qed.

Definition before (a b : string) : Prop := String.compare a b = Lt.

Lemma compare_refl a : String.compare a a = Eq.
Proof.
  induction a as [|x a IH]; [done|]. simpl.
  unfold Ascii.compare. by rewrite N.compare_refl.
Qed.

Lemma before_trans a b c : before a b -> before b c -> before a c.
Proof.
  unfold before. revert b c. induction a as [|x a IH]; intros [|y b] [|z c]; simpl; try done.
  unfold Ascii.compare. intros H1 H2.
  destruct (N.compare_spec (N_of_ascii x) (N_of_ascii y)) as [E1|E1|E1]; [| |done];
  destruct (N.compare_spec (N_of_ascii y) (N_of_ascii z)) as [E2|E2|E2]; try done;
  destruct (N.compare_spec (N_of_ascii x) (N_of_ascii z)) as [E3|E3|E3]; try lia; eauto.
Qed.

Lemma sorted_insert x l : StronglySorted before l -> StronglySorted before (set_insert x l).
Proof.
  induction 1 as [|y l Hl IH Hy]; simpl; [by repeat constructor|].
  destruct (String.compare x y) eqn:E; [by constructor| |].
  - constructor; [by constructor|]. constructor; [done|].
    apply (Forall_impl _ _ _ Hy). intros z. by apply before_trans.
  - constructor; [done|]. apply Forall_forall. intros z [->|Hz]%elem_of_set_insert.
    + unfold before. rewrite String.compare_antisym, E. done.
    + rewrite Forall_forall in Hy. by apply Hy.
Qed.

Lemma sorted_names ds : StronglySorted before (names ds).
Proof.
  unfold names. assert (Hgo : forall l l0, StronglySorted before l0 ->
    StronglySorted before (fold_left (fun l x => set_insert x l) l l0)).
  { induction l as [|x l IH]; intros l0 Hl0; simpl; [done|]. by apply IH, sorted_insert. }
  apply Hgo. constructor.
Qed.

Lemma nodup_names ds : NoDup (names ds).
Proof.
  pose proof (sorted_names ds) as Hs. induction Hs as [|x l Hl IH Hx]; [constructor|].
  constructor; [|done]. intros Hin. rewrite Forall_forall in Hx. specialize (Hx x Hin).
  unfold before in Hx. by rewrite compare_refl in Hx.
Qed.

(** ** The driver's code *)

Section Code.
Context {W : Type} `{Syscalls W} (junk_node : node_t) (junk_edge : edge_t).
Implicit Types (dr : driver W) (s : pgm_state W) (gr : pgm_graph).

Lemma d_step {A B} (m : DM W A) (k : A -> DM W B) dr a dr' :
  m dr = Ok (inr a, dr') -> (m ≫= k) dr = k a dr'.
Proof. unfold mbind, DM_bind. by intros ->. Qed.

Lemma loop_pure {A B} (l : list A) (b : B) (body : A -> B -> DM W B) (f : A -> B -> B) dr :
  (forall x b, x ∈ l -> body x b dr = Ok (inr (f x b), dr)) ->
  loop l b body dr = Ok (inr (fold_left (fun b x => f x b) l b), dr).
Proof.
  revert b. induction l as [|x l IH]; intros b Hl; [done|]. simpl. erewrite d_step by (apply Hl; constructor).
  apply IH. intros y c Hy. apply Hl. by constructor.
Qed.

Lemma node_names_runs d ds dr :
  Forall edesc_ok (d :: ds) -> node_names (text d ds) dr = Ok (inr (names (d :: ds)), dr).
Proof.
  intros Hok. unfold node_names, names. rewrite split_halves by done.
  generalize (@nil string) as acc. revert Hok. generalize (d :: ds) as l. clear d ds.
  induction l as [|d l IH]; intros Hok acc; [done|]. apply Forall_cons in Hok as [Hd Hl].
  rewrite !fmap_cons. cbn [List.concat halves ends app loop].
  erewrite d_step; [|erewrite d_step by (rewrite split_p by done; reflexivity); reflexivity].
  erewrite d_step; [|erewrite d_step by (rewrite split_c by done; reflexivity); reflexivity].
  by apply IH.
Qed.

(** *** Nodes *)

(** A name that fits into a node with its terminator. *)
Definition name_ok (x : string) : Prop :=
  (NUL ∉ lit x) /\ (1 <= String.length x)%nat /\ (String.length x < PGM_NODE_NAME_LEN)%nat.

Definition with_nodes (l : list string) gr : pgm_graph :=
  fold_left (fun gr x => add_node (lit x) gr) l gr.

Lemma length_lit x : List.length (lit x) = String.length x.
Proof. induction x as [|c x IH]; [done|]. simpl. by rewrite <- IH. Qed.

Lemma strnlen_plain l max :
  NUL ∉ l -> (List.length l <= max)%nat -> strnlen l max = List.length l.
Proof.
  revert max. induction l as [|c l IH]; intros [|max] Hl Hm; simpl in *; try done; [lia|].
  rewrite bool_decide_eq_false_2 by set_solver. f_equal. apply IH; [set_solver|lia].
Qed.

Lemma name_accepted x : name_ok x -> bad_name_len (lit x) PGM_NODE_NAME_LEN = false.
Proof.
  intros (Hn & Hl1 & Hl2). unfold bad_name_len. rewrite strnlen_plain by (rewrite ?length_lit; auto with lia).
  rewrite length_lit. apply orb_false_iff. split; [apply Z.leb_gt | apply Z.ltb_ge]; lia.
Qed.

Lemma with_nodes_size l gr :
  nr_nodes (with_nodes l gr) = nr_nodes gr + Z.of_nat (List.length l) /\
  nr_edges (with_nodes l gr) = nr_edges gr /\ in_use (with_nodes l gr) = in_use gr /\
  g_lock (with_nodes l gr) = g_lock gr.
Proof.
  revert gr. induction l as [|x l IH]; intros gr; simpl; [split_and!; try done; lia|].
  destruct (IH (add_node (lit x) gr)) as (-> & -> & -> & ->). simpl. split_and!; try done. lia.
Qed.

Lemma with_nodes_old l gr i : i < nr_nodes gr -> gnode (with_nodes l gr) i = gnode gr i.
Proof.
  revert gr. induction l as [|x l IH]; intros gr Hi; simpl; [done|].
  rewrite IH by (simpl; lia). apply gnode_add_node. lia.
Qed.

Lemma with_nodes_new l gr i x :
  l !! i = Some x -> gnode (with_nodes l gr) (nr_nodes gr + Z.of_nat i) = fresh_node (lit x).
Proof.
  revert gr i. induction l as [|y l IH]; intros gr [|i] E; simpl in *; try done.
  - injection E as ->. rewrite Z.add_0_r, with_nodes_old by (simpl; lia). apply gnode_add_node_new.
  - rewrite <- (IH (add_node (lit y) gr) i E). f_equal. simpl. lia.
Qed.

Lemma with_nodes_wf l gr :
  graph_wf gr -> nr_nodes gr + Z.of_nat (List.length l) < PGM_MAX_NODES -> graph_wf (with_nodes l gr).
Proof.
  revert gr. induction l as [|x l IH]; intros gr Hwf Hl; simpl in *; [done|].
  apply IH; [apply add_node_wf; [done|lia] | simpl; lia].
Qed.

(** The map from names to handles after some names. *)
Definition maps_names (g k : Z) (l : list string) (m : gmap string node_t) : Prop :=
  forall i x, l !! i = Some x -> m !! x = Some (Node_t g (k + Z.of_nat i)).

Lemma add_named_runs g s gr x m nodes errs :
  usable s g gr -> graph_wf gr -> nr_nodes gr + 1 <> PGM_MAX_NODES -> name_ok x -> m !! x = None ->
  add_named junk_node g x (m, nodes) (Driver s errs) =
  Ok (inr (<[x := Node_t g (nr_nodes gr)]> m, nodes ++ [Node_t g (nr_nodes gr)]),
      Driver (put_graph g (add_node (lit x) gr) s) errs).
Proof.
  intros Hs Hwf Hn Hx Hm. unfold add_named. erewrite d_step; cycle 1.
  - unfold call. cbn [lib]. rewrite (pgm_init_node_runs s g gr) by (done || apply (gw_nodes gr Hwf)).
    by rewrite (name_accepted x Hx), (proj2 (Z.eqb_neq (nr_nodes gr + 1) PGM_MAX_NODES)) by lia.
  - cbv beta iota. erewrite d_step by reflexivity. cbn [default from_option]. by rewrite Hm.
Qed.

Lemma add_nodes_loop g l s gr m nodes errs :
  usable s g gr -> graph_wf gr -> nr_nodes gr + Z.of_nat (List.length l) < PGM_MAX_NODES ->
  Forall name_ok l -> NoDup l -> (forall x, x ∈ l -> m !! x = None) ->
  exists m', maps_names g (nr_nodes gr) l m' /\ (forall x, x ∉ l -> m' !! x = m !! x) /\
    loop l (m, nodes) (add_named junk_node g) (Driver s errs) =
    Ok (inr (m', nodes ++ (Node_t g <$> seqZ (nr_nodes gr) (Z.of_nat (List.length l)))),
        Driver (put_graph g (with_nodes l gr) s) errs).
Proof.
  revert s gr m nodes. induction l as [|x l IH]; intros s gr m nodes Hs Hwf Hn Hok Hnd Hm.
  - exists m. split_and!; [done|done|]. simpl.
    rewrite app_nil_r, (put_graph_id s g gr); [done|apply Hs|apply Hs].
  - cbn [List.length] in Hn. apply Forall_cons in Hok as [Hx Hok]. apply NoDup_cons in Hnd as [Hxl Hnd].
    assert (Hs' : usable (put_graph g (add_node (lit x) gr) s) g (add_node (lit x) gr))
      by (apply (usable_put s g gr); [done | apply Hs | apply Hs]).
    destruct (IH _ _ (<[x := Node_t g (nr_nodes gr)]> m) (nodes ++ [Node_t g (nr_nodes gr)]) Hs')
      as (m' & Hm' & Hoth & E); [apply add_node_wf; [done|lia] | simpl; lia | done | done | |].
    { intros y Hy. rewrite lookup_insert_ne by (intros ->; done). apply Hm. by constructor. }
    exists m'. split_and!.
    + intros [|i] y Ey; simpl in Ey.
      * injection Ey as ->. rewrite (Hoth y Hxl), lookup_insert_eq. do 2 f_equal. lia.
      * rewrite (Hm' i y Ey). simpl. do 2 f_equal. lia.
    + intros y Hy. rewrite not_elem_of_cons in Hy. rewrite Hoth by naive_solver.
      rewrite lookup_insert_ne by naive_solver. done.
    + cbn [loop]. erewrite d_step by (apply (add_named_runs g s gr); try done; (lia || (apply Hm; constructor))).
      rewrite E. rewrite put_put. cbn [List.length]. rewrite Nat2Z.inj_succ, (seqZ_cons (nr_nodes gr)) by lia.
      rewrite fmap_cons, <- app_assoc. simpl. by rewrite Z.pred_succ, <- Z.add_1_r.
Qed.

(** *** Edges *)

(** Where a name is in the list of names. *)
Definition index (l : list string) (x : string) : Z :=
  match list_find (x =.) l with Some (i, _) => Z.of_nat i | None => 0 end.

Lemma index_lookup l x : x ∈ l -> exists i, l !! i = Some x /\ index l x = Z.of_nat i.
Proof.
  intros Hx. unfold index. destruct (list_find_elem_of (x =.) l x Hx eq_refl) as [[i y] E].
  rewrite E. apply list_find_Some in E as (Hi & <- & _). eauto.
Qed.

Definition attr_of (d : edesc) : edge_attr_t :=
  Attr (produce d) (consume d) (threshold d) pgm_cv_edge 0 0 0.

Definition edge_from (g : Z) (l : list string) (d : edesc) : pgm_edge :=
  (fresh_edge (Node_t g (index l (d_p d))) (Node_t g (index l (d_c d)))
     (lit (make_edge_name (d_p d) (d_c d))) (attr_of d) false 0)
  <| e_ops := Some pgm_cv_edge_ops |>.

Definition with_edges (g : Z) (l : list string) (ds : list edesc) gr : pgm_graph :=
  fold_left (fun gr d => link_edge (index l (d_p d)) (index l (d_c d)) (edge_from g l d) gr) ds gr.

Lemma parse_producer_runs d dr :
  edesc_ok d -> parse_producer (p_text d) dr = Ok (inr (d_p d, produce d), dr).
Proof.
  intros Hd. unfold parse_producer. rewrite split_p by done. unfold p_text, p_parts, produce.
  destruct (d_produce d) as [n|] eqn:E; simpl.
  - destruct (eo_produce d Hd n E) as (_ & Hc & _).
    erewrite d_step by reflexivity. unfold cast_int. rewrite Hc. reflexivity.
  - by rewrite append_nil_r.
Qed.

Lemma parse_consumer_runs d dr :
  edesc_ok d -> parse_consumer (c_text d) dr = Ok (inr (d_c d, consume d, threshold d), dr).
Proof.
  intros Hd. unfold parse_consumer. rewrite split_c by done. unfold c_text, c_parts, consume, threshold.
  destruct (d_consume d) as [[n [k|]]|] eqn:E; simpl.
  - destruct (eo_consume d Hd n _ E) as (_ & Hc & _), (eo_threshold d Hd n k E) as (_ & Hk & _).
    erewrite d_step by reflexivity. unfold cast_int. rewrite Hc. erewrite d_step by reflexivity. cbv beta.
    erewrite d_step by (erewrite d_step by reflexivity; rewrite Hk; reflexivity). reflexivity.
  - destruct (eo_consume d Hd n _ E) as (_ & Hc & _).
    erewrite d_step by reflexivity. unfold cast_int. rewrite Hc. reflexivity.
  - by rewrite append_nil_r.
Qed.

Lemma numbers_ok d :
  edesc_ok d -> 0 < produce d < 2 ^ 31 /\ 0 < consume d < 2 ^ 31 /\ consume d <= threshold d < 2 ^ 31.
Proof.
  intros [_ _ Hp Hc Ht He]. split_and!; try done; unfold produce, consume, threshold in *.
  - destruct (d_produce d) as [n|]; [apply (Hp n eq_refl) | lia].
  - destruct (d_produce d) as [n|]; [apply (Hp n eq_refl) | lia].
  - destruct (d_consume d) as [[n k]|]; [apply (Hc n k eq_refl) | lia].
  - destruct (d_consume d) as [[n k]|]; [apply (Hc n k eq_refl) | lia].
  - destruct (d_consume d) as [[n [k|]]|]; [apply (Ht n k eq_refl) | lia | lia].
Qed.

Lemma attr_ok d : edesc_ok d -> attr_rejected (attr_of d) = false.
Proof.
  intros Hd. destruct (numbers_ok d Hd) as (Hp & Hc & Ht).
  unfold attr_rejected, attr_of. cbn [type nr_produce nr_consume nr_threshold].
  change (has_flag pgm_cv_edge PGM_EDGE_MQ) with false. change (has_flag pgm_cv_edge PGM_EDGE_RING) with false.
  change (pgm_cv_edge =? 0) with false. simpl.
  rewrite !orb_false_iff. split_and!; try done; (apply Z.ltb_ge || apply Z.leb_gt); lia.
Qed.

(** The name of the edge between two nodes fits. *)
Definition edge_name_ok (d : edesc) : Prop :=
  (String.length (d_p d) + String.length (d_c d) + 6 <= PGM_EDGE_NAME_LEN)%nat.

Lemma edge_name_accepted d :
  name_ok (d_p d) -> name_ok (d_c d) -> edge_name_ok d ->
  bad_name_len (lit (make_edge_name (d_p d) (d_c d))) PGM_EDGE_NAME_LEN = false.
Proof.
  intros (Hp & _) (Hc & _) Hl. unfold edge_name_ok in Hl. unfold bad_name_len, make_edge_name.
  assert (Hlen : List.length (lit ("edge_" +:+ d_p d +:+ "_" +:+ d_c d)) =
    (String.length (d_p d) + String.length (d_c d) + 6)%nat).
  { rewrite !lit_app, !length_app, !length_lit. simpl. lia. }
  rewrite strnlen_plain, Hlen; [| |lia].
  - apply orb_false_iff. split; [apply Z.leb_gt | apply Z.ltb_ge]; lia.
  - rewrite !lit_app, !not_elem_of_app. split_and!; [|done| |done]; cbn; set_solver.
Qed.

(** What one edge needs: names that are nodes, and room in the graph. *)
Record edge_fits (g : Z) (l : list string) (m : gmap string node_t) gr (d : edesc) : Prop := {
  ef_ok : edesc_ok d;
  ef_names : name_ok (d_p d) /\ name_ok (d_c d) /\ edge_name_ok d;
  ef_p : m !! d_p d = Some (Node_t g (index l (d_p d)));
  ef_c : m !! d_c d = Some (Node_t g (index l (d_c d)));
  ef_pn : 0 <= index l (d_p d) < nr_nodes gr;
  ef_cn : 0 <= index l (d_c d) < nr_nodes gr
}.

Lemma add_edge_runs g l m s gr d es errs :
  usable s g gr -> graph_wf gr -> edge_fits g l m gr d -> nr_edges gr + 1 <> PGM_MAX_EDGES ->
  nr_out (gnode gr (index l (d_p d))) + 1 <> PGM_MAX_OUT_DEGREE ->
  nr_in (gnode gr (index l (d_c d))) + 1 <> PGM_MAX_IN_DEGREE ->
  add_edge junk_edge m (e_text d) es (Driver s errs) =
  Ok (inr (es ++ [Edge_t g (nr_edges gr)]),
      Driver (put_graph g (link_edge (index l (d_p d)) (index l (d_c d)) (edge_from g l d) gr) s) errs).
Proof.
  intros Hs Hwf [Hd (Hnp & Hnc & Hne) Emp Emc Hp Hc] He Ho Hi.
  destruct (numbers_ok d Hd) as (Hvp & Hvc & Hvt).
  unfold add_edge. rewrite split_e by done. cbn [List.length Nat.ltb Nat.leb Nat.eqb].
  erewrite d_step by reflexivity. cbv beta. erewrite d_step by by apply parse_producer_runs. cbv beta iota.
  erewrite d_step by reflexivity. cbv beta. erewrite d_step by by apply parse_consumer_runs. cbv beta iota.
  unfold nodeMap_at. rewrite Emp, Emc. cbn [default from_option id].
  replace (Attr (wrap64 (produce d)) (wrap64 (consume d)) (wrap64 (threshold d)) pgm_cv_edge 0 0 0)
    with (attr_of d) by (unfold attr_of, wrap64; by rewrite !Z.mod_small by lia).
  erewrite d_step; cycle 1.
  - unfold call, pgm_init_edge. cbn [lib]. rewrite (init_edge_runs s g gr) by (done || lia).
    unfold init_edge_result. rewrite edge_name_accepted, attr_ok by done.
    rewrite !(proj2 (Z.eqb_neq _ _)), !(proj2 (Z.leb_gt _ _)) by (done || lia). simpl.
    rewrite (finish_cv s g gr Hs Hwf). reflexivity.
  - cbv beta iota. erewrite d_step by reflexivity. reflexivity.
Qed.

(** How many edges of a description leave or enter a node. *)
Definition outs (l : list string) (ds : list edesc) (i : Z) : Z :=
  Z.of_nat (List.length (filter (fun d => index l (d_p d) = i) ds)).
Definition ins (l : list string) (ds : list edesc) (i : Z) : Z :=
  Z.of_nat (List.length (filter (fun d => index l (d_c d) = i) ds)).

Lemma outs_cons l d ds i :
  outs l (d :: ds) i = outs l ds i + (if decide (index l (d_p d) = i) then 1 else 0) /\
  ins l (d :: ds) i = ins l ds i + (if decide (index l (d_c d) = i) then 1 else 0).
Proof.
  unfold outs, ins. rewrite !filter_cons. split; case_decide; cbn [List.length]; lia.
Qed.

Lemma add_edges_loop g l m ds s gr es errs :
  usable s g gr -> graph_wf gr -> Forall (edge_fits g l m gr) ds ->
  nr_edges gr + Z.of_nat (List.length ds) < PGM_MAX_EDGES ->
  (forall i, is_node gr i -> nr_out (gnode gr i) + outs l ds i < PGM_MAX_OUT_DEGREE) ->
  (forall i, is_node gr i -> nr_in (gnode gr i) + ins l ds i < PGM_MAX_IN_DEGREE) ->
  graph_wf (with_edges g l ds gr) /\
  loop (e_text <$> ds) es (add_edge junk_edge m) (Driver s errs) =
  Ok (inr (es ++ (Edge_t g <$> seqZ (nr_edges gr) (Z.of_nat (List.length ds)))),
      Driver (put_graph g (with_edges g l ds gr) s) errs).
Proof.
  revert s gr es. induction ds as [|d ds IH]; intros s gr es Hs Hwf Hfit Hn Ho Hi.
  - split; [done|]. simpl. rewrite app_nil_r, (put_graph_id s g gr); [done|apply Hs|apply Hs].
  - apply Forall_cons in Hfit as [Hd Hfit]. cbn [List.length] in Hn.
    set (gr1 := link_edge (index l (d_p d)) (index l (d_c d)) (edge_from g l d) gr).
    assert (Hpo : nr_out (gnode gr (index l (d_p d))) + 1 <> PGM_MAX_OUT_DEGREE).
    { specialize (Ho (index l (d_p d)) (ef_pn _ _ _ _ _ Hd)). destruct (outs_cons l d ds (index l (d_p d))) as [Eo _].
      rewrite decide_True in Eo by done. unfold outs in *. lia. }
    assert (Hci : nr_in (gnode gr (index l (d_c d))) + 1 <> PGM_MAX_IN_DEGREE).
    { specialize (Hi (index l (d_c d)) (ef_cn _ _ _ _ _ Hd)). destruct (outs_cons l d ds (index l (d_c d))) as [_ Ei].
      rewrite decide_True in Ei by done. unfold ins in *. lia. }
    assert (Hwf1 : graph_wf gr1).
    { destruct Hd as [Hok _ _ _ Hp Hc]. apply link_fresh_wf; try done; [lia|]. by apply attr_accepted, attr_ok. }
    assert (Hs1 : usable (put_graph g gr1 s) g gr1) by (apply (usable_put s g gr); [done | apply Hs | apply Hs]).
    destruct (IH _ gr1 (es ++ [Edge_t g (nr_edges gr)]) Hs1 Hwf1) as [Hw E].
    + apply (Forall_impl _ _ _ Hfit). by intros e [].
    + simpl. lia.
    + intros i Hn'. unfold gr1.
      destruct (sizes_link (index l (d_p d)) (index l (d_c d)) (edge_from g l d) gr i) as [_ ->].
      specialize (Ho i Hn'). destruct (outs_cons l d ds i) as [Eo _]. rewrite Eo in Ho. lia.
    + intros i Hn'. unfold gr1.
      destruct (sizes_link (index l (d_p d)) (index l (d_c d)) (edge_from g l d) gr i) as [-> _].
      specialize (Hi i Hn'). destruct (outs_cons l d ds i) as [_ Ei]. rewrite Ei in Hi. lia.
    + split; [done|]. rewrite fmap_cons. cbn [loop].
      erewrite d_step by (apply (add_edge_runs g l m s gr); try done; lia). fold gr1.
      rewrite E, put_put. cbn [List.length]. rewrite Nat2Z.inj_succ, (seqZ_cons (nr_edges gr)) by lia.
      rewrite fmap_cons, <- app_assoc. simpl. by rewrite Z.pred_succ, <- Z.add_1_r.
Qed.

(** *** The graph *)

Lemma with_edges_size g l ds gr :
  nr_nodes (with_edges g l ds gr) = nr_nodes gr /\
  nr_edges (with_edges g l ds gr) = nr_edges gr + Z.of_nat (List.length ds) /\
  in_use (with_edges g l ds gr) = in_use gr /\ g_lock (with_edges g l ds gr) = g_lock gr.
Proof.
  revert gr. induction ds as [|d ds IH]; intros gr; simpl; [split_and!; try done; lia|].
  match goal with |- context [with_edges g l ds ?x] => destruct (IH x) as (-> & -> & -> & ->) end.
  simpl. split_and!; try done. lia.
Qed.

Lemma with_edges_name g l ds gr i : n_name (gnode (with_edges g l ds gr) i) = n_name (gnode gr i).
Proof.
  revert gr. induction ds as [|d ds IH]; intros gr; simpl; [done|]. rewrite IH, gnode_link.
  assert (Hc : forall a b n, n_name (count_in_edge a b n) = n_name n).
  { intros a b n. unfold count_in_edge. by destruct (is_signal_driven_attr a), (is_data_passing_attr a), b. }
  repeat case_decide; cbn; by rewrite ?Hc.
Qed.

Lemma with_edges_old g l ds gr e : e < nr_edges gr -> gedge (with_edges g l ds gr) e = gedge gr e.
Proof.
  revert gr. induction ds as [|d ds IH]; intros gr He; simpl; [done|].
  rewrite IH by (simpl; lia). apply gedge_link_old. lia.
Qed.

Lemma with_edges_new g l ds gr j d :
  ds !! j = Some d -> gedge (with_edges g l ds gr) (nr_edges gr + Z.of_nat j) = edge_from g l d.
Proof.
  revert gr j. induction ds as [|e ds IH]; intros gr [|j] E; simpl in *; try done.
  - injection E as ->. rewrite Z.add_0_r, with_edges_old by (simpl; lia). apply gedge_link_new.
  - match goal with |- context [with_edges g l ds ?x] => rewrite <- (IH x j E) end. f_equal. simpl. lia.
Qed.

Lemma strncpy_plain l : NUL ∉ l -> strncpy_bytes l (List.length l) = l.
Proof.
  induction l as [|c l IH]; intros Hl; [done|]. simpl. rewrite bool_decide_eq_false_2 by set_solver.
  f_equal. apply IH. set_solver.
Qed.

Lemma std_string_lit x r : NUL ∉ lit x -> std_string (lit x ++ NUL :: r) = Ok x.
Proof.
  induction x as [|c x IH]; intros Hx; [done|]. simpl in *. rewrite bool_decide_eq_false_2 by set_solver.
  fold (lit x). rewrite IH by set_solver. done.
Qed.

(** A new node carries its name. *)
Lemma fresh_node_name x :
  name_ok x -> std_string (n_name (fresh_node (lit x))) = Ok x /\ NUL ∈ n_name (fresh_node (lit x)).
Proof.
  intros (Hn & _ & Hl). unfold fresh_node. cbn [n_name set_field].
  assert (E : strncpy (n_name (zeroed (A := pgm_node))) (lit x) (strnlen (lit x) PGM_NODE_NAME_LEN) =
    (lit x ++ NUL :: replicate (PGM_NODE_NAME_LEN - S (String.length x)) NUL)%list).
  { rewrite strnlen_plain by (rewrite ?length_lit; auto with lia). unfold strncpy.
    rewrite strncpy_plain by done. f_equal. rewrite length_lit. cbn [n_name zeroed Zeroed_node].
    rewrite drop_replicate. by replace (PGM_NODE_NAME_LEN - String.length x)%nat
      with (S (PGM_NODE_NAME_LEN - S (String.length x))) by lia. }
  change (std_string (strncpy (n_name (zeroed (A := pgm_node))) (lit x)
    (strnlen (lit x) PGM_NODE_NAME_LEN)) = Ok x /\
    NUL ∈ strncpy (n_name (zeroed (A := pgm_node))) (lit x) (strnlen (lit x) PGM_NODE_NAME_LEN)).
  rewrite E. split; [by apply std_string_lit|]. apply elem_of_app. right. constructor.
Qed.

Section Built.
Context (g : Z) (gr : pgm_graph) (ds : list edesc).
#[local] Abbreviation l := (names ds).
#[local] Abbreviation gn := (with_nodes l gr).
#[local] Abbreviation built := (with_edges g l ds gn).
Context (Hn : nr_nodes gr = 0) (He : nr_edges gr = 0).
Context (Hnames : Forall (fun d => name_ok (d_p d) /\ name_ok (d_c d) /\ edge_name_ok d) ds).

Lemma names_are_ok : Forall name_ok l.
Proof.
  apply Forall_forall. intros x (d & Hd & Hx)%elem_of_names. rewrite Forall_forall in Hnames.
  destruct (Hnames d Hd) as (? & ? & _), Hx; by subst.
Qed.

Lemma built_sizes :
  nr_nodes built = Z.of_nat (List.length l) /\ nr_edges built = Z.of_nat (List.length ds) /\
  in_use built = in_use gr /\ g_lock built = g_lock gr.
Proof.
  destruct (with_edges_size g l ds gn) as (-> & -> & -> & ->).
  destruct (with_nodes_size l gr) as (-> & -> & -> & ->). rewrite Hn, He. done.
Qed.

Lemma built_node i x :
  l !! i = Some x -> n_name (gnode built (Z.of_nat i)) = n_name (fresh_node (lit x)).
Proof.
  intros Ex. rewrite with_edges_name. rewrite <- (with_nodes_new l gr i x Ex). by rewrite Hn.
Qed.

Lemma built_name i x : l !! i = Some x -> name_of built (Z.of_nat i) = x.
Proof.
  intros Ex. pose proof names_are_ok as Hok. rewrite Forall_lookup in Hok.
  unfold name_of. rewrite (built_node i x Ex). by rewrite (proj1 (fresh_node_name x (Hok i x Ex))).
Qed.

Lemma node_index i : is_node built i -> exists k x, i = Z.of_nat k /\ l !! k = Some x.
Proof.
  intros Hi. unfold is_node in Hi. destruct built_sizes as (E & _). rewrite E in Hi.
  destruct (lookup_lt_is_Some_2 l (Z.to_nat i)) as [x Hx]; [lia|]. exists (Z.to_nat i), x. split; [lia|done].
Qed.

Lemma built_names_ok : names_ok built.
Proof.
  pose proof names_are_ok as Hok. rewrite Forall_lookup in Hok. split.
  - intros i (k & x & -> & Ex)%node_index. rewrite (built_node k x Ex). by apply fresh_node_name, (Hok k).
  - intros i j (k & x & -> & Ex)%node_index (k' & y & -> & Ey)%node_index.
    rewrite (built_name k x Ex), (built_name k' y Ey). intros ->. f_equal.
    by apply (NoDup_lookup l k k' y (nodup_names ds)).
Qed.

Lemma index_name x : x ∈ l -> name_of built (index l x) = x /\ 0 <= index l x < nr_nodes gn.
Proof.
  intros (i & Ei & ->)%index_lookup. split; [by apply built_name|].
  destruct (with_nodes_size l gr) as (-> & _). rewrite Hn. apply lookup_lt_Some in Ei. lia.
Qed.

Lemma ends_are_names d : d ∈ ds -> d_p d ∈ l /\ d_c d ∈ l.
Proof. intros Hd. split; apply elem_of_names; eauto. Qed.

(** Every edge of the description is there. *)
Lemma built_edge j d :
  ds !! j = Some d ->
  let e := gedge built (Z.of_nat j) in
  name_of built (e_producer e) = d_p d /\ name_of built (e_consumer e) = d_c d /\
  e_attr e = attr_of d /\ is_backedge e = false /\ nr_pending e = 0.
Proof.
  intros Ed e. pose proof (with_edges_new g l ds gn j d Ed) as E.
  destruct (with_nodes_size l gr) as (_ & E2 & _). rewrite E2, He, Z.add_0_l in E. unfold e. rewrite E.
  destruct (ends_are_names d) as [Hp Hc]; [by eapply list_elem_of_lookup_2|].
  split_and!; try done; simpl; by apply index_name.
Qed.

Lemma fits_all m :
  Forall edesc_ok ds -> maps_names g 0 l m -> Forall (edge_fits g l m gn) ds.
Proof.
  intros Hok Hm. apply Forall_forall. intros d Hd. pose proof Hnames as Hnm. rewrite Forall_forall in Hok, Hnm.
  destruct (ends_are_names d Hd) as [Hp Hc].
  destruct (index_lookup l _ Hp) as (i & Ei & Eip), (index_lookup l _ Hc) as (k & Ek & Ekc).
  split; [by apply Hok | by apply Hnm | | | by apply index_name | by apply index_name].
  - rewrite (Hm i _ Ei), Eip. done.
  - rewrite (Hm k _ Ek), Ekc. done.
Qed.

End Built.

Lemma new_nodes_empty gr l i :
  nr_nodes gr = 0 -> is_node (with_nodes l gr) i ->
  nr_out (gnode (with_nodes l gr) i) = 0 /\ nr_in (gnode (with_nodes l gr) i) = 0.
Proof.
  intros Hn Hi. unfold is_node in Hi. destruct (with_nodes_size l gr) as (Sn & _).
  destruct (lookup_lt_is_Some_2 l (Z.to_nat i)) as [x Hx]; [lia|].
  pose proof (with_nodes_new l gr _ x Hx) as E. rewrite Hn in E.
  replace (0 + Z.of_nat (Z.to_nat i)) with i in E by lia. by rewrite E.
Qed.

(** What fits into a graph. *)
Record description_fits (ds : list edesc) : Prop := {
  df_ok : Forall edesc_ok ds;
  df_names : Forall (fun d => name_ok (d_p d) /\ name_ok (d_c d) /\ edge_name_ok d) ds;
  df_nodes : Z.of_nat (List.length (names ds)) < PGM_MAX_NODES;
  df_edges : Z.of_nat (List.length ds) < PGM_MAX_EDGES;
  df_outs : forall i, outs (names ds) ds i < PGM_MAX_OUT_DEGREE;
  df_ins : forall i, ins (names ds) ds i < PGM_MAX_IN_DEGREE
}.

(** Both loops, one after the other. *)
Lemma build_runs g ds s gr nodes edges errs :
  usable s g gr -> nr_nodes gr = 0 -> nr_edges gr = 0 -> description_fits ds ->
  let l := names ds in
  let gr' := with_edges g l ds (with_nodes l gr) in
  graph_wf gr' /\ usable (put_graph g gr' s) g gr' /\
  exists m, loop l (∅, nodes) (add_named junk_node g) (Driver s errs) =
      Ok (inr (m, nodes ++ (Node_t g <$> upto (nr_nodes gr'))), Driver (put_graph g (with_nodes l gr) s) errs) /\
    loop (e_text <$> ds) edges (add_edge junk_edge m) (Driver (put_graph g (with_nodes l gr) s) errs) =
      Ok (inr (edges ++ (Edge_t g <$> upto (nr_edges gr'))), Driver (put_graph g gr' s) errs).
Proof.
  intros Hs Hn He [Hok Hnm Hln Hle Hout Hin] l gr'. fold l in Hln, Hout, Hin.
  destruct (with_nodes_size l gr) as (Sn & Se & Su & Sl).
  destruct (built_sizes g gr ds Hn He) as (Bn & Be & Bu & Bl). fold l gr' in Bn, Be, Bu, Bl.
  destruct (add_nodes_loop g l s gr ∅ nodes errs Hs) as (m & Hm & _ & En);
    [by apply empty_graph_wf | lia | by apply names_are_ok | apply nodup_names | done |].
  rewrite Hn in Hm, En. set (gn := with_nodes l gr) in *.
  assert (Hs1 : usable (put_graph g gn s) g gn)
    by (apply (usable_put s g gr); [done | rewrite Su; apply Hs | rewrite Sl; apply Hs]).
  assert (Hwn : graph_wf gn) by (apply with_nodes_wf; [by apply empty_graph_wf | lia]).
  destruct (add_edges_loop g l m ds _ gn edges errs Hs1 Hwn) as [Hwf Ee].
  - by apply fits_all.
  - lia.
  - intros i Hi. destruct (new_nodes_empty gr l i Hn Hi) as [E _]. fold gn in E. rewrite E. apply Hout.
  - intros i Hi. destruct (new_nodes_empty gr l i Hn Hi) as [_ E]. fold gn in E. rewrite E. apply Hin.
  - split; [done|]. split.
    + apply (usable_put s g gr); [done | rewrite Bu; apply Hs | rewrite Bl; apply Hs].
    + exists m. rewrite Bn, Be. split; [done|]. rewrite Ee, put_put, Se, He. done.
Qed.

Lemma parse_runs g d ds s gr nodes edges errs :
  usable s g gr -> nr_nodes gr = 0 -> nr_edges gr = 0 -> description_fits (d :: ds) ->
  let l := names (d :: ds) in
  let gr' := with_edges g l (d :: ds) (with_nodes l gr) in
  exists b, (b = true <-> acyclic gr' true) /\
    parse_graph_description junk_node junk_edge (text d ds) g nodes edges (Driver s errs) =
    Ok (if b : bool then inr (nodes ++ (Node_t g <$> upto (nr_nodes gr')),
                              edges ++ (Edge_t g <$> upto (nr_edges gr')))
        else inl (Runtime_error "graph is not acyclic"), Driver (put_graph g gr' s) errs).
Proof.
  intros Hs Hn He Hfit l gr'.
  destruct (build_runs g (d :: ds) s gr nodes edges errs Hs Hn He Hfit) as (Hwf & Hs' & m & En & Ee).
  fold l gr' in Hwf, Hs', En, Ee. set (s' := put_graph g gr' s) in *.
  destruct (dag_roots_decides gr' Hwf (built_names_ok g gr _ Hn He (df_names _ Hfit)) true) as (b & Eb & Hb).
  assert (Hdag : pgm_is_dag g true s' = Ok (if b then 1 else 0, s')).
  { pose proof Hs' as [Hg' Hu' _ _]. unfold pgm_is_dag. st_step. rewrite Hu'. simpl. st_step.
    unfold lift. rewrite Eb. done. }
  exists b. split; [done|]. unfold parse_graph_description, add_nodes.
  erewrite d_step by (apply node_names_runs; apply (df_ok _ Hfit)). cbv beta. fold l.
  erewrite d_step by exact En. cbv beta iota.
  rewrite split_edges by apply (df_ok _ Hfit). erewrite d_step by exact Ee. cbv beta.
  erewrite d_step by (unfold call; cbn [lib]; rewrite Hdag; reflexivity). cbv beta. by destruct b.
Qed.

(** C18. [parse_graph_description] on the text of at least one edge, each the
    producer's name, if wanted a dot and the number produced, a colon, the consumer's
    name, if wanted a dot and the number consumed, and after that a dot and the
    threshold; in an empty graph with room for it. The names have no comma, colon or
    dot, are not empty, are shorter than a node name may be, and the edge name made of
    two of them fits; the numbers are read by [lexical_cast] as positive [int]s; no
    edge consumes more than its threshold, which is 1 where none is given (so not
    [a:b.2], which is refused); and nodes, edges and degrees stay below the limits of
    a graph.  Then nodes are created for exactly the names that occur, in alphabetical
    order, then an edge for every entry, in order, between the nodes it names and with
    the numbers it gives (1 where it gives none). The handles are returned and no
    error is counted; if the edges form a cycle, an exception is thrown instead, with
    the graph in place. *)
Theorem parse_graph_description_builds g d ds s gr nodes edges errs :
  usable s g gr -> nr_nodes gr = 0 -> nr_edges gr = 0 ->
  let all := d :: ds in
  let l := names all in
  description_fits all ->
  let parse := parse_graph_description junk_node junk_edge (text d ds) g nodes edges (Driver s errs) in
  exists gr', let s' := put_graph g gr' s in
    usable s' g gr' /\ graph_wf gr' /\
    (StronglySorted before l /\ forall x, x ∈ l <-> exists d, d ∈ all /\ (x = d_p d \/ x = d_c d)) /\
    nr_nodes gr' = Z.of_nat (List.length l) /\
    (forall i x, l !! i = Some x -> name_of gr' (Z.of_nat i) = x) /\
    nr_edges gr' = Z.of_nat (List.length all) /\
    (forall j d, all !! j = Some d ->
       let e := gedge gr' (Z.of_nat j) in
       name_of gr' (e_producer e) = d_p d /\ name_of gr' (e_consumer e) = d_c d /\
       e_attr e = attr_of d /\ is_backedge e = false /\ nr_pending e = 0) /\
    (acyclic gr' true -> parse = Ok (inr (nodes ++ (Node_t g <$> upto (nr_nodes gr')),
       edges ++ (Edge_t g <$> upto (nr_edges gr'))), Driver s' errs)) /\
    (~ acyclic gr' true -> parse = Ok (inl (Runtime_error "graph is not acyclic"), Driver s' errs)).
Proof.
  intros Hs Hn He all l Hfit parse. pose proof (df_names _ Hfit) as Hnm.
  destruct (build_runs g all s gr nodes edges errs Hs Hn He Hfit) as (Hwf & Hs' & _).
  destruct (built_sizes g gr all Hn He) as (Bn & Be & _).
  destruct (parse_runs g d ds s gr nodes edges errs Hs Hn He Hfit) as (b & Hb & E).
  exists (with_edges g l all (with_nodes l gr)). cbv zeta. split_and!; try done.
  - apply sorted_names.
  - intros x. apply elem_of_names.
  - intros i x. by apply built_name.
  - intros j e. by apply built_edge.
  - intros Ha. unfold parse. rewrite E. apply Hb in Ha. by rewrite Ha.
  - intros Ha. unfold parse. rewrite E. destruct b; [|done]. by destruct Ha; apply Hb.
Qed.

End Code.

End Text.

(** ** A concrete reader *)

Fixpoint cut (p : ascii -> bool) (s : string) : string * list string :=
  match s with
  | EmptyString => (EmptyString, [])
  | String c s =>
      let '(first, rest) := cut p s in
      if p c then (EmptyString, first :: rest) else (String c first, rest)
  end.

Definition digits (s : string) : option Z :=
  fold_left (fun acc c =>
    a ← acc; if (48 <=? N_of_ascii c)%N && (N_of_ascii c <=? 57)%N
             then Some (10 * a + (Z.of_N (N_of_ascii c) - 48)) else None) (lit s) (Some 0).

#[local] Instance demo_text : BoostText := {|
  split p s := let '(first, rest) := cut p s in first :: rest;
  lexical_cast_int := digits;
  lexical_cast_u64 := digits;
  lexical_cast_double s := dofZ <$> digits s;
  math_gcd := Z.gcd;
  math_lcm := Z.lcm
|}.

Lemma cut_free p s t : free p s -> cut p (s +:+ t) = (s +:+ (cut p t).1, (cut p t).2).
Proof.
  induction s as [|c s IH]; intros Hs.
  - change (cut p t = ((cut p t).1, (cut p t).2)). by destruct (cut p t).
  - apply Forall_cons in Hs as [Hc Hs]. change (String c s +:+ t) with (String c (s +:+ t)).
    cbn [cut]. rewrite (IH Hs), Hc. done.
Qed.

#[local] Instance demo_text_laws : BoostTextLaws demo_text.
Proof.
  intros p first rest Hf Hr. unfold split, demo_text. rewrite cut_free by done.
  assert (Hcut : cut p (glue rest) = (EmptyString, rest.*2)).
  { induction Hr as [|[c s] rest [Hc Hs] Hr IH]; [done|]. cbn [fst snd] in Hc, Hs.
    change (cut p (String c (s +:+ glue rest)) = (EmptyString, s :: rest.*2)).
    cbn [cut]. rewrite cut_free, IH by done. rewrite Hc. cbn [fst snd]. by rewrite append_nil_r. }
  rewrite Hcut. cbn [fst snd]. by rewrite append_nil_r.
Qed.

(** "a:b,b.2:c.1.3" *)
Definition demo_first : edesc := Edesc "a" None "b" None.
Definition demo_second : edesc :=
  Edesc "b" (Some (Num "2" 2)) "c" (Some (Num "1" 1, Some (Num "3" 3))).

Lemma demo_free s : forallb (fun c => negb (seps c)) (lit s) = true -> free seps s.
Proof. intros H%Is_true_eq_left%forallb_True. apply (Forall_impl _ _ _ H). intros c Hc. by destruct (seps c). Qed.

Lemma demo_num n :
  forallb (fun c => negb (seps c)) (lit (token n)) = true -> digits (token n) = Some (val n) ->
  0 < val n < 2 ^ 31 -> num_ok n.
Proof. intros Hf Hd Hv. split; [by apply demo_free|done]. Qed.

Lemma demo_edesc : edesc_ok demo_first /\ edesc_ok demo_second.
Proof.
  split; split.
  1,2,7,8: apply demo_free; reflexivity.
  4,8: apply Z.leb_le; reflexivity.
  1-3: discriminate.
  all: intros; simplify_eq/=; apply demo_num; [reflexivity | reflexivity | simpl; lia].
Qed.

Lemma demo_fits : description_fits [demo_first; demo_second].
Proof.
  split.
  - rewrite Forall_cons, Forall_singleton. split; apply demo_edesc.
  - rewrite Forall_cons, Forall_singleton. unfold name_ok, edge_name_ok.
    split_and!; try (intros Hin%list_elem_of_singleton; discriminate Hin); apply Nat.leb_le; reflexivity.
  - vm_compute. reflexivity.
  - vm_compute. reflexivity.
  - intros i. unfold outs. apply (Z.le_lt_trans _ 2); [|reflexivity].
    apply (inj_le _ 2), (length_filter _ [demo_first; demo_second]).
  - intros i. unfold ins. apply (Z.le_lt_trans _ 2); [|reflexivity].
    apply (inj_le _ 2), (length_filter _ [demo_first; demo_second]).
Qed.

Lemma parse_graph_description_builds_witness :
  text demo_first [demo_second] = "a:b,b.2:c.1.3"%string /\
  exists gr', graph_wf gr' /\ nr_nodes gr' = 3 /\ name_of gr' 2 = "c"%string /\
    nr_edges gr' = 2 /\ nr_threshold (e_attr (gedge gr' 1)) = 3 /\
    name_of gr' (e_producer (gedge gr' 1)) = "b"%string.
Proof.
  split; [reflexivity|].
  destruct (parse_graph_description_builds (Node_t 0 0) (Edge_t 0 0) 0 demo_first [demo_second]
    (demo_state demo_graph) demo_graph [] [] 0) as (gr' & _ & Hwf & _ & Hn & Hname & He & Hedge & _);
    [by apply demo_usable | done | done | apply demo_fits |].
  exists gr'. split_and!; [done | done | by apply (Hname 2%nat) | done | |].
  - destruct (Hedge 1%nat demo_second eq_refl) as (_ & _ & Ea & _).
    change (Z.of_nat 1) with 1 in Ea. by rewrite Ea.
  - by destruct (Hedge 1%nat demo_second eq_refl) as (Ep & _).
Defined.

(** A number to consume without a threshold, which the help text of pgmrt allows: the
    threshold stays 1, so any number above 1 is refused, an error is counted, and no
    edge is linked. *)
Example consume_without_threshold_refused :
  match parse_graph_description (Node_t 0 0) (Edge_t 0 0) "a:b.2" 0 [] [] (Driver (demo_state demo_graph) 0) with
  | Ok (inr (ns, _), Driver s errs) => ns = [Node_t 0 0; Node_t 0 1] /\ errs = 1 /\
      exists m, gGraphs s = Some m /\ nr_nodes (cell m 0) = 2 /\ nr_edges (cell m 0) = 0
  | _ => False
  end.
Proof. vm_compute. do 2 (split; [reflexivity|]). eexists. split; [reflexivity|]. split; reflexivity. Qed.

End Describe.
