(* ===== verification/Rates.v ===== *)
(** * The rates of a described graph (tools/pgmrt.cpp, [parse_graph_rates])

    From the arrival rates of some nodes [parse_graph_rates] works out the rate
    of every node that can be reached from them, with a work list.  On an
    acyclic graph the work list runs empty; where the given rates fit together
    and the numbers stay within 64 bits, every rate it finds is exact. *)

From S2P Require Import Prelude Ring Types Sys Structure Memory Ipc GraphInit GraphWf Teardown Query Search Lookup Double Depth Driver Describe.
From stdpp Require Import relations.
From Stdlib Require Import Ascii String Sorted.

Module Rates.
Import Types Sys Structure GraphInit GraphWf Query Search Lookup Double Depth Driver Describe.
#[local] Open Scope Z_scope.

(** ** Boost's documented behaviour *)

Class BoostMathLaws `(BoostText) : Prop := {
  gcd_law a b : 0 <= a < 2 ^ 64 -> 0 <= b < 2 ^ 64 -> math_gcd a b = Z.gcd a b;
  lcm_law a b : 0 <= a < 2 ^ 64 -> 0 <= b < 2 ^ 64 -> Z.lcm a b < 2 ^ 64 -> math_lcm a b = Z.lcm a b
}.

(** ** Exact rates

    [T] is an interval after which everything repeats, [X] the number of
    arrivals in it.  A rate is exact when its interval divides [T] and it has
    the arrivals of [X] in proportion. *)

Definition exact (T X : Z) (r : rate) : Prop :=
  0 < r_y r /\ (r_y r | T) /\ r_x r * T = r_y r * X.

Lemma exact_parts T X r :
  0 < T -> 0 <= X -> exact T X r ->
  exists m, 0 < m /\ T = r_y r * m /\ X = r_x r * m /\ 0 <= r_x r <= X /\ r_y r <= T.
Proof.
  intros HT HX (Hy & [m Hm] & Hx). exists m. assert (0 < m) by nia.
  assert (Xm : X = r_x r * m) by nia. split_and!; nia.
Qed.

Section Step.
Context (T X X' p c : Z) (r : rate).
Context (HT : 0 < T) (HX : 0 <= X) (Hp : 0 < p) (Hc : 0 < c) (Hflow : X' * c = X * p).
Context (Hr : exact T X r).

#[local] Abbreviation y0 := (c * r_y r / Z.gcd (p * r_x r) c).

Lemma step_parts : exists c' k m,
  0 < c' /\ y0 = c' * r_y r /\ 0 < r_y r /\ T = r_y r * c' * m /\ 0 < m /\ X' = m * k /\
  p * r_x r * c' = c * k.
Proof.
  destruct (exact_parts T X r HT HX Hr) as (m & Hm & ET & EX & Hx & Hy).
  set (g := Z.gcd (p * r_x r) c). assert (Hg : 0 < g).
  { pose proof (Z.gcd_nonneg (p * r_x r) c) as Hg. assert (g <> 0); [|lia].
    intros E. apply Z.gcd_eq_0_r in E. lia. }
  destruct (Z.gcd_divide_l (p * r_x r) c) as [k Ek]. destruct (Z.gcd_divide_r (p * r_x r) c) as [c' Ec].
  fold g in Ek, Ec. assert (Hcop : Z.gcd c' k = 1).
  { rewrite Z.gcd_comm. rewrite <- (Z.gcd_div_gcd (p * r_x r) c g); [f_equal| lia | done].
    - rewrite Ek. by rewrite Z.div_mul by lia.
    - rewrite Ec. by rewrite Z.div_mul by lia. }
  assert (Hc' : 0 < c') by nia. destruct Hr as (Hy0 & _).
  assert (E1 : X' * c' = k * m) by (apply (Z.mul_reg_r _ _ g); nia).
  destruct (Z.gauss c' k m) as [q Eq]; [exists X'; lia | done |].
  exists c', k, q. split_and!; try done; try nia.
  rewrite Ec. replace (c' * g * r_y r) with (c' * r_y r * g) by lia. by rewrite Z.div_mul by lia.
Qed.

(** The interval of the successor divides [T], and every multiple of it that
    does has the exact number of arrivals. *)
Lemma step_interval : 0 < y0 /\ (y0 | T).
Proof.
  destruct step_parts as (c' & k & m & Hc' & -> & Hy & ET & _). split; [nia|]. exists m. lia.
Qed.

Lemma step_exact y :
  0 < y -> (y0 | y) -> (y | T) -> exact T X' (Rate y (y * p * r_x r / (c * r_y r))).
Proof.
  destruct step_parts as (c' & k & m & Hc' & E & Hy & ET & Hm & EX & Ek). rewrite E.
  intros Hy' [j Ej] HyT. split_and!; [done..|]. cbn [r_x r_y].
  replace (y * p * r_x r) with (j * k * (c * r_y r)) by (rewrite Ej; nia).
  rewrite Z.div_mul by nia. rewrite EX, ET, Ej. lia.
Qed.

End Step.

(** ** Loops *)

Lemma loop_inv {W A B} (I : list A -> B -> Prop) l b (body : A -> B -> DM W B) dr :
  I [] b ->
  (forall done x rest b, l = done ++ x :: rest -> I done b ->
     exists b', body x b dr = Ok (inr b', dr) /\ I (done ++ [x]) b') ->
  exists b', loop l b body dr = Ok (inr b', dr) /\ I l b'.
Proof.
  intros H0 Hstep. assert (Hgo : forall rest done b, l = done ++ rest -> I done b ->
    exists b', loop rest b body dr = Ok (inr b', dr) /\ I l b').
  { induction rest as [|x rest IH]; intros done c E Hc.
    - rewrite app_nil_r in E. subst done. by exists c.
    - destruct (Hstep done x rest c E Hc) as (c' & Ec & Hc'). cbn [loop].
      erewrite d_step by exact Ec. apply (IH (done ++ [x])); [by rewrite <- app_assoc | done]. }
  by apply (Hgo l []).
Qed.

(** The same without the elements done. *)
Lemma loop_keeps {W A B} (I : B -> Prop) l b (body : A -> B -> DM W B) dr :
  I b -> (forall x b, x ∈ l -> I b -> exists b', body x b dr = Ok (inr b', dr) /\ I b') ->
  exists b', loop l b body dr = Ok (inr b', dr) /\ I b'.
Proof.
  intros H0 Hstep. apply (loop_inv (fun _ => I)); [done|]. intros done x rest c -> Hc.
  apply Hstep; [set_solver|done].
Qed.

(** ** Described graphs

    What [parse_graph_description] leaves behind: no cycles and no back edges,
    names that are found again, edges named after their ends. *)

Definition is_edge (gr : pgm_graph) (e : Z) : Prop := 0 <= e < nr_edges gr.

Definition edge_named (gr : pgm_graph) (e : Z) : list ascii :=
  lit (make_edge_name (name_of gr (e_producer (gedge gr e))) (name_of gr (e_consumer (gedge gr e)))).

Record described (gr : pgm_graph) : Prop := {
  ds_wf : graph_wf gr;
  ds_names : names_ok gr;
  ds_linked : linked gr;
  ds_acyclic : acyclic gr true;
  ds_name : forall i, is_node gr i -> name_ok (name_of gr i);
  ds_first : forall i j, is_node gr i -> 0 <= j < i ->
    ~ starts_with (n_name (gnode gr j)) (lit (name_of gr i)) PGM_NODE_NAME_LEN;
  ds_forward : forall e, is_edge gr e -> is_backedge (gedge gr e) = false;
  ds_edge : forall e, is_edge gr e ->
    bad_name_len (edge_named gr e) PGM_EDGE_NAME_LEN = false /\
    starts_with (e_name (gedge gr e)) (edge_named gr e) PGM_EDGE_NAME_LEN;
  ds_produce : forall e, is_edge gr e -> 0 < nr_produce (e_attr (gedge gr e)) < 2 ^ 31;
  ds_consume : forall e, is_edge gr e -> 0 < nr_consume (e_attr (gedge gr e)) < 2 ^ 31
}.

Lemma std_string_inv buf x :
  std_string buf = Ok x -> exists r, buf = (lit x ++ NUL :: r)%list.
Proof.
  revert x. induction buf as [|c buf IH]; intros x; [done|]. simpl.
  case_bool_decide as Hc; [intros [= <-]; subst c; by exists buf|].
  destruct (std_string buf) as [y|] eqn:E; [|done]. intros [= <-].
  destruct (IH y eq_refl) as [r ->]. by exists r.
Qed.

Lemma signed_small x : 0 < x < 2 ^ 31 -> signed 32 x = x.
Proof.
  intros Hx. unfold signed. rewrite Z.mod_small by lia.
  destruct (Z.ltb_spec x (2 ^ (32 - 1))); [done|]. change (32 - 1) with 31 in *. lia.
Qed.

Section Reads.
Context {W : Type} `{Syscalls W} `{L : BoostTextLaws} (junk_node : node_t) (junk_edge : edge_t).
Context (s : pgm_state W) (g : Z) (gr : pgm_graph) (Hs : usable s g gr) (D : described gr).
#[local] Abbreviation nm := (name_of gr).
Implicit Types (errs : Z).

Lemma call_reads {A} (m : ST (pgm_state W) A) a errs :
  m s = Ok (a, s) -> call m (Driver s errs) = Ok (inr a, Driver s errs).
Proof. intros E. unfold call. cbn [lib]. by rewrite E. Qed.

Lemma node_in_array i : is_node gr i -> 0 <= i < PGM_MAX_NODES.
Proof. pose proof (gw_nodes gr (ds_wf gr D)). unfold is_node. lia. Qed.

Lemma edge_in_array e : is_edge gr e -> 0 <= e < PGM_MAX_EDGES.
Proof. pose proof (gw_edges gr (ds_wf gr D)). unfold is_edge. lia. Qed.

Lemma name_string_runs i errs :
  is_node gr i -> name_string (Node_t g i) (Driver s errs) = Ok (inr (nm i), Driver s errs).
Proof.
  intros Hi. pose proof (node_in_array i Hi). destruct Hs as [Hg Hu _ _].
  unfold name_string. erewrite d_step; cycle 1.
  - apply call_reads. unfold pgm_get_name, get_node. st_step. rewrite Hu. simpl. st_step. reflexivity.
  - cbv beta iota. unfold dlift. fold (gnode gr i). by rewrite (name_at gr (ds_names gr D) i Hi).
Qed.

Lemma node_starts i : is_node gr i -> starts_with (n_name (gnode gr i)) (lit (nm i)) PGM_NODE_NAME_LEN.
Proof.
  intros Hi. destruct (std_string_inv _ _ (name_at gr (ds_names gr D) i Hi)) as [r E].
  destruct (ds_name gr D i Hi) as (Hn & _ & Hl). unfold starts_with. rewrite E.
  rewrite strnlen_plain by (rewrite ?length_lit; auto with lia). by rewrite take_app_length, firstn_all.
Qed.

Lemma find_node_runs i errs :
  is_node gr i -> find_node junk_node g (nm i) (Driver s errs) = Ok (inr (Node_t g i), Driver s errs).
Proof.
  intros Hi. destruct Hs as [Hg Hu Hl _]. unfold find_node. erewrite d_step; cycle 1.
  - apply call_reads, (find_node_result s g gr); try done; [apply D|].
    by apply name_accepted, (ds_name gr D).
  - pose proof (find_named_cases (nr_nodes gr) (fun i => n_name (gnode gr i)) (lit (nm i)) PGM_NODE_NAME_LEN) as Hf.
    destruct (find_named _ _ _ _) as [j|].
    + destruct Hf as (Hj & Hsj & Hlow). assert (j = i) as ->; [|done].
      destruct (Z.lt_trichotomy j i) as [Hji|[->|Hij]]; [|done|].
      * destruct (ds_first gr D i j Hi); [lia|done].
      * destruct (Hlow i); [unfold is_node in Hi; lia | by apply node_starts].
    + destruct (Hf i Hi). by apply node_starts.
Qed.

Lemma listed_runs size nr l i s1 :
  0 <= nr <= size -> i ∈ (cell l <$> upto nr) -> listed (W := W) size nr l i s1 = Ok (true, s1).
Proof.
  intros Hnr (j & -> & Hj)%list_elem_of_fmap. unfold listed.
  erewrite bind_step; [|apply (for_break_pure _ _ (fun k => if cell l j =? cell l k then Some tt else None))].
  - cbv beta. destruct (first_some _ _) eqn:E; [done|].
    pose proof (proj1 (first_some_None _ _) E j Hj) as Ej. simpl in Ej. by rewrite Z.eqb_refl in Ej.
  - intros k Hk%elem_of_upto. by erewrite bind_step by (unfold lift; by rewrite aget_ok by lia).
Qed.

Lemma edge_ends e :
  is_edge gr e -> is_node gr (e_producer (gedge gr e)) /\ is_node gr (e_consumer (gedge gr e)) /\
    e ∈ out_list (gnode gr (e_producer (gedge gr e))) /\ e ∈ in_list (gnode gr (e_consumer (gedge gr e))).
Proof.
  intros He. destruct (ds_linked gr D e He) as [Hp Ho].
  by destruct (nw_out_edges _ _ (gw_node gr (ds_wf gr D) _ Hp) e Ho) as (_ & _ & ? & ?).
Qed.

(** Which edge is found. *)
Definition match_edge (p c : Z) (name : list ascii) (e : Z) : option Z :=
  if (e_producer (gedge gr e) =? p) && (e_consumer (gedge gr e) =? c)
     && bool_decide (starts_with (e_name (gedge gr e)) name PGM_EDGE_NAME_LEN)
  then Some e else None.

Lemma match_edge_Some p c name e e' :
  match_edge p c name e = Some e' ->
  e' = e /\ e_producer (gedge gr e) = p /\ e_consumer (gedge gr e) = c.
Proof.
  unfold match_edge. destruct (_ && _) eqn:E; [|done]. intros [= <-].
  apply andb_true_iff in E as [[?%Z.eqb_eq ?%Z.eqb_eq]%andb_true_iff _]. done.
Qed.

Lemma find_edge_result p c name :
  bad_name_len name PGM_EDGE_NAME_LEN = false ->
  exists a, pgm_find_edge (Some junk_edge) (Node_t g p) (Node_t g c) (Some name) false s =
  Ok (match first_some (match_edge p c name) (upto (nr_edges gr)) with
      | Some e => (0, Some (Edge_t g e), a) | None => (-1, Some junk_edge, None) end, s).
Proof.
  intros Hlen. destruct Hs as [Hg Hu Hl _]. exists None.
  unfold pgm_find_edge. cbn [nd_graph nd_node]. rewrite Z.eqb_refl. simpl. st_step. rewrite Hu, Hlen. simpl.
  apply (locked_reads s g gr); try done. intros s1 Hs1. st_step.
  erewrite bind_step; [|apply (for_break_pure _ _ (fun i =>
    match match_edge p c name i with Some i => Some (Some (i, e_attr (gedge gr i))) | None => None end))].
  - cbv beta. change (nr_edges (gr <| g_lock := true |>)) with (nr_edges gr).
    generalize (upto (nr_edges gr)) as l. induction l as [|e l IH]; [done|]. simpl.
    destruct (match_edge p c name e) as [e'|] eqn:E; [by apply match_edge_Some in E as [-> _] | apply IH].
  - intros e He%elem_of_upto. pose proof (edge_in_array e He). destruct (edge_ends e He) as (Hp & Hc & Ho & Hi).
    st_step. simpl. fold (gedge gr e). rewrite strncmp_starts. unfold match_edge.
    destruct (_ && _) eqn:E; [|done].
    apply andb_true_iff in E as [[Ep%Z.eqb_eq Ec%Z.eqb_eq]%andb_true_iff _]. rewrite <- Ep, <- Ec in *.
    pose proof (node_in_array _ Hp). pose proof (node_in_array _ Hc).
    pose proof (nw_out _ _ (gw_node gr (ds_wf gr D) _ Hp)) as Hno.
    pose proof (nw_in _ _ (gw_node gr (ds_wf gr D) _ Hc)) as Hni.
    do 2 st_step. simpl.
    erewrite bind_step by (apply listed_runs; [cbn; fold (gnode gr (e_producer (gedge gr e))); lia | exact Ho]). cbv beta.
    erewrite bind_step by (apply listed_runs; [cbn; fold (gnode gr (e_consumer (gedge gr e))); lia | exact Hi]). done.
Qed.

(** The edge that is found leads from the producer to the consumer. *)
Lemma find_edge_runs e0 errs :
  is_edge gr e0 ->
  let p := e_producer (gedge gr e0) in let c := e_consumer (gedge gr e0) in
  exists e, is_edge gr e /\ e_producer (gedge gr e) = p /\ e_consumer (gedge gr e) = c /\
    find_edge junk_edge (Node_t g p) (Node_t g c) (make_edge_name (nm p) (nm c)) (Driver s errs) =
    Ok (inr (Edge_t g e), Driver s errs).
Proof.
  intros He0 p c. destruct (ds_edge gr D e0 He0) as [Hlen Hst].
  destruct (find_edge_result p c _ Hlen) as [a Ea].
  destruct (first_some _ _) as [e|] eqn:Ee.
  - pose proof Ee as (k & Hk & Ek & _)%first_some_upto. apply match_edge_Some in Ek as (-> & Ep & Ec).
    exists k. split_and!; try done. unfold find_edge.
    by erewrite d_step by (apply call_reads; exact Ea).
  - pose proof (proj1 (first_some_None _ _) Ee e0 (proj2 (elem_of_upto _ _) He0)) as Et.
    unfold match_edge in Et. fold p c in Et. by rewrite !Z.eqb_refl, bool_decide_eq_true_2 in Et by done.
Qed.

Lemma attrs_run e errs :
  is_edge gr e ->
  call (pgm_get_nr_produce (Edge_t g e)) (Driver s errs) =
    Ok (inr (nr_produce (e_attr (gedge gr e))), Driver s errs) /\
  call (pgm_get_nr_consume (Edge_t g e)) (Driver s errs) =
    Ok (inr (nr_consume (e_attr (gedge gr e))), Driver s errs).
Proof.
  intros He. destruct Hs as [Hg Hu _ _]. pose proof (edge_in_array e He).
  split; apply call_reads; unfold pgm_get_nr_produce, pgm_get_nr_consume, get_edge; st_step;
    rewrite Hu; simpl; st_step; simpl; fold (gedge gr e);
    rewrite signed_small; done || by apply (ds_produce gr D) || by apply (ds_consume gr D).
Qed.

(** *** Neighbours *)

Definition next (i : Z) : list Z := (fun e => e_consumer (gedge gr e)) <$> out_list (gnode gr i).
Definition prev (i : Z) : list Z := (fun e => e_producer (gedge gr e)) <$> in_list (gnode gr i).

Lemma listed_edges i e :
  is_node gr i -> e ∈ out_list (gnode gr i) \/ e ∈ in_list (gnode gr i) -> is_edge gr e.
Proof.
  intros Hi. destruct (gw_node gr (ds_wf gr D) i Hi) as [_ _ _ _ Hin Hout].
  intros [He%Hout|He%Hin]; unfold is_edge; lia.
Qed.

Lemma looked_at_all l : (forall e, e ∈ l -> is_edge gr e) -> looked_at gr true l = l.
Proof.
  intros Hl. unfold looked_at. induction l as [|e l IH]; [done|]. rewrite filter_cons_True.
  - f_equal. apply IH. intros x Hx. apply Hl. by constructor.
  - simpl. apply (ds_forward gr D), Hl. constructor.
Qed.

Lemma neighbour_lists i :
  is_node gr i -> succs gr g true i = Node_t g <$> next i /\ preds gr g true i = Node_t g <$> prev i.
Proof.
  intros Hi. unfold succs, preds, next, prev. rewrite <- !list_fmap_compose.
  by rewrite !looked_at_all by (intros e He; eapply listed_edges; eauto).
Qed.

Lemma count_forward_all size nr l (s1 : pgm_state W) :
  has_graph s1 g (gr <| g_lock := true |>) -> 0 <= nr <= size ->
  (forall e, e ∈ (cell l <$> upto nr) -> is_edge gr e) ->
  count_forward g size nr l 0 s1 = Ok (nr, s1).
Proof.
  intros Hs1 Hnr Hl. unfold count_forward. rewrite (for_acc_pure _ _ (fun _ k => k + 1)).
  - assert (Hc : forall l k, fold_left (fun k (_ : Z) => k + 1) l k = k + Z.of_nat (List.length l)).
    { induction l0 as [|x l0 IH]; intros k; cbn [fold_left List.length]; [lia|]. rewrite IH. lia. }
    rewrite Hc, length_upto. do 2 f_equal. lia.
  - intros j k Hj. pose proof Hj as ?%elem_of_upto.
    erewrite bind_step by (unfold lift; by rewrite aget_ok by lia). cbv beta.
    assert (He : is_edge gr (cell l j)) by (apply Hl, list_elem_of_fmap; eauto).
    pose proof (edge_in_array _ He). st_step. simpl. fold (gedge gr (cell l j)).
    by rewrite (ds_forward gr D _ He).
Qed.

Lemma degrees_run i errs :
  is_node gr i ->
  call (pgm_get_degree_out (Node_t g i) true) (Driver s errs) =
    Ok (inr (nr_out (gnode gr i)), Driver s errs) /\
  call (pgm_get_degree_in (Node_t g i) true) (Driver s errs) =
    Ok (inr (nr_in (gnode gr i)), Driver s errs).
Proof.
  intros Hi. destruct Hs as [Hg Hu Hl _]. pose proof (node_in_array i Hi).
  pose proof (nw_out _ _ (gw_node gr (ds_wf gr D) i Hi)). pose proof (nw_in _ _ (gw_node gr (ds_wf gr D) i Hi)).
  split; apply call_reads; unfold pgm_get_degree_out, pgm_get_degree_in; cbn [nd_graph nd_node]; st_step;
    rewrite Hu; simpl; apply (locked_reads s g gr); try done; intros s1 Hs1; st_step; simpl;
    fold (gnode gr i); apply count_forward_all; try done; try lia;
    intros e He; apply (listed_edges i); auto.
Qed.

Lemma neighbours_run i errs :
  is_node gr i ->
  let n := nr_out (gnode gr i) in let m := nr_in (gnode gr i) in
  call (pgm_get_successors (Node_t g i) (0 <=? n) n true) (Driver s errs) =
    Ok (inr (n, Node_t g <$> next i), Driver s errs) /\
  call (pgm_get_predecessors (Node_t g i) (0 <=? m) m true) (Driver s errs) =
    Ok (inr (m, Node_t g <$> prev i), Driver s errs).
Proof.
  intros Hi n m. destruct Hs as [Hg Hu Hl _].
  pose proof (nw_out _ _ (gw_node gr (ds_wf gr D) i Hi)) as Hn. pose proof (nw_in _ _ (gw_node gr (ds_wf gr D) i Hi)) as Hm.
  rewrite !(proj2 (Z.leb_le 0 _)) by lia.
  destruct (neighbours_result s g gr i n true Hg Hu Hl (ds_wf gr D) Hi) as [Eo _].
  destruct (neighbours_result s g gr i m true Hg Hu Hl (ds_wf gr D) Hi) as [_ Ei].
  destruct (neighbour_lists i Hi) as [Es Ep].
  split; apply call_reads; [rewrite Eo, Es, Z.ltb_irrefl | rewrite Ei, Ep, Z.ltb_irrefl];
    do 3 f_equal; unfold next, prev, out_list, in_list; rewrite !length_fmap, length_upto; lia.
Qed.

Lemma zero_filled_full n l : List.length l = Z.to_nat n -> take (Z.to_nat n) (zero_filled n l) = l.
Proof.
  intros Hl. unfold zero_filled. rewrite <- Hl, Nat.sub_diag. simpl. by rewrite app_nil_r, firstn_all.
Qed.

Lemma length_neighbours i :
  List.length (Node_t g <$> next i) = Z.to_nat (nr_out (gnode gr i)) /\
  List.length (Node_t g <$> prev i) = Z.to_nat (nr_in (gnode gr i)).
Proof. unfold next, prev, out_list, in_list. by rewrite !length_fmap, !length_upto. Qed.

(** *** Consistent rates

    [X i] arrivals at node [i] in the interval [T]: every edge hands on what
    its producer makes at the pace at which its consumer takes it. *)
Record flow (T : Z) (X : Z -> Z) : Prop := {
  fl_T : 0 < T;
  fl_X : forall i, is_node gr i -> 0 <= X i;
  fl_edge : forall e, is_edge gr e ->
    X (e_consumer (gedge gr e)) * nr_consume (e_attr (gedge gr e)) =
    X (e_producer (gedge gr e)) * nr_produce (e_attr (gedge gr e));
  fl_consume : forall e, is_edge gr e -> nr_consume (e_attr (gedge gr e)) * T < 2 ^ 64;
  fl_produce : forall e, is_edge gr e ->
    T * nr_produce (e_attr (gedge gr e)) * X (e_producer (gedge gr e)) < 2 ^ 64
}.

Context (M : BoostMathLaws _) (T : Z) (X : Z -> Z) (F : flow T X).
Implicit Types (m : gmap string rate) (todo : list string).

Definition exact_map m : Prop :=
  forall x r, m !! x = Some r -> exists i, is_node gr i /\ nm i = x /\ exact T (X i) r.

Lemma exact_lookup m i r : exact_map m -> is_node gr i -> m !! nm i = Some r -> exact T (X i) r.
Proof.
  intros Hm Hi Hr. destruct (Hm _ _ Hr) as (j & Hj & E & Hx).
  by apply (no_inj gr (ds_names gr D)) in E as ->.
Qed.

(** [validate_rate] only looks. *)
Definition known_ok i (known : list (node_t * rate)) : Prop :=
  forall n r, (n, r) ∈ known -> (exists j, j ∈ prev i /\ n = Node_t g j) /\ 0 < r_y r.

Lemma prev_edge i j :
  is_node gr i -> j ∈ prev i ->
  exists e, is_edge gr e /\ e_producer (gedge gr e) = j /\ e_consumer (gedge gr e) = i.
Proof.
  intros Hi (e & -> & He)%list_elem_of_fmap. exists e.
  destruct (nw_in_edges _ _ (gw_node gr (ds_wf gr D) i Hi) e He) as (? & ? & _). done.
Qed.

Lemma next_edge i j :
  is_node gr i -> j ∈ next i ->
  exists e, is_edge gr e /\ e_producer (gedge gr e) = i /\ e_consumer (gedge gr e) = j.
Proof.
  intros Hi (e & -> & He)%list_elem_of_fmap. exists e.
  destruct (nw_out_edges _ _ (gw_node gr (ds_wf gr D) i Hi) e He) as (? & ? & _). done.
Qed.

Lemma known_preds_run i m errs :
  is_node gr i -> exact_map m ->
  exists scale known, known_preds (Node_t g <$> prev i) m (Driver s errs) =
    Ok (inr (scale, known), Driver s errs) /\ known_ok i known.
Proof.
  intros Hi Hm. unfold known_preds.
  destruct (loop_keeps (fun acc => known_ok i acc.2) (Node_t g <$> prev i) (1, [])
    (fun p acc =>
      let '(scale, known) := acc in
      name ← name_string p;
      match m !! name with
      | Some r => mret (wrap64 (scale * r_y r), known ++ [(p, r)])
      | None => mret (scale, known)
      end) (Driver s errs)) as ((scale & known) & E & Hk).
  - intros n r Hn. by apply elem_of_nil in Hn.
  - intros n [scale known] (j & -> & Hj)%list_elem_of_fmap Hk.
    destruct (prev_edge i j Hi Hj) as (e & He & Ep & _). destruct (edge_ends e He) as (Hjn & _). rewrite Ep in Hjn.
    erewrite d_step by by apply name_string_runs. cbv beta.
    destruct (m !! nm j) as [r|] eqn:Er; (eexists; split; [reflexivity|]); [|done].
    intros n' r' [?|[= -> ->]%list_elem_of_singleton]%elem_of_app; [by apply Hk|].
    split; [by exists j|]. by destruct (exact_lookup m j r Hm Hjn Er).
  - by exists scale, known.
Qed.

Lemma compatible_runs i scale j k r r' errs :
  is_node gr i -> j ∈ prev i -> k ∈ prev i -> 0 < r_y r -> 0 < r_y r' ->
  exists b, compatible junk_edge (Node_t g i) scale (Node_t g j, r) (Node_t g k, r') (Driver s errs) =
    Ok (inr b, Driver s errs).
Proof.
  intros Hi Hj Hk Hr Hr'.
  destruct (prev_edge i j Hi Hj) as (e & He & Ep & Ec), (prev_edge i k Hi Hk) as (e' & He' & Ep' & Ec').
  destruct (find_edge_runs e errs He) as (d & Hd & Dp & Dc & Ed), (find_edge_runs e' errs He') as (d' & Hd' & Dp' & Dc' & Ed').
  rewrite Ep, Ec in Ed. rewrite Ep', Ec' in Ed'.
  assert (is_node gr j /\ is_node gr k) as [Hjn Hkn].
  { destruct (edge_ends e He) as (H1 & _), (edge_ends e' He') as (H2 & _). by rewrite <- Ep, <- Ep'. }
  destruct (attrs_run d errs Hd) as [Ap Ac], (attrs_run d' errs Hd') as [Ap' Ac'].
  pose proof (ds_consume gr D d Hd). pose proof (ds_consume gr D d' Hd').
  unfold compatible. cbn [fst snd].
  do 2 (erewrite d_step by by apply name_string_runs; cbv beta). erewrite d_step by exact Ed. cbv beta.
  erewrite d_step by by apply name_string_runs. cbv beta. erewrite d_step by exact Ed'. cbv beta.
  erewrite d_step by exact Ap. cbv beta. erewrite d_step by exact Ac. cbv beta.
  erewrite d_step by exact Ap'. cbv beta. erewrite d_step by exact Ac'. cbv beta.
  rewrite !(wrap64_small (nr_consume _)) by lia.
  do 4 (erewrite d_step by (unfold dlift; rewrite udiv_ok by lia; reflexivity); cbv beta).
  eexists. reflexivity.
Qed.

Lemma validate_rate_runs i m errs :
  is_node gr i -> exact_map m ->
  exists b, validate_rate junk_edge (Node_t g i) m (Driver s errs) = Ok (inr b, Driver s errs).
Proof.
  intros Hi Hm. destruct (degrees_run i errs Hi) as [_ Ed]. destruct (neighbours_run i errs Hi) as [_ En].
  pose proof (nw_in _ _ (gw_node gr (ds_wf gr D) i Hi)) as Hnr.
  destruct (known_preds_run i m errs Hi Hm) as (scale & known & Ek & Hk).
  unfold validate_rate. erewrite d_step by exact Ed. cbv beta. erewrite d_step by exact En. cbv beta iota.
  erewrite d_step by (unfold CheckError; rewrite (proj2 (Z.ltb_ge _ 0)) by lia; reflexivity). cbv beta.
  rewrite zero_filled_full by apply length_neighbours. erewrite d_step by exact Ek. cbv beta iota.
  destruct (loop_keeps (fun _ => True) (zip known (List.tl known)) true (fun pc valid =>
    ok ← compatible junk_edge (Node_t g i) scale pc.1 pc.2;
    mret (if ok : bool then valid else false)) (Driver s errs)) as (b & E & _); [done| |by exists b].
  intros [[n r] [n' r']] valid Hin _. pose proof Hin as Hl%elem_of_zip_l. apply elem_of_zip_r in Hin.
  assert (Hr : (n', r') ∈ known) by (destruct known; simpl in Hin; set_solver).
  destruct (Hk _ _ Hl) as [(j & Hj & ->) Hy], (Hk _ _ Hr) as [(k & Hkk & ->) Hy'].
  destruct (compatible_runs i scale j k r r' errs) as [b E]; try done.
  eexists. erewrite d_step by exact E. done.
Qed.

(** *** One successor *)

(** The interval of a successor and its arrivals, as the machine computes them. *)
Section Edge.
Context (e : Z) (r : rate) (He : is_edge gr e) (Hr : exact T (X (e_producer (gedge gr e))) r).
#[local] Abbreviation produce := (nr_produce (e_attr (gedge gr e))).
#[local] Abbreviation consume := (nr_consume (e_attr (gedge gr e))).
#[local] Abbreviation y0 := (consume * r_y r / Z.gcd (produce * r_x r) consume).
#[local] Abbreviation Xp := (X (e_producer (gedge gr e))).
#[local] Abbreviation Xc := (X (e_consumer (gedge gr e))).

Lemma edge_numbers :
  0 < T /\ 0 <= Xp /\ 0 < produce /\ 0 < consume /\ Xc * consume = Xp * produce /\
  consume < 2 ^ 31 /\ consume * r_y r < 2 ^ 64 /\ produce * r_x r < 2 ^ 64 /\ 0 <= r_x r <= Xp /\ T < 2 ^ 64.
Proof.
  destruct (edge_ends e He) as (Hp & _). pose proof (fl_X _ _ F _ Hp). pose proof (fl_T _ _ F).
  pose proof (ds_produce gr D e He). pose proof (ds_consume gr D e He). pose proof (fl_edge _ _ F e He).
  pose proof (fl_consume _ _ F e He). pose proof (fl_produce _ _ F e He).
  destruct (exact_parts T Xp r) as (m & Hm & ET & EX & Hx & Hy); try done.
  split_and!; try done; try lia; nia.
Qed.

Lemma interval_runs :
  udiv (wrap64 (wrap64 consume * r_y r)) (math_gcd (wrap64 (produce * r_x r)) (wrap64 consume)) = Ok y0 /\
  0 < y0 /\ (y0 | T).
Proof.
  destruct edge_numbers as (HT & HX & Hp & Hc & Hf & Hc31 & Hcy & Hpx & Hx & HT64). pose proof (proj1 Hr).
  split; [|by apply (step_interval T Xp Xc)].
  rewrite !(wrap64_small consume), !wrap64_small, gcd_law by nia. apply udiv_ok.
  intros E%Z.gcd_eq_0_r. lia.
Qed.

Lemma arrivals_run y :
  0 < y -> (y0 | y) -> (y | T) ->
  exists x, arrivals y produce consume r = Ok x /\ exact T Xc (Rate y x).
Proof.
  intros Hy Hy0 HyT. destruct edge_numbers as (HT & HX & Hp & Hc & Hf & Hc31 & Hcy & Hpx & Hx & _).
  pose proof (proj1 Hr) as Hry. pose proof (Z.divide_pos_le _ _ HT HyT) as HyT'.
  pose proof (fl_produce _ _ F e He) as Hfp. eexists. split; [|by apply (step_exact T Xp Xc produce consume)].
  unfold arrivals. rewrite !wrap64_small; [apply udiv_ok; nia | nia |].
  split; [nia|]. apply (Z.le_lt_trans _ (T * produce * Xp)); [|done].
  apply Z.mul_le_mono_nonneg; nia.
Qed.

(** An interval that is there already is extended to a common multiple. *)
Lemma lcm_runs old :
  exact T Xc old ->
  let y := Z.lcm y0 (r_y old) in
  math_lcm y0 (r_y old) = y /\ 0 < y /\ (y0 | y) /\ (y | T).
Proof.
  intros (Ho & HoT & _) y. destruct interval_runs as (_ & Hy0 & HyT).
  destruct edge_numbers as (HT & _ & _ & _ & _ & _ & _ & _ & _ & HT64).
  assert (Hl : (y | T)) by by apply Z.lcm_least. pose proof (Z.divide_pos_le _ _ HT Hl).
  pose proof (Z.divide_pos_le _ _ HT HyT). pose proof (Z.divide_pos_le _ _ HT HoT).
  assert (0 < y). { pose proof (Z.lcm_nonneg y0 (r_y old)) as Hn. fold y in Hn.
    assert (y <> 0); [|lia]. intros E. apply Z.lcm_eq_0 in E. lia. }
  split_and!; [|done|apply Z.divide_lcm_l|done]. apply lcm_law; unfold y in *; lia.
Qed.

End Edge.

(** Either nothing happens, or the successor gets an exact rate and has to be
    visited. *)
Definition stepped j m todo m' todo' : Prop :=
  (m' = m /\ todo' = todo /\ is_Some (m !! nm j)) \/
  (exists r, m' = <[nm j := r]> m /\ todo' = set_insert (nm j) todo /\ exact T (X j) r).

Lemma visit_successor_runs i j r m todo errs :
  is_node gr i -> j ∈ next i -> exact T (X i) r -> exact_map m ->
  exists m' todo', visit_successor junk_edge (Node_t g i) r (Node_t g j) (m, todo) (Driver s errs) =
    Ok (inr (m', todo'), Driver s errs) /\ stepped j m todo m' todo'.
Proof.
  intros Hi Hj Hr Hm. destruct (next_edge i j Hi Hj) as (e0 & He0 & Ep0 & Ec0).
  destruct (edge_ends e0 He0) as (_ & Hjn & _). rewrite Ec0 in Hjn.
  destruct (find_edge_runs e0 errs He0) as (e & He & Ep & Ec & Ef). rewrite Ep0, Ec0 in *.
  destruct (attrs_run e errs He) as [Ap Ac]. rewrite <- Ep in Hr.
  destruct (interval_runs e r He Hr) as (Ey & Hy0 & HyT).
  pose proof (ds_produce gr D e He) as Hp. pose proof (ds_consume gr D e He) as Hc.
  unfold visit_successor. erewrite d_step by by apply name_string_runs. cbv beta.
  rewrite bool_decide_eq_false_2; cycle 1.
  { intros E. destruct (ds_name gr D j Hjn) as (_ & Hl & _). rewrite E in Hl. simpl in Hl. lia. }
  erewrite d_step by by apply name_string_runs. cbv beta. erewrite d_step by exact Ef. cbv beta.
  erewrite d_step by exact Ap. cbv beta. rewrite (proj2 (Z.ltb_ge _ 1)) by lia.
  erewrite d_step by reflexivity. cbv beta. erewrite d_step by exact Ac. cbv beta.
  rewrite (proj2 (Z.ltb_ge _ 1)) by lia. erewrite d_step by reflexivity. cbv beta.
  erewrite d_step by (unfold dlift; rewrite Ey; reflexivity). cbv beta.
  destruct (m !! nm j) as [old|] eqn:Eold.
  - destruct (validate_rate_runs j m errs Hjn Hm) as [b Eb]. erewrite d_step by exact Eb. cbv beta zeta.
    destruct (lcm_runs e r He Hr old) as (-> & Hy & Hdiv & HyT').
    { rewrite Ec. by apply (exact_lookup m). }
    destruct (Z.eqb_spec (Z.lcm (nr_consume (e_attr (gedge gr e)) * r_y r /
      Z.gcd (nr_produce (e_attr (gedge gr e)) * r_x r) (nr_consume (e_attr (gedge gr e)))) (r_y old)) (r_y old)) as [Eq|Hne].
    + exists m, todo. split; [done|]. left. eauto.
    + destruct (arrivals_run e r He Hr _ Hy Hdiv HyT') as (x & Ex & Hx).
      erewrite d_step by (unfold dlift; rewrite Ex; reflexivity). do 2 eexists. split; [reflexivity|].
      right. rewrite Ec in Hx. eauto.
  - destruct (arrivals_run e r He Hr _ Hy0 (Z.divide_refl _) HyT) as (x & Ex & Hx).
    erewrite d_step by (unfold dlift; rewrite Ex; reflexivity). do 2 eexists. split; [reflexivity|].
    right. rewrite Ec in Hx. eauto.
Qed.

(** *** The work list runs empty

    A node costs as many visits as there are walks from it: the visits its
    successors may need are paid for when it is taken out. *)

Fixpoint walks_from (k : nat) (i : Z) : nat :=
  match k with
  | O => 1
  | S k => S (sum_list_with (walks_from k) (next i))
  end.

#[local] Abbreviation cost := (walks_from (Z.to_nat (nr_nodes gr))).

(** Enough rounds for any rates: the number of walks in the graph. *)
Definition rates_fuel : nat := sum_list_with cost (upto (nr_nodes gr)).

Lemma follows_next i j : is_node gr i -> follows gr true i j <-> j ∈ next i.
Proof.
  intros Hi. unfold next. rewrite list_elem_of_fmap. split.
  - intros (e & He & _ & <-). eauto.
  - intros (e & -> & He). exists e. split_and!; try done. apply (ds_forward gr D), (listed_edges i); auto.
Qed.

Lemma next_is_node i j : is_node gr i -> j ∈ next i -> is_node gr j.
Proof. intros Hi Hj%follows_next; [|done]. by apply (follows_is_node gr true i j (ds_wf gr D)). Qed.

Lemma sum_list_with_ext {A} (f f' : A -> nat) l :
  (forall x, x ∈ l -> f x = f' x) -> sum_list_with f l = sum_list_with f' l.
Proof.
  induction l as [|x l IH]; intros Hf; [done|]. simpl. rewrite (Hf x) by constructor.
  f_equal. apply IH. intros y Hy. apply Hf. by constructor.
Qed.

Lemma walks_stable k i :
  is_node gr i -> (forall j, ~ nsteps (follows gr true) k i j) -> walks_from k i = walks_from (S k) i.
Proof.
  revert i. induction k as [|k IH]; intros i Hi Hno.
  - destruct (Hno i). constructor.
  - change (S (sum_list_with (walks_from k) (next i)) = S (sum_list_with (walks_from (S k)) (next i))).
    f_equal. apply sum_list_with_ext. intros j Hj. apply IH; [by apply (next_is_node i)|].
    intros l Hl. apply (Hno l). apply nsteps_l with j; [by apply follows_next | done].
Qed.

Lemma cost_next i : is_node gr i -> cost i = S (sum_list_with cost (next i)).
Proof.
  intros Hi. apply walks_stable; [done|]. intros j Hj.
  apply (walk_follows gr (ds_wf gr D) (ds_linked gr D) _ i j Hi) in Hj.
  apply (walk_short _ _ (arcs_dag gr (ds_wf gr D) (ds_linked gr D) (ds_acyclic gr D))) in Hj; [|done].
  unfold is_node in Hi. lia.
Qed.

(** What the nodes in the work list cost. *)
Definition pending_cost todo : nat :=
  sum_list_with (fun i => if decide (nm i ∈ todo) then cost i else O) (upto (nr_nodes gr)).

Lemma sum_list_with_one (f f' : Z -> nat) l j k :
  NoDup l -> j ∈ l -> (forall i, i ∈ l -> i <> j -> f' i = f i) -> f' j = (f j + k)%nat ->
  sum_list_with f' l = (sum_list_with f l + k)%nat.
Proof.
  intros Hl. induction Hl as [|x l Hx Hl IH]; [by intros Hj%elem_of_nil|]. intros Hj Hf Hfj. simpl.
  apply elem_of_cons in Hj as [->|Hj].
  - rewrite Hfj, (sum_list_with_ext f' f l); [lia|].
    intros i Hi. apply Hf; [by constructor|]. by intros ->.
  - rewrite IH, (Hf x); [lia|constructor|by intros ->|done| |done].
    intros i Hi. apply Hf. by constructor.
Qed.

Lemma pending_cost_add j todo todo' :
  is_node gr j -> (forall y, y ∈ todo' <-> y = nm j \/ y ∈ todo) -> nm j ∉ todo ->
  pending_cost todo' = (pending_cost todo + cost j)%nat.
Proof.
  intros Hj Hin Hnot. unfold pending_cost. apply (sum_list_with_one _ _ _ j); [apply NoDup_seqZ | by apply elem_of_upto | |].
  - intros i Hi%elem_of_upto Hij. apply decide_ext. rewrite Hin. split; [|auto].
    intros [E|?]; [|done]. by apply (no_inj gr (ds_names gr D)) in E.
  - rewrite decide_True by (apply Hin; auto). by rewrite decide_False.
Qed.

Lemma pending_cost_insert j todo :
  is_node gr j -> (pending_cost (set_insert (nm j) todo) <= pending_cost todo + cost j)%nat.
Proof.
  intros Hj. destruct (decide (nm j ∈ todo)) as [Hin|Hin].
  - unfold pending_cost. rewrite (sum_list_with_ext _ (fun i => if decide (nm i ∈ todo) then cost i else O)); [lia|].
    intros i _. apply decide_ext. rewrite elem_of_set_insert. split; [intros [->|]; done | auto].
  - rewrite (pending_cost_add j todo); [done | done | | done]. intros y. by rewrite elem_of_set_insert.
Qed.

Lemma pending_cost_cons j todo :
  is_node gr j -> nm j ∉ todo -> pending_cost (nm j :: todo) = (pending_cost todo + cost j)%nat.
Proof. intros Hj Hn. apply pending_cost_add; [done | intros y; apply elem_of_cons | done]. Qed.

(** *** The state of the search *)

Context (roots : list Z) (Hroots : forall i, i ∈ roots -> is_node gr i).

Definition reached (i : Z) : Prop := exists root, root ∈ roots /\ rtc (follows gr true) root i.

(** [missing i]: the successors of [i] that may have no rate yet. *)
Record search m todo (missing : Z -> Z -> Prop) : Prop := {
  se_exact : exact_map m;
  se_sorted : StronglySorted before todo;
  se_todo : forall x, x ∈ todo -> is_Some (m !! x);
  se_roots : forall i, i ∈ roots -> is_Some (m !! nm i);
  se_reached : forall i, is_node gr i -> is_Some (m !! nm i) -> reached i;
  se_closed : forall i j, is_node gr i -> is_Some (m !! nm i) -> nm i ∉ todo -> j ∈ next i ->
    ~ missing i j -> is_Some (m !! nm j)
}.

Definition missing_from (i : Z) (later : list Z) (k j : Z) : Prop := k = i /\ j ∈ later.

Lemma search_step i j later m todo m' todo' :
  is_node gr i -> j ∈ next i -> is_Some (m !! nm i) -> stepped j m todo m' todo' ->
  search m todo (missing_from i (j :: later)) ->
  search m' todo' (missing_from i later) /\ is_Some (m' !! nm i) /\
  (pending_cost todo' <= pending_cost todo + cost j)%nat.
Proof.
  intros Hi Hj Hmi [(-> & -> & Hmj)|(r & -> & -> & Hr)] [He Hso Ht Hro Hre Hc].
  - split_and!; [|done|lia]. split; try done. intros k l Hk Hmk Hkt Hl Hn.
    destruct (decide (l = j)) as [->|Hne]; [done|]. apply (Hc k l); try done.
    intros [-> [->|Hin]%elem_of_cons]; [done|]. by apply Hn.
  - pose proof (next_is_node i j Hi Hj) as Hjn.
    assert (Hsome : forall x, is_Some (<[nm j := r]> m !! x) <-> x = nm j \/ is_Some (m !! x)).
    { intros x. rewrite lookup_insert_is_Some'. split; intros [?|?]; auto. }
    split_and!; [|apply Hsome; auto|by apply pending_cost_insert]. split.
    + intros x r' [[<- <-]|[_ Hx]]%lookup_insert_Some; [by exists j|by apply He].
    + by apply sorted_insert.
    + intros x [->|Hx]%elem_of_set_insert; apply Hsome; auto.
    + intros k Hk. apply Hsome. auto.
    + intros k Hk [E|Hmk]%Hsome; [|by apply Hre]. apply (no_inj gr (ds_names gr D)) in E as ->; try done.
      destruct (Hre i Hi Hmi) as (root & Hroot & Hw). exists root. split; [done|].
      apply rtc_r with i; [done|]. by apply follows_next.
    + intros k l Hk [E|Hmk]%Hsome Hkt Hl Hn; rewrite elem_of_set_insert in Hkt; [by destruct Hkt; left|].
      apply Hsome. destruct (decide (l = j)) as [->|Hne]; [by left|right]. apply (Hc k l); try done; [tauto|].
      intros [-> [->|Hin]%elem_of_cons]; [done|]. by apply Hn.
Qed.

Lemma visit_successors_run i r l m todo errs :
  is_node gr i -> exact T (X i) r -> (forall j, j ∈ l -> j ∈ next i) -> is_Some (m !! nm i) ->
  search m todo (missing_from i l) ->
  exists m' todo', loop (Node_t g <$> l) (m, todo) (visit_successor junk_edge (Node_t g i) r) (Driver s errs) =
      Ok (inr (m', todo'), Driver s errs) /\ search m' todo' (missing_from i []) /\
    (pending_cost todo' <= pending_cost todo + sum_list_with cost l)%nat.
Proof.
  intros Hi Hr. revert m todo. induction l as [|j l IH]; intros m todo Hl Hmi Hse.
  - exists m, todo. split_and!; [done|done|simpl; lia].
  - assert (Hj : j ∈ next i) by (apply Hl; constructor).
    destruct (visit_successor_runs i j r m todo errs Hi Hj Hr (se_exact _ _ _ Hse)) as (m1 & todo1 & E1 & Hst).
    destruct (search_step i j l m todo m1 todo1 Hi Hj Hmi Hst Hse) as (Hse1 & Hmi1 & Hc1).
    destruct (IH m1 todo1) as (m2 & todo2 & E2 & Hse2 & Hc2); [|done..|].
    { intros k Hk. apply Hl. by constructor. }
    exists m2, todo2. split_and!; [|done|simpl; lia]. rewrite fmap_cons. cbn [loop].
    erewrite d_step by exact E1. exact E2.
Qed.

#[local] Abbreviation none := (fun _ _ : Z => False).

Lemma search_take i m todo :
  is_node gr i -> search m (nm i :: todo) none ->
  (nm i ∉ todo) /\ is_Some (m !! nm i) /\ search m todo (missing_from i (next i)).
Proof.
  intros Hi [He Hso Ht Hro Hre Hc]. inversion Hso as [|x l Hso' Hx]; subst. split_and!.
  - intros Hin. rewrite Forall_forall in Hx. specialize (Hx _ Hin). unfold before in Hx.
    by rewrite compare_refl in Hx.
  - apply Ht. constructor.
  - split; try done.
    + intros x Hin. apply Ht. by constructor.
    + intros k j Hk Hmk Hkt Hj Hn. apply (Hc k j); try done; [|by intros []]. intros [E|?]%elem_of_cons; [|done].
      apply (no_inj gr (ds_names gr D)) in E as ->; [by apply Hn|done|done].
Qed.

Lemma visit_node_runs i m todo errs :
  is_node gr i -> search m (nm i :: todo) none ->
  exists m' todo', visit_node junk_node junk_edge g (nm i) (m, todo) (Driver s errs) =
      Ok (inr (m', todo'), Driver s errs) /\ search m' todo' none /\
    (pending_cost todo' < pending_cost (nm i :: todo))%nat.
Proof.
  intros Hi Hse. destruct (search_take i m todo Hi Hse) as (Hnot & [r Hr] & Hse').
  pose proof (exact_lookup m i r (se_exact _ _ _ Hse) Hi Hr) as Hx.
  destruct (degrees_run i errs Hi) as [Ed _]. destruct (neighbours_run i errs Hi) as [En _].
  pose proof (nw_out _ _ (gw_node gr (ds_wf gr D) i Hi)) as Hnr.
  destruct (visit_successors_run i r (next i) m todo errs) as (m' & todo' & E & Hse2 & Hcost); try done.
  exists m', todo'. rewrite (pending_cost_cons i todo Hi Hnot), (cost_next i Hi). split_and!; [| |lia].
  - unfold visit_node. rewrite Hr. cbn [default from_option id].
    erewrite d_step by by apply find_node_runs. cbv beta. erewrite d_step by exact Ed. cbv beta.
    erewrite d_step by exact En. cbv beta iota.
    erewrite d_step by (unfold CheckError; rewrite (proj2 (Z.ltb_ge _ 0)) by lia; reflexivity). cbv beta.
    destruct (Z.eqb_spec (nr_out (gnode gr i)) 0) as [E0|_].
    + replace (next i) with (@nil Z) in E; [exact E|]. symmetry. apply length_zero_iff_nil.
      unfold next, out_list. by rewrite !length_fmap, length_upto, E0.
    + rewrite zero_filled_full by apply length_neighbours. exact E.
  - destruct Hse2 as [He Hso Ht Hro Hre Hc]. split; try done. intros k j Hk Hmk Hkt Hj _.
    apply (Hc k j); try done. intros [_ Hn]. by apply elem_of_nil in Hn.
Qed.

Lemma visit_all_runs fuel m todo errs :
  search m todo none -> (pending_cost todo <= fuel)%nat ->
  exists m', visit_all junk_node junk_edge fuel g m todo (Driver s errs) = Ok (inr m', Driver s errs) /\
    search m' [] none.
Proof.
  revert m todo. induction fuel as [|fuel IH]; intros m [|x todo] Hse Hfuel; try (by exists m).
  all: destruct (se_todo _ _ _ Hse x) as [r Hr]; [by constructor|].
  all: destruct (se_exact _ _ _ Hse x r Hr) as (i & Hi & <- & _).
  all: destruct (visit_node_runs i m todo errs Hi Hse) as (m1 & todo1 & E1 & Hse1 & Hlt).
  - lia.
  - destruct (IH m1 todo1) as (m2 & E2 & Hse2); [done|lia|]. exists m2. split; [|done].
    cbn [visit_all]. erewrite d_step by exact E1. exact E2.
Qed.

(** The rates that are found are those of the nodes that are reached. *)
Lemma search_done m : search m [] none ->
  forall i, is_node gr i -> is_Some (m !! nm i) <-> reached i.
Proof.
  intros [He _ _ Hro Hre Hc] i Hi. split; [by apply Hre|]. intros (root & Hroot & Hw).
  pose proof (Hroots root Hroot) as Hn. apply Hro in Hroot. clear Hi.
  induction Hw as [|j k i Hjk _ IH]; [done|]. apply follows_next in Hjk; [|done].
  apply IH; [|by apply (next_is_node j)]. apply (Hc j k); try done; [apply not_elem_of_nil | by intros []].
Qed.

Lemma pending_cost_fuel todo : (pending_cost todo <= rates_fuel)%nat.
Proof.
  unfold pending_cost, rates_fuel. generalize (upto (nr_nodes gr)) as l.
  induction l as [|x l IH]; cbn [sum_list_with]; [lia|]. case_decide; lia.
Qed.

(** *** The table of periods *)

Definition period (r : rate) : double := ddiv (ddiv (dofZ (r_y r)) (dofZ (r_x r))) (dofZ 1000).

Fixpoint z_insert (i : Z) (l : list Z) : list Z :=
  match l with
  | [] => [i]
  | k :: l' => if i <? k then i :: l else if k <? i then k :: z_insert i l' else l
  end.

Lemma elem_of_z_insert i k l : k ∈ z_insert i l <-> k = i \/ k ∈ l.
Proof.
  induction l as [|z l IH]; simpl; [set_solver|].
  destruct (Z.ltb_spec i z); [set_solver|]. destruct (Z.ltb_spec z i); [set_solver|].
  assert (i = z) as -> by lia. set_solver.
Qed.

Lemma z_insert_sorted i l : StronglySorted Z.lt l -> StronglySorted Z.lt (z_insert i l).
Proof.
  induction 1 as [|z l Hl IH Hz]; simpl; [by repeat constructor|].
  destruct (Z.ltb_spec i z) as [Hiz|Hiz]; [|destruct (Z.ltb_spec z i) as [Hzi|Hzi]].
  - constructor; [by constructor|]. constructor; [done|]. apply (Forall_impl _ _ _ Hz). lia.
  - constructor; [done|]. apply Forall_forall. intros k [->|Hk]%elem_of_z_insert; [done|].
    rewrite Forall_forall in Hz. by apply Hz.
  - by constructor.
Qed.

Lemma node_map_set_runs {A} (f : Z -> A) i l :
  node_map_set (Node_t g i) (f i) ((fun i => (Node_t g i, f i)) <$> l) =
  Ok ((fun i => (Node_t g i, f i)) <$> z_insert i l).
Proof.
  induction l as [|k l IH]; [done|]. cbn [fmap list_fmap node_map_set z_insert nd_graph nd_node].
  rewrite Z.eqb_refl. cbn [negb].
  destruct (Z.ltb_spec i k); [done|]. destruct (Z.ltb_spec k i).
  - change (list_fmap Z (node_t * A)%type (fun i => (Node_t g i, f i)) l) with ((fun i => (Node_t g i, f i)) <$> l).
    rewrite IH. done.
  - by assert (i = k) as -> by lia.
Qed.

Lemma elem_of_map_names m x : x ∈ map_names m <-> is_Some (m !! x).
Proof.
  unfold map_names. assert (Hgo : forall l, x ∈ fold_right set_insert [] l <-> x ∈ l).
  { induction l as [|y l IH]; simpl; [done|]. rewrite elem_of_set_insert, IH. set_solver. }
  rewrite Hgo, list_elem_of_fmap. split.
  - intros ([y r] & -> & Hy%elem_of_map_to_list). by exists r.
  - intros [r Hr%elem_of_map_to_list]. by exists (x, r).
Qed.

Lemma periods_run m errs :
  exact_map m ->
  let rate_of i := default (Rate 0 0) (m !! nm i) in
  exists l, loop (map_names m) [] (fun name periods_ms =>
      n ← find_node junk_node g name;
      let r := default (Rate 0 0) (m !! name) in
      dlift (node_map_set n (ddiv (ddiv (dofZ (r_y r)) (dofZ (r_x r))) (dofZ 1000)) periods_ms))
      (Driver s errs) =
    Ok (inr ((fun i => (Node_t g i, period (rate_of i))) <$> l), Driver s errs) /\
    StronglySorted Z.lt l /\ (forall i, i ∈ l <-> is_node gr i /\ is_Some (m !! nm i)).
Proof.
  intros Hm rate_of. set (f := fun i => period (rate_of i)).
  destruct (loop_inv (fun names out => exists l, out = (fun i => (Node_t g i, f i)) <$> l /\
      StronglySorted Z.lt l /\ forall i, i ∈ l <-> is_node gr i /\ nm i ∈ names)
    (map_names m) [] (fun name periods_ms =>
      n ← find_node junk_node g name;
      let r := default (Rate 0 0) (m !! name) in
      dlift (node_map_set n (ddiv (ddiv (dofZ (r_y r)) (dofZ (r_x r))) (dofZ 1000)) periods_ms))
    (Driver s errs)) as (out & E & l & -> & Hl & Hin).
  - exists []. split_and!; [done|constructor|]. intros i. split; [by intros ?%elem_of_nil|].
    by intros [_ ?%elem_of_nil].
  - intros names x rest out Enames (l & -> & Hl & Hin).
    assert (Hx : is_Some (m !! x)) by (apply elem_of_map_names; rewrite Enames; set_solver).
    destruct Hx as [r Hr]. destruct (Hm x r Hr) as (i & Hi & <- & _).
    exists ((fun i => (Node_t g i, f i)) <$> z_insert i l). split.
    + erewrite d_step by by apply find_node_runs. cbv beta zeta. unfold dlift.
      change (ddiv _ _) with (f i). by rewrite (node_map_set_runs f).
    + exists (z_insert i l). split_and!; [done|by apply z_insert_sorted|]. intros k.
      rewrite elem_of_z_insert, Hin, elem_of_app, list_elem_of_singleton. split; [intros [->|[? ?]]; auto|].
      intros [Hk [?|E]]; [auto|left]. by apply (no_inj gr (ds_names gr D)) in E.
  - exists l. split_and!; [done|done|]. intros i. by rewrite Hin, elem_of_map_names.
Qed.

(** *** The given rates *)

(** "name:count:interval" for a node, and the rate that stands for. *)
Record given := Given { gv_node : Z; gv_count : string; gv_interval : string; gv_rate : rate }.

Definition given_parts (v : given) : list (ascii * string) :=
  [(":"%char, gv_count v); (":"%char, gv_interval v)].
Definition given_text (v : given) : string := nm (gv_node v) +:+ glue (given_parts v).
Definition rates_text (v : given) (vs : list given) : string :=
  given_text v +:+ glue ((fun v => (","%char, given_text v)) <$> vs).

Definition colons : ascii -> bool := is_any_of ",:".

Record given_ok (v : given) : Prop := {
  go_node : is_node gr (gv_node v);
  go_name : free colons (nm (gv_node v));
  go_count : free colons (gv_count v) /\ lexical_cast_u64 (gv_count v) = Some (r_x (gv_rate v));
  go_interval : free colons (gv_interval v) /\ exists ms,
    lexical_cast_double (gv_interval v) = Some ms /\
    round_uint64 (dmul ms (dofZ 1000)) = Ok (r_y (gv_rate v));
  go_exact : exact T (X (gv_node v)) (gv_rate v)
}.

Lemma free_colons a x : a = ","%string \/ a = ":"%string -> free colons x -> free (is_any_of a) x.
Proof.
  intros Ha. apply free_weaken. intros c Hc%any_of_cases. apply bool_decide_eq_true.
  destruct Ha as [->| ->]; cbn in *; set_solver.
Qed.

Lemma split_given v :
  given_ok v -> split (is_any_of ":") (given_text v) = [nm (gv_node v); gv_count v; gv_interval v].
Proof.
  intros [_ Hn [Hc _] [Hi _] _]. unfold given_text. rewrite split_law; [done| |].
  - by apply free_colons; [right|].
  - unfold given_parts. rewrite Forall_cons, Forall_singleton. split_and!; try done; by apply free_colons; [right|].
Qed.

Lemma split_rates v vs :
  Forall given_ok (v :: vs) -> split (is_any_of ",") (rates_text v vs) = given_text <$> v :: vs.
Proof.
  assert (Hfree : forall v, given_ok v -> free (is_any_of ",") (given_text v)).
  { intros w [_ Hn [Hc _] [Hi _] _]. unfold given_text, given_parts. rewrite free_app, free_glue, Forall_cons, Forall_singleton.
    split_and!; try done; by apply free_colons; [left|]. }
  intros [Hv Hvs]%Forall_cons. unfold rates_text. rewrite split_law.
  - rewrite fmap_cons. f_equal. by rewrite <- list_fmap_compose.
  - by apply Hfree.
  - apply Forall_fmap. apply (Forall_impl _ _ _ Hvs). intros w Hw. split; [done|]. by apply Hfree.
Qed.

Lemma root_rate_runs v m todo errs :
  given_ok v -> root_rate (given_text v) (m, todo) (Driver s errs) =
  Ok (inr (match m !! nm (gv_node v) with Some _ => m | None => <[nm (gv_node v) := gv_rate v]> m end,
           set_insert (nm (gv_node v)) todo), Driver s errs).
Proof.
  intros Hv. unfold root_rate. rewrite split_given by done.
  destruct Hv as [_ _ [_ Hc] [_ (ms & Hms & Hr)] _]. cbn [List.length Nat.eqb negb].
  do 2 (erewrite d_step by reflexivity; cbv beta). unfold cast_double, cast_u64. rewrite Hms.
  erewrite d_step by reflexivity. cbv beta. erewrite d_step by (unfold dlift; rewrite Hr; reflexivity). cbv beta.
  erewrite d_step by reflexivity. cbv beta. rewrite Hc. erewrite d_step by reflexivity. cbv beta.
  by destruct (gv_rate v).
Qed.

Lemma roots_run vs m todo errs :
  Forall given_ok vs -> exact_map m -> StronglySorted before todo -> (forall x, x ∈ todo <-> is_Some (m !! x)) ->
  exists m' todo', loop (given_text <$> vs) (m, todo) root_rate (Driver s errs) =
      Ok (inr (m', todo'), Driver s errs) /\ exact_map m' /\ StronglySorted before todo' /\
    (forall x, x ∈ todo' <-> is_Some (m' !! x)) /\
    (forall x, x ∈ todo' <-> x ∈ todo \/ exists v, v ∈ vs /\ x = nm (gv_node v)).
Proof.
  intros Hvs. revert m todo. induction Hvs as [|v vs Hv Hvs IH]; intros m todo Hm Hso Hin.
  - exists m, todo. split_and!; try done. intros x. split; [by left|]. intros [?|(v & Hv & _)]; [done|]. by apply elem_of_nil in Hv.
  - set (x := nm (gv_node v)). set (m1 := match m !! x with Some _ => m | None => <[x := gv_rate v]> m end).
    assert (Hm1 : forall y, is_Some (m1 !! y) <-> y = x \/ is_Some (m !! y)).
    { intros y. unfold m1. destruct (m !! x) as [r|] eqn:E.
      - split; [auto|]. intros [->|?]; [by exists r|done].
      - rewrite lookup_insert_is_Some'. split; intros [?|?]; auto. }
    destruct (IH m1 (set_insert x todo)) as (m' & todo' & E & Hm' & Hso' & Hin' & Hel).
    + unfold m1. destruct (m !! x) eqn:E; [done|]. intros y r [[<- <-]|[_ Hy]]%lookup_insert_Some; [|by apply Hm].
      exists (gv_node v). destruct Hv. done.
    + by apply sorted_insert.
    + intros y. by rewrite elem_of_set_insert, Hm1, Hin.
    + exists m', todo'. split_and!; try done.
      * rewrite fmap_cons. cbn [loop]. erewrite d_step by by apply root_rate_runs. exact E.
      * intros y. rewrite Hel, elem_of_set_insert. setoid_rewrite elem_of_cons. naive_solver.
Qed.

End Reads.


Section Theorems.
Context {W : Type} `{Syscalls W} `{L : BoostTextLaws} `{M : !BoostMathLaws _}.
Context (junk_node : node_t) (junk_edge : edge_t).

Lemma start_search gr T X vs m todo :
  exact_map gr T X m -> StronglySorted before todo -> (forall x, x ∈ todo <-> is_Some (m !! x)) ->
  described gr -> Forall (given_ok gr T X) vs ->
  (forall x, x ∈ todo <-> exists v, v ∈ vs /\ x = name_of gr (gv_node v)) ->
  search gr T X (gv_node <$> vs) m todo (fun _ _ => False).
Proof.
  intros Hm Hso Hin D Hvs Hel. rewrite Forall_forall in Hvs. split; try done.
  - intros x. apply Hin.
  - intros i (v & -> & Hv)%list_elem_of_fmap. apply Hin, Hel. eauto.
  - intros i Hi (v & Hv & E)%Hin%Hel. destruct (Hvs v Hv) as [Hn _ _ _ _].
    apply (no_inj gr (ds_names gr D)) in E as ->; [|done..]. exists (gv_node v).
    split; [apply list_elem_of_fmap; eauto | done].
  - intros i j _ Hi%Hin Hnot. done.
Qed.

(** C17. [parse_graph_rates] on a described graph, from given rates that fit
    together ([X i] arrivals at node [i] in an interval [T], every edge handing on
    what its producer makes, all products within 64 bits): with as many rounds as
    the graph has walks, the work list runs empty.  Exactly the nodes that can be
    reached from those given get a period, and the rate it comes from is exact.
    No error is counted. *)
Theorem parse_graph_rates_exact (s : pgm_state W) g gr T X v vs fuel errs :
  usable s g gr -> described gr -> flow gr T X -> Forall (given_ok gr T X) (v :: vs) ->
  (rates_fuel gr <= fuel)%nat ->
  exists rate_of l,
    parse_graph_rates junk_node junk_edge fuel (rates_text gr v vs) g [] (Driver s errs) =
      Ok (inr ((fun i => (Node_t g i, period (rate_of i))) <$> l), Driver s errs) /\
    StronglySorted Z.lt l /\
    (forall i, i ∈ l <-> reached gr (gv_node <$> v :: vs) i) /\
    (forall i, i ∈ l -> exact T (X i) (rate_of i)).
Proof.
  intros Hs D F Hvs Hfuel. set (roots := gv_node <$> v :: vs).
  assert (Hroots : forall i, i ∈ roots -> is_node gr i).
  { intros i (w & -> & Hw)%list_elem_of_fmap. rewrite Forall_forall in Hvs. apply (Hvs w Hw). }
  destruct (roots_run s g gr Hs D M T X F roots Hroots (v :: vs) ∅ [] errs Hvs)
    as (m & todo & E1 & Hm & Hso & Hin & Hel); [done | constructor | |].
  { intros x. rewrite lookup_empty, is_Some_alt. split; [by intros ?%elem_of_nil | done]. }
  destruct (visit_all_runs junk_node junk_edge s g gr Hs D M T X F roots fuel m todo errs) as (m' & E2 & Hse).
  { apply start_search; try done. intros x. rewrite Hel. set_solver. }
  { pose proof (pending_cost_fuel gr todo). lia. }
  destruct (periods_run junk_node s g gr Hs D M T X F roots Hroots m' errs) as (l & E3 & Hl & Hil); [apply Hse|].
  exists (fun i => default (Rate 0 0) (m' !! name_of gr i)), l. split_and!; try done.
  - unfold parse_graph_rates. rewrite (split_rates s g gr Hs D M T X F roots Hroots) by done.
    erewrite d_step by exact E1. cbv beta iota. erewrite d_step by exact E2. exact E3.
  - intros i. rewrite Hil. split.
    + intros [Hi Hm']. by apply (search_done gr D T X roots Hroots m' Hse).
    + intros Hr. assert (Hi : is_node gr i).
      { destruct Hr as (root & Hroot%Hroots & Hw). induction Hw as [|a b c Hab _ IH]; [done|].
        apply IH. by apply (follows_is_node gr true a b (ds_wf gr D)). }
      split; [done|]. by apply (search_done gr D T X roots Hroots m' Hse).
  - intros i (Hi & [r Hr])%Hil. rewrite Hr. by apply (exact_lookup gr D T X m' i r (se_exact _ _ _ _ _ _ _ Hse)).
Qed.

End Theorems.

(** ** What a description builds is described *)

Lemma with_edges_linked g l ds gr :
  linked gr -> 0 <= nr_edges gr -> (forall i, is_node gr i -> 0 <= nr_out (gnode gr i)) ->
  (forall d, d ∈ ds -> is_node gr (index l (d_p d))) -> linked (with_edges g l ds gr).
Proof.
  revert gr. induction ds as [|d ds IH]; intros gr Hli Hne Hout Hds; [done|].
  set (p := index l (d_p d)). assert (Hp : is_node gr p) by (apply Hds; constructor).
  apply (IH (link_edge p (index l (d_c d)) (edge_from g l d) gr)).
  - intros e He. change (0 <= e < nr_edges gr + 1) in He. destruct (decide (e = nr_edges gr)) as [->|Hne'].
    + rewrite gedge_link_new. change (e_producer (edge_from g l d)) with p. split; [done|].
      rewrite out_list_link by by apply Hout. rewrite bool_decide_eq_true_2 by done. set_solver.
    + rewrite gedge_link_old by lia. destruct (Hli e) as [Hpe Hoe]; [lia|]. split; [done|].
      rewrite out_list_link by by apply Hout. set_solver.
  - simpl. lia.
  - intros i Hi. destruct (sizes_link p (index l (d_c d)) (edge_from g l d) gr i) as [_ ->].
    specialize (Hout i Hi). case_decide; lia.
  - intros e He. apply Hds. by constructor.
Qed.

(** In alphabetical order a name comes before those that start with it. *)
Lemma compare_prefix x y : String.compare (x +:+ y) x <> Lt.
Proof.
  induction x as [|c x IH]; [by destruct y|]. change (String c x +:+ y) with (String c (x +:+ y)).
  simpl. unfold Ascii.compare. by rewrite N.compare_refl.
Qed.

Lemma take_prefix x y r :
  NUL ∉ lit x -> take (String.length x) (lit y ++ NUL :: r)%list = lit x -> exists z, y = x +:+ z.
Proof.
  revert y. induction x as [|c x IH]; intros y Hn E; [by exists y|]. destruct y as [|d y].
  - simpl in E. injection E as E _. subst c. destruct Hn. cbn. set_solver.
  - cbn in E. injection E as -> E. destruct (IH y) as [z ->]; [cbn in Hn; set_solver | done|]. by exists z.
Qed.

Lemma take_strncpy dst src max :
  take (strnlen src max) (strncpy dst src (strnlen src max)) = take (strnlen src max) src.
Proof.
  unfold strncpy. generalize (drop (strnlen src max) dst) as rest. revert src.
  induction max as [|max IH]; intros [|c src] rest; simpl; try done.
  destruct (bool_decide (c = NUL)) eqn:E; [done|]. simpl. rewrite E. simpl. f_equal. apply IH.
Qed.

Lemma sorted_lookup (R : string -> string -> Prop) (l : list string) i j x y :
  StronglySorted R l -> l !! i = Some x -> l !! j = Some y -> (i < j)%nat -> R x y.
Proof.
  intros Hl. revert i j. induction Hl as [|z l Hl IH Hz]; intros [|i] [|j] Ei Ej Hij; simpl in *; try done; try lia.
  - injection Ei as ->. rewrite Forall_lookup in Hz. by apply (Hz j).
  - apply (IH i j); try done. lia.
Qed.

Section Built.
Context `{L : BoostTextLaws} (g : Z) (gr : pgm_graph) (ds : list edesc).
#[local] Abbreviation l := (names ds).
#[local] Abbreviation gn := (with_nodes l gr).
#[local] Abbreviation built := (with_edges g l ds gn).
Context (Hn : nr_nodes gr = 0) (He : nr_edges gr = 0) (Hfit : description_fits ds).

Lemma built_first i j :
  is_node built i -> 0 <= j < i ->
  ~ starts_with (n_name (gnode built j)) (lit (name_of built i)) PGM_NODE_NAME_LEN.
Proof.
  intros Hi Hj. pose proof (df_names _ Hfit) as Hnm. pose proof (names_are_ok ds Hnm) as Hok. rewrite Forall_lookup in Hok.
  assert (Hj' : is_node built j) by (unfold is_node in *; lia).
  destruct (node_index g gr ds Hn He i Hi) as (k & x & -> & Ex), (node_index g gr ds Hn He j Hj') as (k' & y & -> & Ey).
  rewrite (built_name g gr ds Hn Hnm k x Ex), (built_node g gr ds Hn k' y Ey).
  destruct (fresh_node_name y (Hok _ _ Ey)) as [Es _]. apply std_string_inv in Es as [r ->].
  destruct (Hok _ _ Ex) as (Hnul & _ & Hlen). unfold starts_with.
  rewrite strnlen_plain by (rewrite ?length_lit; auto with lia). rewrite firstn_all, length_lit.
  intros [z ->]%take_prefix; [|done].
  destruct (compare_prefix x z). apply (sorted_lookup before l k' k); try done; [apply sorted_names|lia].
Qed.

Lemma built_edge_name j d :
  ds !! j = Some d -> let e := Z.of_nat j in
  bad_name_len (edge_named built e) PGM_EDGE_NAME_LEN = false /\
  starts_with (e_name (gedge built e)) (edge_named built e) PGM_EDGE_NAME_LEN.
Proof.
  intros Ed e. pose proof (df_names _ Hfit) as Hnm.
  destruct (built_edge g gr ds Hn He Hnm j d Ed) as (Ep & Ec & _). fold e in Ep, Ec. unfold edge_named. rewrite Ep, Ec.
  pose proof (with_edges_new g l ds gn j d Ed) as E. destruct (with_nodes_size l gr) as (_ & E2 & _).
  rewrite E2, He, Z.add_0_l in E. fold e in E. rewrite E.
  rewrite Forall_lookup in Hnm. destruct (Hnm j d Ed) as (Hp & Hc & Hl).
  split; [by apply edge_name_accepted|]. unfold starts_with, edge_from, fresh_edge. cbn [e_name set_field].
  apply take_strncpy.
Qed.

Lemma built_acyclic_described : graph_wf built -> acyclic built true -> described built.
Proof.
  intros Hwf Ha. pose proof (df_names _ Hfit) as Hnm. pose proof (names_are_ok ds Hnm) as Hok.
  destruct (built_sizes g gr ds Hn He) as (Bn & Be & _). destruct (with_nodes_size l gr) as (Sn & Se & _).
  assert (Hedge : forall e, is_edge built e -> exists j d, e = Z.of_nat j /\ ds !! j = Some d).
  { intros e Hie. unfold is_edge in Hie. rewrite Be in Hie.
    destruct (lookup_lt_is_Some_2 ds (Z.to_nat e)) as [d Ed]; [lia|]. exists (Z.to_nat e), d. split; [lia|done]. }
  assert (Hattr : forall e, is_edge built e -> exists d, d ∈ ds /\ is_backedge (gedge built e) = false /\
    e_attr (gedge built e) = attr_of d).
  { intros e (j & d & -> & Ed)%Hedge. exists d. split; [by eapply list_elem_of_lookup_2|].
    by destruct (built_edge g gr ds Hn He Hnm j d Ed) as (_ & _ & ? & ? & _). }
  pose proof (df_ok _ Hfit) as Hds. rewrite Forall_forall in Hds.
  split; try done.
  - by apply built_names_ok.
  - apply with_edges_linked; [intros e ?; lia | lia | |].
    + intros i Hi. destruct (new_nodes_empty gr l i Hn Hi) as [-> _]. done.
    + intros d Hd. by apply (index_name g gr ds Hn Hnm), ends_are_names.
  - intros i (k & x & -> & Ex)%(node_index g gr ds Hn He). rewrite (built_name g gr ds Hn Hnm k x Ex).
    rewrite Forall_lookup in Hok. by apply (Hok k).
  - apply built_first.
  - by intros e (d & _ & ? & _)%Hattr.
  - intros e (j & d & -> & Ed)%Hedge. by apply (built_edge_name j d).
  - intros e (d & Hd & _ & ->)%Hattr. by apply numbers_ok, Hds.
  - intros e (d & Hd & _ & ->)%Hattr. by apply numbers_ok, Hds.
Qed.

End Built.

(** ** A concrete graph *)

#[local] Existing Instances demo_text demo_text_laws.

#[local] Instance demo_math_laws : BoostMathLaws demo_text.
Proof. by split. Qed.

(** What "a:b,b.2:c.1.3" builds. *)
Definition demo_descr : list edesc := [demo_first; demo_second].
Definition demo_built : pgm_graph :=
  with_edges 0 (names demo_descr) demo_descr (with_nodes (names demo_descr) demo_graph).

Lemma demo_built_wf : graph_wf demo_built.
Proof.
  by destruct (build_runs (Node_t 0 0) (Edge_t 0 0) 0 demo_descr (demo_state demo_graph) demo_graph [] [] 0)
    as [? _]; [by apply demo_usable | done | done | apply demo_fits |].
Qed.

Lemma demo_built_acyclic : acyclic demo_built true.
Proof.
  pose proof (built_names_ok 0 demo_graph demo_descr eq_refl eq_refl (df_names _ demo_fits)) as Hnames.
  destruct (dag_roots_decides demo_built demo_built_wf Hnames true) as (b & E & Hb). apply Hb.
  vm_compute in E. injection E as <-. done.
Qed.

Lemma demo_built_described : described demo_built.
Proof.
  apply built_acyclic_described; [done | done | apply demo_fits | apply demo_built_wf | apply demo_built_acyclic].
Qed.

(** One arrival at [a] and [b] and two at [c] in every millisecond. *)
Definition demo_arrivals (i : Z) : Z := if i =? 2 then 2 else 1.

Lemma demo_flow : flow demo_built 1000 demo_arrivals.
Proof.
  assert (Hall : forall e, is_edge demo_built e -> e = 0 \/ e = 1).
  { intros e [H0 H1]. change (nr_edges demo_built) with 2 in H1. lia. }
  split; [done | | | |]; try (intros e [->| ->]%Hall; vm_compute; reflexivity).
  intros i _. unfold demo_arrivals. by destruct (i =? 2).
Qed.

Definition demo_given : given := Given 0 "1" "1" (Rate 1000 1).

Lemma demo_given_ok : given_ok demo_built 1000 demo_arrivals demo_given.
Proof.
  split.
  - split; [done|]. vm_compute. reflexivity.
  - apply Forall_forall. intros c Hc. vm_compute in Hc. apply list_elem_of_singleton in Hc as ->. reflexivity.
  - split; [repeat constructor | reflexivity].
  - split; [repeat constructor|]. exists (dofZ 1). split; vm_compute; reflexivity.
  - split_and!; [done | apply Z.divide_refl | reflexivity].
Qed.

Lemma parse_graph_rates_exact_witness :
  rates_text demo_built demo_given [] = "a:1:1"%string /\ exists rate_of l,
    parse_graph_rates (Node_t 0 0) (Edge_t 0 0) 9 "a:1:1" 0 [] (Driver (demo_state demo_built) 0) =
      Ok (inr ((fun i => (Node_t 0 i, period (rate_of i))) <$> l), Driver (demo_state demo_built) 0) /\
    (2 ∈ l -> r_x (rate_of 2) * 1000 = r_y (rate_of 2) * 2).
Proof.
  split; [vm_compute; reflexivity|].
  destruct (parse_graph_rates_exact (Node_t 0 0) (Edge_t 0 0) (demo_state demo_built) 0 demo_built 1000
    demo_arrivals demo_given [] 9 0) as (rate_of & l & E & _ & _ & Hx).
  - by apply demo_usable.
  - apply demo_built_described.
  - apply demo_flow.
  - apply Forall_singleton, demo_given_ok.
  - apply Nat.leb_le. vm_compute. reflexivity.
  - exists rate_of, l. split; [exact E|]. intros Hl. by destruct (Hx 2 Hl) as (_ & _ & ?).
Defined.

End Rates.
