(* ===== verification/Work.v ===== *)
(** * The driver's threads (tools/pgmrt.cpp)

    Every node of the graph is run by a thread: it claims the node, then works in
    jobs until the graph ends.  A job reads and writes the working sets of the
    node's edges and keeps the processor busy for the node's execution time;
    a source starts its jobs periodically and ends the graph when its time is
    up.  This is the build without LITMUS^RT.  Also here: what [main] does around
    the threads, from the parsed command line to their configurations. *)

From Stdlib Require Import Ascii String.
From S2P Require Import Prelude Ring Types Sys Structure Memory Ipc GraphInit GraphWf Teardown Query Search Lookup Double Depth Ownership Stream Tokens Firing Startup Driver.

Module Work.
Import Types Sys Structure Memory GraphInit GraphWf Query Search Lookup Double Depth Ownership Stream Tokens Firing Startup Driver.
#[local] Open Scope Z_scope.

(** ** The clocks *)

(** [clock_gettime(CLOCK_THREAD_CPUTIME_ID)] in seconds and nanoseconds,
    [gettimeofday] in seconds and microseconds, [nanosleep], and the pause
    instruction. *)
Class Clock (W : Type) := {
  sys_cputime : W -> (Z * Z) * W;
  sys_gettimeofday : W -> (Z * Z) * W;
  sys_nanosleep : Z -> Z -> W -> W;
  sys_relax : W -> W
}.

(** ** State *)

(** [buf] is an array of ints; a null pointer where the size is zero. *)
Record WorkingSet := WS { ws_buf : option (gmap Z Z); num : Z; cycle : Z }.

(** The driver, the static map [WorkingSet::edgeToWs], and the working sets by
    their address. *)
Record app (W : Type) := App {
  drv : driver W;
  edgeToWs : list (edge_t * Z);
  wsets : gmap Z WorkingSet
}.
Arguments App {W}.
Arguments drv {W}.
Arguments edgeToWs {W}.
Arguments wsets {W}.

#[global] Instance WorkingSet_eta : Eta WorkingSet := fun w => WS (ws_buf w) (num w) (cycle w).
#[global] Instance app_eta {W} : Eta (app W) := fun a => App (drv a) (edgeToWs a) (wsets a).

Record rt_config := Config {
  syncRelease : bool;
  cluster : Z;
  budget : bool;
  phase_ns : Z;
  period_ns : Z;
  execution_ns : Z;
  discount_ns : Z;
  loop_for_ns : Z;
  split_factor : Z;
  expected_etoe : Z;
  duration_ns : Z;
  c_node : node_t
}.

#[global] Instance rt_config_eta : Eta rt_config := fun c =>
  Config (syncRelease c) (cluster c) (budget c) (phase_ns c) (period_ns c) (execution_ns c)
    (discount_ns c) (loop_for_ns c) (split_factor c) (expected_etoe c) (duration_ns c) (c_node c).

Definition s2ns (s : Z) : Z := s * 1000000000.
Definition us2ns (us : Z) : Z := us * 1000.

Section Code.
Context {W : Type} `{Syscalls W} `{Clock W}.
(** Bounds: retries to open a FIFO, rounds of the data-passing loops, rounds of
    the busy loop. *)
Context (retries rounds fuel spin : nat).
(** What fresh memory holds. *)
Context (junk : Z -> Z).

Definition lib_call {A} (m : ST (pgm_state W) A) : ST (app W) A := fun a =>
  match m (lib (drv a)) with
  | Ok (x, s) => Ok (x, a <| drv := (drv a) <| lib := s |> |>)
  | Fault f => Fault f
  end.

Definition check_error (ret : Z) : ST (app W) unit := fun a =>
  Ok (tt, if ret <? 0 then a <| drv := (drv a) <| errors ::= fun k => k + 1 |> |> else a).

Definition on_world (f : W -> W) : ST (app W) unit := lib_call (sys (fun w => (tt, f w))).

(** ** Working sets *)

(** [WorkingSet(int setSize, int cycle)]; a size that no array can have ends the
    program. *)
Definition new_WorkingSet (setSize cyc : Z) : outcome WorkingSet :=
  if setSize =? 0 then mret (WS None 0 cyc)
  else
    let n := signed 32 (wrap64 setSize / 4 + (if negb (wrap64 setSize mod 4 =? 0) then 1 else 0)) in
    if (0 <=? cyc * n) && (cyc * n <? 2 ^ 31)
    then mret (WS (Some (list_to_map ((fun i => (i, junk i)) <$> seqZ 0 (cyc * n)))) n cyc)
    else Fault AssertFailure.

Definition rd_ws (w : Z) : ST (app W) WorkingSet :=
  a ← get; lift (match wsets a !! w with Some ws => Ok ws | None => Fault NullDeref end).

(** [start(c)] and [end(c)], as positions in [buf]. *)
Definition ws_start (ws : WorkingSet) (c : Z) : outcome Z :=
  if cycle ws =? 0 then Fault DivByZero else mret (Z.rem c (cycle ws)).
Definition ws_end (ws : WorkingSet) (c : Z) : outcome Z :=
  p ← ws_start ws c; mret (p + num ws).

Definition rd_chunk (ws : WorkingSet) (p : Z) : outcome Z :=
  match ws_buf ws with
  | None => Fault NullDeref
  | Some b => match b !! p with Some x => mret x | None => Fault OutOfBounds end
  end.

Definition wr_chunk (ws : WorkingSet) (p x : Z) : outcome WorkingSet :=
  match ws_buf ws with
  | None => Fault NullDeref
  | Some b => if decide (is_Some (b !! p)) then mret (ws <| ws_buf := Some (<[p := x]> b) |>) else Fault OutOfBounds
  end.

(** [for(p = start, end = ...; p < end; ++p)] *)
Definition chunks (ws : WorkingSet) (jobNum : Z) : outcome (list Z) :=
  p ← ws_start ws jobNum; mret (seqZ p (num ws)).

Definition consume_ws (w jobNum : Z) : ST (app W) Z :=
  ws ← rd_ws w;
  ps ← lift (chunks ws jobNum);
  for_acc ps 0 (fun p temp => x ← lift (rd_chunk ws p); mret (signed 32 (temp + x))).

Definition consume (ws : list Z) (jobNum : Z) : ST (app W) Z :=
  for_acc ws 0 (fun w temp => x ← consume_ws w jobNum; mret (signed 32 (temp + x))).

Definition produce_ws (toWrite jobNum w : Z) : ST (app W) unit :=
  ws ← rd_ws w;
  ps ← lift (chunks ws jobNum);
  for_each ps (fun p =>
    ws ← rd_ws w;
    ws' ← lift (wr_chunk ws p toWrite);
    a ← get;
    put (a <| wsets ::= <[w := ws']> |>)).

Definition produce (ws : list Z) (toWrite jobNum : Z) : ST (app W) unit :=
  for_each ws (produce_ws toWrite jobNum).

(** ** Time *)

Definition cputime_ns : ST (app W) Z :=
  '(s, ns) ← lib_call (sys sys_cputime); mret (wrap64 (s2ns (wrap64 s) + ns)).
Definition wctime_ns : ST (app W) Z :=
  '(s, us) ← lib_call (sys sys_gettimeofday); mret (wrap64 (s2ns (wrap64 s) + us2ns (wrap64 us))).

Definition sleep_ns (ns : Z) : ST (app W) unit :=
  let seconds := ns / s2ns 1 in
  on_world (sys_nanosleep seconds (wrap64 (ns - s2ns seconds))).

Definition loop_iters : Z := 2 ^ 14.
Definition loop_once : ST (app W) Z :=
  for_each (upto loop_iters) (fun _ => on_world sys_relax) ;; mret loop_iters.

Definition CHUNK_SIZE : Z := 4 * 1024 / 4.

(** One round of the inner loop of [loop_for]: [tmp], [curWs], [p] and [e]. *)
Definition touch (ws : list Z) (jobNum : Z) (st : Z * Z * Z * Z) : ST (app W) (Z * Z * Z * Z) :=
  let '(tmp, curWs, p, e) := st in
  w ← lift (match ws !! Z.to_nat curWs with Some w => Ok w | None => Fault OutOfBounds end);
  set ← rd_ws w;
  x ← lift (rd_chunk set p);
  let tmp := signed 32 (tmp + x) in
  if p + 1 =? e then
    let curWs := if curWs + 1 =? Z.of_nat (List.length ws) then 0 else curWs + 1 in
    w ← lift (match ws !! Z.to_nat curWs with Some w => Ok w | None => Fault OutOfBounds end);
    set ← rd_ws w;
    p ← lift (ws_start set jobNum);
    e ← lift (ws_end set jobNum);
    mret (tmp, curWs, p, e)
  else mret (tmp, curWs, p + 1, e).

(** The body of the busy loop before it looks at the clock. *)
Definition work_round (ws : list Z) (jobNum : Z) (st : Z * Z * Z * Z) : ST (app W) (Z * Z * Z * Z) :=
  match ws with
  | [] =>
      let '(tmp, curWs, p, e) := st in
      i ← loop_once; mret (signed 32 (tmp + i), curWs, p, e)
  | _ => for_acc (upto CHUNK_SIZE) st (fun _ st => touch ws jobNum st)
  end.

Fixpoint busy (n : nat) (ws : list Z) (jobNum start exec_time emergency_exit : Z)
    (st : Z * Z * Z * Z) (now lastLoop : Z) : ST (app W) (exn + Z) :=
  match n with
  | O => fail OutOfFuel
  | S n =>
      if wrap64 (now + lastLoop) <? wrap64 (start + exec_time) then
        st ← work_round ws jobNum st;
        now' ← cputime_ns;
        let lastLoop := wrap64 (now' - now) in
        late ← (if emergency_exit =? 0 then mret false
                else t ← wctime_ns; mret (emergency_exit <? t));
        if late : bool then mret (inl (Runtime_error "Emergency Exit"))
        else busy n ws jobNum start exec_time emergency_exit st now' lastLoop
      else mret (inr (wrap64 st.1.1.1))
  end.

Definition loop_for (ws : list Z) (jobNum exec_time emergency_exit : Z) : ST (app W) (exn + Z) :=
  start ← cputime_ns;
  st ← (match ws with
        | [] => mret (0, 0, 0, 0)
        | w :: _ =>
            set ← rd_ws w;
            p ← lift (ws_start set jobNum);
            e ← lift (ws_end set jobNum);
            mret (0, 0, p, e)
        end);
  busy spin ws jobNum start exec_time emergency_exit st start 0.

(** ** Jobs *)

Definition job (cfg : rt_config) (jobNum : Z) (consumeList produceList : list Z) (programEnd : Z)
    : ST (app W) bool :=
  over ← (if programEnd =? 0 then mret false else t ← wctime_ns; mret (programEnd <? t));
  if over : bool then mret false
  else
    let emergency_exit := if programEnd =? 0 then 0 else wrap64 (programEnd + s2ns 1) in
    temp ← (match consumeList with [] => mret jobNum | _ => consume consumeList jobNum end);
    r ← loop_for consumeList jobNum (loop_for_ns cfg) emergency_exit;
    (match produceList with [] => mret tt | _ => produce produceList temp jobNum end) ;;
    mret (match r with inl _ => false | inr _ => true end).

(** [edgeToWs.find(e)], with the comparison's assertion *)
Fixpoint find_ws (m : list (edge_t * Z)) (e : edge_t) : outcome (option Z) :=
  match m with
  | [] => Ok None
  | (k, w) :: m =>
      if negb (ed_graph k =? ed_graph e) then Fault AssertFailure
      else if ed_edge k =? ed_edge e then Ok (Some w)
      else find_ws m e
  end.

Definition attached (edges : list edge_t) : ST (app W) (list Z) :=
  for_acc edges [] (fun e acc =>
    a ← get;
    w ← lift (find_ws (edgeToWs a) e);
    mret (match w with Some w => acc ++ [w] | None => acc end)).

(** How long to loop, accounting for the time spent reading and writing. *)
Definition with_loop_time (cfg : rt_config) : rt_config :=
  cfg <| loop_for_ns := if execution_ns cfg <? discount_ns cfg then 0
                        else execution_ns cfg - discount_ns cfg |>.

(** From the claim to the lists of working sets; [numEdges] stays 0 in both
    calls, and the first array is null. *)
Definition work_prepare (cfg : rt_config) : ST (app W) (bool * list Z * list Z) :=
  degree_in ← lib_call (pgm_get_degree_in (c_node cfg) true);
  degree_out ← lib_call (pgm_get_degree_out (c_node cfg) true);
  let isSrc := degree_in =? 0 in
  ret ← lib_call (pgm_claim_node retries (c_node cfg) 0);
  check_error ret ;;
  '(ret, es) ← lib_call (pgm_get_edges_in (c_node cfg) false 0 true);
  check_error ret ;;
  consumeWs ← attached (take 0 es);
  '(ret, es) ← lib_call (pgm_get_edges_out (c_node cfg) true 0 true);
  check_error ret ;;
  produceWs ← attached (take 0 es);
  mret (isSrc, consumeWs, produceWs).

Fixpoint work_loop (n : nat) (cfg : rt_config) (isSrc : bool) (consumeWs produceWs : list Z)
    (bailoutTime count ret : Z) : ST (app W) unit :=
  match n with
  | O => fail OutOfFuel
  | S n =>
      ret ← (if negb isSrc then lib_call (pgm_wait rounds fuel (c_node cfg)) else mret ret);
      release_ns ← wctime_ns;
      if ret =? PGM_TERMINATE then mret tt
      else
        check_error ret ;;
        keepGoing ← job cfg count consumeWs produceWs bailoutTime;
        if isSrc && negb keepGoing then
          r ← lib_call (pgm_terminate fuel (c_node cfg)); check_error r
        else
          r ← lib_call (pgm_complete fuel (c_node cfg)); check_error r ;;
          t ← wctime_ns;
          let response_ns := wrap64 (t - release_ns) in
          (if isSrc && (response_ns <? period_ns cfg)
           then sleep_ns (period_ns cfg - response_ns) else mret tt) ;;
          work_loop n cfg isSrc consumeWs produceWs bailoutTime (signed 32 (count + 1)) ret
  end.

(** What the thread does before it meets the others at the exit barrier. *)
Definition work_until_barrier (jobs : nat) (cfg : rt_config) : ST (app W) unit :=
  '(isSrc, consumeWs, produceWs) ← work_prepare cfg;
  let cfg := with_loop_time cfg in
  sleep_ns (phase_ns cfg) ;;
  bailoutTime ← (if isSrc then t ← wctime_ns; mret (wrap64 (t + duration_ns cfg)) else mret 0);
  work_loop jobs cfg isSrc consumeWs produceWs bailoutTime 0 0.

(** [barrier] is what happens until the last thread has arrived. *)
Definition work_thread (jobs : nat) (barrier : ST (app W) unit) (cfg : rt_config) : ST (app W) unit :=
  work_until_barrier jobs cfg ;;
  barrier ;;
  ret ← lib_call (pgm_release_node (c_node cfg) 0);
  check_error ret.

End Code.

(** ** The main program *)

(** The command line after Boost's program options; [None] where an option
    without default was not given. *)
Record options := Options {
  o_wait : bool;
  o_cluster : string;
  o_graphfile : option string;
  o_name : string;
  o_graph : option string;
  o_rates : option string;
  o_execution : option string;
  o_discount : string;
  o_etoe : double;
  o_wss : string;
  o_split : string;
  o_wsCycle : Z;
  o_graphDir : string;
  o_duration : double;
  o_continuation : bool
}.

(** The local variables of [main] that the options are parsed into. *)
Record parsed := Parsed {
  p_graph : Z;
  p_nodes : list node_t;
  p_edges : list edge_t;
  p_periods : list (node_t * double);
  p_executions : list (node_t * double);
  p_discounts : list (node_t * double);
  p_split_factors : list (node_t * Z);
  p_wss : list (edge_t * double);
  p_clusters : list (node_t * double)
}.

#[global] Instance parsed_eta : Eta parsed := fun p =>
  Parsed (p_graph p) (p_nodes p) (p_edges p) (p_periods p) (p_executions p) (p_discounts p)
    (p_split_factors p) (p_wss p) (p_clusters p).

(** [map.find(n)] and [map[n]], which adds a zero for a missing key *)
Fixpoint node_map_find {A} (n : node_t) (m : list (node_t * A)) : outcome (option A) :=
  match m with
  | [] => Ok None
  | (k, v) :: m =>
      if negb (nd_graph k =? nd_graph n) then Fault AssertFailure
      else if nd_node k =? nd_node n then Ok (Some v)
      else node_map_find n m
  end.

Definition node_map_at (n : node_t) (m : list (node_t * double)) : outcome (double * list (node_t * double)) :=
  v ← node_map_find n m;
  match v with
  | Some v => mret (v, m)
  | None => m' ← node_map_set n (dofZ 0) m; mret (dofZ 0, m')
  end.

(** A double where a 64-bit or an int is wanted; undefined when it does not fit. *)
Definition as_uint64 (x : double) : outcome Z :=
  match to_uint64 x with Some z => Ok z | None => Fault OutOfBounds end.
Definition as_int (x : double) : outcome Z :=
  match to_int x with Some z => Ok z | None => Fault OutOfBounds end.

(** [ms2ns] and [s2ns] of a double *)
Definition ms2ns_uint64 (x : double) : outcome Z := as_uint64 (dmul x (dofZ 1000000)).
Definition s2ns_uint64 (x : double) : outcome Z := as_uint64 (dmul x (dofZ 1000000000)).

Section Main.
Context {W : Type} `{Syscalls W} `{Filesystem W} `{Boost} `{BoostText}.
Context (fuel : nat) (junk : Z -> Z) (junk_node : node_t) (junk_edge : edge_t) (junk_graph pid : Z).

Definition drv_call {A} (m : DM W A) : ST (app W) (exn + A) := fun a =>
  match m (drv a) with Ok (r, d) => Ok (r, a <| drv := d |>) | Fault f => Fault f end.

(** [vm[...].as<std::string>()], which throws when there is no value *)
Definition as_string (o : option string) : DM W string :=
  match o with Some s => mret s | None => throw (Runtime_error "bad_any_cast") end.

Definition unnamed (o : options) : bool := bool_decide (o_name o = EmptyString).

Definition graph_dir (o : options) : string :=
  if unnamed o then (o_graphDir o +:+ "_" +:+ string_of_list_ascii (hex_name pid))%string
  else (o_graphDir o +:+ o_name o)%string.

Definition the_graph (o : options) : DM W Z :=
  '(ret, g) ←
    (if negb (o_continuation o) then
       if negb (unnamed o) then call (pgm_init_graph junk_graph (lit (o_name o)))
       else call (pgm_init_graph_num junk_graph pid)
     else if negb (unnamed o) then call (pgm_find_graph junk_graph (lit (o_name o)))
     else dlift (Fault AssertFailure));
  CheckError ret ;;
  mret g.

Definition parse_options (o : options) : DM W parsed :=
  match o_graph o, o_graphfile o with
  | Some desc, _ =>
      g ← the_graph o;
      '(nodes, edges) ← parse_graph_description junk_node junk_edge desc g [] [];
      rates ← as_string (o_rates o);
      periods ← parse_graph_rates junk_node junk_edge fuel rates g [];
      execution ← as_string (o_execution o);
      executions ← parse_graph_exec junk_node execution g [];
      discounts ← parse_graph_exec junk_node (o_discount o) g [];
      split_factors ← parse_graph_split_factor junk_node (o_split o) g [];
      wss ← parse_graph_wss junk_node junk_edge (o_wss o) g [];
      clusters ← parse_graph_cluster junk_node (o_cluster o) g [];
      mret (Parsed g nodes edges periods executions discounts split_factors wss clusters)
  | None, Some file =>
      '(nodes, edges) ← parse_graph_file file;
      mret (Parsed junk_graph nodes edges [] [] [] [] [] [])
  | None, None => throw (Runtime_error "Missing graph file or description")
  end.

(** [WorkingSet::edgeToWs[e] = new WorkingSet(size, wsCycle)] *)
Definition make_set (wsCycle : Z) (x : edge_t * double) : ST (app W) unit :=
  size ← lift (as_int x.2);
  ws ← lift (new_WorkingSet junk size wsCycle);
  a ← get;
  let w := fresh (dom (wsets a)) in
  m ← lift (edge_map_set x.1 w (edgeToWs a));
  put (a <| edgeToWs := m |> <| wsets ::= <[w := ws]> |>).

(** The configuration of one node's thread; the lookups add missing keys. *)
Definition node_config (cfg : rt_config) (n : node_t) (p : parsed) : ST (app W) (rt_config * parsed) :=
  '(c, clusters) ← lift (node_map_at n (p_clusters p));
  c ← lift (as_int c);
  depth ← lib_call (pgm_get_max_depth n (Some (producer_period (p_periods p))));
  phase ← lift (ms2ns_uint64 depth);
  '(x, periods) ← lift (node_map_at n (p_periods p));
  period ← lift (ms2ns_uint64 x);
  '(x, executions) ← lift (node_map_at n (p_executions p));
  execution ← lift (ms2ns_uint64 x);
  '(x, discounts) ← lift (node_map_at n (p_discounts p));
  discount ← lift (ms2ns_uint64 x);
  mret (cfg <| cluster := c |> <| c_node := n |> <| phase_ns := phase |> <| period_ns := period |>
          <| execution_ns := execution |> <| discount_ns := discount |>,
        p <| p_clusters := clusters |> <| p_periods := periods |> <| p_executions := executions |>
          <| p_discounts := discounts |>).

(** The split factor is only set for the threads that are spawned. *)
Definition spawned_config (cfg : rt_config) (n : node_t) (acc : list rt_config * parsed)
    : ST (app W) (list rt_config * parsed) :=
  '(c, p) ← node_config cfg n acc.2;
  sf ← lift (node_map_find n (p_split_factors p));
  mret (acc.1 ++ [match sf with Some k => c <| split_factor := k |> | None => c end], p).

(** Up to the threads: the graph, the configurations of the spawned threads and
    that of the main thread; or the exit code. *)
Definition setup (o : options) : ST (app W) (Z + (Z * list rt_config * rt_config)) :=
  etoe ← lift (ms2ns_uint64 (o_etoe o));
  duration ← lift (s2ns_uint64 (o_duration o));
  let cfg := Config (o_wait o) (-1) false 0 0 0 0 0 1 etoe duration junk_node in
  ret ← lib_call (pgm_init fuel (graph_dir o) (negb (o_continuation o)) false);
  check_error ret ;;
  r ← drv_call (parse_options o);
  match r with
  | inl _ => mret (inl (-1))
  | inr p =>
      for_each (p_wss p) (make_set (o_wsCycle o)) ;;
      '(threads, p) ← for_acc (List.tl (p_nodes p)) ([], p) (spawned_config cfg);
      n0 ← lift (at_index (p_nodes p) 0);
      '(cfg, _) ← node_config cfg n0 p;
      mret (inr (p_graph p, threads, cfg))
  end.

(** After the threads were joined. *)
Definition finish (g : Z) : ST (app W) Z :=
  a ← get;
  put (a <| wsets := foldr (fun x m => delete x.2 m) (wsets a) (edgeToWs a) |>) ;;
  ret ← lib_call (pgm_destroy_graph g);
  check_error ret ;;
  mret 0.

(** [run] is what the threads do, all of them at once; the ones that are spawned
    first may start while the others are being configured, which reads nothing
    they change. *)
Definition main (run : list rt_config -> rt_config -> ST (app W) unit) (o : options) : ST (app W) Z :=
  r ← setup o;
  match r with
  | inl code => mret code
  | inr (g, threads, cfg) => run threads cfg ;; finish g
  end.

End Main.

End Work.
