(* ===== verification/Sets.v ===== *)
(** * The working sets of tools/pgmrt.cpp

    What a job leaves in a working set is what the consumer's job of the same
    number finds there, and both stay inside the array.  The sets of consecutive
    jobs overlap, though: [start] moves on by one chunk instead of one set. *)

From Stdlib Require Import Ascii String.
From S2P Require Import Prelude Ring Types Sys Structure GraphInit Driver Work.

Module Sets.
Import Types Sys Structure Driver Work.
#[local] Open Scope Z_scope.

(** ** Sums of ints *)

Lemma signed_mod x : signed 32 x mod 2 ^ 32 = x mod 2 ^ 32.
Proof.
  unfold signed. destruct (_ <? _); [apply Z.mod_mod; lia|].
  rewrite <- (Z.mul_1_l (2 ^ 32)) at 2. by rewrite <- Zminus_mod_idemp_r, Z_mod_mult, Z.sub_0_r, !Z.mod_mod by lia.
Qed.

Lemma signed_cong x y : x mod 2 ^ 32 = y mod 2 ^ 32 -> signed 32 x = signed 32 y.
Proof. intros E. unfold signed. by rewrite E. Qed.

Lemma signed_add x y : signed 32 (signed 32 x + y) = signed 32 (x + y).
Proof. apply signed_cong. by rewrite <- Zplus_mod_idemp_l, signed_mod, Zplus_mod_idemp_l. Qed.

Lemma fold_sum (v : Z) {A} (l : list A) k :
  fold_left (fun t _ => signed 32 (t + v)) l (signed 32 k) = signed 32 (k + Z.of_nat (List.length l) * v).
Proof.
  revert k. induction l as [|x l IH]; intros k; simpl; [f_equal; lia|]. rewrite signed_add, IH. f_equal. lia.
Qed.

(** ** Arrays *)

(** The array has [cycle] sets of [num] chunks, one at least. *)
Record built (ws : WorkingSet) : Prop := {
  bu_num : 1 <= num ws;
  bu_cycle : 1 <= cycle ws;
  bu_buf : exists b, ws_buf ws = Some b /\ forall p, is_Some (b !! p) <-> 0 <= p < cycle ws * num ws
}.

Lemma new_built junk size cyc ws :
  0 < size < 2 ^ 31 -> 1 <= cyc -> new_WorkingSet junk size cyc = Ok ws -> built ws.
Proof.
  intros Hs Hc. unfold new_WorkingSet. destruct (Z.eqb_spec size 0) as [|_]; [lia|].
  set (n := signed 32 _). assert (Hn : 1 <= n).
  { unfold n, signed, wrap64. rewrite (Z.mod_small size) by lia.
    pose proof (Z.div_mod size 4 ltac:(lia)). pose proof (Z.mod_pos_bound size 4 ltac:(lia)).
    set (q := size / 4) in *. destruct (Z.eqb_spec (size mod 4) 0); simpl; rewrite Z.mod_small by lia;
      (match goal with |- context [?x <? ?y] => destruct (Z.ltb_spec x y) end); lia. }
  destruct ((0 <=? cyc * n) && (cyc * n <? 2 ^ 31)); [|done]. intros [= <-]. split; simpl; [lia..|].
  eexists. split; [done|]. intros p. rewrite <- elem_of_dom, dom_list_to_map. rewrite elem_of_list_to_set.
  rewrite <- list_fmap_compose, list_elem_of_fmap. split.
  - intros (i & -> & Hi%elem_of_seqZ). simpl. lia.
  - intros Hp. exists p. split; [done|]. apply elem_of_seqZ. lia.
Qed.

(** A job's set lies in the array. *)
Lemma chunks_inside ws jobNum :
  built ws -> 0 <= jobNum ->
  exists p, chunks ws jobNum = Ok (seqZ p (num ws)) /\ 0 <= p /\ p + num ws <= cycle ws * num ws.
Proof.
  intros [Hn Hc _] Hj. exists (Z.rem jobNum (cycle ws)). unfold chunks, ws_start.
  destruct (Z.eqb_spec (cycle ws) 0); [lia|]. pose proof (Z.rem_bound_pos jobNum (cycle ws) Hj ltac:(lia)).
  split; [done|]. nia.
Qed.

Section Run.
Context {W : Type}.
Implicit Types (a : app W).

Lemma rd_ws_runs a w ws : wsets a !! w = Some ws -> rd_ws w a = Ok (ws, a).
Proof. intros E. unfold rd_ws, get, mbind, ST_bind, lift. by rewrite E. Qed.

(** Writing keeps the shape and fills the chunks. *)
Lemma produce_loop_runs a w ws v ps :
  wsets a !! w = Some ws -> built ws -> (forall p, p ∈ ps -> 0 <= p < cycle ws * num ws) ->
  exists a' ws', for_each ps (fun p => ws ← rd_ws w; ws' ← lift (wr_chunk ws p v); a ← get;
      put (a <| wsets ::= <[w := ws']> |>)) a = Ok (tt, a') /\
    wsets a' !! w = Some ws' /\ num ws' = num ws /\ cycle ws' = cycle ws /\ built ws' /\
    (forall p, p ∈ ps -> rd_chunk ws' p = Ok v) /\
    (forall p, p ∉ ps -> rd_chunk ws' p = rd_chunk ws p) /\ drv a' = drv a.
Proof.
  revert a ws. induction ps as [|p ps IH]; intros a ws Hw Hb Hps; simpl.
  { exists a, ws. split_and!; try done. intros p Hp. by apply elem_of_nil in Hp. }
  pose proof Hb as [Hn Hc (b & Eb & Hd)].
  assert (Hp : is_Some (b !! p)) by (apply Hd, Hps; constructor).
  set (ws1 := ws <| ws_buf := Some (<[p := v]> b) |>).
  assert (Hb1 : built ws1).
  { split; [done..|]. exists (<[p := v]> b). split; [done|]. intros q. unfold ws1. simpl. rewrite <- Hd.
    destruct (decide (p = q)) as [<-|]; [rewrite lookup_insert_eq|by rewrite lookup_insert_ne]. naive_solver. }
  erewrite bind_step.
  2:{ erewrite bind_step by (by apply rd_ws_runs). unfold wr_chunk. rewrite Eb, decide_True by done. reflexivity. }
  cbv beta. set (a1 := a <| wsets ::= <[w := ws1]> |>).
  destruct (IH a1 ws1) as (a' & ws' & E & Hw' & En & Ec & Hb' & Hin & Hout & Hd'); [apply lookup_insert_eq|done| |].
  { intros q Hq. apply Hps. by constructor. }
  exists a', ws'. split_and!; try done.
  - intros q Hq. destruct (decide (q ∈ ps)) as [|Hno]; [by apply Hin|]. rewrite Hout by done.
    apply elem_of_cons in Hq as [->|]; [|done]. unfold rd_chunk, ws1. simpl. by rewrite lookup_insert_eq.
  - intros q Hq. rewrite not_elem_of_cons in Hq. rewrite Hout by apply Hq.
    unfold rd_chunk, ws1. simpl. by rewrite Eb, lookup_insert_ne by (destruct Hq; congruence).
Qed.

(** C27. What [__produce] writes into the working set of a job, [__consume] reads
    back in the job of the same number: the value, once per chunk, in ints.
    Neither leaves the array. *)
Theorem produce_consume_roundtrip a w ws v jobNum :
  wsets a !! w = Some ws -> built ws -> 0 <= jobNum ->
  exists a', produce_ws v jobNum w a = Ok (tt, a') /\ drv a' = drv a /\
    consume_ws w jobNum a' = Ok (signed 32 (num ws * v), a').
Proof.
  intros Hw Hb Hj. destruct (chunks_inside ws jobNum Hb Hj) as (p & Ec & Hp0 & Hp1).
  assert (Hin : forall q, q ∈ seqZ p (num ws) -> 0 <= q < cycle ws * num ws) by (intros q Hq%elem_of_seqZ; lia).
  destruct (produce_loop_runs a w ws v (seqZ p (num ws))) as (a' & ws' & E & Hw' & En & Ecy & Hb' & Hread & _ & Hd);
    [done..|].
  exists a'. unfold produce_ws. erewrite bind_step by (by apply rd_ws_runs). cbv beta.
  rewrite Ec. erewrite bind_step by reflexivity. cbv beta. split; [exact E|]. split; [done|].
  unfold consume_ws. erewrite bind_step by (by apply rd_ws_runs). cbv beta.
  assert (Ec' : chunks ws' jobNum = Ok (seqZ p (num ws))).
  { rewrite <- Ec. unfold chunks, ws_start. by rewrite Ecy, En. }
  rewrite Ec'. erewrite bind_step by reflexivity. cbv beta.
  rewrite (for_acc_pure _ _ (fun _ t => signed 32 (t + v))).
  - change 0 with (signed 32 0). rewrite fold_sum, length_seqZ, Z2Nat.id; [done|]. pose proof (bu_num _ Hb). lia.
  - intros q t Hq. by erewrite bind_step by (unfold lift; by rewrite (Hread q Hq)).
Qed.

End Run.

(** ** Sets of different jobs *)

(** Two sets of two chunks.  Job 0 writes sevens and job 1 nines, each into a set
    of its own as the option wsCycle promises; the consumer of job 0 then finds
    a seven and a nine. *)
Definition two_sets : app Z :=
  App (Driver demo_start 0) [] {[1 := WS (Some (list_to_map ((fun i => (i, 0)) <$> seqZ 0 4))) 2 2]}.

Lemma working_sets_overlap :
  (produce_ws 7 0 1 ;; produce_ws 9 1 1 ;; consume_ws 1 0) two_sets ≫= (fun r => mret r.1) = Ok 16.
Proof. vm_compute. reflexivity. Qed.

Lemma two_sets_built : exists ws, wsets two_sets !! 1 = Some ws /\ built ws /\ num ws = 2.
Proof.
  assert (E : new_WorkingSet (fun _ => 0) 8 2 = Ok (WS (Some (list_to_map ((fun i => (i, 0)) <$> seqZ 0 4))) 2 2))
    by (vm_compute; reflexivity).
  apply new_built in E; [|lia..]. eexists. split; [apply lookup_singleton_eq|]. split; [exact E|reflexivity].
Qed.

Lemma produce_consume_roundtrip_witness :
  exists a', produce_ws 7 0 1 two_sets = Ok (tt, a') /\ consume_ws 1 0 a' = Ok (14, a').
Proof.
  destruct two_sets_built as (ws & Hw & Hb & Hn).
  destruct (produce_consume_roundtrip two_sets 1 ws 7 0 Hw Hb) as (a' & E & _ & E'); [lia|].
  exists a'. split; [exact E|]. rewrite E', Hn. reflexivity.
Defined.

End Sets.
