(* ===== verification/Periodic.v ===== *)
(** * A source's thread ends in time

    The thread that pgmrt runs for a source starts a job every period until its
    time is up.  With idealised clocks it comes to its end: it fires at most once
    per period, its consumers get the tokens of every job and then the news that
    no more will come, and the node is released.  This bounds the thread's own
    work, with no other thread in its way; it is not a claim about a machine whose
    clock is set back or whose sleeps are interrupted. *)

From Stdlib Require Import Ascii String.
From S2P Require Import Prelude Ring Types Sys Structure Memory Ipc GraphInit GraphWf Teardown Query Search Lookup Double Depth Print Ownership Stream Tokens Firing Ending Startup Driver Work.

Module Periodic.
Import Types Sys Structure GraphInit GraphWf Query Search Lookup Depth Print Ownership Stream Tokens Firing Ending Driver Work.
#[local] Open Scope Z_scope.

(** ** The clocks *)

(** Times in nanoseconds stay below this, as far as the theorem is concerned. *)
Definition HORIZON : Z := 2 ^ 63.

(** Nothing goes back, and the thread stays the same. *)
Definition later {W} `{Syscalls W} (cpu wall : W -> Z) (w w' : W) : Prop :=
  cpu w <= cpu w' /\ wall w <= wall w' /\ sys_gettid w' = sys_gettid w.

#[global] Instance later_preorder {W} `{Syscalls W} cpu wall : PreOrder (later (W := W) cpu wall).
Proof.
  split; [by intros w|]. intros w1 w2 w3 (A & B & C) (A' & B' & C'). repeat split; [lia..|congruence].
Qed.

(** Idealised clocks, as on a machine where nobody sets the time of day back, no
    signal interrupts a sleep and a woken thread runs soon; the manuals promise none
    of that.
    [cpu] is the processor time the thread has used, [wall] the time of day.
    Readings lie between the time before and the time after the call, those of
    the time of day cut to microseconds; reading a clock and waking up take at
    most [lag]; sleeping lasts at least as long as asked for, and the busy loop
    uses up some processor time. *)
Class ClockLaws (W : Type) `{Syscalls W} `{Clock W} (cpu wall : W -> Z) (lag : Z) : Prop := {
  cl_cpu w : 0 <= cpu w <= wall w;
  cl_wall w : wall w < HORIZON;
  cl_lag : 0 <= lag;
  cl_cputime w s ns w' : sys_cputime w = ((s, ns), w') ->
    0 <= s /\ 0 <= ns /\ cpu w <= s2ns s + ns <= cpu w' /\ wall w' <= wall w + lag /\ later cpu wall w w';
  cl_time w s us w' : sys_gettimeofday w = ((s, us), w') ->
    0 <= s /\ 0 <= us /\ wall w - 1000 < s2ns s + us2ns us <= wall w' /\ wall w' <= wall w + lag /\
    later cpu wall w w';
  cl_sleep w s ns : 0 <= s -> 0 <= ns -> let w' := sys_nanosleep s ns w in
    later cpu wall w w' /\ wall w' <= wall w + (s2ns s + ns) + lag /\
    (wall w + (s2ns s + ns) < HORIZON -> wall w + (s2ns s + ns) <= wall w');
  cl_relax w : later cpu wall w (sys_relax w);
  cl_busy w : cpu w + 1 < HORIZON -> cpu w + 1 <= cpu (Nat.iter (Z.to_nat loop_iters) sys_relax w)
}.

Section Time.
Context {W : Type} `{Syscalls W} `{Clock W} (cpu wall : W -> Z) (lag : Z) `{!ClockLaws W cpu wall lag}.
Implicit Types (a : app W).

Definition now a : W := world (lib (drv a)).
Definition at_time a (w : W) : app W := a <| drv := (drv a) <| lib := (lib (drv a)) <| world := w |> |> |>.

Lemma at_time_twice a w w' : at_time (at_time a w) w' = at_time a w'.
Proof. done. Qed.
Lemma now_at_time a w : now (at_time a w) = w.
Proof. done. Qed.

Lemma at_time_now a : at_time a (now a) = a.
Proof. destruct a as [[s e] m ws]. unfold at_time, now, set_field. simpl. by destruct s. Qed.

Lemma lib_sys {A} (f : W -> A * W) a x w : f (now a) = (x, w) -> lib_call (sys f) a = Ok (x, at_time a w).
Proof. intros E. unfold lib_call, sys, get, put, mbind, ST_bind, mret, ST_ret. fold (now a). by rewrite E. Qed.

Lemma on_world_runs f a : on_world f a = Ok (tt, at_time a (f (now a))).
Proof. by apply (lib_sys (fun w => (tt, f w))). Qed.

Lemma wrap64_id z : 0 <= z < 2 ^ 64 -> wrap64 z = z.
Proof. intros. by apply Z.mod_small. Qed.

Lemma cputime_runs a : exists v w, cputime_ns a = Ok (v, at_time a w) /\
  cpu (now a) <= v <= cpu w /\ wall w <= wall (now a) + lag /\ later cpu wall (now a) w.
Proof.
  destruct (sys_cputime (now a)) as [[s ns] w] eqn:E. pose proof (cl_cputime _ _ _ _ E) as (Hs & Hn & Hv & Hl & Hlat).
  exists (s2ns s + ns), w. split; [|done]. unfold cputime_ns. erewrite bind_step by by apply lib_sys. cbv beta.
  unfold mret, ST_ret. pose proof (cl_cpu w). pose proof (cl_wall w). unfold HORIZON, s2ns in *.
  rewrite (wrap64_id s), wrap64_id by lia. done.
Qed.

Lemma wctime_runs a : exists v w, wctime_ns a = Ok (v, at_time a w) /\ (1000 | v) /\ 0 <= v /\
  wall (now a) - 1000 < v <= wall w /\ wall w <= wall (now a) + lag /\ later cpu wall (now a) w.
Proof.
  destruct (sys_gettimeofday (now a)) as [[s us] w] eqn:E. pose proof (cl_time _ _ _ _ E) as (Hs & Hn & Hv & Hl & Hlat).
  destruct Hv as [Hv1 Hv2]. exists (s2ns s + us2ns us), w. split; [|split_and!; try done].
  - unfold wctime_ns. erewrite bind_step by by apply lib_sys. cbv beta.
    unfold mret, ST_ret. pose proof (cl_wall w). unfold HORIZON, s2ns, us2ns in *.
    rewrite (wrap64_id s), (wrap64_id us), wrap64_id by lia. done.
  - exists (s * 1000000 + us). unfold s2ns, us2ns. lia.
  - unfold s2ns, us2ns. lia.
Qed.

Lemma sleep_runs a ns : 0 <= ns < 2 ^ 64 -> exists w, sleep_ns ns a = Ok (tt, at_time a w) /\
  later cpu wall (now a) w /\ wall w <= wall (now a) + ns + lag /\
  (wall (now a) + ns < HORIZON -> wall (now a) + ns <= wall w).
Proof.
  intros Hns. unfold sleep_ns. rewrite on_world_runs. unfold s2ns in *. rewrite Z.mul_1_l.
  set (sec := ns / 1000000000). assert (0 <= sec /\ 0 <= ns - sec * 1000000000 < 1000000000) as [Hs Hn].
  { pose proof (Z.div_mod ns 1000000000 ltac:(lia)). pose proof (Z.mod_pos_bound ns 1000000000 ltac:(lia)).
    split; [apply Z.div_pos; lia|]. unfold sec. lia. }
  rewrite wrap64_id by lia. eexists. split; [done|].
  destruct (cl_sleep (now a) sec (ns - sec * 1000000000)) as (Hl & Hu & Hd); [lia..|]. unfold s2ns in *.
  replace (sec * 1000000000 + (ns - sec * 1000000000)) with ns in * by lia. done.
Qed.

Lemma relax_later k w : later cpu wall w (Nat.iter k sys_relax w).
Proof. induction k as [|k IH]; [done|]. simpl. etransitivity; [exact IH|apply cl_relax]. Qed.

Lemma relax_loop (l : list Z) a :
  for_each l (fun _ => on_world sys_relax) a = Ok (tt, at_time a (Nat.iter (List.length l) sys_relax (now a))).
Proof.
  revert a. induction l as [|x l IH]; intros a; simpl; [by rewrite at_time_now|].
  erewrite bind_step by apply on_world_runs. cbv beta. rewrite IH, at_time_twice, now_at_time.
  do 3 f_equal. apply Nat.iter_swap.
Qed.

Lemma loop_once_runs a : exists w, loop_once a = Ok (loop_iters, at_time a w) /\
  later cpu wall (now a) w /\ (cpu (now a) + 1 < HORIZON -> cpu (now a) + 1 <= cpu w).
Proof.
  unfold loop_once. erewrite bind_step by apply relax_loop. cbv beta. eexists. split; [done|].
  rewrite length_upto. split; [apply relax_later|apply cl_busy].
Qed.

#[local] Opaque loop_once at_time.

(** ** The busy loop and a job without working sets *)

Lemma busy_runs n jobNum start exec emergency st t lastLoop a :
  0 <= start -> 0 <= exec -> start + exec < HORIZON -> 0 <= t <= cpu (now a) -> 0 <= lastLoop < HORIZON ->
  Z.max 0 (start + exec - t) < Z.of_nat n ->
  exists r w, busy n [] jobNum start exec emergency st t lastLoop a = Ok (r, at_time a w) /\ later cpu wall (now a) w.
Proof.
  revert st t lastLoop a. induction n as [|n IH]; intros [[[tmp c] p] e] t lastLoop a Hs He Hse Ht Hll Hn; [lia|]. cbn [busy].
  pose proof (cl_cpu (now a)) as Hc. pose proof (cl_wall (now a)) as Hw. unfold HORIZON in *.
  rewrite !wrap64_id by lia. destruct (Z.ltb_spec (t + lastLoop) (start + exec)) as [Hlt|Hge].
  2:{ eexists _, (now a). split; [|done]. by rewrite at_time_now. }
  destruct (loop_once_runs a) as (w1 & E1 & L1 & B1). unfold work_round.
  erewrite bind_step by (erewrite bind_step by exact E1; reflexivity). cbv beta.
  destruct (cputime_runs (at_time a w1)) as (v & w2 & E2 & V2 & _ & L2).
  erewrite bind_step by exact E2. cbv beta zeta. rewrite !now_at_time, !at_time_twice in *.
  pose proof (cl_cpu w2). pose proof (cl_wall w2). unfold HORIZON in *. destruct L1 as (L1 & ?), L2 as (L2 & ?).
  assert (Hprog : t < v) by lia. rewrite (wrap64_id (v - t)) by lia.
  set (late := if emergency =? 0 then _ else _).
  assert (exists b w3, late (at_time a w2) = Ok (b, at_time a w3) /\ later cpu wall w2 w3) as (b & w3 & E3 & L3).
  { subst late. clear -ClockLaws0. destruct (emergency =? 0).
    { exists false, w2. split; [reflexivity|]. reflexivity. }
    destruct (wctime_runs (at_time a w2)) as (u & w3 & E3 & _ & _ & _ & _ & L3).
    eexists _, w3. erewrite bind_step by exact E3. done. }
  clearbody late. rewrite (bind_step _ _ _ _ _ E3). cbv beta. assert (L : later cpu wall (now a) w3) by (unfold later in *; intuition (lia || congruence)).
  clear E1 E2 E3. destruct b; [eexists _, w3; split; [reflexivity|exact L]|]. destruct (IH (signed 32 (tmp + loop_iters), c, p, e) v (v - t) (at_time a w3)) as (r & w4 & E4 & L4);
    rewrite ?now_at_time in *; [lia..|destruct L3; lia|lia|lia|].
  rewrite at_time_twice in E4. exists r, w4. split; [exact E4|]. by etransitivity.
Qed.

(** A job either finds the program over or does its work; when it goes on, the
    clock had not passed the end. *)
Lemma job_runs spin cfg jobNum fin a :
  0 < fin -> 0 <= loop_for_ns cfg -> loop_for_ns cfg < Z.of_nat spin ->
  fin + 1000 + 2 * lag + loop_for_ns cfg < HORIZON ->
  exists keep w, job spin cfg jobNum [] [] fin a = Ok (keep, at_time a w) /\ later cpu wall (now a) w /\
    (keep = true -> exists t, (1000 | t) /\ wall (now a) - 1000 < t <= fin).
Proof.
  intros Hf Hl Hspin Hh. unfold job. destruct (Z.eqb_spec fin 0) as [|_]; [lia|].
  destruct (wctime_runs a) as (t & w1 & E1 & Ht & Ht0 & V1 & U1 & L1).
  erewrite bind_step by (erewrite bind_step by exact E1; reflexivity). cbv beta.
  destruct (Z.ltb_spec fin t) as [Hover|Hgo]; [by exists false, w1|].
  erewrite bind_step by reflexivity. cbv beta. unfold loop_for.
  destruct (cputime_runs (at_time a w1)) as (v & w2 & E2 & V2 & U2 & L2). rewrite !now_at_time, at_time_twice in *.
  pose proof (cl_cpu w2). pose proof (cl_cpu w1). pose proof cl_lag.
  destruct (busy_runs spin jobNum v (loop_for_ns cfg) (wrap64 (fin + s2ns 1)) (0, 0, 0, 0) v 0 (at_time a w2))
    as (r & w3 & E3 & L3); rewrite ?now_at_time in *; [lia..|unfold HORIZON; lia|lia|].
  erewrite bind_step by (erewrite bind_step by exact E2; erewrite bind_step by reflexivity; exact E3). cbv beta.
  erewrite bind_step by reflexivity. rewrite at_time_twice. eexists _, w3. split; [done|]. split.
  - by etransitivity; [|etransitivity].
  - intros _. exists t. split; [done|lia].
Qed.

End Time.

(** ** Firing again and again *)

Section Fired.
Context {W : Type} `{Syscalls W} (fuel : nat) (g n : Z).
Implicit Types (s : pgm_state W) (gr : pgm_graph).

(** [gr'] is [gr] after node [n] has completed [k] times. *)
Record fired (k : Z) gr gr' : Prop := {
  fd_equiv : gr ≡ gr';
  fd_edge e : gedge gr' e =
    if decide (e ∈ out_list (gnode gr n))
    then (gedge gr e) <| nr_pending ::= fun j => j + k * nr_produce (e_attr (gedge gr e)) |>
    else gedge gr e;
  fd_node i : exists b, gnode gr' i = (gnode gr i) <| n_wait ::= fun j => j + b |>
}.

Lemma fired_zero gr : fired 0 gr gr.
Proof.
  split; [done| |].
  - intros e. case_decide; [|done]. destruct (gedge gr e). unfold set_field. simpl. f_equal. lia.
  - intros i. exists 0. by rewrite same_node.
Qed.

(** The node's edges carry tokens only, and there is room for [k] completions. *)
Record can_fire (k : Z) gr : Prop := {
  cf_use : in_use gr = true;
  cf_wf : graph_wf gr;
  cf_node : is_node gr n;
  cf_locks c : is_node gr c -> n_lock (gnode gr c) = false;
  cf_tokens e : e ∈ out_list (gnode gr n) -> tokens_only (gedge gr e);
  cf_pending e : e ∈ out_list (gnode gr n) -> 0 <= nr_pending (gedge gr e);
  cf_room e : e ∈ out_list (gnode gr n) ->
    nr_pending (gedge gr e) + k * nr_produce (e_attr (gedge gr e)) < 2 ^ 64
}.

Lemma fired_out k gr gr' : fired k gr gr' -> out_list (gnode gr' n) = out_list (gnode gr n).
Proof. intros [Heq _ _]. symmetry. apply (equiv_node gr gr' n Heq). Qed.

Lemma fired_is_node k gr gr' i : fired k gr gr' -> is_node gr' i <-> is_node gr i.
Proof. intros [Heq _ _]. unfold is_node. by destruct (equiv_sizes gr gr' Heq) as [<- _]. Qed.

Lemma tokens_only_pending e k : tokens_only (e <| nr_pending := k |>) <-> tokens_only e.
Proof. done. Qed.

(** What a node of a graph needs to fire or end is still there after firing. *)
Lemma fired_ready m k gr gr' :
  can_fire m gr -> fired k gr gr' ->
  in_use gr' = true /\ graph_wf gr' /\ is_node gr' n /\
  (forall c, is_node gr' c -> n_lock (gnode gr' c) = false) /\
  (forall e, e ∈ out_list (gnode gr' n) -> tokens_only (gedge gr' e)).
Proof.
  intros [Hu Hwf Hn Hl Ht _ _] Hf. pose proof Hf as [Heq He Hnd]. split_and!.
  - destruct Heq as (Ef & _). injection Ef. congruence.
  - by rewrite <- Heq.
  - by eapply fired_is_node.
  - intros c Hc%(fired_is_node k gr); [|done]. destruct (Hnd c) as [b ->]. by apply Hl.
  - intros e Hin. rewrite (fired_out k gr) in Hin by done. rewrite He, decide_True by done. by apply Ht.
Qed.

Lemma produce_pos m gr e : can_fire m gr -> e ∈ out_list (gnode gr n) -> 0 < nr_produce (e_attr (gedge gr e)).
Proof.
  intros [_ Hwf Hn _ _ _ _] He. destruct (nw_out_edges gr n (gw_node gr Hwf n Hn) e He) as (_ & _ & Hc & Hin).
  by destruct (gw_attr gr Hwf _ e Hc Hin).
Qed.

Lemma complete_fired m k s gr gr' :
  has_graph s g gr' -> can_fire m gr -> fired k gr gr' -> 0 <= k < m ->
  exists gr'', pgm_complete fuel (Node_t g n) s = Ok (0, put_graph g gr'' s) /\ fired (k + 1) gr gr''.
Proof.
  intros Hg Hcf Hf Hk. destruct (fired_ready m k gr gr' Hcf Hf) as (Hu & Hwf & Hn & Hl & Ht).
  destruct (complete_runs fuel s g gr' n) as (gr1 & gr2 & E & M1 & S2); [done..|].
  exists gr2. split; [done|]. pose proof (signalled_equiv _ _ _ S2) as Eq2.
  assert (Eq1 : gr' ≡ gr1) by (by eapply edges_mapped_equiv; [|exact M1]). split.
  - rewrite (fd_equiv _ _ _ Hf), Eq1. done.
  - intros e. rewrite (sg_rest _ _ _ S2). change (gedge (gr1 <| nodes := _ |>) e) with (gedge gr1 e).
    rewrite (em_edge _ _ _ _ M1), (fired_out k gr), (fd_edge _ _ _ Hf) by done. case_decide as He; [|done].
    pose proof (produce_pos m gr e Hcf He). pose proof (cf_pending _ _ Hcf e He). pose proof (cf_room _ _ Hcf e He).
    unfold add_tokens, set_field. simpl. f_equal. rewrite wrap64_id by nia. lia.
  - intros i. rewrite (sg_node _ _ _ S2), (edges_mapped_node _ _ _ _ _ M1). destruct (fd_node _ _ _ Hf i) as [b ->].
    eexists. unfold set_field. simpl. f_equal. rewrite <- Z.add_assoc. reflexivity.
Qed.

(** [gr'] is [gr] after [k] completions and the end. *)
Record finished (k : Z) gr gr' : Prop := {
  fi_equiv : gr ≡ gr';
  fi_edge e : gedge gr' e =
    if decide (e ∈ out_list (gnode gr n))
    then (gedge gr e) <| nr_pending ::= fun j => j + k * nr_produce (e_attr (gedge gr e)) |>
    else gedge gr e;
  fi_signals i : nr_terminate_signals (gnode gr' i) =
    nr_terminate_signals (gnode gr i) + occ (followers gr (out_list (gnode gr n))) i;
  fi_owner i : owner (gnode gr' i) = owner (gnode gr i)
}.

Lemma terminate_finished m k s gr gr' :
  has_graph s g gr' -> can_fire m gr -> fired k gr gr' ->
  exists gr'', pgm_terminate fuel (Node_t g n) s = Ok (0, put_graph g gr'' s) /\ finished k gr gr''.
Proof.
  intros Hg Hcf Hf. destruct (fired_ready m k gr gr' Hcf Hf) as (Hu & Hwf & Hn & Hl & Ht).
  destruct (terminate_runs fuel s g gr' n) as (gr1 & gr2 & E & M1 & M2); [done..|].
  exists gr2. split; [done|]. rewrite (fired_out k gr) in * by done. split.
  - rewrite (fd_equiv _ _ _ Hf), (nodes_mapped_equiv tell _ _ _ M1). by apply (nodes_mapped_equiv ring_up _ _ _ M2).
  - intros e. rewrite (nodes_mapped_edge _ _ _ _ _ M2), (nodes_mapped_edge _ _ _ _ _ M1). apply Hf.
  - intros i. rewrite (nm_node _ _ _ _ M2), (nm_node _ _ _ _ M1). destruct (fd_node _ _ _ Hf i) as [b ->].
    rewrite (followers_equiv gr gr') by apply Hf. done.
  - intros i. rewrite (nm_node _ _ _ _ M2), (nm_node _ _ _ _ M1). by destruct (fd_node _ _ _ Hf i) as [b ->].
Qed.

End Fired.

(** ** The loop of a source *)

Definition with_lib {W} (a : app W) (s : pgm_state W) : app W := a <| drv := (drv a) <| lib := s |> |>.

Lemma lib_call_runs {W A} (m : ST (pgm_state W) A) (a : app W) x s :
  m (lib (drv a)) = Ok (x, s) -> lib_call m a = Ok (x, with_lib a s).
Proof. intros E. unfold lib_call. by rewrite E. Qed.

Lemma has_graph_time {W} (a : app W) w g gr :
  has_graph (lib (drv a)) g gr -> has_graph (lib (drv (at_time a w))) g gr.
Proof. done. Qed.

Lemma check_zero {W} (a : app W) : check_error 0 a = Ok (tt, a).
Proof. done. Qed.

(** Multiples of a microsecond that are less than one apart. *)
Lemma grid x y : (1000 | x) -> (1000 | y) -> x - 1000 < y -> x <= y.
Proof. intros [a ->] [b ->]. lia. Qed.

Section Loop.
Context {W : Type} `{Syscalls W} `{Clock W} (cpu wall : W -> Z) (lag : Z) `{!ClockLaws W cpu wall lag}.
Context (rounds fuel spin : nat) (cfg : rt_config) (g n : Z) (gr : pgm_graph) (t0 : Z).

(** The period in whole microseconds, and how many jobs fit. *)
Definition grid_period : Z := 1000 * (period_ns cfg / 1000).
Definition max_jobs : Z := duration_ns cfg / grid_period + 1.

Hypothesis Hnode : c_node cfg = Node_t g n.
Hypothesis Hperiod : 1000 <= period_ns cfg < 2 ^ 63.
Hypothesis Hduration : 0 < duration_ns cfg.
Hypothesis Hloop : 0 <= loop_for_ns cfg < Z.of_nat spin.
Hypothesis Ht0 : 0 <= t0 /\ (1000 | t0).
Hypothesis Hhorizon : t0 + duration_ns cfg + 1000 + 2 * lag + loop_for_ns cfg + 2 * period_ns cfg < HORIZON.
Hypothesis Hcf : can_fire n max_jobs gr.

Lemma grid_period_range : 1000 <= grid_period <= period_ns cfg.
Proof using Hperiod.
  clear - Hperiod. unfold grid_period. pose proof (Z.div_mod (period_ns cfg) 1000 ltac:(lia)).
  pose proof (Z.mod_pos_bound (period_ns cfg) 1000 ltac:(lia)). lia.
Qed.

Lemma release_grid k : (1000 | t0 + k * grid_period).
Proof.
  apply Z.divide_add_r; [apply Ht0|]. apply Z.divide_mul_r. unfold grid_period. by exists (period_ns cfg / 1000); lia.
Qed.

(** A job that is started in time is one of the first [max_jobs]. *)
Lemma in_time k : 0 <= k -> t0 + k * grid_period <= t0 + duration_ns cfg -> k < max_jobs.
Proof.
  intros Hk Hle. unfold max_jobs. pose proof grid_period_range.
  enough (k <= duration_ns cfg / grid_period) by lia. apply Z.div_le_lower_bound; lia.
Qed.

(** After the sleep the next release is due. *)
Lemma pause_runs a r t w :
  0 <= r <= t0 + duration_ns cfg -> r <= t <= wall w ->
  exists w', (if true && (wrap64 (t - r) <? period_ns cfg) then sleep_ns (period_ns cfg - wrap64 (t - r)) else mret tt)
      (at_time a w) = Ok (tt, at_time a w') /\ later cpu wall w w' /\ r + grid_period <= wall w'.
Proof.
  intros Hr Ht. pose proof (cl_wall w). pose proof grid_period_range. unfold HORIZON in *.
  rewrite wrap64_id by lia. simpl. destruct (Z.ltb_spec (t - r) (period_ns cfg)) as [Hlt|Hge].
  - destruct (sleep_runs cpu wall lag (at_time a w) (period_ns cfg - (t - r))) as (w' & E & L & _ & Hs); [lia|].
    exists w'. rewrite now_at_time, at_time_twice in *. split; [exact E|]. split; [done|].
    destruct (decide (wall w + (period_ns cfg - (t - r)) < 2 ^ 63)) as [Hd|Hd]; [specialize (Hs Hd); lia|].
    destruct L as (_ & L & _). pose proof (cl_lag (W := W)). lia.
  - exists w. split; [done|]. split; [done|lia].
Qed.

Definition ends (k : Z) (a : app W) (r : outcome (unit * app W)) : Prop :=
  exists a' j gr', r = Ok (tt, a') /\ k <= j <= max_jobs /\ finished n j gr gr' /\
    has_graph (lib (drv a')) g gr' /\ errors (drv a') = errors (drv a) /\ later cpu wall (now a) (now a').

Lemma ends_weaken k k' a a' r :
  k <= k' -> errors (drv a') = errors (drv a) -> later cpu wall (now a) (now a') -> ends k' a' r -> ends k a r.
Proof.
  intros Hk He Hl (b & j & gr' & -> & Hj & Hf & Hg & Hb & Hl').
  exists b, j, gr'. split_and!; try done; [lia|lia|congruence|by etransitivity].
Qed.

Lemma work_loop_ends m k a gr' count :
  has_graph (lib (drv a)) g gr' -> fired n k gr gr' -> 0 <= k <= max_jobs ->
  t0 + k * grid_period <= wall (now a) -> max_jobs - k < Z.of_nat m ->
  ends k a (work_loop rounds fuel spin m cfg true [] [] (t0 + duration_ns cfg) count 0 a).
Proof.
  revert k a gr' count. induction m as [|m IH]; intros k a gr' count Hg Hf Hk Hdue Hm; [lia|]. cbn [work_loop].
  pose proof grid_period_range as Hgp. pose proof (cl_lag (W := W)) as Hlag.
  erewrite bind_step by reflexivity. cbv beta.
  destruct (wctime_runs cpu wall lag a) as (r & w1 & E1 & Dr & R0 & V1 & _ & L1).
  erewrite bind_step by exact E1. cbv beta. clear E1. change (0 =? PGM_TERMINATE) with false. cbv iota.
  erewrite bind_step by apply check_zero. cbv beta.
  assert (Hr : t0 + k * grid_period <= r) by (apply grid; [apply release_grid|done|lia]).
  destruct (job_runs cpu wall lag spin cfg count (t0 + duration_ns cfg) (at_time a w1)) as (keep & w2 & E2 & L2 & Hkeep); [lia..|].
  erewrite bind_step by exact E2. cbv beta. clear E2. rewrite now_at_time, at_time_twice in *. rewrite Hnode.
  destruct keep; simpl.
  - destruct Hkeep as (t & Dt & Ht); [done|].
    assert (Hrt : r <= t) by (apply grid; [done..|lia]).
    assert (Hkm : k < max_jobs) by (apply in_time; lia).
    destruct (complete_fired fuel g n max_jobs k (lib (drv (at_time a w2))) gr gr') as (gr'' & E3 & Hf'); [done..|lia|].
    erewrite bind_step by (apply lib_call_runs; exact E3). cbv beta. erewrite bind_step by apply check_zero. cbv beta.
    set (a1 := with_lib (at_time a w2) _).
    assert (Ha1 : now a1 = w2) by done.
    destruct (wctime_runs cpu wall lag a1) as (t2 & w3 & E4 & Dt2 & _ & V4 & _ & L4).
    erewrite bind_step by exact E4. cbv beta zeta. clear E4. rewrite Ha1 in *.
    assert (Hr2 : r <= t2) by (apply grid; [done..|]; destruct L2 as (_ & L2 & _); lia).
    destruct (pause_runs a1 r t2 w3) as (w4 & E5 & L5 & Hnext); [lia..|].
    erewrite bind_step by exact E5. cbv beta. clear E5.
    apply (ends_weaken k (k + 1) a (at_time a1 w4)); [lia|done| |].
    { rewrite now_at_time. etransitivity; [exact L1|]. etransitivity; [exact L2|]. by etransitivity. }
    apply (IH _ _ gr''); [|done|lia| |lia].
    + apply has_graph_time. by eapply has_graph_put.
    + rewrite now_at_time. lia.
  - destruct (terminate_finished fuel g n max_jobs k (lib (drv (at_time a w2))) gr gr') as (gr'' & E3 & Hf'); [done..|].
    erewrite bind_step by (apply lib_call_runs; exact E3). cbv beta. rewrite check_zero.
    eexists _, k, gr''. split; [reflexivity|]. split_and!; [lia|lia|done| |done|].
    + by eapply has_graph_put.
    + by etransitivity.
Qed.

End Loop.

(** ** From the claim to the release *)

Section Thread.
Context {W : Type} `{Syscalls W} `{Clock W} (cpu wall : W -> Z) (lag : Z) `{!ClockLaws W cpu wall lag}.
Context (retries rounds fuel spin jobs : nat) (cfg : rt_config) (g n : Z).
Implicit Types (a : app W) (s : pgm_state W) (gr : pgm_graph).

(** A free node without inbound forward edges, whose edges are condition-variable
    edges. *)
Record idle_source gr : Prop := {
  is_use : in_use gr = true;
  is_lock : g_lock gr = false;
  is_wf : graph_wf gr;
  is_is_node : is_node gr n;
  is_cv : cv_node gr n;
  is_free : owner (gnode gr n) = UNCLAIMED_NODE;
  is_entry : in_degree gr n = 0
}.

Lemma degree_in_runs s gr :
  has_graph s g gr -> idle_source gr -> pgm_get_degree_in (Node_t g n) true s = Ok (0, s).
Proof.
  intros Hg [Hu Hl Hwf Hn _ _ Hd]. unfold pgm_get_degree_in. simpl. st_step. rewrite Hu. simpl.
  apply (locked_reads s g gr); [done..|]. intros s1 Hs1. pose proof (gw_nodes gr Hwf).
  unfold is_node in Hn. st_step. simpl. pose proof (graph_wf_lock gr true Hwf) as Hwf1.
  pose proof (count_forward_runs s1 g (gr <| g_lock := true |>) n Hs1 Hwf1 Hn) as E.
  etransitivity; [exact E|]. do 2 f_equal. exact Hd.
Qed.

Lemma degree_out_runs s gr :
  has_graph s g gr -> idle_source gr -> exists d, pgm_get_degree_out (Node_t g n) true s = Ok (d, s).
Proof.
  intros Hg [Hu Hl Hwf Hn _ _ Hd]. pose proof (gw_nodes gr Hwf). pose proof (nw_out _ _ (gw_node gr Hwf n Hn)).
  pose proof (graph_wf_lock gr true Hwf) as Hwf1.
  set (nd := gnode gr n) in *. eexists. unfold pgm_get_degree_out. simpl. st_step. rewrite Hu. simpl.
  apply (locked_reads s g gr); [done..|]. intros s1 Hs1.
  unfold is_node in Hn. st_step. simpl. fold (gnode gr n). fold nd. unfold count_forward.
  apply (for_acc_pure _ _ (fun j k => if negb (is_backedge (gedge gr (cell (n_out nd) j))) then k + 1 else k)).
  intros j k Hj%elem_of_upto. erewrite bind_step by (unfold lift; by rewrite aget_ok by lia). cbv beta.
  assert (0 <= cell (n_out nd) j < PGM_MAX_EDGES) by (by apply (listed_range gr n j Hwf Hn)).
  by st_step.
Qed.

(** No room for a single edge: an error unless the node has none. *)
Lemma edges_out_runs s gr :
  has_graph s g gr -> in_use gr = true -> g_lock gr = false -> graph_wf gr -> is_node gr n ->
  pgm_get_edges_out (Node_t g n) true 0 true s = Ok (if nr_out (gnode gr n) =? 0 then 0 else -1, [], s).
Proof.
  intros Hg Hu Hl Hwf Hn. pose proof (gw_nodes gr Hwf). pose proof (nw_out _ _ (gw_node gr Hwf n Hn)).
  unfold pgm_get_edges_out. simpl. st_step. rewrite Hu. simpl.
  apply (locked_reads s g gr); [done..|]. intros s1 Hs1. unfold is_node in Hn. st_step. simpl. fold (gnode gr n).
  destruct (Z.ltb_spec 0 (nr_out (gnode gr n))), (Z.eqb_spec (nr_out (gnode gr n)) 0); try lia; [done|].
  unfold collect. by rewrite e.
Qed.

(** The errors a thread counts for asking without room for an answer. *)
Definition asking gr : Z := 1 + (if nr_out (gnode gr n) =? 0 then 0 else 1).

Lemma prepare_runs a gr :
  c_node cfg = Node_t g n -> has_graph (lib (drv a)) g gr -> idle_source gr ->
  exists a', work_prepare retries cfg a = Ok ((true, [], []), a') /\
    has_graph (lib (drv a')) g (set_owner n (sys_gettid (now a)) gr) /\
    errors (drv a') = errors (drv a) + asking gr /\ now a' = now a.
Proof.
  intros Hc Hg Hi. pose proof Hi as [Hu Hl Hwf Hn Hcv Ho Hd]. unfold work_prepare. rewrite Hc.
  erewrite bind_step by (apply lib_call_runs; by eapply degree_in_runs). cbv beta.
  destruct (degree_out_runs (lib (drv a)) gr Hg Hi) as [d Ed].
  erewrite bind_step by (apply lib_call_runs; exact Ed). cbv beta zeta.
  set (gr1 := set_owner n (sys_gettid (now a)) gr). set (s1 := put_graph g gr1 (lib (drv a))).
  assert (Hg1 : has_graph s1 g gr1) by (by eapply has_graph_put).
  assert (Hwf1 : graph_wf gr1) by (by apply set_owner_wf).
  assert (Hcv1 : cv_node gr1 n).
  { intros e He. apply Hcv. destruct (equiv_node gr gr1 n (set_owner_equiv _ _ _)) as (-> & -> & _). done. }
  assert (Ec : pgm_claim_node retries (Node_t g n) 0 (lib (drv a)) = Ok (0, s1)).
  { rewrite (claim_free retries _ g gr) by done. by apply (claim_cv retries s1 g gr1). }
  erewrite bind_step by (apply lib_call_runs; exact Ec). cbv beta. erewrite bind_step by apply check_zero. cbv beta.
  erewrite bind_step by (apply lib_call_runs; reflexivity). cbv beta iota. erewrite bind_step by reflexivity. cbv beta.
  erewrite bind_step by reflexivity. cbv beta.
  erewrite bind_step by (apply lib_call_runs; by apply (edges_out_runs s1 gr1)). cbv beta iota.
  erewrite bind_step by reflexivity. cbv beta. erewrite bind_step by reflexivity. cbv beta.
  eexists. split; [reflexivity|].
  assert (Enr : nr_out (gnode gr1 n) = nr_out (gnode gr n)).
  { destruct (equiv_node gr gr1 n (set_owner_equiv _ _ _)) as (_ & _ & E). injection E. congruence. }
  rewrite Enr. unfold asking. destruct (nr_out (gnode gr n) =? 0); simpl; (split; [done|]); (split; [lia|done]).
Qed.

(** The configuration makes sense, and the run is over before the horizon. *)
Record scheduled a : Prop := {
  sc_period : 1000 <= period_ns cfg < 2 ^ 63;
  sc_duration : 0 < duration_ns cfg;
  sc_phase : 0 <= phase_ns cfg < 2 ^ 63;
  sc_times : 0 <= discount_ns cfg /\ 0 <= execution_ns cfg < Z.of_nat spin;
  sc_horizon : wall (now a) + phase_ns cfg + duration_ns cfg + execution_ns cfg + 2 * period_ns cfg + 1000 + 4 * lag < HORIZON;
  sc_jobs : max_jobs cfg < Z.of_nat jobs
}.

Lemma set_owner_can_fire m t gr : can_fire n m gr -> can_fire n m (set_owner n t gr).
Proof.
  intros [Hu Hwf Hn Hl Ht Hp Hr]. pose proof (set_owner_equiv n t gr) as Heq.
  destruct (equiv_node gr (set_owner n t gr) n Heq) as (_ & Eo & _).
  split; rewrite <- ?Eo; try done; [by apply set_owner_wf|].
  intros c Hc. unfold gnode, set_owner, at_node. simpl. rewrite cell_insert. case_decide; subst; by apply Hl.
Qed.

Lemma until_barrier_runs a gr :
  c_node cfg = Node_t g n -> has_graph (lib (drv a)) g gr -> idle_source gr -> can_fire n (max_jobs cfg) gr ->
  scheduled a ->
  let gr1 := set_owner n (sys_gettid (now a)) gr in
  exists a' k gr', work_until_barrier retries rounds fuel spin jobs cfg a = Ok (tt, a') /\
    0 <= k <= max_jobs cfg /\ finished n k gr1 gr' /\ has_graph (lib (drv a')) g gr' /\
    errors (drv a') = errors (drv a) + asking gr /\ sys_gettid (now a') = sys_gettid (now a).
Proof.
  intros Hc Hg Hi Hcf [Hp Hd Hph Ht Hh Hj] gr1. pose proof (cl_lag (W := W)) as Hlag.
  destruct (prepare_runs a gr Hc Hg Hi) as (a1 & E1 & Hg1 & Herr & Hnow).
  unfold work_until_barrier. erewrite bind_step by exact E1. cbv beta iota zeta. clear E1.
  destruct (sleep_runs cpu wall lag a1 (phase_ns cfg)) as (w1 & E2 & L2 & U2 & _); [lia|].
  erewrite bind_step by exact E2. cbv beta. clear E2.
  destruct (wctime_runs cpu wall lag (at_time a1 w1)) as (t0 & w2 & E3 & D3 & Z3 & V3 & U3 & L3).
  rewrite now_at_time, at_time_twice in *. rewrite Hnow in *.
  erewrite bind_step by (erewrite bind_step by exact E3; reflexivity). cbv beta. clear E3.
  change (duration_ns (with_loop_time cfg)) with (duration_ns cfg). unfold HORIZON in *. rewrite wrap64_id by lia.
  assert (Hlt : 0 <= loop_for_ns (with_loop_time cfg) <= execution_ns cfg).
  { unfold with_loop_time. simpl. destruct (Z.ltb_spec (execution_ns cfg) (discount_ns cfg)); lia. }
  destruct (work_loop_ends cpu wall lag rounds fuel spin (with_loop_time cfg) g n gr1 t0 Hc Hp Hd) with
    (m := jobs) (k := 0) (a := at_time a1 w2) (gr' := gr1) (count := 0)
    as (a' & k & gr' & E4 & Hk & Hf & Hg' & He' & L4); try done.
  - lia.
  - unfold HORIZON. change (duration_ns (with_loop_time cfg)) with (duration_ns cfg).
    change (period_ns (with_loop_time cfg)) with (period_ns cfg). lia.
  - by apply set_owner_can_fire.
  - apply fired_zero.
  - change (max_jobs (with_loop_time cfg)) with (max_jobs cfg). unfold max_jobs.
    pose proof (grid_period_range cfg Hp). pose proof (Z.div_pos (duration_ns cfg) (grid_period cfg)). lia.
  - rewrite now_at_time. lia.
  - change (max_jobs (with_loop_time cfg)) with (max_jobs cfg). lia.
  - exists a', k, gr'. split; [exact E4|]. split; [exact Hk|]. split; [exact Hf|]. split; [exact Hg'|]. split.
    + rewrite He'. exact Herr.
    + destruct L4 as (_ & _ & ->), L3 as (_ & _ & L3), L2 as (_ & _ & L2). rewrite now_at_time. congruence.
Qed.

(** The thread of a source, in a graph of condition-variable edges, with idealised
    clocks, a period of at least a microsecond, time left, and the barrier at its end
    open, comes to its end: it claims the
    node, fires at most [duration / period + 1] times (the period in whole
    microseconds), each time putting its tokens on every outbound edge, announces
    the end once per forward edge, and releases the node.  It counts one error,
    or two if the node has outbound edges, because it asks for the node's edges
    without room for the answer. *)
Theorem source_thread_ends a gr :
  c_node cfg = Node_t g n -> has_graph (lib (drv a)) g gr -> idle_source gr -> can_fire n (max_jobs cfg) gr ->
  scheduled a -> sys_gettid (now a) <> UNCLAIMED_NODE ->
  exists a' k gr', work_thread retries rounds fuel spin jobs (mret tt) cfg a = Ok (tt, a') /\
    0 <= k <= max_jobs cfg /\ finished n k gr gr' /\ has_graph (lib (drv a')) g gr' /\
    errors (drv a') = errors (drv a) + asking gr.
Proof.
  intros Hc Hg Hi Hcf Hs Hid. set (gr1 := set_owner n (sys_gettid (now a)) gr).
  destruct (until_barrier_runs a gr) as (a1 & k & gr2 & E1 & Hk & Hf & Hg2 & He & Htid); [done..|]. fold gr1 in Hf.
  unfold work_thread. erewrite bind_step by exact E1. cbv beta. erewrite bind_step by reflexivity. cbv beta.
  pose proof Hi as [Hu Hl Hwf Hn Hcv Ho Hd]. pose proof (set_owner_equiv n (sys_gettid (now a)) gr) as Heq1. fold gr1 in Heq1.
  pose proof (fi_equiv _ _ _ _ Hf) as Heq2. assert (Heq : gr ≡ gr2) by (by etransitivity).
  assert (Hown : owner (gnode gr2 n) = sys_gettid (now a)).
  { rewrite (fi_owner _ _ _ _ Hf). unfold gr1. rewrite owner_set_owner. by case_decide. }
  pose proof Heq as (Ef & _). injection Ef as Eu _ El _ _.
  assert (Er : pgm_release_node (Node_t g n) 0 (lib (drv a1)) =
    Ok (0, put_graph g (set_owner n UNCLAIMED_NODE gr2) (lib (drv a1)))).
  { apply (release_cv _ g gr2 n 0 (sys_gettid (now a))); try congruence.
    - by rewrite <- Heq.
    - unfold is_node. by destruct (equiv_sizes gr gr2 Heq) as [<- _].
    - intros e He'. destruct (equiv_node gr gr2 n Heq) as (Ei & Eo & _). rewrite <- Ei, <- Eo in He'.
      pose proof (equiv_edge gr gr2 e Heq) as Ee. injection Ee. intros. specialize (Hcv e He'). congruence.
    - rewrite Hown. unfold tid_of. simpl. done.
    - unfold tid_of. simpl. done. }
  erewrite bind_step by (rewrite Hc; apply lib_call_runs; exact Er). cbv beta. rewrite check_zero.
  eexists _, k, _. split; [reflexivity|]. split_and!; [lia|lia| |by eapply has_graph_put|done].
  destruct Hf as [_ Fe Fs Fo]. destruct (equiv_node gr gr1 n Heq1) as (_ & Eo1 & _). rewrite <- Eo1 in *. split.
  - rewrite Heq. apply set_owner_equiv.
  - exact Fe.
  - intros i. rewrite (followers_equiv gr gr1) in Fs by done.
    transitivity (nr_terminate_signals (gnode gr2 i)); [|rewrite Fs; f_equal];
      unfold gr1, set_owner, at_node, gnode; simpl; rewrite cell_insert; by case_decide; subst.
  - intros i. rewrite owner_set_owner. case_decide as E; [by subst|]. rewrite Fo. unfold gr1. rewrite owner_set_owner. by rewrite decide_False.
Qed.

End Thread.

(** ** A run *)

(** A world that is its own clock and stops at the horizon. *)
Definition clip (w : Z) : Z := Z.max 0 (Z.min w (HORIZON - 1)).

#[local] Instance demo_clock : Clock Z := {|
  sys_cputime w := ((clip w / 1000000000, clip w mod 1000000000), w);
  sys_gettimeofday w := ((clip w / 1000000000, clip w mod 1000000000 / 1000), w);
  sys_nanosleep s ns w := clip w + (s2ns s + ns);
  sys_relax w := clip w + 1
|}.

Lemma clip_range w : 0 <= clip w < HORIZON.
Proof. unfold clip, HORIZON. lia. Qed.

Lemma clip_add w d : 0 <= d ->
  clip w <= clip (clip w + d) <= clip w + d /\ (clip w + d < HORIZON -> clip w + d <= clip (clip w + d)).
Proof. unfold clip, HORIZON. lia. Qed.

Lemma clip_twice w : clip (clip w) = clip w.
Proof. unfold clip. lia. Qed.

Lemma relax_iter k w : clip w + 1 < HORIZON -> clip w + 1 <= clip (Nat.iter (S k) sys_relax w).
Proof.
  intros Hw. induction k as [|k IH]; [|apply (Z.le_trans _ _ _ IH)]; simpl; apply clip_add; lia.
Qed.

#[local] Instance demo_clock_laws : ClockLaws Z clip clip 0.
Proof.
  split.
  - intros w. pose proof (clip_range w). lia.
  - apply clip_range.
  - done.
  - intros w s ns w' [= <- <- <-]. pose proof (clip_range w). unfold s2ns.
    pose proof (Z.div_mod (clip w) 1000000000 ltac:(lia)). pose proof (Z.mod_pos_bound (clip w) 1000000000 ltac:(lia)).
    pose proof (Z.div_pos (clip w) 1000000000). split_and!; try lia. done.
  - intros w s us w' [= <- <- <-]. pose proof (clip_range w). unfold s2ns, us2ns.
    pose proof (Z.div_mod (clip w) 1000000000 ltac:(lia)). pose proof (Z.mod_pos_bound (clip w) 1000000000 ltac:(lia)).
    pose proof (Z.div_pos (clip w) 1000000000). set (r := clip w mod 1000000000) in *.
    pose proof (Z.div_mod r 1000 ltac:(lia)). pose proof (Z.mod_pos_bound r 1000 ltac:(lia)).
    split_and!; try lia. done.
  - intros w s ns Hs Hn. simpl. assert (Hd : 0 <= s2ns s + ns) by (unfold s2ns; lia).
    destruct (clip_add w _ Hd). unfold later. split_and!; try lia. done.
  - intros w. simpl. destruct (clip_add w 1 ltac:(lia)). unfold later. split_and!; try lia. done.
  - intros w Hw. replace (Z.to_nat loop_iters) with (S (Nat.pred (Z.to_nat loop_iters))) by (unfold loop_iters; lia).
    by apply relax_iter.
Qed.

(** The source of a chain of two nodes, a job every millisecond for two. *)
Definition demo_cfg : rt_config :=
  Config false 0 false 0 1000000 0 0 0 1 0 2000000 (Node_t 0 0).
Definition demo_app : app Z := App (Driver (demo_state demo_chain) 0) [] ∅.

Lemma demo_chain_source :
  out_list (gnode demo_chain 0) = [0] /\ in_list (gnode demo_chain 0) = [] /\
  owner (gnode demo_chain 0) = UNCLAIMED_NODE /\ nr_nodes demo_chain = 2.
Proof. vm_compute. done. Qed.

Lemma demo_idle : idle_source 0 demo_chain.
Proof.
  destruct demo_chain_source as (Eo & Ei & Ew & En). split; [done|done|apply demo_chain_wf|done| |exact Ew|].
  - intros e. rewrite Ei, Eo. intros [[]%elem_of_nil | ->%list_elem_of_singleton]. vm_compute. reflexivity.
  - unfold in_degree. by rewrite Ei.
Qed.

Lemma demo_can_fire : can_fire 0 (max_jobs demo_cfg) demo_chain.
Proof.
  destruct demo_chain_source as (Eo & Ei & Ew & En).
  split; [done|apply demo_chain_wf|done|..]; rewrite ?Eo.
  - unfold is_node. rewrite En. intros c Hc. assert (c = 0 \/ c = 1) as [-> | ->] by lia; reflexivity.
  - intros e ->%list_elem_of_singleton. by vm_compute.
  - intros e ->%list_elem_of_singleton. by vm_compute.
  - intros e ->%list_elem_of_singleton. by vm_compute.
Qed.

Lemma source_thread_ends_witness :
  exists a' k gr', work_thread 0 0 0 1 4 (mret tt) demo_cfg demo_app = Ok (tt, a') /\
    0 <= k <= 3 /\ finished 0 k demo_chain gr' /\ errors (drv a') = 2.
Proof.
  destruct (source_thread_ends clip clip 0 0 0 0 1 4 demo_cfg 0 0 demo_app demo_chain) as (a' & k & gr' & E & Hk & Hf & _ & He).
  - reflexivity.
  - apply demo_chain_state.
  - apply demo_idle.
  - apply demo_can_fire.
  - split; vm_compute; repeat (split || discriminate || reflexivity).
  - vm_compute. discriminate.
  - exists a', k, gr'. split; [exact E|]. split; [exact Hk|]. split; [exact Hf|]. rewrite He. reflexivity.
Defined.

End Periodic.
