(* ===== verification/Tests.v ===== *)
(** * Programs of the repository, run (ancestortest, dottest and depthtest of tools/)

    The programs that use the library from one thread, translated and run: each
    counts what goes wrong in [errors].  They exercise the construction of
    graphs, the queries and the tear-down together, from the start of the
    process. *)

From S2P Require Import Prelude Ring Types Sys Structure Memory Ipc GraphInit GraphWf Query Startup Print Driver Search Lookup Double Depth Describe.
From Stdlib Require Import Ascii String.

Module Tests.
Import Double Types Sys Structure GraphInit Query Depth Startup Print Driver Describe.
#[local] Open Scope Z_scope.

Section Code.
Context {W : Type} `{Syscalls W}.
(** What uninitialised handles hold. *)
Context (junk_node : node_t) (junk_edge : edge_t) (junk_graph : Z).

(** [CheckReturn(statement, expected)] *)
Definition CheckReturn (ret expected : Z) : DM W unit := fun d =>
  Ok (inr tt, if ret =? expected then d else d <| errors ::= fun k => k + 1 |>).

(** [CheckError(pgm_init_node(&n, g, ...))] and the handle it leaves in [n] *)
Definition new_node (m : ST (pgm_state W) (Z * option node_t)) : DM W node_t :=
  '(ret, n) ← call m; CheckError ret ;; mret (default junk_node n).

Definition new_edge (m : ST (pgm_state W) (Z * option edge_t)) : DM W edge_t :=
  '(ret, e) ← call m; CheckError ret ;; mret (default junk_edge e).

(** ** ancestortest *)

Definition check_ancestor (n q : node_t) (expected : Z) : DM W unit :=
  ret ← call (pgm_is_ancestor n q); CheckReturn ret expected.
Definition check_descendant (n q : node_t) (expected : Z) : DM W unit :=
  ret ← call (pgm_is_descendant n q); CheckReturn ret expected.

Definition ancestortest : DM W Z :=
  _ ← call pgm_init_process_local;
  '(_, g) ← call (pgm_init_graph junk_graph (lit "predtest"));
  n0 ← new_node (pgm_init_node_num (Some junk_node) g 0);
  n1 ← new_node (pgm_init_node_num (Some junk_node) g 1);
  n2 ← new_node (pgm_init_node_num (Some junk_node) g 2);
  n3 ← new_node (pgm_init_node_num (Some junk_node) g 3);
  n4 ← new_node (pgm_init_node_num (Some junk_node) g 4);
  n5 ← new_node (pgm_init_node_num (Some junk_node) g 5);
  _ ← new_edge (pgm_init_edge (Some junk_edge) n0 n1 (lit "e0_1") default_edge);
  _ ← new_edge (pgm_init_edge (Some junk_edge) n0 n3 (lit "e0_3") default_edge);
  _ ← new_edge (pgm_init_edge (Some junk_edge) n1 n2 (lit "e1_2") default_edge);
  _ ← new_edge (pgm_init_edge (Some junk_edge) n3 n4 (lit "e3_4") default_edge);
  _ ← new_edge (pgm_init_edge (Some junk_edge) n2 n5 (lit "e2_5") default_edge);
  _ ← new_edge (pgm_init_edge (Some junk_edge) n4 n5 (lit "e4_5") default_edge);
  _ ← new_edge (pgm_init_backedge (Some junk_edge) 1 n5 n0 (lit "be5_0") default_edge);
  check_ancestor n0 n0 0 ;;
  check_ancestor n1 n0 1 ;;
  check_ancestor n2 n0 1 ;;
  check_ancestor n3 n0 1 ;;
  check_ancestor n4 n0 1 ;;
  check_ancestor n5 n0 1 ;;
  check_descendant n0 n5 1 ;;
  check_descendant n1 n5 1 ;;
  check_descendant n2 n5 1 ;;
  check_descendant n3 n5 1 ;;
  check_descendant n4 n5 1 ;;
  check_ancestor n2 n3 0 ;;
  check_ancestor n3 n2 0 ;;
  check_descendant n2 n3 0 ;;
  check_descendant n3 n2 0 ;;
  check_ancestor n1 n4 0 ;;
  check_ancestor n4 n1 0 ;;
  check_descendant n1 n4 0 ;;
  check_descendant n4 n1 0 ;;
  mret 0.

(** ** dottest *)

(** The attributes the program sets up; [mq_maxmsg] shares its word with the
    other unions' members. *)
Definition cv_attr : edge_attr_t := Attr 1 5 6 pgm_cv_edge 0 0 0.
Definition be_cv_attr : edge_attr_t := Attr 1 1 1 pgm_cv_edge 0 0 0.
Definition fast_fifo_attr : edge_attr_t := Attr 1 1 1 pgm_fast_fifo_edge 0 0 0.
Definition fast_mq_attr : edge_attr_t := Attr 1 1 1 pgm_fast_mq_edge 10 0 0.
Definition fifo_attr : edge_attr_t := Attr 1 1 1 pgm_fifo_edge 0 0 0.
Definition mq_attr : edge_attr_t := Attr 1 1 1 pgm_mq_edge 10 0 0.

(** The text that is printed comes back with the result of [main]. *)
Definition dottest `{Filesystem W} (fuel : nat) : DM W (list ascii) :=
  ret ← call (pgm_init fuel "/tmp/graphs" true false); CheckError ret ;;
  '(ret, g) ← call (pgm_init_graph junk_graph (lit "dotDemo")); CheckError ret ;;
  n0 ← new_node (pgm_init_node (Some junk_node) g (lit "n0"));
  n1 ← new_node (pgm_init_node (Some junk_node) g (lit "n1"));
  n2 ← new_node (pgm_init_node (Some junk_node) g (lit "n2"));
  n3 ← new_node (pgm_init_node (Some junk_node) g (lit "n3"));
  n4 ← new_node (pgm_init_node (Some junk_node) g (lit "n4"));
  n5 ← new_node (pgm_init_node (Some junk_node) g (lit "n5"));
  n6 ← new_node (pgm_init_node (Some junk_node) g (lit "n6"));
  _ ← new_edge (pgm_init_edge (Some junk_edge) n0 n1 (lit "e0_1") cv_attr);
  _ ← new_edge (pgm_init_edge (Some junk_edge) n0 n2 (lit "e0_2") fifo_attr);
  _ ← new_edge (pgm_init_edge (Some junk_edge) n0 n3 (lit "e0_3") fast_mq_attr);
  _ ← new_edge (pgm_init_edge (Some junk_edge) n0 n4 (lit "e0_4") mq_attr);
  _ ← new_edge (pgm_init_edge (Some junk_edge) n0 n5 (lit "e0_5") fast_fifo_attr);
  _ ← new_edge (pgm_init_edge (Some junk_edge) n1 n6 (lit "e1_6") fast_mq_attr);
  _ ← new_edge (pgm_init_edge (Some junk_edge) n2 n6 (lit "e2_6") fifo_attr);
  _ ← new_edge (pgm_init_edge (Some junk_edge) n3 n6 (lit "e3_6") cv_attr);
  _ ← new_edge (pgm_init_edge (Some junk_edge) n4 n6 (lit "e4_6") mq_attr);
  _ ← new_edge (pgm_init_edge (Some junk_edge) n5 n6 (lit "e5_6") fast_fifo_attr);
  _ ← new_edge (pgm_init_backedge (Some junk_edge) 1 n6 n0 (lit "be6_0") be_cv_attr);
  '(ret, text) ← call (pgm_print_graph g); CheckError ret ;;
  ret ← call (pgm_destroy_graph g); CheckError ret ;;
  ret ← call pgm_destroy; CheckError ret ;;
  mret text.

(** ** depthtest *)

(** [weights[e]], a map ordered by the edge's index; what is missing reads as
    zero (and stays in the map as such). *)
Definition weight (weights : gmap Z double) : @pgm_weight_func_t W :=
  fun e => mret (default (dofZ 0) (weights !! ed_edge e)).

(** [(int)pgm_get_min_depth(n, ...)] as it is printed *)
Definition depth_int (m : ST (pgm_state W) double) : DM W Z :=
  x ← call m;
  match to_int x with Some z => mret z | None => dlift (Fault OutOfBounds) end.

Section Depths.
Context `{Boost}.

Definition min_depths (w : option (@pgm_weight_func_t W)) (ns : list node_t) : DM W (list Z) :=
  mapM (fun n => depth_int (pgm_get_min_depth n w)) ns.
Definition max_depths (w : option (@pgm_weight_func_t W)) (ns : list node_t) : DM W (list Z) :=
  mapM (fun n => depth_int (pgm_get_max_depth n w)) ns.

(** The seven lists of numbers that are printed, in order. *)
Definition depthtest : DM W (list (list Z)) :=
  ret ← call pgm_init_process_local; CheckError ret ;;
  '(ret, g) ← call (pgm_init_graph junk_graph (lit "demo")); CheckError ret ;;
  n0 ← new_node (pgm_init_node (Some junk_node) g (lit "n0"));
  n1 ← new_node (pgm_init_node (Some junk_node) g (lit "n1"));
  n2 ← new_node (pgm_init_node (Some junk_node) g (lit "n2"));
  n3 ← new_node (pgm_init_node (Some junk_node) g (lit "n3"));
  n4 ← new_node (pgm_init_node (Some junk_node) g (lit "n4"));
  e0_1 ← new_edge (pgm_init_edge (Some junk_edge) n0 n1 (lit "e0_1") default_edge);
  e0_2 ← new_edge (pgm_init_edge (Some junk_edge) n0 n2 (lit "e0_2") default_edge);
  e1_4 ← new_edge (pgm_init_edge (Some junk_edge) n1 n4 (lit "e1_4") default_edge);
  e2_3 ← new_edge (pgm_init_edge (Some junk_edge) n2 n3 (lit "e2_3") default_edge);
  e3_4 ← new_edge (pgm_init_edge (Some junk_edge) n3 n4 (lit "e3_4") default_edge);
  _ ← new_edge (pgm_init_backedge (Some junk_edge) 1 n4 n0 (lit "be4_0") default_edge);
  _ ← new_edge (pgm_init_backedge (Some junk_edge) 1 n3 n1 (lit "be3_1") default_edge);
  l1 ← min_depths None [n0; n1; n2; n3; n4];
  l2 ← max_depths None [n0; n1; n2; n3; n4];
  let weights : gmap Z double := <[ed_edge e3_4 := dofZ 11]> (<[ed_edge e2_3 := dofZ 7]>
    (<[ed_edge e1_4 := dofZ 1000]> (<[ed_edge e0_2 := dofZ 5]> (<[ed_edge e0_1 := dofZ 3]> ∅)))) in
  l3 ← min_depths (Some (weight weights)) [n0; n1; n2; n3; n4];
  l4 ← max_depths (Some (weight weights)) [n0; n1; n2; n3; n4];
  n00 ← new_node (pgm_init_node (Some junk_node) g (lit "n00"));
  e00_4 ← new_edge (pgm_init_edge (Some junk_edge) n00 n4 (lit "e00_4") default_edge);
  let weights := <[ed_edge e00_4 := dofZ 4]> weights in
  l5 ← min_depths None [n0; n00; n1; n2; n3; n4];
  l6 ← min_depths (Some (weight weights)) [n0; n00; n1; n2; n3; n4];
  l7 ← max_depths (Some (weight weights)) [n0; n00; n1; n2; n3; n4];
  ret ← call (pgm_destroy_graph g); CheckError ret ;;
  mret [l1; l2; l3; l4; l5; l6; l7].

End Depths.

End Code.

(** ** Results *)

(** What a program returns and how many errors it counts. *)
Definition verdict {W} (r : outcome ((exn + Z) * driver W)) : option (Z * Z) :=
  match r with Ok (inr z, d) => Some (z, errors d) | _ => None end.

Lemma verdict_run {W} (r : outcome ((exn + Z) * driver W)) z e :
  verdict r = Some (z, e) -> exists s', r = Ok (inr z, Driver s' e).
Proof. destruct r as [[[x|y] [s' k]]|]; simpl; [done| |done]. intros [= -> ->]. by exists s'. Qed.

Lemma start_process {W} `{Syscalls W} (s : pgm_state W) errs :
  gGraphs s = None -> (sys_new_graphs (world s)).1 = true ->
  call pgm_init_process_local (Driver s errs) =
  Ok (inr 0, Driver (State (Some ∅) (gGraphSharedMem s) true (gGraphPath s) (gMemName s) (heap s)
                      (sys_new_graphs (world s)).2) errs).
Proof.
  destruct s as [gs shm ma p nm hp w]. simpl. intros -> Hw.
  destruct (sys_new_graphs w) as [b w'] eqn:E. simpl in *. subst b.
  unfold call, pgm_init_process_local, prepare_graph_private_mem, sys, get, put, modify, mbind, ST_bind, mret, ST_ret.
  simpl. rewrite E. reflexivity.
Qed.



(** dottest in a small world of its own: no error is counted, nothing is left of
    the graphs, and what was printed reads back as the graph that was built. *)
#[local] Existing Instance Startup.demo_fs.

Definition dot_items : list item :=
  (NodeItem <$> [0; 1; 2; 3; 4; 5; 6]) ++
  [EdgeItem 0 1; EdgeItem 0 2; EdgeItem 0 3; EdgeItem 0 4; EdgeItem 0 5; EdgeItem 1 6; EdgeItem 2 6;
   EdgeItem 3 6; EdgeItem 4 6; EdgeItem 5 6; EdgeItem 6 0].

Lemma dottest_prints :
  match dottest (W := Z) (Node_t 0 0) (Edge_t 0 0) 0 9 (Driver demo_start 0) with
  | Ok (inr text, d) => (gGraphs (lib d), errors d, read_graph text) = (None, 0, dot_items)
  | _ => False
  end.
Proof. vm_compute. reflexivity. Qed.

(** depthtest prints the depths of its two graphs, with path searches that work by
    enumeration. *)
#[local] Existing Instance Depth.slow_boost.

Lemma depthtest_prints :
  match depthtest (W := Z) (Node_t 0 0) (Edge_t 0 0) 0 (Driver demo_start 0) with
  | Ok (inr printed, d) => (printed, errors d) =
      ([[0; 1; 1; 2; 2]; [0; 1; 1; 2; 3]; [0; 3; 5; 12; 23]; [0; 3; 5; 12; 1003];
        [0; 0; 1; 1; 2; 1]; [0; 0; 3; 5; 12; 4]; [0; 0; 3; 5; 12; 1003]], 0)
  | _ => False
  end.
Proof. vm_compute. reflexivity. Qed.

End Tests.
