(* ===== verification/Threads.v ===== *)
(** * Threads of the test programs (the threaded programs of tools/)

    The test programs run a graph with one thread per node.  All have a thread
    function of the same make: it claims a node, prepares what it needs, meets the
    others at a barrier, fires the node until the graph ends (a source fires a
    fixed number of times and then ends the graph), meets the others again and
    releases the node.  A [program] is what they differ in.

    A thread's state is the point of that function it has reached; a turn takes
    it through one call of the library that others can notice, so that threads
    interleave between calls.  [pgm_wait] of a node that is not ready faults with
    [Blocks]: the thread sleeps and makes the call again. *)

From Stdlib Require Import Ascii String.
From S2P Require Import Prelude Ring Types Sys Structure Memory Ipc GraphInit GraphWf Query Ownership Stream Tokens Startup Teardown Driver Tests.

Module Threads.
Import Types Sys Structure GraphInit Query Ownership Stream Tokens Startup Driver Tests.
#[local] Open Scope Z_scope.

(** Where a thread is: before it claims its node; about to call
    [pthread_barrier_wait], or sleeping in it, for the first or the last time; at
    the test of [errors]; at the head of the loop; about to call [pgm_complete],
    [pgm_terminate] or [pgm_release_node]; after [pthread_exit]. *)
Inductive place :=
| Entering
| AtBarrier (last : bool)
| Asleep (last : bool)
| Started
| Looping
| Completing
| Terminating
| Leaving
| Gone.

#[global] Instance place_eq_dec : EqDecision place.
Proof. solve_decision. Defined.

(** The argument of the thread: a graph, of which it claims any node, or a node. *)
Inductive argument := AnyOf (g : Z) | This (n : node_t).

(** [t_data] holds the other local variables. *)
Record thread (D : Type) := Thread {
  t_tid : Z;
  t_arg : argument;
  t_node : node_t;
  is_src : bool;
  iterations : Z;
  t_data : D;
  at_place : place
}.
Arguments Thread {D}.
Arguments t_tid {D}.
Arguments t_arg {D}.
Arguments t_node {D}.
Arguments is_src {D}.
Arguments iterations {D}.
Arguments t_data {D}.
Arguments at_place {D}.

#[global] Instance thread_eta {D} : Eta (thread D) := fun t =>
  Thread (t_tid t) (t_arg t) (t_node t) (is_src t) (iterations t) (t_data t) (at_place t).

(** Lines of the standard output, indented by as many tabs as the node's number:
    "0 fires", "0 terminates", "0 read 7 from backedge.", "0 terminates: sum: 7". *)
Inductive line := Fires (n : Z) | Terminates (n : Z) | Reads (n v : Z) | Sums (n v : Z).

#[global] Instance line_eq_dec : EqDecision line.
Proof. solve_decision. Defined.

Record system (W D : Type) := System {
  prog : driver W;
  threads : list (thread D);
  stdout : list line
}.
Arguments System {W D}.
Arguments prog {W D}.
Arguments threads {W D}.
Arguments stdout {W D}.

#[global] Instance system_eta {W D} : Eta (system W D) := fun y => System (prog y) (threads y) (stdout y).

(** What a test program has of its own: what a thread prepares once it knows its
    node and the node's degree, how it comes by the value [ret] at the head of the
    loop, what it does before [pgm_complete], what it prints at its end, and what
    it frees before it releases the node. *)
Record program (W D : Type) := Program {
  p_setup : node_t -> Z -> ST (driver W) D;
  p_head : thread D -> ST (driver W) (Z * thread D);
  p_body : thread D -> ST (driver W) (thread D * list line);
  p_last : thread D -> list line;
  p_cleanup : thread D -> ST (driver W) unit
}.
Arguments Program {W D}.
Arguments p_setup {W D}.
Arguments p_head {W D}.
Arguments p_body {W D}.
Arguments p_last {W D}.
Arguments p_cleanup {W D}.

(** ** The barrier *)

Section Barrier.
Context {D : Type}.
Implicit Types (t : thread D) (ts : list (thread D)).

Definition asleep t : bool := match at_place t with Asleep _ => true | _ => false end.

Definition past_barrier (last : bool) : place := if last then Leaving else Started.

(** What [pthread_barrier_wait] does to a thread when the last one arrives. *)
Definition awaken t : thread D :=
  match at_place t with Asleep last => t <| at_place := past_barrier last |> | _ => t end.

Definition sleepers ts : Z := Z.of_nat (List.length (filter (fun t => asleep t = true) ts)).

Definition barrier_wait (count : Z) (i : nat) t (last : bool) ts : list (thread D) :=
  if sleepers ts + 1 =? count
  then awaken <$> <[i := t <| at_place := past_barrier last |>]> ts
  else <[i := t <| at_place := Asleep last |>]> ts.

End Barrier.

Section Code.
Context {W D : Type} `{Syscalls W}.
(** Bounds: retries to open a FIFO, rounds of the data-passing loops. *)
Context (retries fuel : nat).
(** What uninitialised variables hold. *)
Context (junk : node_t) (junk_data : D).
(** The barrier's count, and the program. *)
Context (count : Z) (P : program W D).
Implicit Types (t : thread D).

Definition lib_call {A} (m : ST (pgm_state W) A) : ST (driver W) A := fun d =>
  match m (lib d) with Ok (a, s) => Ok (a, d <| lib := s |>) | Fault f => Fault f end.

Definition check_error (ret : Z) : ST (driver W) unit := fun d =>
  Ok (tt, if ret <? 0 then d <| errors ::= fun k => k + 1 |> else d).

(** [tabbuf[node.node] = '\0'] in an array of 26 tabs and the end of the string. *)
Definition cut_tabs (n : Z) : ST (driver W) unit :=
  if (0 <=? n) && (n <? 27) then mret tt else fail OutOfBounds.

(** Up to the first barrier. *)
Definition enter t : ST (driver W) (thread D) :=
  '(ret, n) ← match t_arg t with
              | AnyOf g => lib_call (pgm_claim_any_node retries g (Some junk) (t_tid t))
              | This n => ret ← lib_call (pgm_claim_node retries n (t_tid t)); mret (ret, Some n)
              end;
  check_error ret ;;
  let node := default junk n in
  cut_tabs (nd_node node) ;;
  in_degree ← lib_call (pgm_get_degree_in node true);
  data ← p_setup P node in_degree;
  mret (t <| t_node := node |> <| is_src := in_degree =? 0 |> <| t_data := data |>
          <| at_place := AtBarrier false |>).

(** The body of the loop up to [pgm_complete] or [pgm_terminate]. *)
Definition loop_head t : ST (driver W) (thread D * list line) :=
  '(ret, t) ← p_head P t;
  if negb (ret =? PGM_TERMINATE)
  then check_error ret ;; '(t, out) ← p_body P t; mret (t <| at_place := Completing |>, out)
  else mret (t <| at_place := if is_src t then Terminating else AtBarrier true |>, p_last P t).

(** The turn of a thread that is not at a barrier. *)
Definition turn t : ST (driver W) (thread D * list line) :=
  match at_place t with
  | Entering => t' ← enter t; mret (t', [])
  | Started =>
      d ← get; mret (t <| at_place := if errors d =? 0 then Looping else AtBarrier true |>, [])
  | Looping => loop_head t
  | Completing =>
      ret ← lib_call (pgm_complete fuel (t_node t));
      check_error ret ;;
      mret (t <| iterations ::= fun k => signed 32 (k + 1) |> <| at_place := Looping |>, [])
  | Terminating =>
      ret ← lib_call (pgm_terminate fuel (t_node t));
      check_error ret ;;
      mret (t <| at_place := AtBarrier true |>, [])
  | Leaving =>
      p_cleanup P t ;;
      ret ← lib_call (pgm_release_node (t_node t) (t_tid t));
      check_error ret ;;
      mret (t <| at_place := Gone |>, [])
  | _ => mret (t, [])
  end.

(** ** The threads together *)

(** A turn of thread [i]; [None] if it is gone or sleeps at the barrier. *)
Definition advance (i : nat) (y : system W D) : outcome (option (system W D)) :=
  match threads y !! i with
  | None => Ok None
  | Some t =>
      match at_place t with
      | Asleep _ | Gone => Ok None
      | AtBarrier last => Ok (Some (y <| threads ::= barrier_wait count i t last |>))
      | _ =>
          match turn t (prog y) with
          | Ok (t', out, d) => Ok (Some (System d (<[i := t']> (threads y)) (stdout y ++ out)))
          | Fault f => Fault f
          end
      end
  end.

Definition step (y y' : system W D) : Prop := exists i, advance i y = Ok (Some y').

(** Turns in the order of a schedule; a thread that sleeps misses its turn. *)
Fixpoint run (sched : list nat) (y : system W D) : outcome (system W D) :=
  match sched with
  | [] => Ok y
  | i :: sched =>
      match advance i y with
      | Ok (Some y') => run sched y'
      | Ok None | Fault Blocks => run sched y
      | Fault f => Fault f
      end
  end.

(** [pthread_create]: a thread before its first statement. *)
Definition new_thread (tid : Z) (arg : argument) : thread D := Thread tid arg junk false 0 junk_data Entering.

(** The threads run; [pthread_join] of one that never ends does not return. *)
Definition run_threads (sched : list nat) (ts : list (thread D)) : DM W (list line) := fun d =>
  match run sched (System d ts []) with
  | Ok y => if forallb (fun t => bool_decide (at_place t = Gone)) (threads y)
            then Ok (inr (stdout y), prog y) else Fault Blocks
  | Fault f => Fault f
  end.

End Code.

(** ** cvtest, basictest and sockstreamtest *)

Definition head_or_limit {W D} `{Syscalls W} (rounds fuel : nat) (TOTAL_ITERATIONS : Z) (t : thread D)
    : ST (driver W) (Z * thread D) :=
  ret ← (if negb (is_src t) then lib_call (pgm_wait rounds fuel (t_node t))
         else mret (if TOTAL_ITERATIONS <? iterations t then PGM_TERMINATE else 0));
  mret (ret, t).

Definition basic_program {W} `{Syscalls W} (rounds fuel : nat) (TOTAL_ITERATIONS : Z) : program W unit :=
  Program (fun _ _ => mret tt) (head_or_limit rounds fuel TOTAL_ITERATIONS)
    (fun t => mret (t, [Fires (nd_node (t_node t))])) (fun t => [Terminates (nd_node (t_node t))])
    (fun _ => mret tt).

Definition cvtest_count : Z := 1.
Definition cvtest_iterations : Z := 4.

Definition cvtest {W} `{Syscalls W} `{Filesystem W} (retries rounds fuel : nat)
    (junk_node : node_t) (junk_edge : edge_t) (junk_graph : Z) (tid0 tid1 : Z) (sched : list nat) : DM W (list line) :=
  ret ← call (pgm_init fuel "/tmp/graphs" true false); CheckError ret ;;
  '(ret, g) ← call (pgm_init_graph junk_graph (lit "demo")); CheckError ret ;;
  n0 ← new_node junk_node (pgm_init_node (Some junk_node) g (lit "n0"));
  n1 ← new_node junk_node (pgm_init_node (Some junk_node) g (lit "n1"));
  _ ← new_edge junk_edge (pgm_init_edge (Some junk_edge) n0 n1 (lit "e0_1") (Attr 1 1 1 pgm_cv_edge 0 0 0));
  out ← run_threads retries fuel junk_node cvtest_count (basic_program rounds fuel cvtest_iterations) sched
          [new_thread junk_node tt tid0 (AnyOf g); new_thread junk_node tt tid1 (AnyOf g)];
  ret ← call (pgm_destroy_graph g); CheckError ret ;;
  ret ← call pgm_destroy; CheckError ret ;;
  mret out.

End Threads.
