(* ===== verification/Relay.v ===== *)
(** * Graphs run by their threads

    The threads of the test programs on any acyclic graph of single-token
    condition-variable edges, one thread per node and the barrier's count the
    number of threads, in any interleaving: no call fails, a node never fires
    ahead of its predecessors, the threads are never stuck, and they all end,
    with every node fired as often as the sources. *)

From Stdlib Require Import Ascii String.
From S2P Require Import Prelude Ring Types Sys Structure Memory Ipc GraphInit GraphWf Query Search Lookup Ownership Stream Tokens Firing Ending Board Startup Teardown Driver Tests Threads.

Module Relay.
Import Types Sys Structure GraphInit GraphWf Query Search Lookup Ownership Stream Tokens Firing Ending Board Startup Driver Tests Threads.
#[local] Open Scope Z_scope.

(** ** Counting *)

(** How often a line was printed. *)
Definition lines (x : line) (log : list line) : Z := Z.of_nat (List.length (filter (fun l => l = x) log)).

Lemma lines_app x l l' : lines x (l ++ l') = lines x l + lines x l'.
Proof. unfold lines. rewrite filter_app, length_app. lia. Qed.

Lemma lines_one x y : lines x [y] = if decide (y = x) then 1 else 0.
Proof. unfold lines. rewrite filter_cons. by case_decide. Qed.

Lemma filter_length_split {A} (P Q R : A -> Prop) `{!forall x, Decision (P x)} `{!forall x, Decision (Q x)}
    `{!forall x, Decision (R x)} (l : list A) :
  (forall x, x ∈ l -> (R x <-> P x \/ Q x) /\ ~ (P x /\ Q x)) ->
  List.length (filter R l) = (List.length (filter P l) + List.length (filter Q l))%nat.
Proof.
  intros Hl. induction l as [|x l IH]; [done|]. rewrite !filter_cons.
  destruct (Hl x ltac:(constructor)) as [Hr Hpq]. specialize (IH ltac:(intros; apply Hl; by constructor)).
  repeat case_decide; simpl; try lia; tauto.
Qed.

Lemma filter_true {A} (l : list A) : filter (fun _ => True) l = l.
Proof. induction l as [|x l IH]; [done|]. by rewrite filter_cons, IH. Qed.

Lemma filter_false {A} (l : list A) : filter (fun _ => False) l = [].
Proof. induction l as [|x l IH]; [done|]. by rewrite filter_cons, IH. Qed.

Lemma filter_length_all {A} (P : A -> Prop) `{!forall x, Decision (P x)} (l : list A) :
  List.length (filter P l) = List.length l -> forall x, x ∈ l -> P x.
Proof.
  intros E x Hx. induction l as [|y l IH]; [by apply elem_of_nil in Hx|]. rewrite filter_cons in E.
  pose proof (length_filter P l). case_decide; simpl in E; [|lia].
  apply elem_of_cons in Hx as [->|Hx]; [done|]. apply IH; [lia|done].
Qed.

Lemma filter_insert_length {A} (P : A -> Prop) `{!forall x, Decision (P x)} (l : list A) i x y :
  l !! i = Some x ->
  (List.length (filter P (<[i := y]> l)) + (if decide (P x) then 1 else 0) =
   List.length (filter P l) + (if decide (P y) then 1 else 0))%nat.
Proof.
  revert i. induction l as [|z l IH]; intros i Hi; [done|]. destruct i as [|i]; simpl in *.
  - injection Hi as ->. rewrite !filter_cons. repeat case_decide; simpl; lia.
  - specialize (IH i Hi). rewrite !filter_cons. repeat case_decide; simpl in *; lia.
Qed.

Lemma filter_filter_fmap {A B} (P : A -> Prop) (Q : B -> Prop) `{!forall x, Decision (P x)} `{!forall x, Decision (Q x)}
    (f : A -> B) (l : list A) :
  List.length (filter Q (f <$> filter P l)) = List.length (filter (fun x => P x /\ Q (f x)) l).
Proof.
  induction l as [|x l IH]; [done|]. rewrite !filter_cons. destruct (decide (P x)); rewrite ?fmap_cons, ?filter_cons;
    repeat case_decide; simpl; rewrite ?IH; tauto.
Qed.

Lemma sum_insert {A} (f : A -> nat) (l : list A) i x y :
  l !! i = Some x -> (sum_list_with f (<[i := y]> l) + f x = sum_list_with f l + f y)%nat.
Proof.
  revert i. induction l as [|z l IH]; intros i Hi; [done|]. destruct i as [|i]; simpl in *.
  - injection Hi as ->. lia.
  - specialize (IH i Hi). lia.
Qed.

Lemma sum_fmap_le {A} (f : A -> nat) (h : A -> A) (l : list A) :
  (forall x, f (h x) <= f x)%nat -> (sum_list_with f (h <$> l) <= sum_list_with f l)%nat.
Proof.
  intros Hh. induction l as [|x l IH]; [done|]. rewrite fmap_cons. cbn [sum_list_with]. specialize (Hh x). lia.
Qed.

Lemma list_filter_iff_in {A} (P Q : A -> Prop) `{!forall x, Decision (P x)} `{!forall x, Decision (Q x)} (l : list A) :
  (forall x, x ∈ l -> P x <-> Q x) -> filter P l = filter Q l.
Proof.
  intros Hl. induction l as [|x l IH]; [done|]. rewrite !filter_cons.
  rewrite IH by (intros; apply Hl; by constructor). specialize (Hl x ltac:(constructor)).
  repeat case_decide; tauto.
Qed.

(** ** Places *)

(** The thread has announced that its node is done. *)
Definition told (p : place) : bool :=
  match p with AtBarrier last | Asleep last => last | Leaving | Gone => true | _ => false end.

(** How often the node has fired. *)
Definition taken {D} (t : thread D) : Z := iterations t + match at_place t with Completing => 1 | _ => 0 end.

Definition has_quit {D} (t : thread D) : Z :=
  match at_place t with Terminating => 1 | p => if told p then 1 else 0 end.

(** The part of the thread function between which the barrier stands. *)
Definition part (p : place) : nat :=
  match p with
  | Entering | AtBarrier false | Asleep false => 0
  | Leaving | Gone => 2
  | _ => 1
  end.

(** Neither at a barrier nor gone. *)
Definition working (p : place) : bool := match p with AtBarrier _ | Asleep _ | Gone => false | _ => true end.

Definition holds_node (p : place) : bool := match p with Entering | Gone => false | _ => true end.

(** How often every node fires. *)
Definition rounds_due (TOTAL_ITERATIONS : Z) : Z := TOTAL_ITERATIONS + 1.

(** A bound on the turns a thread has left. *)
Definition cost {D} (TOTAL_ITERATIONS : Z) (t : thread D) : nat :=
  let r := (2 * Z.to_nat (rounds_due TOTAL_ITERATIONS - iterations t))%nat in
  (match at_place t with
   | Gone => 0
   | Leaving => 1
   | Asleep true => 2
   | AtBarrier true => 3
   | Terminating => 4
   | Completing => 4 + r
   | Looping => 5 + r
   | Started => 6 + r
   | Asleep false => 7 + r
   | AtBarrier false => 8 + r
   | Entering => 9 + r
   end)%nat.

Definition total {D} (TOTAL_ITERATIONS : Z) (ts : list (thread D)) : nat :=
  sum_list_with (cost TOTAL_ITERATIONS) ts.

Lemma awaken_cost {D} TOTAL_ITERATIONS (t : thread D) : (cost TOTAL_ITERATIONS (awaken t) <= cost TOTAL_ITERATIONS t)%nat.
Proof. unfold awaken. destruct (at_place t) as [| |[]| | | | | |] eqn:E; try done; unfold cost; simpl; rewrite E; lia. Qed.

(** The thread of node [n]. *)
Definition of_node (ts : list (thread unit)) (n : Z) : thread unit :=
  default (Thread 0 (AnyOf 0) (Node_t 0 0) false 0 tt Entering) (ts !! Z.to_nat n).

Lemma of_node_lookup ts n : 0 <= n < Z.of_nat (List.length ts) -> ts !! Z.to_nat n = Some (of_node ts n).
Proof.
  intros Hn. unfold of_node. destruct (lookup_lt_is_Some_2 ts (Z.to_nat n)) as [t E]; [lia|]. by rewrite E.
Qed.

Lemma of_node_insert ts n t m :
  0 <= n < Z.of_nat (List.length ts) -> 0 <= m ->
  of_node (<[Z.to_nat n := t]> ts) m = if decide (n = m) then t else of_node ts m.
Proof.
  intros Hn Hm. unfold of_node. case_decide as E.
  - subst. rewrite list_lookup_insert_eq by lia. done.
  - by rewrite list_lookup_insert_ne by lia.
Qed.

Lemma of_node_awaken ts n :
  0 <= n < Z.of_nat (List.length ts) -> of_node (awaken <$> ts) n = awaken (of_node ts n).
Proof. intros Hn. unfold of_node at 1. rewrite list_lookup_fmap, of_node_lookup by done. done. Qed.

(** ** The invariant *)

Section Relay.
Context (gr0 : pgm_graph) (g TOTAL_ITERATIONS : Z).


(** The thread of node [n], with what the board says of it. *)
Record thread_ok (b : board) (n : Z) (t : thread unit) : Prop := {
  to_arg : t_arg t = This (Node_t g n);
  to_tid : t_tid t <> 0 /\ t_tid t <> UNCLAIMED_NODE;
  to_node : at_place t <> Entering -> t_node t = Node_t g n /\ is_src t = (nr_in (gnode gr0 n) =? 0);
  to_iter : 0 <= iterations t <= rounds_due TOTAL_ITERATIONS;
  to_place : match at_place t with
             | Entering | Started | AtBarrier false | Asleep false => iterations t = 0
             | Looping => True
             | Completing => iterations t < rounds_due TOTAL_ITERATIONS
             | Terminating => is_src t = true /\ iterations t = rounds_due TOTAL_ITERATIONS
             | _ => iterations t = rounds_due TOTAL_ITERATIONS
             end;
  to_owner : holder b n = if holds_node (at_place t) then t_tid t else UNCLAIMED_NODE
}.

Definition producer (e : Z) : Z := e_producer (gedge gr0 e).

(** The inbound edges of [q] whose producers have announced their end. *)
Definition told_edges (ts : list (thread unit)) (q : Z) : Z :=
  Z.of_nat (List.length (filter (fun e => told (at_place (of_node ts (producer e))) = true) (in_list (gnode gr0 q)))).

Record inv (b : board) (ts : list (thread unit)) (log : list line) : Prop := {
  in_length : Z.of_nat (List.length ts) = nr_nodes gr0;
  in_thread n : is_node gr0 n -> thread_ok b n (of_node ts n);
  in_edge q e : is_node gr0 q -> e ∈ in_list (gnode gr0 q) ->
    pend b e = iterations (of_node ts (producer e)) - taken (of_node ts q) /\ 0 <= pend b e;
  in_told q : is_node gr0 q -> ended b q = told_edges ts q;
  in_log n : is_node gr0 n ->
    lines (Fires n) log = taken (of_node ts n) /\ lines (Terminates n) log = has_quit (of_node ts n)
}.

(** All threads are between the same barriers, and one is awake. *)
Definition in_step (ts : list (thread unit)) : Prop := exists k,
  (forall n, is_node gr0 n -> part (at_place (of_node ts n)) = k) /\
  ((k < 2)%nat -> exists n, is_node gr0 n /\ asleep (of_node ts n) = false).

Context (Hrelay : relay gr0) (Hlimit : 0 <= TOTAL_ITERATIONS < 2 ^ 31 - 1).
(** The graph has no cycle. *)
Context (rank : Z -> nat)
  (Hrank : forall q e, is_node gr0 q -> e ∈ in_list (gnode gr0 q) -> (rank (producer e) < rank q)%nat).

Lemma producer_node q e : is_node gr0 q -> e ∈ in_list (gnode gr0 q) ->
  is_node gr0 (producer e) /\ e ∈ out_list (gnode gr0 (producer e)) /\ e_consumer (gedge gr0 e) = q.
Proof.
  intros Hq He. by destruct (nw_in_edges _ _ (gw_node _ (rl_wf _ Hrelay) q Hq) e He) as (_ & ? & ? & ?).
Qed.

Lemma out_producer n q e :
  is_node gr0 n -> is_node gr0 q -> e ∈ in_list (gnode gr0 q) -> e ∈ out_list (gnode gr0 n) <-> producer e = n.
Proof.
  intros Hn Hq He. destruct (producer_node q e Hq He) as (_ & Ho & _). split; [|by intros <-].
  intros Hin. by destruct (nw_out_edges _ _ (gw_node _ (rl_wf _ Hrelay) n Hn) e Hin) as (_ & ? & _).
Qed.

Lemma in_consumer n q e :
  is_node gr0 n -> is_node gr0 q -> e ∈ in_list (gnode gr0 q) -> e ∈ in_list (gnode gr0 n) <-> q = n.
Proof.
  intros Hn Hq He. destruct (producer_node q e Hq He) as (_ & _ & Hc). split; [|by intros <-].
  intros Hin. destruct (producer_node n e Hn Hin) as (_ & _ & Hc'). congruence.
Qed.

Lemma source_no_in n e :
  is_node gr0 n -> nr_in (gnode gr0 n) = 0 -> e ∉ in_list (gnode gr0 n).
Proof.
  intros Hn Hz He. pose proof (length_in gr0 Hrelay n Hn) as Hl.
  destruct (in_list (gnode gr0 n)); [by apply elem_of_nil in He|]. simpl in Hl. lia.
Qed.

Lemma taken_bounds b n t : thread_ok b n t -> 0 <= taken t <= rounds_due TOTAL_ITERATIONS.
Proof.
  intros [_ _ _ Hi Hp _]. unfold taken. destruct (at_place t) as [|[]|[]| | | | | |]; lia.
Qed.

Lemma inv_roomy b ts log : inv b ts log -> roomy gr0 b.
Proof.
  intros [_ Ht He _ _] q e Hq Hin. destruct (He q e Hq Hin) as [E H0].
  destruct (producer_node q e Hq Hin) as [Hp _].
  pose proof (to_iter _ _ _ (Ht _ Hp)). pose proof (taken_bounds _ _ _ (Ht q Hq)). unfold rounds_due in *. lia.
Qed.

(** *** Announcing the end *)

(** The edges from [n] to [q], counted at either end. *)
Lemma edges_between n q :
  is_node gr0 n -> is_node gr0 q ->
  occ (followers gr0 (out_list (gnode gr0 n))) q =
  Z.of_nat (List.length (filter (fun e => producer e = n) (in_list (gnode gr0 q)))).
Proof.
  intros Hn Hq. unfold occ, followers. f_equal. rewrite filter_filter_fmap. apply Permutation_length, NoDup_Permutation.
  - apply NoDup_filter, (nw_out_nodup _ _ (gw_node _ (rl_wf _ Hrelay) n Hn)).
  - apply NoDup_filter, (nw_in_nodup _ _ (gw_node _ (rl_wf _ Hrelay) q Hq)).
  - intros e. rewrite !list_elem_of_filter. split.
    + intros ([_ <-] & He). destruct (nw_out_edges _ _ (gw_node _ (rl_wf _ Hrelay) n Hn) e He) as (_ & ? & _ & ?). done.
    + intros (<- & He). destruct (producer_node q e Hq He) as (_ & Ho & Hc).
      split; [split; [apply (re_forward _ (rl_edge _ Hrelay q e Hq He))|done]|done].
Qed.

(** A node that announces its end is counted at every consumer. *)
Lemma told_announced b b' ts n t' q :
  (forall q, is_node gr0 q -> ended b q = told_edges ts q) -> Z.of_nat (List.length ts) = nr_nodes gr0 ->
  is_node gr0 n -> is_node gr0 q -> told (at_place (of_node ts n)) = false -> told (at_place t') = true ->
  ended b' q = ended b q + occ (followers gr0 (out_list (gnode gr0 n))) q ->
  ended b' q = told_edges (<[Z.to_nat n := t']> ts) q.
Proof.
  intros Hb Hlen Hn Hq Hold Hnew ->. rewrite edges_between, Hb by done. unfold told_edges.
  rewrite <- Nat2Z.inj_add. f_equal. symmetry. apply filter_length_split. intros e He.
  destruct (producer_node q e Hq He) as [Hp _]. unfold is_node in *.
  rewrite of_node_insert by lia. destruct (decide (n = producer e)) as [E|E].
  - rewrite <- E, Hold, Hnew. naive_solver.
  - naive_solver.
Qed.

Lemma told_same ts n t' q :
  Z.of_nat (List.length ts) = nr_nodes gr0 -> is_node gr0 n -> is_node gr0 q ->
  told (at_place t') = told (at_place (of_node ts n)) -> told_edges (<[Z.to_nat n := t']> ts) q = told_edges ts q.
Proof.
  intros Hlen Hn Hq Hsame. unfold told_edges. do 2 f_equal. apply list_filter_iff_in. intros e He.
  destruct (producer_node q e Hq He) as [Hp _]. unfold is_node in *.
  rewrite of_node_insert by lia. case_decide as E; [by rewrite Hsame, E|done].
Qed.

(** *** One thread moves *)

Lemma thread_ok_board b b' n t : holder b' n = holder b n -> thread_ok b n t -> thread_ok b' n t.
Proof. intros E []. split; try done. by rewrite E. Qed.

(** The lines a thread prints are its own, and count its firings and its end. *)
Definition own_lines (n : Z) (t t' : thread unit) (out : list line) : Prop :=
  lines (Fires n) out = taken t' - taken t /\ lines (Terminates n) out = has_quit t' - has_quit t /\
  forall m, n <> m -> lines (Fires m) out = 0 /\ lines (Terminates m) out = 0.

Lemma inv_update b b' ts log n t' out :
  inv b ts log -> is_node gr0 n -> thread_ok b' n t' ->
  (forall m, n <> m -> holder b' m = holder b m) ->
  (forall q e, is_node gr0 q -> e ∈ in_list (gnode gr0 q) -> pend b' e = pend b e
     + (if decide (producer e = n) then iterations t' - iterations (of_node ts n) else 0)
     - (if decide (q = n) then taken t' - taken (of_node ts n) else 0)) ->
  iterations (of_node ts n) <= iterations t' ->
  taken t' <= taken (of_node ts n) \/ served gr0 b n /\ taken t' <= taken (of_node ts n) + 1 ->
  (forall q, is_node gr0 q -> ended b' q = told_edges (<[Z.to_nat n := t']> ts) q) ->
  own_lines n (of_node ts n) t' out ->
  inv b' (<[Z.to_nat n := t']> ts) (log ++ out).
Proof.
  intros [Hlen Ht He Hd Hl] Hn Ht' Hh Hp Hi Hs Hend (Lf & Lt & Lo).
  assert (Hof : forall m, is_node gr0 m ->
    of_node (<[Z.to_nat n := t']> ts) m = if decide (n = m) then t' else of_node ts m)
    by (intros m Hm; unfold is_node in *; apply of_node_insert; lia).
  split; [by rewrite length_insert| | |done|].
  - intros m Hm. rewrite Hof by done. case_decide; [by subst|]. apply (thread_ok_board b); auto.
  - intros q e Hq Hin. destruct (producer_node q e Hq Hin) as [Hpn _]. rewrite !Hof, (Hp q e Hq Hin) by done.
    destruct (He q e Hq Hin) as [E H0]. pose proof (Hrank q e Hq Hin).
    destruct (decide (n = producer e)) as [Ep|Ep]; destruct (decide (n = q)) as [Eq|Eq].
    + exfalso. rewrite <- Ep, <- Eq in *. lia.
    + rewrite decide_True, decide_False by congruence. rewrite <- Ep in *. lia.
    + rewrite decide_False, decide_True by congruence. rewrite <- Eq in *.
      destruct Hs as [Hs|[Hs Hs']]; [lia|]. specialize (Hs e Hin). lia.
    + rewrite !decide_False by congruence. lia.
  - intros m Hm. rewrite !lines_app, Hof by done. destruct (Hl m Hm) as [-> ->].
    case_decide as E; [subst; lia|]. destruct (Lo m E) as [-> ->]. lia.
Qed.

(** ** Turns *)

(** ** Barriers *)

(** Being past the barrier, or woken at it, is no different for anybody else. *)
Lemma thread_ok_place b n t p :
  thread_ok b n t -> at_place t <> Entering -> holds_node p = holds_node (at_place t) ->
  (match p with
   | Entering | Started | AtBarrier false | Asleep false => iterations t = 0
   | Looping => True
   | Completing => iterations t < rounds_due TOTAL_ITERATIONS
   | Terminating => is_src t = true /\ iterations t = rounds_due TOTAL_ITERATIONS
   | _ => iterations t = rounds_due TOTAL_ITERATIONS
   end) -> thread_ok b n (t <| at_place := p |>).
Proof. intros [Ha Ht Hnd Hi _ Ho] Hne Hh Hp. split; simpl; try done; [by intros _; apply Hnd|]. by rewrite Hh. Qed.

Lemma awaken_ok b n t : thread_ok b n t ->
  thread_ok b n (awaken t) /\ iterations (awaken t) = iterations t /\ taken (awaken t) = taken t /\
  has_quit (awaken t) = has_quit t /\ told (at_place (awaken t)) = told (at_place t).
Proof.
  intros Hok. unfold awaken. destruct (at_place t) as [| |last| | | | | |] eqn:E; rewrite ?E; try done.
  pose proof (to_place _ _ _ Hok) as Hp. rewrite E in Hp. unfold taken, has_quit. simpl. rewrite E.
  split; [|by destruct last]. apply thread_ok_place; rewrite ?E; by destruct last.
Qed.

Lemma inv_awaken b ts log : inv b ts log -> inv b (awaken <$> ts) log.
Proof.
  intros [Hlen Ht He Hd Hl].
  assert (Hof : forall m, is_node gr0 m -> of_node (awaken <$> ts) m = awaken (of_node ts m))
    by (intros m Hm; unfold is_node in *; apply of_node_awaken; lia).
  split; [by rewrite length_fmap| | | |].
  - intros m Hm. rewrite Hof by done. by apply awaken_ok, Ht.
  - intros q e Hq Hin. destruct (producer_node q e Hq Hin) as [Hp _]. rewrite !Hof by done.
    destruct (awaken_ok b _ _ (Ht q Hq)) as (_ & _ & -> & _). destruct (awaken_ok b _ _ (Ht _ Hp)) as (_ & -> & _). auto.
  - intros q Hq. rewrite Hd by done. unfold told_edges. do 2 f_equal. apply list_filter_iff_in. intros e Hin.
    destruct (producer_node q e Hq Hin) as [Hp _]. rewrite Hof by done.
    by destruct (awaken_ok b _ _ (Ht _ Hp)) as (_ & _ & _ & _ & ->).
  - intros m Hm. rewrite Hof by done. destruct (awaken_ok b _ _ (Ht m Hm)) as (_ & _ & -> & -> & _). auto.
Qed.

Section Turns.
Context {W : Type} `{Syscalls W} (retries rounds fuel : nat) (junk : node_t) (Hsize : nr_nodes gr0 <= 27).
Implicit Types (d : driver W).

Lemma lib_call_ok {A} (m : ST (pgm_state W) A) d a s' :
  m (lib d) = Ok (a, s') -> lib_call m d = Ok (a, d <| lib := s' |>).
Proof. intros E. unfold lib_call. by rewrite E. Qed.

(** The head of the loop of these programs, without the parts they have not. *)
Lemma basic_head t d :
  loop_head (basic_program rounds fuel TOTAL_ITERATIONS) t d =
  (ret ← (if negb (is_src t) then lib_call (pgm_wait rounds fuel (t_node t))
          else mret (if TOTAL_ITERATIONS <? iterations t then PGM_TERMINATE else 0));
   if negb (ret =? PGM_TERMINATE)
   then check_error ret ;; mret (t <| at_place := Completing |>, [Fires (nd_node (t_node t))])
   else mret (t <| at_place := if is_src t then Terminating else AtBarrier true |>,
              [Terminates (nd_node (t_node t))])) d.
Proof.
  unfold loop_head, head_or_limit, mbind, ST_bind. simpl. unfold head_or_limit, mbind, ST_bind.
  set (m := if negb (is_src t) then _ else _). destruct (m d) as [[ret d']|f]; [|done]. unfold mret, ST_ret. reflexivity.
Qed.

(** A turn that went well: no error, the new state shows a board that fits, the
    thread stays between its barriers and gets nearer to its end. *)
Record good_turn (ts : list (thread unit)) (log : list line) (n : Z) (t' : thread unit) (out : list line) (d' : driver W) : Prop := {
  gt_errors : errors d' = 0;
  gt_inv : exists b', showing gr0 g (lib d') b' /\ inv b' (<[Z.to_nat n := t']> ts) (log ++ out);
  gt_part : part (at_place t') = part (at_place (of_node ts n));
  gt_awake : asleep t' = false;
  gt_cost : (cost TOTAL_ITERATIONS t' < cost TOTAL_ITERATIONS (of_node ts n))%nat
}.

Definition goes_well d (ts : list (thread unit)) (log : list line) (n : Z) : Prop := exists t' out d',
  turn retries fuel junk (basic_program rounds fuel TOTAL_ITERATIONS) (of_node ts n) d = Ok (t', out, d') /\ good_turn ts log n t' out d'.

(** Lines printed, from the place the thread was at. *)
Ltac printed E :=
  unfold own_lines, taken, has_quit; simpl; rewrite ?E; simpl;
  split_and!; [rewrite ?lines_one; try case_decide; try done; unfold lines; simpl; lia..|];
  intros m Hm; rewrite ?lines_one, ?decide_False by congruence; done.

Section OneTurn.
Context (d : driver W) (b : board) (ts : list (thread unit)) (log : list line) (n : Z).
Context (Hb : showing gr0 g (lib d) b) (Herr : errors d = 0) (Hinv : inv b ts log) (Hn : is_node gr0 n).

(** A change of nothing but the thread itself. *)
Lemma inv_local b' t' out :
  thread_ok b' n t' -> pend b' = pend b -> ended b' = ended b -> (forall m, n <> m -> holder b' m = holder b m) ->
  iterations t' = iterations (of_node ts n) -> taken t' = taken (of_node ts n) ->
  told (at_place t') = told (at_place (of_node ts n)) -> own_lines n (of_node ts n) t' out ->
  inv b' (<[Z.to_nat n := t']> ts) (log ++ out).
Proof.
  intros Ht Ep Ee Hh Ei Ek Etold Hout. apply (inv_update b); try done; try lia.
  - intros q e _ _. rewrite Ep, Ei, Ek. repeat case_decide; lia.
  - intros q Hq. rewrite Ee, told_same by (done || apply (in_length _ _ _ Hinv)). by apply (in_told _ _ _ Hinv).
Qed.

Lemma enter_turn : at_place (of_node ts n) = Entering ->
  goes_well d ts log n.
Proof.
  intros Ep. pose proof (in_thread _ _ _ Hinv n Hn) as Hok. destruct Hok as [Ha [Ht Ht'] _ Hi Hpl Ho].
  unfold goes_well, turn. rewrite Ep in *. simpl in Ho. unfold enter. rewrite Ha.
  destruct (claim_shown gr0 Hrelay retries g (lib d) b n _ Hb Hn Ho Ht) as (s' & E & Hs').
  pose proof (degree_shown gr0 Hrelay g s' _ n Hs' Hn) as Ed.
  assert (Hcut : (0 <=? n) && (n <? 27) = true) by (unfold is_node in Hn; lia).
  erewrite bind_step.
  2:{ erewrite bind_step by (erewrite bind_step by (apply lib_call_ok, E); done). cbv beta iota.
      erewrite bind_step by done. cbv beta. simpl default. unfold cut_tabs. simpl nd_node. rewrite Hcut.
      erewrite bind_step by done. cbv beta. erewrite bind_step by (apply lib_call_ok, Ed). done. }
  cbv beta. do 3 eexists. split; [done|]. split; [done| |by rewrite Ep|done|].
  - eexists. split; [exact Hs'|]. apply inv_local; simpl; rewrite ?Ep; try done.
    + split; simpl; try done. by rewrite decide_True.
    + intros m Hm. by rewrite decide_False.
    + unfold taken. simpl. by rewrite Ep.
    + printed Ep.
  - unfold cost. simpl. rewrite Ep. lia.
Qed.

Lemma started_turn : at_place (of_node ts n) = Started ->
  goes_well d ts log n.
Proof.
  intros Ep. pose proof (in_thread _ _ _ Hinv n Hn) as Hok. destruct Hok as [Ha Ht Hnd Hi Hpl Ho].
  unfold goes_well, turn. rewrite Ep in *. do 3 eexists. split; [done|]. rewrite Herr. simpl.
  split; [done| |by rewrite Ep|done|].
  - exists b. split; [done|]. apply inv_local; simpl; rewrite ?Ep; try done.
    + split; simpl; try done. intros _. by apply Hnd.
    + unfold taken. simpl. by rewrite Ep.
    + printed Ep.
  - unfold cost. simpl. rewrite Ep. lia.
Qed.

Lemma leave_turn : at_place (of_node ts n) = Leaving ->
  goes_well d ts log n.
Proof.
  intros Ep. pose proof (in_thread _ _ _ Hinv n Hn) as Hok. destruct Hok as [Ha [Ht Ht'] Hnd Hi Hpl Ho].
  unfold goes_well, turn. rewrite Ep in *. simpl in Ho. destruct (Hnd ltac:(done)) as [En Es]. rewrite En.
  destruct (release_shown gr0 Hrelay g (lib d) b n _ Hb Hn Ho Ht Ht') as (s' & E & Hs').
  erewrite bind_step by done. cbv beta. erewrite bind_step by (apply lib_call_ok, E). cbv beta. do 3 eexists. split; [done|].
  split; [done| |by rewrite Ep|done|].
  - eexists. split; [exact Hs'|]. apply inv_local; simpl; rewrite ?Ep; try done.
    + split; simpl; try done. by rewrite decide_True.
    + intros m Hm. by rewrite decide_False.
    + unfold taken. simpl. by rewrite Ep.
    + printed Ep.
  - unfold cost. simpl. rewrite Ep. lia.
Qed.

Lemma complete_turn : at_place (of_node ts n) = Completing ->
  goes_well d ts log n.
Proof.
  intros Ep. pose proof (in_thread _ _ _ Hinv n Hn) as Hok. destruct Hok as [Ha Ht Hnd Hi Hpl Ho].
  unfold goes_well, turn. rewrite Ep in *. destruct (Hnd ltac:(done)) as [En Es]. rewrite En.
  destruct (complete_shown gr0 Hrelay fuel g (lib d) b n Hb (inv_roomy _ _ _ Hinv) Hn) as (s' & E & Hs').
  erewrite bind_step by (apply lib_call_ok, E). cbv beta.
  assert (Ei : signed 32 (iterations (of_node ts n) + 1) = iterations (of_node ts n) + 1)
    by (apply signed32_small; unfold rounds_due in *; lia).
  do 3 eexists. split; [done|]. split; [done| |by rewrite Ep|done|].
  - eexists. split; [exact Hs'|]. apply (inv_update b); simpl; rewrite ?Ei; try done; try lia.
    + split; simpl; rewrite ?Ei; try done; lia.
    + intros q e Hq He. unfold taken. simpl. rewrite Ep, Ei, (decide_ext _ _ _ _ (out_producer n q e Hn Hq He)).
      repeat case_decide; lia.
    + unfold taken. simpl. rewrite Ep, Ei. lia.
    + intros q Hq. rewrite told_same; [by apply (in_told _ _ _ Hinv)|apply (in_length _ _ _ Hinv)|done..|by rewrite Ep].
    + unfold own_lines, taken, has_quit; simpl. rewrite Ei, Ep. split_and!; [unfold lines; simpl; lia|done|done].
  - unfold cost. simpl. rewrite Ep, Ei. lia.
Qed.

Lemma terminate_turn : at_place (of_node ts n) = Terminating ->
  goes_well d ts log n.
Proof.
  intros Ep. pose proof (in_thread _ _ _ Hinv n Hn) as Hok. destruct Hok as [Ha Ht Hnd Hi Hpl Ho].
  unfold goes_well, turn. rewrite Ep in *. destruct (Hnd ltac:(done)) as [En Es]. rewrite En. destruct Hpl as [_ Hpl].
  destruct (terminate_shown gr0 Hrelay fuel g (lib d) b n Hb Hn) as (s' & E & Hs').
  erewrite bind_step by (apply lib_call_ok, E). cbv beta.
  do 3 eexists. split; [done|]. split; [done| |by rewrite Ep|done|].
  - eexists. split; [exact Hs'|]. apply (inv_update b); simpl; try done; try lia.
    + intros q e Hq He. unfold taken. simpl. rewrite Ep. repeat case_decide; lia.
    + unfold taken. simpl. rewrite Ep. lia.
    + intros q Hq. apply (told_announced b (announce gr0 n b)); try done; [apply (in_told _ _ _ Hinv)|apply (in_length _ _ _ Hinv)|by rewrite Ep].
    + printed Ep.
  - unfold cost. simpl. rewrite Ep. lia.
Qed.

(** A source at the head of the loop. *)
Lemma source_turn : at_place (of_node ts n) = Looping -> nr_in (gnode gr0 n) = 0 ->
  goes_well d ts log n.
Proof.
  intros Ep Hsrc. pose proof (in_thread _ _ _ Hinv n Hn) as Hok. destruct Hok as [Ha Ht Hnd Hi _ Ho].
  unfold goes_well, turn. rewrite Ep in *. destruct (Hnd ltac:(done)) as [En Es]. rewrite Hsrc in Es. simpl in Es.
  rewrite basic_head. rewrite Es, En. erewrite bind_step by done. cbv beta.
  destruct (Z.ltb_spec TOTAL_ITERATIONS (iterations (of_node ts n))) as [Hlt|Hge].
  - do 3 eexists. split; [done|]. split; [done| |by rewrite Ep|done|].
    + exists b. split; [done|]. apply inv_local; simpl; rewrite ?Ep; try done.
      * split; simpl; try done. { intros _. by apply Hnd. } unfold rounds_due in *. split; [done|lia].
      * unfold taken. simpl. by rewrite Ep.
      * printed Ep.
    + unfold cost. simpl. rewrite Ep. lia.
  - do 3 eexists. split; [done|]. split; [done| |by rewrite Ep|done|].
    + exists b. split; [done|]. apply (inv_update b); simpl; rewrite ?Ep; try done; try lia.
      * split; simpl; try done. { intros _. by apply Hnd. } unfold rounds_due in *. lia.
      * intros q e Hq He. destruct (decide (q = n)) as [->|]; [|case_decide; lia]. by destruct (source_no_in n e).
      * right. split; [|unfold taken; simpl; rewrite Ep; lia]. intros e He. by destruct (source_no_in n e).
      * intros q Hq. rewrite told_same; [by apply (in_told _ _ _ Hinv)|apply (in_length _ _ _ Hinv)|done..|by rewrite Ep].
      * printed Ep.
    + unfold cost. simpl. rewrite Ep. lia.
Qed.

(** Another node at the head of the loop: it fires, ends or sleeps. *)
Lemma consumer_fires : at_place (of_node ts n) = Looping -> nr_in (gnode gr0 n) <> 0 -> served gr0 b n ->
  goes_well d ts log n.
Proof.
  intros Ep Hsrc Hserved. pose proof (in_thread _ _ _ Hinv n Hn) as Hok. destruct Hok as [Ha Ht Hnd Hi _ Ho].
  unfold goes_well, turn. rewrite Ep in *. destruct (Hnd ltac:(done)) as [En Es]. rewrite (proj2 (Z.eqb_neq _ _) Hsrc) in Es.
  rewrite basic_head. rewrite Es, En. simpl negb. cbv iota.
  destruct (wait_fires_shown gr0 Hrelay rounds fuel g (lib d) b n Hb (inv_roomy _ _ _ Hinv) Hn Hsrc Hserved) as (s' & E & Hs').
  erewrite bind_step by (apply lib_call_ok, E). cbv beta. do 3 eexists. split; [done|].
  assert (iterations (of_node ts n) < rounds_due TOTAL_ITERATIONS).
  { destruct (some_inbound gr0 Hrelay n Hn Hsrc) as [e He]. specialize (Hserved e He).
    destruct (in_edge _ _ _ Hinv n e Hn He) as [E1 _]. destruct (producer_node n e Hn He) as [Hp _].
    pose proof (to_iter _ _ _ (in_thread _ _ _ Hinv _ Hp)). unfold taken in E1. rewrite Ep in E1. lia. }
  split; [done| |by rewrite Ep|done|].
  - eexists. split; [exact Hs'|]. apply (inv_update b); simpl; rewrite ?Ep; try done; try lia.
    + split; simpl; try done. intros _. rewrite En. split; [done|]. rewrite Es. by rewrite (proj2 (Z.eqb_neq _ _) Hsrc).
    + intros q e Hq He. rewrite (decide_ext _ _ _ _ (in_consumer n q e Hn Hq He)). unfold taken. simpl. rewrite Ep.
      repeat case_decide; lia.
    + right. split; [done|]. unfold taken; simpl; rewrite Ep; lia.
    + intros q Hq. rewrite told_same; [by apply (in_told _ _ _ Hinv)|apply (in_length _ _ _ Hinv)|done..|by rewrite Ep].
    + printed Ep.
  - unfold cost. simpl. rewrite Ep. lia.
Qed.

(** All producers have ended, so they have fired as often as they will. *)
Lemma over_done : nr_in (gnode gr0 n) <> 0 -> over gr0 b n -> taken (of_node ts n) = rounds_due TOTAL_ITERATIONS.
Proof.
  intros Hsrc [Hz Hall]. destruct (some_inbound gr0 Hrelay n Hn Hsrc) as [e He].
  rewrite (in_told _ _ _ Hinv n Hn), <- (length_in gr0 Hrelay n Hn) in Hall. unfold told_edges in Hall.
  apply Nat2Z.inj, filter_length_all with (x := e) in Hall; [|done].
  destruct (producer_node n e Hn He) as [Hp _]. pose proof (to_place _ _ _ (in_thread _ _ _ Hinv _ Hp)) as Hpl.
  destruct (in_edge _ _ _ Hinv n e Hn He) as [E1 _]. rewrite Hz in E1 by done.
  destruct (at_place (of_node ts (producer e))) as [|[]|[]| | | | | |]; simpl in *; try done; lia.
Qed.

Lemma consumer_ends : at_place (of_node ts n) = Looping -> nr_in (gnode gr0 n) <> 0 -> over gr0 b n ->
  goes_well d ts log n.
Proof.
  intros Ep Hsrc Hover. pose proof (in_thread _ _ _ Hinv n Hn) as Hok. destruct Hok as [Ha Ht Hnd Hi _ Ho].
  pose proof (over_done Hsrc Hover) as Hdone. unfold taken in Hdone.
  unfold goes_well, turn. rewrite Ep in *. destruct (Hnd ltac:(done)) as [En Es]. rewrite (proj2 (Z.eqb_neq _ _) Hsrc) in Es.
  rewrite basic_head. rewrite Es, En. simpl negb. cbv iota.
  destruct (wait_ends_shown gr0 Hrelay rounds fuel g (lib d) b n Hb (inv_roomy _ _ _ Hinv) Hn Hsrc Hover) as (s' & E & Hs').
  erewrite bind_step by (apply lib_call_ok, E). cbv beta. do 3 eexists. split; [done|].
  split; [done| |by rewrite Ep|done|].
  - eexists. split; [exact Hs'|]. apply (inv_update b); simpl; rewrite ?Ep; try done; try lia.
    + split; simpl; try done; [|lia]. intros _. rewrite En, Es. split; [done|]. by rewrite (proj2 (Z.eqb_neq _ _) Hsrc).
    + intros q e Hq He. unfold taken. simpl. rewrite Ep. repeat case_decide; lia.
    + unfold taken. simpl. rewrite Ep. lia.
    + intros q Hq. apply (told_announced b (announce gr0 n b)); try done; [apply (in_told _ _ _ Hinv)|apply (in_length _ _ _ Hinv)|by rewrite Ep].
    + printed Ep.
  - unfold cost. simpl. rewrite Ep. lia.
Qed.

Lemma consumer_sleeps : at_place (of_node ts n) = Looping -> nr_in (gnode gr0 n) <> 0 ->
  ~ served gr0 b n -> ~ over gr0 b n ->
  turn retries fuel junk (basic_program rounds fuel TOTAL_ITERATIONS) (of_node ts n) d = Fault Blocks.
Proof.
  intros Ep Hsrc Hserved Hover. destruct (in_thread _ _ _ Hinv n Hn) as [_ _ Hnd _ _ _].
  unfold turn. rewrite Ep in *. destruct (Hnd ltac:(done)) as [En Es]. rewrite (proj2 (Z.eqb_neq _ _) Hsrc) in Es.
  rewrite basic_head. rewrite Es, En. simpl negb. cbv iota. apply bind_fault. unfold lib_call.
  by rewrite (wait_sleeps_shown gr0 Hrelay rounds fuel g (lib d) b n Hb (inv_roomy _ _ _ Hinv) Hn Hsrc Hserved Hover).
Qed.

(** Every turn of a thread that is not at a barrier. *)
Lemma any_turn :
  working (at_place (of_node ts n)) = true ->
  goes_well d ts log n \/
  (at_place (of_node ts n) = Looping /\ nr_in (gnode gr0 n) <> 0 /\ ~ served gr0 b n /\ ~ over gr0 b n /\
   turn retries fuel junk (basic_program rounds fuel TOTAL_ITERATIONS) (of_node ts n) d = Fault Blocks).
Proof.
  destruct (at_place (of_node ts n)) eqn:Ep; intros Hpl; try done;
    [left; by apply enter_turn | left; by apply started_turn | | left; by apply complete_turn
    | left; by apply terminate_turn | left; by apply leave_turn].
  destruct (decide (nr_in (gnode gr0 n) = 0)) as [Hz|Hne]; [left; by apply source_turn|].
  destruct (decide (Forall (fun e => 1 <= pend b e) (in_list (gnode gr0 n)))) as [Hs|Hs]; rewrite Forall_forall in Hs;
    [left; by apply consumer_fires|].
  destruct (decide (Forall (fun e => pend b e = 0) (in_list (gnode gr0 n)) /\ ended b n = nr_in (gnode gr0 n))) as [Ho|Ho];
    rewrite Forall_forall in Ho; [left; by apply consumer_ends|].
  right. split_and!; try done. by apply consumer_sleeps.
Qed.

End OneTurn.

(** ** The threads together *)

Record sys_inv (y : system W unit) : Prop := {
  si_errors : errors (prog y) = 0;
  si_inv : exists b, showing gr0 g (lib (prog y)) b /\ inv b (threads y) (stdout y);
  si_step : in_step (threads y)
}.

Lemma sys_length y : sys_inv y -> Z.of_nat (List.length (threads y)) = nr_nodes gr0.
Proof. intros [_ (b & _ & Hi) _]. apply (in_length _ _ _ Hi). Qed.

(** Thread [i] is the thread of node [i]. *)
Lemma node_of_index y i t :
  sys_inv y -> threads y !! i = Some t ->
  exists n, is_node gr0 n /\ i = Z.to_nat n /\ t = of_node (threads y) n.
Proof.
  intros Hy Ht. pose proof (sys_length y Hy). apply lookup_lt_Some in Ht as Hlt.
  exists (Z.of_nat i). unfold is_node, of_node. rewrite Nat2Z.id, Ht. split_and!; [lia..|done|done].
Qed.

(** A turn keeps the threads between their barriers. *)
Lemma in_step_turn ts n t' :
  Z.of_nat (List.length ts) = nr_nodes gr0 -> is_node gr0 n -> in_step ts ->
  part (at_place t') = part (at_place (of_node ts n)) -> asleep t' = false ->
  in_step (<[Z.to_nat n := t']> ts).
Proof.
  intros Hlen Hn (k & Hk & _) Hp Ha. exists k. unfold is_node in *. split.
  - intros m Hm. rewrite of_node_insert by lia. case_decide; [|by apply Hk]. rewrite Hp. by apply Hk.
  - intros _. exists n. split; [done|]. rewrite of_node_insert by lia. by rewrite decide_True.
Qed.

Lemma turn_step y n :
  sys_inv y -> is_node gr0 n -> goes_well (prog y) (threads y) (stdout y) n ->
  working (at_place (of_node (threads y) n)) = true ->
  exists y', advance retries fuel junk (nr_nodes gr0) (basic_program rounds fuel TOTAL_ITERATIONS) (Z.to_nat n) y = Ok (Some y') /\ sys_inv y' /\ (total TOTAL_ITERATIONS (threads y') < total TOTAL_ITERATIONS (threads y))%nat.
Proof.
  intros Hy Hn (t' & out & d' & E & [He Hi Hp Ha Hc]) Hpl. pose proof (sys_length y Hy) as Hlen.
  pose proof Hn as Hr. unfold is_node in Hr.
  pose proof (of_node_lookup (threads y) n ltac:(lia)) as El.
  eexists. split; [|split].
  - unfold advance. rewrite El, E. by destruct (at_place (of_node (threads y) n)).
  - split; [done|done|]. simpl. apply in_step_turn; try done. apply (si_step _ Hy).
  - simpl. pose proof (sum_insert (cost TOTAL_ITERATIONS) (threads y) (Z.to_nat n) _ t' El). unfold total. lia.
Qed.

(** Everybody else sleeps when the last thread arrives. *)
Lemma last_to_arrive (ts : list (thread unit)) i t t' :
  ts !! i = Some t -> asleep t = false -> asleep t' = true ->
  (sleepers ts + 1 = Z.of_nat (List.length ts) <-> forall j u, <[i := t']> ts !! j = Some u -> asleep u = true).
Proof.
  intros Hi Ht Ht'. pose proof (filter_insert_length (fun t => asleep t = true) ts i t t' Hi) as Hc.
  rewrite decide_False, decide_True in Hc by congruence. unfold sleepers. split.
  - intros E j u Hj. apply (filter_length_all (fun t => asleep t = true) (<[i := t']> ts)).
    + rewrite length_insert. lia.
    + by eapply list_elem_of_lookup_2.
  - intros Hall. rewrite (list_filter_iff_in _ (fun _ => True)) in Hc.
    + rewrite filter_true, length_insert in Hc. lia.
    + intros x (j & Hj)%list_elem_of_lookup. split; [done|]. intros _. by eapply Hall.
Qed.

Lemma inv_barrier b ts log n last p :
  inv b ts log -> is_node gr0 n -> at_place (of_node ts n) = AtBarrier last ->
  p = Asleep last \/ p = past_barrier last ->
  inv b (<[Z.to_nat n := (of_node ts n) <| at_place := p |>]> ts) log.
Proof.
  intros Hi Hn Ep Hp. rewrite <- (app_nil_r log). pose proof (in_thread _ _ _ Hi n Hn) as Hok.
  pose proof (to_place _ _ _ Hok) as Hpl. rewrite Ep in Hpl.
  assert (Et : told p = told (AtBarrier last) /\ holds_node p = true /\ p <> Completing /\ p <> Terminating)
    by (destruct Hp as [->| ->]; by destruct last). destruct Et as (Et & Eh & Ec & Eq).
  apply (inv_local b); try done; simpl; rewrite ?Ep; try done.
  - apply thread_ok_place; rewrite ?Ep; try done. by destruct Hp as [->| ->], last.
  - unfold taken. simpl. rewrite Ep. by destruct p.
  - unfold own_lines, taken, has_quit. simpl. rewrite Ep. split_and!; [|by destruct Hp as [->| ->], last|done].
    destruct p; unfold lines; simpl; done || lia.
Qed.

(** The thread goes to sleep: another one is awake. *)
Lemma in_step_asleep ts n last :
  Z.of_nat (List.length ts) = nr_nodes gr0 -> is_node gr0 n -> in_step ts ->
  at_place (of_node ts n) = AtBarrier last -> sleepers ts + 1 <> nr_nodes gr0 ->
  in_step (<[Z.to_nat n := (of_node ts n) <| at_place := Asleep last |>]> ts).
Proof.
  intros Hlen Hn (k & Hk & _) Ep Hs. pose proof Hn as Hr. unfold is_node in Hr.
  pose proof (of_node_lookup ts n ltac:(lia)) as El. set (t' := (of_node ts n) <| at_place := Asleep last |>).
  exists k. split.
  - intros m Hm. unfold is_node in Hm. rewrite of_node_insert by lia. case_decide; [|by apply Hk].
    rewrite <- (Hk n Hn), Ep. by destruct last.
  - intros _. destruct (decide (Forall (fun t => asleep t = true) (<[Z.to_nat n := t']> ts))) as [Hall|Hne].
    + exfalso. apply Hs. rewrite <- Hlen. apply (last_to_arrive ts _ _ t' El); [|done|].
      * unfold asleep. by rewrite Ep.
      * intros j u Hj. rewrite Forall_lookup in Hall. by eapply Hall.
    + apply not_Forall_Exists in Hne; [|apply _]. apply Exists_exists in Hne as (u & (j & Hj)%list_elem_of_lookup & Hu).
      apply lookup_lt_Some in Hj as Hlt. rewrite length_insert in Hlt. exists (Z.of_nat j).
      unfold is_node, of_node. rewrite Nat2Z.id, Hj. split; [lia|]. simpl. destruct (asleep u) eqn:Eu; [by destruct Hu|done].
Qed.

(** The last thread wakes the others. *)
Lemma in_step_woken ts n last :
  Z.of_nat (List.length ts) = nr_nodes gr0 -> is_node gr0 n -> in_step ts ->
  at_place (of_node ts n) = AtBarrier last -> sleepers ts + 1 = nr_nodes gr0 ->
  in_step (awaken <$> <[Z.to_nat n := (of_node ts n) <| at_place := past_barrier last |>]> ts).
Proof.
  intros Hlen Hn (k & Hk & _) Ep Hs. pose proof Hn as Hr. unfold is_node in Hr.
  pose proof (of_node_lookup ts n ltac:(lia)) as El. rewrite <- Hlen in Hs.
  assert (Ha : asleep (of_node ts n) = false) by (unfold asleep; by rewrite Ep).
  rewrite (last_to_arrive ts _ _ ((of_node ts n) <| at_place := Asleep last |>) El Ha) in Hs by done.
  assert (Hall : forall m, is_node gr0 m ->
    at_place (of_node (awaken <$> <[Z.to_nat n := (of_node ts n) <| at_place := past_barrier last |>]> ts) m) = past_barrier last).
  { intros m Hm. unfold is_node in Hm. rewrite of_node_awaken, of_node_insert by (rewrite ?length_insert; lia).
    case_decide as E; [by destruct last|]. pose proof (of_node_lookup ts m ltac:(lia)) as Em.
    specialize (Hs (Z.to_nat m) (of_node ts m) ltac:(rewrite list_lookup_insert_ne by lia; done)).
    pose proof (Hk n Hn) as H1. pose proof (Hk m Hm) as H2. rewrite Ep in H1. unfold asleep in Hs. unfold awaken.
    destruct (at_place (of_node ts m)) as [| |l| | | | | |] eqn:Em'; try done. simpl.
    destruct l, last; simpl in *; congruence. }
  exists (part (past_barrier last)). split; [intros m Hm; by rewrite Hall|].
  intros _. exists n. split; [done|]. unfold asleep. rewrite Hall by done. by destruct last.
Qed.

Lemma barrier_step y n last :
  sys_inv y -> is_node gr0 n -> at_place (of_node (threads y) n) = AtBarrier last ->
  let ts' := barrier_wait (nr_nodes gr0) (Z.to_nat n) (of_node (threads y) n) last (threads y) in
  sys_inv (y <| threads := ts' |>) /\ (total TOTAL_ITERATIONS ts' < total TOTAL_ITERATIONS (threads y))%nat.
Proof.
  intros Hy Hn Ep ts'. pose proof (sys_length y Hy) as Hlen. pose proof Hn as Hr. unfold is_node in Hr.
  pose proof (of_node_lookup (threads y) n ltac:(lia)) as El. destruct Hy as [He (b & Hb & Hi) Hst].
  subst ts'. unfold barrier_wait. destruct (Z.eqb_spec (sleepers (threads y) + 1) (nr_nodes gr0)) as [E|E].
  - split.
    + split; [done| |by apply in_step_woken]. exists b. split; [done|]. apply inv_awaken, (inv_barrier _ _ _ _ last); auto.
    + set (t' := (of_node (threads y) n) <| at_place := past_barrier last |>).
      pose proof (sum_insert (cost TOTAL_ITERATIONS) (threads y) (Z.to_nat n) _ t' El) as Hs.
      pose proof (sum_fmap_le (cost TOTAL_ITERATIONS) awaken (<[Z.to_nat n := t']> (threads y)) (awaken_cost TOTAL_ITERATIONS)). unfold total.
      assert (cost TOTAL_ITERATIONS t' < cost TOTAL_ITERATIONS (of_node (threads y) n))%nat; [|lia].
      unfold cost, t'. simpl. rewrite Ep. destruct last; simpl; lia.
  - split.
    + split; [done| |by apply in_step_asleep]. exists b. split; [done|]. apply (inv_barrier _ _ _ _ last); auto.
    + set (t' := (of_node (threads y) n) <| at_place := Asleep last |>).
      pose proof (sum_insert (cost TOTAL_ITERATIONS) (threads y) (Z.to_nat n) _ t' El) as Hs. unfold total.
      assert (cost TOTAL_ITERATIONS t' < cost TOTAL_ITERATIONS (of_node (threads y) n))%nat; [|lia].
      unfold cost, t'. simpl. rewrite Ep. destruct last; simpl; lia.
Qed.

(** What a thread's turn can come to: it misses it, it moves, or its [pgm_wait]
    blocks. *)
Lemma advance_cases y i :
  sys_inv y ->
  match advance retries fuel junk (nr_nodes gr0) (basic_program rounds fuel TOTAL_ITERATIONS) i y with
  | Ok None => True
  | Ok (Some y') => sys_inv y' /\ (total TOTAL_ITERATIONS (threads y') < total TOTAL_ITERATIONS (threads y))%nat
  | Fault f => f = Blocks
  end.
Proof.
  intros Hy. destruct (threads y !! i) as [t|] eqn:Et; [|unfold advance; by rewrite Et].
  destruct (node_of_index y i t Hy Et) as (n & Hn & -> & ->).
  pose proof Hy as [He (b & Hb & Hi) _].
  destruct (working (at_place (of_node (threads y) n))) eqn:Ew.
  - destruct (any_turn (prog y) b (threads y) (stdout y) n Hb He Hi Hn Ew) as [Hwell|(Ep & _ & _ & _ & E)].
    + by destruct (turn_step y n Hy Hn Hwell Ew) as (y' & -> & ?).
    + unfold advance. by rewrite Et, Ep, E.
  - unfold advance. rewrite Et. destruct (at_place (of_node (threads y) n)) as [|last| | | | | | |] eqn:Ep; try done.
    by apply barrier_step.
Qed.

Lemma step_keeps y y' :
  sys_inv y -> step retries fuel junk (nr_nodes gr0) (basic_program rounds fuel TOTAL_ITERATIONS) y y' ->
  sys_inv y' /\ (total TOTAL_ITERATIONS (threads y') < total TOTAL_ITERATIONS (threads y))%nat.
Proof. intros Hy [i E]. pose proof (advance_cases y i Hy) as Hc. by rewrite E in Hc. Qed.

(** ** Progress *)

Definition can_step (y : system W unit) : Prop :=
  exists y', step retries fuel junk (nr_nodes gr0) (basic_program rounds fuel TOTAL_ITERATIONS) y y'.

(** A thread that need not wait for anybody. *)
Definition movable (t : thread unit) : bool :=
  match at_place t with Asleep _ | Looping | Gone => false | _ => true end.

Lemma movable_steps y n :
  sys_inv y -> is_node gr0 n -> movable (of_node (threads y) n) = true -> can_step y.
Proof.
  intros Hy Hn Hm. pose proof Hy as [He (b & Hb & Hi) _]. pose proof (sys_length y Hy). unfold movable in Hm.
  destruct (working (at_place (of_node (threads y) n))) eqn:Ew.
  - destruct (any_turn (prog y) b (threads y) (stdout y) n Hb He Hi Hn Ew) as [Hwell|(Ep & _)]; [|by rewrite Ep in Hm].
    destruct (turn_step y n Hy Hn Hwell Ew) as (y' & E & _). exists y'. by exists (Z.to_nat n).
  - unfold is_node in Hn. pose proof (of_node_lookup (threads y) n ltac:(lia)) as El.
    destruct (at_place (of_node (threads y) n)) as [|last| | | | | | |] eqn:Ep; try done.
    eexists. exists (Z.to_nat n). unfold advance. by rewrite El, Ep.
Qed.

(** When everybody else is done or at the head of the loop, the first node in
    topological order that is at the head of the loop can go on. *)
Lemma looping_steps y n :
  sys_inv y -> is_node gr0 n -> at_place (of_node (threads y) n) = Looping ->
  (forall m, is_node gr0 m -> at_place (of_node (threads y) m) = Looping \/ at_place (of_node (threads y) m) = Asleep true) ->
  can_step y.
Proof.
  intros Hy Hn Ep Hall. pose proof Hy as [He (b & Hb & Hi) _]. remember (rank n) as r eqn:Er.
  revert n Hn Ep Er. induction r as [r IH] using lt_wf_ind. intros n Hn Ep Er.
  destruct (any_turn (prog y) b (threads y) (stdout y) n Hb He Hi Hn) as [Hwell|(_ & Hne & Hns & Hno & _)]; [by rewrite Ep| |].
  { destruct (turn_step y n Hy Hn Hwell) as (y' & E & _); [by rewrite Ep|]. exists y'. by exists (Z.to_nat n). }
  destruct (decide (Exists (fun e => at_place (of_node (threads y) (producer e)) = Looping) (in_list (gnode gr0 n))))
    as [(e & Hin & Hl)%Exists_exists|Hnone].
  { destruct (producer_node n e Hn Hin) as [Hp _]. apply (IH (rank (producer e))) with (producer e); try done.
    subst r. by apply Hrank. }
  exfalso.
  assert (Hdone : forall e, e ∈ in_list (gnode gr0 n) ->
    told (at_place (of_node (threads y) (producer e))) = true /\ pend b e = rounds_due TOTAL_ITERATIONS - iterations (of_node (threads y) n)).
  { intros e Hin. destruct (producer_node n e Hn Hin) as [Hp _]. destruct (Hall _ Hp) as [Hl|Hl].
    - destruct Hnone. apply Exists_exists. by exists e.
    - rewrite Hl. destruct (in_edge _ _ _ Hi n e Hn Hin) as [-> _]. unfold taken. rewrite Ep.
      pose proof (to_place _ _ _ (in_thread _ _ _ Hi _ Hp)) as Hpl. rewrite Hl in Hpl. split; [done|lia]. }
  destruct (decide (iterations (of_node (threads y) n) < rounds_due TOTAL_ITERATIONS)) as [Hlt|Hge].
  - apply Hns. intros e Hin. destruct (Hdone e Hin) as [_ ->]. lia.
  - apply Hno. pose proof (to_iter _ _ _ (in_thread _ _ _ Hi n Hn)). split.
    + intros e Hin. destruct (Hdone e Hin) as [_ ->]. lia.
    + rewrite (in_told _ _ _ Hi n Hn), <- (length_in gr0 Hrelay n Hn). unfold told_edges.
      rewrite (list_filter_iff_in _ (fun _ => True)), filter_true; [done|]. intros e Hin. by destruct (Hdone e Hin).
Qed.

Lemma never_stuck y :
  sys_inv y -> (forall n, is_node gr0 n -> at_place (of_node (threads y) n) = Gone) \/ can_step y.
Proof.
  intros Hy. pose proof Hy as [_ _ (k & Hk & Haw)]. pose proof (sys_length y Hy) as Hlen.
  destruct (decide (Exists (fun t => movable t = true) (threads y))) as [(t & (i & Hi)%list_elem_of_lookup & Ht)%Exists_exists|Hno].
  { right. destruct (node_of_index y i t Hy Hi) as (n & Hn & _ & ->). by apply (movable_steps y n). }
  assert (Hm : forall n, is_node gr0 n -> movable (of_node (threads y) n) = false).
  { intros n Hn. destruct (movable _) eqn:Em; [|done]. destruct Hno. apply Exists_exists.
    exists (of_node (threads y) n). split; [|done]. unfold is_node in Hn.
    apply (list_elem_of_lookup_2 _ (Z.to_nat n)), of_node_lookup. lia. }
  unfold movable in Hm. destruct (decide (k < 2)%nat) as [Hlt|Hge].
  - right. destruct (Haw Hlt) as (n & Hn & Ha). unfold asleep in Ha.
    specialize (Hm n Hn) as Hmn. specialize (Hk n Hn) as Hkn.
    destruct (at_place (of_node (threads y) n)) eqn:Ep; try done; simpl in Hkn; [|lia].
    apply (looping_steps y n Hy Hn Ep). intros m Hm'. specialize (Hm m Hm'). specialize (Hk m Hm'). subst k.
    destruct (at_place (of_node (threads y) m)) as [| |[]| | | | | |]; auto; done.
  - left. intros n Hn. specialize (Hm n Hn). specialize (Hk n Hn).
    destruct (at_place (of_node (threads y) n)) as [| |[]| | | | | |]; simpl in Hk; done || lia.
Qed.

End Turns.

End Relay.

(** ** The runs *)

Section Runs.
Context {W : Type} `{Syscalls W} (retries rounds fuel : nat) (junk : node_t).
Implicit Types (y : system W unit).

(** The threads of an acyclic graph of single-token edges that nobody has used,
    before their first statement. *)
Record at_start (gr : pgm_graph) (g : Z) y : Prop := {
  st_graph : has_graph (lib (prog y)) g gr;
  st_relay : relay gr;
  st_acyclic : exists rank : Z -> nat, forall q e, is_node gr q -> e ∈ in_list (gnode gr q) ->
    (rank (e_producer (gedge gr e)) < rank q)%nat;
  st_edges : forall q e, is_node gr q -> e ∈ in_list (gnode gr q) -> nr_pending (gedge gr e) = 0;
  st_nodes : forall n, is_node gr n ->
    nr_terminate_signals (gnode gr n) = 0 /\ owner (gnode gr n) = UNCLAIMED_NODE;
  st_size : 0 < nr_nodes gr <= 27;
  st_errors : errors (prog y) = 0;
  st_stdout : stdout y = [];
  st_length : Z.of_nat (List.length (threads y)) = nr_nodes gr;
  st_threads : forall n, is_node gr n -> exists tid, tid <> 0 /\ tid <> UNCLAIMED_NODE /\
    of_node (threads y) n = new_thread junk tt tid (This (Node_t g n))
}.

(** The graph as nobody has touched it yet. *)
Definition fresh_board (gr : pgm_graph) : board :=
  Brd (fun e => nr_pending (gedge gr e)) (fun i => nr_terminate_signals (gnode gr i)) (fun i => owner (gnode gr i)).

Lemma fresh_shows gr : shows gr (fresh_board gr) gr.
Proof. split; [by destruct gr|intros e; simpl; by destruct (gedge gr e)|intros i; simpl; by destruct (gnode gr i)]. Qed.

Lemma at_start_inv gr g TOTAL_ITERATIONS y :
  at_start gr g y -> 0 <= TOTAL_ITERATIONS -> sys_inv gr g TOTAL_ITERATIONS y.
Proof.
  intros [Hg Hr _ He Hn Hs Herr Hout Hlen Ht] HT. split; [done| |].
  - exists (fresh_board gr). split; [exists gr; split; [done|apply fresh_shows]|]. split; [done| | | |].
    + intros n Hn'. destruct (Ht n Hn') as (tid & H0 & H1 & ->). destruct (Hn n Hn') as [_ Ho].
      split; simpl; try done. unfold rounds_due. lia.
    + intros q e Hq Hin. destruct (producer_node gr Hr q e Hq Hin) as [Hp _]. simpl. rewrite (He q e Hq Hin).
      destruct (Ht q Hq) as (? & _ & _ & ->). by destruct (Ht _ Hp) as (? & _ & _ & ->).
    + intros q Hq. simpl. destruct (Hn q Hq) as [-> _]. unfold told_edges.
      rewrite (list_filter_iff_in _ (fun _ => False)); [by rewrite filter_false|]. intros e Hin.
      destruct (producer_node gr Hr q e Hq Hin) as [Hp _]. by destruct (Ht _ Hp) as (? & _ & _ & ->).
    + intros n Hn'. rewrite Hout. by destruct (Ht n Hn') as (? & _ & _ & ->).
  - exists 0%nat. split.
    + intros n Hn'. by destruct (Ht n Hn') as (? & _ & _ & ->).
    + intros _. exists 0. assert (H0 : is_node gr 0) by (unfold is_node; lia). split; [done|].
      by destruct (Ht 0 H0) as (? & _ & _ & ->).
Qed.

(** Reachable states satisfy the invariant, and every step costs something. *)
Lemma runs_inv gr g TOTAL_ITERATIONS k y0 y :
  at_start gr g y0 -> 0 <= TOTAL_ITERATIONS < 2 ^ 31 - 1 ->
  nsteps (step retries fuel junk (nr_nodes gr) (basic_program rounds fuel TOTAL_ITERATIONS)) k y0 y ->
  sys_inv gr g TOTAL_ITERATIONS y /\
  (k + total TOTAL_ITERATIONS (threads y) <= total TOTAL_ITERATIONS (threads y0))%nat.
Proof.
  intros Hst HT Hsteps. pose proof Hst as [_ Hr (rank & Hrank) _ _ [_ Hsize] _ _ _ _].
  pose proof (at_start_inv gr g _ y0 Hst (proj1 HT)) as Hy. clear Hst.
  induction Hsteps as [y|k y0 y1 y Hstep _ IH]; [auto|].
  destruct (step_keeps gr g TOTAL_ITERATIONS Hr HT rank Hrank retries rounds fuel junk Hsize y0 y1 Hy Hstep) as [Hy1 Hlt].
  destruct (IH Hy1) as [Hi Hle]. split; [done|lia].
Qed.

Lemma start_total gr g TOTAL_ITERATIONS y :
  at_start gr g y -> 0 <= TOTAL_ITERATIONS ->
  Z.of_nat (total TOTAL_ITERATIONS (threads y)) = nr_nodes gr * (2 * (TOTAL_ITERATIONS + 1) + 9).
Proof.
  intros [_ _ _ _ _ _ _ _ Hlen Ht] HT. unfold total.
  rewrite <- Hlen. assert (Hc : forall t, t ∈ threads y -> cost TOTAL_ITERATIONS t = Z.to_nat (2 * (TOTAL_ITERATIONS + 1) + 9)).
  { intros t (i & Hi)%list_elem_of_lookup. apply lookup_lt_Some in Hi as Hlt.
    destruct (Ht (Z.of_nat i)) as (tid & _ & _ & E); [unfold is_node; lia|].
    unfold of_node in E. rewrite Nat2Z.id, Hi in E. simpl in E. subst t. unfold cost, rounds_due. simpl. lia. }
  induction (threads y) as [|t ts IH] in Hc |- *; [done|]. cbn [sum_list_with List.length].
  rewrite Nat2Z.inj_add, IH by (intros; apply Hc; by constructor). rewrite (Hc t) by constructor. lia.
Qed.

(** C10. The threads of a test program, one per node and each given its node, on an
    acyclic graph of 1 to 27 nodes ([tabbuf] has no room for more) in which every edge
    is a forward condition-variable edge with produce, consume and threshold 1; at the
    start no node is claimed and no token is anywhere, the barrier is for all the
    threads, and the sources fire [TOTAL_ITERATIONS + 1] times, an [int].  In any
    interleaving of their calls and at any moment: no call of the library has failed,
    no thread's next turn does anything undefined (it can only sleep in [pgm_wait]), no
    node has fired more often than one of its predecessors, and none more often than a
    source does. *)
Theorem relay_runs_safely gr g TOTAL_ITERATIONS y0 y :
  at_start gr g y0 -> 0 <= TOTAL_ITERATIONS < 2 ^ 31 - 1 ->
  rtc (step retries fuel junk (nr_nodes gr) (basic_program rounds fuel TOTAL_ITERATIONS)) y0 y ->
  errors (prog y) = 0 /\
  (forall i f, advance retries fuel junk (nr_nodes gr) (basic_program rounds fuel TOTAL_ITERATIONS) i y = Fault f -> f = Blocks) /\
  forall q, is_node gr q -> lines (Fires q) (stdout y) <= TOTAL_ITERATIONS + 1 /\
    forall e, e ∈ in_list (gnode gr q) ->
      lines (Fires q) (stdout y) <= lines (Fires (e_producer (gedge gr e))) (stdout y).
Proof.
  intros Hst HT [k Hk]%rtc_nsteps. destruct (runs_inv _ _ _ _ _ _ Hst HT Hk) as [Hy _].
  pose proof Hst as [_ Hr (rank & Hrank) _ _ [_ Hsize] _ _ _ _]. pose proof Hy as [He (b & Hb & Hi) _].
  split; [done|]. split.
  - intros i f E.
    pose proof (advance_cases gr g TOTAL_ITERATIONS Hr HT rank Hrank retries rounds fuel junk Hsize y i Hy) as Hc.
    by rewrite E in Hc.
  - intros q Hq. destruct (in_log _ _ _ _ _ _ Hi q Hq) as [-> _]. split.
    + apply (taken_bounds gr g TOTAL_ITERATIONS b q), (in_thread _ _ _ _ _ _ Hi q Hq).
    + intros e Hin. destruct (producer_node gr Hr q e Hq Hin) as [Hp _]. fold (producer gr e).
      destruct (in_log _ _ _ _ _ _ Hi _ Hp) as [-> _]. destruct (in_edge _ _ _ _ _ _ Hi q e Hq Hin) as [E H0].
      unfold taken at 2. destruct (at_place (of_node (threads y) (producer gr e))); lia.
Qed.

(** C9. The threads of a test program on an acyclic graph of 1 to 27 nodes, all of
    whose edges are forward condition-variable edges with produce, consume and
    threshold 1, with one thread per node, a barrier for all of them, no node claimed
    and no token anywhere: all threads end.  In any interleaving a run has at most
    [nodes * (2 * (TOTAL_ITERATIONS + 1) + 9)] turns; and when no thread can take one
    any more, all have left, every node has fired exactly as often as the sources did
    and terminated once, no error was counted, every node is released and no token is
    left on any edge. *)
Theorem relay_runs_end gr g TOTAL_ITERATIONS k y0 y :
  at_start gr g y0 -> 0 <= TOTAL_ITERATIONS < 2 ^ 31 - 1 ->
  nsteps (step retries fuel junk (nr_nodes gr) (basic_program rounds fuel TOTAL_ITERATIONS)) k y0 y ->
  Z.of_nat k <= nr_nodes gr * (2 * (TOTAL_ITERATIONS + 1) + 9) /\
  (~ (exists y', step retries fuel junk (nr_nodes gr) (basic_program rounds fuel TOTAL_ITERATIONS) y y') ->
   errors (prog y) = 0 /\
   (forall t, t ∈ threads y -> at_place t = Gone) /\
   (forall n, is_node gr n ->
      lines (Fires n) (stdout y) = TOTAL_ITERATIONS + 1 /\ lines (Terminates n) (stdout y) = 1) /\
   exists gr', has_graph (lib (prog y)) g gr' /\ graph_wf gr' /\
     (forall n, is_node gr n -> owner (gnode gr' n) = UNCLAIMED_NODE) /\
     (forall q e, is_node gr q -> e ∈ in_list (gnode gr q) -> nr_pending (gedge gr' e) = 0)).
Proof.
  intros Hst HT Hk. destruct (runs_inv _ _ _ _ _ _ Hst HT Hk) as [Hy Hle].
  pose proof (start_total _ _ _ _ Hst (proj1 HT)). split; [lia|]. intros Hno.
  pose proof Hst as [_ Hr (rank & Hrank) _ _ [_ Hsize] _ _ _ _].
  destruct (never_stuck gr g TOTAL_ITERATIONS Hr HT rank Hrank retries rounds fuel junk Hsize y Hy) as [Hgone|Hcan];
    [|by destruct Hno].
  pose proof Hy as [He (b & (gr' & Hg & Hs) & Hi) _].
  assert (Hit : forall n, is_node gr n -> iterations (of_node (threads y) n) = TOTAL_ITERATIONS + 1).
  { intros n Hn. pose proof (to_place _ _ _ _ _ _ (in_thread _ _ _ _ _ _ Hi n Hn)) as Hp. by rewrite Hgone in Hp. }
  split; [done|]. split_and!.
  - intros t (i & Ht)%list_elem_of_lookup. destruct (node_of_index gr g _ y i t Hy Ht) as (n & Hn & _ & ->). auto.
  - intros n Hn. destruct (in_log _ _ _ _ _ _ Hi n Hn) as [-> ->]. unfold taken, has_quit.
    rewrite Hgone, Hit by done. split; [lia|done].
  - exists gr'. split; [done|]. split; [apply (rl_wf _ (shows_relay gr Hr b gr' Hs))|]. split.
    + intros n Hn. rewrite (sh_node _ _ _ Hs). simpl. rewrite (to_owner _ _ _ _ _ _ (in_thread _ _ _ _ _ _ Hi n Hn)).
      by rewrite Hgone.
    + intros q e Hq Hin. destruct (producer_node gr Hr q e Hq Hin) as [Hp _]. rewrite (sh_edge _ _ _ Hs). simpl.
      destruct (in_edge _ _ _ _ _ _ Hi q e Hq Hin) as [-> _]. unfold taken.
      rewrite (Hgone q), !Hit by done. lia.
Qed.

End Runs.

(** ** Schedules *)

Lemma sched_steps {W D} `{Syscalls W} retries fuel junk count (P : program W D) sched (y y' : system W D) :
  run retries fuel junk count P sched y = Ok y' ->
  rtc (step retries fuel junk count P) y y'.
Proof.
  revert y. induction sched as [|i sched IH]; intros y; simpl; [intros [= ->]; constructor|].
  destruct (advance _ _ _ _ _ i y) as [[y1|]|[]] eqn:E; try done; intros Hr; try by apply IH.
  eapply rtc_l; [by exists i|by apply IH].
Qed.

Lemma gone_stops {W D} `{Syscalls W} retries fuel junk count (P : program W D) (y : system W D) :
  forallb (fun t => bool_decide (at_place t = Gone)) (threads y) = true ->
  ~ exists y', step retries fuel junk count P y y'.
Proof.
  rewrite forallb_forall. intros Hg (y' & i & E). unfold advance in E.
  destruct (threads y !! i) as [t|] eqn:Et; [|done]. apply list_elem_of_lookup_2, list_elem_of_In, Hg in Et.
  apply bool_decide_eq_true in Et. by rewrite Et in E.
Qed.

(** Two nodes in a row, each with its thread, and a schedule that takes turns. *)
Definition chain_system : system Z unit :=
  System (Driver (demo_state demo_chain) 0)
    [new_thread (Node_t 0 0) tt 101 (This (Node_t 0 0)); new_thread (Node_t 0 0) tt 102 (This (Node_t 0 1))] [].

Definition chain_sched : list nat := concat (replicate 15 [0; 1]%nat).

Lemma chain_relay : relay demo_chain.
Proof.
  assert (Hc : forall n, is_node demo_chain n -> n = 0 \/ n = 1)
    by (intros n [Hc Hc']; change (nr_nodes demo_chain) with 2 in Hc'; lia).
  split; [done|done|apply demo_chain_wf| |].
  - intros c [->| ->]%Hc; vm_compute; reflexivity.
  - assert (E : in_list (gnode demo_chain 0) = [] /\ in_list (gnode demo_chain 1) = [0]) by (vm_compute; done).
    destruct E as [E0 E1]. intros n e [->| ->]%Hc; rewrite ?E0, ?E1; [intros []%elem_of_nil|].
    intros ->%list_elem_of_singleton. split; try (vm_compute; reflexivity). split; vm_compute; reflexivity.
Qed.

Lemma chain_at_start : at_start (Node_t 0 0) demo_chain 0 chain_system.
Proof.
  assert (Hc : forall n, is_node demo_chain n -> n = 0 \/ n = 1)
    by (intros n [Hc Hc']; change (nr_nodes demo_chain) with 2 in Hc'; lia).
  assert (E : in_list (gnode demo_chain 0) = [] /\ in_list (gnode demo_chain 1) = [0]) by (vm_compute; done).
  destruct E as [E0 E1]. split; try done.
  - by apply demo_usable.
  - apply chain_relay.
  - exists Z.to_nat. intros q e [->| ->]%Hc; rewrite ?E0, ?E1; [intros []%elem_of_nil|].
    intros ->%list_elem_of_singleton. vm_compute. lia.
  - intros q e [->| ->]%Hc; rewrite ?E0, ?E1; [intros []%elem_of_nil|].
    intros ->%list_elem_of_singleton. vm_compute. reflexivity.
  - intros n [->| ->]%Hc; vm_compute; done.
  - intros n [->| ->]%Hc; eexists; (split; [|split; [|reflexivity]]); done.
Qed.

Lemma relay_runs_safely_witness :
  exists y, run 0 0 (Node_t 0 0) 2 (basic_program 0 0 1) [0; 1; 0; 1; 0; 1; 0; 0]%nat chain_system = Ok y /\
    errors (prog y) = 0 /\ lines (Fires 1) (stdout y) <= lines (Fires 0) (stdout y).
Proof.
  destruct (run 0 0 (Node_t 0 0) 2 (basic_program 0 0 1) [0; 1; 0; 1; 0; 1; 0; 0]%nat chain_system) as [y|] eqn:E;
    [|vm_compute in E; discriminate].
  exists y. split; [done|]. apply sched_steps in E.
  destruct (relay_runs_safely 0 0 0 (Node_t 0 0) demo_chain 0 1 chain_system y chain_at_start ltac:(lia) E) as (He & _ & Hq).
  split; [done|]. destruct (Hq 1 ltac:(vm_compute; split; congruence)) as [_ Hf]. apply (Hf 0). vm_compute. constructor.
Defined.

Lemma relay_runs_end_witness :
  exists y, run 0 0 (Node_t 0 0) 2 (basic_program 0 0 1) chain_sched chain_system = Ok y /\ lines (Fires 1) (stdout y) = 2.
Proof.
  destruct (run 0 0 (Node_t 0 0) 2 (basic_program 0 0 1) chain_sched chain_system) as [y|] eqn:E; [|vm_compute in E; discriminate].
  exists y. split; [done|].
  assert (Hg : forallb (fun t => bool_decide (at_place t = Gone)) (threads y) = true)
    by (vm_compute in E; injection E as <-; vm_compute; reflexivity).
  apply sched_steps in E as [k Hk]%rtc_nsteps.
  destruct (relay_runs_end 0 0 0 (Node_t 0 0) demo_chain 0 1 k chain_system y chain_at_start ltac:(lia) Hk) as [_ Hend].
  destruct (Hend (gone_stops _ _ _ _ _ y Hg)) as (_ & _ & Hl & _).
  by apply (Hl 1 ltac:(vm_compute; split; congruence)).
Defined.

(** ** cvtest *)

#[local] Existing Instance Startup.demo_fs.

Definition cvtest_outcome (sched : list nat) : option (list line * Z) :=
  match cvtest (W := Z) 9 9 9 (Node_t 0 0) (Edge_t 0 0) 0 101 102 sched (Driver demo_start 0) with
  | Ok (inr out, d) => Some (out, errors d)
  | _ => None
  end.

(** cvtest as it is written, in a small world of its own.  When its threads take
    turns, both nodes fire five times.  But its barrier counts one thread: when
    the first thread is through before the second has started, the second claims
    node 0 again, node 1 never fires, and no error is counted. *)
Theorem cvtest_runs_one_node :
  cvtest_outcome (concat (replicate 30 [0; 1]%nat)) =
    Some (concat (replicate 5 [Fires 0; Fires 1]) ++ [Terminates 0; Terminates 1], 0) /\
  cvtest_outcome (replicate 20 0%nat ++ replicate 20 1%nat) =
    Some (concat (replicate 2 (replicate 5 (Fires 0) ++ [Terminates 0])), 0).
Proof. vm_compute. done. Qed.

End Relay.
