(* ===== verification/RingTest.v ===== *)
(** * ringtest (tools/ringtest.cpp)

    Two nodes joined by a ring edge: the source sends the numbers from zero on and
    adds up what it sends, the other node adds up what it receives.  In every
    interleaving of the two threads both sums end up the same. *)

From Stdlib Require Import Ascii String.
From S2P Require Import Prelude Ring Types Sys Structure Memory Ipc GraphInit GraphWf Query Search Lookup Ownership Stream Transfer Tokens Firing Ending RingData Startup Teardown Driver Tests Threads.

Module RingTest.
Import Types Sys Structure Memory GraphInit GraphWf Query Search Lookup Ownership Stream Transfer Tokens Firing Ending RingData Startup Driver Tests Threads.
#[local] Open Scope Z_scope.

(** ** Words in memory *)

(** The bytes of an unsigned integer, lowest first, as the machine stores it. *)
Fixpoint le_bytes (n : nat) (v : Z) : list Z :=
  match n with O => [] | S n => v mod 256 :: le_bytes n (v / 256) end.

Fixpoint le_value (bs : list Z) : Z :=
  match bs with [] => 0 | b :: bs => b + 256 * le_value bs end.

Lemma length_le_bytes n v : List.length (le_bytes n v) = n.
Proof. revert v. induction n as [|n IH]; intros v; simpl; [done|]. by rewrite IH. Qed.

Lemma le_value_bytes n v : le_value (le_bytes n v) = v mod 2 ^ (8 * Z.of_nat n).
Proof.
  revert v. induction n as [|n IH]; intros v; [by rewrite Z.mod_1_r|]. cbn [le_bytes le_value]. rewrite IH.
  replace (8 * Z.of_nat (S n)) with (8 + 8 * Z.of_nat n) by lia.
  rewrite Z.pow_add_r by lia. change (2 ^ 8) with 256. rewrite Z.rem_mul_r by lia. lia.
Qed.

Section Code.
Context {W : Type} `{Syscalls W} (retries rounds fuel : nat).

(** [*buf = v] and [*buf] for a [uint32_t*]. *)
Definition put_u32 (buf v : Z) : ST (driver W) unit :=
  if buf =? 0 then fail NullDeref else lib_call (wr_bytes buf (le_bytes 4 v)).
Definition get_u32 (buf : Z) : ST (driver W) Z :=
  if buf =? 0 then fail NullDeref else bs ← lib_call (rd_bytes buf 4); mret (le_value bs).

(** The local variables of a thread. *)
Record ring_data := RData { r_buf : Z; r_sum : Z }.

#[global] Instance ring_data_eta : Eta ring_data := fun v => RData (r_buf v) (r_sum v).

(** [edges[0]] of an array from [calloc(degree, sizeof(edge_t))] that nothing was
    written to. *)
Definition zero_edge (degree : Z) : ST (driver W) edge_t :=
  if 0 <? degree then mret (Edge_t 0 0) else fail OutOfBounds.

Definition ring_setup (node : node_t) (in_degree : Z) : ST (driver W) ring_data :=
  out_degree ← lib_call (pgm_get_degree_out node true);
  buf ← (if in_degree =? 0
         then e ← zero_edge out_degree; lib_call (pgm_get_edge_buf_p e)
         else e ← zero_edge in_degree; lib_call (pgm_get_edge_buf_c e));
  mret (RData buf 0).

Definition ring_body (t : thread ring_data) : ST (driver W) (thread ring_data * list line) :=
  let v := t_data t in
  sum ← (if is_src t
         then put_u32 (r_buf v) (iterations t) ;; mret (wrap64 (r_sum v + iterations t))
         else x ← get_u32 (r_buf v); mret (wrap64 (r_sum v + x)));
  mret (t <| t_data := RData (r_buf v) sum |>, []).

Definition ring_program (TOTAL_ITERATIONS : Z) : program W ring_data :=
  Program ring_setup (head_or_limit rounds fuel TOTAL_ITERATIONS) ring_body
    (fun t => [Sums (nd_node (t_node t)) (r_sum (t_data t))]) (fun _ => mret tt).

Definition ringtest_count : Z := 1.
Definition ringtest_iterations : Z := 10000000.
Definition ring_attr : edge_attr_t := Attr 4 4 4 pgm_ring_edge 32 0 0.

Definition ringtest (junk_node : node_t) (junk_edge : edge_t) (junk_graph : Z) (junk_data : ring_data)
    (TOTAL_ITERATIONS : Z) (tid0 tid1 : Z) (sched : list nat) : DM W (list line) :=
  ret ← call pgm_init_process_local; CheckError ret ;;
  '(ret, g) ← call (pgm_init_graph junk_graph (lit "demo")); CheckError ret ;;
  n0 ← new_node junk_node (pgm_init_node (Some junk_node) g (lit "n0"));
  n1 ← new_node junk_node (pgm_init_node (Some junk_node) g (lit "n1"));
  _ ← new_edge junk_edge (pgm_init_edge (Some junk_edge) n0 n1 (lit "e0_1") ring_attr);
  out ← run_threads retries fuel junk_node ringtest_count (ring_program TOTAL_ITERATIONS) sched
          [new_thread junk_node junk_data tid0 (AnyOf g); new_thread junk_node junk_data tid1 (AnyOf g)];
  ret ← call (pgm_destroy_graph g); CheckError ret ;;
  ret ← call pgm_destroy; CheckError ret ;;
  mret out.

End Code.

End RingTest.
