(* ===== verification/RingSums.v ===== *)
(** * The sums of ringtest

    Both threads of ringtest, from the first barrier on, in any interleaving:
    what the source sends is what the other node receives, in order, and both
    print the same sum. *)

From Stdlib Require Import Ascii String.
From S2P Require Import Prelude Ring Types Sys Structure Memory Ipc GraphInit GraphWf Query Search Lookup Ownership Stream Transfer Tokens Firing Ending RingData Startup Teardown Driver Tests Threads Relay RingTest.

Module RingSums.
Import Types Sys Structure Memory Ipc GraphInit GraphWf Query Search Lookup Ownership Stream Transfer Tokens Firing Ending RingData Startup Driver Tests Threads Relay RingTest.
#[local] Open Scope Z_scope.

(** ** Numbers *)

(** The sum of the numbers below [k]. *)
Definition gauss (k : Z) : Z := k * (k - 1) / 2.

Lemma gauss_succ k : gauss (k + 1) = gauss k + k.
Proof.
  unfold gauss. replace ((k + 1) * (k + 1 - 1)) with (k * (k - 1) + k * 2) by lia. by rewrite Z.div_add by lia.
Qed.

Lemma gauss_bounds k : 0 <= k <= 2 ^ 31 -> 0 <= gauss k < 2 ^ 62.
Proof.
  intros Hk. unfold gauss. split; [apply Z.div_pos; nia|]. apply Z.div_lt_upper_bound; [lia|]. nia.
Qed.

(** What is in the ring when [a] numbers were sent and [k] received. *)
Definition messages (k a : Z) : list (list Z) := le_bytes 4 <$> seqZ k (a - k).

Lemma messages_nil k : messages k k = [].
Proof. unfold messages. by rewrite Z.sub_diag. Qed.

Lemma messages_snoc k a : k <= a -> messages k (a + 1) = messages k a ++ [le_bytes 4 a].
Proof.
  intros Ha. unfold messages. replace (a + 1 - k) with ((a - k) + 1) by lia.
  rewrite seqZ_app, fmap_app by lia. replace (k + (a - k)) with a by lia. done.
Qed.

Lemma messages_cons k a : k < a -> messages k a = le_bytes 4 k :: messages (k + 1) a.
Proof.
  intros Ha. unfold messages. rewrite seqZ_cons by lia. rewrite fmap_cons. do 3 f_equal; lia.
Qed.

Section Sums.
Context {W : Type} `{Syscalls W} (retries rounds fuel : nat) (junk : node_t).
Context (g p c x bo bi tid_p tid_c TOTAL_ITERATIONS : Z).
Implicit Types (s : pgm_state W) (gr : pgm_graph).

(** ** The edge *)

(** Node [p] feeds node [c] over edge [x], and there is nothing else at either. *)
Record wired gr : Prop := {
  wi_use : in_use gr = true;
  wi_lock : g_lock gr = false;
  wi_wf : graph_wf gr;
  wi_p : is_node gr p;
  wi_c : is_node gr c;
  wi_ne : p <> c;
  wi_pin : in_list (gnode gr p) = [];
  wi_pout : out_list (gnode gr p) = [x];
  wi_cin : in_list (gnode gr c) = [x];
  wi_cout : out_list (gnode gr c) = [];
  wi_ops : e_ops (gedge gr x) = Some pgm_ring_edge_ops;
  wi_consumer : e_consumer (gedge gr x) = c;
  wi_locks : forall i, is_node gr i -> n_lock (gnode gr i) = false
}.

Lemma wired_equiv gr gr' :
  gr ≡ gr' -> (forall i, n_lock (gnode gr' i) = n_lock (gnode gr i)) -> wired gr -> wired gr'.
Proof.
  intros Heq Hl [Hu Hgl Hwf Hp Hc Hne Hpi Hpo Hci Hco Ho Hcons Hlk].
  pose proof Heq as (Ef & _). injection Ef as E1 E2 E3 E4 E5.
  destruct (equiv_node gr gr' p Heq) as (Ei & Eo & _). destruct (equiv_node gr gr' c Heq) as (Ei' & Eo' & _).
  pose proof (equiv_edge gr gr' x Heq) as Ee. injection Ee as _ _ Ec _ _ _ _ _ _ Eop.
  split; unfold is_node in *; try congruence.
  - by rewrite <- Heq.
  - intros i Hi. rewrite Hl. apply Hlk. lia.
Qed.

(** [a] numbers were sent and [k] received; the producer or both may have ended
    ([pe], [ce]) and released their nodes ([pg], [cg]). *)
Record flows gr (a k : Z) (pe ce pg cg : bool) : Prop := {
  fl_wired : wired gr;
  fl_edge : ring_edge (gedge gr x) 4;
  fl_carries : carries (gedge gr x) 4 (messages k a);
  fl_cap : 0 < Ring.nmemb (ringbuf (gedge gr x));
  fl_pending : nr_pending (gedge gr x) = 4 * (a - k);
  fl_cmd : has_flag (ring_cmd (gedge gr x)) PGM_TERMINATE = pe;
  fl_signals : nr_terminate_signals (gnode gr c) = if pe then 1 else 0;
  fl_msgs : nr_terminate_msgs (gnode gr c) = if ce then 1 else 0;
  fl_order : ce = true -> pe = true;
  fl_bo : pg = false -> pgm_get_user_ptr (buf_out (gedge gr x)) = bo;
  fl_bi : cg = false -> pgm_get_user_ptr (buf_in (gedge gr x)) = bi;
  fl_owner_p : owner (gnode gr p) = if pg then UNCLAIMED_NODE else tid_p;
  fl_owner_c : owner (gnode gr c) = if cg then UNCLAIMED_NODE else tid_c
}.

(** [gr'] has [e'] as edge [x], and the same nodes but for wake-ups. *)
Lemma flows_edge gr gr' a k pe ce pg cg a' k' e' :
  flows gr a k pe ce pg cg -> gr ≡ gr' -> gedge gr' x = e' ->
  (forall i, exists w, gnode gr' i = (gnode gr i) <| n_wait := w |>) ->
  ring_edge e' 4 -> carries e' 4 (messages k' a') -> Ring.nmemb (ringbuf e') = Ring.nmemb (ringbuf (gedge gr x)) ->
  nr_pending e' = 4 * (a' - k') -> ring_cmd e' = ring_cmd (gedge gr x) ->
  buf_out e' = buf_out (gedge gr x) -> buf_in e' = buf_in (gedge gr x) -> flows gr' a' k' pe ce pg cg.
Proof.
  intros [Hw He Hca Hcap Hpe Hcmd Hs Hm Hor Hbo Hbi Hop Hoc] Heq <- Hn He' Hca' En Hp Ec Ebo Ebi.
  destruct (Hn c) as [wc Enc]. destruct (Hn p) as [wp Enp].
  split; rewrite ?Enc, ?Enp, ?Ec, ?Ebo, ?Ebi; try done; [|lia].
  apply (wired_equiv gr); [done| |done]. intros i. destruct (Hn i) as [w ->]. done.
Qed.

(** ** Calls of the producer *)

Lemma complete_flow s gr a k ce cg :
  has_graph s g gr -> flows gr a k false ce false cg -> 0 <= k <= a -> a < 2 ^ 31 -> user_bytes s bo 4 = le_bytes 4 a ->
  0 < Ring.nfree (ringbuf (gedge gr x)) ->
  exists gr', pgm_complete fuel (Node_t g p) s = Ok (0, put_graph g gr' s) /\ flows gr' (a + 1) k false ce false cg.
Proof.
  intros Hg Hf Hk Ha Hb Hfree. pose proof Hf as [Hw He Hca _ Hpe _ _ _ _ Hbo _ _ _].
  pose proof Hw as [Hu _ Hwf Hp Hc _ _ Hpo _ _ _ _ Hlk].
  destruct (complete_ring fuel s g gr p x 4 (messages k a) Hg Hwf Hp Hpo He Hca Hu Hlk Hfree)
    as (r & gr' & E & Hq & Es & Em & Hsig).
  pose proof (signalled_equiv _ _ _ Hsig) as Eq. destruct Hsig as [R N].
  exists gr'. split; [done|]. unfold own_bytes in Hq. rewrite (Hbo eq_refl), Hb, <- messages_snoc in Hq by lia.
  eapply (flows_edge gr gr' a k false ce false cg (a + 1) k (sent_edge r 4 (gedge gr x)) Hf).
  - etransitivity; [|exact Eq]. by apply one_edge_equiv.
  - rewrite R. apply cell_insert_eq.
  - intros i. eexists. rewrite N. done.
  - by destruct He.
  - split; done.
  - done.
  - simpl. rewrite Hpe. unfold wrap64. rewrite Z.mod_small; lia.
  - done.
  - done.
  - done.
Qed.

Lemma complete_flow_blocks s gr a k ce pg cg :
  has_graph s g gr -> flows gr a k false ce pg cg -> Ring.nfree (ringbuf (gedge gr x)) = 0 ->
  pgm_complete fuel (Node_t g p) s = Fault Blocks.
Proof.
  intros Hg [Hw He Hca _ _ _ _ _ _ _ _ _ _] Hfree. pose proof Hw as [Hu _ Hwf Hp _ _ _ Hpo _ _ _ _ Hlk].
  by apply (complete_ring_blocks fuel s g gr p x 4 (messages k a)).
Qed.

Lemma terminate_flow s gr a k ce pg cg :
  has_graph s g gr -> flows gr a k false ce pg cg ->
  exists gr', pgm_terminate fuel (Node_t g p) s = Ok (0, put_graph g gr' s) /\ flows gr' a k true ce pg cg.
Proof.
  intros Hg Hf. pose proof Hf as [Hw He Hca Hcap Hpe _ Hs Hm Hor Hbo Hbi Hop Hoc].
  pose proof Hw as [Hu _ Hwf Hp Hc Hne _ Hpo _ _ _ Hcons Hlk].
  destruct (terminate_ring fuel s g gr p x 4 Hg Hwf Hp Hpo He Hu Hlk) as (gr' & E & gr1 & E1 & M).
  exists gr'. split; [done|]. rewrite Hcons in *.
  set (gr2 := gr <| edges ::= <[x := set_ring_cmd PGM_TERMINATE (gedge gr x)]> |>) in *.
  assert (Eq2 : gr ≡ gr2) by (by apply one_edge_equiv).
  assert (Eq1 : gr2 ≡ gr1) by (subst gr1; exact (nodes_mapped_equiv tell _ _ _ (nodes_mapped_one tell c gr2))).
  assert (Eq : gr1 ≡ gr') by exact (nodes_mapped_equiv ring_up _ _ _ M). destruct M as [R N].
  assert (Ee : gedge gr' x = set_ring_cmd PGM_TERMINATE (gedge gr x)).
  { rewrite R, E1. apply cell_insert_eq. }
  assert (Enode : forall i, exists w, gnode gr' i = (if decide (c = i) then tell 1 (gnode gr i) else gnode gr i) <| n_wait := w |>).
  { intros i. exists (n_wait (gnode gr' i)). rewrite N, E1, gnode_set. case_decide; [by subst|]. done. }
  destruct (Enode c) as [wc Enc]. rewrite decide_True in Enc by done.
  destruct (Enode p) as [wp Enp]. rewrite decide_False in Enp by done.
  split; rewrite ?Ee, ?Enc, ?Enp; try done.
  - apply (wired_equiv gr); [by rewrite Eq2, Eq1| |done]. intros i. destruct (Enode i) as [w ->]. by case_decide.
  - by destruct He.
  - by destruct Hca.
  - simpl. by rewrite Hs.
Qed.

(** ** Calls of the consumer *)

Lemma wait_flow s gr a k pe pg :
  has_graph s g gr -> flows gr a k pe false pg false -> 0 <= k < a -> a < 2 ^ 31 ->
  exists gr', pgm_wait (S rounds) fuel (Node_t g c) s =
    Ok (0, (put_graph g gr' s) <| heap ::= fun h => h <| hbytes ::= fun m => store_bytes m bi (le_bytes 4 k) |> |>) /\
    flows gr' a (k + 1) pe false pg false.
Proof.
  intros Hg Hf Hk Ha. pose proof Hf as [Hw He Hca Hcap Hpe _ Hs Hm Hor Hbo Hbi Hop Hoc].
  pose proof Hw as [Hu _ Hwf Hp Hc Hne _ _ Hci _ _ _ Hlk]. rewrite messages_cons in Hca by lia.
  destruct (wait_ring fuel s g gr c x 4 rounds Hg Hu Hwf Hc Hci He (messages (k + 1) a) (le_bytes 4 k) Hca ltac:(lia) Hm)
    as (r & gr' & Hq & Es & Em & E & M).
  unfold in_ptr in E. rewrite (Hbi eq_refl) in E. exists gr'. split; [done|].
  assert (Eq : gr ≡ gr') by (by eapply edges_mapped_equiv; [|exact M]).
  eapply (flows_edge gr gr' a k pe false pg false a (k + 1) (taken_edge 4 r (gedge gr x)) Hf Eq).
  - rewrite (em_edge _ _ _ _ M). by rewrite decide_True by constructor.
  - intros i. rewrite (edges_mapped_node _ _ _ _ i M). exists (n_wait (gnode gr i)). by destruct (gnode gr i).
  - by destruct He.
  - done.
  - done.
  - simpl. lia.
  - done.
  - done.
  - done.
Qed.

Lemma wait_flow_ends s gr a pg cg :
  has_graph s g gr -> flows gr a a true false pg cg ->
  exists gr', pgm_wait (S rounds) fuel (Node_t g c) s = Ok (PGM_TERMINATE, put_graph g gr' s) /\ flows gr' a a true true pg cg.
Proof.
  intros Hg Hf. pose proof Hf as [Hw He Hca Hcap Hpe Hcmd Hs Hm Hor Hbo Hbi Hop Hoc].
  pose proof Hw as [Hu _ Hwf Hp Hc Hne _ _ Hci Hco _ _ Hlk]. rewrite messages_nil in Hca.
  destruct (wait_ring_ends fuel s g gr c x 4 rounds Hg Hu Hwf Hc Hci He Hca Hcmd ltac:(lia) Hs Hm Hco) as (gr' & E & M).
  exists gr'. split; [done|].
  assert (Eq1 : gr ≡ end_seen gr c).
  { split; [done|]. split; [|done]. intros i. fold (gnode (end_seen gr c) i) (gnode gr i). unfold end_seen.
    rewrite gnode_set. by case_decide; subst. }
  assert (Eq : end_seen gr c ≡ gr') by (eapply edges_mapped_equiv; [apply take_skip_skel|exact M]).
  assert (Ee : gedge gr' x = gedge gr x).
  { rewrite (em_edge _ _ _ _ M), decide_True by constructor. change (gedge (end_seen gr c) x) with (gedge gr x).
    unfold take_skip. by rewrite (ri_skips _ _ He). }
  assert (En : forall i, gnode gr' i = if decide (c = i) then (gnode gr c) <| nr_terminate_msgs ::= fun k => k + 1 |> else gnode gr i).
  { intros i. rewrite (edges_mapped_node _ _ _ _ i M). apply gnode_set. }
  split; rewrite ?Ee, ?En, ?decide_True, ?(decide_False (P := c = p)) by done; try done.
  - apply (wired_equiv gr); [by rewrite Eq1| |done]. intros i. rewrite En. by case_decide; subst.
  - by rewrite messages_nil.
  - simpl. by rewrite Hm.
Qed.

Lemma wait_flow_blocks s gr a pg cg :
  has_graph s g gr -> flows gr a a false false pg cg -> pgm_wait (S rounds) fuel (Node_t g c) s = Fault Blocks.
Proof.
  intros Hg [Hw He _ _ Hpe _ Hs _ _ _ _ _ _]. pose proof Hw as [_ _ Hwf _ Hc _ _ _ Hci _ _ _ Hlk].
  destruct (one_in_counts gr c x 4 Hwf Hc Hci He) as (Cs & _).
  apply (pgm_wait_blocks (S rounds) fuel s g gr c); try done; [by apply Hlk|lia| |].
  - rewrite (ring_ready gr c x 4) by done. lia.
  - rewrite (ring_exhausted gr c x 4) by done. rewrite Hs. lia.
Qed.

(** A node without outbound edges. *)
Lemma complete_none s gr n :
  has_graph s g gr -> graph_wf gr -> is_node gr n -> out_list (gnode gr n) = [] ->
  pgm_complete fuel (Node_t g n) s = Ok (0, s).
Proof.
  intros Hg Hwf Hn Ho. pose proof (gw_nodes gr Hwf). pose proof (nw_out _ _ (gw_node gr Hwf n Hn)).
  assert (0 <= n < PGM_MAX_NODES) by (unfold is_node in Hn; lia).
  assert (E : nr_out (gnode gr n) = 0).
  { apply (f_equal List.length) in Ho. unfold out_list in Ho. rewrite length_fmap, length_upto in Ho. simpl in Ho. lia. }
  unfold pgm_complete, pgm_produce. simpl. st_step. fold (gnode gr n). by rewrite E.
Qed.

(** ** Releasing *)

Lemma c_free_runs s a : exists h w, c_free a s = Ok (tt, s <| heap := h |> <| world := w |>).
Proof.
  unfold c_free. destruct (a =? 0); [exists (heap s), (world s); by destruct s|].
  do 2 eexists. unfold modify, mbind, ST_bind. simpl. by destruct s.
Qed.

(** The producer's or the consumer's buffer is gone. *)
Definition closed_edge (side : bool) (e : pgm_edge) : pgm_edge :=
  if side then e <| buf_out := 0 |> else e <| buf_in := 0 |>.

Lemma close_runs s gr (side : bool) :
  has_graph s g gr -> 0 <= x < PGM_MAX_EDGES ->
  exists s', (if side then ring_close_producer g x else ring_close_consumer g x) s = Ok (0, s') /\
    has_graph s' g (gr <| edges ::= <[x := closed_edge side (gedge gr x)]> |>).
Proof.
  intros Hg Hx. destruct side; unfold ring_close_producer, ring_close_consumer; st_step; fold (gedge gr x).
  - destruct (c_free_runs s (buf_out (gedge gr x))) as (h & w & E). rewrite (bind_step _ _ _ _ _ E).
    assert (Hg' : has_graph (s <| heap := h |> <| world := w |>) g gr) by done.
    erewrite bind_step; [|by apply (upd_edge_at _ g gr)]. eexists. split; [done|].
    by eapply has_graph_put.
  - destruct (c_free_runs s (buf_in (gedge gr x))) as (h & w & E). rewrite (bind_step _ _ _ _ _ E).
    assert (Hg' : has_graph (s <| heap := h |> <| world := w |>) g gr) by done.
    erewrite bind_step; [|by apply (upd_edge_at _ g gr)]. eexists. split; [done|].
    by eapply has_graph_put.
Qed.

Lemma release_wired s gr (side : bool) :
  let n := if side then p else c in let t := if side then tid_p else tid_c in
  has_graph s g gr -> wired gr -> owner (gnode gr n) = t -> t <> 0 -> t <> UNCLAIMED_NODE ->
  exists s' gr', pgm_release_node (Node_t g n) t s = Ok (0, s') /\ has_graph s' g gr' /\ wired gr' /\
    gedge gr' x = closed_edge side (gedge gr x) /\
    forall i, gnode gr' i = if decide (n = i) then (gnode gr n) <| owner := UNCLAIMED_NODE |> else gnode gr i.
Proof.
  intros n t Hg Hw Ho Ht Hne. pose proof Hw as [Hu Hl Hwf Hp Hc Hpc Hpi Hpo Hci Hco Hops _ Hlk].
  assert (Hn : is_node gr n) by (by destruct side). pose proof (gw_nodes gr Hwf). pose proof Hn as Hn'. unfold is_node in Hn'.
  destruct (one_out gr p x Hwf Hp Hpo) as (Epo & _ & Epx & Hx). destruct (one_in gr c x Hwf Hc Hci) as (Eci & Ecx & _).
  assert (Ein : nr_in (gnode gr p) = 0).
  { pose proof (nw_in _ _ (gw_node gr Hwf p Hp)). apply (f_equal List.length) in Hpi. unfold in_list in Hpi.
    rewrite length_fmap, length_upto in Hpi. simpl in Hpi. lia. }
  assert (Eout : nr_out (gnode gr c) = 0).
  { pose proof (nw_out _ _ (gw_node gr Hwf c Hc)). apply (f_equal List.length) in Hco. unfold out_list in Hco.
    rewrite length_fmap, length_upto in Hco. simpl in Hco. lia. }
  set (grl := gr <| g_lock := true |>).
  assert (Hg1 : has_graph (put_graph g grl s) g grl) by (by eapply has_graph_put).
  destruct (close_runs (put_graph g grl s) grl side Hg1 Hx) as (s2 & E2 & Hg2).
  change (gedge grl x) with (gedge gr x) in Hg2. set (v := closed_edge side (gedge gr x)) in *.
  assert (Ev : edge_skel v = edge_skel (gedge gr x)) by (unfold v; by destruct side).
  set (gr2 := grl <| edges ::= <[x := v]> |>) in *.
  set (gr' := (gr2 <| nodes ::= <[n := (gnode gr n) <| owner := UNCLAIMED_NODE |>]> |>) <| g_lock := false |>).
  assert (En : forall i, gnode gr' i = if decide (n = i) then (gnode gr n) <| owner := UNCLAIMED_NODE |> else gnode gr i)
    by (intros i; apply cell_insert).
  assert (Eq : gr ≡ gr').
  { split; [simpl; by rewrite Hl|]. split.
    - intros i. fold (gnode gr i) (gnode gr' i). rewrite En. by case_decide; subst.
    - intros i. simpl. rewrite cell_insert. by case_decide; subst. }
  exists (put_graph g gr' s2), gr'. split; [|split; [by eapply has_graph_put|split; [|split; [apply cell_insert_eq|exact En]]]].
  - unfold pgm_release_node. simpl nd_graph. simpl nd_node. st_step. rewrite Hu. change (negb true) with false. cbv iota.
    assert (Et : owner_tid t s = Ok (t, s)) by (unfold owner_tid; by rewrite (proj2 (Z.eqb_neq _ _) Ht)).
    rewrite (bind_step _ _ _ _ _ Et). cbv beta. st_step. st_step. fold grl. change (nr_nodes grl) with (nr_nodes gr).
    replace (n <? 0) with false by lia. replace (nr_nodes gr <=? n) with false by lia. change (false || false) with false. cbv iota. st_step.
    change (cell (nodes grl) n) with (gnode gr n). rewrite Ho, Z.eqb_refl, (proj2 (Z.eqb_neq _ _) Hne).
    change (negb true || false) with false. cbv iota.
    assert (Hloops : forall k : bool -> ST (pgm_state W) Z,
      (err ← for_acc (upto (nr_out (gnode gr n))) false (fun i was_error =>
         y ← lift (out_of (gnode gr n) i); e ← rd_edge g y; o ← lift (deref (e_ops e));
         ret ← ops_close_producer o g y; mret (was_error || negb (ret =? 0)));
       err ← for_acc (upto (nr_in (gnode gr n))) err (fun i was_error =>
         y ← lift (in_of (gnode gr n) i); e ← rd_edge g y; o ← lift (deref (e_ops e));
         ret ← ops_close_consumer o g y; mret (was_error || negb (ret =? 0)));
       k err) (put_graph g grl s) = k false s2).
    { intros k. destruct side; subst n.
      - rewrite Epo, Ein. change (upto 1) with [0]. erewrite bind_step.
        2:{ cbn [for_acc]. erewrite bind_step; [done|]. unfold out_of. rewrite aget_ok by done.
            rewrite Epx. st_step. st_step. change (cell (edges grl) x) with (gedge gr x). rewrite Hops. st_step.
            rewrite (bind_step _ _ _ _ _ E2). done. }
        done.
      - rewrite Eci, Eout. change (upto 1) with [0]. erewrite bind_step by done. cbv beta. erewrite bind_step.
        2:{ cbn [for_acc]. erewrite bind_step; [done|]. unfold in_of. rewrite aget_ok by done.
            rewrite Ecx. st_step. st_step. change (cell (edges grl) x) with (gedge gr x). rewrite Hops. st_step.
            rewrite (bind_step _ _ _ _ _ E2). done. }
        done. }
    rewrite Hloops. st_step. st_step. rewrite put_put. done.
  - apply (wired_equiv gr); [done| |done]. intros i. rewrite En. by case_decide; subst.
Qed.

Lemma release_flow s gr a k pe ce pg cg (side : bool) :
  let n := if side then p else c in let t := if side then tid_p else tid_c in
  has_graph s g gr -> flows gr a k pe ce pg cg -> (if side then pg else cg) = false -> t <> 0 -> t <> UNCLAIMED_NODE ->
  exists s' gr', pgm_release_node (Node_t g n) t s = Ok (0, s') /\ has_graph s' g gr' /\
    flows gr' a k pe ce (side || pg) (negb side || cg).
Proof.
  intros n t Hg [Hw He Hca Hcap Hpe Hcmd Hs Hm Hor Hbo Hbi Hop Hoc] Hin Ht Ht'. pose proof (wi_ne _ Hw) as Hne.
  destruct (release_wired s gr side Hg Hw) as (s' & gr' & E & Hg' & Hw' & Ee & En); try done.
  { by destruct side; simpl in Hin; subst. }
  exists s', gr'. split; [done|]. split; [done|].
  assert (Ep := En p). assert (Ec := En c). subst n t.
  destruct side; simpl in Hin; subst.
  - rewrite decide_True in Ep by done. rewrite decide_False in Ec by done.
    split; rewrite ?Ee, ?Ep, ?Ec; first [done|by destruct He|by destruct Hca].
  - rewrite decide_True in Ec by done. rewrite decide_False in Ep by congruence.
    split; rewrite ?Ee, ?Ep, ?Ec; first [done|by destruct He|by destruct Hca].
Qed.

(** ** The invariant *)

Definition the_sum : Z := gauss (rounds_due TOTAL_ITERATIONS).

Definition gone (p : place) : bool := match p with Gone => true | _ => false end.

(** The thread of the source ([side] is [true]) or of the other node. *)
Record side_ok (side : bool) (t : thread ring_data) : Prop := {
  so_node : t_node t = Node_t g (if side then p else c);
  so_src : is_src t = side;
  so_tid : t_tid t = if side then tid_p else tid_c;
  so_buf : r_buf (t_data t) = if side then bo else bi;
  so_sum : r_sum (t_data t) = gauss (taken t);
  so_iter : 0 <= iterations t <= rounds_due TOTAL_ITERATIONS;
  so_place : match at_place t with
             | AtBarrier false | Started => iterations t = 0
             | Looping => True
             | Completing => iterations t < rounds_due TOTAL_ITERATIONS
             | Terminating => side = true /\ iterations t = rounds_due TOTAL_ITERATIONS
             | AtBarrier true | Leaving | Gone => iterations t = rounds_due TOTAL_ITERATIONS
             | Entering | Asleep _ => False
             end
}.

(** What a thread has printed. *)
Definition printed_by (n : Z) (t : thread ring_data) : list line :=
  if has_quit t =? 1 then [Sums n the_sum] else [].

Record inv (d : driver W) (tp tc : thread ring_data) (log : list line) : Prop := {
  in_errors : errors d = 0;
  in_p : side_ok true tp;
  in_c : side_ok false tc;
  in_flow : exists gr, has_graph (lib d) g gr /\
    flows gr (iterations tp) (taken tc) (told (at_place tp)) (told (at_place tc)) (gone (at_place tp)) (gone (at_place tc));
  in_order : taken tc <= iterations tp;
  in_bytes : at_place tp = Completing -> user_bytes (lib d) bo 4 = le_bytes 4 (iterations tp);
  in_log : log ≡ₚ printed_by p tp ++ printed_by c tc
}.

Context (Hlimit : 0 <= TOTAL_ITERATIONS < 2 ^ 31 - 1).
Context (Hbuf : bo <> 0 /\ bi <> 0) (Hdisjoint : bo + 4 <= bi \/ bi + 4 <= bo).
Context (Htids : tid_p <> 0 /\ tid_p <> UNCLAIMED_NODE /\ tid_c <> 0 /\ tid_c <> UNCLAIMED_NODE).

Lemma stored_bytes s a bs :
  user_bytes (s <| heap ::= fun h => h <| hbytes ::= fun m => store_bytes m a bs |> |>) a (Z.of_nat (List.length bs)) = bs.
Proof. by apply bytes_at_store_same. Qed.

Lemma other_bytes s a bs b n :
  b + n <= a \/ a + Z.of_nat (List.length bs) <= b ->
  user_bytes (s <| heap ::= fun h => h <| hbytes ::= fun m => store_bytes m a bs |> |>) b n = user_bytes s b n.
Proof. intros Hd. by apply bytes_at_store_disjoint. Qed.

(** The source's thread moves. *)
Lemma inv_p d tp tc log d' tp' out gr :
  inv d tp tc log -> errors d' = 0 -> side_ok true tp' -> has_graph (lib d') g gr ->
  flows gr (iterations tp') (taken tc) (told (at_place tp')) (told (at_place tc)) (gone (at_place tp')) (gone (at_place tc)) ->
  iterations tp <= iterations tp' ->
  (at_place tp' = Completing -> user_bytes (lib d') bo 4 = le_bytes 4 (iterations tp')) ->
  printed_by p tp' = printed_by p tp ++ out -> inv d' tp' tc (log ++ out).
Proof.
  intros [He Hp Hc _ Hord _ Hlog] He' Hp' Hg Hf Hle Hby Hpr. split; try done; [by exists gr|lia|].
  rewrite Hpr, Hlog. solve_Permutation.
Qed.

(** The other thread moves. *)
Lemma inv_c d tp tc log d' tc' out gr :
  inv d tp tc log -> errors d' = 0 -> side_ok false tc' -> has_graph (lib d') g gr ->
  flows gr (iterations tp) (taken tc') (told (at_place tp)) (told (at_place tc')) (gone (at_place tp)) (gone (at_place tc')) ->
  taken tc' <= iterations tp ->
  (at_place tp = Completing -> user_bytes (lib d') bo 4 = user_bytes (lib d) bo 4) ->
  printed_by c tc' = printed_by c tc ++ out -> inv d' tp tc' (log ++ out).
Proof.
  intros [He Hp Hc _ Hord Hb Hlog] He' Hc' Hg Hf Hle Hby Hpr. split; try done; [by exists gr| |].
  - intros E. rewrite Hby by done. by apply Hb.
  - rewrite Hpr, Hlog. solve_Permutation.
Qed.

(** A turn that leaves everything in order. *)
Definition fine_turn (d : driver W) (t : thread ring_data) (next : thread ring_data -> driver W -> list line -> Prop) : Prop :=
  exists t' out d', turn retries fuel junk (ring_program (S rounds) fuel TOTAL_ITERATIONS) t d = Ok (t', out, d') /\
    next t' d' out /\ asleep t' = false /\ (cost TOTAL_ITERATIONS t' < cost TOTAL_ITERATIONS t)%nat.

Section Turns.
Context (d : driver W) (tp tc : thread ring_data) (log : list line) (Hinv : inv d tp tc log).

(** The thread's own part of the invariant, at a known place. *)
Ltac own E := unfold taken, printed_by, has_quit in *; simpl in *; rewrite ?E in *; simpl in *; try done.
Ltac cheaper E := unfold cost, rounds_due in *; simpl; rewrite E; lia.

Let next_p t' d' out := inv d' t' tc (log ++ out).
Let next_c t' d' out := inv d' tp t' (log ++ out).

Lemma p_starts : at_place tp = Started -> fine_turn d tp next_p.
Proof.
  intros Ep. pose proof Hinv as [He [Pn Ps Pt Pb Pm Pi Pp] _ (gr & Hg & Hf) _ _ _].
  unfold fine_turn, turn. rewrite Ep in *. do 3 eexists. split; [done|]. rewrite He. simpl.
  split; [|split; [done|cheaper Ep]]. apply (inv_p d tp tc log) with gr; try done; own Ep.
Qed.

Lemma c_starts : at_place tc = Started -> fine_turn d tc next_c.
Proof.
  intros Ep. pose proof Hinv as [He _ [Pn Ps Pt Pb Pm Pi Pp] (gr & Hg & Hf) Hord _ _].
  unfold fine_turn, turn. rewrite Ep in *. do 3 eexists. split; [done|]. rewrite He. simpl.
  split; [|split; [done|cheaper Ep]]. apply (inv_c d tp tc log) with gr; try done; own Ep.
Qed.

(** The source at the head of the loop: it writes a number into its buffer and adds
    it up, or has sent all and prints the sum. *)
Lemma p_sends : at_place tp = Looping -> iterations tp <= TOTAL_ITERATIONS -> fine_turn d tp next_p.
Proof.
  intros Ep Hle. pose proof Hinv as [He [Pn Ps Pt Pb Pm Pi _] _ (gr & Hg & Hf) _ _ _].
  unfold fine_turn, turn. rewrite Ep. unfold loop_head, ring_program, p_head, p_body, head_or_limit, ring_body. rewrite Ps.
  change (negb true) with false. cbv iota. erewrite bind_step by done. cbv beta iota.
  rewrite (proj2 (Z.ltb_ge _ _) Hle). change (negb (0 =? PGM_TERMINATE)) with true. cbv iota.
  erewrite bind_step by done. cbv beta. rewrite Ps, Pb. unfold put_u32. rewrite (proj2 (Z.eqb_neq _ _) (proj1 Hbuf)).
  do 3 eexists. split; [done|]. split; [|split; [done|cheaper Ep]].
  apply (inv_p d tp tc log) with gr; try done; own Ep.
  - split; own Ep; [|unfold rounds_due; lia]. rewrite Pm, Z.add_0_r, gauss_succ.
    unfold wrap64. apply Z.mod_small. pose proof (gauss_bounds (iterations tp) ltac:(lia)). lia.
  - intros _. pose proof (stored_bytes (lib d) bo (le_bytes 4 (iterations tp))) as Hb. by rewrite length_le_bytes in Hb.
Qed.

Lemma p_finishes : at_place tp = Looping -> TOTAL_ITERATIONS < iterations tp -> fine_turn d tp next_p.
Proof.
  intros Ep Hlt. pose proof Hinv as [He [Pn Ps Pt Pb Pm Pi _] _ (gr & Hg & Hf) _ _ _].
  assert (Ei : iterations tp = rounds_due TOTAL_ITERATIONS) by (unfold rounds_due in *; lia).
  unfold fine_turn, turn. rewrite Ep. unfold loop_head, ring_program, p_head, p_body, head_or_limit, ring_body. rewrite Ps.
  change (negb true) with false. cbv iota. erewrite bind_step by done. cbv beta iota.
  rewrite (proj2 (Z.ltb_lt _ _) Hlt). do 3 eexists. split; [done|]. simpl. rewrite Ps. split; [|split; [done|cheaper Ep]].
  apply (inv_p d tp tc log) with gr; try done; own Ep.
  unfold the_sum. rewrite Pn, Pm, Z.add_0_r, Ei. done.
Qed.

Lemma p_completes gr : at_place tp = Completing ->
  has_graph (lib d) g gr -> 0 < Ring.nfree (ringbuf (gedge gr x)) -> fine_turn d tp next_p.
Proof.
  intros Ep Hg Hfree. pose proof Hinv as [He [Pn Ps Pt Pb Pm Pi Pp] [_ _ _ _ _ Ci _] (gr1 & Hg1 & Hf) Hord Hby _].
  assert (gr1 = gr) as -> by (eapply has_graph_fun; done).
  assert (Hk : 0 <= taken tc) by (unfold taken; destruct (at_place tc); lia).
  unfold fine_turn, turn. rewrite Ep in *. rewrite Pn.
  destruct (complete_flow (lib d) gr _ _ _ _ Hg Hf ltac:(lia) ltac:(unfold rounds_due in *; lia) (Hby eq_refl) Hfree) as (gr' & E & Hf').
  erewrite bind_step by (apply lib_call_ok, E). cbv beta.
  assert (Ei : signed 32 (iterations tp + 1) = iterations tp + 1) by (apply signed32_small; unfold rounds_due in *; lia).
  do 3 eexists. split; [done|]. simpl. split; [|split; [done|]].
  - apply (inv_p d tp tc log) with gr'; try done; own Ep; rewrite ?Ei; try done; try lia.
    + split; own Ep; rewrite ?Ei; try done; [|unfold rounds_due in *; lia]. rewrite Pm. f_equal. lia.
    + by eapply has_graph_put.
  - unfold cost. simpl. rewrite Ep, Ei. lia.
Qed.

Lemma p_terminates : at_place tp = Terminating -> fine_turn d tp next_p.
Proof.
  intros Ep. pose proof Hinv as [He [Pn Ps Pt Pb Pm Pi Pp] _ (gr & Hg & Hf) _ _ _].
  unfold fine_turn, turn. rewrite Ep in *. rewrite Pn. simpl in Hf.
  destruct (terminate_flow (lib d) gr _ _ _ _ _ Hg Hf) as (gr' & E & Hf').
  erewrite bind_step by (apply lib_call_ok, E). cbv beta. do 3 eexists. split; [done|]. simpl.
  split; [|split; [done|cheaper Ep]]. apply (inv_p d tp tc log) with gr'; try done; own Ep.
  - split; own Ep. by destruct Pp.
  - by eapply has_graph_put.
Qed.

Lemma p_leaves : at_place tp = Leaving -> fine_turn d tp next_p.
Proof.
  intros Ep. pose proof Hinv as [He [Pn Ps Pt Pb Pm Pi Pp] _ (gr & Hg & Hf) _ _ _].
  unfold fine_turn, turn. rewrite Ep in *. rewrite Pn, Pt. simpl in Hf.
  destruct (release_flow (lib d) gr _ _ _ _ _ _ true Hg Hf eq_refl) as (s' & gr' & E & Hg' & Hf'); [tauto..|].
  erewrite bind_step by done. cbv beta. erewrite bind_step by (apply lib_call_ok, E). cbv beta. do 3 eexists. split; [done|].
  split; [|split; [done|cheaper Ep]]. apply (inv_p d tp tc log) with gr'; try done; own Ep.
Qed.

Lemma c_leaves : at_place tc = Leaving -> fine_turn d tc next_c.
Proof.
  intros Ep. pose proof Hinv as [He _ [Pn Ps Pt Pb Pm Pi Pp] (gr & Hg & Hf) Hord _ _].
  unfold fine_turn, turn. rewrite Ep in *. rewrite Pn, Pt. simpl in Hf. pose proof (fl_order _ _ _ _ _ _ _ Hf eq_refl) as Ht.
  destruct (release_flow (lib d) gr _ _ _ _ _ _ false Hg Hf eq_refl) as (s' & gr' & E & Hg' & Hf'); [tauto..|].
  erewrite bind_step by done. cbv beta. erewrite bind_step by (apply lib_call_ok, E). cbv beta. do 3 eexists. split; [done|].
  split; [|split; [done|cheaper Ep]]. apply (inv_c d tp tc log) with gr'; try done; own Ep.
  intros E'. by rewrite E' in Ht.
Qed.

(** The other node: it takes a number and adds it up, prints the sum once the source
    has ended, or sleeps. *)
Lemma c_receives : at_place tc = Looping -> iterations tc < iterations tp -> fine_turn d tc next_c.
Proof.
  intros Ep Hlt. pose proof Hinv as [He [_ _ _ _ _ Pi _] [Pn Ps Pt Pb Pm Ci Pp] (gr & Hg & Hf) Hord _ _].
  assert (Ek : taken tc = iterations tc) by (unfold taken; rewrite Ep; lia). rewrite Ek, Ep in Hf. simpl in Hf.
  destruct (wait_flow (lib d) gr _ _ _ _ Hg Hf ltac:(lia) ltac:(unfold rounds_due in *; lia)) as (gr' & E & Hf').
  set (s' := _ <| heap ::= _ |>) in E.
  assert (Hread : user_bytes s' bi 4 = le_bytes 4 (iterations tc)).
  { pose proof (stored_bytes (put_graph g gr' (lib d)) bi (le_bytes 4 (iterations tc))) as Hb. by rewrite length_le_bytes in Hb. }
  assert (El : lib_call (rd_bytes bi 4) (d <| lib := s' |>) = Ok (le_bytes 4 (iterations tc), d <| lib := s' |>)).
  { rewrite <- Hread. done. }
  unfold fine_turn, turn. rewrite Ep. unfold loop_head, ring_program, p_head, p_body, head_or_limit, ring_body. rewrite Ps, Pn.
  change (negb false) with true. cbv iota.
  erewrite bind_step by (erewrite bind_step by (apply lib_call_ok, E); done). cbv beta iota.
  change (negb (0 =? PGM_TERMINATE)) with true. cbv iota. erewrite bind_step by done. cbv beta. rewrite Ps, Pb.
  unfold get_u32. rewrite (proj2 (Z.eqb_neq _ _) (proj2 Hbuf)).
  erewrite bind_step.
  2:{ erewrite bind_step; [done|]. erewrite bind_step; [done|]. rewrite (bind_step _ _ _ _ _ El). done. }
  do 3 eexists. split; [done|]. split; [|split; [done|cheaper Ep]].
  rewrite le_value_bytes.
  apply (inv_c d tp tc log) with gr'; try done; own Ep.
  - split; own Ep; [|lia]. rewrite Pm, Z.add_0_r, gauss_succ, (Z.mod_small (iterations tc)) by (unfold rounds_due in *; simpl; lia).
    unfold wrap64. apply Z.mod_small. pose proof (gauss_bounds (iterations tc) ltac:(unfold rounds_due in *; lia)).
    unfold rounds_due in *. lia.
  - apply (has_graph_put _ _ _ gr') in Hg. exact Hg.
  - lia.
  - intros _. apply (other_bytes (put_graph g gr' (lib d)) bi (le_bytes 4 (iterations tc)) bo 4).
    rewrite length_le_bytes. lia.
Qed.

Lemma c_finishes : at_place tc = Looping -> iterations tc = iterations tp -> told (at_place tp) = true -> fine_turn d tc next_c.
Proof.
  intros Ep Heq Ht. pose proof Hinv as [He [_ _ _ _ _ Pi Pp] [Pn Ps Pt Pb Pm Ci Cp] (gr & Hg & Hf) Hord _ _].
  assert (Ei : iterations tc = rounds_due TOTAL_ITERATIONS).
  { rewrite Heq. destruct (at_place tp) as [|[]|[]| | | | | |]; done. }
  assert (Ek : taken tc = iterations tp) by (unfold taken; rewrite Ep; lia). rewrite Ek, Ep, Ht in Hf. simpl in Hf.
  destruct (wait_flow_ends (lib d) gr _ _ _ Hg Hf) as (gr' & E & Hf').
  unfold fine_turn, turn. rewrite Ep. unfold loop_head, ring_program, p_head, p_body, head_or_limit, ring_body. rewrite Ps, Pn.
  change (negb false) with true. cbv iota.
  erewrite bind_step by (erewrite bind_step by (apply lib_call_ok, E); done). cbv beta iota.
  do 3 eexists. split; [done|]. simpl. rewrite Ps. split; [|split; [done|cheaper Ep]].
  apply (inv_c d tp tc log) with gr'; try done; own Ep.
  - by eapply has_graph_put.
  - by rewrite Ht, Heq, Z.add_0_r.
  - unfold the_sum. rewrite Pn, Pm, Z.add_0_r, Ei. done.
Qed.

Lemma c_sleeps : at_place tc = Looping -> iterations tc = iterations tp -> told (at_place tp) = false ->
  turn retries fuel junk (ring_program (S rounds) fuel TOTAL_ITERATIONS) tc d = Fault Blocks.
Proof.
  intros Ep Heq Ht. pose proof Hinv as [He _ [Pn Ps _ _ _ _ _] (gr & Hg & Hf) _ _ _].
  assert (Ek : taken tc = iterations tp) by (unfold taken; rewrite Ep; lia). rewrite Ek, Ep, Ht in Hf. simpl in Hf.
  pose proof (wait_flow_blocks (lib d) gr _ _ _ Hg Hf) as E.
  unfold turn. rewrite Ep. unfold loop_head, ring_program, p_head, head_or_limit. rewrite Ps, Pn.
  change (negb false) with true. cbv iota. apply bind_fault, bind_fault. unfold lib_call. by rewrite E.
Qed.

Lemma c_completes : at_place tc = Completing -> fine_turn d tc next_c.
Proof.
  intros Ep. pose proof Hinv as [He _ [Pn Ps Pt Pb Pm Ci Cp] (gr & Hg & Hf) Hord _ _].
  pose proof (fl_wired _ _ _ _ _ _ _ Hf) as Hw.
  pose proof (complete_none (lib d) gr c Hg (wi_wf _ Hw) (wi_c _ Hw) (wi_cout _ Hw)) as E.
  unfold fine_turn, turn. rewrite Ep in *. rewrite Pn. erewrite bind_step by (apply lib_call_ok, E). cbv beta.
  assert (Ei : signed 32 (iterations tc + 1) = iterations tc + 1) by (apply signed32_small; unfold rounds_due in *; lia).
  do 3 eexists. split; [done|]. simpl. split; [|split; [done|unfold cost; simpl; rewrite Ep, Ei; lia]].
  apply (inv_c d tp tc log) with gr; try done; own Ep; rewrite ?Ei, ?Z.add_0_r; try done.
  split; own Ep; rewrite ?Ei, ?Z.add_0_r; try done; lia.
Qed.

(** A full ring makes the source wait, and there is something to receive. *)
Lemma p_waits gr : at_place tp = Completing ->
  has_graph (lib d) g gr -> ~ 0 < Ring.nfree (ringbuf (gedge gr x)) ->
  turn retries fuel junk (ring_program (S rounds) fuel TOTAL_ITERATIONS) tp d = Fault Blocks /\ taken tc < iterations tp.
Proof.
  intros Ep Hg Hfull. pose proof Hinv as [He [Pn _ _ _ _ _ _] _ (gr1 & Hg1 & Hf) Hord _ _].
  assert (gr1 = gr) as -> by (eapply has_graph_fun; done). rewrite Ep in Hf. simpl in Hf.
  pose proof Hf as [_ _ [Hq _] Hcap _ _ _ _ _ _ _ _ _].
  assert (Hz : Ring.nfree (ringbuf (gedge gr x)) = 0) by (pose proof (Ring.q_nfree _ _ Hq); lia). split.
  - unfold turn. rewrite Ep, Pn. apply bind_fault. unfold lib_call. by rewrite (complete_flow_blocks _ _ _ _ _ _ _ Hg Hf Hz).
  - pose proof (Ring.q_length _ _ Hq) as Hl. destruct (Z.eq_dec (taken tc) (iterations tp)) as [E|]; [|lia].
    rewrite E, messages_nil in Hl. simpl in Hl. lia.
Qed.

End Turns.

(** ** The two threads together *)

(** Which of the threads got which node is open. *)
Context (swapped : bool).

Definition both (tp tc : thread ring_data) : list (thread ring_data) := if swapped then [tc; tp] else [tp; tc].

Definition sys_inv (y : system W ring_data) : Prop :=
  exists tp tc, threads y = both tp tc /\ inv (prog y) tp tc (stdout y).

#[local] Abbreviation advances := (advance retries fuel junk 1 (ring_program (S rounds) fuel TOTAL_ITERATIONS)).
#[local] Abbreviation steps := (step retries fuel junk 1 (ring_program (S rounds) fuel TOTAL_ITERATIONS)).

Lemma both_cases i t tp tc : both tp tc !! i = Some t ->
  t = tp /\ (forall t', <[i := t']> (both tp tc) = both t' tc) \/ t = tc /\ (forall t', <[i := t']> (both tp tc) = both tp t').
Proof. unfold both. destruct swapped, i as [|[|]]; simpl; intros [= <-]; auto. Qed.

Lemma both_total tp tc :
  total TOTAL_ITERATIONS (both tp tc) = (cost TOTAL_ITERATIONS tp + cost TOTAL_ITERATIONS tc)%nat.
Proof. unfold both, total. destruct swapped; simpl; lia. Qed.

Definition ahead (y : system W ring_data) (r : outcome (option (system W ring_data))) : Prop :=
  exists y', r = Ok (Some y') /\ sys_inv y' /\ (total TOTAL_ITERATIONS (threads y') < total TOTAL_ITERATIONS (threads y))%nat.

(** Nobody ever sleeps at a barrier of one. *)
Lemma barrier_of_one i t last tp tc :
  side_ok true tp -> side_ok false tc -> both tp tc !! i = Some t ->
  barrier_wait 1 i t last (both tp tc) = <[i := t <| at_place := past_barrier last |>]> (both tp tc).
Proof.
  intros Hp Hc Hi. pose proof (so_place _ _ Hp) as Pp. pose proof (so_place _ _ Hc) as Pc.
  assert (Ap : asleep tp = false) by (unfold asleep; destruct (at_place tp) as [|[]|[]| | | | | |]; done).
  assert (Ac : asleep tc = false) by (unfold asleep; destruct (at_place tc) as [|[]|[]| | | | | |]; done).
  assert (Hw : forall u : thread ring_data, asleep u = false -> awaken u = u)
    by (intros u; unfold asleep, awaken; by destruct (at_place u)).
  assert (Es : sleepers (both tp tc) = 0).
  { unfold sleepers, both. destruct swapped; rewrite !filter_cons, Ap, Ac; done. }
  unfold barrier_wait. rewrite Es. simpl.
  assert (An : asleep (t <| at_place := past_barrier last |>) = false) by (by destruct last).
  destruct (both_cases i t tp tc Hi) as [[-> E]|[-> E]]; rewrite E; unfold both; destruct swapped; simpl; rewrite !Hw; done.
Qed.

Lemma p_passes d tp tc log last : inv d tp tc log -> at_place tp = AtBarrier last ->
  inv d (tp <| at_place := past_barrier last |>) tc log.
Proof.
  intros Hinv Ep. pose proof Hinv as [He [Pn Ps Pt Pb Pm Pi Pp] _ (gr & Hg & Hf) _ _ _]. rewrite <- (app_nil_r log).
  apply (inv_p d tp tc log) with gr; try done; unfold taken, printed_by, has_quit in *; simpl in *; rewrite ?Ep in *; destruct last; done.
Qed.

Lemma c_passes d tp tc log last : inv d tp tc log -> at_place tc = AtBarrier last ->
  inv d tp (tc <| at_place := past_barrier last |>) log.
Proof.
  intros Hinv Ep. pose proof Hinv as [He _ [Pn Ps Pt Pb Pm Pi Pp] (gr & Hg & Hf) Hord _ _]. rewrite <- (app_nil_r log).
  apply (inv_c d tp tc log) with gr; try done; unfold taken, printed_by, has_quit in *; simpl in *; rewrite ?Ep in *; destruct last; done.
Qed.

Lemma passes_cheaper (t : thread ring_data) last : at_place t = AtBarrier last ->
  (cost TOTAL_ITERATIONS (t <| at_place := past_barrier last |>) < cost TOTAL_ITERATIONS t)%nat.
Proof. intros Ep. unfold cost. simpl. rewrite Ep. destruct last; simpl; lia. Qed.

Section Advance.
Context (y : system W ring_data) (tp tc : thread ring_data) (i : nat).
Context (Ht : threads y = both tp tc) (Hinv : inv (prog y) tp tc (stdout y)).

Lemma p_advances : (forall t', <[i := t']> (both tp tc) = both t' tc) -> threads y !! i = Some tp ->
  (advances i y = Ok None /\ at_place tp = Gone) \/ ahead y (advances i y) \/
  (advances i y = Fault Blocks /\ at_place tp = Completing /\ taken tc < iterations tp).
Proof.
  intros Hset Hi. assert (Hgo : working (at_place tp) = true ->
    fine_turn (prog y) tp (fun t' d' out => inv d' t' tc (stdout y ++ out)) -> ahead y (advances i y)).
  { intros Hw (t' & out & d' & E & Hn & _ & Hlt). unfold ahead, advance. rewrite Hi, E. eexists. split; [by destruct (at_place tp)|].
    simpl. rewrite Ht, Hset. split; [by exists t', tc|]. rewrite !both_total. lia. }
  pose proof (so_place _ _ (in_p _ _ _ _ Hinv)) as Hpl. destruct (at_place tp) as [|last|[]| | | | | |] eqn:Ep; try done.
  - right; left. pose proof (p_passes _ _ _ _ last Hinv Ep) as Hn. unfold ahead, advance. rewrite Hi, Ep. eexists. split; [done|].
    pose proof (barrier_of_one i tp last _ _ (in_p _ _ _ _ Hinv) (in_c _ _ _ _ Hinv) ltac:(congruence)) as Eb. rewrite Hset, <- Ht in Eb.
    split; [by exists (tp <| at_place := past_barrier last |>), tc|]. simpl. rewrite Eb, Ht, !both_total. pose proof (passes_cheaper tp last Ep). lia.
  - right; left. by apply Hgo, p_starts.
  - right; left. apply Hgo; [done|]. destruct (Z_lt_le_dec TOTAL_ITERATIONS (iterations tp)); [by apply p_finishes|by apply p_sends].
  - pose proof Hinv as [_ _ _ (gr & Hg & _) _ _ _]. destruct (Z_lt_le_dec 0 (Ring.nfree (ringbuf (gedge gr x)))).
    + right; left. by apply Hgo, (p_completes _ _ _ _ Hinv gr).
    + right; right. destruct (p_waits _ _ _ _ Hinv gr Ep Hg) as [E Hlt]; [lia|]. unfold advance. by rewrite Hi, Ep, E.
  - right; left. by apply Hgo, p_terminates.
  - right; left. by apply Hgo, p_leaves.
  - left. unfold advance. by rewrite Hi, Ep.
Qed.

Lemma c_advances : (forall t', <[i := t']> (both tp tc) = both tp t') -> threads y !! i = Some tc ->
  (advances i y = Ok None /\ at_place tc = Gone) \/ ahead y (advances i y) \/
  (advances i y = Fault Blocks /\ at_place tc = Looping /\ iterations tc = iterations tp /\ told (at_place tp) = false).
Proof.
  intros Hset Hi. assert (Hgo : working (at_place tc) = true ->
    fine_turn (prog y) tc (fun t' d' out => inv d' tp t' (stdout y ++ out)) -> ahead y (advances i y)).
  { intros Hw (t' & out & d' & E & Hn & _ & Hlt). unfold ahead, advance. rewrite Hi, E. eexists. split; [by destruct (at_place tc)|].
    simpl. rewrite Ht, Hset. split; [by exists tp, t'|]. rewrite !both_total. lia. }
  pose proof (so_place _ _ (in_c _ _ _ _ Hinv)) as Hpl. destruct (at_place tc) as [|last|[]| | | | | |] eqn:Ep; try done.
  - right; left. pose proof (c_passes _ _ _ _ last Hinv Ep) as Hn. unfold ahead, advance. rewrite Hi, Ep. eexists. split; [done|].
    pose proof (barrier_of_one i tc last _ _ (in_p _ _ _ _ Hinv) (in_c _ _ _ _ Hinv) ltac:(congruence)) as Eb. rewrite Hset, <- Ht in Eb.
    split; [by exists tp, (tc <| at_place := past_barrier last |>)|]. simpl. rewrite Eb, Ht, !both_total. pose proof (passes_cheaper tc last Ep). lia.
  - right; left. by apply Hgo, c_starts.
  - pose proof (in_order _ _ _ _ Hinv) as Hord. unfold taken in Hord. rewrite Ep in Hord.
    destruct (Z.eq_dec (iterations tc) (iterations tp)) as [E|]; [|right; left; apply Hgo, c_receives; done || lia].
    destruct (told (at_place tp)) eqn:Et; [right; left; by apply Hgo, c_finishes|].
    right; right. unfold advance. by rewrite Hi, Ep, (c_sleeps _ _ _ _ Hinv Ep E Et).
  - right; left. by apply Hgo, c_completes.
  - by destruct Hpl.
  - right; left. by apply Hgo, c_leaves.
  - left. unfold advance. by rewrite Hi, Ep.
Qed.

End Advance.

Lemma sums_advance y i : sys_inv y ->
  match advances i y with
  | Ok None => True
  | Ok (Some y') => sys_inv y' /\ (total TOTAL_ITERATIONS (threads y') < total TOTAL_ITERATIONS (threads y))%nat
  | Fault f => f = Blocks
  end.
Proof.
  intros (tp & tc & Ht & Hinv). destruct (threads y !! i) as [t|] eqn:Hi; [|unfold advance; by rewrite Hi].
  pose proof Hi as Hi'. rewrite Ht in Hi'. destruct (both_cases _ _ _ _ Hi') as [[-> E]|[-> E]].
  - destruct (p_advances y tp tc i Ht Hinv E Hi) as [[-> _]|[(y' & -> & Hy')|[-> _]]]; done.
  - destruct (c_advances y tp tc i Ht Hinv E Hi) as [[-> _]|[(y' & -> & Hy')|[-> _]]]; done.
Qed.

Lemma sums_progress y : sys_inv y -> (forall t, t ∈ threads y -> at_place t = Gone) \/ exists y', steps y y'.
Proof.
  intros (tp & tc & Ht & Hinv).
  destruct (p_advances y tp tc (if swapped then 1 else 0)%nat Ht Hinv) as [[_ Gp]|[(y' & E & _)|(_ & Pc & Plt)]].
  { intros t'. unfold both. by destruct swapped. }
  { rewrite Ht. unfold both. by destruct swapped. }
  2:{ right. exists y'. by eexists. }
  all: destruct (c_advances y tp tc (if swapped then 0 else 1)%nat Ht Hinv) as [[_ Gc]|[(y' & E & _)|(_ & Cl & Ce & Ct)]];
    [intros t'; unfold both; by destruct swapped|rewrite Ht; unfold both; by destruct swapped|..].
  - left. rewrite Ht. unfold both. intros t. rewrite list_elem_of_In. destruct swapped; simpl; intuition congruence.
  - right. exists y'. by eexists.
  - by rewrite Gp in Ct.
  - pose proof Hinv as [_ _ _ (gr & _ & Hf) _ _ _]. rewrite Gc, Pc in Hf. pose proof (fl_order _ _ _ _ _ _ _ Hf eq_refl). done.
  - right. exists y'. by eexists.
  - unfold taken in Plt. rewrite Cl in Plt. lia.
Qed.

End Sums.

(** ** The runs *)

Section Runs.
Context {W : Type} `{Syscalls W} (retries rounds fuel : nat) (junk : node_t).
Implicit Types (y : system W ring_data).

(** A thread that has claimed node [n] and found its buffer. *)
Definition claimed_thread (tid : Z) (arg : argument) (n : node_t) (src : bool) (buf : Z) : thread ring_data :=
  Thread tid arg n src 0 (RData buf 0) (AtBarrier false).

(** Both threads have claimed their nodes; the ring between them is empty and its
    two buffers are apart. *)
Record claimed (gr : pgm_graph) (g p c x bo bi tid_p tid_c : Z) (swapped : bool) y : Prop := {
  cl_graph : has_graph (lib (prog y)) g gr;
  cl_wired : wired p c x gr;
  cl_edge : ring_edge (gedge gr x) 4;
  cl_empty : carries (gedge gr x) 4 [];
  cl_cap : 0 < Ring.nmemb (ringbuf (gedge gr x));
  cl_pending : nr_pending (gedge gr x) = 0;
  cl_cmd : has_flag (ring_cmd (gedge gr x)) PGM_TERMINATE = false;
  cl_ends : nr_terminate_signals (gnode gr c) = 0 /\ nr_terminate_msgs (gnode gr c) = 0;
  cl_bufs : pgm_get_user_ptr (buf_out (gedge gr x)) = bo /\ pgm_get_user_ptr (buf_in (gedge gr x)) = bi;
  cl_apart : bo <> 0 /\ bi <> 0 /\ (bo + 4 <= bi \/ bi + 4 <= bo);
  cl_owners : owner (gnode gr p) = tid_p /\ owner (gnode gr c) = tid_c;
  cl_tids : tid_p <> 0 /\ tid_p <> UNCLAIMED_NODE /\ tid_c <> 0 /\ tid_c <> UNCLAIMED_NODE;
  cl_errors : errors (prog y) = 0;
  cl_stdout : stdout y = [];
  cl_threads : exists arg arg', threads y = both swapped
    (claimed_thread tid_p arg (Node_t g p) true bo) (claimed_thread tid_c arg' (Node_t g c) false bi)
}.

Lemma claimed_inv gr g p c x bo bi tid_p tid_c swapped TOTAL_ITERATIONS y :
  claimed gr g p c x bo bi tid_p tid_c swapped y -> 0 <= TOTAL_ITERATIONS ->
  sys_inv g p c x bo bi tid_p tid_c TOTAL_ITERATIONS swapped y /\
  Z.of_nat (total TOTAL_ITERATIONS (threads y)) = 4 * TOTAL_ITERATIONS + 20.
Proof.
  intros [Hg Hw He Hq Hcap Hpe Hcmd [Hs Hm] [Hbo Hbi] _ [Hop Hoc] _ Herr Hout (arg & arg' & Ht)] HT. split.
  - eexists _, _. split; [exact Ht|]. rewrite Hout. split; try done; simpl.
    + split; simpl; try done. unfold rounds_due. lia.
    + split; simpl; try done. unfold rounds_due. lia.
    + exists gr. split; [done|]. by split.
  - rewrite Ht, both_total. unfold cost, rounds_due. simpl. lia.
Qed.

Lemma sums_runs gr g p c x bo bi tid_p tid_c swapped TOTAL_ITERATIONS k y0 y :
  claimed gr g p c x bo bi tid_p tid_c swapped y0 -> 0 <= TOTAL_ITERATIONS < 2 ^ 31 - 1 ->
  nsteps (step retries fuel junk ringtest_count (ring_program (S rounds) fuel TOTAL_ITERATIONS)) k y0 y ->
  sys_inv g p c x bo bi tid_p tid_c TOTAL_ITERATIONS swapped y /\
  (k + total TOTAL_ITERATIONS (threads y) <= total TOTAL_ITERATIONS (threads y0))%nat.
Proof.
  intros Hst HT Hk. pose proof Hst as [_ _ _ _ _ _ _ _ _ (Hb1 & Hb2 & Hap) _ Hti _ _ _].
  destruct (claimed_inv _ _ _ _ _ _ _ _ _ _ _ _ Hst (proj1 HT)) as [Hy _]. clear Hst.
  induction Hk as [y|k y0 y1 y [i E] _ IH]; [auto|].
  pose proof (sums_advance retries rounds fuel junk g p c x bo bi tid_p tid_c TOTAL_ITERATIONS HT (conj Hb1 Hb2) Hap Hti swapped y0 i Hy) as Hc.
  unfold ringtest_count in E. rewrite E in Hc. destruct Hc as [Hy1 Hlt]. destruct (IH Hy1). split; [done|lia].
Qed.

(** C8. The two threads of ringtest, once both have claimed their nodes, in any
    interleaving of their calls: a run has at most [4 * TOTAL_ITERATIONS + 20]
    turns; at no moment has a call of the library failed or does a turn do anything
    undefined (a thread can only sleep on a full or an empty ring); and when no
    thread can move any more, both have left, both have printed the sum
    [0 + 1 + ... + TOTAL_ITERATIONS], and the nodes are released with the ring
    empty. *)
Theorem ringtest_sums_agree gr g p c x bo bi tid_p tid_c swapped TOTAL_ITERATIONS k y0 y :
  claimed gr g p c x bo bi tid_p tid_c swapped y0 -> 0 <= TOTAL_ITERATIONS < 2 ^ 31 - 1 ->
  nsteps (step retries fuel junk ringtest_count (ring_program (S rounds) fuel TOTAL_ITERATIONS)) k y0 y ->
  Z.of_nat k <= 4 * TOTAL_ITERATIONS + 20 /\
  errors (prog y) = 0 /\
  (forall i f, advance retries fuel junk ringtest_count (ring_program (S rounds) fuel TOTAL_ITERATIONS) i y = Fault f -> f = Blocks) /\
  (~ (exists y', step retries fuel junk ringtest_count (ring_program (S rounds) fuel TOTAL_ITERATIONS) y y') ->
   (forall t, t ∈ threads y -> at_place t = Gone) /\
   (let sum := TOTAL_ITERATIONS * (TOTAL_ITERATIONS + 1) / 2 in stdout y ≡ₚ [Sums p sum; Sums c sum]) /\
   exists gr', has_graph (lib (prog y)) g gr' /\ graph_wf gr' /\ carries (gedge gr' x) 4 [] /\
     nr_pending (gedge gr' x) = 0 /\ owner (gnode gr' p) = UNCLAIMED_NODE /\ owner (gnode gr' c) = UNCLAIMED_NODE).
Proof.
  intros Hst HT Hk. destruct (sums_runs _ _ _ _ _ _ _ _ _ _ _ _ _ _ Hst HT Hk) as [Hy Hle].
  destruct (claimed_inv _ _ _ _ _ _ _ _ _ _ _ _ Hst (proj1 HT)) as [_ Htot].
  pose proof Hst as [_ _ _ _ _ _ _ _ _ (Hb1 & Hb2 & Hap) _ Hti _ _ _]. split; [lia|].
  pose proof Hy as (tp & tc & Ht & [He Hp Hc (gr' & Hg & Hf) _ _ Hlog]). split; [done|]. split.
  - intros i f E.
    pose proof (sums_advance retries rounds fuel junk g p c x bo bi tid_p tid_c TOTAL_ITERATIONS HT (conj Hb1 Hb2) Hap Hti swapped y i Hy) as Ha.
    unfold ringtest_count in E. by rewrite E in Ha.
  - intros Hno.
    destruct (sums_progress retries rounds fuel junk g p c x bo bi tid_p tid_c TOTAL_ITERATIONS HT (conj Hb1 Hb2) Hap Hti swapped y Hy)
      as [Hgone|Hcan]; [|by destruct Hno]. split; [done|].
    assert (Gp : at_place tp = Gone) by (apply Hgone; rewrite Ht; unfold both; destruct swapped; set_solver).
    assert (Gc : at_place tc = Gone) by (apply Hgone; rewrite Ht; unfold both; destruct swapped; set_solver).
    pose proof (so_place _ _ _ _ _ _ _ _ _ _ Hp) as Ep. pose proof (so_place _ _ _ _ _ _ _ _ _ _ Hc) as Ec.
    unfold printed_by, has_quit, the_sum, gauss, taken, rounds_due in *. rewrite Gp in Ep, Hf, Hlog. rewrite Gc in Ec, Hf, Hlog.
    simpl in Hlog, Hf. rewrite Ep, Ec, Z.add_0_r in Hf. split.
    + rewrite Hlog. simpl. by replace ((TOTAL_ITERATIONS + 1) * (TOTAL_ITERATIONS + 1 - 1)) with (TOTAL_ITERATIONS * (TOTAL_ITERATIONS + 1)) by lia.
    + exists gr'. destruct Hf as [Hw _ Hq _ Hpe _ _ _ _ _ _ Hop Hoc]. rewrite messages_nil in Hq. split_and!; try done; [apply Hw|lia].
Qed.

End Runs.

(** ** Concrete runs *)

Definition small_ring : Ring.ring :=
  match Ring.init_ring Ring.test_alloc (Some zeroed) 2 4 with Ok (_, Some r) => r | _ => zeroed end.

(** Two nodes joined by a ring of two elements, claimed by threads 101 and 102. *)
Definition ring_pair : pgm_graph :=
  set_owner 1 102 (set_owner 0 101 (link_edge 0 1
    ((fresh_edge (Node_t 0 0) (Node_t 0 1) (lit "e0_1") (ring_attr <| u_word := 2 |>) false 0)
       <| e_ops := Some pgm_ring_edge_ops |> <| e_ipc := IpcRing small_ring 0 |> <| buf_out := 1024 |> <| buf_in := 2048 |>)
    demo_nodes)).

Definition ring_pair_system : system Z ring_data :=
  System (Driver (demo_state ring_pair) 0)
    [claimed_thread 101 (AnyOf 0) (Node_t 0 0) true (pgm_get_user_ptr 1024);
     claimed_thread 102 (AnyOf 0) (Node_t 0 1) false (pgm_get_user_ptr 2048)] [].

Lemma small_ring_queue : Ring.queue small_ring [].
Proof.
  destruct (Ring.init_ring_queue Ring.test_alloc zeroed 2 4 (Block 2 ∅) (Block 8 ∅)) as (r & E & Hq & _); try done.
  - apply Ring.test_alloc_ok.
  - unfold small_ring. by rewrite E.
Qed.

Lemma ring_pair_wf : graph_wf ring_pair.
Proof. apply set_owner_wf, set_owner_wf, link_edge_wf; [apply demo_nodes_wf|done..]. Qed.


Lemma ring_pair_claimed :
  claimed ring_pair 0 0 1 0 (pgm_get_user_ptr 1024) (pgm_get_user_ptr 2048) 101 102 false ring_pair_system.
Proof.
  assert (Hc : forall n, is_node ring_pair n -> n = 0 \/ n = 1)
    by (intros n [Hc Hc']; change (nr_nodes ring_pair) with 2 in Hc'; lia).
  assert (Er : ringbuf (gedge ring_pair 0) = small_ring) by (vm_compute; reflexivity).
  assert (Es : Ring.nmemb small_ring = 2 /\ Ring.memb_sz small_ring = 4) by (vm_compute; done). destruct Es as [Es Em].
  split; try done; try (vm_compute; done); rewrite ?Er, ?Es; try done.
  - by apply demo_usable.
  - split; try (vm_compute; done); [apply ring_pair_wf|]. intros i [->| ->]%Hc; vm_compute; reflexivity.
  - split; rewrite Er; [apply small_ring_queue|done].
  - split_and!; [done..|]. left. vm_compute. discriminate.
  - by exists (AnyOf 0), (AnyOf 0).
Qed.

Lemma ringtest_sums_agree_witness :
  exists y, run 0 0 (Node_t 0 0) ringtest_count (ring_program 1 0 5) (concat (replicate 40 [0; 1]%nat)) ring_pair_system = Ok y /\
    stdout y ≡ₚ [Sums 0 15; Sums 1 15].
Proof.
  destruct (run 0 0 (Node_t 0 0) ringtest_count (ring_program 1 0 5) (concat (replicate 40 [0; 1]%nat)) ring_pair_system)
    as [y|] eqn:E; [|vm_compute in E; discriminate].
  exists y. split; [done|].
  assert (Hg : forallb (fun t => bool_decide (at_place t = Gone)) (threads y) = true)
    by (vm_compute in E; injection E as <-; vm_compute; reflexivity).
  apply sched_steps in E as [k Hk]%rtc_nsteps.
  destruct (ringtest_sums_agree 0 0 0 (Node_t 0 0) _ _ _ _ _ _ _ _ _ _ 5 k _ y ring_pair_claimed ltac:(lia) Hk) as (_ & _ & _ & Hend).
  by destruct (Hend (gone_stops _ _ _ _ _ y Hg)) as (_ & Hs & _).
Defined.

(** ringtest from its first line to its last, in a small world of its own: with 40
    numbers over its ring of 32, the threads in turns or the source first, both sums
    are the same and no error is counted. *)
Definition ringtest_outcome (sched : list nat) : option (list line * Z) :=
  match ringtest (W := Z) 9 9 9 (Node_t 0 0) (Edge_t 0 0) 0 (RData 0 0) 40 101 102 sched (Driver demo_start 0) with
  | Ok (inr out, d) => Some (out, errors d)
  | _ => None
  end.

Lemma ringtest_runs :
  ringtest_outcome (concat (replicate 200 [0; 1]%nat)) = Some ([Sums 0 820; Sums 1 820], 0) /\
  ringtest_outcome ([0; 1] ++ replicate 80 0 ++ concat (replicate 200 [1; 0]))%nat = Some ([Sums 0 820; Sums 1 820], 0).
Proof. vm_compute. done. Qed.

End RingSums.
