(* ===== verification/DataTest.v ===== *)
(** * The test programs that pass data (tools/backedgetest.cpp,
    tools/datapassingtest.cpp) and the set-up of tools/basictest.cpp and
    tools/sockstreamtest.cpp

    The programs as instances of the threaded test program, and their [main]s.  A
    small world with FIFOs and message queues runs them. *)

From Stdlib Require Import Ascii String.
From S2P Require Import Prelude Ring Types Sys Structure Memory Ipc GraphInit GraphWf Query Ownership Stream Tokens Startup Teardown Driver Tests Threads RingTest.

Module DataTest.
Import Types Sys Structure Memory GraphInit Query Ownership Stream Tokens Startup Driver Tests Threads RingTest.
#[local] Open Scope Z_scope.

Section Code.
Context {W : Type} `{Syscalls W} (retries rounds fuel : nat).
(** What uninitialised variables hold. *)
Context (junk_node : node_t) (junk_edge : edge_t).

(** [assert] *)
Definition c_assert (ok : bool) : ST (driver W) unit := if ok then mret tt else fail AssertFailure.

(** ** backedgetest *)

Record back_data := BData { b_buf : Z; b_nr_skips : Z; b_skipped : Z }.

#[global] Instance back_data_eta : Eta back_data := fun v => BData (b_buf v) (b_nr_skips v) (b_skipped v).

Definition back_setup (node : node_t) (in_degree : Z) : ST (driver W) back_data :=
  '(ret, data) ← (if in_degree =? 0
    then '(ret, es) ← lib_call (pgm_get_edges_in node true 1 false);
         let backedge := default junk_edge (List.hd_error es) in
         n ← lib_call (pgn_get_nr_skips_remaining backedge);
         c_assert (0 <? n) ;;
         buf ← lib_call (pgm_get_edge_buf_c backedge); mret (ret, BData buf n 0)
    else '(ret, es) ← lib_call (pgm_get_edges_out node true 1 false);
         buf ← lib_call (pgm_get_edge_buf_p (default junk_edge (List.hd_error es))); mret (ret, BData buf 0 0));
  c_assert (ret =? 1) ;;
  mret data.

Definition back_head (TOTAL_ITERATIONS : Z) (t : thread back_data) : ST (driver W) (Z * thread back_data) :=
  ret ← lib_call (pgm_wait rounds fuel (t_node t));
  if is_src t
  then mret (if TOTAL_ITERATIONS <? iterations t then PGM_TERMINATE else ret,
             t <| t_data ::= fun v => v <| b_skipped ::= fun k => signed 32 (k + 1) |> |>)
  else mret (ret, t).

Definition back_body (t : thread back_data) : ST (driver W) (thread back_data * list line) :=
  let v := t_data t in
  let n := nd_node (t_node t) in
  out ← (if is_src t
         then if b_nr_skips v <? b_skipped v then x ← get_u32 (b_buf v); mret [Reads n x] else mret []
         else put_u32 (b_buf v) (iterations t) ;; mret []);
  mret (t, Fires n :: out).

Definition back_program (TOTAL_ITERATIONS : Z) : program W back_data :=
  Program back_setup (back_head TOTAL_ITERATIONS) back_body
    (fun t => [Terminates (nd_node (t_node t))]) (fun _ => mret tt).

Definition backedgetest_count : Z := 1.
Definition backedgetest_iterations : Z := 10.
Definition backedge_attr : edge_attr_t := Attr 4 4 4 pgm_fifo_edge 0 0 0.

Definition backedgetest `{Filesystem W} (junk_graph : Z) (junk_data : back_data)
    (tid0 tid1 : Z) (sched : list nat) : DM W (list line) :=
  ret ← call (pgm_init fuel "/tmp/graphs" true false); CheckError ret ;;
  '(ret, g) ← call (pgm_init_graph junk_graph (lit "demo")); CheckError ret ;;
  n0 ← new_node junk_node (pgm_init_node (Some junk_node) g (lit "n0"));
  n1 ← new_node junk_node (pgm_init_node (Some junk_node) g (lit "n1"));
  _ ← new_edge junk_edge (pgm_init_edge (Some junk_edge) n0 n1 (lit "e0_1") default_edge);
  _ ← new_edge junk_edge (pgm_init_backedge (Some junk_edge) (backedgetest_iterations ÷ 2) n1 n0 (lit "be1_0") backedge_attr);
  out ← run_threads retries fuel junk_node backedgetest_count (back_program backedgetest_iterations) sched
          [new_thread junk_node junk_data tid0 (AnyOf g); new_thread junk_node junk_data tid1 (AnyOf g)];
  ret ← call (pgm_destroy_graph g); CheckError ret ;;
  ret ← call pgm_destroy; CheckError ret ;;
  mret out.

(** ** datapassingtest *)

Record pass_data := PData { out_edges : list edge_t; out_bufs : list Z; in_bufs : list Z; extra_buf : Z }.

#[global] Instance pass_data_eta : Eta pass_data := fun v => PData (out_edges v) (out_bufs v) (in_bufs v) (extra_buf v).

(** The array of edges: what the call stored, zeroes after it. *)
Definition edge_array (degree : Z) (es : list edge_t) : list edge_t :=
  take (Z.to_nat degree) es ++ replicate (Z.to_nat degree - List.length es) (Edge_t 0 0).

Definition all_bufs (get : edge_t -> ST (pgm_state W) Z) (es : list edge_t) : ST (driver W) (list Z) :=
  for_acc es [] (fun e bufs => b ← lib_call (get e); mret (bufs ++ [b])).

(** [calloc0]: whether [calloc(0, n)] gives a pointer. *)
Definition pass_setup (calloc0 : bool) (node : node_t) (in_degree : Z) : ST (driver W) pass_data :=
  out_degree ← lib_call (pgm_get_degree_out node true);
  '(ret, es) ← lib_call (pgm_get_edges_out node ((0 <? out_degree) || calloc0) out_degree true);
  Threads.check_error ret ;;
  let out_edges := edge_array out_degree es in
  out_bufs ← all_bufs pgm_get_edge_buf_p out_edges;
  '(ret, es) ← lib_call (pgm_get_edges_in node ((0 <? in_degree) || calloc0) in_degree true);
  Threads.check_error ret ;;
  in_bufs ← all_bufs pgm_get_edge_buf_c (edge_array in_degree es);
  extra ← (if in_degree =? 0
           then e ← lift (deref (List.hd_error out_edges));
                b ← lib_call (pgm_malloc_edge_buf_p e);
                Threads.check_error (if b =? 0 then -1 else 0) ;; mret b
           else mret 0);
  mret (PData out_edges out_bufs in_bufs extra).

Definition halfval (iterations : Z) : Z := if negb (Z.rem iterations 2 =? 0) then 57005 (* 0xdead *) else 48879 (* 0xbeef *).

(** [if(out_bufs[i]) ... = v], a value of [n] bytes. *)
Definition put_all (n : nat) (v : Z) (bufs : list Z) : ST (driver W) unit :=
  for_acc bufs tt (fun b _ => if b =? 0 then mret tt else lib_call (wr_bytes b (le_bytes n v))).

Definition sum_all (bufs : list Z) : ST (driver W) Z :=
  for_acc bufs 0 (fun b val => if b =? 0 then mret val
    else bs ← lib_call (rd_bytes b 4); mret (wrap32 (val + le_value bs))).

Definition pass_body (t : thread pass_data) : ST (driver W) (thread pass_data * list line) :=
  let v := t_data t in
  if is_src t then
    e ← lift (deref (List.hd_error (out_edges v)));
    extra ← lib_call (pgm_swap_edge_buf_p e (extra_buf v));
    put_all 2 (halfval (iterations t)) (out_bufs v) ;;
    mret (t <| t_data := v <| extra_buf := extra |> |>, [])
  else
    val ← sum_all (in_bufs v);
    v ← match in_bufs v, out_bufs v with
        | a :: ins, b :: outs =>
            ret ← lib_call (pgm_swap_edge_bufs a b);
            Threads.check_error ret ;;
            mret (v <| in_bufs := b :: ins |> <| out_bufs := a :: outs |>)
        | _, _ => mret v
        end;
    put_all 4 val (out_bufs v) ;;
    mret (t <| t_data := v |>, []).

Definition pass_cleanup (t : thread pass_data) : ST (driver W) unit :=
  let b := extra_buf (t_data t) in if b =? 0 then mret tt else lib_call (pgm_free b).

Definition pass_program (calloc0 : bool) (TOTAL_ITERATIONS : Z) : program W pass_data :=
  Program (pass_setup calloc0) (head_or_limit rounds fuel TOTAL_ITERATIONS) pass_body
    (fun t => [Terminates (nd_node (t_node t))]) pass_cleanup.

Definition datapassingtest_count : Z := 3.
Definition datapassingtest_iterations : Z := 4 * 1000.
Definition pass_mq_attr : edge_attr_t := Attr 4 4 4 pgm_mq_edge 10 0 0.
Definition pass_fifo_attr : edge_attr_t := Attr (4 / 2) 4 4 pgm_fifo_edge 10 0 0.

Definition datapassingtest `{Filesystem W} (calloc0 : bool) (junk_graph : Z) (junk_data : pass_data)
    (TOTAL_ITERATIONS tid0 tid1 tid2 : Z) (sched : list nat) : DM W (list line) :=
  ret ← call (pgm_init fuel "/tmp/graphs" true false); CheckError ret ;;
  '(ret, g) ← call (pgm_init_graph junk_graph (lit "demo")); CheckError ret ;;
  n0 ← new_node junk_node (pgm_init_node (Some junk_node) g (lit "n0"));
  n1 ← new_node junk_node (pgm_init_node (Some junk_node) g (lit "n1"));
  n2 ← new_node junk_node (pgm_init_node (Some junk_node) g (lit "n2"));
  _ ← new_edge junk_edge (pgm_init_edge (Some junk_edge) n0 n1 (lit "e0_1") pass_fifo_attr);
  _ ← new_edge junk_edge (pgm_init_edge (Some junk_edge) n1 n2 (lit "e1_2") pass_mq_attr);
  out ← run_threads retries fuel junk_node datapassingtest_count (pass_program calloc0 TOTAL_ITERATIONS) sched
          ((fun tid => new_thread junk_node junk_data tid (AnyOf g)) <$> [tid0; tid1; tid2]);
  ret ← call (pgm_destroy_graph g); CheckError ret ;;
  ret ← call pgm_destroy; CheckError ret ;;
  mret out.

(** ** basictest and sockstreamtest *)

Definition basictest_count : Z := 7.
Definition basictest_iterations : Z := 3.
Definition basic_cv_attr : edge_attr_t := Attr 1 1 1 pgm_cv_edge 0 0 0.

(** The thread function, whose argument is its node. *)
Definition basictest_program : program W unit := basic_program rounds fuel basictest_iterations.

Definition basictest `{Filesystem W} (junk_graph : Z) (tids : list Z) (sched : list nat) : DM W (list line) :=
  let node name := new_node junk_node (pgm_init_node (Some junk_node) name.1 (lit name.2)) in
  let edge p c name a := new_edge junk_edge (pgm_init_edge (Some junk_edge) p c (lit name) a) in
  ret ← call (pgm_init fuel "/tmp/graphs" true false); CheckError ret ;;
  '(ret, g) ← call (pgm_init_graph junk_graph (lit "demo")); CheckError ret ;;
  n0 ← node (g, "n0"%string); n1 ← node (g, "n1"%string); n2 ← node (g, "n2"%string); n3 ← node (g, "n3"%string);
  n4 ← node (g, "n4"%string); n5 ← node (g, "n5"%string); n6 ← node (g, "n6"%string);
  _ ← edge n0 n1 "e0_1"%string basic_cv_attr;
  _ ← edge n0 n2 "e0_2"%string fifo_attr;
  _ ← edge n0 n3 "e0_3"%string fast_mq_attr;
  _ ← edge n0 n4 "e0_4"%string mq_attr;
  _ ← edge n0 n5 "e0_5"%string fast_fifo_attr;
  _ ← edge n1 n6 "e1_6"%string fast_mq_attr;
  _ ← edge n2 n6 "e2_6"%string fifo_attr;
  _ ← edge n3 n6 "e3_6"%string basic_cv_attr;
  _ ← edge n4 n6 "e4_6"%string mq_attr;
  _ ← edge n5 n6 "e5_6"%string fast_fifo_attr;
  out ← run_threads retries fuel junk_node basictest_count basictest_program sched
          (zip_with (fun tid n => new_thread junk_node tt tid (This n)) tids [n0; n1; n2; n3; n4; n5; n6]);
  ret ← call (pgm_destroy_graph g); CheckError ret ;;
  ret ← call pgm_destroy; CheckError ret ;;
  mret out.

(** [localhost] is the address of that string. *)
Definition tcp_attr (localhost : Z) : edge_attr_t := Attr 1 1 1 pgm_sock_stream_edge 10101 localhost 0.

Definition sockstreamtest_count : Z := 1.
Definition sockstreamtest_iterations : Z := 4.

(** The thread function, whose argument is the graph. *)
Definition sockstream_program : program W unit := basic_program rounds fuel sockstreamtest_iterations.

Definition sockstreamtest `{Filesystem W} (junk_graph localhost tid0 tid1 : Z) (sched : list nat)
    : DM W (list line) :=
  ret ← call (pgm_init fuel "/tmp/graphs" true false); CheckError ret ;;
  '(ret, g) ← call (pgm_init_graph junk_graph (lit "demo")); CheckError ret ;;
  n0 ← new_node junk_node (pgm_init_node (Some junk_node) g (lit "n0"));
  n1 ← new_node junk_node (pgm_init_node (Some junk_node) g (lit "n1"));
  _ ← new_edge junk_edge (pgm_init_edge (Some junk_edge) n0 n1 (lit "e0_1") (tcp_attr localhost));
  out ← run_threads retries fuel junk_node sockstreamtest_count sockstream_program sched
          [new_thread junk_node tt tid0 (AnyOf g); new_thread junk_node tt tid1 (AnyOf g)];
  ret ← call (pgm_destroy_graph g); CheckError ret ;;
  ret ← call pgm_destroy; CheckError ret ;;
  mret out.

End Code.

(** ** A small world *)

(** Pipes and message queues by name, the names of the open descriptors, the state
    of the directory of graphs, the end of the memory handed out. *)
Record posix := Posix {
  px_end : Z;
  px_dir : Z;
  px_pipes : gmap string (list Z);
  px_queues : gmap string (list (list Z));
  px_fds : gmap Z string
}.

#[global] Instance posix_eta : Eta posix := fun w => Posix (px_end w) (px_dir w) (px_pipes w) (px_queues w) (px_fds w).

Definition px_open (n : string) (w : posix) : Z * posix :=
  let fd := 3 + Z.of_nat (size (px_fds w)) in (fd, w <| px_fds ::= <[fd := n]> |>).

Definition px_name (fd : Z) (w : posix) : string := default EmptyString (px_fds w !! fd).
Definition px_pipe (fd : Z) (w : posix) : list Z := default [] (px_pipes w !! px_name fd w).
Definition px_queue (fd : Z) (w : posix) : list (list Z) := default [] (px_queues w !! px_name fd w).

(** Opening never has to wait; reading from an empty channel fails with [EAGAIN]. *)
#[global] Instance posix_sys : Syscalls posix := {|
  sys_errno _ := EAGAIN;
  sys_gettid _ := 1234;
  sys_malloc n w := (px_end w, w <| px_end ::= fun a => a + 16 * (n / 16 + 1) |>);
  sys_free _ w := w;
  sys_alloc _ := Ring.test_alloc;
  sys_new_graphs w := (true, w);
  sys_shm_remove _ w := w;
  sys_time w := (0, w);
  sys_usleep _ w := w;
  string_hash _ := 0;
  path_append d n := (d +:+ "/" +:+ n)%string;
  fs_remove _ w := (true, w);
  fs_exists _ w := (true, w);
  sys_mkfifo _ w := (0, w);
  sys_open_rdonly := px_open;
  sys_open_wronly := px_open;
  sys_close _ w := (0, w);
  sys_read fd n w := match px_pipe fd w with
                     | [] => ((-1, []), w)
                     | bs => let r := take (Z.to_nat n) bs in
                             ((Z.of_nat (List.length r), r), w <| px_pipes ::= <[px_name fd w := drop (Z.to_nat n) bs]> |>)
                     end;
  sys_write fd bs w := (Z.of_nat (List.length bs), w <| px_pipes ::= <[px_name fd w := px_pipe fd w ++ bs]> |>);
  sys_select _ fds w := let r := filter (fun fd => (px_pipe fd w <> []) \/ (px_queue fd w <> [])) fds in
                        ((Z.of_nat (List.length r), r), w);
  sys_mq_unlink _ w := (0, w);
  sys_mq_open_rdonly n _ _ := px_open n;
  sys_mq_open_wronly n _ _ := px_open n;
  sys_mq_close _ w := (0, w);
  sys_mq_receive fd n w := match px_queue fd w with
                           | [] => ((-1, []), w)
                           | m :: q => ((Z.of_nat (List.length m), m), w <| px_queues ::= <[px_name fd w := q]> |>)
                           end;
  sys_mq_send fd bs w := (0, w <| px_queues ::= <[px_name fd w := px_queue fd w ++ [bs]]> |>);
  sys_getaddrinfo _ _ _ w := ((0, [1]), w);
  sys_freeaddrinfo _ w := w;
  sys_socket _ := px_open "socket";
  sys_connect _ _ w := (0, w);
  sys_bind _ _ w := (0, w);
  sys_listen _ _ w := (0, w);
  sys_accept _ := px_open "socket";
  sys_recv fd n w := match px_pipe fd w with
                     | [] => ((-1, []), w)
                     | bs => let r := take (Z.to_nat n) bs in
                             ((Z.of_nat (List.length r), r), w <| px_pipes ::= <[px_name fd w := drop (Z.to_nat n) bs]> |>)
                     end;
  sys_send fd bs w := (Z.of_nat (List.length bs), w <| px_pipes ::= <[px_name fd w := px_pipe fd w ++ bs]> |>)
|}.

#[global] Instance posix_fs : Filesystem posix := {|
  path_elements := posix_elements;
  path_is_relative s := match s with String "/" _ => false | _ => true end;
  fs_current_path _ := Some "/home/me"%string;
  fs_present _ w := Some (negb (px_dir w =? 0));
  fs_is_directory _ w := Some (negb (px_dir w =? 0));
  fs_equivalent _ _ _ := Some false;
  fs_is_empty _ w := Some (px_dir w =? 1);
  fs_create_directories _ w := if px_dir w =? 0 then (Some true, w <| px_dir := 1 |>) else (Some false, w);
  fs_remove_all _ w := (Some 1, w <| px_dir := 0 |>)
|}.

Definition posix_start : pgm_state posix :=
  State None false false EmptyString EmptyString (Heap ∅ ∅) (Posix 4096 0 ∅ ∅ ∅).

Definition outcome_of {A} (m : DM posix A) : option (A * Z) :=
  match m (Driver posix_start 0) with Ok (inr out, d) => Some (out, errors d) | _ => None end.

(** ** Runs *)

(** Schedules of [n] threads, [k] times around: a turn each, or two. *)
Definition in_turns (k n : nat) : list nat := concat (replicate k (List.seq 0 n)).
Definition in_pairs (k n : nat) : list nat := concat (replicate k (concat ((fun i => [i; i]) <$> List.seq 0 n))).

(** backedgetest: the source skips the backedge five times and then reads what the
    other node wrote, from its first number on. *)
Lemma backedgetest_runs :
  outcome_of (backedgetest 9 9 9 (Node_t 0 0) (Edge_t 0 0) 0 (BData 0 0 0) 101 102 (in_turns 50 2)) =
  Some (concat (replicate 5 [Fires 0; Fires 1]) ++ concat ((fun k => [Fires 0; Reads 0 k; Fires 1]) <$> seqZ 0 6) ++
        [Terminates 0; Terminates 1], 0).
Proof. vm_compute. reflexivity. Qed.

(** basictest, over all kinds of edges within one host. *)
Lemma basictest_runs :
  outcome_of (basictest 9 9 9 (Node_t 0 0) (Edge_t 0 0) 0 (seqZ 101 7) (in_turns 3 7 ++ in_pairs 5 7 ++ in_turns 2 7)) =
  Some (concat (replicate 4 (Fires <$> seqZ 0 7)) ++ (Terminates <$> seqZ 0 7), 0).
Proof. vm_compute. reflexivity. Qed.

Lemma sockstreamtest_runs :
  outcome_of (sockstreamtest 9 9 9 (Node_t 0 0) (Edge_t 0 0) 0 77 101 102 (in_turns 3 2 ++ in_pairs 6 2 ++ in_turns 2 2)) =
  Some (concat (replicate 5 [Fires 0; Fires 1]) ++ [Terminates 0; Terminates 1], 0).
Proof. vm_compute. reflexivity. Qed.

(** datapassingtest with four halves of a message: the source twice as often as the
    others. *)
Definition pass_rounds : list nat := [0; 0; 0; 0; 1; 1; 2; 2]%nat.

Lemma datapassingtest_runs :
  outcome_of (datapassingtest 9 9 9 (Node_t 0 0) (Edge_t 0 0) true 0 (PData [] [] [] 0) 3 101 102 103
    (in_turns 3 3 ++ concat (replicate 2 pass_rounds) ++ [0; 0; 0; 1; 1; 2; 2]%nat ++ in_turns 2 3)) =
  Some (Terminates <$> seqZ 0 3, 0).
Proof. vm_compute. reflexivity. Qed.

(** The source of datapassingtest swaps the edge's buffer for the spare one before
    each message but goes on writing through the pointer it had: half of its values
    go into the spare buffer.  What it sends are the bytes that [malloc] left there
    and 0xdead in turns, never 0xbeef. *)
Definition pass_sent (k : nat) : option (list (list Z)) :=
  match (ret ← call (pgm_init 9 "/tmp/graphs" true false);
         '(ret, g) ← call (pgm_init_graph 0 (lit "demo"));
         n0 ← new_node (Node_t 0 0) (pgm_init_node (Some (Node_t 0 0)) g (lit "n0"));
         n1 ← new_node (Node_t 0 0) (pgm_init_node (Some (Node_t 0 0)) g (lit "n1"));
         _ ← new_edge (Edge_t 0 0) (pgm_init_edge (Some (Edge_t 0 0)) n0 n1 (lit "e0_1") pass_fifo_attr); mret g)
        (Driver posix_start 0) with
  | Ok (inr g, d) =>
      match run 9 9 (Node_t 0 0) 2 (pass_program 9 9 true 99) (in_turns 3 2 ++ replicate (2 * k) 0%nat)
              (System d ((fun tid => new_thread (Node_t 0 0) (PData [] [] [] 0) tid (AnyOf g)) <$> [101; 102]) []) with
      | Ok y => Some (snd <$> map_to_list (px_pipes (world (lib (prog y)))))
      | Fault _ => None
      end
  | _ => None
  end.

Lemma datapassingtest_sends_spare :
  pass_sent 6 = Some [concat (replicate 3 ([1; 0; 0] ++ 1 :: le_bytes 2 57005))].
Proof. vm_compute. reflexivity. Qed.

End DataTest.
