(* ===== verification/PingPong.v ===== *)
(** * pingpong (tools/pingpong.cpp)

    Two threads pass a token to and fro, first over two FIFOs and then over two
    message queues, and add one to it each time they send it.  Whatever the
    interleaving, both end with the token at twice the number of rounds.

    The calls of the operating system are the methods of a class; what the program
    relies on is stated as laws: a channel with nothing in it has room for a byte,
    and hands out what was put into it, in order, once. *)

From Stdlib Require Import Ascii String.
From S2P Require Import Prelude.

Module PingPong.
#[local] Open Scope Z_scope.

(** ** The program *)

(** The calls it makes.  [px_open_write] gives [None] while nobody has the FIFO open
    for reading: the call waits.  A call that reads gives its result and the byte. *)
Class PosixCalls (W : Type) := {
  px_mkfifo : string -> W -> W;
  px_unlink : string -> W -> W;
  px_open_write : string -> W -> option (Z * W);
  px_open_read : string -> W -> Z * W;
  px_write : Z -> Z -> W -> Z * W;
  px_read : Z -> W -> Z * Z * W;
  px_mq_open_write : string -> W -> Z * W;
  px_mq_open_read : string -> W -> Z * W;
  px_mq_unlink : string -> W -> W;
  px_mq_send : Z -> Z -> W -> Z * W;
  px_mq_receive : Z -> W -> Z * Z * W;
  px_now : W -> Z * W
}.

(** The places of a worker's function: opening the first and the second channel;
    before [b->wait()], or sleeping in it, with the place after it; [mq_unlink]; the
    test of the descriptors; the first look at the clock; the test of the loop; the
    two halves of its body; the report; the end. *)
Inductive place :=
| Open1
| Open2
| Meet (after : place)
| Sleeps (after : place)
| Unlink
| Verify
| Begin
| Test
| Send
| Receive
| Report
| Done.

#[global] Instance place_eq_dec : EqDecision place.
Proof. solve_decision. Defined.

Record worker := Worker {
  is_master : bool;
  fd_out : Z;
  fd_in : Z;
  token : Z;
  idx : Z;
  began : Z;
  at_pc : place
}.

#[global] Instance worker_eta : Eta worker := fun w =>
  Worker (is_master w) (fd_out w) (fd_in w) (token w) (idx w) (began w) (at_pc w).

(** [(fifo) A: time: 100 (ns)   average rtt: 50 (ns)   token value: 4] *)
Record report := Line { by_master : bool; elapsed : Z; avg_round : Z; value : Z }.

#[global] Instance report_eq_dec : EqDecision report.
Proof. solve_decision. Defined.

(** FIFOs or message queues. *)
Inductive kind := Fifo | Mq.

Definition fifoNames (btoa : bool) : string := if btoa then "/tmp/fifo_btoa" else "/tmp/fifo_atob".
Definition mqNames (btoa : bool) : string := if btoa then "/mq_btoa" else "/mq_atob".

Section Code.
Context {W : Type} `{PosixCalls W} (k : kind) (thresh : Z).

Definition send (fd b : Z) (w : W) : Z * W := match k with Fifo => px_write fd b w | Mq => px_mq_send fd b w end.
Definition receive (fd : Z) (w : W) : Z * Z * W := match k with Fifo => px_read fd w | Mq => px_mq_receive fd w end.

(** [args.fifo_names[!args.is_master]] is written to, the other one read. *)
Definition open_out (t : worker) (w : W) : outcome (worker * W) :=
  match k with
  | Fifo => match px_open_write (fifoNames (negb (is_master t))) w with
            | Some (fd, w) => Ok (t <| fd_out := fd |>, w)
            | None => Fault Blocks
            end
  | Mq => let '(fd, w) := px_mq_open_write (mqNames (negb (is_master t))) w in Ok (t <| fd_out := fd |>, w)
  end.

Definition open_in (t : worker) (w : W) : outcome (worker * W) :=
  let '(fd, w) := match k with
                  | Fifo => px_open_read (fifoNames (is_master t)) w
                  | Mq => px_mq_open_read (mqNames (is_master t)) w
                  end in Ok (t <| fd_in := fd |>, w).

(** The slave of the FIFO workers opens its reading end first. *)
Definition open_first (t : worker) : W -> outcome (worker * W) :=
  match k with Fifo => if is_master t then open_out t else open_in t | Mq => open_out t end.
Definition open_second (t : worker) : W -> outcome (worker * W) :=
  match k with Fifo => if is_master t then open_in t else open_out t | Mq => open_in t end.

(** [++token], and the write. *)
Definition send_turn (t : worker) (w : W) : outcome (worker * list report * W) :=
  let t := t <| token ::= fun v => (v + 1) mod 256 |> in
  let '(ret, w) := send (fd_out t) (token t) w in
  if ret =? -1 then Fault AssertFailure
  else Ok (if is_master t then t <| at_pc := Receive |> else t <| idx ::= fun i => signed 32 (i + 1) |> <| at_pc := Test |>, [], w).

(** [while(!signalled)]: a read that finds nothing is made again. *)
Definition receive_turn (t : worker) (w : W) : outcome (worker * list report * W) :=
  let '(bread, b, w) := receive (fd_in t) w in
  if negb (bread =? -1) && negb (bread =? 0)
  then let t := t <| token := b |> in
       Ok (if is_master t then t <| idx ::= fun i => signed 32 (i + 1) |> <| at_pc := Test |> else t <| at_pc := Send |>, [], w)
  else Fault Blocks.

(** [elapsed / thresh], the [int] as a [uint64_t]. *)
Definition report_turn (t : worker) (w : W) : outcome (worker * list report * W) :=
  let '(now, w) := px_now w in
  let elapsed := wrap64 (now - began t) in
  if thresh =? 0 then Fault DivByZero
  else Ok (t <| at_pc := Done |>, [Line (is_master t) elapsed (elapsed / wrap64 thresh) (token t)], w).

(** The functions [fifo_worker] and [mq_worker], one call at a time; the calls that
    ask for a processor and a priority are left out. *)
Definition turn (t : worker) (w : W) : outcome (worker * list report * W) :=
  match at_pc t with
  | Open1 => '(t, w) ← open_first t w; Ok (t <| at_pc := match k with Fifo => Open2 | Mq => Meet Open2 end |>, [], w)
  | Open2 => '(t, w) ← open_second t w; Ok (t <| at_pc := match k with Fifo => Verify | Mq => Meet Unlink end |>, [], w)
  | Unlink => Ok (t <| at_pc := Verify |>, [], px_mq_unlink (mqNames (negb (is_master t))) w)
  | Verify => if (fd_in t =? -1) || (fd_out t =? -1) then Fault AssertFailure else Ok (t <| at_pc := Meet Begin |>, [], w)
  | Begin => let '(now, w) := px_now w in Ok (t <| began := now |> <| idx := 0 |> <| at_pc := Test |>, [], w)
  | Test => Ok (t <| at_pc := if idx t <? thresh then if is_master t then Send else Receive else Report |>, [], w)
  | Send => send_turn t w
  | Receive => receive_turn t w
  | Report => report_turn t w
  | Meet _ | Sleeps _ | Done => Ok (t, [], w)
  end.

(** ** The two workers *)

Record pair := Pair { master : worker; slave : worker; outside : W; printed : list report }.

#[global] Instance pair_eta : Eta pair := fun y => Pair (master y) (slave y) (outside y) (printed y).

(** [boost::barrier syncbar(2)] *)
Definition meet (t other : worker) (after : place) : worker * worker :=
  match at_pc other with
  | Sleeps after' => (t <| at_pc := after |>, other <| at_pc := after' |>)
  | _ => (t <| at_pc := Sleeps after |>, other)
  end.

(** A turn of the master ([true]) or the slave; [None] when it sleeps or has ended. *)
Definition advance (i : bool) (y : pair) : outcome (option pair) :=
  let t := if i then master y else slave y in
  match at_pc t with
  | Sleeps _ | Done => Ok None
  | Meet after =>
      let '(t, other) := meet t (if i then slave y else master y) after in
      Ok (Some (if i then y <| master := t |> <| slave := other |> else y <| slave := t |> <| master := other |>))
  | _ =>
      match turn t (outside y) with
      | Ok (t, out, w) =>
          Ok (Some (Pair (if i then t else master y) (if i then slave y else t) w (printed y ++ out)))
      | Fault f => Fault f
      end
  end.

Definition step (y y' : pair) : Prop := exists i, advance i y = Ok (Some y').

Fixpoint run (sched : list bool) (y : pair) : outcome pair :=
  match sched with
  | [] => Ok y
  | i :: sched =>
      match advance i y with
      | Ok (Some y') => run sched y'
      | Ok None | Fault Blocks => run sched y
      | Fault f => Fault f
      end
  end.

(** A worker before its first statement; [junk] is what its variables hold. *)
Definition new_worker (junk : Z) (m : bool) : worker := Worker m junk junk 0 junk junk Open1.

(** Both threads run until they are joined. *)
Definition run_workers (junk : Z) (sched : list bool) (w : W) : outcome (list report * W) :=
  y ← run sched (Pair (new_worker junk true) (new_worker junk false) w []);
  if bool_decide (at_pc (master y) = Done /\ at_pc (slave y) = Done) then Ok (printed y, outside y) else Fault Blocks.

End Code.

(** [atoi]: white space, a sign, digits; what does not fit an [int] is undefined. *)
Fixpoint digits_value (acc : Z) (s : list ascii) : Z :=
  match s with
  | c :: s => let v := Z.of_nat (nat_of_ascii c) - 48 in
      if (0 <=? v) && (v <=? 9) then digits_value (10 * acc + v) s else acc
  | [] => acc
  end.

Fixpoint skip_space (s : list ascii) : list ascii :=
  match s with
  | c :: s' => let v := nat_of_ascii c in
      if (v =? 32)%nat || ((9 <=? v)%nat && (v <=? 13)%nat) then skip_space s' else s
  | [] => []
  end.

Definition atoi (s : list ascii) : outcome Z :=
  let v := match skip_space s with
           | c :: s => if Ascii.eqb c "-" then - digits_value 0 s
                       else if Ascii.eqb c "+" then digits_value 0 s else digits_value 0 (c :: s)
           | [] => 0
           end in
  if (- 2 ^ 31 <=? v) && (v <? 2 ^ 31) then Ok v else Fault OutOfBounds.

(** [main]: the exit code, the reports of both pairs; the wrong number of arguments
    only prints the usage. *)
Definition pingpong {W} `{PosixCalls W} (junk : Z) (argv : list (list ascii)) (sched sched' : list bool) (w : W)
    : outcome (Z * list report * list report) :=
  match argv with
  | [_; arg] =>
      thresh ← atoi arg;
      let w := px_mkfifo (fifoNames true) (px_mkfifo (fifoNames false) w) in
      '(out, w) ← run_workers Fifo thresh junk sched w;
      let w := px_unlink (fifoNames true) (px_unlink (fifoNames false) w) in
      '(out', w) ← run_workers Mq thresh junk sched' w;
      Ok (0, out, out')
  | _ => Ok (-1, [], [])
  end.

(** ** What the channels promise *)

(** The writing end [o] and the reading end [i] belong to the same channel; what is
    on its way to the reading end [i]. *)
Class PipeLaws (W : Type) `{PosixCalls W} (k : kind) := {
  linked : W -> Z -> Z -> Prop;
  carried : W -> Z -> list Z;
  send_law w o i b n w' : linked w o i -> carried w i = [] -> send k o b w = (n, w') ->
    n <> -1 /\ carried w' i = [b] /\ (forall o' j, linked w' o' j <-> linked w o' j) /\
    (forall j, ~ linked w o j -> carried w' j = carried w j);
  receive_law w i b q n b' w' : carried w i = b :: q -> receive k i w = (n, b', w') ->
    n = 1 /\ b' = b /\ carried w' i = q /\ (forall o' j, linked w' o' j <-> linked w o' j) /\
    (forall j, (forall o, linked w o i -> ~ linked w o j) -> carried w' j = carried w j);
  empty_law w i n b w' : carried w i = [] -> receive k i w = (n, b, w') -> n = -1 \/ n = 0;
  now_law w n w' : px_now w = (n, w') ->
    (forall o j, linked w' o j <-> linked w o j) /\ (forall j, carried w' j = carried w j)
}.
Arguments linked {W _} k {_}.
Arguments carried {W _} k {_}.

Section Rounds.
Context {W : Type} `{PosixCalls W} (k : kind) `{!PipeLaws W k} (thresh : Z) (Hthresh : 0 < thresh < 2 ^ 31).
Implicit Types (y : pair (W := W)) (w : W) (t : worker).

(** The ends of two separate channels. *)
Record joined w (m s : worker) : Prop := {
  jo_out : linked k w (fd_out m) (fd_in s);
  jo_in : linked k w (fd_out s) (fd_in m);
  jo_m : ~ linked k w (fd_out m) (fd_in m);
  jo_s : ~ linked k w (fd_out s) (fd_in s);
  jo_apart : forall o, linked k w o (fd_in m) -> ~ linked k w o (fd_in s)
}.

(** [n] times one was added. *)
Definition tok (n : Z) : Z := n mod 256.

(** Between rounds, [i] of them over; or at the end. *)
Record resting (t : worker) (i : Z) : Prop := {
  re_token : token t = tok (2 * i);
  re_range : 0 <= i <= thresh;
  re_place : match at_pc t with
             | Begin => i = 0
             | Test => idx t = i
             | Send => idx t = i /\ i < thresh /\ is_master t = true
             | Receive => idx t = i /\ i < thresh /\ is_master t = false
             | Report | Done => i = thresh
             | _ => False
             end
}.

(** The master has sent the token of round [i] and waits for it. *)
Record waiting (t : worker) (i : Z) : Prop := {
  wa_place : at_pc t = Receive;
  wa_idx : idx t = i;
  wa_range : 0 <= i < thresh
}.

(** Where the token is. *)
Inductive phase (m s : worker) : list Z -> list Z -> Prop :=
| Both i : resting m i -> resting s i -> phase m s [] []
| Going i : waiting m i -> resting s i -> phase m s [tok (2 * i + 1)] []
| There i : waiting m i -> at_pc s = Send -> idx s = i -> token s = tok (2 * i + 1) -> phase m s [] []
| Coming i : waiting m i -> resting s (i + 1) -> phase m s [] [tok (2 * (i + 1))].

(** What the reports say of the token. *)
Definition told_by (t : worker) : list (bool * Z) :=
  if bool_decide (at_pc t = Done) then [(is_master t, tok (2 * thresh))] else [].

Definition said (r : report) : bool * Z := (by_master r, value r).

Record inv y : Prop := {
  in_roles : is_master (master y) = true /\ is_master (slave y) = false;
  in_joined : joined (outside y) (master y) (slave y);
  in_phase : phase (master y) (slave y) (carried k (outside y) (fd_in (slave y))) (carried k (outside y) (fd_in (master y)));
  in_printed : said <$> printed y ≡ₚ told_by (master y) ++ told_by (slave y)
}.

(** Turns a worker has left. *)
Definition cost (t : worker) : nat :=
  (let r := 3 * Z.to_nat (thresh - idx t) in
  match at_pc t with
  | Begin => 3 * Z.to_nat thresh + 3
  | Test => r + 2
  | Send => r + if is_master t then 1 else 0
  | Receive => r + if is_master t then 0 else 1
  | Report => 1
  | _ => 0
  end)%nat.

Definition total y : nat := (cost (master y) + cost (slave y))%nat.

Definition better y (r : outcome (option pair)) : Prop :=
  exists y', r = Ok (Some y') /\ inv y' /\ (total y' < total y)%nat.

Lemma tok_succ n : (tok n + 1) mod 256 = tok (n + 1).
Proof. unfold tok. by rewrite Zplus_mod_idemp_l. Qed.

Lemma joined_keeps w w' m s m' s' :
  joined w m s -> (forall o j, linked k w' o j <-> linked k w o j) ->
  fd_out m' = fd_out m -> fd_in m' = fd_in m -> fd_out s' = fd_out s -> fd_in s' = fd_in s -> joined w' m' s'.
Proof.
  intros [Ho Hi Hm Hs Ha] Hl E1 E2 E3 E4. split; rewrite ?E1, ?E2, ?E3, ?E4, ?Hl; try done.
  intros o. rewrite !Hl. apply Ha.
Qed.

(** A worker that touches no channel: it looks at the clock, tests, or reports. *)
Lemma quiet_turn t w i : resting t i -> at_pc t = Begin \/ at_pc t = Test \/ at_pc t = Report ->
  exists t' out w', turn k thresh t w = Ok (t', out, w') /\ resting t' i /\
    (forall o j, linked k w' o j <-> linked k w o j) /\ (forall j, carried k w' j = carried k w j) /\
    fd_out t' = fd_out t /\ fd_in t' = fd_in t /\ is_master t' = is_master t /\
    told_by t' = told_by t ++ (said <$> out) /\ (cost t' < cost t)%nat.
Proof.
  intros [Ht Hr Hp] Hpc. unfold turn, told_by, cost. destruct Hpc as [E|[E|E]]; rewrite E in *.
  - destruct (px_now w) as [now w'] eqn:En. destruct (now_law _ _ _ En) as [Hl Hc]. do 3 eexists. split; [done|].
    split; [by split|]. simpl. split_and!; try done. rewrite Z.sub_0_r. lia.
  - do 3 eexists. split; [done|]. destruct (Z.ltb_spec (idx t) thresh) as [Hlt|Hge].
    + split; [split; try done; simpl; destruct (is_master t) eqn:Em; simpl; rewrite ?Em; split_and!; done || lia|].
      destruct (is_master t) eqn:Em; simpl; rewrite ?Em; split_and!; try done; lia.
    + split; [split; try done; simpl; lia|]. simpl. split_and!; try done; lia.
  - unfold report_turn. destruct (px_now w) as [now w'] eqn:En. destruct (now_law _ _ _ En) as [Hl Hc].
    rewrite (proj2 (Z.eqb_neq thresh 0)) by lia. do 3 eexists. split; [done|]. split; [by split|]. simpl.
    split_and!; try done; [|lia]. unfold said. simpl. by rewrite Ht, Hp.
Qed.

Lemma master_quiet y i : inv y -> at_pc (master y) = Begin \/ at_pc (master y) = Test \/ at_pc (master y) = Report ->
  resting (master y) i -> better y (advance k thresh true y).
Proof.
  intros [[Rm Rs] Hj Hph Hpr] Hpc Hr. destruct (quiet_turn _ (outside y) i Hr Hpc) as (t' & out & w' & E & Hr' & Hl & Hc & Eo & Ei & Em & Et & Hlt).
  exists (Pair t' (slave y) w' (printed y ++ out)). split; [unfold advance; rewrite E; destruct Hpc as [->|[->| ->]]; done|].
  split; [|unfold total; simpl; lia]. split; simpl.
  - by rewrite Em.
  - by apply (joined_keeps (outside y) _ (master y) (slave y)).
  - rewrite Ei, !Hc. assert (Hw : forall j, ~ waiting (master y) j) by (intros j [Hw _ _]; destruct Hpc as [E'|[E'|E']]; congruence).
    inversion Hph as [j Hm Hs E1 E2|j Hw' _|j Hw' _ _ _|j Hw' _]; try by destruct (Hw j).
    assert (j = i) as ->.
    { destruct Hm as [_ _ Pm], Hr as [_ _ Pr]. destruct Hpc as [Ep|[Ep|Ep]]; rewrite Ep in *; congruence. }
    by apply (Both _ _ i).
  - rewrite fmap_app, Hpr, Et. solve_Permutation.
Qed.

Lemma resting_same t i j : resting t i -> resting t j -> i = j.
Proof. intros [_ _ P] [_ _ P']. destruct (at_pc t); try done; try congruence; destruct P, P'; congruence. Qed.

Lemma slave_quiet y i : inv y -> at_pc (slave y) = Begin \/ at_pc (slave y) = Test \/ at_pc (slave y) = Report ->
  resting (slave y) i -> better y (advance k thresh false y).
Proof.
  intros [[Rm Rs] Hj Hph Hpr] Hpc Hr. destruct (quiet_turn _ (outside y) i Hr Hpc) as (t' & out & w' & E & Hr' & Hl & Hc & Eo & Ei & Em & Et & Hlt).
  exists (Pair (master y) t' w' (printed y ++ out)). split; [unfold advance; rewrite E; destruct Hpc as [->|[->| ->]]; done|].
  split; [|unfold total; simpl; lia]. split; simpl.
  - by rewrite Em.
  - by apply (joined_keeps (outside y) _ (master y) (slave y)).
  - rewrite Ei, !Hc. inversion Hph as [j Hm Hs E1 E2|j Hw Hs E1 E2|j _ Hs _ _|j Hw Hs E1 E2].
    + rewrite (resting_same _ _ _ Hs Hr) in *. by apply (Both _ _ i).
    + rewrite (resting_same _ _ _ Hs Hr) in *. by apply Going.
    + destruct Hpc as [E'|[E'|E']]; congruence.
    + apply Coming; [done|]. by rewrite (resting_same _ _ _ Hs Hr).
  - rewrite fmap_app, Hpr, Et. solve_Permutation.
Qed.

Lemma master_sends y : inv y -> at_pc (master y) = Send -> better y (advance k thresh true y).
Proof.
  intros [[Rm Rs] Hj Hph Hpr] Ep. pose proof Hj as [Ho Hi Hm Hs Ha].
  inversion Hph as [i Hrm Hrs E1 E2|i [E' _ _] _|i [E' _ _] _ _ _|i [E' _ _] _]; try congruence.
  destruct Hrm as [Ht Hr Hp]. rewrite Ep in Hp. destruct Hp as (Hix & Hlt & _).
  set (b := tok (2 * i + 1)). destruct (send k (fd_out (master y)) b (outside y)) as [n w'] eqn:En.
  destruct (send_law _ _ _ _ _ _ Ho ltac:(done) En) as (Hn & Hc & Hl & Hoth).
  exists (Pair ((master y) <| token := b |> <| at_pc := Receive |>) (slave y) w' (printed y ++ [])). split.
  { unfold advance, turn, send_turn. rewrite Ep. simpl. rewrite Ht, tok_succ. fold b. rewrite En, (proj2 (Z.eqb_neq _ _) Hn), Rm.
    unfold set_field. simpl. by rewrite Ht, tok_succ. }
  split.
  - split; simpl; try done.
    + by apply (joined_keeps (outside y) _ (master y) (slave y)).
    + rewrite Hc, Hoth, <- E2 by done. apply Going; [|done]. split; simpl; done || lia.
    + rewrite app_nil_r, Hpr. unfold told_by. simpl. rewrite Ep. done.
  - unfold total, cost. simpl. rewrite Ep, Rm. lia.
Qed.

Lemma slave_sends y : inv y -> at_pc (slave y) = Send -> better y (advance k thresh false y).
Proof.
  intros [[Rm Rs] Hj Hph Hpr] Ep. pose proof Hj as [Ho Hi Hm Hs Ha].
  assert (Hno : forall i, ~ resting (slave y) i) by (intros i [_ _ P]; rewrite Ep in P; destruct P as (_ & _ & P); congruence).
  inversion Hph as [i _ Hr|i _ Hr|i Hw _ Hix Ht E1 E2|i _ Hr]; try by destruct (Hno _ Hr).
  set (b := tok (2 * (i + 1))). destruct (send k (fd_out (slave y)) b (outside y)) as [n w'] eqn:En.
  destruct (send_law _ _ _ _ _ _ Hi ltac:(done) En) as (Hn & Hc & Hl & Hoth). pose proof (wa_range _ _ Hw) as Hr.
  assert (Es : signed 32 (idx (slave y) + 1) = i + 1) by (rewrite Hix; apply signed32_small; lia).
  exists (Pair (master y) ((slave y) <| token := b |> <| idx := i + 1 |> <| at_pc := Test |>) w' (printed y ++ [])). split.
  { unfold advance, turn, send_turn. rewrite Ep. simpl. rewrite Ht, tok_succ. replace (2 * i + 1 + 1) with (2 * (i + 1)) by lia.
    fold b. rewrite En, (proj2 (Z.eqb_neq _ _) Hn), Rs. unfold set_field. simpl. rewrite Es, Ht, tok_succ.
    by replace (2 * i + 1 + 1) with (2 * (i + 1)) by lia. }
  split.
  - split; simpl; try done.
    + by apply (joined_keeps (outside y) _ (master y) (slave y)).
    + rewrite Hc, Hoth, <- E1 by done. apply Coming; [done|]. split; simpl; done || lia.
    + rewrite app_nil_r, Hpr. unfold told_by. simpl. rewrite Ep. done.
  - unfold total, cost. simpl. rewrite Ep, Rs, Hix. lia.
Qed.

Lemma slave_receives y : inv y -> at_pc (slave y) = Receive ->
  better y (advance k thresh false y) \/ advance k thresh false y = Fault Blocks /\ carried k (outside y) (fd_in (slave y)) = [].
Proof.
  intros [[Rm Rs] Hj Hph Hpr] Ep. pose proof Hj as [Ho Hi Hm Hs Ha].
  destruct (receive k (fd_in (slave y)) (outside y)) as [[n b] w'] eqn:En.
  destruct (carried k (outside y) (fd_in (slave y))) as [|b' q] eqn:Ec.
  { right. split; [|done]. unfold advance, turn, receive_turn. rewrite Ep, En. by destruct (empty_law _ _ _ _ _ Ec En) as [->| ->]. }
  left. destruct (receive_law _ _ _ _ _ _ _ Ec En) as (-> & -> & Hc & Hl & Hoth).
  inversion Hph as [i _ _|i Hw Hr [Eb Eq] E2|i _ _ _ _|i _ _]. rewrite <- Eb, <- Eq in *. destruct Hr as [_ Hr Hp]. rewrite Ep in Hp. destruct Hp as (Hix & Hlt & _).
  exists (Pair (master y) ((slave y) <| token := tok (2 * i + 1) |> <| at_pc := Send |>) w' (printed y ++ [])). split.
  { unfold advance, turn, receive_turn. rewrite Ep, En. simpl. by rewrite Rs. }
  split.
  - split; simpl; try done.
    + by apply (joined_keeps (outside y) _ (master y) (slave y)).
    + rewrite Hc, Hoth, <- E2; [by apply (There _ _ i)|]. intros o Hos Hom. by apply (Ha o).
    + rewrite app_nil_r, Hpr. unfold told_by. simpl. rewrite Ep. done.
  - unfold total, cost. simpl. rewrite Ep, Rs. lia.
Qed.

Lemma master_receives y : inv y -> at_pc (master y) = Receive ->
  better y (advance k thresh true y) \/ advance k thresh true y = Fault Blocks /\ carried k (outside y) (fd_in (master y)) = [].
Proof.
  intros [[Rm Rs] Hj Hph Hpr] Ep. pose proof Hj as [Ho Hi Hm Hs Ha].
  destruct (receive k (fd_in (master y)) (outside y)) as [[n b] w'] eqn:En.
  destruct (carried k (outside y) (fd_in (master y))) as [|b' q] eqn:Ec.
  { right. split; [|done]. unfold advance, turn, receive_turn. rewrite Ep, En. by destruct (empty_law _ _ _ _ _ Ec En) as [->| ->]. }
  left. destruct (receive_law _ _ _ _ _ _ _ Ec En) as (-> & -> & Hc & Hl & Hoth).
  inversion Hph as [i _ _|i _ _|i _ _ _ _|i Hw Hr E1 [Eb Eq]]. rewrite <- Eb, <- Eq in *. destruct Hw as [_ Hix Hr']. set (b := tok (2 * (i + 1))) in *.
  assert (Es : signed 32 (idx (master y) + 1) = i + 1) by (rewrite Hix; apply signed32_small; lia).
  exists (Pair ((master y) <| token := b |> <| idx := i + 1 |> <| at_pc := Test |>) (slave y) w' (printed y ++ [])). split.
  { unfold advance, turn, receive_turn. rewrite Ep, En. simpl. rewrite Rm. unfold set_field. simpl. by rewrite Es. }
  split.
  - split; simpl; try done.
    + by apply (joined_keeps (outside y) _ (master y) (slave y)).
    + rewrite Hc, Hoth, <- E1 by (intros o; apply Ha). apply (Both _ _ (i + 1)); [|done]. split; simpl; done || lia.
    + rewrite app_nil_r, Hpr. unfold told_by. simpl. rewrite Ep. done.
  - unfold total, cost. simpl. rewrite Ep, Rm, Hix. lia.
Qed.

(** ** All turns *)

Lemma master_turn y : inv y ->
  advance k thresh true y = Ok None /\ at_pc (master y) = Done \/ better y (advance k thresh true y) \/
  advance k thresh true y = Fault Blocks /\ at_pc (master y) = Receive /\ carried k (outside y) (fd_in (master y)) = [].
Proof.
  intros Hy. pose proof Hy as [_ _ Hph _]. destruct (decide (at_pc (master y) = Receive)) as [Er|Er].
  { destruct (master_receives y Hy Er) as [Hb|[E Hc]]; auto. }
  assert (Hr : exists i, resting (master y) i) by (inversion Hph as [i Hr _|i [E _ _] _|i [E _ _] _ _ _|i [E _ _] _]; [eauto|congruence..]).
  destruct Hr as [i Hr]. pose proof (re_place _ _ Hr) as Hp. destruct (at_pc (master y)) eqn:Ep; try done.
  - right; left. apply (master_quiet y i); auto.
  - right; left. apply (master_quiet y i); auto.
  - right; left. by apply master_sends.
  - right; left. apply (master_quiet y i); auto.
  - left. unfold advance. by rewrite Ep.
Qed.

Lemma slave_turn y : inv y ->
  advance k thresh false y = Ok None /\ at_pc (slave y) = Done \/ better y (advance k thresh false y) \/
  advance k thresh false y = Fault Blocks /\ at_pc (slave y) = Receive /\ carried k (outside y) (fd_in (slave y)) = [].
Proof.
  intros Hy. pose proof Hy as [_ _ Hph _]. destruct (decide (at_pc (slave y) = Receive)) as [Er|Er].
  { destruct (slave_receives y Hy Er) as [Hb|[E Hc]]; auto. }
  destruct (decide (at_pc (slave y) = Send)) as [Es|Es]; [right; left; by apply slave_sends|].
  assert (Hr : exists i, resting (slave y) i) by (inversion Hph as [i _ Hr|i _ Hr|i _ E|i _ Hr]; [eauto..|congruence|eauto]).
  destruct Hr as [i Hr]. pose proof (re_place _ _ Hr) as Hp. destruct (at_pc (slave y)) eqn:Ep; try done.
  - right; left. apply (slave_quiet y i); auto.
  - right; left. apply (slave_quiet y i); auto.
  - right; left. apply (slave_quiet y i); auto.
  - left. unfold advance. by rewrite Ep.
Qed.

Lemma worker_turn y i : inv y ->
  match advance k thresh i y with
  | Ok None => True
  | Ok (Some y') => inv y' /\ (total y' < total y)%nat
  | Fault f => f = Blocks
  end.
Proof.
  intros Hy. destruct i; [destruct (master_turn y Hy) as [[-> _]|[(y' & -> & ?)|[-> _]]]
    |destruct (slave_turn y Hy) as [[-> _]|[(y' & -> & ?)|[-> _]]]]; done.
Qed.

Lemma progress y : inv y -> (at_pc (master y) = Done /\ at_pc (slave y) = Done) \/ exists y', step k thresh y y'.
Proof.
  intros Hy. pose proof Hy as [[Rm Rs] _ Hph _].
  destruct (master_turn y Hy) as [[_ Dm]|[(y' & E & _)|(_ & Em & Cm)]]; [|right; exists y'; by exists true|];
  destruct (slave_turn y Hy) as [[_ Ds]|[(y' & E & _)|(_ & Es & Cs)]]; try (right; exists y'; by exists false); [by left|exfalso..].
  - inversion Hph as [i [_ _ Pm] [_ _ Ps]|i [E _ _]|i [E _ _]|i [E _ _]]; try congruence. rewrite Dm in Pm. rewrite Es in Ps. lia.
  - rewrite Cm in Hph. inversion Hph as [i [_ _ Pm] _|i Hw [_ _ Ps]|i _ E|]; try congruence; [rewrite Em in Pm; destruct Pm as (_ & _ & ?); congruence|].
    rewrite Ds in Ps. destruct Hw as [_ _ ?]. lia.
  - rewrite Cm, Cs in Hph. inversion Hph as [i [_ _ Pm] _| |i _ E|]; [rewrite Em in Pm; destruct Pm as (_ & _ & ?)|]; congruence.
Qed.

(** Both workers are through the last barrier and nothing has been sent. *)
Record at_begin y : Prop := {
  ab_roles : is_master (master y) = true /\ is_master (slave y) = false;
  ab_joined : joined (outside y) (master y) (slave y);
  ab_empty : carried k (outside y) (fd_in (slave y)) = [] /\ carried k (outside y) (fd_in (master y)) = [];
  ab_places : at_pc (master y) = Begin /\ at_pc (slave y) = Begin;
  ab_tokens : token (master y) = 0 /\ token (slave y) = 0;
  ab_printed : printed y = []
}.

Lemma begin_inv y : at_begin y -> inv y /\ Z.of_nat (total y) = 6 * thresh + 6.
Proof.
  intros [Hr Hj [E1 E2] [Pm Ps] [Tm Ts] Hp]. split.
  - split; try done.
    + rewrite E1, E2. apply (Both _ _ 0); split; rewrite ?Tm, ?Ts, ?Pm, ?Ps; done || lia.
    + unfold told_by. by rewrite Hp, Pm, Ps.
  - unfold total, cost. rewrite Pm, Ps. lia.
Qed.

Lemma rounds_inv n y0 y : inv y0 -> nsteps (step k thresh) n y0 y -> inv y /\ (n + total y <= total y0)%nat.
Proof.
  intros Hy Hn. induction Hn as [y|n y0 y1 y [i E] _ IH]; [auto|].
  pose proof (worker_turn y0 i Hy) as Ha. rewrite E in Ha. destruct Ha as [Hy1 Hlt]. destruct (IH Hy1). split; [done|lia].
Qed.

(** C11. pingpong's two workers with a positive count [thresh] (an [int]; with 0 the
    report divides by it), over FIFOs or over message queues, connected both ways and
    empty, in any interleaving from the last barrier on: they take at most
    [6 * thresh + 6] turns; no assertion fails and nothing undefined happens (a worker
    can only wait for the token); and when neither can move, both have reported a token
    of [2 * thresh] modulo 256, and no byte is left in a channel. *)
Theorem pingpong_rounds n y0 y :
  at_begin y0 -> nsteps (step k thresh) n y0 y ->
  Z.of_nat n <= 6 * thresh + 6 /\
  (forall i f, advance k thresh i y = Fault f -> f = Blocks) /\
  (~ (exists y', step k thresh y y') ->
   at_pc (master y) = Done /\ at_pc (slave y) = Done /\
   (said <$> printed y) ≡ₚ [(true, (2 * thresh) mod 256); (false, (2 * thresh) mod 256)] /\
   carried k (outside y) (fd_in (slave y)) = [] /\ carried k (outside y) (fd_in (master y)) = []).
Proof.
  intros H0 Hn. destruct (begin_inv y0 H0) as [Hy0 Ht]. destruct (rounds_inv n y0 y Hy0 Hn) as [Hy Hle]. split; [lia|]. split.
  - intros i f E. pose proof (worker_turn y i Hy) as Ha. by rewrite E in Ha.
  - intros Hno. destruct (progress y Hy) as [[Dm Ds]|Hcan]; [|by destruct Hno]. split_and!; try done.
    + rewrite (in_printed y Hy). unfold told_by. rewrite Dm, Ds. simpl. by destruct (in_roles y Hy) as [-> ->].
    + pose proof (in_phase y Hy) as Hph. inversion Hph as [i Hm Hs E1 E2|i [E _ _]|i [E _ _]|i [E _ _]]; congruence.
    + pose proof (in_phase y Hy) as Hph. inversion Hph as [i Hm Hs E1 E2|i [E _ _]|i [E _ _]|i [E _ _]]; congruence.
Qed.

End Rounds.

(** With no rounds to go, the average is a division by zero. *)
Lemma no_rounds_divides_by_zero {W} `{PosixCalls W} k t (w : W) : at_pc t = Report -> turn k 0 t w = Fault DivByZero.
Proof. intros E. unfold turn. rewrite E. unfold report_turn. by destruct (px_now w). Qed.

(** ** A small world *)

(** Named queues of bytes, and descriptors for them. *)
Record queues := Queues {
  chans : gmap string (list Z);
  fds : gmap Z string;
  readers : list string;
  clock : Z
}.

#[global] Instance queues_eta : Eta queues := fun w => Queues (chans w) (fds w) (readers w) (clock w).

Definition chan_of (fd : Z) (w : queues) : list Z :=
  match fds w !! fd with Some n => default [] (chans w !! n) | None => [] end.

Definition new_fd (n : string) (w : queues) : Z * queues :=
  let fd := 3 + Z.of_nat (size (fds w)) in (fd, w <| fds ::= <[fd := n]> |>).

Definition put_byte (ok fd b : Z) (w : queues) : Z * queues :=
  match fds w !! fd with
  | Some n => (ok, w <| chans ::= <[n := chan_of fd w ++ [b]]> |>)
  | None => (-1, w)
  end.

Definition get_byte (fd : Z) (w : queues) : Z * Z * queues :=
  match fds w !! fd, chan_of fd w with
  | Some n, b :: q => (1, b, w <| chans ::= <[n := q]> |>)
  | _, _ => (-1, 0, w)
  end.

#[global] Instance queue_pipes : PosixCalls queues := {
  px_mkfifo _ w := w;
  px_unlink _ w := w;
  px_open_write n w := if bool_decide (n ∈ readers w) then Some (new_fd n w) else None;
  px_open_read n w := new_fd n (w <| readers ::= cons n |>);
  px_write := put_byte 1;
  px_read := get_byte;
  px_mq_open_write := new_fd;
  px_mq_open_read := new_fd;
  px_mq_unlink _ w := w;
  px_mq_send := put_byte 0;
  px_mq_receive := get_byte;
  px_now w := (clock w, w <| clock ::= Z.add 100 |>)
}.

Definition same_queue (w : queues) (o i : Z) : Prop := exists n, fds w !! o = Some n /\ fds w !! i = Some n.

Lemma put_byte_law ok w o i b n w' : ok <> -1 -> same_queue w o i -> chan_of i w = [] -> put_byte ok o b w = (n, w') ->
  n <> -1 /\ chan_of i w' = [b] /\ (forall o' j, same_queue w' o' j <-> same_queue w o' j) /\
  (forall j, ~ same_queue w o j -> chan_of j w' = chan_of j w).
Proof.
  intros Hok (nm & Eo & Ei) Ec. unfold put_byte. rewrite Eo. intros [= <- <-].
  assert (Eco : chan_of o w = []) by (unfold chan_of in *; by rewrite Eo; rewrite Ei in Ec). rewrite Eco.
  split; [done|]. unfold chan_of. simpl. rewrite Ei, lookup_insert_eq. split; [done|]. split; [done|].
  intros j Hj. destruct (fds w !! j) as [nj|] eqn:Ej; [|done]. rewrite lookup_insert_ne; [done|].
  intros <-. apply Hj. by exists nm.
Qed.

Lemma get_byte_law w i b q n b' w' : chan_of i w = b :: q -> get_byte i w = (n, b', w') ->
  n = 1 /\ b' = b /\ chan_of i w' = q /\ (forall o' j, same_queue w' o' j <-> same_queue w o' j) /\
  (forall j, (forall o, same_queue w o i -> ~ same_queue w o j) -> chan_of j w' = chan_of j w).
Proof.
  intros Ec. unfold get_byte. rewrite Ec. destruct (fds w !! i) as [nm|] eqn:Ei; [|unfold chan_of in Ec; by rewrite Ei in Ec].
  intros [= <- <- <-]. unfold chan_of. simpl. rewrite Ei, lookup_insert_eq. split_and!; try done.
  intros j Hj. destruct (fds w !! j) as [nj|] eqn:Ej; [|done]. rewrite lookup_insert_ne; [done|].
  intros <-. by destruct (Hj i); exists nm.
Qed.

#[global] Program Instance queue_laws k : PipeLaws queues k := {| linked := same_queue; carried w i := chan_of i w |}.
Next Obligation.
  intros k w o i b n w' Hl Hc E. destruct k; [by apply (put_byte_law 1 w o i b n w')|by apply (put_byte_law 0 w o i b n w')].
Qed.
Next Obligation. intros k w i b q n b' w' Hc E. by destruct k; apply (get_byte_law w i b q n b' w'). Qed.
Next Obligation.
  intros k w i n b w' Hc E. assert (E' : get_byte i w = (n, b, w')) by (by destruct k). unfold get_byte in E'.
  rewrite Hc in E'. destruct (fds w !! i); injection E' as <- <- <-; auto.
Qed.
Next Obligation. intros k w n w' [= <- <-]. done. Qed.

Definition ping_start : pair (W := queues) :=
  Pair (Worker true 3 4 0 9 9 Begin) (Worker false 6 5 0 9 9 Begin)
    (Queues ∅ (list_to_map [(3, fifoNames false); (5, fifoNames false); (4, fifoNames true); (6, fifoNames true)]) [] 0) [].

Lemma same_queue_dec w o i : same_queue w o i <->
  match fds w !! o, fds w !! i with Some n, Some n' => n = n' | _, _ => False end.
Proof.
  unfold same_queue. destruct (fds w !! o) as [n|], (fds w !! i) as [n'|].
  - split; [by intros (m & [= ->] & [= ->])|]. intros ->. by exists n'.
  - split; [by intros (m & _ & [=])|done].
  - split; [by intros (m & [=] & _)|done].
  - split; [by intros (m & [=] & _)|done].
Qed.

Lemma ping_at_begin k : at_begin k ping_start.
Proof.
  split; try done. split; simpl; rewrite ?same_queue_dec; try done.
  intros o (n & E1 & E2) (n' & E1' & E2'). vm_compute in E2, E2'. congruence.
Qed.

Lemma steps_of_run {W} `{PosixCalls W} k thresh sched (y y' : pair (W := W)) :
  run k thresh sched y = Ok y' -> exists n, nsteps (step k thresh) n y y'.
Proof.
  revert y. induction sched as [|i sched IH]; intros y; simpl; [intros [= ->]; exists 0%nat; constructor|].
  destruct (advance k thresh i y) as [[y1|]|[]] eqn:E; try done; intros Hr; try by apply IH.
  destruct (IH y1 Hr) as [n Hn]. exists (S n). econstructor; [by exists i|done].
Qed.

Lemma pingpong_rounds_witness :
  exists y, run Fifo 130 (concat (replicate 900 [true; false])) ping_start = Ok y /\
    (said <$> printed y) ≡ₚ [(true, 4); (false, 4)].
Proof.
  destruct (run Fifo 130 (concat (replicate 900 [true; false])) ping_start) as [y|] eqn:E; [|vm_compute in E; discriminate].
  exists y. split; [done|].
  assert (Hd : at_pc (master y) = Done /\ at_pc (slave y) = Done) by (vm_compute in E; injection E as <-; done).
  apply steps_of_run in E as [n Hn].
  destruct (pingpong_rounds Fifo 130 ltac:(lia) n ping_start y (ping_at_begin Fifo) Hn) as (_ & _ & Hend).
  destruct Hend as (_ & _ & Hs & _); [|exact Hs].
  intros (y' & i & Ea). unfold advance in Ea. destruct i; rewrite ?(proj1 Hd), ?(proj2 Hd) in Ea; done.
Defined.

(** The program as a whole: three rounds over each kind of channel; no number, or
    nothing to do, ends in a division by zero. *)
Definition pingpong_outcome (arg : string) : outcome (Z * list report * list report) :=
  let sched := concat (replicate 40 [true; false]) in
  pingpong (W := queues) 9 [list_ascii_of_string "pingpong"; list_ascii_of_string arg] sched sched (Queues ∅ ∅ [] 0).

Lemma pingpong_runs :
  pingpong_outcome "3" =
    Ok (0, [Line false 100 33 6; Line true 300 100 6], [Line false 100 33 6; Line true 300 100 6]) /\
  pingpong_outcome "0" = Fault DivByZero /\ pingpong_outcome "many" = Fault DivByZero.
Proof. vm_compute. done. Qed.

End PingPong.
